(* ===== verification/_CoqProject ===== *)
-Q . S2P
Prelude.v
Bytes.v
Utf8.v
Remote.v
RedisServer.v
Merge.v
TTL.v
CacheIface.v
InMemoryCache.v
Codec.v
Ristretto.v
VersionedCache.v
Store.v
RedisStore.v
RedisCache.v
GormStore.v
StoreProps.v
SyncBus.v
Chans.v
NatsBus.v
NatsProps.v
KafkaBus.v
CircuitBreaker.v
RedisBus.v
RedisProps.v
RedisNode.v
Registry.v
Warp.v
WarpCache.v
WarpInv.v
WarpProps.v
Propagation.v
Txn.v
TxnProps.v
Lease.v
Lock.v
LockProps.v
RedisLock.v
NatsLock.v
Validator.v
WarpValidator.v
WarpDemo.v
Proxy.v
WatchBus.v
WatchProps.v
WatchHttp.v
NatsWatch.v
RedisWatch.v
StreamTypes.v
Wire.v
WebTransport.v
MeshPacket.v
Mesh.v
MeshProps.v
MeshLife.v
Presets.v
StreamQueue.v
StreamSub.v
StreamBus.v
StreamProps.v
WebSession.v
