(* ===== verification/Prelude.v ===== *)
(** * go-warp: a verification development

    go-warp is a caching library. A [Warp] puts a cache in front of a store,
    merges concurrent writes, and keeps the caches of several nodes coherent
    by invalidations that travel over a bus: in memory, over redis, NATS or
    Kafka, or over a UDP mesh. Caches live in memory, in ristretto or in redis,
    stores in memory, in redis or in a database. Beside it stand leases,
    transactions, a validator, distributed locks, watch buses with their HTTP
    handlers, a stream bus with its wire protocol and its WebTransport sessions,
    and a proxy that speaks the Redis protocol. This library translates the Go
    sources under [src/] into executable Rocq definitions and proves what makes
    them correct. It needs only the Standard Library and std++.

    ** How the code is modelled

    - Pure functions are functions. A method on a mutable struct takes the
      struct's record last and returns it first; [(A, error)] is [res A],
      [(A, bool, error)] is [res (option A)], [error] is [option error].
      Sentinel errors are constructors of [error].
    - [int], [int64] and [time.Duration] are [Z] kept at 64 bits by [i64],
      unsigned integers by [u64], [u32], [u16]; [float64] is SpecFloat's
      binary64; a [time.Time] is its nanoseconds since the zero time.
    - A context is the stream of answers to its polls ([ctx]); the [k]-th call
      an operation makes with its context sees its own part of the stream
      ([after k]). The clock is an argument.
    - Maps are [gmap]s. Where Go iterates over a map, the order is an argument
      and the theorems hold for every order. Structs that are shared through
      pointers (registrations, subscriptions, channels) are cells of a heap.
    - A goroutine is a task in the state of its component, one function per
      iteration of its loop, or a position in its code with one function per
      step ([global_pc]); a mutex's critical section is one step, and an
      operation that leaves the lock between two of them is split
      ([publish_begin] and [publish_locked], [global_message] and
      [global_entry]); the function of the whole operation is then the run that
      nothing interrupts, and says so.
      Interleavings are step relations ([bus_step], [warp_step], [lock_step],
      [redis_pub_step], [redis_sub_step], [nats_step], [kafka_step],
      [jet_step], [nw_step], [mesh_step], [node_step], [sub_step],
      [stream_step], [session_step]), and the invariants hold in every state they reach.
    - A call of a service can be answered, fail without effect, or fail after
      the server applied it ([net], [outcome], [publish_io]); the theorems hold
      for every sequence of outcomes unless they name one.
    - Interfaces are type classes with the operations of the Go interface
      ([Cache], [Store], [Bus], [TTLStrategy], [Writer], [WatchBus], [FrameBus])
      and, where a client relies on more, a class of laws ([LawfulCache],
      [ValidatedCache], [LawfulStore], [BoundedStrategy], [LawfulFrameBus]); the
      implementations here discharge the laws. The classes
      [SafeMap], [Breaker], [RedisKV], [RedisSet], [JetKV], [SqlDB] and
      [Ristretto] stand for code of other modules, with its documented
      behaviour as laws and a concrete instance of each. [FreshCache] is what
      the cache factory promises of whatever cache it returns: a list of the
      values a read may answer, one after a write that returned nil with a TTL
      that is not negative, more after one that failed or was ignored.

    ** Files

    - [Prelude]: machine integers, time, errors, results, contexts, tactics.
    - [Remote], [RedisServer]: connections whose calls may fail or be lost, and
      the commands of a Redis server.
    - [Merge]: [src/merge/]: vector clocks, last-write-wins, the merge engine,
      version histories. [Compare] decides the pointwise order, [Merge] is its
      join, replicas converge.
    - [TTL]: [src/cache/ttl.go], [src/cache/adaptive/]: TTL options and the
      sliding-window strategy, equal to one that never forgets an access.
    - [CacheIface]: the [Cache] interface of [src/cache/cache.go], its
      contract, [src/cache/resilient.go] and [src/cache/adaptive_cache.go].
    - [InMemoryCache]: [src/cache/cache.go], [src/cache/lru.go]: the bounded
      LRU cache; invariant, read-your-writes, LRU eviction, memory bound, and
      termination of the sweeper.
    - [Codec]: [src/cache/codec.go]. [Ristretto]: [src/cache/ristretto.go],
      [lfu.go] and [factory.go]: no cache of the factory serves a value that was
      overwritten, invalidated or has expired. [RedisCache]:
      [src/cache/redis.go].
    - [VersionedCache]: [src/cache/versioned/]: reads at an instant.
    - [Store]: [src/adapter/adapter.go]: stores and batches. [RedisStore],
      [GormStore]: [src/adapter/redis_store.go] and [gorm_store.go], which
      discharge the laws of a store. [StoreProps]: a batch of any of the three
      is applied as a whole or not at all, with the same meaning.
    - [SyncBus]: [src/syncbus/syncbus.go]: the bus interface and the in-memory
      bus; no send on a closed channel, delivery, exact quorum. The sharded
      map of the foundation library is a parameter with its laws.
    - [Chans]: the channels the broker buses share between their goroutines.
      [NatsBus], [NatsProps]: [src/syncbus/nats/]; [KafkaBus]:
      [src/syncbus/kafka/]: no send on a closed channel, every subscription on
      the current connection, no use of a closed producer, exact audiences.
    - [CircuitBreaker]: [src/syncbus/circuit_breaker.go]: a bus behind a
      circuit breaker.
    - [RedisBus], [RedisProps]: [src/syncbus/redis/]: publication, the batcher
      and its retry, deduplication, subscriptions. A flush answers every request
      of its batch once, with nil only if the server published it and said so;
      a batch is offered once to exactly the subscribers of its keys.
      [RedisNode]: the node [NewRedisBus] starts, with its three goroutines. It
      finds its way back to the global channel after a lost connection, and
      [Close] closes for good what the node listened to, and returns (a request
      that is still queued is not answered, and a subscription whose
      [Subscribe] failed stays open: two of the findings).
    - [Registry]: the 512-shard registry of keys of [src/core/core.go]; it
      refines one flat map.
    - [Warp]: [src/core/core.go]: [New], [Get], [Set], [GetOrSet], [GetAt],
      [Invalidate], [Warmup], registration, background tasks, listeners.
      [WarpCache] lifts the cache laws to the wrapped cache, [WarpInv] is the
      invariant, [WarpProps] the behaviour of each operation on every branch,
      [Propagation] what an eventual write does to another node.
    - [Txn], [TxnProps]: transactions of [src/core/core.go].
    - [Lease]: [src/core/lease.go]. [Validator]: [src/validator/validator.go]:
      the scan, and the loop that heals the cache at every tick.
      [WarpValidator]: [Warp.Validator], which heals the Warp it belongs to.
    - [Lock], [LockProps], [RedisLock], [NatsLock]: [src/lock/lock.go],
      [memory.go], [redis.go] and [nats.go]: the lockers; invariant under every interleaving, exclusion,
      expiry, no lost wake-up.
    - [WatchBus], [WatchProps], [WatchHttp]: [src/watchbus/] (the interface,
      the in-memory bus, the HTTP handlers) and [src/core/watch.go]; the trie
      refines two finite maps. [NatsWatch], [RedisWatch]: the watch buses over
      NATS and redis: a message reaches exactly its audience, a reader delivers
      its stream in order.
    - [Proxy]: [src/cmd/warp-proxy/main.go]: a session with the proxy refines
      the map its clients have in mind, whose entry is one value, or several
      when a key was written at the same instant it is cached with.
      [Presets]: [src/presets/presets.go].
    - [Utf8]: the runes Go's [range] visits in a string.
    - [WarpDemo]: concrete runs that satisfy the hypotheses of the theorems
      above.
    - [Bytes]: the parts of [encoding/binary] and [io] the protocols use.
    - [StreamTypes], [Wire]: [src/streambus/types.go] and
      [src/streambus/wire.go]: the binary protocol; decoding inverts encoding,
      accepted messages are within limits, framed streams read back.
    - [WebTransport]: [src/streambus/webtransport/handler.go]: the messages of
      a session and the pump of a subscription, which sends each frame as a
      datagram or, if that cannot be, on its stream. [WebSession]: a whole
      session, with its workers, its cancellation and its pumps; when it returns
      the subscriptions of its table are closed, and those that were removed
      from it are closed by their pumps, at their next turn.
    - [StreamQueue], [StreamSub], [StreamBus], [StreamProps]:
      [src/streambus/queue.go], [subscription.go] and [inmemory.go]: the ring
      queues refine a bounded list, a subscription loses no wake-up and no
      count, a publication reaches exactly the matching subscriptions, and a
      resumed subscription misses no frame if publishers take the lock in the
      order of their numbers (which the code does not ensure: a finding).
    - [MeshPacket], [Mesh], [MeshProps], [MeshLife]: [src/syncbus/mesh/]:
      datagrams round trip, whatever datagram is accepted is a well-typed packet
      that it encodes, a pending key is in one place, a batch that fits is
      delivered; a failed construction leaves no socket behind, and a closed
      node is silent.

    ** Bounds and fuel

    [read_uvarint] runs at most ten rounds, the length of a varint;
    [write_loop] as many as there are bytes, since an iteration that continues
    takes one; [range_runes] as many as the string has bytes, since a rune has
    one at least; [ring_drain] as many as the ring holds; [run_rounds] in
    [Subscription_drains] one more than the queue holds; [sweep_tick] more than
    a fifth of the cache's size, since a pass that continues removes five
    entries; memory eviction as many as there are entries; [scan_loop] at most
    the pages of a full scan ([rk_span]). The retry loops of the NATS bus run
    over the outcomes of their iterations and answer [None] when they are still
    trying. [redis_global_recovers] needs six turns of the goroutine besides
    the entries of a batch it is at, and [redis_Close_returns] eight turns that
    get on with the close: the longest way through its positions. Each bound is part of a proved statement.

    ** Not modelled

    Prometheus metrics, tracing spans and logs. The servers and clients of
    external services (redis, NATS and its JetStream, Kafka, gorm, ristretto),
    the encoding of a redis batch (JSON in gzip), the JSON and gob codecs, the
    hash function of the validator, the sessions of the WebTransport library,
    the parser of the proxy's protocol, name resolution and the socket of the
    mesh are parameters. Singleflight is its result: a call in flight, whose
    answer is shared, or a call of the function. A value that accompanies an
    error is dropped. The back-off sleeps are not timed. The benchmark commands
    and the examples only drive the library; [warp-store] is a client in
    another language. *)

From stdpp Require Export prelude gmap strings.
From Stdlib Require Export ZArith Lia.

#[export] Set Default Goal Selector "!".

Declare Scope warp_scope.
Delimit Scope warp_scope with warp.
Open Scope Z_scope.

(** ** Machine integers

    Go's [int64] (also [int] and [time.Duration]) and unsigned integers are
    [Z] with the wrap-around written out. *)

Definition u16 (z : Z) : Z := z mod 2 ^ 16.
Definition u32 (z : Z) : Z := z mod 2 ^ 32.
Definition u64 (z : Z) : Z := z mod 2 ^ 64.
Definition i64 (z : Z) : Z := (z + 2 ^ 63) mod 2 ^ 64 - 2 ^ 63.

Definition is_i64 (z : Z) : Prop := - 2 ^ 63 <= z < 2 ^ 63.
Definition is_u64 (z : Z) : Prop := 0 <= z < 2 ^ 64.
Definition is_u32 (z : Z) : Prop := 0 <= z < 2 ^ 32.

#[export] Instance is_i64_dec z : Decision (is_i64 z) := ltac:(unfold is_i64; apply _).
#[export] Instance is_u64_dec z : Decision (is_u64 z) := ltac:(unfold is_u64; apply _).
#[export] Instance is_u32_dec z : Decision (is_u32 z) := ltac:(unfold is_u32; apply _).

Notation "a +₆₄ b" := (i64 (a + b)) (at level 50, left associativity) : warp_scope.
Notation "a -₆₄ b" := (i64 (a - b)) (at level 50, left associativity) : warp_scope.
Open Scope warp_scope.

Create HintDb warp.
Create Rewrite HintDb warp.

Lemma i64_range z : is_i64 (i64 z).
Proof. unfold is_i64, i64. pose proof (Z.mod_pos_bound (z + 2 ^ 63) (2 ^ 64)). lia. Qed.

Lemma i64_id z : is_i64 z -> i64 z = z.
Proof. unfold is_i64, i64. intros. rewrite Z.mod_small; lia. Qed.

Lemma i64_eqm z : (i64 z) mod 2 ^ 64 = z mod 2 ^ 64.
Proof.
  unfold i64. rewrite Zminus_mod_idemp_l. f_equal. lia.
Qed.

Lemma i64_mod_eq a b : a mod 2 ^ 64 = b mod 2 ^ 64 -> i64 a = i64 b.
Proof.
  unfold i64. intros H. f_equal.
  rewrite <- (Zplus_mod_idemp_l a), <- (Zplus_mod_idemp_l b). by rewrite H.
Qed.

Lemma i64_add_idemp_l a b : i64 (i64 a + b) = i64 (a + b).
Proof.
  apply i64_mod_eq. by rewrite <- Zplus_mod_idemp_l, i64_eqm, Zplus_mod_idemp_l.
Qed.

Lemma i64_add_idemp_r a b : i64 (a + i64 b) = i64 (a + b).
Proof. rewrite !(Z.add_comm a). apply i64_add_idemp_l. Qed.

Lemma u64_range z : is_u64 (u64 z).
Proof. unfold is_u64, u64. apply Z.mod_pos_bound. lia. Qed.

Lemma u64_id z : is_u64 z -> u64 z = z.
Proof. apply Z.mod_small. Qed.

Lemma u32_range z : is_u32 (u32 z).
Proof. unfold is_u32, u32. apply Z.mod_pos_bound. lia. Qed.

#[export] Hint Resolve i64_range u64_range u32_range : warp.
#[export] Hint Rewrite i64_add_idemp_l i64_add_idemp_r : warp.

(** ** Time

    An instant ([time.Time]) is the number of nanoseconds since Go's zero
    instant, so [time.Time.IsZero] is [t = 0]; the instants of the type span
    far more than [int64] nanoseconds and are left unbounded. A
    [time.Duration] is an [int64]. [time.Time.Sub] saturates. *)

Abbreviation time := Z (only parsing).
Abbreviation duration := Z (only parsing).

Definition time_IsZero (t : time) : bool := t =? 0.
Definition time_After (t u : time) : bool := u <? t.
Definition time_Add (t : time) (d : duration) : time := t + d.
Definition time_Sub (t u : time) : duration :=
  Z.max (- 2 ^ 63) (Z.min (2 ^ 63 - 1) (t - u)).

Definition Second : duration := 1000000000.
Definition Minute : duration := 60 * Second.

(** ** Errors

    The sentinel errors of the packages, the two errors of [context], errors
    of code outside the repository ([ErrExternal]) and errors that wrap
    another one with [%w]; [ErrNew] is an [errors.New] at its place of use.
    [errors_Is] is Go's [errors.Is] on them. *)

Inductive error :=
| ErrNotFound | ErrUnregistered | ErrCASMismatch | ErrBusRequired
| ErrInvalidLeaseTTL | ErrTimeout | ErrConnectionClosed
| ErrQuorumUnsupported | ErrQuorumNotSatisfied
| Canceled | DeadlineExceeded
| ErrClosed | ErrSubscriptionDone | ErrInvalidTopic | ErrPayloadTooLarge
| ErrInvalidBuffer | ErrReplayUnavailable
| ErrInvalidWireVersion | ErrInvalidWireMessage
| ErrInvalidMagic | ErrShortBuffer
| ErrCircuitOpen
| ErrEOF | ErrUnexpectedEOF | ErrVarintOverflow | ErrShortWrite
| ErrExternal (code : Z)
| ErrNew (msg : string)
| ErrWrap (msg : string) (e : error).

#[export] Instance error_eq_dec : EqDecision error.
Proof. solve_decision. Defined.

Fixpoint errors_Is (e target : error) : bool :=
  bool_decide (e = target) ||
  match e with ErrWrap _ e' => errors_Is e' target | _ => false end.

Lemma errors_Is_refl e : errors_Is e e = true.
Proof. destruct e; apply orb_true_intro; left; by apply bool_decide_eq_true_2. Qed.

(** ** Results

    A Go function that returns [(A, error)] returns a [res A]; one that
    returns [(A, bool, error)] returns a [res (option A)]; one that returns
    only [error] returns an [option error]. *)

Inductive res (A : Type) :=
| Ok (a : A)
| Err (e : error).
Arguments Ok {A} a.
Arguments Err {A} e.

#[export] Instance res_ret : MRet res := @Ok.
#[export] Instance res_bind : MBind res := fun A B f r =>
  match r with Ok a => f a | Err e => Err e end.
#[export] Instance res_fmap : FMap res := fun A B f r =>
  match r with Ok a => Ok (f a) | Err e => Err e end.

Definition is_ok {A} (r : res A) : bool :=
  match r with Ok _ => true | Err _ => false end.

Lemma res_bind_Ok {A B} (r : res A) (f : A -> res B) b :
  (r ≫= f) = Ok b <-> exists a, r = Ok a /\ f a = Ok b.
Proof. destruct r; simpl; naive_solver. Qed.

(** ** Contexts

    A context is what its polls answer: poll number [i] of the operation the
    context is handed to sees [ctx i], [None] while the context is live and
    its [Err()] once it is done. *)

Definition ctx : Type := nat -> option error.
Definition Background : ctx := fun _ => None.

(** The polls of the [k]-th call an operation hands its context to: a stream
    of answers of its own, disjoint from the other calls'. *)
Definition after (k : nat) (cx : ctx) : ctx := fun i => cx (2 ^ k * (2 * i + 1))%nat.

Lemma after_Background k : after k Background = Background.
Proof. done. Qed.

(** ** Slices of channels

    The buses keep the channels of their subscribers in slices and remove one
    by moving the last element to its place. *)

Fixpoint index_of (ch : nat) (l : list nat) : option nat :=
  match l with
  | [] => None
  | c :: l => if Nat.eqb c ch then Some 0%nat else S <$> index_of ch l
  end.

Definition swap_remove (i : nat) (l : list nat) : list nat :=
  match last l with
  | None => l
  | Some z => take (length l - 1) (<[i := z]> l)
  end.

Lemma index_of_Some ch l i : index_of ch l = Some i -> l !! i = Some ch.
Proof.
  revert i. induction l as [|c l IH]; intros i; simpl; [done|].
  destruct (Nat.eqb_spec c ch) as [->|]; [by intros [= <-]|].
  destruct (index_of ch l); [|done]. intros [= <-]. by apply IH.
Qed.

Lemma index_of_None ch l : index_of ch l = None -> ch ∉ l.
Proof.
  induction l as [|c l IH]; simpl; [set_solver|].
  destruct (Nat.eqb_spec c ch) as [->|]; [done|]. destruct (index_of ch l); set_solver.
Qed.

(** Swapping with the last element removes exactly the one at the index. *)
Lemma swap_remove_perm i l ch : l !! i = Some ch -> ch :: swap_remove i l ≡ₚ l.
Proof.
  destruct l as [|z l _] using rev_ind; [done|]. unfold swap_remove.
  rewrite last_snoc, length_app. simpl. replace (length l + 1 - 1)%nat with (length l) by lia.
  intros Hi. destruct (decide (i < length l)%nat).
  - rewrite lookup_app_l in Hi by done.
    rewrite insert_app_l by done. rewrite take_app_length' by (by rewrite length_insert).
    apply list_elem_of_split_length in Hi as (a&r&->&->).
    rewrite insert_app_r_alt, Nat.sub_diag by lia. simpl. solve_Permutation.
  - assert (i = length l) as ->.
    { apply lookup_lt_Some in Hi. rewrite length_app in Hi. simpl in Hi. lia. }
    rewrite lookup_app_r, Nat.sub_diag in Hi by lia. simplify_eq/=.
    rewrite insert_app_r_alt, Nat.sub_diag by lia. simpl. rewrite take_app_length.
    solve_Permutation.
Qed.

(** A list without the first occurrence of a string. *)
Definition list_drop (k : string) (l : list string) : list string :=
  match list_find (eq k) l with Some (i, _) => delete i l | None => l end.

Lemma list_drop_perm k l : k ∈ l -> k :: list_drop k l ≡ₚ l.
Proof.
  intros Hin. unfold list_drop. destruct (list_find (eq k) l) as [[i x]|] eqn:E.
  - apply list_find_Some in E as (Hi & <- & _). symmetry. by apply delete_Permutation.
  - exfalso. apply list_find_None in E. rewrite Forall_forall in E. by apply (E k Hin).
Qed.

(** ** Tactics *)

(** A closed decidable goal, by evaluation of its decision procedure. *)
Ltac decide_closed := apply (bool_decide_unpack _); vm_compute; exact I.

(** Case analysis on every [match] and [if] of the goal or a hypothesis,
    discarding the contradictory cases. *)
Ltac case_all :=
  repeat (case_match; simplify_eq/=).

Ltac case_all_in H :=
  repeat (match type of H with
          | context [match ?x with _ => _ end] => destruct x eqn:?; simplify_eq/=
          end).

(** Turn boolean integer comparisons of the hypotheses into propositions. *)
Ltac bool_to_prop :=
  repeat match goal with
  | H : (_ && _) = true |- _ => apply andb_true_iff in H as [??]
  | H : (_ || _) = false |- _ => apply orb_false_iff in H as [??]
  | H : negb _ = true |- _ => apply negb_true_iff in H
  | H : negb _ = false |- _ => apply negb_false_iff in H
  | H : (_ <? _) = true |- _ => apply Z.ltb_lt in H
  | H : (_ <? _) = false |- _ => apply Z.ltb_ge in H
  | H : (_ <=? _) = true |- _ => apply Z.leb_le in H
  | H : (_ <=? _) = false |- _ => apply Z.leb_gt in H
  | H : (_ =? _) = true |- _ => apply Z.eqb_eq in H
  | H : (_ =? _) = false |- _ => apply Z.eqb_neq in H
  | H : (_ >? _) = true |- _ => rewrite Z.gtb_ltb in H; apply Z.ltb_lt in H
  | H : (_ >? _) = false |- _ => rewrite Z.gtb_ltb in H; apply Z.ltb_ge in H
  | H : (_ >=? _) = true |- _ => rewrite Z.geb_leb in H; apply Z.leb_le in H
  | H : (_ >=? _) = false |- _ => rewrite Z.geb_leb in H; apply Z.leb_gt in H
  end.
