(* ===== verification/Bytes.v ===== *)
(** * Bytes: byte strings, big-endian integers and varints

    The parts of Go's [encoding/binary], [bytes] and [io] the wire formats of
    [src/streambus/wire.go] and [src/syncbus/mesh/packet.go] use: conversions
    between integers and bytes, [PutUvarint], [ReadUvarint], [PutVarint],
    [ReadVarint], big-endian integers, and a small parser monad over byte
    strings. *)

From S2P Require Import Prelude.
From Stdlib Require Import Strings.Byte.

Abbreviation byte := Byte.byte (only parsing).
Abbreviation bytes := (list Byte.byte) (only parsing).

#[export] Instance byte_eq_dec : EqDecision Byte.byte := Byte.byte_eq_dec.

Definition byte_to_Z (b : byte) : Z := Z.of_N (Byte.to_N b).

(** The conversion [byte(x)]: the low eight bits. *)
Definition byte_of_Z (z : Z) : byte := default x00 (Byte.of_N (Z.to_N (z mod 256))).

Lemma byte_to_Z_range b : 0 <= byte_to_Z b < 256.
Proof. unfold byte_to_Z. pose proof (Byte.to_N_bounded b). lia. Qed.

Lemma byte_to_of_Z z : byte_to_Z (byte_of_Z z) = z mod 256.
Proof.
  unfold byte_to_Z, byte_of_Z. pose proof (Z.mod_pos_bound z 256 ltac:(lia)).
  destruct (Byte.of_N (Z.to_N (z mod 256))) as [b|] eqn:E.
  - apply Byte.to_of_N in E. simpl. rewrite E. lia.
  - apply Byte.of_N_None_iff in E. lia.
Qed.

Lemma byte_of_to_Z b : byte_of_Z (byte_to_Z b) = b.
Proof.
  unfold byte_of_Z. pose proof (byte_to_Z_range b). rewrite Z.mod_small by done.
  unfold byte_to_Z. by rewrite N2Z.id, Byte.of_to_N.
Qed.

(** Go strings as bytes. *)
Definition string_bytes (s : string) : bytes := String.list_byte_of_string s.
Definition bytes_string (b : bytes) : string := String.string_of_list_byte b.

Lemma bytes_string_bytes s : bytes_string (string_bytes s) = s.
Proof. apply String.string_of_list_byte_of_string. Qed.

Lemma string_bytes_string b : string_bytes (bytes_string b) = b.
Proof. apply String.list_byte_of_string_of_list_byte. Qed.

Lemma length_string_bytes s : length (string_bytes s) = String.length s.
Proof. induction s; simpl; [done|]. f_equal. exact IHs. Qed.

(** ** Parsers

    A reader of a byte string: what was read and the rest, or an error. *)
Definition parser (A : Type) : Type := bytes -> res (A * bytes).

#[export] Instance parser_ret : MRet parser := fun A a bs => Ok (a, bs).
#[export] Instance parser_bind : MBind parser := fun A B f p bs =>
  match p bs with Ok (a, bs) => f a bs | Err e => Err e end.

Definition fail {A} (e : error) : parser A := fun _ => Err e.

(** Every error of the parser becomes this one. *)
Definition or_error {A} (e : error) (p : parser A) : parser A := fun bs =>
  match p bs with Ok r => Ok r | Err _ => Err e end.

Definition ReadByte : parser byte := fun bs =>
  match bs with [] => Err ErrEOF | b :: bs => Ok (b, bs) end.

(** [io.ReadFull] of [n] bytes. *)
Definition ReadFull (n : nat) : parser bytes := fun bs =>
  if decide (n <= length bs)%nat then Ok (take n bs, drop n bs)
  else Err (if decide (bs = []) then ErrEOF else ErrUnexpectedEOF).

(** [p] reads back what [enc] wrote, whatever follows. *)
Definition reads {A} (p : parser A) (enc : bytes) (a : A) : Prop :=
  forall rest, p (enc ++ rest) = Ok (a, rest).

Lemma reads_ret {A} (a : A) : reads (mret a) [] a.
Proof. done. Qed.

Lemma reads_bind {A B} (p : parser A) (f : A -> parser B) enc enc' a b :
  reads p enc a -> reads (f a) enc' b -> reads (p ≫= f) (enc ++ enc') b.
Proof.
  intros H1 H2 rest. unfold mbind, parser_bind. by rewrite <- app_assoc, H1, H2.
Qed.

Lemma reads_byte b : reads ReadByte [b] b.
Proof. done. Qed.

Lemma reads_or_error {A} e (p : parser A) enc a : reads p enc a -> reads (or_error e p) enc a.
Proof. intros H rest. unfold or_error. by rewrite H. Qed.

Lemma reads_full b : reads (ReadFull (length b)) b b.
Proof.
  intros rest. unfold ReadFull. rewrite decide_True by (rewrite length_app; lia).
  by rewrite take_app_length, drop_app_length.
Qed.

(** ** Varints *)

Definition MaxVarintLen64 : nat := 10.

(** [for x >= 0x80 { buf[i] = byte(x) | 0x80; x >>= 7 }; buf[i] = byte(x)],
    with fuel for the bytes of the buffer. *)
Fixpoint put_uvarint (fuel : nat) (x : Z) : bytes :=
  match fuel with
  | O => []
  | S fuel =>
      if 128 <=? x then byte_of_Z (Z.lor (x mod 256) 128) :: put_uvarint fuel (Z.shiftr x 7)
      else [byte_of_Z x]
  end.

Definition PutUvarint (x : Z) : bytes := put_uvarint MaxVarintLen64 x.

Lemma PutUvarint_nonempty x : PutUvarint x <> [].
Proof. unfold PutUvarint, MaxVarintLen64. cbn [put_uvarint]. by case_match. Qed.

(** The loop of [ReadUvarint] from iteration [i] with accumulator [x] and
    shift [s]; [fuel] counts the iterations left. *)
Fixpoint read_uvarint (fuel i : nat) (x s : Z) : parser Z := fun bs =>
  match fuel with
  | O => Err ErrVarintOverflow
  | S fuel =>
      match bs with
      | [] => Err (if decide (i = 0)%nat then ErrEOF else ErrUnexpectedEOF)
      | b :: bs =>
          let b := byte_to_Z b in
          if b <? 128 then
            if decide (i = MaxVarintLen64 - 1)%nat then
              if 1 <? b then Err ErrVarintOverflow
              else Ok (Z.lor x (u64 (Z.shiftl b s)), bs)
            else Ok (Z.lor x (u64 (Z.shiftl b s)), bs)
          else
            read_uvarint fuel (S i) (Z.lor x (u64 (Z.shiftl (Z.land b 127) s))) (s + 7) bs
      end
  end.

Definition ReadUvarint : parser Z := read_uvarint MaxVarintLen64 0 0 0.

Definition PutVarint (x : Z) : bytes :=
  let ux := u64 (Z.shiftl x 1) in
  let ux := if x <? 0 then u64 (Z.lnot ux) else ux in
  PutUvarint ux.

Definition ReadVarint : parser Z := fun bs =>
  match ReadUvarint bs with
  | Err e => Err e
  | Ok (ux, bs) =>
      let x := i64 (Z.shiftr ux 1) in
      Ok (if Z.land ux 1 =? 0 then x else Z.lnot x, bs)
  end.

(** A disjunction of disjoint bits is a sum. *)
Lemma lor_shiftl_add x b s :
  0 <= s -> 0 <= x < 2 ^ s -> 0 <= b -> Z.lor x (Z.shiftl b s) = x + b * 2 ^ s.
Proof.
  intros Hs Hx Hb. rewrite <- Z.shiftl_mul_pow2 by done. rewrite <- Z.add_lor_land.
  assert (Z.land x (Z.shiftl b s) = 0) as ->; [|lia].
  apply Z.bits_inj'. intros n Hn. rewrite Z.land_spec, Z.bits_0.
  destruct (decide (n < s)).
  - rewrite Z.shiftl_spec_low by done. apply andb_false_r.
  - destruct (decide (x = 0)) as [->|]; [by rewrite Z.bits_0|].
    rewrite (Z.bits_above_log2 x n); [done|lia|]. apply Z.log2_lt_pow2; [lia|].
    apply Z.lt_le_trans with (2 ^ s); [lia|]. apply Z.pow_le_mono_r; lia.
Qed.

Lemma byte_continue x : 0 <= x -> byte_to_Z (byte_of_Z (Z.lor (x mod 256) 128)) = x mod 128 + 128.
Proof.
  intros Hx. rewrite byte_to_of_Z.
  assert (forall y, 0 <= y < 256 -> Z.lor y 128 mod 256 = y mod 128 + 128) as Hall.
  { intros y Hy. replace 128 with (Z.shiftl 1 7) at 1 by done.
    assert (y = y mod 128 + (y / 128) * 128) as Ey by (pose proof (Z_div_mod_eq_full y 128); lia).
    assert (y / 128 = 0 \/ y / 128 = 1) as [E|E].
    { assert (0 <= y / 128 < 2); [|lia]. split; [apply Z.div_pos; lia|apply Z.div_lt_upper_bound; lia]. }
    - pose proof (Z.mod_pos_bound y 128 ltac:(lia)). rewrite lor_shiftl_add by lia.
      rewrite Z.mod_small; lia.
    - pose proof (Z.mod_pos_bound y 128 ltac:(lia)).
      assert (Z.lor y (Z.shiftl 1 7) = y) as ->; [|rewrite Z.mod_small; lia].
      assert (y = Z.lor (y mod 128) (Z.shiftl 1 7)) as Ey2 by (rewrite lor_shiftl_add by lia; lia).
      rewrite Ey2 at 1. rewrite <- Z.lor_assoc, Z.lor_diag. done. }
  rewrite Hall by (apply Z.mod_pos_bound; lia). f_equal.
  rewrite (Z.mod_eq x 256) by lia.
  replace (x - 256 * (x / 256)) with (x + (-2 * (x / 256)) * 128) by lia. apply Z.mod_add. lia.
Qed.

(** Reading back what was written, from any iteration. *)
Lemma read_put_uvarint fuel i x v rest :
  (fuel + i = MaxVarintLen64)%nat -> (0 < fuel)%nat -> 0 <= x < 2 ^ (7 * Z.of_nat i) ->
  0 <= v -> v * 2 ^ (7 * Z.of_nat i) < 2 ^ 64 ->
  read_uvarint fuel i x (7 * Z.of_nat i) (put_uvarint fuel v ++ rest) =
    Ok (x + v * 2 ^ (7 * Z.of_nat i), rest).
Proof.
  revert i x v. induction fuel as [|fuel IH]; intros i x v Hf Hpos Hx Hv Hb; [lia|].
  pose proof (Z.pow_pos_nonneg 2 (7 * Z.of_nat i) ltac:(lia) ltac:(lia)) as Hp.
  simpl. destruct (128 <=? v) eqn:E; bool_to_prop.
  - (* another byte follows *)
    cbn [app]. rewrite byte_continue by lia.
    pose proof (Z.mod_pos_bound v 128 ltac:(lia)) as Hm.
    destruct (v mod 128 + 128 <? 128) eqn:E2; bool_to_prop; [lia|].
    assert (Z.land (v mod 128 + 128) 127 = v mod 128) as ->.
    { change 127 with (Z.ones 7). rewrite Z.land_ones by lia. rewrite Z.add_mod by lia.
      change (128 mod 2 ^ 7) with 0. rewrite Z.add_0_r, !Z.mod_mod by lia. done. }
    assert (v mod 128 <= v) as Hle by (apply Z.mod_le; lia).
    assert (u64 (Z.shiftl (v mod 128) (7 * Z.of_nat i)) = Z.shiftl (v mod 128) (7 * Z.of_nat i)) as ->.
    { apply u64_id. unfold is_u64. rewrite Z.shiftl_mul_pow2 by lia. nia. }
    rewrite lor_shiftl_add by lia.
    replace (7 * Z.of_nat i + 7) with (7 * Z.of_nat (S i)) by lia.
    assert (2 ^ (7 * Z.of_nat (S i)) = 128 * 2 ^ (7 * Z.of_nat i)) as Hpow.
    { replace (7 * Z.of_nat (S i)) with (7 + 7 * Z.of_nat i) by lia. by rewrite Z.pow_add_r by lia. }
    assert (Z.shiftr v 7 = v / 128) as -> by (by rewrite Z.shiftr_div_pow2 by lia).
    assert (v = 128 * (v / 128) + v mod 128) as Ev by (apply Z.div_mod; lia).
    assert (0 <= v / 128) by (apply Z.div_pos; lia).
    destruct fuel as [|fuel'].
    { assert (i = 9)%nat as -> by (unfold MaxVarintLen64 in Hf; lia).
      change (7 * Z.of_nat 9) with 63 in *. lia. }
    rewrite IH; [| lia | lia | rewrite Hpow; nia | lia | rewrite Hpow; nia].
    do 2 f_equal. rewrite Hpow. nia.
  - (* the last byte *)
    cbn [app]. rewrite byte_to_of_Z, Z.mod_small by lia.
    destruct (v <? 128) eqn:E2; bool_to_prop; [|lia].
    assert (u64 (Z.shiftl v (7 * Z.of_nat i)) = Z.shiftl v (7 * Z.of_nat i)) as ->.
    { apply u64_id. unfold is_u64. rewrite Z.shiftl_mul_pow2 by lia. nia. }
    rewrite lor_shiftl_add by lia. case_decide as Hi; [|done].
    assert (i = 9)%nat as -> by (unfold MaxVarintLen64 in Hi; lia).
    change (7 * Z.of_nat 9) with 63 in *. destruct (1 <? v) eqn:E3; bool_to_prop; [lia|done].
Qed.

Lemma reads_uvarint v : is_u64 v -> reads ReadUvarint (PutUvarint v) v.
Proof.
  intros [H1 H2] rest. unfold ReadUvarint, PutUvarint.
  pose proof (read_put_uvarint MaxVarintLen64 0 0 v rest) as H. simpl Z.of_nat in H.
  change (7 * 0) with 0 in H. rewrite Z.mul_1_r in H. apply H; unfold MaxVarintLen64; lia.
Qed.

Lemma reads_varint v : is_i64 v -> reads ReadVarint (PutVarint v) v.
Proof.
  intros [H1 H2] rest. unfold ReadVarint, PutVarint. rewrite reads_uvarint by (case_match; apply u64_range).
  rewrite Z.shiftl_mul_pow2 by lia. change (2 ^ 1) with 2. do 2 f_equal.
  destruct (v <? 0) eqn:E; bool_to_prop.
  - assert (u64 (v * 2) = v * 2 + 2 ^ 64) as ->.
    { unfold u64. symmetry. apply (Z.mod_unique_pos _ _ (-1)); lia. }
    assert (u64 (Z.lnot (v * 2 + 2 ^ 64)) = - v * 2 - 1) as ->.
    { unfold u64, Z.lnot. symmetry. apply (Z.mod_unique_pos _ _ (-1)); lia. }
    change 1 with (Z.ones 1) at 2. rewrite Z.land_ones by lia. change (2 ^ 1) with 2.
    replace ((- v * 2 - 1) mod 2) with 1 by (apply (Z.mod_unique_pos _ _ (- v - 1)); lia). simpl.
    rewrite Z.shiftr_div_pow2 by lia. change (2 ^ 1) with 2.
    replace ((- v * 2 - 1) / 2) with (- v - 1) by (apply (Z.div_unique_pos _ _ _ 1); lia).
    rewrite i64_id by (unfold is_i64; lia). unfold Z.lnot. lia.
  - rewrite u64_id by (unfold is_u64; lia).
    change 1 with (Z.ones 1) at 1. rewrite Z.land_ones by lia. change (2 ^ 1) with 2.
    rewrite Z.mod_mul by lia. simpl. rewrite Z.shiftr_div_pow2 by lia. change (2 ^ 1) with 2.
    rewrite Z.div_mul by lia. apply i64_id. done.
Qed.

Lemma put_uvarint_nonempty fuel v : (0 < fuel)%nat -> (1 <= length (put_uvarint fuel v))%nat.
Proof. destruct fuel; [lia|]. intros _. simpl. case_match; simpl; lia. Qed.

(** ** Big-endian integers *)

Definition put_be (n : nat) (x : Z) : bytes :=
  (fun i => byte_of_Z (Z.shiftr x (8 * (Z.of_nat n - 1 - Z.of_nat i)))) <$> seq 0 n.

Definition get_be (b : bytes) : Z := foldl (fun x c => x * 256 + byte_to_Z c) 0 b.

Lemma put_be_S n x : put_be (S n) x = byte_of_Z (Z.shiftr x (8 * Z.of_nat n)) :: put_be n x.
Proof.
  unfold put_be. cbn [seq]. rewrite fmap_cons. f_equal; [f_equal; f_equal; lia|].
  rewrite <- fmap_S_seq, <- list_fmap_compose. apply list_fmap_ext. intros i y _. simpl.
  do 2 f_equal. lia.
Qed.

Lemma length_put_be n x : length (put_be n x) = n.
Proof. unfold put_be. by rewrite length_fmap, length_seq. Qed.

Lemma get_put_be n x : 0 <= x < 2 ^ (8 * Z.of_nat n) -> get_be (put_be n x) = x.
Proof.
  intros Hx. unfold get_be.
  assert (forall m a, foldl (fun x c => x * 256 + byte_to_Z c) a (put_be m x) =
    a * 2 ^ (8 * Z.of_nat m) + x mod 2 ^ (8 * Z.of_nat m)) as Hgen.
  { induction m as [|m IH]; intros a.
    - simpl. rewrite Z.mod_1_r. lia.
    - rewrite put_be_S. simpl foldl. rewrite IH, byte_to_of_Z, Z.shiftr_div_pow2 by lia.
      replace (8 * Z.of_nat (S m)) with (8 * Z.of_nat m + 8) by lia.
      rewrite Z.pow_add_r by lia. change (2 ^ 8) with 256.
      rewrite (Z.rem_mul_r x) by (lia || (apply Z.pow_nonzero; lia)). lia. }
  rewrite Hgen, Z.mod_small by done. lia.
Qed.

Lemma get_be_snoc b c : get_be (b ++ [c]) = get_be b * 256 + byte_to_Z c.
Proof. unfold get_be. by rewrite foldl_app. Qed.

Lemma put_be_snoc n x : put_be (S n) x = put_be n (x / 256) ++ [byte_of_Z x].
Proof.
  unfold put_be. rewrite seq_S, fmap_app. simpl. f_equal.
  - apply list_fmap_ext. intros i y [-> Hi]%lookup_seq. f_equal. change 256 with (2 ^ 8).
    rewrite <- Z.shiftr_div_pow2, Z.shiftr_shiftr by lia. f_equal. lia.
  - do 2 f_equal. replace (8 * _) with 0 by lia. apply Z.shiftr_0_r.
Qed.

Lemma get_be_range b : 0 <= get_be b < 2 ^ (8 * Z.of_nat (length b)).
Proof.
  induction b as [|c b IH] using rev_ind; [unfold get_be; simpl; lia|]. rewrite get_be_snoc, length_app. simpl.
  pose proof (byte_to_Z_range c). replace (8 * Z.of_nat (length b + 1)) with (8 * Z.of_nat (length b) + 8) by lia.
  rewrite Z.pow_add_r by lia. change (2 ^ 8) with 256. nia.
Qed.

Lemma put_get_be b n : n = length b -> put_be n (get_be b) = b.
Proof.
  intros ->. induction b as [|c b IH] using rev_ind; [done|].
  rewrite length_app, Nat.add_1_r, put_be_snoc, get_be_snoc. pose proof (byte_to_Z_range c).
  replace ((get_be b * 256 + byte_to_Z c) / 256) with (get_be b) by (apply (Z.div_unique _ _ _ (byte_to_Z c)); lia).
  rewrite IH. do 2 f_equal. rewrite <- (byte_of_to_Z c) at 2. unfold byte_of_Z. do 3 f_equal.
  symmetry. rewrite Z.mod_small by done. apply (Z.mod_unique _ _ (get_be b)); lia.
Qed.
