(* ===== verification/Utf8.v ===== *)
(** * Utf8: the runes of a string

    Go's [for _, r := range s] decodes [s] as UTF-8: an invalid byte yields
    the rune U+FFFD and the loop goes on after that one byte. [decode_rune] is
    [unicode/utf8.DecodeRuneInString], [runes] the runes such a loop visits,
    [encode_rune] the encoding of one rune.

    The components that walk a trie rune by rune ([src/watchbus]) compare
    strings by their runes. For valid UTF-8 this is the comparison of their
    bytes ([runes_prefix]); for other strings it is coarser. *)

From S2P Require Import Prelude Bytes.

Definition RuneError : Z := 0xFFFD.

(** A continuation byte in the range the first byte allows. *)
Definition between (lo hi x : Z) : bool := (lo <=? x) && (x <=? hi).
Definition continuation (x : Z) : bool := between 0x80 0xBF x.

(** The bounds of the second byte. *)
Definition accept (x0 : Z) : Z * Z :=
  if x0 =? 0xE0 then (0xA0, 0xBF)
  else if x0 =? 0xED then (0x80, 0x9F)
  else if x0 =? 0xF0 then (0x90, 0xBF)
  else if x0 =? 0xF4 then (0x80, 0x8F)
  else (0x80, 0xBF).

(** [rune(p0&mask)<<(6*k) | ... | rune(b&maskx)] *)
Definition join (hi x : Z) : Z := Z.lor (Z.shiftl hi 6) (Z.land x 0x3F).

(** The rune at the start of a non-empty string and its width. *)
Definition decode_rune (bs : list Byte.byte) : Z * nat :=
  match byte_to_Z <$> bs with
  | [] => (RuneError, 0%nat)
  | x0 :: xs =>
      let second x1 := let '(lo, hi) := accept x0 in between lo hi x1 in
      if x0 <? 0x80 then (x0, 1%nat)
      else if between 0xC2 0xDF x0 then
        match xs with
        | x1 :: _ => if second x1 then (join (Z.land x0 0x1F) x1, 2%nat) else (RuneError, 1%nat)
        | _ => (RuneError, 1%nat)
        end
      else if between 0xE0 0xEF x0 then
        match xs with
        | x1 :: x2 :: _ =>
            if second x1 && continuation x2 then (join (join (Z.land x0 0x0F) x1) x2, 3%nat)
            else (RuneError, 1%nat)
        | _ => (RuneError, 1%nat)
        end
      else if between 0xF0 0xF4 x0 then
        match xs with
        | x1 :: x2 :: x3 :: _ =>
            if second x1 && continuation x2 && continuation x3
            then (join (join (join (Z.land x0 0x07) x1) x2) x3, 4%nat)
            else (RuneError, 1%nat)
        | _ => (RuneError, 1%nat)
        end
      else (RuneError, 1%nat)
  end.

(** The loop consumes at least one byte per round. *)
Fixpoint range_runes (fuel : nat) (bs : list Byte.byte) : list Z :=
  match fuel, bs with
  | S fuel, _ :: _ => let '(r, w) := decode_rune bs in r :: range_runes fuel (drop w bs)
  | _, _ => []
  end.

Definition byte_runes (bs : list Byte.byte) : list Z := range_runes (length bs) bs.

Definition runes (s : string) : list Z := byte_runes (string_bytes s).

(** [utf8.ValidString]: no round decodes an invalid byte. *)
Fixpoint range_valid (fuel : nat) (bs : list Byte.byte) : bool :=
  match fuel, bs with
  | S fuel, _ :: _ =>
      let '(r, w) := decode_rune bs in
      negb ((r =? RuneError) && (w =? 1)%nat) && range_valid fuel (drop w bs)
  | _, _ => true
  end.

Definition byte_valid (bs : list Byte.byte) : bool := range_valid (length bs) bs.
Definition ValidString (s : string) : bool := byte_valid (string_bytes s).

(** [utf8.AppendRune] of a rune some string decodes to. *)
Definition encode_rune (r : Z) : list Byte.byte :=
  byte_of_Z <$>
    if r <? 0x80 then [r]
    else if r <? 0x800 then [0xC0 + r / 64; 0x80 + r mod 64]
    else if r <? 0x10000 then [0xE0 + r / 4096; 0x80 + r / 64 mod 64; 0x80 + r mod 64]
    else [0xF0 + r / 262144; 0x80 + r / 4096 mod 64; 0x80 + r / 64 mod 64; 0x80 + r mod 64].

(** ** One rune *)

Lemma land_mask x n : 0 <= n -> Z.land x (2 ^ n - 1) = x mod 2 ^ n.
Proof. intros. rewrite <- Z.land_ones by done. by rewrite Z.ones_equiv, <- Z.sub_1_r. Qed.

Lemma join_add hi x : 0 <= hi -> join hi x = hi * 64 + x mod 64.
Proof.
  intros. unfold join. change 0x3F with (2 ^ 6 - 1). rewrite land_mask by lia.
  rewrite Z.lor_comm, lor_shiftl_add; [change (2 ^ 6) with 64; lia|lia| |done].
  by apply Z.mod_pos_bound.
Qed.

Lemma between_true lo hi x : between lo hi x = true <-> lo <= x <= hi.
Proof. unfold between. rewrite andb_true_iff, !Z.leb_le. lia. Qed.

(** The encoding of a rune computed from bytes in their ranges. *)
Lemma encode_rune_2 x0 x1 : 0xC2 <= x0 <= 0xDF -> 0x80 <= x1 <= 0xBF ->
  encode_rune (join (Z.land x0 0x1F) x1) = byte_of_Z <$> [x0; x1].
Proof.
  intros H0 H1. change 0x1F with (2 ^ 5 - 1). rewrite land_mask by lia.
  rewrite join_add by (apply Z.mod_pos_bound; lia). change (2 ^ 5) with 32.
  set (r := x0 mod 32 * 64 + x1 mod 64).
  assert (r = (x0 - 0xC0) * 64 + (x1 - 0x80)) as Hr by (unfold r; Z.div_mod_to_equations; lia).
  unfold encode_rune. rewrite (proj2 (Z.ltb_ge r 0x80)), (proj2 (Z.ltb_lt r 0x800)) by lia.
  f_equal. repeat f_equal; Z.div_mod_to_equations; lia.
Qed.

Lemma encode_rune_3 x0 x1 x2 :
  0xE0 <= x0 <= 0xEF -> 0x80 <= x1 <= 0xBF -> (x0 = 0xE0 -> 0xA0 <= x1) -> 0x80 <= x2 <= 0xBF ->
  encode_rune (join (join (Z.land x0 0x0F) x1) x2) = byte_of_Z <$> [x0; x1; x2].
Proof.
  intros H0 H1 H1' H2. change 0x0F with (2 ^ 4 - 1). rewrite land_mask by lia.
  pose proof (Z.mod_pos_bound x0 16). pose proof (Z.mod_pos_bound x1 64).
  change (2 ^ 4) with 16. rewrite !join_add by (rewrite ?join_add by lia; lia).
  set (r := (x0 mod 16 * 64 + x1 mod 64) * 64 + x2 mod 64).
  assert (r = ((x0 - 0xE0) * 64 + (x1 - 0x80)) * 64 + (x2 - 0x80)) as Hr
    by (unfold r; Z.div_mod_to_equations; lia).
  unfold encode_rune. rewrite (proj2 (Z.ltb_ge r 0x80)), (proj2 (Z.ltb_ge r 0x800)),
    (proj2 (Z.ltb_lt r 0x10000)) by lia.
  f_equal. repeat f_equal; Z.div_mod_to_equations; lia.
Qed.

Lemma encode_rune_4 x0 x1 x2 x3 :
  0xF0 <= x0 <= 0xF4 -> 0x80 <= x1 <= 0xBF -> (x0 = 0xF0 -> 0x90 <= x1) ->
  0x80 <= x2 <= 0xBF -> 0x80 <= x3 <= 0xBF ->
  encode_rune (join (join (join (Z.land x0 0x07) x1) x2) x3) = byte_of_Z <$> [x0; x1; x2; x3].
Proof.
  intros H0 H1 H1' H2 H3. change 0x07 with (2 ^ 3 - 1). rewrite land_mask by lia.
  pose proof (Z.mod_pos_bound x0 8). pose proof (Z.mod_pos_bound x1 64).
  pose proof (Z.mod_pos_bound x2 64).
  change (2 ^ 3) with 8. rewrite (join_add (x0 mod 8)) by lia.
  rewrite (join_add (_ + _) x2), join_add by lia.
  set (r := ((x0 mod 8 * 64 + x1 mod 64) * 64 + x2 mod 64) * 64 + x3 mod 64).
  assert (r = (((x0 - 0xF0) * 64 + (x1 - 0x80)) * 64 + (x2 - 0x80)) * 64 + (x3 - 0x80)) as Hr
    by (unfold r; Z.div_mod_to_equations; lia).
  unfold encode_rune. rewrite (proj2 (Z.ltb_ge r 0x80)), (proj2 (Z.ltb_ge r 0x800)),
    (proj2 (Z.ltb_ge r 0x10000)) by lia.
  f_equal. repeat f_equal; Z.div_mod_to_equations; lia.
Qed.

(** A decoded rune is either an invalid byte, or its encoding stands at the
    start of the string, and decodes the same whatever follows it. *)
Definition decoded (r : Z) (w : nat) (bs : list Byte.byte) : Prop :=
  length (encode_rune r) = w /\ (exists rest, bs = encode_rune r ++ rest) /\
  forall rest, decode_rune (encode_rune r ++ rest) = (r, w).

Lemma second_range x0 x1 :
  (let '(lo, hi) := accept x0 in between lo hi x1) = true ->
  0x80 <= x1 <= 0xBF /\ (x0 = 0xE0 -> 0xA0 <= x1) /\ (x0 = 0xF0 -> 0x90 <= x1).
Proof.
  unfold accept. repeat case_match; simplify_eq; bool_to_prop; intros H%between_true; lia.
Qed.

(** The encoding is the bytes that were decoded. *)
Ltac by_encoding L :=
  match goal with
  | |- context [encode_rune ?r] =>
    let E := fresh "E" in
    assert (encode_rune r = byte_of_Z <$> _) as E by (eapply L; eauto; lia);
    rewrite E; simpl; rewrite !byte_of_to_Z; clear E
  end.

Lemma decode_rune_inv b bs r w :
  decode_rune (b :: bs) = (r, w) -> r = RuneError /\ w = 1%nat \/ decoded r w (b :: bs).
Proof.
  intros H. pose proof (byte_to_Z_range b) as Hb. unfold decode_rune in H.
  rewrite fmap_cons in H. cbn beta iota zeta in H.
  destruct (byte_to_Z b <? 0x80) eqn:H0.
  { right. simplify_eq. unfold decoded, encode_rune. rewrite H0. simpl. rewrite byte_of_to_Z.
    split_and!; [done|by exists bs|]. intros rest. unfold decode_rune. simpl. by rewrite H0. }
  destruct (between 0xC2 0xDF _) eqn:H2.
  { destruct bs as [|b1 bs]; simpl in H; [left; by simplify_eq|].
    destruct (let '(lo, hi) := accept _ in _) eqn:Hs; [right; simplify_eq|left; by simplify_eq].
    pose proof (second_range _ _ Hs) as (?&?&?). pose proof H2 as H2'%between_true.
    unfold decoded. by_encoding encode_rune_2. split_and!; [done|by exists bs|]. intros rest.
    unfold decode_rune. simpl. by rewrite H0, H2, Hs. }
  destruct (between 0xE0 0xEF _) eqn:H3.
  { destruct bs as [|b1 [|b2 bs]]; simpl in H; [left; by simplify_eq..|].
    destruct (_ && continuation _) eqn:Hs; [right; simplify_eq|left; by simplify_eq].
    pose proof Hs as [Hs1 Hs2%between_true]%andb_true_iff.
    pose proof (second_range _ _ Hs1) as (?&?&?). pose proof H3 as H3'%between_true.
    unfold decoded. by_encoding encode_rune_3. split_and!; [done|by exists bs|]. intros rest.
    unfold decode_rune. simpl. by rewrite H0, H2, H3, Hs. }
  destruct (between 0xF0 0xF4 _) eqn:H4; [|left; by simplify_eq].
  destruct bs as [|b1 [|b2 [|b3 bs]]]; simpl in H; [left; by simplify_eq..|].
  destruct (_ && continuation _) eqn:Hs; [right; simplify_eq|left; by simplify_eq].
  pose proof Hs as [[Hs1 Hs2%between_true]%andb_true_iff Hs3%between_true]%andb_true_iff.
  pose proof (second_range _ _ Hs1) as (?&?&?). pose proof H4 as H4'%between_true.
  unfold decoded. by_encoding encode_rune_4. split_and!; [done|by exists bs|]. intros rest.
  unfold decode_rune. simpl. by rewrite H0, H2, H3, H4, Hs.
Qed.

(** ** Strings *)

Lemma encode_rune_nonempty r : encode_rune r <> [].
Proof. unfold encode_rune. by repeat case_match. Qed.

Lemma decode_rune_width b bs :
  (1 <= snd (decode_rune (b :: bs)) <= length (b :: bs))%nat.
Proof.
  destruct (decode_rune (b :: bs)) as [r w] eqn:E. simpl.
  apply decode_rune_inv in E as [[_ ->]|(Hw & [rest Hr] & _)]; [lia|].
  apply (f_equal length) in Hr. rewrite length_app in Hr. simpl in Hr.
  pose proof (encode_rune_nonempty r). destruct (encode_rune r); simpl in *; [done|lia].
Qed.

(** More rounds than bytes make no difference. *)
Lemma range_runes_fuel n bs : (length bs <= n)%nat -> range_runes n bs = byte_runes bs.
Proof.
  unfold byte_runes. remember (length bs) as m eqn:Hm. revert n bs Hm.
  induction m as [m IH] using lt_wf_ind. intros n bs -> Hn.
  destruct bs as [|b bs]; [by destruct n|]. destruct n as [|n]; [simpl in Hn; lia|].
  cbn [length range_runes]. pose proof (decode_rune_width b bs) as Hw.
  destruct (decode_rune (b :: bs)) as [r w]. cbn [snd length] in *. f_equal.
  assert (length (drop w (b :: bs)) <= length bs)%nat by (rewrite length_drop; simpl; lia).
  transitivity (range_runes (length (drop w (b :: bs))) (drop w (b :: bs))); [|symmetry];
    eapply IH; (done || simpl; lia).
Qed.

Lemma range_valid_fuel n bs : (length bs <= n)%nat -> range_valid n bs = byte_valid bs.
Proof.
  unfold byte_valid. remember (length bs) as m eqn:Hm. revert n bs Hm.
  induction m as [m IH] using lt_wf_ind. intros n bs -> Hn.
  destruct bs as [|b bs]; [by destruct n|]. destruct n as [|n]; [simpl in Hn; lia|].
  cbn [length range_valid]. pose proof (decode_rune_width b bs) as Hw.
  destruct (decode_rune (b :: bs)) as [r w]. cbn [snd length] in *. f_equal.
  assert (length (drop w (b :: bs)) <= length bs)%nat by (rewrite length_drop; simpl; lia).
  transitivity (range_valid (length (drop w (b :: bs))) (drop w (b :: bs))); [|symmetry];
    eapply IH; (done || simpl; lia).
Qed.

Lemma byte_runes_cons b bs :
  byte_runes (b :: bs) =
    let '(r, w) := decode_rune (b :: bs) in r :: byte_runes (drop w (b :: bs)).
Proof.
  unfold byte_runes at 1. cbn [length range_runes]. pose proof (decode_rune_width b bs) as Hw.
  destruct (decode_rune (b :: bs)) as [r w]. f_equal. apply range_runes_fuel.
  rewrite length_drop. simpl in *. lia.
Qed.

Lemma byte_valid_cons b bs :
  byte_valid (b :: bs) =
    let '(r, w) := decode_rune (b :: bs) in
    negb ((r =? RuneError) && (w =? 1)%nat) && byte_valid (drop w (b :: bs)).
Proof.
  unfold byte_valid at 1. cbn [length range_valid]. pose proof (decode_rune_width b bs) as Hw.
  destruct (decode_rune (b :: bs)) as [r w]. f_equal. apply range_valid_fuel.
  rewrite length_drop. simpl in *. lia.
Qed.

(** A valid string is a sequence of encoded runes. *)
Lemma byte_valid_ind (P : list Byte.byte -> Prop) :
  P [] ->
  (forall r rest, (forall s, decode_rune (encode_rune r ++ s) = (r, length (encode_rune r))) ->
     byte_valid rest = true -> P rest -> P (encode_rune r ++ rest)) ->
  forall bs, byte_valid bs = true -> P bs.
Proof.
  intros H0 Hs bs. remember (length bs) as m eqn:Hm. revert bs Hm.
  induction m as [m IH] using lt_wf_ind. intros [|b bs] -> Hv; [done|].
  rewrite byte_valid_cons in Hv. pose proof (decode_rune_width b bs) as Hw.
  destruct (decode_rune (b :: bs)) as [r w] eqn:E. simpl in Hw.
  apply andb_true_iff in Hv as [Hn Hv].
  apply decode_rune_inv in E as [[-> ->]|(Hl & [rest Hr] & Hd)]; [done|].
  rewrite Hr in Hv |- *. rewrite <- Hl, drop_app_length in Hv. apply Hs; [|done|].
  - intros s. by rewrite Hl.
  - eapply IH; [|done|done]. apply (f_equal length) in Hr. rewrite length_app in Hr.
    pose proof (encode_rune_nonempty r). destruct (encode_rune r); simpl in *; [done|lia].
Qed.

Lemma byte_runes_encode r rest :
  (forall s, decode_rune (encode_rune r ++ s) = (r, length (encode_rune r))) ->
  byte_runes (encode_rune r ++ rest) = r :: byte_runes rest.
Proof.
  intros H. specialize (H rest). pose proof (encode_rune_nonempty r) as Hn.
  destruct (encode_rune r) as [|b e] eqn:E; [done|]. rewrite <- app_comm_cons in H |- *.
  rewrite byte_runes_cons, H, app_comm_cons, drop_app_length. done.
Qed.

Lemma byte_runes_app p rest :
  byte_valid p = true -> byte_runes (p ++ rest) = byte_runes p ++ byte_runes rest.
Proof.
  revert p. apply byte_valid_ind; [done|]. intros r p Hd _ IH.
  by rewrite <- app_assoc, !byte_runes_encode, IH.
Qed.

Lemma byte_runes_concat p :
  byte_valid p = true -> concat (encode_rune <$> byte_runes p) = p.
Proof.
  revert p. apply byte_valid_ind; [done|]. intros r p Hd _ IH.
  by rewrite byte_runes_encode, fmap_cons, concat_cons, IH.
Qed.

(** On valid UTF-8, comparing runes is comparing bytes. *)
Lemma runes_prefix p k :
  ValidString p = true -> ValidString k = true ->
  runes p `prefix_of` runes k <-> string_bytes p `prefix_of` string_bytes k.
Proof.
  intros Hp Hk. split.
  - intros [l Hl]. exists (concat (encode_rune <$> l)).
    rewrite <- (byte_runes_concat _ Hp), <- (byte_runes_concat _ Hk), <- concat_app, <- fmap_app.
    unfold runes in Hl. by rewrite Hl.
  - intros [l Hl]. exists (byte_runes l). unfold runes. rewrite Hl. by apply byte_runes_app.
Qed.

Lemma runes_inj p k :
  ValidString p = true -> ValidString k = true -> runes p = runes k -> p = k.
Proof.
  intros Hp Hk E. rewrite <- (bytes_string_bytes p), <- (bytes_string_bytes k). f_equal.
  unfold runes in E. by rewrite <- (byte_runes_concat _ Hp), <- (byte_runes_concat _ Hk), E.
Qed.

Lemma runes_nil s : runes s = [] <-> s = "".
Proof.
  split; [|by intros ->]. intros E. rewrite <- (bytes_string_bytes s). unfold runes in E.
  destruct (string_bytes s) as [|b bs]; [done|]. rewrite byte_runes_cons in E. by case_match.
Qed.
