(* ===== verification/Remote.v ===== *)
(** * Remote: calls to other processes

    The clients of redis, NATS, Kafka and SQL servers are code of other
    modules. What the components here need of a call is its outcome: answered,
    or failed with an error, in which case the server may have executed it or
    not. A connection is the server's state with the outcomes the next calls
    will meet; once the list is exhausted, calls are answered.

    [ctx_err] and [redis_error] are the translations of errors that
    [src/adapter/] and [src/cache/redis.go] apply after every call. *)

From S2P Require Import Prelude.

(** The outcome of a call: answered, or failed, with or without effect. *)
Inductive net := NetOk | NetLost (applied : bool) (e : error).

Definition net_applied (n : net) : bool := match n with NetOk => true | NetLost a _ => a end.
Definition net_error (n : net) : option error := match n with NetOk => None | NetLost _ e => Some e end.

(** [oc_ctx]: what the context of the call ([context.WithTimeout]) answers to a
    poll after the call. *)
Record outcome := mkOutcome { oc_net : net; oc_ctx : option error }.

Definition on_time : outcome := mkOutcome NetOk None.

Record conn (R : Type) := mkConnection { server : R; outcomes : list outcome }.
Arguments mkConnection {R} _ _.
Arguments server {R} _.
Arguments outcomes {R} _.

Definition next_outcome (os : list outcome) : outcome * list outcome :=
  match os with [] => (on_time, []) | o :: os => (o, os) end.

(** One call: the connection, the answer, and the poll of its context. *)
Definition call {R A} (f : R -> R * A) (c : conn R) : conn R * (res A * option error) :=
  let '(o, os) := next_outcome (outcomes c) in
  let '(r, a) := f (server c) in
  (mkConnection (if net_applied (oc_net o) then r else server c) os,
   (match net_error (oc_net o) with None => Ok a | Some e => Err e end, oc_ctx o)).

(** [errors.Is(err, context.DeadlineExceeded)] becomes [ErrTimeout]. *)
Definition ctx_err (e : error) : error := if errors_Is e DeadlineExceeded then ErrTimeout else e.

(** [redis.ErrClosed] becomes [ErrConnectionClosed]. *)
Definition redis_ErrClosed : error := ErrNew "redis: client is closed".

Definition redis_error (e : error) : error :=
  if errors_Is e DeadlineExceeded then ErrTimeout
  else if errors_Is e redis_ErrClosed then ErrConnectionClosed
  else e.

(** ** Lemmas *)

Section Call.
Context {R A : Type}.
Implicit Types (c : conn R) (f : R -> R * A).

(** A call leaves the server alone or does what it says. *)
Lemma call_server f c :
  server (fst (call f c)) = server c \/ server (fst (call f c)) = fst (f (server c)).
Proof.
  unfold call. destruct (next_outcome _) as [o os], (f (server c)) as [r a]. simpl.
  destruct (net_applied _); tauto.
Qed.

Lemma call_answer f c a :
  fst (snd (call f c)) = Ok a ->
  server (fst (call f c)) = fst (f (server c)) /\ a = snd (f (server c)).
Proof.
  unfold call. destruct (next_outcome _) as [[n l] os], (f (server c)) as [r x]. simpl.
  destruct n; simpl; [|done]. by intros [= ->].
Qed.

(** Reads never change the server. *)
Lemma call_read f c : fst (f (server c)) = server c -> server (fst (call f c)) = server c.
Proof. intros H. destruct (call_server f c) as [E|E]; congruence. Qed.

Lemma call_on_time f c : outcomes c = [] ->
  call f c = (mkConnection (fst (f (server c))) [], (Ok (snd (f (server c))), None)).
Proof. intros H. unfold call. rewrite H. simpl. by destruct (f (server c)). Qed.

End Call.

(** Neither translation hides an error, and neither lets the errors it
    translates through. *)
Lemma ctx_err_not_deadline e : errors_Is (ctx_err e) DeadlineExceeded = false.
Proof. unfold ctx_err. by destruct (errors_Is e DeadlineExceeded) eqn:E. Qed.

Lemma redis_error_translated e :
  errors_Is (redis_error e) DeadlineExceeded = false /\ errors_Is (redis_error e) redis_ErrClosed = false.
Proof.
  unfold redis_error. destruct (errors_Is e DeadlineExceeded) eqn:E1; [done|].
  by destruct (errors_Is e redis_ErrClosed) eqn:E2.
Qed.
