(* ===== verification/RedisServer.v ===== *)
(** * RedisServer: what a redis server promises

    The server is a parameter of the components that use it: the type class
    [RedisKV] has the commands they issue, on values of one type, and
    [LawfulRedisKV] their documented behaviour. [redis_map], a finite map with
    expiry times, is an instance.

    A command runs at an instant; [rk_now] is the server's own clock, for the
    components whose calls carry no instant. A time to live of zero never
    expires; a positive one is sent in milliseconds, [rk_ttl]. *)

From S2P Require Import Prelude.

Definition Millisecond : duration := 1000000.

(** [rk_Scan now cursor] is [SCAN cursor MATCH * COUNT 100]: some keys, and the
    cursor to go on with, zero at the end. [rk_Set] and [rk_SetNX] with a TTL
    that is not positive set a value that does not expire, except that [rk_Set]
    with [KeepTTL] keeps the expiry of the value it replaces. *)
Definition KeepTTL : duration := -1.

Class RedisKV (R V : Type) := {
  rk_now : R -> time;
  rk_Get : time -> string -> R -> option V;
  rk_Set : time -> string -> V -> duration -> R -> R;
  rk_SetNX : time -> string -> V -> duration -> R -> R * bool;
  rk_Del : time -> string -> R -> R;
  rk_Scan : time -> Z -> R -> list string * Z;
}.

(** [SCAN] goes through the slots of the hash table in a fixed order: a call
    answers at least the keys between its cursor and the next one, so that a
    full iteration meets every key that is there; it may answer more. *)
Class LawfulRedisKV (R V : Type) `{RedisKV R V} := {
  rk_data : time -> R -> gmap string V;
  rk_ttl : duration -> duration;
  rk_slot : string -> nat;
  rk_pos : Z -> nat;
  rk_span : nat;
  rk_ttl_ms : forall d, Millisecond <= d -> d - Millisecond < rk_ttl d <= d;
  rk_ttl_pos : forall d, 0 < d -> 0 < rk_ttl d;
  rk_Get_data : forall now k (r : R), rk_Get now k r = rk_data now r !! k;
  rk_decays : forall now now' k v (r : R), now <= now' -> rk_Get now' k r = Some v -> rk_Get now k r = Some v;
  rk_Set_get : forall now now' k v ttl (r : R), ttl <> KeepTTL \/ rk_Get (V := V) now k r = None -> now <= now' ->
    rk_Get now' k (rk_Set now k v ttl r) = if decide (0 < ttl /\ now + rk_ttl ttl <= now') then None else Some v;
  rk_Set_other : forall now now' k k' v ttl (r : R), k <> k' ->
    rk_Get now' k' (rk_Set now k v ttl r) = rk_Get now' k' r;
  rk_SetNX_ok : forall now k v ttl (r : R),
    snd (rk_SetNX now k v ttl r) = bool_decide (rk_Get (V := V) now k r = None);
  rk_SetNX_taken : forall now k v ttl (r : R),
    rk_Get (V := V) now k r <> None -> fst (rk_SetNX now k v ttl r) = r;
  rk_SetNX_free : forall now now' k k' v ttl (r : R), rk_Get (V := V) now k r = None -> now <= now' ->
    rk_Get now' k' (fst (rk_SetNX now k v ttl r)) = rk_Get now' k' (rk_Set now k v ttl r);
  rk_Del_get : forall now now' k (r : R), now <= now' -> rk_Get (V := V) now' k (rk_Del now k r) = None;
  rk_Del_other : forall now now' k k' (r : R), k <> k' ->
    rk_Get (V := V) now' k' (rk_Del now k r) = rk_Get now' k' r;
  rk_now_Set : forall now k v ttl (r : R), rk_now (rk_Set now k v ttl r) = rk_now r;
  rk_now_Del : forall now k (r : R), rk_now (rk_Del now k r) = rk_now r;
  rk_pos_0 : rk_pos 0 = 0%nat;
  rk_Scan_advances : forall now c (r : R) ks c', rk_Scan now c r = (ks, c') -> c' <> 0 ->
    (rk_pos c < rk_pos c' <= rk_span)%nat;
  rk_Scan_covers : forall now c (r : R) ks c' k, rk_Scan now c r = (ks, c') ->
    rk_Get (V := V) now k r <> None -> (rk_pos c <= rk_slot k)%nat -> (c' = 0 \/ (rk_slot k < rk_pos c')%nat) -> k ∈ ks;
  rk_Scan_sound : forall now c (r : R) ks c' k, rk_Scan now c r = (ks, c') -> k ∈ ks ->
    rk_Get (V := V) now k r <> None;
}.

Section Lawful.
Context {R V : Type} `{!RedisKV R V, !LawfulRedisKV R V}.
Implicit Types r : R.

(** A value set without expiry is there, and nothing else has changed. *)
Lemma rk_data_Set now k v r : rk_data now (rk_Set now k v 0 r) = <[k := v]> (rk_data now r).
Proof.
  apply map_eq. intros k'. rewrite <- rk_Get_data. destruct (decide (k = k')) as [<-|Hne].
  - rewrite rk_Set_get by (try (left; unfold KeepTTL); lia). rewrite decide_False by lia. by rewrite lookup_insert_eq.
  - rewrite rk_Set_other by done. by rewrite lookup_insert_ne, rk_Get_data.
Qed.

Lemma rk_data_Del now k r : rk_data (V := V) now (rk_Del now k r) = delete k (rk_data now r).
Proof.
  apply map_eq. intros k'. rewrite <- rk_Get_data. destruct (decide (k = k')) as [<-|Hne].
  - rewrite rk_Del_get by lia. by rewrite lookup_delete_eq.
  - rewrite rk_Del_other by done. by rewrite lookup_delete_ne, rk_Get_data.
Qed.

Lemma rk_SetNX_get now now' k v ttl r : rk_Get (V := V) now k r = None -> now <= now' ->
  rk_Get now' k (fst (rk_SetNX now k v ttl r)) = if decide (0 < ttl /\ now + rk_ttl ttl <= now') then None else Some v.
Proof. intros. rewrite rk_SetNX_free by done. apply rk_Set_get; [by right|done]. Qed.

Lemma rk_SetNX_other now now' k k' v ttl r : k <> k' -> now <= now' ->
  rk_Get (V := V) now' k' (fst (rk_SetNX now k v ttl r)) = rk_Get now' k' r.
Proof.
  intros Hne Hle. destruct (rk_Get now k r) as [w|] eqn:E.
  - by rewrite rk_SetNX_taken by congruence.
  - rewrite rk_SetNX_free by done. by apply rk_Set_other.
Qed.

End Lawful.

(** ** An instance: a finite map *)

Section RedisMap.
Variable V : Type.

(** The clock and the entries, with their expiry. *)
Record redis_map := mkRedisMap { rm_now : time; rm_entries : gmap string (V * option time) }.

Definition rm_ttl (d : duration) : duration := Z.max 1 (d / Millisecond) * Millisecond.

Definition rm_live (now : time) (e : V * option time) : option V :=
  match e with (v, Some d) => if d <=? now then None else Some v | (v, None) => Some v end.

Definition rm_data (now : time) (r : redis_map) : gmap string V := omap (rm_live now) (rm_entries r).

Definition rm_Set (now : time) (k : string) (v : V) (ttl : duration) (r : redis_map) : redis_map :=
  mkRedisMap (rm_now r)
    (<[k := (v, if 0 <? ttl then Some (now + rm_ttl ttl) else None)]> (rm_entries r)).

(** Two slots: the keys of even and of odd length. *)
Definition rm_slot (k : string) : nat := (String.length k mod 2)%nat.
Definition rm_keys (now : time) (slot : nat) (r : redis_map) : list string :=
  filter (fun k => rm_slot k = slot) (map_to_list (rm_data now r)).*1.

#[export] Instance redis_map_KV : RedisKV redis_map V := {
  rk_now := rm_now;
  rk_Get := fun now k r => rm_data now r !! k;
  rk_Set := rm_Set;
  rk_SetNX := fun now k v ttl r =>
    match rm_data now r !! k with None => (rm_Set now k v ttl r, true) | Some _ => (r, false) end;
  rk_Del := fun _ k r => mkRedisMap (rm_now r) (delete k (rm_entries r));
  rk_Scan := fun now c r => if c =? 1 then (rm_keys now 1 r, 0) else (rm_keys now 0 r, 1);
}.

Lemma rm_keys_elem now slot k r : k ∈ rm_keys now slot r <-> rm_slot k = slot /\ rm_data now r !! k <> None.
Proof.
  unfold rm_keys. rewrite list_elem_of_filter, list_elem_of_fmap. split.
  - intros (Hs & [k' v] & -> & Hin%elem_of_map_to_list). split; [done|]. simpl. rewrite Hin. done.
  - intros [Hs Hk]. split; [done|]. destruct (rm_data now r !! k) as [v|] eqn:E; [|done].
    exists (k, v). split; [done|]. by apply elem_of_map_to_list.
Qed.

Lemma rm_slot_cases k : rm_slot k = 0%nat \/ rm_slot k = 1%nat.
Proof. unfold rm_slot. pose proof (Nat.mod_upper_bound (String.length k) 2). lia. Qed.

Lemma rm_Set_data now now' k v ttl r k' : now <= now' ->
  rm_data now' (rm_Set now k v ttl r) !! k' =
    if decide (k = k') then if decide (0 < ttl /\ now + rm_ttl ttl <= now') then None else Some v
    else rm_data now' r !! k'.
Proof.
  intros Hle. unfold rm_data, rm_Set. simpl. rewrite !lookup_omap. destruct (decide (k = k')) as [<-|Hne].
  - rewrite lookup_insert_eq. simpl. destruct (0 <? ttl) eqn:E; bool_to_prop; simpl.
    + destruct (_ <=? now') eqn:E'; bool_to_prop; destruct (decide _); done || lia.
    + rewrite decide_False by lia. done.
  - by rewrite lookup_insert_ne.
Qed.
End RedisMap.

Arguments mkRedisMap {V} _ _.
Arguments rm_now {V} _.
Arguments rm_entries {V} _.

#[export] Instance redis_map_lawful V : LawfulRedisKV (redis_map V) V.
Proof.
  refine {| rk_data := rm_data V; rk_ttl := rm_ttl; rk_slot := rm_slot;
            rk_pos := fun c => if c =? 1 then 1%nat else 0%nat; rk_span := 1%nat |}; simpl; try done.
  - intros d Hd. unfold rm_ttl, Millisecond in *. pose proof (Z.div_mod d 1000000).
    pose proof (Z.mod_pos_bound d 1000000). lia.
  - intros d Hd. unfold rm_ttl, Millisecond. lia.
  - intros now now' k v r Hle. unfold rm_data. rewrite !lookup_omap.
    destruct (rm_entries r !! k) as [[w [d|]]|]; simpl; try done.
    destruct (d <=? now') eqn:E1, (d <=? now) eqn:E2; bool_to_prop; done || lia.
  - intros now now' k v ttl r _ Hle. rewrite rm_Set_data by done. by rewrite decide_True.
  - intros now now' k k' v ttl r Hne. unfold rm_data, rm_Set. simpl. by rewrite !lookup_omap, lookup_insert_ne.
  - intros now k v ttl r. by destruct (rm_data V now r !! k).
  - intros now k v ttl r H. by destruct (rm_data V now r !! k).
  - intros now now' k k' v ttl r -> Hle. done.
  - intros now now' k r Hle. unfold rm_data. simpl. by rewrite lookup_omap, lookup_delete_eq.
  - intros now now' k k' r Hne. unfold rm_data. simpl. by rewrite !lookup_omap, lookup_delete_ne.
  - intros now c r ks c'. destruct (c =? 1) eqn:E; intros [= <- <-] H; [done|]. simpl. lia.
  - intros now c r ks c' k. destruct (c =? 1) eqn:E; intros [= <- <-] Hk Hp Hn; rewrite rm_keys_elem;
      (split; [|done]); destruct (rm_slot_cases k); simpl in *; lia.
  - intros now c r ks c' k. destruct (c =? 1); intros [= <- <-]; rewrite rm_keys_elem; tauto.
Defined.
