(* ===== verification/Merge.v ===== *)
(** * Merge: vector clocks, merge strategies and version histories

    Models [src/merge/merge.go] ([VectorClock], [Value], [LastWriteWins],
    [Engine]) and [src/merge/versioned.go] ([VersionedValue]). A Go map that
    may be [nil] is an [option]; iteration over a map is a fold over its
    entries. *)

From S2P Require Import Prelude.

(** ** Vector clocks *)

(** [map[string]uint64]; an absent region reads as 0. *)
Abbreviation VectorClock := (gmap string Z).

Definition vc_at (vc : VectorClock) (k : string) : Z := default 0 (vc !! k).

Definition vc_wf (vc : VectorClock) : Prop := map_Forall (fun _ v => is_u64 v) vc.

(** [Copy] of a nil clock ranges over nothing and returns an empty, non-nil
    clock. *)
Definition VectorClock_Copy (vc : option VectorClock) : VectorClock :=
  map_fold (fun k v n => <[k := v]> n) ∅ (default ∅ vc).

Definition VectorClock_Increment (region : string) (vc : VectorClock) : VectorClock :=
  <[region := u64 (vc_at vc region + 1)]> vc.

Definition VectorClock_Merge (vc : VectorClock) (other : option VectorClock) : VectorClock :=
  map_fold (fun k v acc => if vc_at acc k <? v then <[k := v]> acc else acc)
    vc (default ∅ other).

(** The two loops of [Compare] and its two flags. *)
Definition compare_own (vc other : VectorClock) : bool * bool :=
  map_fold (fun k v '(greater, smaller) =>
    let ov := vc_at other k in
    if ov <? v then (true, smaller)
    else if v <? ov then (greater, true)
    else (greater, smaller)) (false, false) vc.

Definition compare_other (vc other : VectorClock) (smaller : bool) : bool :=
  map_fold (fun k v s =>
    match vc !! k with
    | None => if 0 <? v then true else s
    | Some _ => s
    end) smaller other.

Definition VectorClock_Compare (vc other : VectorClock) : Z :=
  let '(greater, smaller) := compare_own vc other in
  let smaller := compare_other vc other smaller in
  if greater && smaller then -2
  else if greater then 1
  else if smaller then -1
  else 0.

(** ** Values and strategies *)

Record Value (T : Type) := mkValue {
  Data : T;
  Timestamp : time;
  Vector : option VectorClock;
  Region : string;
}.
Arguments mkValue {T} _ _ _ _.
Arguments Data {T} _.
Arguments Timestamp {T} _.
Arguments Vector {T} _.
Arguments Region {T} _.

(** The composite literal [Value{Data: d, Timestamp: t}]. *)
Definition value_of {T} (d : T) (t : time) : Value T := mkValue d t None "".

Definition LastWriteWins_Merge {T} (old new : Value T) : Value T :=
  let by_time := if time_After (Timestamp new) (Timestamp old) then new else old in
  match Vector old, Vector new with
  | Some ov, Some nv =>
      let cmp := VectorClock_Compare nv ov in
      if cmp =? 1 then new
      else if cmp =? -1 then old
      else by_time
  | _, _ => by_time
  end.

Definition MergeFn (T : Type) : Type := T -> T -> res T.

Record Engine (T : Type) := mkEngine {
  custom : gmap string (MergeFn T);
  defaultStrategy : Value T -> Value T -> Value T;
}.
Arguments mkEngine {T} _ _.
Arguments custom {T} _.
Arguments defaultStrategy {T} _.

Definition NewEngine {T} : Engine T := mkEngine ∅ LastWriteWins_Merge.

Definition Engine_Register {T} (key : string) (fn : MergeFn T) (e : Engine T) : Engine T :=
  mkEngine (<[key := fn]> (custom e)) (defaultStrategy e).

Definition Engine_HasCustom {T} (key : string) (e : Engine T) : bool :=
  bool_decide (is_Some (custom e !! key)).

Definition Engine_Merge {T} (e : Engine T) (key : string) (old new : Value T) : res (Value T) :=
  match custom e !! key with
  | Some fn =>
      match fn (Data old) (Data new) with
      | Err err => Err err
      | Ok v =>
          let mergedVC := VectorClock_Merge (VectorClock_Copy (Vector old)) (Vector new) in
          Ok (mkValue v (Timestamp new) (Some mergedVC) (Region new))
      end
  | None => Ok (defaultStrategy e old new)
  end.

Lemma Engine_Merge_default {T} (e : Engine T) key old new :
  Engine_HasCustom key e = false -> Engine_Merge e key old new = Ok (defaultStrategy e old new).
Proof.
  unfold Engine_HasCustom, Engine_Merge. destruct (custom e !! key); [|done].
  by rewrite bool_decide_eq_true_2 by eauto.
Qed.

(** ** Version histories *)

Record VersionedValue (T : Type) := mkVersioned {
  versions : list (Value T);
  limit : Z;
}.
Arguments mkVersioned {T} _ _.
Arguments versions {T} _.
Arguments limit {T} _.

Definition NewVersionedValue {T} (v : Value T) (limit : Z) : VersionedValue T :=
  mkVersioned [v] limit.

Definition VersionedValue_Add {T} (val : Value T) (v : VersionedValue T) : VersionedValue T :=
  let vs := versions v ++ [val] in
  if (0 <? limit v) && (limit v <? Z.of_nat (length vs))
  then mkVersioned (drop (length vs - Z.to_nat (limit v))%nat vs) (limit v)
  else mkVersioned vs (limit v).

Definition VersionedValue_Latest {T} (v : VersionedValue T) : option (Value T) :=
  last (versions v).

(** The loop of [At] runs from the newest entry to the oldest. *)
Fixpoint at_loop {T} (t : time) (newest_first : list (Value T)) : option (Value T) :=
  match newest_first with
  | [] => None
  | x :: rest => if negb (time_After (Timestamp x) t) then Some x else at_loop t rest
  end.

Definition VersionedValue_At {T} (t : time) (v : VersionedValue T) : option (Value T) :=
  at_loop t (reverse (versions v)).

(** ** Pointwise order and equivalence of clocks *)

Definition vc_le (a b : VectorClock) : Prop := forall k, vc_at a k <= vc_at b k.
Definition vc_equiv (a b : VectorClock) : Prop := forall k, vc_at a k = vc_at b k.

#[export] Instance vc_le_preorder : PreOrder vc_le.
Proof.
  split; [by intros a k|].
  intros a b c H1 H2 k. specialize (H1 k). specialize (H2 k). lia.
Qed.

#[export] Instance vc_equiv_equivalence : Equivalence vc_equiv.
Proof.
  split; [by intros a k | by intros a b H k |].
  intros a b c H1 H2 k. by rewrite H1, H2.
Qed.

Lemma vc_equiv_le a b : vc_equiv a b <-> vc_le a b /\ vc_le b a.
Proof.
  unfold vc_equiv, vc_le. split.
  - intros H. split; intros k; specialize (H k); lia.
  - intros [H1 H2] k. specialize (H1 k). specialize (H2 k). lia.
Qed.

#[export] Instance vc_le_proper : Proper (vc_equiv ==> vc_equiv ==> iff) vc_le.
Proof.
  intros a a' Ha b b' Hb. split; intros H k; specialize (H k); [by rewrite <- Ha, <- Hb|].
  by rewrite Ha, Hb.
Qed.

Lemma vc_at_nonneg vc k : vc_wf vc -> 0 <= vc_at vc k.
Proof.
  intros H. unfold vc_at. destruct (vc !! k) eqn:E; simpl; [|lia].
  apply (H _ _ E).
Qed.

#[export] Hint Resolve vc_at_nonneg : warp.

Lemma VectorClock_Copy_eq vc : VectorClock_Copy vc = default ∅ vc.
Proof.
  unfold VectorClock_Copy. generalize (default ∅ vc). intros m.
  apply (map_fold_weak_ind (fun r m => r = m)); [done|].
  intros i x m' r _ ->. done.
Qed.

(** What the merge loop leaves at each region. *)
Lemma VectorClock_Merge_at vc other k :
  vc_at (VectorClock_Merge vc other) k =
  match default ∅ other !! k with
  | Some v => Z.max (vc_at vc k) v
  | None => vc_at vc k
  end.
Proof.
  unfold VectorClock_Merge. generalize (default ∅ other). intros m.
  apply (map_fold_weak_ind (fun r m => vc_at r k =
    match m !! k with Some v => Z.max (vc_at vc k) v | None => vc_at vc k end)); [done|].
  intros i x m' r Hi IH. destruct (decide (i = k)) as [->|Hne].
  - rewrite Hi in IH. rewrite lookup_insert_eq. destruct (vc_at r k <? x) eqn:E; bool_to_prop.
    + unfold vc_at at 1. rewrite lookup_insert_eq. simpl. lia.
    + lia.
  - rewrite lookup_insert_ne by done. rewrite <- IH.
    destruct (vc_at r i <? x); [|done]. unfold vc_at. by rewrite lookup_insert_ne.
Qed.

(** On well-formed clocks the merge is the pointwise maximum. *)
Lemma VectorClock_Merge_max vc other k :
  vc_wf vc -> vc_wf (default ∅ other) ->
  vc_at (VectorClock_Merge vc other) k = Z.max (vc_at vc k) (vc_at (default ∅ other) k).
Proof.
  intros H1 H2. rewrite VectorClock_Merge_at. pose proof (vc_at_nonneg _ k H1).
  unfold vc_at at 4. destruct (default ∅ other !! k); simpl; lia.
Qed.

Lemma VectorClock_Merge_wf vc other :
  vc_wf vc -> vc_wf (default ∅ other) -> vc_wf (VectorClock_Merge vc other).
Proof.
  unfold VectorClock_Merge. generalize (default ∅ other). intros m Hvc Hm.
  revert Hm. apply (map_fold_weak_ind (fun r m => vc_wf m -> vc_wf r)); [done|].
  intros i x m' r Hi IH Hm.
  assert (vc_wf m') as Hm'.
  { intros j y Hj. apply (Hm j y). rewrite lookup_insert_ne; [done|]. congruence. }
  destruct (vc_at r i <? x); [|auto]. apply map_Forall_insert_2; [|exact (IH Hm')].
  apply (Hm i x). apply lookup_insert_eq.
Qed.

(** The flags of [Compare] say whether some region is strictly greater or
    strictly smaller. *)
Lemma compare_own_spec vc other :
  (fst (compare_own vc other) = true <-> exists k v, vc !! k = Some v /\ vc_at other k < v) /\
  (snd (compare_own vc other) = true <-> exists k v, vc !! k = Some v /\ v < vc_at other k).
Proof.
  unfold compare_own.
  apply (map_fold_weak_ind (fun r m =>
    (fst r = true <-> exists k v, m !! k = Some v /\ vc_at other k < v) /\
    (snd r = true <-> exists k v, m !! k = Some v /\ v < vc_at other k))).
  - simpl. split; split; try done; intros (?&?&H%lookup_empty_Some&_); done.
  - intros i x m [g s] Hi [IHg IHs]. simpl in *.
    assert (forall P : string -> Z -> Prop,
      (exists k v, <[i:=x]> m !! k = Some v /\ P k v) <->
      P i x \/ (exists k v, m !! k = Some v /\ P k v)) as Hins.
    { intros P. split.
      - intros (k&v&[[-> ->]|[? ?]]%lookup_insert_Some&HP); eauto.
      - intros [HP|(k&v&Hk&HP)]; [exists i, x; by rewrite lookup_insert_eq|].
        exists k, v. rewrite lookup_insert_ne; [done|congruence]. }
    rewrite (Hins (fun k v => vc_at other k < v)), (Hins (fun k v => v < vc_at other k)).
    rewrite <- IHg, <- IHs.
    destruct (vc_at other i <? x) eqn:E1; [|destruct (x <? vc_at other i) eqn:E2];
      bool_to_prop; simpl; split; split; intuition (done || lia).
Qed.

Lemma compare_other_spec vc other s :
  compare_other vc other s = true <->
  s = true \/ exists k v, other !! k = Some v /\ vc !! k = None /\ 0 < v.
Proof.
  unfold compare_other.
  apply (map_fold_weak_ind (fun r m => r = true <->
    s = true \/ exists k v, m !! k = Some v /\ vc !! k = None /\ 0 < v)).
  - split; [by left|]. intros [?|(?&?&H%lookup_empty_Some&_)]; done.
  - intros i x m r Hi IH. split.
    + intros H. destruct (vc !! i) eqn:Ei; [|destruct (0 <? x) eqn:E; bool_to_prop].
      2: { right. exists i, x. by rewrite lookup_insert_eq. }
      all: apply IH in H as [?|(k&v&Hk&?)]; [by left|right; exists k, v].
      all: rewrite lookup_insert_ne; [done|congruence].
    + intros [->|(k&v&[[-> ->]|[? Hk]]%lookup_insert_Some&Hn&Hv)].
      * rewrite (proj2 IH) by (by left). by destruct (vc !! i), (0 <? x).
      * rewrite Hn. apply Z.ltb_lt in Hv. by rewrite Hv.
      * rewrite (proj2 IH) by (right; eauto). by destruct (vc !! i), (0 <? x).
Qed.

Lemma vc_not_le a b : ~ vc_le a b <-> exists k, vc_at b k < vc_at a k.
Proof.
  split.
  - intros H.
    destruct (decide (map_Forall (fun k v => v <= vc_at b k) a /\
                      map_Forall (fun k v => a !! k = None -> 0 <= v) b)) as [[H1 H2]|H1].
    + exfalso. apply H. intros k. unfold vc_at at 1.
      destruct (a !! k) eqn:E; simpl; [by apply H1|].
      unfold vc_at. destruct (b !! k) eqn:E2; simpl; [|done]. by apply (H2 k).
    + apply not_and_l in H1 as [H1|H1].
      * apply map_not_Forall in H1 as (k&v&Hk&Hv); [|solve_decision]. exists k.
        unfold vc_at at 2. rewrite Hk. simpl. lia.
      * apply map_not_Forall in H1 as (k&v&Hk&Hv); [|solve_decision]. exists k.
        destruct (a !! k) eqn:E; [naive_solver|].
        unfold vc_at. rewrite Hk, E. simpl. destruct (decide (0 <= v)); [naive_solver|lia].
  - intros [k Hk] H. specialize (H k). lia.
Qed.

Definition vc_le_dec a b : {vc_le a b} + {~ vc_le a b}.
Proof.
  destruct (decide (map_Forall (fun k v => v <= vc_at b k) a)) as [H1|H1].
  - destruct (decide (map_Forall (fun k v => a !! k = None -> 0 <= v) b)) as [H2|H2].
    + left. intros k. unfold vc_at at 1. destruct (a !! k) eqn:E; simpl; [by apply H1|].
      unfold vc_at. destruct (b !! k) eqn:E2; simpl; [|done]. by apply (H2 k).
    + right. intros H. apply H2. intros k v Hk Hn. specialize (H k).
      unfold vc_at in H. rewrite Hn, Hk in H. done.
  - right. intros H. apply H1. intros k v Hk. specialize (H k). unfold vc_at at 1 in H.
    by rewrite Hk in H.
Defined.

#[export] Instance vc_le_decision a b : Decision (vc_le a b) := vc_le_dec a b.

Lemma compare_flags vc other :
  vc_wf vc -> vc_wf other ->
  (fst (compare_own vc other) = true <-> ~ vc_le vc other) /\
  (compare_other vc other (snd (compare_own vc other)) = true <-> ~ vc_le other vc).
Proof.
  intros Hv Ho. destruct (compare_own_spec vc other) as [Hg Hs]. split.
  - rewrite Hg, vc_not_le. split.
    + intros (k&v&Hk&Hlt). exists k. unfold vc_at at 2. by rewrite Hk.
    + intros [k Hk]. pose proof (vc_at_nonneg _ k Ho). unfold vc_at at 2 in Hk.
      destruct (vc !! k) eqn:E; simpl in Hk; [eauto|lia].
  - rewrite compare_other_spec, Hs, vc_not_le. split.
    + intros [(k&v&Hk&Hlt)|(k&v&Hk&Hn&Hlt)]; exists k; unfold vc_at in *.
      * by rewrite Hk.
      * by rewrite Hk, Hn.
    + intros [k Hk]. destruct (vc !! k) eqn:E; unfold vc_at in Hk; rewrite E in Hk; simpl in Hk.
      * left. exists k, z. split; [done|]. unfold vc_at. lia.
      * right. destruct (other !! k) eqn:E2; simpl in Hk; [eauto|lia].
Qed.

Lemma VectorClock_Compare_cases vc other :
  vc_wf vc -> vc_wf other ->
  VectorClock_Compare vc other =
    if decide (vc_le vc other) then (if decide (vc_le other vc) then 0 else -1)
    else (if decide (vc_le other vc) then 1 else -2).
Proof.
  intros Hv Ho. destruct (compare_flags vc other Hv Ho) as [Hg Hs].
  unfold VectorClock_Compare. destruct (compare_own vc other) as [g s]. simpl in *.
  destruct g, (compare_other vc other s); simpl;
    repeat case_decide; naive_solver.
Qed.

(** [VectorClock.Compare] decides the pointwise order of two clocks
    (an absent region counts as 0): it returns 1 exactly when the receiver
    strictly dominates, -1 when the argument does, 0 when the clocks agree in
    every region and -2 when they are concurrent. *)
Theorem VectorClock_Compare_correct (vc other : VectorClock) :
  vc_wf vc -> vc_wf other ->
  (VectorClock_Compare vc other = 1 <-> vc_le other vc /\ ~ vc_le vc other) /\
  (VectorClock_Compare vc other = -1 <-> vc_le vc other /\ ~ vc_le other vc) /\
  (VectorClock_Compare vc other = 0 <-> vc_equiv vc other) /\
  (VectorClock_Compare vc other = -2 <-> ~ vc_le vc other /\ ~ vc_le other vc).
Proof.
  intros Hv Ho. rewrite VectorClock_Compare_cases, vc_equiv_le by done.
  repeat case_decide; naive_solver.
Qed.

(** The clocks the witnesses use. *)
Definition vcA : VectorClock := {["eu" := 2; "us" := 1]}.
Definition vcB : VectorClock := {["eu" := 1; "ap" := 1]}.

#[export] Instance vc_wf_dec vc : Decision (vc_wf vc) := ltac:(unfold vc_wf; apply _).

Lemma vcA_wf : vc_wf vcA.
Proof. decide_closed. Qed.

Lemma vcB_wf : vc_wf vcB.
Proof. decide_closed. Qed.

Lemma VectorClock_Compare_correct_witness :
  VectorClock_Compare vcA vcB = -2 /\ ~ vc_le vcA vcB /\ ~ vc_le vcB vcA.
Proof.
  assert (VectorClock_Compare vcA vcB = -2) as E by (vm_compute; reflexivity).
  split; [exact E|].
  exact (proj1 (proj2 (proj2 (proj2 (VectorClock_Compare_correct vcA vcB vcA_wf vcB_wf)))) E).
Defined.

(** Well-formed clocks that agree in every region are interchangeable for
    [Merge] and [Compare]. *)
Definition vc_eqv (a b : VectorClock) : Prop := vc_wf a /\ vc_wf b /\ vc_equiv a b.

#[export] Instance vc_eqv_per : RelationClasses.PER vc_eqv.
Proof.
  split.
  - intros a b (?&?&H). split_and!; [done..|]. by symmetry.
  - intros a b c (?&?&H1) (?&?&H2). split_and!; [done..|]. by etrans.
Qed.

#[export] Instance VectorClock_Merge_proper :
  Proper (vc_eqv ==> vc_eqv ==> vc_eqv) (fun a b => VectorClock_Merge a (Some b)).
Proof.
  intros a a' (?&?&Ha) b b' (?&?&Hb).
  split_and!; [by apply VectorClock_Merge_wf..|].
  intros k. rewrite !VectorClock_Merge_max by done. simpl. by rewrite Ha, Hb.
Qed.

#[export] Instance VectorClock_Compare_proper :
  Proper (vc_eqv ==> vc_eqv ==> eq) VectorClock_Compare.
Proof.
  intros a a' (?&?&Ha) b b' (?&?&Hb). rewrite !VectorClock_Compare_cases by done.
  assert (vc_le a b <-> vc_le a' b') as E1 by (by rewrite Ha, Hb).
  assert (vc_le b a <-> vc_le b' a') as E2 by (by rewrite Ha, Hb).
  repeat case_decide; naive_solver.
Qed.

(** [VectorClock.Merge] computes the least upper bound of two clocks in
    the pointwise order, and up to agreement in every region it is
    commutative, associative and idempotent: replicas that merge the same
    clocks in any order and any number of times agree. *)
Theorem VectorClock_Merge_join (a b c : VectorClock) :
  vc_wf a -> vc_wf b -> vc_wf c ->
  let join x y := VectorClock_Merge x (Some y) in
  (vc_le a (join a b) /\ vc_le b (join a b) /\
   (vc_le a c -> vc_le b c -> vc_le (join a b) c)) /\
  vc_eqv (join a b) (join b a) /\
  vc_eqv (join a (join b c)) (join (join a b) c) /\
  vc_eqv (join a a) a.
Proof.
  intros Ha Hb Hc join.
  assert (forall x y, vc_wf x -> vc_wf y -> vc_wf (join x y)) as Hwf
    by (intros; by apply VectorClock_Merge_wf).
  assert (forall x y k, vc_wf x -> vc_wf y -> vc_at (join x y) k = Z.max (vc_at x k) (vc_at y k))
    as Hat by (intros; by apply VectorClock_Merge_max).
  split_and!.
  1-3: unfold vc_le; intros; rewrite Hat by done; try specialize (H k);
       try specialize (H0 k); lia.
  all: split_and!; auto; intros k; rewrite !Hat; auto; lia.
Qed.

Lemma VectorClock_Merge_join_witness :
  vc_eqv (VectorClock_Merge vcA (Some vcB)) (VectorClock_Merge vcB (Some vcA)).
Proof.
  exact (proj1 (proj2 (VectorClock_Merge_join vcA vcB vcA vcA_wf vcB_wf vcA_wf))).
Defined.

(** ** Last write wins *)

Lemma LastWriteWins_no_vector {T} (old new : Value T) :
  Vector old = None ->
  LastWriteWins_Merge old new =
    if time_After (Timestamp new) (Timestamp old) then new else old.
Proof. intros H. unfold LastWriteWins_Merge. by rewrite H. Qed.

(** Folding the strategy over vector-free values keeps one of the values with
    the greatest timestamp. *)
Lemma LastWriteWins_fold {T} (v : Value T) (l : list (Value T)) :
  Forall (fun x => Vector x = None) (v :: l) ->
  let r := foldl LastWriteWins_Merge v l in
  r ∈ v :: l /\ Forall (fun x => Timestamp x <= Timestamp r) (v :: l).
Proof.
  revert v. induction l as [|x l IH]; intros v H; simpl.
  - split; [apply list_elem_of_here|]. constructor; [done|constructor].
  - inversion H as [|? ? Hv Hrest]; subst.
    inversion Hrest as [|? ? Hx Hl]; subst.
    rewrite LastWriteWins_no_vector by done.
    set (w := if time_After (Timestamp x) (Timestamp v) then x else v).
    assert (Timestamp v <= Timestamp w /\ Timestamp x <= Timestamp w /\ (w = x \/ w = v))
      as (Hvw&Hxw&Hw).
    { unfold w, time_After. destruct (Timestamp v <? Timestamp x) eqn:E; bool_to_prop.
      - split_and!; [lia|lia|by left].
      - split_and!; [lia|lia|by right]. }
    assert (Vector w = None) by (destruct Hw; congruence).
    destruct (IH w) as [Hin Hmax]; [by constructor|]. simpl in *.
    inversion Hmax; subst. split.
    + destruct Hw as [-> | ->]; set_solver.
    + repeat constructor; [lia|lia|done].
Qed.

(** Two replicas that receive the same writes in different orders end
    with the same value under the default strategy, when the writes carry no
    vector clocks and pairwise distinct timestamps; that value is the one with
    the greatest timestamp. *)
Theorem LastWriteWins_converges {T} (v v' : Value T) (l l' : list (Value T)) :
  Forall (fun x => Vector x = None) (v :: l) ->
  NoDup (Timestamp <$> v :: l) ->
  v :: l ≡ₚ v' :: l' ->
  foldl LastWriteWins_Merge v l = foldl LastWriteWins_Merge v' l' /\
  Forall (fun x => Timestamp x <= Timestamp (foldl LastWriteWins_Merge v l)) (v :: l).
Proof.
  intros Hvec Hnd Hp.
  destruct (LastWriteWins_fold v l Hvec) as [Hin Hmax].
  destruct (LastWriteWins_fold v' l') as [Hin' Hmax']; [by rewrite <- Hp|].
  rewrite <- Hp in Hin', Hmax'.
  split; [|done].
  rewrite Forall_forall in Hmax, Hmax'.
  apply Hmax in Hin' as Hle. apply Hmax' in Hin as Hle'.
  apply list_elem_of_lookup in Hin as [i Hi].
  apply list_elem_of_lookup in Hin' as [j Hj].
  assert (i = j) as ->; [|congruence].
  eapply NoDup_lookup; [exact Hnd| |];
    rewrite list_lookup_fmap; [by rewrite Hi | rewrite Hj; simpl; f_equal; lia].
Qed.

Lemma LastWriteWins_converges_witness :
  foldl LastWriteWins_Merge (value_of "a" 3) [value_of "b" 9; value_of "c" 5] =
  foldl LastWriteWins_Merge (value_of "c" 5) [value_of "a" 3; value_of "b" 9].
Proof.
  apply (LastWriteWins_converges (value_of "a" 3) (value_of "c" 5)
           [value_of "b" 9; value_of "c" 5] [value_of "a" 3; value_of "b" 9]).
  - repeat constructor.
  - simpl. apply NoDup_ListNoDup. repeat constructor; simpl; intuition lia.
  - transitivity [value_of "a" 3; value_of "c" 5; value_of "b" 9].
    + apply perm_skip, perm_swap.
    + apply perm_swap.
Defined.

(** When both values carry vector clocks, causality decides before the
    physical clock: a value whose clock strictly dominates wins against any
    timestamp, and the timestamps are compared only for clocks that are equal
    or concurrent. *)
Theorem LastWriteWins_vector_first {T} (old new : Value T) (ov nv : VectorClock) :
  Vector old = Some ov -> Vector new = Some nv -> vc_wf ov -> vc_wf nv ->
  LastWriteWins_Merge old new =
    if decide (vc_le ov nv /\ ~ vc_le nv ov) then new
    else if decide (vc_le nv ov /\ ~ vc_le ov nv) then old
    else if decide (Timestamp old < Timestamp new) then new else old.
Proof.
  intros Ho Hn Hwo Hwn. unfold LastWriteWins_Merge. rewrite Ho, Hn.
  rewrite VectorClock_Compare_cases by done. unfold time_After.
  destruct (decide (vc_le ov nv)), (decide (vc_le nv ov)); simpl;
    repeat case_decide; try tauto; destruct (_ <? _) eqn:E; bool_to_prop; done || lia.
Qed.

Lemma LastWriteWins_vector_first_witness :
  LastWriteWins_Merge (mkValue "old" 50 (Some {["eu" := 1]}) "") (mkValue "new" 7 (Some {["eu" := 2]}) "")
  = mkValue "new" 7 (Some {["eu" := 2]}) "".
Proof.
  rewrite (LastWriteWins_vector_first _ _ {["eu" := 1]} {["eu" := 2]});
    [vm_compute; reflexivity|reflexivity|reflexivity|decide_closed|decide_closed].
Defined.

(** ** The engine *)

(** A registered merge function decides the data of the merged value and
    its error is passed on; the merged vector clock is the least upper bound
    of the two clocks (a missing clock counts as empty) and timestamp and
    region come from the new value. Without a registered function the default
    strategy applies and cannot fail. *)
Theorem Engine_Merge_correct {T} (e : Engine T) (key : string) (old new : Value T) :
  (forall v, Vector old = Some v \/ Vector new = Some v -> vc_wf v) ->
  match custom e !! key with
  | None => Engine_Merge e key old new = Ok (defaultStrategy e old new)
  | Some fn =>
      match fn (Data old) (Data new) with
      | Err err => Engine_Merge e key old new = Err err
      | Ok d => exists vc,
          Engine_Merge e key old new = Ok (mkValue d (Timestamp new) (Some vc) (Region new)) /\
          forall k, vc_at vc k =
            Z.max (vc_at (default ∅ (Vector old)) k) (vc_at (default ∅ (Vector new)) k)
      end
  end.
Proof.
  intros Hwf. unfold Engine_Merge.
  destruct (custom e !! key) as [fn|]; [|done].
  destruct (fn (Data old) (Data new)) as [d|err]; [|done].
  eexists. split; [done|]. intros k.
  assert (forall o : option VectorClock, o = Vector old \/ o = Vector new -> vc_wf (default ∅ o)) as Hd.
  { intros [v|] Ho; simpl; [|by apply map_Forall_empty]. apply Hwf. destruct Ho; auto. }
  rewrite VectorClock_Copy_eq. apply VectorClock_Merge_max; auto.
Qed.

Lemma Engine_Merge_correct_witness : exists vc,
  Engine_Merge (Engine_Register "n" (fun a b => Ok (a + b)) NewEngine) "n"
    (mkValue 2 1 (Some vcA) "eu") (mkValue 3 4 (Some vcB) "us") =
  Ok (mkValue 5 4 (Some vc) "us") /\ vc_at vc "eu" = 2.
Proof.
  destruct (Engine_Merge_correct (Engine_Register "n" (fun a b => Ok (a + b)) NewEngine) "n"
    (mkValue 2 1 (Some vcA) "eu") (mkValue 3 4 (Some vcB) "us")) as (vc&E&H).
  - intros v [[= <-]|[= <-]]; [exact vcA_wf|exact vcB_wf].
  - exists vc. split; [exact E|]. rewrite H. vm_compute. reflexivity.
Defined.

(** ** Version histories *)

(** The last [n] elements of a list. *)
Definition last_n {A} (n : nat) (l : list A) : list A := drop (length l - n) l.

Lemma last_n_snoc {A} n (l : list A) x :
  (0 < n)%nat -> last_n n (last_n n l ++ [x]) = last_n n (l ++ [x]).
Proof.
  intros Hn. unfold last_n. rewrite !length_app, length_drop. simpl.
  destruct (decide (length l <= n)%nat) as [Hle|Hgt].
  - replace (length l - n)%nat with 0%nat by lia. rewrite drop_0. f_equal. lia.
  - rewrite (drop_app_le l) by lia. rewrite drop_app_le by (rewrite length_drop; lia).
    rewrite drop_drop. f_equal. f_equal. lia.
Qed.

Lemma VersionedValue_Add_versions {T} (x : Value T) v :
  0 < limit v -> versions (VersionedValue_Add x v) = last_n (Z.to_nat (limit v)) (versions v ++ [x]).
Proof.
  intros Hl. unfold VersionedValue_Add, last_n.
  destruct ((0 <? limit v) && (limit v <? _)) eqn:E; simpl; [done|].
  apply andb_false_iff in E as [E|E]; bool_to_prop; [lia|].
  replace (_ - _)%nat with 0%nat by lia. done.
Qed.

Lemma VersionedValue_Add_limit {T} (x : Value T) v :
  limit (VersionedValue_Add x v) = limit v.
Proof. unfold VersionedValue_Add. by case_match. Qed.

Lemma VersionedValue_Add_Latest {T} (x : Value T) v :
  VersionedValue_Latest (VersionedValue_Add x v) = Some x.
Proof.
  unfold VersionedValue_Latest, VersionedValue_Add.
  destruct ((0 <? limit v) && _) eqn:Eb; simpl; [|by apply last_snoc].
  bool_to_prop. rewrite drop_app_le; [by apply last_snoc|].
  rewrite length_app. simpl. lia.
Qed.

(** A history created with a positive limit and extended by [Add] holds
    exactly the most recent [limit] values, oldest first, whatever was
    discarded in between, and [Latest] is the last value added. *)
Theorem VersionedValue_history {T} (v : Value T) (vs : list (Value T)) (lim : Z) :
  0 < lim ->
  let h := foldl (fun h x => VersionedValue_Add x h) (NewVersionedValue v lim) vs in
  versions h = last_n (Z.to_nat lim) (v :: vs) /\
  VersionedValue_Latest h = last (v :: vs).
Proof.
  intros Hl h.
  assert (versions h = last_n (Z.to_nat lim) (v :: vs) /\ limit h = lim) as [Hv _].
  { subst h. induction vs as [|x vs IH] using rev_ind.
    - simpl. split; [|done]. unfold last_n. simpl.
      replace (1 - Z.to_nat lim)%nat with 0%nat by lia. done.
    - rewrite foldl_app. simpl. destruct IH as [IHv IHl].
      rewrite VersionedValue_Add_versions, VersionedValue_Add_limit, IHv, IHl by lia.
      split; [|done]. rewrite last_n_snoc by lia. done. }
  split; [done|]. unfold VersionedValue_Latest. rewrite Hv. unfold last_n.
  assert (v :: vs <> []) as Hne by done. revert Hne. generalize (v :: vs). intros l Hne.
  destruct l as [|x l _] using rev_ind; [done|].
  rewrite length_app. simpl. rewrite drop_app_le by lia. by rewrite !last_snoc.
Qed.

Lemma VersionedValue_history_witness :
  versions (foldl (fun h x => VersionedValue_Add x h) (NewVersionedValue (value_of 1 1) 2)
    [value_of 2 2; value_of 3 3]) = [value_of 2 2; value_of 3 3].
Proof.
  rewrite (proj1 (VersionedValue_history (value_of 1 1) [value_of 2 2; value_of 3 3] 2 eq_refl)).
  reflexivity.
Defined.

Lemma at_loop_Some {T} (t : time) (l : list (Value T)) x :
  at_loop t l = Some x <->
  exists l1 l2, l = l1 ++ x :: l2 /\ Timestamp x <= t /\ Forall (fun y => t < Timestamp y) l1.
Proof.
  induction l as [|y l IH]; simpl.
  - split; [done|]. intros ([|??]&?&?&_); done.
  - unfold time_After. destruct (t <? Timestamp y) eqn:E; bool_to_prop; simpl.
    + rewrite IH. split.
      * intros (l1&l2&->&?&?). exists (y :: l1), l2. split_and!; [done..|by constructor].
      * intros ([|z l1]&l2&[= -> ->]&?&H); [lia|]. inversion H; subst. eauto.
    + split.
      * intros [= ->]. exists [], l. split_and!; [done..|constructor].
      * intros ([|z l1]&l2&[= -> ->]&?&H); [done|]. inversion H; lia.
Qed.

(** [At] returns the most recently added value whose timestamp is not
    after the requested instant, and nothing exactly when every retained
    value is later. *)
Theorem VersionedValue_At_correct {T} (t : time) (v : VersionedValue T) :
  match VersionedValue_At t v with
  | Some x => exists older newer,
      versions v = older ++ x :: newer /\ Timestamp x <= t /\
      Forall (fun y => t < Timestamp y) newer
  | None => Forall (fun y => t < Timestamp y) (versions v)
  end.
Proof.
  unfold VersionedValue_At. destruct (at_loop t (reverse (versions v))) as [x|] eqn:E.
  - apply at_loop_Some in E as (l1&l2&Hr&Hx&Hf).
    exists (reverse l2), (reverse l1). split_and!; [|done|by apply Forall_reverse].
    rewrite <- (reverse_involutive (versions v)), Hr.
    by rewrite reverse_app, reverse_cons, <- (assoc_L (++)).
  - apply Forall_reverse. remember (reverse (versions v)) as l eqn:Hl. clear Hl v.
    induction l as [|y l IH]; [constructor|]. simpl in E. unfold time_After in E.
    destruct (t <? Timestamp y) eqn:E2; simpl in E; [|done]. bool_to_prop.
    constructor; auto.
Qed.
