(* ===== verification/TTL.v ===== *)
(** * TTL: expiration options and the adaptive strategy

    Models [src/cache/ttl.go] ([TTLOptions], its option constructors,
    [Adjust] and the [TTLStrategy] interface) and
    [src/cache/adaptive/sliding_window.go] ([SlidingWindow]). [float64] values
    are IEEE 754 binary64 numbers of the standard library's [SpecFloat]. *)

From S2P Require Import Prelude.
From Stdlib Require Export Floats.SpecFloat Sorting.Sorted.

(** ** binary64 *)

Abbreviation float64 := spec_float (only parsing).

(** [float64(z)]: conversion of an integer, rounding to nearest even. *)
Definition float64_of_Z (z : Z) : float64 := binary_normalize 53 1024 z 0 false.
Definition float64_div (x y : float64) : float64 := SFdiv 53 1024 x y.
Definition float64_leb (x y : float64) : bool := SFleb x y.
Definition float64_ltb (x y : float64) : bool := SFltb x y.
Definition float64_eqb (x y : float64) : bool := SFeqb x y.
Definition float64_zero : float64 := S754_zero false.
Definition float64_one : float64 := float64_of_Z 1.

(** ** Options *)

Record TTLOptions := mkTTLOptions {
  Sliding : bool;
  FreqThreshold : duration;
  Increment : duration;
  Decrement : duration;
  MinTTL : duration;
  MaxTTL : duration;
  FailSafeGracePeriod : duration;
  SoftTimeout : duration;
  EagerRefreshThreshold : float64;
}.

Definition zero_TTLOptions : TTLOptions := mkTTLOptions false 0 0 0 0 0 0 0 float64_zero.

Definition TTLOption : Type := TTLOptions -> TTLOptions.

Definition WithSliding : TTLOption := fun o =>
  mkTTLOptions true (FreqThreshold o) (Increment o) (Decrement o) (MinTTL o) (MaxTTL o)
    (FailSafeGracePeriod o) (SoftTimeout o) (EagerRefreshThreshold o).

Definition WithFailSafe (grace : duration) : TTLOption := fun o =>
  mkTTLOptions (Sliding o) (FreqThreshold o) (Increment o) (Decrement o) (MinTTL o) (MaxTTL o)
    grace (SoftTimeout o) (EagerRefreshThreshold o).

Definition WithSoftTimeout (d : duration) : TTLOption := fun o =>
  mkTTLOptions (Sliding o) (FreqThreshold o) (Increment o) (Decrement o) (MinTTL o) (MaxTTL o)
    (FailSafeGracePeriod o) d (EagerRefreshThreshold o).

Definition WithEagerRefresh (threshold : float64) : TTLOption := fun o =>
  if float64_leb float64_zero threshold && float64_leb threshold float64_one
  then mkTTLOptions (Sliding o) (FreqThreshold o) (Increment o) (Decrement o) (MinTTL o) (MaxTTL o)
         (FailSafeGracePeriod o) (SoftTimeout o) threshold
  else o.

Definition WithDynamicTTL (freq inc dec min max : duration) : TTLOption := fun o =>
  mkTTLOptions (Sliding o) freq inc dec min max
    (FailSafeGracePeriod o) (SoftTimeout o) (EagerRefreshThreshold o).

(** [var to TTLOptions; for _, opt := range opts { opt(&to) }] *)
Definition apply_TTLOptions (opts : list TTLOption) : TTLOptions :=
  foldl (fun o opt => opt o) zero_TTLOptions opts.

Definition TTLOptions_Adjust (o : TTLOptions) (cur : duration) (last now : time) : duration :=
  if FreqThreshold o <=? 0 then cur
  else if time_Sub now last <=? FreqThreshold o then
    let cur := cur +₆₄ Increment o in
    if (0 <? MaxTTL o) && (MaxTTL o <? cur) then MaxTTL o else cur
  else
    let cur := cur -₆₄ Decrement o in
    if cur <? MinTTL o then MinTTL o else cur.

(** ** The strategy interface

    A strategy object of type [S] is told of every access and asked for the
    TTL to apply; both calls may change it. *)
Class TTLStrategy (S : Type) := {
  strategy_Record : time -> string -> S -> S;
  strategy_TTL : time -> string -> S -> S * duration;
}.

(** ** The sliding-window strategy *)

Record SlidingWindow := mkSlidingWindow {
  Window : duration;
  Threshold : Z;
  ColdTTL : duration;
  HotTTL : duration;
  hits : gmap string (list time);
  lastTTL : gmap string duration;
  hotKeys : gmap string bool;
  adjustCounter : option Z;
  hotGauge : option Z;
}.

(** [reg] tells whether a registerer was given. *)
Definition NewSlidingWindow (window : duration) (threshold : Z) (coldTTL hotTTL : duration)
    (reg : bool) : SlidingWindow :=
  let metric := if reg then Some 0 else None in
  mkSlidingWindow window threshold coldTTL hotTTL ∅ ∅ ∅ metric metric.

(** The in-place compaction loop shared by [Record] and [TTL]: entry [t]
    survives when [t.After(cutoff)]. *)
Definition keep_recent (cutoff : time) (timestamps : list time) : list time :=
  filter (fun t => time_After t cutoff = true) timestamps.

Definition window_cutoff (s : SlidingWindow) (now : time) : time :=
  time_Add now (i64 (- Window s)).

Definition SlidingWindow_Record (now : time) (key : string) (s : SlidingWindow) : SlidingWindow :=
  let timestamps := default [] (hits s !! key) ++ [now] in
  mkSlidingWindow (Window s) (Threshold s) (ColdTTL s) (HotTTL s)
    (<[key := keep_recent (window_cutoff s now) timestamps]> (hits s))
    (lastTTL s) (hotKeys s) (adjustCounter s) (hotGauge s).

Definition SlidingWindow_TTL (now : time) (key : string) (s : SlidingWindow)
    : SlidingWindow * duration :=
  let timestamps := keep_recent (window_cutoff s now) (default [] (hits s !! key)) in
  let hits' := <[key := timestamps]> (hits s) in
  let hot := Threshold s <=? Z.of_nat (length timestamps) in
  let ttl := if hot then HotTTL s else ColdTTL s in
  let adjusted := negb (bool_decide (lastTTL s !! key = Some ttl)) in
  let lastTTL' := if adjusted then <[key := ttl]> (lastTTL s) else lastTTL s in
  let adjust' := if adjusted then (fun n => n + 1) <$> adjustCounter s else adjustCounter s in
  let was_hot := default false (hotKeys s !! key) in
  let '(hotKeys', gauge') :=
    if hot && negb was_hot then (<[key := true]> (hotKeys s), (fun n => n + 1) <$> hotGauge s)
    else if negb hot && was_hot then (delete key (hotKeys s), (fun n => n - 1) <$> hotGauge s)
    else (hotKeys s, hotGauge s) in
  (mkSlidingWindow (Window s) (Threshold s) (ColdTTL s) (HotTTL s)
     hits' lastTTL' hotKeys' adjust' gauge', ttl).

#[export] Instance SlidingWindow_strategy : TTLStrategy SlidingWindow := {
  strategy_Record := SlidingWindow_Record;
  strategy_TTL := SlidingWindow_TTL;
}.

(** ** Bounds of [Adjust] *)

(** [Adjust] stays within its configured bounds: disabled, it is the
    identity; a hot access never ends above a positive [MaxTTL], and without
    overflow it never shortens the TTL below the smaller of the old TTL and
    [MaxTTL]; a cold access never ends below [MinTTL]. The result is always
    an [int64]. *)
Theorem TTLOptions_Adjust_bounds (o : TTLOptions) (cur : duration) (last now : time) :
  is_i64 cur -> is_i64 (MaxTTL o) -> is_i64 (MinTTL o) ->
  let r := TTLOptions_Adjust o cur last now in
  is_i64 r /\
  (FreqThreshold o <= 0 -> r = cur) /\
  (0 < FreqThreshold o -> time_Sub now last <= FreqThreshold o ->
     (0 < MaxTTL o -> r <= MaxTTL o) /\
     (0 <= Increment o -> is_i64 (cur + Increment o) ->
        r = cur + Increment o \/ (0 < MaxTTL o /\ r = MaxTTL o /\ MaxTTL o < cur + Increment o))) /\
  (0 < FreqThreshold o -> FreqThreshold o < time_Sub now last ->
     MinTTL o <= r /\
     (is_i64 (cur - Decrement o) -> r = Z.max (MinTTL o) (cur - Decrement o))).
Proof.
  intros Hc HM Hm r. subst r. unfold TTLOptions_Adjust.
  pose proof (i64_range (cur + Increment o)). pose proof (i64_range (cur - Decrement o)).
  destruct (FreqThreshold o <=? 0) eqn:E; bool_to_prop; [split_and!; done || lia|].
  destruct (time_Sub now last <=? FreqThreshold o) eqn:E2; bool_to_prop.
  - destruct ((0 <? MaxTTL o) && _) eqn:E3; bool_to_prop.
    + split_and!; try done; try lia. intros. split; [lia|]. intros _ Hi.
      rewrite i64_id in * by done. right. lia.
    + split_and!; try done; try lia. intros. split.
      * intros. apply andb_false_iff in E3 as [E3|E3]; bool_to_prop; lia.
      * intros _ Hi. left. by rewrite i64_id.
  - destruct (_ <? MinTTL o) eqn:E3; bool_to_prop.
    + split_and!; try done; try lia. intros. split; [lia|]. intros Hi.
      rewrite i64_id in E3 by done. lia.
    + split_and!; try done; try lia. intros. split; [lia|]. intros Hi.
      rewrite i64_id in * by done. lia.
Qed.

Lemma TTLOptions_Adjust_bounds_witness :
  let o := WithDynamicTTL 10 5 7 2 40 zero_TTLOptions in
  TTLOptions_Adjust o 38 100 104 <= 40 /\ 2 <= TTLOptions_Adjust o 5 100 150.
Proof.
  set (o := WithDynamicTTL 10 5 7 2 40 zero_TTLOptions).
  assert (is_i64 38 /\ is_i64 5 /\ is_i64 (MaxTTL o) /\ is_i64 (MinTTL o)) as (H38&H5&HM&Hm)
    by (unfold is_i64; simpl; lia).
  split.
  - apply (TTLOptions_Adjust_bounds o 38 100 104 H38 HM Hm); vm_compute; congruence.
  - apply (TTLOptions_Adjust_bounds o 5 100 150 H5 HM Hm); vm_compute; congruence.
Defined.

(** ** The window against the full access log *)

(** The calls made on a strategy object, and its run. *)
Inductive sw_call :=
| CallRecord (key : string) (now : time)
| CallTTL (key : string) (now : time).

Definition call_time (c : sw_call) : time :=
  match c with CallRecord _ t | CallTTL _ t => t end.

Definition sw_step (s : SlidingWindow) (c : sw_call) : SlidingWindow :=
  match c with
  | CallRecord key now => SlidingWindow_Record now key s
  | CallTTL key now => fst (SlidingWindow_TTL now key s)
  end.

(** Specification: the instants at which [key] was recorded, all of them. *)
Definition recorded (key : string) (calls : list sw_call) : list time :=
  omap (fun c => match c with
                 | CallRecord k t => if decide (k = key) then Some t else None
                 | CallTTL _ _ => None
                 end) calls.

Lemma keep_recent_keep_recent c1 c2 l :
  c1 <= c2 -> keep_recent c2 (keep_recent c1 l) = keep_recent c2 l.
Proof.
  intros Hle. unfold keep_recent. rewrite list_filter_filter.
  apply list_filter_iff. intros t. unfold time_After. rewrite !Z.ltb_lt. lia.
Qed.

Lemma SlidingWindow_TTL_hits now key s :
  hits (fst (SlidingWindow_TTL now key s)) =
  <[key := keep_recent (window_cutoff s now) (default [] (hits s !! key))]> (hits s).
Proof. unfold SlidingWindow_TTL. by repeat case_match. Qed.

Lemma sw_step_config s c :
  Window (sw_step s c) = Window s /\ Threshold (sw_step s c) = Threshold s /\
  ColdTTL (sw_step s c) = ColdTTL s /\ HotTTL (sw_step s c) = HotTTL s.
Proof. destruct c; simpl; [done|]. unfold SlidingWindow_TTL. by repeat case_match. Qed.

(** The window and the log agree on every cutoff that is not before the last
    one applied. *)
Definition window_agrees (s : SlidingWindow) (calls : list sw_call) (now : time) : Prop :=
  forall key t, now <= t ->
    keep_recent (window_cutoff s t) (default [] (hits s !! key)) =
    keep_recent (window_cutoff s t) (recorded key calls).

Lemma window_agrees_mono s calls t1 t2 :
  t1 <= t2 -> window_agrees s calls t1 -> window_agrees s calls t2.
Proof. intros Hle H key t Ht. apply H. lia. Qed.

Lemma window_cutoff_step s c t : window_cutoff (sw_step s c) t = window_cutoff s t.
Proof. unfold window_cutoff. by rewrite (proj1 (sw_step_config s c)). Qed.

Lemma keep_recent_app c l1 l2 : keep_recent c (l1 ++ l2) = keep_recent c l1 ++ keep_recent c l2.
Proof. apply filter_app. Qed.

Lemma window_agrees_step s calls c :
  window_agrees s calls (call_time c) ->
  window_agrees (sw_step s c) (calls ++ [c]) (call_time c).
Proof.
  intros H key t Ht. rewrite window_cutoff_step. specialize (H key t Ht).
  unfold recorded. rewrite omap_app, keep_recent_app. fold (recorded key calls).
  assert (forall now, now <= t -> window_cutoff s now <= window_cutoff s t) as Hcut
    by (intros; unfold window_cutoff, time_Add; lia).
  destruct c as [k now|k now]; simpl in *.
  - case_decide; subst.
    + rewrite lookup_insert_eq. simpl. rewrite keep_recent_keep_recent by auto.
      by rewrite keep_recent_app, H.
    + rewrite lookup_insert_ne by done. by rewrite H, app_nil_r.
  - rewrite SlidingWindow_TTL_hits, app_nil_r, <- H.
    destruct (decide (k = key)) as [->|].
    + rewrite lookup_insert_eq. simpl. by rewrite keep_recent_keep_recent by auto.
    + by rewrite lookup_insert_ne.
Qed.

Lemma window_agrees_run s0 calls : forall now,
  hits s0 = ∅ ->
  StronglySorted Z.le (call_time <$> calls) ->
  Forall (fun c => call_time c <= now) calls ->
  window_agrees (foldl sw_step s0 calls) calls now.
Proof.
  induction calls as [|c calls IH] using rev_ind; intros now H0 Hs Hn.
  - intros key t _. simpl. by rewrite H0, lookup_empty.
  - apply Forall_app in Hn as [Hn Hc]. rewrite Forall_singleton in Hc.
    rewrite fmap_app in Hs. rewrite foldl_app. simpl.
    apply (window_agrees_mono _ _ (call_time c)); [exact Hc|].
    apply window_agrees_step.
    clear now Hn Hc.
    assert (StronglySorted Z.le (call_time <$> calls) /\
            Forall (fun c' => call_time c' <= call_time c) calls) as [Hs' Hle].
    { clear IH H0. induction calls as [|d calls IH]; simpl in *; [split; constructor|].
      inversion Hs as [|? ? Hs1 Hf]; subst. destruct (IH Hs1) as [Hs2 Hl].
      apply Forall_app in Hf as [Hf1 Hf2]. split; [by constructor|].
      constructor; [|done]. by inversion Hf2. }
    by apply IH.
Qed.

(** The sliding-window strategy, which discards old timestamps as it
    goes, decides exactly as one that remembers every access: after any
    sequence of calls at non-decreasing instants, [TTL] answers [HotTTL] when
    at least [Threshold] accesses to the key were recorded after
    [now - Window], and [ColdTTL] otherwise. *)
Theorem SlidingWindow_TTL_correct (w : duration) (n : Z) (cold hot : duration) (reg : bool)
    (calls : list sw_call) (key : string) (now : time) :
  StronglySorted Z.le (call_time <$> calls) ->
  Forall (fun c => call_time c <= now) calls ->
  let s := foldl sw_step (NewSlidingWindow w n cold hot reg) calls in
  snd (SlidingWindow_TTL now key s) =
    if n <=? Z.of_nat (length (keep_recent (now + i64 (- w)) (recorded key calls)))
    then hot else cold.
Proof.
  intros Hs Hn s.
  pose proof (window_agrees_run (NewSlidingWindow w n cold hot reg) calls now eq_refl Hs Hn
                key now (Z.le_refl _)) as Ha.
  fold s in Ha.
  assert (Window s = w /\ Threshold s = n /\ ColdTTL s = cold /\ HotTTL s = hot) as (E1&E2&E3&E4).
  { subst s. clear. induction calls as [|c calls IH] using rev_ind; [done|].
    rewrite foldl_app. simpl. destruct (sw_step_config
      (foldl sw_step (NewSlidingWindow w n cold hot reg) calls) c) as (->&->&->&->). done. }
  unfold window_cutoff, time_Add in Ha. rewrite E1 in Ha.
  unfold SlidingWindow_TTL, window_cutoff, time_Add. rewrite E1, Ha, E2, E3, E4.
  by repeat case_match.
Qed.

Lemma SlidingWindow_TTL_correct_witness :
  snd (SlidingWindow_TTL 109 "k"
    (foldl sw_step (NewSlidingWindow 10 2 5 50 true)
      [CallRecord "k" 95; CallRecord "k" 101; CallTTL "k" 102; CallRecord "k" 108])) = 50.
Proof.
  rewrite (SlidingWindow_TTL_correct 10 2 5 50 true
    [CallRecord "k" 95; CallRecord "k" 101; CallTTL "k" 102; CallRecord "k" 108] "k" 109).
  - vm_compute. reflexivity.
  - simpl. repeat constructor; lia.
  - simpl. repeat constructor; simpl; lia.
Defined.

(** The gauge counts the keys marked hot. *)
Definition gauge_inv (s : SlidingWindow) : Prop :=
  map_Forall (fun _ b => b = true) (hotKeys s) /\
  forall n, hotGauge s = Some n -> n = Z.of_nat (size (hotKeys s)).

(** The hot-key gauge always equals the number of keys currently marked
    hot, over every sequence of calls. *)
Theorem SlidingWindow_gauge (w : duration) (n : Z) (cold hot : duration) (reg : bool)
    (calls : list sw_call) :
  gauge_inv (foldl sw_step (NewSlidingWindow w n cold hot reg) calls).
Proof.
  induction calls as [|c calls IH] using rev_ind.
  - split; [by apply map_Forall_empty|]. simpl. by destruct reg; intros ? [= <-].
  - rewrite foldl_app. simpl. revert IH. generalize (foldl sw_step (NewSlidingWindow w n cold hot reg) calls).
    intros s [Ht Hg]. destruct c as [k t|k t]; simpl; [done|].
    unfold SlidingWindow_TTL. set (h := (_ <=? _)). clearbody h.
    destruct (hotKeys s !! k) as [b|] eqn:E; simpl.
    + assert (b = true) as -> by apply (Ht _ _ E). destruct h; simpl; [done|].
      split; [by apply map_Forall_delete|]. simpl. intros m.
      destruct (hotGauge s) as [g|]; simpl; [|done]. intros [= <-].
      rewrite (Hg g) by done. rewrite map_size_delete, E. simpl.
      assert (size (hotKeys s) <> 0%nat) by (rewrite map_size_ne_0_lookup; eauto). lia.
    + destruct h; simpl; [|done]. split; [by apply map_Forall_insert_2|]. simpl. intros m.
      destruct (hotGauge s) as [g|]; simpl; [|done]. intros [= <-].
      rewrite (Hg g) by done. rewrite map_size_insert_None by done. lia.
Qed.
