(* ===== verification/CacheIface.v ===== *)
(** * CacheIface: the cache interface, its contract, and two decorators

    Models the interface [Cache] of [src/cache/cache.go], the error
    suppressing decorator of [src/cache/resilient.go], and the strategy
    switching cache of [src/cache/adaptive_cache.go]. [LawfulCache] is the
    contract an in-process cache offers its clients; [core] is proved against
    it and [InMemoryCache] discharges it. *)

From S2P Require Import Prelude.

(** [Get], [Set] and [Invalidate] of a cache of type [C] with values in [V].
    The instant is the one [time.Now()] answers inside the call. The last
    field is the method [GetAt] of the caches that have one (the type
    assertion to [versionedCache] in [core] succeeds exactly for these). *)
Class Cache (C V : Type) := {
  cache_Get : ctx -> time -> string -> C -> C * res (option V);
  cache_Set : ctx -> time -> string -> V -> duration -> C -> C * option error;
  cache_Invalidate : ctx -> string -> C -> C * option error;
  cache_GetAt : option (ctx -> time -> string -> time -> C -> C * res (option V));
}.

(** The instant until which an entry stored at [now] with [ttl] is served;
    [None] when it does not expire. *)
Definition expiry (now : time) (ttl : duration) : option time :=
  if 0 <? ttl then Some (now + ttl) else None.

Definition served (exp : option time) (t : time) : Prop :=
  match exp with Some e => t <= e | None => True end.

#[export] Instance served_dec exp t : Decision (served exp t).
Proof. destruct exp; simpl; apply _. Defined.

(** The contract of an in-process cache: [cache_view c t k] is what the cache
    holds for [k] at instant [t]. Reads answer the view and change no view; a
    write is visible until its entry expires and only evicts others; an
    invalidation removes the key and nothing else; none of them fails under a
    live context. *)
Class LawfulCache (C V : Type) `{Cache C V} := {
  cache_ok : C -> Prop;
  cache_view : C -> time -> string -> option V;
  cache_Get_law : forall cx now k c c' r,
    cache_ok c -> 0 < now -> cache_Get cx now k c = (c', r) ->
    cache_ok c' /\
    (forall t k', now <= t -> cache_view c' t k' = cache_view c t k') /\
    (forall o, r = Ok o -> o = cache_view c now k) /\
    (cx = Background -> exists o, r = Ok o);
  cache_Set_law : forall cx now k v ttl c c' r,
    cache_ok c -> 0 < now -> is_i64 ttl -> cache_Set cx now k v ttl c = (c', r) ->
    cache_ok c' /\
    (r = None -> forall t, now <= t ->
       cache_view c' t k = if decide (served (expiry now ttl) t) then Some v else None) /\
    (forall t k', k' <> k -> now <= t ->
       cache_view c' t k' = cache_view c t k' \/ cache_view c' t k' = None) /\
    (r <> None -> forall t k', now <= t -> cache_view c' t k' = cache_view c t k') /\
    (cx = Background -> r = None);
  cache_Invalidate_law : forall cx k c c' r,
    cache_ok c -> cache_Invalidate cx k c = (c', r) ->
    cache_ok c' /\
    (r = None -> forall t, cache_view c' t k = None) /\
    (forall t k', k' <> k -> cache_view c' t k' = cache_view c t k') /\
    (cx = Background -> r = None);
  cache_GetAt_law : forall f cx now k at_ c c' r,
    cache_GetAt = Some f -> cache_ok c -> 0 < now -> f cx now k at_ c = (c', r) ->
    cache_ok c' /\ (forall t k', now <= t -> cache_view c' t k' = cache_view c t k');
}.

(** ** ResilientCache *)

Record ResilientCache (C : Type) := NewResilient { inner : C }.
Arguments NewResilient {C} _.
Arguments inner {C} _.

Section Resilient.
Context {C V : Type} `{!Cache C V}.

Definition ResilientCache_Get (cx : ctx) (now : time) (key : string) (r : ResilientCache C)
    : ResilientCache C * res (option V) :=
  let '(c, out) := cache_Get cx now key (inner r) in
  match out with
  | Err _ => (NewResilient c, Ok None)
  | Ok o => (NewResilient c, Ok o)
  end.

Definition ResilientCache_Set (cx : ctx) (now : time) (key : string) (value : V)
    (ttl : duration) (r : ResilientCache C) : ResilientCache C * option error :=
  let '(c, out) := cache_Set cx now key value ttl (inner r) in
  match out with
  | Some _ => (NewResilient c, None)
  | None => (NewResilient c, None)
  end.

Definition ResilientCache_Invalidate (cx : ctx) (key : string) (r : ResilientCache C)
    : ResilientCache C * option error :=
  let '(c, out) := cache_Invalidate cx key (inner r) in
  match out with
  | Some _ => (NewResilient c, None)
  | None => (NewResilient c, None)
  end.

(** The wrapper has no [GetAt] of its own, whatever it wraps. *)
#[export] Instance ResilientCache_Cache : Cache (ResilientCache C) V := {
  cache_Get := ResilientCache_Get;
  cache_Set := ResilientCache_Set;
  cache_Invalidate := ResilientCache_Invalidate;
  cache_GetAt := None;
}.

(** The resilient wrapper never reports an error, forwards every
    successful answer of the wrapped cache unchanged, turns a failed read
    into a miss, and performs exactly the wrapped cache's state change. *)
Theorem ResilientCache_suppresses (cx : ctx) (now : time) (key : string) (v : V)
    (ttl : duration) (r : ResilientCache C) :
  (let '(c, out) := cache_Get cx now key (inner r) in
   ResilientCache_Get cx now key r =
     (NewResilient c, Ok (match out with Ok o => o | Err _ => None end))) /\
  ResilientCache_Set cx now key v ttl r =
    (NewResilient (fst (cache_Set cx now key v ttl (inner r))), None) /\
  ResilientCache_Invalidate cx key r =
    (NewResilient (fst (cache_Invalidate cx key (inner r))), None).
Proof.
  unfold ResilientCache_Get, ResilientCache_Set, ResilientCache_Invalidate.
  split_and!; repeat case_match; simplify_eq/=; done.
Qed.

End Resilient.

(** ** AdaptiveCache

    The two caches are any two caches; [NewAdaptive] takes an LRU and an LFU
    cache. The counters are [atomic.Uint64]. *)

Record AdaptiveCache (L F : Type) := mkAdaptive {
  lru : L;
  lfu : F;
  useLFU : bool;
  ac_hits : Z;
  ac_misses : Z;
  switchEvery : Z;
}.
Arguments mkAdaptive {L F} _ _ _ _ _ _.
Arguments lru {L F} _.
Arguments lfu {L F} _.
Arguments useLFU {L F} _.
Arguments ac_hits {L F} _.
Arguments ac_misses {L F} _.
Arguments switchEvery {L F} _.

Section Adaptive.
Context {L F V : Type} `{!Cache L V, !Cache F V}.

Definition NewAdaptive (l : L) (f : F) : AdaptiveCache L F := mkAdaptive l f false 0 0 100.

Definition AdaptiveCache_adjust (a : AdaptiveCache L F) : AdaptiveCache L F :=
  let total := u64 (ac_hits a + ac_misses a) in
  if total <? switchEvery a then a
  else mkAdaptive (lru a) (lfu a) (ac_hits a <? ac_misses a) 0 0 (switchEvery a).

(** [a.selectCache().Get(ctx, key)]: the call on the selected cache. *)
Definition AdaptiveCache_selectGet (cx : ctx) (now : time) (key : string)
    (a : AdaptiveCache L F) : AdaptiveCache L F * res (option V) :=
  if useLFU a then
    let '(f, r) := cache_Get cx now key (lfu a) in
    (mkAdaptive (lru a) f (useLFU a) (ac_hits a) (ac_misses a) (switchEvery a), r)
  else
    let '(l, r) := cache_Get cx now key (lru a) in
    (mkAdaptive l (lfu a) (useLFU a) (ac_hits a) (ac_misses a) (switchEvery a), r).

Definition AdaptiveCache_Get (cx : ctx) (now : time) (key : string) (a : AdaptiveCache L F)
    : AdaptiveCache L F * res (option V) :=
  let '(a, r) := AdaptiveCache_selectGet cx now key a in
  match r with
  | Err e => (a, Err e)
  | Ok o =>
      let a' := match o with
                | Some _ => mkAdaptive (lru a) (lfu a) (useLFU a)
                              (u64 (ac_hits a + 1)) (ac_misses a) (switchEvery a)
                | None => mkAdaptive (lru a) (lfu a) (useLFU a)
                            (ac_hits a) (u64 (ac_misses a + 1)) (switchEvery a)
                end in
      (AdaptiveCache_adjust a', Ok o)
  end.

Definition AdaptiveCache_Set (cx : ctx) (now : time) (key : string) (value : V)
    (ttl : duration) (a : AdaptiveCache L F) : AdaptiveCache L F * option error :=
  let '(l, err1) := cache_Set cx now key value ttl (lru a) in
  let '(f, err2) := cache_Set cx now key value ttl (lfu a) in
  let a := mkAdaptive l f (useLFU a) (ac_hits a) (ac_misses a) (switchEvery a) in
  match err1 with
  | Some e => (a, Some e)
  | None => (a, err2)
  end.

Definition AdaptiveCache_Invalidate (cx : ctx) (key : string) (a : AdaptiveCache L F)
    : AdaptiveCache L F * option error :=
  let '(l, err1) := cache_Invalidate cx key (lru a) in
  let '(f, err2) := cache_Invalidate cx key (lfu a) in
  let a := mkAdaptive l f (useLFU a) (ac_hits a) (ac_misses a) (switchEvery a) in
  match err1 with
  | Some e => (a, Some e)
  | None => (a, err2)
  end.

#[export] Instance AdaptiveCache_Cache : Cache (AdaptiveCache L F) V := {
  cache_Get := AdaptiveCache_Get;
  cache_Set := AdaptiveCache_Set;
  cache_Invalidate := AdaptiveCache_Invalidate;
  cache_GetAt := None;
}.

(** The counters never reach the switching threshold between operations. *)
Definition adaptive_inv (a : AdaptiveCache L F) : Prop :=
  0 <= ac_hits a /\ 0 <= ac_misses a /\ ac_hits a + ac_misses a < switchEvery a /\
  0 < switchEvery a < 2 ^ 63.

Lemma AdaptiveCache_selectGet_config cx now key a :
  let a' := fst (AdaptiveCache_selectGet cx now key a) in
  useLFU a' = useLFU a /\ ac_hits a' = ac_hits a /\ ac_misses a' = ac_misses a /\
  switchEvery a' = switchEvery a.
Proof. unfold AdaptiveCache_selectGet. by repeat case_match. Qed.

End Adaptive.

Section AdaptiveLawful.
Context {L F V : Type} `{HL : LawfulCache L V} `{HF : LawfulCache F V}.

(** Both caches hold the same entry for a key. *)
Definition adaptive_synced (a : AdaptiveCache L F) (t : time) (k : string) (v : V) : Prop :=
  cache_view (lru a) t k = Some v /\ cache_view (lfu a) t k = Some v.

Definition adaptive_ok (a : AdaptiveCache L F) : Prop :=
  cache_ok (lru a) /\ cache_ok (lfu a) /\ adaptive_inv a.

(** An adaptive cache serves a written value whatever strategy is
    selected: after a successful [Set] a later [Get] before the entry expires
    returns the value even when the operations switch between LRU and LFU,
    since both caches hold it; and the hit/miss counters stay below the
    switching threshold. *)
Theorem AdaptiveCache_Set_Get (a a1 a2 : AdaptiveCache L F) (now t : time) (key : string)
    (v : V) (ttl : duration) (useLFU' : bool) :
  adaptive_ok a -> 0 < now -> is_i64 ttl -> now <= t -> served (expiry now ttl) t ->
  AdaptiveCache_Set Background now key v ttl a = (a1, None) ->
  a2 = mkAdaptive (lru a1) (lfu a1) useLFU' (ac_hits a1) (ac_misses a1) (switchEvery a1) ->
  exists a3, AdaptiveCache_Get Background t key a2 = (a3, Ok (Some v)) /\ adaptive_ok a3.
Proof.
  intros (Hl&Hf&Hi) Hnow Httl Hle Hserved HS ->.
  unfold AdaptiveCache_Set in HS.
  destruct (cache_Set Background now key v ttl (lru a)) as [l e1] eqn:E1.
  destruct (cache_Set Background now key v ttl (lfu a)) as [f e2] eqn:E2.
  destruct (cache_Set_law _ _ _ _ _ _ _ _ Hl Hnow Httl E1) as (Hl'&Hv1&_&_&He1).
  destruct (cache_Set_law _ _ _ _ _ _ _ _ Hf Hnow Httl E2) as (Hf'&Hv2&_&_&He2).
  destruct e1; simplify_eq. simpl.
  specialize (Hv1 eq_refl t Hle). specialize (Hv2 eq_refl t Hle). rewrite decide_True in Hv1, Hv2 by done.
  assert (forall l f b h m s, cache_ok l -> cache_ok f ->
    0 <= h -> 0 <= m -> h + m <= s -> 0 < s < 2 ^ 63 ->
    adaptive_ok (AdaptiveCache_adjust (mkAdaptive l f b h m s))) as Hadj.
  { intros. unfold adaptive_ok, adaptive_inv, AdaptiveCache_adjust. simpl. rewrite u64_id by (unfold is_u64; lia).
    destruct (h + m <? s) eqn:E; bool_to_prop; split_and!; simpl; done || lia. }
  destruct Hi as (Hh&Hm&Hlt&Hs). assert (0 < t) as Ht by lia.
  unfold AdaptiveCache_Get, AdaptiveCache_selectGet. simpl. destruct useLFU'; simpl.
  - destruct (cache_Get Background t key f) as [f' r] eqn:Eg.
    destruct (cache_Get_law _ _ _ _ _ _ Hf' Ht Eg) as (Hf''&_&Hr&Hlive).
    destruct (Hlive eq_refl) as [o ->]. rewrite (Hr o eq_refl), Hv2. simpl.
    eexists. split; [done|]. apply Hadj; auto; rewrite ?u64_id by (unfold is_u64; lia); lia.
  - destruct (cache_Get Background t key l) as [l' r] eqn:Eg.
    destruct (cache_Get_law _ _ _ _ _ _ Hl' Ht Eg) as (Hl''&_&Hr&Hlive).
    destruct (Hlive eq_refl) as [o ->]. rewrite (Hr o eq_refl), Hv1. simpl.
    eexists. split; [done|]. apply Hadj; auto; rewrite ?u64_id by (unfold is_u64; lia); lia.
Qed.

End AdaptiveLawful.
