(* ===== verification/InMemoryCache.v ===== *)
(** * InMemoryCache: the TTL and LRU cache

    Models [src/cache/cache.go]: the type [InMemoryCache] with [Get], [Set],
    [Invalidate], the sweeper, [Close], [Metrics] and [EstimateSize]. The
    recency list [order] (a [container/list] of keys, front first) is the list
    of the keys of its nodes; an item's [element] is the node that carries its
    key, which the invariant makes unique. Metrics and tracing hooks have no
    effect on the modelled state and are left out. *)

From S2P Require Import Prelude CacheIface.

(** ** EstimateSize

    The dynamic values the type switch of [EstimateSize] distinguishes;
    [GoSizer] implements [Sizer], [GoOther] is any other type with its
    [unsafe.Sizeof]. *)
Inductive goval :=
| GoSizer (size : Z)
| GoString (s : string)
| GoBytes (b : list Byte.byte)
| GoWord64 | GoComplex128 | GoWord32 | GoWord16 | GoWord8
| GoOther (sizeof : Z).

Definition EstimateSize (v : goval) : Z :=
  match v with
  | GoSizer s => s
  | GoString s => Z.of_nat (String.length s)
  | GoBytes b => Z.of_nat (length b)
  | GoWord64 | GoComplex128 => 8
  | GoWord32 => 4
  | GoWord16 => 2
  | GoWord8 => 1
  | GoOther n => n
  end.

(** A cached type, seen through its dynamic value. *)
Class Dynamic (V : Type) := dynamic : V -> goval.

(** ** container/list on keys *)

Definition list_Remove (k : string) (l : list string) : list string := filter (fun x => x <> k) l.
Definition list_PushFront (k : string) (l : list string) : list string := k :: l.
Definition list_MoveToFront (k : string) (l : list string) : list string := k :: list_Remove k l.
Definition list_Back (l : list string) : option string := last l.
Definition list_RemoveBack (l : list string) : list string := take (length l - 1) l.

(** ** State *)

Record item (V : Type) := mkItem { value : V; isize : Z; expiresAt : time }.
Arguments mkItem {V} _ _ _.
Arguments value {V} _.
Arguments isize {V} _.
Arguments expiresAt {V} _.

Record InMemoryCache (V : Type) := mkCache {
  items : gmap string (item V);
  order : list string;
  hits : Z;
  misses : Z;
  sweepInterval : duration;
  maxEntries : Z;
  maxMemory : Z;
  currentMemory : Z;
}.
Arguments mkCache {V} _ _ _ _ _ _ _ _.
Arguments items {V} _.
Arguments order {V} _.
Arguments hits {V} _.
Arguments misses {V} _.
Arguments sweepInterval {V} _.
Arguments maxEntries {V} _.
Arguments maxMemory {V} _.
Arguments currentMemory {V} _.

Definition defaultSweepInterval : duration := Minute.

Section Cache.
Context {V : Type} `{!Dynamic V}.
Implicit Types c : InMemoryCache V.

Definition InMemoryOption : Type := InMemoryCache V -> InMemoryCache V.

Definition WithSweepInterval (d : duration) : InMemoryOption := fun c =>
  mkCache (items c) (order c) (hits c) (misses c) d (maxEntries c) (maxMemory c) (currentMemory c).
Definition WithMaxEntries (n : Z) : InMemoryOption := fun c =>
  mkCache (items c) (order c) (hits c) (misses c) (sweepInterval c) n (maxMemory c) (currentMemory c).
Definition WithMaxMemory (bytes : Z) : InMemoryOption := fun c =>
  mkCache (items c) (order c) (hits c) (misses c) (sweepInterval c) (maxEntries c) bytes (currentMemory c).

Definition NewInMemory (opts : list InMemoryOption) : InMemoryCache V :=
  foldl (fun c opt => opt c) (mkCache ∅ [] 0 0 defaultSweepInterval 0 0 0) opts.

(** Replace items, recency list and memory counter. *)
Definition with_contents c (its : gmap string (item V)) (ord : list string) (mem : Z) :=
  mkCache its ord (hits c) (misses c) (sweepInterval c) (maxEntries c) (maxMemory c) mem.
Definition count_hit c :=
  mkCache (items c) (order c) (u64 (hits c + 1)) (misses c) (sweepInterval c)
    (maxEntries c) (maxMemory c) (currentMemory c).
Definition count_miss c :=
  mkCache (items c) (order c) (hits c) (u64 (misses c + 1)) (sweepInterval c)
    (maxEntries c) (maxMemory c) (currentMemory c).

(** [c.order.Remove(it.element); delete(c.items, key); c.currentMemory.Add(-it.size)] *)
Definition remove_item c (key : string) (it : item V) : InMemoryCache V :=
  with_contents c (delete key (items c)) (list_Remove key (order c)) (currentMemory c -₆₄ isize it).

Definition expired (now : time) (it : item V) : bool :=
  negb (time_IsZero (expiresAt it)) && time_After now (expiresAt it).

(** ** Operations *)

Definition InMemoryCache_Get (cx : ctx) (now : time) (key : string) c
    : InMemoryCache V * res (option V) :=
  match cx 0%nat with
  | Some e => (c, Err e)
  | None =>
      match items c !! key with
      | None => (count_miss c, Ok None)
      | Some it =>
          if expired now it then (count_miss (remove_item c key it), Ok None)
          else
            let c := with_contents c (items c) (list_MoveToFront key (order c)) (currentMemory c) in
            match cx 1%nat with
            | Some e => (c, Err e)
            | None => (count_hit c, Ok (Some (value it)))
            end
      end
  end.

(** Eviction of the node at the back of the list, as both limits do it. *)
Definition evict_back c : InMemoryCache V :=
  match list_Back (order c) with
  | None => c
  | Some k =>
      let ord := list_RemoveBack (order c) in
      match items c !! k with
      | Some it => with_contents c (delete k (items c)) ord (currentMemory c -₆₄ isize it)
      | None => with_contents c (items c) ord (currentMemory c)
      end
  end.

Definition enforce_entries c : InMemoryCache V :=
  if (0 <? maxEntries c) && (maxEntries c <? Z.of_nat (size (items c)))
  then evict_back c else c.

(** The loop [for c.currentMemory.Load() > c.maxMemory], which also stops when
    the list is empty; every iteration removes one node, so the number of
    nodes bounds the iterations. *)
Fixpoint evict_memory (fuel : nat) c : InMemoryCache V :=
  if maxMemory c <? currentMemory c then
    match list_Back (order c) with
    | None => c
    | Some _ =>
        match fuel with
        | O => c
        | S fuel => evict_memory fuel (evict_back c)
        end
    end
  else c.

Definition enforce_memory c : InMemoryCache V :=
  if 0 <? maxMemory c then evict_memory (length (order c)) c else c.

(** The update of items, list and counter, before the limits. *)
Definition store_item (key : string) (v : V) (exp : time) c : InMemoryCache V :=
  let sz := EstimateSize (dynamic v) in
  match items c !! key with
  | Some it =>
      with_contents c (<[key := mkItem v sz exp]> (items c))
        (list_MoveToFront key (order c)) (currentMemory c +₆₄ (i64 (sz - isize it)))
  | None =>
      with_contents c (<[key := mkItem v sz exp]> (items c))
        (list_PushFront key (order c)) (currentMemory c +₆₄ sz)
  end.

Definition InMemoryCache_Set (cx : ctx) (now : time) (key : string) (v : V) (ttl : duration) c
    : InMemoryCache V * option error :=
  match cx 0%nat with
  | Some e => (c, Some e)
  | None =>
      let exp := if 0 <? ttl then time_Add now ttl else 0 in
      match cx 1%nat with
      | Some e => (c, Some e)
      | None => (enforce_memory (enforce_entries (store_item key v exp c)), None)
      end
  end.

Definition InMemoryCache_Invalidate (cx : ctx) (key : string) c
    : InMemoryCache V * option error :=
  match cx 0%nat with
  | Some e => (c, Some e)
  | None =>
      match cx 1%nat with
      | Some e => (c, Some e)
      | None =>
          match items c !! key with
          | Some it => (remove_item c key it, None)
          | None => (c, None)
          end
      end
  end.

(** ** The sweeper *)

Definition sampleSize : nat := 20.

(** One locked pass over the map in iteration order [keys]: the loop checks
    entries until [sampleSize] of them were seen, removes the expired ones and
    counts them. *)
Fixpoint sweep_entries (now : time) (keys : list string) (n : nat) c : InMemoryCache V * nat :=
  match n, keys with
  | S n, k :: keys =>
      match items c !! k with
      | None => sweep_entries now keys (S n) c
      | Some it =>
          if expired now it then
            let '(c, e) := sweep_entries now keys n (remove_item c k it) in (c, S e)
          else sweep_entries now keys n c
      end
  | _, _ => (c, O)
  end.

(** The inner loop of a tick: pass [i] reads the clock and an iteration order
    of the map from the environment. It stops on an empty cache and when
    fewer than [sampleSize * 0.25 = 5] entries were expired. [None] means the
    given passes did not suffice. *)
Fixpoint sweep_tick (passes : list (time * list string)) c : option (InMemoryCache V) :=
  match passes with
  | [] => None
  | (now, keys) :: passes =>
      if bool_decide (items c = ∅) then Some c
      else
        let '(c, expiredCount) := sweep_entries now keys sampleSize c in
        if Z.of_nat expiredCount <? 5 then Some c else sweep_tick passes c
  end.

(** ** Close and statistics *)

(** [Close] replaces the map and clears the list; the memory counter keeps its
    value. *)
Definition InMemoryCache_Close c : InMemoryCache V := with_contents c ∅ [] (currentMemory c).

Record Stats := mkStats { Hits : Z; Misses : Z; Size : Z }.

Definition InMemoryCache_Metrics c : Stats :=
  mkStats (hits c) (misses c) (Z.of_nat (size (items c))).

Definition GetCurrentMemory c : Z := currentMemory c.

#[export] Instance InMemoryCache_Cache : Cache (InMemoryCache V) V := {
  cache_Get := InMemoryCache_Get;
  cache_Set := InMemoryCache_Set;
  cache_Invalidate := InMemoryCache_Invalidate;
  cache_GetAt := None;
}.

End Cache.

(** ** Invariant *)

Section Invariant.
Context {V : Type} `{!Dynamic V}.
Implicit Types c : InMemoryCache V.

Definition total_size (its : gmap string (item V)) : Z :=
  map_fold (fun _ it acc => isize it + acc) 0 its.

Record lru_inv c : Prop := {
  inv_nodup : NoDup (order c);
  inv_keys : forall k, k ∈ order c <-> is_Some (items c !! k);
  inv_memory : currentMemory c = i64 (total_size (items c));
  inv_entries : 0 < maxEntries c -> Z.of_nat (size (items c)) <= maxEntries c;
}.

Lemma total_size_insert its k it :
  its !! k = None -> total_size (<[k := it]> its) = isize it + total_size its.
Proof. intros H. unfold total_size. rewrite map_fold_insert_L; [done| |done]. intros. lia. Qed.

Lemma total_size_delete its k it :
  its !! k = Some it -> total_size its = isize it + total_size (delete k its).
Proof.
  intros H. rewrite <- (insert_delete_id its k it H) at 1.
  rewrite total_size_insert; [done|apply lookup_delete_eq].
Qed.

Lemma total_size_update its k it it' :
  its !! k = Some it -> total_size (<[k := it']> its) = total_size its - isize it + isize it'.
Proof.
  intros H. rewrite <- (insert_delete_eq its). rewrite total_size_insert by apply lookup_delete_eq.
  rewrite (total_size_delete its k it H). lia.
Qed.

Lemma elem_of_list_Remove k x l : x ∈ list_Remove k l <-> x <> k /\ x ∈ l.
Proof. unfold list_Remove. by rewrite list_elem_of_filter. Qed.

Lemma NoDup_list_Remove k l : NoDup l -> NoDup (list_Remove k l).
Proof. apply NoDup_filter. Qed.

Lemma order_back (l : list string) k :
  list_Back l = Some k -> l = list_RemoveBack l ++ [k].
Proof.
  unfold list_Back, list_RemoveBack. intros H. apply last_Some in H as [l' ->].
  rewrite length_app. simpl. replace (length l' + 1 - 1)%nat with (length l') by lia.
  by rewrite take_app_length.
Qed.

Lemma list_RemoveBack_cons k l : l <> [] -> list_RemoveBack (k :: l) = k :: list_RemoveBack l.
Proof. destruct l as [|x l]; [done|]. intros _. unfold list_RemoveBack. simpl. by rewrite Nat.sub_0_r. Qed.

Lemma list_Remove_notin k l : k ∉ l -> list_Remove k l = l.
Proof.
  unfold list_Remove. induction l as [|x l IH]; intros Hk; [done|].
  rewrite filter_cons_True; [f_equal; apply IH; set_solver|]. set_solver.
Qed.

Lemma list_Remove_back k l : NoDup (l ++ [k]) -> list_Remove k (l ++ [k]) = l.
Proof.
  intros (_&Hd&_)%NoDup_app. unfold list_Remove. rewrite filter_app.
  rewrite (filter_cons_False _ k) by naive_solver. rewrite filter_nil, app_nil_r.
  apply list_Remove_notin. set_solver.
Qed.

(** Contents that satisfy everything but the entry limit. *)
Record contents_ok (its : gmap string (item V)) (ord : list string) (mem : Z) : Prop := {
  ok_nodup : NoDup ord;
  ok_keys : forall k, k ∈ ord <-> is_Some (its !! k);
  ok_memory : mem = i64 (total_size its);
}.

Lemma lru_inv_contents c :
  lru_inv c <-> contents_ok (items c) (order c) (currentMemory c) /\
                (0 < maxEntries c -> Z.of_nat (size (items c)) <= maxEntries c).
Proof.
  split.
  - intros [H1 H2 H3 H4]. split; [by constructor|done].
  - intros [[H1 H2 H3] H4]. by constructor.
Qed.

Lemma contents_delete its ord mem k it :
  contents_ok its ord mem -> its !! k = Some it ->
  contents_ok (delete k its) (list_Remove k ord) (mem -₆₄ isize it).
Proof.
  intros [Hn Hk ->] Hit. split.
  - by apply NoDup_list_Remove.
  - intros x. rewrite elem_of_list_Remove, Hk, lookup_delete_is_Some. naive_solver.
  - rewrite (total_size_delete its k it Hit).
    replace (i64 _ - isize it) with (i64 (isize it + total_size (delete k its)) + - isize it) by lia.
    rewrite i64_add_idemp_l. f_equal. lia.
Qed.

Lemma contents_evict c :
  contents_ok (items c) (order c) (currentMemory c) ->
  contents_ok (items (evict_back c)) (order (evict_back c)) (currentMemory (evict_back c)).
Proof.
  intros H. unfold evict_back. destruct (list_Back (order c)) as [k|] eqn:E; [|done].
  apply order_back in E. pose proof (ok_nodup _ _ _ H) as Hn. 
  assert (k ∈ order c) as Hin by (rewrite E; apply elem_of_app; right; apply list_elem_of_here).
  apply (ok_keys _ _ _ H) in Hin as [it Hit]. rewrite Hit. simpl.
  assert (list_RemoveBack (order c) = list_Remove k (order c)) as ->.
  { symmetry. rewrite E at 1. apply list_Remove_back. by rewrite <- E. }
  by apply contents_delete.
Qed.
Lemma contents_store key v exp c :
  contents_ok (items c) (order c) (currentMemory c) ->
  let c' := store_item key v exp c in
  contents_ok (items c') (order c') (currentMemory c').
Proof.
  intros [Hn Hk Hm]. unfold store_item. destruct (items c !! key) as [it|] eqn:E; simpl.
  - split; simpl.
    + unfold list_MoveToFront. constructor; [|by apply NoDup_list_Remove].
      rewrite elem_of_list_Remove. tauto.
    + intros x. unfold list_MoveToFront. rewrite elem_of_cons, elem_of_list_Remove, Hk.
      rewrite lookup_insert_is_Some. destruct (decide (x = key)); naive_solver.
    + rewrite (total_size_update _ _ it) by done. rewrite Hm, i64_add_idemp_l, i64_add_idemp_r.
      f_equal. simpl. lia.
  - split; simpl.
    + constructor; [|done]. rewrite Hk, E. by intros [??].
    + intros x. unfold list_PushFront. rewrite elem_of_cons, Hk, lookup_insert_is_Some.
      destruct (decide (x = key)); naive_solver.
    + rewrite total_size_insert by done. rewrite Hm, i64_add_idemp_l. f_equal. simpl. lia.
Qed.

Lemma evict_back_order c :
  order (evict_back c) = list_RemoveBack (order c).
Proof.
  unfold evict_back, list_Back. destruct (last (order c)) as [k|] eqn:E.
  - by destruct (items c !! k).
  - apply last_None in E. by rewrite E.
Qed.

Lemma evict_back_config c :
  maxEntries (evict_back c) = maxEntries c /\ maxMemory (evict_back c) = maxMemory c.
Proof. unfold evict_back. by repeat case_match. Qed.

Lemma evict_back_items_subseteq c : items (evict_back c) ⊆ items c.
Proof. unfold evict_back. repeat case_match; simpl; [apply delete_subseteq|done|done]. Qed.

Lemma evict_back_size c :
  contents_ok (items c) (order c) (currentMemory c) ->
  size (items (evict_back c)) = (size (items c) - 1)%nat.
Proof.
  intros H. unfold evict_back. destruct (list_Back (order c)) as [k|] eqn:E.
  - apply order_back in E.
    assert (k ∈ order c) as Hin by (rewrite E; apply elem_of_app; right; apply list_elem_of_here).
    apply (ok_keys _ _ _ H) in Hin as [it Hit]. rewrite Hit. simpl.
    rewrite map_size_delete, Hit. simpl. lia.
  - destruct (decide (items c = ∅)) as [->|Hne]; [done|].
    apply map_choose in Hne as (k&it&Hk). unfold list_Back in E. apply last_None in E.
    assert (k ∈ order c) as Hin by (apply (ok_keys _ _ _ H); eauto).
    rewrite E in Hin. by apply not_elem_of_nil in Hin.
Qed.

(** The memory loop keeps the contents consistent, only removes entries, and
    its fuel suffices: it ends below the limit or with an empty list. *)
Lemma evict_memory_spec fuel c :
  contents_ok (items c) (order c) (currentMemory c) -> (length (order c) <= fuel)%nat ->
  let c' := evict_memory fuel c in
  contents_ok (items c') (order c') (currentMemory c') /\
  maxEntries c' = maxEntries c /\ maxMemory c' = maxMemory c /\
  items c' ⊆ items c /\
  (currentMemory c' <= maxMemory c \/ order c' = []).
Proof.
  revert c. induction fuel as [|fuel IH]; intros c H Hf; simpl.
  all: destruct (maxMemory c <? currentMemory c) eqn:E; bool_to_prop; [|split_and!; (done || by left)].
  all: destruct (list_Back (order c)) as [k|] eqn:Eb;
    [|unfold list_Back in Eb; apply last_None in Eb; split_and!; (done || by right)].
  - apply order_back in Eb. rewrite Eb in Hf. rewrite length_app in Hf. simpl in Hf. lia.
  - destruct (IH (evict_back c)) as (H1&H2&H3&H4&H5).
    + by apply contents_evict.
    + rewrite evict_back_order. apply order_back in Eb. rewrite Eb in Hf.
      rewrite length_app in Hf. simpl in Hf. lia.
    + destruct (evict_back_config c) as [Ee Em]. rewrite Ee in H2. rewrite Em in H3, H5.
      split_and!; try done. etrans; [done|]. apply evict_back_items_subseteq.
Qed.

Lemma enforce_memory_spec c :
  contents_ok (items c) (order c) (currentMemory c) ->
  let c' := enforce_memory c in
  contents_ok (items c') (order c') (currentMemory c') /\
  maxEntries c' = maxEntries c /\ maxMemory c' = maxMemory c /\
  items c' ⊆ items c /\
  (0 < maxMemory c -> currentMemory c' <= maxMemory c).
Proof.
  intros H. unfold enforce_memory. destruct (0 <? maxMemory c) eqn:E; bool_to_prop.
  - destruct (evict_memory_spec (length (order c)) c H (Nat.le_refl _)) as (H1&H2&H3&H4&H5).
    split_and!; try done. intros _. destruct H5 as [|H5]; [done|].
    assert (items (evict_memory (length (order c)) c) = ∅) as He.
    { apply map_empty. intros k. apply eq_None_not_Some. rewrite <- (ok_keys _ _ _ H1), H5.
      apply not_elem_of_nil. }
    rewrite (ok_memory _ _ _ H1), He. unfold total_size. rewrite map_fold_empty.
    rewrite i64_id; [lia|]. unfold is_i64. lia.
  - split_and!; try done. lia.
Qed.

Lemma enforce_entries_spec c :
  contents_ok (items c) (order c) (currentMemory c) ->
  (0 < maxEntries c -> Z.of_nat (size (items c)) <= maxEntries c + 1) ->
  let c' := enforce_entries c in
  lru_inv c' /\ maxEntries c' = maxEntries c /\ maxMemory c' = maxMemory c /\
  items c' ⊆ items c.
Proof.
  intros H Hs. unfold enforce_entries. rewrite lru_inv_contents.
  destruct ((0 <? maxEntries c) && _) eqn:E; bool_to_prop.
  - destruct (evict_back_config c) as [-> ->]. split_and!; try done.
    + by apply contents_evict.
    + rewrite evict_back_size by done. lia.
    + apply evict_back_items_subseteq.
  - split_and!; try done. intros Hpos.
    apply andb_false_iff in E as [E|E]; bool_to_prop; lia.
Qed.

Lemma store_item_config key v exp c :
  maxEntries (store_item key v exp c) = maxEntries c /\
  maxMemory (store_item key v exp c) = maxMemory c.
Proof. unfold store_item. by case_match. Qed.

Lemma store_item_items key v exp c :
  items (store_item key v exp c) = <[key := mkItem v (EstimateSize (dynamic v)) exp]> (items c).
Proof. unfold store_item. by case_match. Qed.

Lemma store_item_size key v exp c :
  (size (items (store_item key v exp c)) <= S (size (items c)))%nat.
Proof. rewrite store_item_items, map_size_insert. case_match; unfold id; lia. Qed.

(** Everything [Set] does under its lock. *)
Lemma set_locked_spec key v exp c :
  lru_inv c ->
  let c' := enforce_memory (enforce_entries (store_item key v exp c)) in
  lru_inv c' /\ maxEntries c' = maxEntries c /\ maxMemory c' = maxMemory c /\
  items c' ⊆ <[key := mkItem v (EstimateSize (dynamic v)) exp]> (items c) /\
  (0 < maxMemory c -> currentMemory c' <= maxMemory c).
Proof.
  intros [H He]%lru_inv_contents. destruct (store_item_config key v exp c) as [E1 E2].
  pose proof (store_item_size key v exp c) as Hsz.
  destruct (enforce_entries_spec (store_item key v exp c)) as (H1&H2&H3&H4).
  { by apply contents_store. }
  { rewrite E1. intros Hp. specialize (He Hp). lia. }
  apply lru_inv_contents in H1 as [H1 H1e].
  destruct (enforce_memory_spec _ H1) as (M1&M2&M3&M4&M5). simpl.
  rewrite H3, E2 in M3, M5. rewrite H2, E1 in M2.
  split_and!; try done.
  - apply lru_inv_contents. split; [done|]. rewrite M2. rewrite H2, E1 in H1e. intros Hp.
    apply map_subseteq_size in M4. specialize (H1e Hp). lia.
  - rewrite <- store_item_items. by etrans.
Qed.

End Invariant.

(** ** Reachable caches *)

Section Reachable.
Context {V : Type} `{!Dynamic V}.
Implicit Types c : InMemoryCache V.

(** One operation on a cache, with any context and clock: the four ways the
    code changes a cache that is not being closed. *)
Inductive cache_step : InMemoryCache V -> InMemoryCache V -> Prop :=
| step_get cx now key c : cache_step c (fst (InMemoryCache_Get cx now key c))
| step_set cx now key v ttl c : cache_step c (fst (InMemoryCache_Set cx now key v ttl c))
| step_invalidate cx key c : cache_step c (fst (InMemoryCache_Invalidate cx key c))
| step_sweep now keys c : cache_step c (fst (sweep_entries now keys sampleSize c)).

Lemma remove_item_inv c key it :
  items c !! key = Some it -> lru_inv c -> lru_inv (remove_item c key it).
Proof.
  intros Hit [H He]%lru_inv_contents. apply lru_inv_contents. split.
  - by apply contents_delete.
  - simpl. intros Hp. specialize (He Hp). rewrite map_size_delete, Hit. simpl. lia.
Qed.

Lemma count_miss_inv c : lru_inv (count_miss c) <-> lru_inv c.
Proof. by rewrite !lru_inv_contents. Qed.

Lemma count_hit_inv c : lru_inv (count_hit c) <-> lru_inv c.
Proof. by rewrite !lru_inv_contents. Qed.

Lemma move_to_front_inv c key :
  is_Some (items c !! key) -> lru_inv c ->
  lru_inv (with_contents c (items c) (list_MoveToFront key (order c)) (currentMemory c)).
Proof.
  intros Hk [[Hn Hi Hm] He]%lru_inv_contents. apply lru_inv_contents.
  split; [|done]. split; simpl; [| |done].
  - unfold list_MoveToFront. constructor; [|by apply NoDup_list_Remove].
    rewrite elem_of_list_Remove. tauto.
  - intros x. unfold list_MoveToFront. rewrite elem_of_cons, elem_of_list_Remove, Hi.
    destruct (decide (x = key)); naive_solver.
Qed.

Lemma Get_inv cx now key c : lru_inv c -> lru_inv (fst (InMemoryCache_Get cx now key c)).
Proof.
  intros H. unfold InMemoryCache_Get. destruct (cx 0%nat); [done|].
  destruct (items c !! key) as [it|] eqn:E; simpl; [|by apply count_miss_inv].
  destruct (expired now it); simpl.
  - by apply count_miss_inv, remove_item_inv.
  - assert (is_Some (items c !! key)) as Hs by eauto.
    pose proof (move_to_front_inv c key Hs H). destruct (cx 1%nat); simpl; [done|].
    by apply count_hit_inv.
Qed.

Lemma Set_inv cx now key v ttl c : lru_inv c -> lru_inv (fst (InMemoryCache_Set cx now key v ttl c)).
Proof.
  intros H. unfold InMemoryCache_Set. destruct (cx 0%nat), (cx 1%nat); try done.
  simpl. by apply set_locked_spec.
Qed.

Lemma Invalidate_inv cx key c : lru_inv c -> lru_inv (fst (InMemoryCache_Invalidate cx key c)).
Proof.
  intros H. unfold InMemoryCache_Invalidate. destruct (cx 0%nat), (cx 1%nat); try done.
  destruct (items c !! key) eqn:E; simpl; [|done]. by apply remove_item_inv.
Qed.

Lemma sweep_entries_inv now keys n c :
  lru_inv c -> lru_inv (fst (sweep_entries now keys n c)).
Proof.
  revert n c. induction keys as [|k keys IH]; intros n c H; [by destruct n|].
  destruct n as [|n]; simpl; [done|].
  destruct (items c !! k) as [it|] eqn:E; [|by apply IH].
  destruct (expired now it); [|by apply IH].
  specialize (IH n (remove_item c k it)).
  destruct (sweep_entries now keys n (remove_item c k it)). simpl in *.
  by apply IH, remove_item_inv.
Qed.

Lemma NewInMemory_inv (opts : list InMemoryOption) :
  (forall o c, o ∈ opts -> items (o c) = items c /\ order (o c) = order c /\
                           currentMemory (o c) = currentMemory c) ->
  lru_inv (NewInMemory opts).
Proof.
  intros Ho. unfold NewInMemory.
  assert (forall c, items c = ∅ -> order c = [] -> currentMemory c = 0 ->
    let c' := foldl (fun c opt => opt c) c opts in
    items c' = ∅ /\ order c' = [] /\ currentMemory c' = 0) as Hf.
  { induction opts as [|o opts IH]; intros c H1 H2 H3; simpl; [done|].
    destruct (Ho o c) as (E1&E2&E3); [set_solver|].
    apply IH; [|by rewrite E1|by rewrite E2|by rewrite E3].
    intros o' c' Hin. apply Ho. set_solver. }
  destruct (Hf (mkCache ∅ [] 0 0 defaultSweepInterval 0 0 0)) as (E1&E2&E3); [done..|].
  split; rewrite ?E1, ?E2, ?E3.
  - constructor.
  - intros k. rewrite lookup_empty. split; [by intros ?%not_elem_of_nil|by intros [??]].
  - unfold total_size. by rewrite map_fold_empty.
  - rewrite map_size_empty. lia.
Qed.

(** C2. In every cache reachable from [NewInMemory] by any interleaving of
    [Get], [Set], [Invalidate] and sweeper passes, under any contexts and
    clocks: the recency list holds exactly the stored keys, each once; the
    memory counter is the sum of the entry sizes (as an [int64]); and a
    positive entry limit is respected. *)
Theorem InMemoryCache_reachable_inv (entries memory : Z) (interval : duration) c :
  rtc cache_step (NewInMemory [WithSweepInterval interval; WithMaxEntries entries;
                               WithMaxMemory memory]) c ->
  lru_inv c.
Proof.
  intros Hr. assert (lru_inv (NewInMemory (V:=V) [WithSweepInterval interval;
    WithMaxEntries entries; WithMaxMemory memory])) as H0.
  { apply NewInMemory_inv. intros o c'. rewrite !elem_of_cons, elem_of_nil.
    intros [-> | [-> | [-> | []]]]; done. }
  revert H0. induction Hr as [c|c c1 c2 Hs _ IH]; intros H0; [done|]. apply IH.
  destruct Hs; auto using Get_inv, Set_inv, Invalidate_inv, sweep_entries_inv.
Qed.

(** A successful [Set] on a cache with a memory limit leaves the memory
    counter at or below the limit, by evicting least recently used entries;
    the loop that does so terminates. *)
Theorem InMemoryCache_Set_memory_bound (cx : ctx) (now : time) (key : string) (v : V)
    (ttl : duration) c c' :
  lru_inv c -> 0 < maxMemory c ->
  InMemoryCache_Set cx now key v ttl c = (c', None) ->
  currentMemory c' <= maxMemory c' /\ maxMemory c' = maxMemory c.
Proof.
  intros H Hm. unfold InMemoryCache_Set. destruct (cx 0%nat), (cx 1%nat); try done.
  intros [= <-]. destruct (set_locked_spec key v (if 0 <? ttl then time_Add now ttl else 0) c H)
    as (_&_&->&_&Hb). auto.
Qed.

(** C5. Eviction is least-recently-used: inserting a new key into a cache
    that is full to its entry limit (with no memory limit) removes exactly
    the key at the back of the recency list, keeps every other entry
    unchanged and puts the new key in front. *)
Theorem InMemoryCache_Set_evicts_lru (cx : ctx) (now : time) (key : string) (v : V)
    (ttl : duration) c c' victim :
  lru_inv c -> maxMemory c <= 0 -> 0 < maxEntries c ->
  Z.of_nat (size (items c)) = maxEntries c -> items c !! key = None ->
  list_Back (order c) = Some victim ->
  InMemoryCache_Set cx now key v ttl c = (c', None) ->
  items c' = <[key := mkItem v (EstimateSize (dynamic v))
                        (if 0 <? ttl then now + ttl else 0)]> (delete victim (items c)) /\
  order c' = key :: list_RemoveBack (order c).
Proof.
  intros H Hm Hp Hfull Hnew Hb. unfold InMemoryCache_Set.
  destruct (cx 0%nat), (cx 1%nat); try done. intros [= <-].
  unfold enforce_entries, store_item. rewrite Hnew. simpl.
  rewrite map_size_insert_None by done.
  assert ((0 <? maxEntries c) && (maxEntries c <? Z.of_nat (S (size (items c)))) = true) as ->
    by (apply andb_true_iff; split; apply Z.ltb_lt; lia).
  pose proof (order_back _ _ Hb) as Ho.
  assert (victim ∈ order c) as Hin.
  { rewrite Ho. apply elem_of_app. right. apply list_elem_of_here. }
  apply (inv_keys c H) in Hin as [it Hit].
  assert (victim <> key) as Hne by congruence.
  unfold evict_back. simpl. unfold list_PushFront.
  assert (list_Back (key :: order c) = Some victim) as ->.
  { unfold list_Back. rewrite Ho. by rewrite app_comm_cons, last_snoc. }
  rewrite lookup_insert_ne by done. rewrite Hit.
  unfold enforce_memory. simpl. replace (0 <? maxMemory c) with false by (symmetry; apply Z.ltb_ge; lia). simpl.
  split.
  - by rewrite delete_insert_ne.
  - apply list_RemoveBack_cons. intros Hn. rewrite Hn in Hb. done.
Qed.

(** Closing a cache empties it but leaves its memory counter: with a
    memory limit and a counter that the next value takes above it, a later
    [Set] of that value succeeds and the value is already gone. *)
Theorem InMemoryCache_Close_stale_memory (now t : time) (key : string) (v : V)
    (ttl : duration) c c' :
  lru_inv c -> 0 < maxMemory c -> maxMemory c < currentMemory c +₆₄ EstimateSize (dynamic v) ->
  InMemoryCache_Set Background now key v ttl (InMemoryCache_Close c) = (c', None) ->
  snd (InMemoryCache_Get Background t key c') = Ok None.
Proof.
  intros H Hm Hover. unfold InMemoryCache_Set, InMemoryCache_Close, Background. simpl.
  unfold store_item. simpl. rewrite lookup_empty. simpl. intros [= <-].
  unfold enforce_entries. simpl. rewrite map_size_insert_None by apply lookup_empty.
  rewrite map_size_empty. 
  assert ((0 <? maxEntries c) && (maxEntries c <? Z.of_nat 1) = false) as ->
    by (apply andb_false_iff; destruct (0 <? maxEntries c) eqn:E; bool_to_prop; [right; apply Z.ltb_ge; lia | by left]).
  unfold enforce_memory. simpl. replace (0 <? maxMemory c) with true by (symmetry; apply Z.ltb_lt; lia).
  simpl. apply Z.ltb_lt in Hover. rewrite Hover.
  unfold evict_back. simpl. rewrite lookup_insert_eq. simpl.
  unfold InMemoryCache_Get. simpl.
  destruct (maxMemory c <? _ -₆₄ _); simpl; by rewrite lookup_delete_eq.
Qed.

End Reachable.

(** ** The contract *)

Section Lawful.
Context {V : Type} `{!Dynamic V}.
Implicit Types c : InMemoryCache V.

Definition lru_view c (t : time) (k : string) : option V :=
  it ← items c !! k; if expired t it then None else Some (value it).

(** Caches without a memory limit, which always keep the entry just written. *)
Definition lru_ok c : Prop := lru_inv c /\ maxMemory c <= 0.

Lemma lru_view_items c c' t k :
  items c' !! k = items c !! k -> lru_view c' t k = lru_view c t k.
Proof. intros H. unfold lru_view. by rewrite H. Qed.

Lemma expired_mono (it : item V) t1 t2 : t1 <= t2 -> expired t1 it = true -> expired t2 it = true.
Proof.
  unfold expired, time_After. rewrite !andb_true_iff, !Z.ltb_lt. intros ? [? ?]. split; [done|lia].
Qed.

Lemma lru_view_remove c key it t k :
  items c !! key = Some it -> expired t it = true ->
  lru_view (remove_item c key it) t k = lru_view c t k.
Proof.
  intros Hit He. unfold lru_view. simpl. destruct (decide (k = key)) as [->|].
  - rewrite lookup_delete_eq, Hit. simpl. by rewrite He.
  - by rewrite lookup_delete_ne.
Qed.

Lemma Get_config cx now key c :
  maxMemory (fst (InMemoryCache_Get cx now key c)) = maxMemory c /\
  maxEntries (fst (InMemoryCache_Get cx now key c)) = maxEntries c.
Proof. unfold InMemoryCache_Get. by repeat case_match. Qed.

(** The entry in front of the list survives the entry limit. *)
Lemma enforce_entries_front c key it l :
  contents_ok (items c) (order c) (currentMemory c) ->
  order c = key :: l -> items c !! key = Some it ->
  items (enforce_entries c) !! key = Some it.
Proof.
  intros [Hn Hk Hm] Ho Hit. unfold enforce_entries.
  destruct ((0 <? maxEntries c) && _) eqn:E; [|done]. bool_to_prop.
  unfold evict_back. destruct (list_Back (order c)) as [k|] eqn:Eb; [|done].
  assert (k <> key) as Hne.
  { intros ->. rewrite Ho in Eb. destruct l as [|x l].
    - assert (size (items c) <= 1)%nat; [|lia].
      assert (items c ⊆ {[key := it]}) as Hsub.
      { apply map_subseteq_spec. intros x y Hx. assert (x ∈ order c) as Hin by (apply Hk; eauto).
        rewrite Ho in Hin. apply list_elem_of_singleton in Hin as ->.
        rewrite Hit in Hx. simplify_eq. apply lookup_singleton_eq. }
      apply map_subseteq_size in Hsub. by rewrite map_size_singleton in Hsub.
    - rewrite Ho in Hn. apply NoDup_cons in Hn as [Hn _]. apply Hn.
      unfold list_Back in Eb. change (last (x :: l) = Some key) in Eb.
      apply last_Some in Eb as [l' ->]. apply elem_of_app. right. apply list_elem_of_here. }
  destruct (items c !! k); simpl; [by rewrite lookup_delete_ne|done].
Qed.

Lemma store_item_order key v exp c : exists l, order (store_item key v exp c) = key :: l.
Proof. unfold store_item. case_match; simpl; by eexists. Qed.

Lemma Set_keeps key v exp c :
  lru_ok c ->
  items (enforce_memory (enforce_entries (store_item key v exp c))) !! key =
    Some (mkItem v (EstimateSize (dynamic v)) exp).
Proof.
  intros [H Hm]. pose proof (proj1 (lru_inv_contents c) H) as [Hc _].
  destruct (store_item_config key v exp c) as [E1 E2].
  destruct (store_item_order key v exp c) as [l Hl].
  unfold enforce_memory.
  assert (maxMemory (enforce_entries (store_item key v exp c)) = maxMemory c) as ->.
  { unfold enforce_entries. case_match; [|done].
    rewrite (proj2 (evict_back_config _)). done. }
  replace (0 <? maxMemory c) with false by (symmetry; apply Z.ltb_ge; lia).
  eapply enforce_entries_front; [by apply contents_store|done|].
  rewrite store_item_items. apply lookup_insert_eq.
Qed.

#[export] Instance InMemoryCache_Lawful : LawfulCache (InMemoryCache V) V.
Proof.
  refine {| cache_ok := lru_ok; cache_view := lru_view |}.
  - intros cx now k c c' r [H Hm] Hnow E. pose proof (Get_inv cx now k c H) as Hi.
    destruct (Get_config cx now k c) as [Hcm _]. simpl in E. rewrite E in Hi, Hcm. simpl in *.
    split; [split; [done|lia]|]. unfold InMemoryCache_Get in E.
    destruct (cx 0%nat) eqn:Ex.
    { simplify_eq. split_and!; [done|done|]. by intros ->. }
    destruct (items c !! k) as [it|] eqn:Eit.
    2: { simplify_eq. split_and!; [done| |eauto].
         intros o [= <-]. unfold lru_view. by rewrite Eit. }
    destruct (expired now it) eqn:Ee.
    { simplify_eq. split_and!; [| |eauto].
      - intros t k' Ht. change (lru_view (remove_item c k it) t k' = lru_view c t k').
        apply lru_view_remove; [done|]. by eapply expired_mono.
      - intros o [= <-]. unfold lru_view. rewrite Eit. simpl. by rewrite Ee. }
    destruct (cx 1%nat) eqn:Ex1; simplify_eq; (split_and!; [done| |]).
    + done.
    + by intros ->.
    + intros o [= <-]. unfold lru_view. rewrite Eit. simpl. by rewrite Ee.
    + eauto.
  - intros cx now k v ttl c c' r [H Hm] Hnow Httl E.
    pose proof (Set_inv cx now k v ttl c H) as Hi. simpl in E. rewrite E in Hi. simpl in Hi.
    unfold InMemoryCache_Set in E.
    destruct (cx 0%nat) eqn:Ex; [|destruct (cx 1%nat) eqn:Ex1].
    1,2: simplify_eq; split_and!; [done|done|by left|done|by intros ->].
    set (exp := if 0 <? ttl then time_Add now ttl else 0) in *.
    destruct (set_locked_spec k v exp c H) as (_&_&Hcm&Hsub&_).
    pose proof (Set_keeps k v exp c (conj H Hm)) as Hkeep.
    simplify_eq. split_and!; [split; [done|lia]| | |done|done].
    + intros _ t Ht. unfold lru_view. rewrite Hkeep. simpl. unfold expired. simpl.
      unfold exp, expiry, time_Add, time_IsZero, time_After in *.
      destruct (0 <? ttl) eqn:E0; bool_to_prop; [|done]. cbn [served] in *.
      assert ((now + ttl =? 0) = false) as -> by (apply Z.eqb_neq; lia). simpl.
      destruct (now + ttl <? t) eqn:E1; bool_to_prop; case_decide; done || lia.
    + intros t k' Hne Ht.
      destruct (items (enforce_memory (enforce_entries (store_item k v exp c))) !! k') as [it|] eqn:E1.
      * left. apply lru_view_items. rewrite E1. symmetry.
        eapply lookup_weaken in E1; [|exact Hsub]. by rewrite lookup_insert_ne in E1.
      * right. unfold lru_view. by rewrite E1.
  - intros cx k c c' r [H Hm] E. pose proof (Invalidate_inv cx k c H) as Hi.
    simpl in E. rewrite E in Hi. simpl in Hi. unfold InMemoryCache_Invalidate in E.
    destruct (cx 0%nat) eqn:Ex; [|destruct (cx 1%nat) eqn:Ex1].
    1,2: simplify_eq; split_and!; [done|done|done|by intros ->].
    destruct (items c !! k) as [it|] eqn:Eit; simplify_eq.
    + split_and!; [done| | |done].
      * intros _ t. unfold lru_view. simpl. by rewrite lookup_delete_eq.
      * intros t k' Hne. apply lru_view_items. simpl. by rewrite lookup_delete_ne.
    + split_and!; [done| |done|done]. intros _ t. unfold lru_view. by rewrite Eit.
  - done.
Defined.

(** What a cache without a memory limit serves is exactly what was last
    written and has not expired: a [Set] makes the value visible at every
    instant up to [now + ttl] (forever when [ttl] is not positive) and no
    later, [Get] at any instant answers it, and [Invalidate] removes it. *)
Theorem InMemoryCache_Set_Get (now t : time) (key : string) (v : V) (ttl : duration) c c' :
  lru_ok c -> 0 < now -> now <= t -> is_i64 ttl ->
  InMemoryCache_Set Background now key v ttl c = (c', None) ->
  snd (InMemoryCache_Get Background t key c') =
    Ok (if decide (served (expiry now ttl) t) then Some v else None) /\
  snd (InMemoryCache_Get Background t key (fst (InMemoryCache_Invalidate Background key c'))) =
    Ok None.
Proof.
  intros Hok Hnow Ht Httl HS. pose proof Hok as [Hinv _].
  unfold InMemoryCache_Set, Background in HS. simplify_eq/=.
  set (exp := if 0 <? ttl then time_Add now ttl else 0).
  pose proof (Set_keeps key v exp c Hok) as Hk. split.
  - unfold InMemoryCache_Get, Background. simpl. rewrite Hk. unfold expired. simpl.
    destruct (decide (served (expiry now ttl) t)) as [Hs|Hs];
    unfold exp, served, expiry, time_Add, time_IsZero, time_After in *;
    destruct (0 <? ttl) eqn:E; bool_to_prop; simpl; try done;
    (assert ((now + ttl =? 0) = false) as -> by (apply Z.eqb_neq; lia)); simpl;
    destruct (now + ttl <? t) eqn:E2; bool_to_prop; done || lia.
  - unfold InMemoryCache_Get, InMemoryCache_Invalidate, Background. simpl. rewrite Hk. simpl.
    by rewrite lookup_delete_eq.
Qed.

End Lawful.

(** ** The sweeper *)

Section Sweeper.
Context {V : Type} `{!Dynamic V}.
Implicit Types c : InMemoryCache V.

Lemma sweep_entries_spec now keys n c :
  let '(c', e) := sweep_entries now keys n c in
  items c' ⊆ items c /\
  (forall k it, items c !! k = Some it -> items c' !! k = None -> expired now it = true) /\
  (size (items c') + e = size (items c))%nat.
Proof.
  revert n c. induction keys as [|k keys IH]; intros n c; [destruct n; simpl; by split_and!; [| intros; congruence|lia]|].
  destruct n as [|n]; simpl; [by split_and!; [| intros; congruence|lia]|].
  destruct (items c !! k) as [it|] eqn:E; [|apply IH].
  destruct (expired now it) eqn:Ee; [|apply IH].
  specialize (IH n (remove_item c k it)).
  destruct (sweep_entries now keys n (remove_item c k it)) as [c' e]. simpl in IH.
  destruct IH as (H1&H2&H3). split_and!.
  - etrans; [exact H1|]. apply delete_subseteq.
  - intros k' it' Hk' Hn. destruct (decide (k' = k)) as [->|Hne]; [congruence|].
    apply (H2 k'); [|done]. by rewrite lookup_delete_ne.
  - rewrite map_size_delete, E in H3. simpl in H3.
    assert (size (items c) <> 0%nat) by (rewrite map_size_ne_0_lookup; eauto). lia.
Qed.

(** A pass that can visit every key it is given removes every expired one. *)
Lemma sweep_entries_complete now keys n c :
  (length keys <= n)%nat ->
  forall k it, k ∈ keys -> items (fst (sweep_entries now keys n c)) !! k = Some it ->
  expired now it = false.
Proof.
  revert n c. induction keys as [|k keys IH]; intros n c Hn k' it' Hin Hk'.
  { by apply not_elem_of_nil in Hin. }
  assert (forall n c, items (fst (sweep_entries now keys n c)) ⊆ items c) as Hsub.
  { intros n' c'. pose proof (sweep_entries_spec now keys n' c') as H.
    destruct (sweep_entries now keys n' c'). simpl. tauto. }
  destruct n as [|n]; simpl in Hn; [lia|].
  simpl in Hk'. destruct (items c !! k) as [it|] eqn:E; [destruct (expired now it) eqn:Ee|].
  - specialize (IH n (remove_item c k it)). specialize (Hsub n (remove_item c k it)).
    destruct (sweep_entries now keys n (remove_item c k it)) as [c' e]. simpl in *.
    apply elem_of_cons in Hin as [->|Hin].
    + eapply lookup_weaken in Hk'; [|exact Hsub]. by rewrite lookup_delete_eq in Hk'.
    + eapply IH; [lia|exact Hin|done].
  - apply elem_of_cons in Hin as [->|Hin].
    + eapply lookup_weaken in Hk'; [|apply Hsub]. rewrite E in Hk'. by simplify_eq.
    + eapply (IH n c); [lia|exact Hin|done].
  - apply elem_of_cons in Hin as [->|Hin].
    + eapply lookup_weaken in Hk'; [|apply Hsub]. congruence.
    + eapply (IH (S n) c); [lia|exact Hin|done].
Qed.

(** C29. A sweeper tick terminates: every pass that does not end it removes at
    least five entries, so more than [size / 5] passes are never needed,
    whatever the clock and the map's iteration order. It only removes entries
    that have expired by one of its passes, keeps the invariant, and a single
    pass over a cache of at most twenty entries removes all expired ones. *)
Theorem sweep_tick_correct (passes : list (time * list string)) c :
  lru_inv c -> (size (items c) < 5 * length passes)%nat ->
  exists c', sweep_tick passes c = Some c' /\ lru_inv c' /\ items c' ⊆ items c /\
    (forall k it, items c !! k = Some it -> items c' !! k = None ->
       Exists (fun p => expired (fst p) it = true) passes) /\
    (forall now keys rest, passes = (now, keys) :: rest -> (length keys <= 20)%nat ->
       (forall k, is_Some (items c !! k) -> k ∈ keys) ->
       forall k it, items c' !! k = Some it -> expired now it = false).
Proof.
  revert c. induction passes as [|[now keys] passes IH]; intros c Hi Hs; [simpl in Hs; lia|].
  simpl. case_bool_decide as He.
  { exists c. split_and!; [done|done|done| |].
    - intros k it Hk. rewrite He in Hk. by apply lookup_empty_Some in Hk.
    - intros ?????? k it Hk. rewrite He in Hk. by apply lookup_empty_Some in Hk. }
  pose proof (sweep_entries_spec now keys sampleSize c) as Hsp.
  pose proof (sweep_entries_inv now keys sampleSize c Hi) as Hi'.
  assert (forall k it c2, items c2 ⊆ items (fst (sweep_entries now keys sampleSize c)) ->
    (length keys <= 20)%nat -> (forall k, is_Some (items c !! k) -> k ∈ keys) ->
    items c2 !! k = Some it -> expired now it = false) as Hcomp.
  { intros k it c2 Hsub Hlen Hall Hk. eapply lookup_weaken in Hk; [|exact Hsub].
    eapply sweep_entries_complete; [exact Hlen| |exact Hk]. apply Hall.
    destruct (sweep_entries now keys sampleSize c) as [c1 e].
    eapply lookup_weaken in Hk; [|apply Hsp]. eauto. }
  destruct (sweep_entries now keys sampleSize c) as [c1 e]. simpl in *.
  destruct Hsp as (H1&H2&H3).
  destruct (Z.of_nat e <? 5) eqn:E; bool_to_prop.
  - exists c1. split_and!; [done|done|done| |].
    + intros k it Hk Hn. apply Exists_cons_hd. simpl. eauto.
    + intros ??? [= <- <- <-] ?? k it Hk. eapply Hcomp; eauto.
  - destruct (IH c1 Hi') as (c2&E2&Hi2&Hsub&Hrm&_); [lia|].
    exists c2. split_and!; [done|done|by etrans| |].
    + intros k it Hk Hn. destruct (items c1 !! k) as [it1|] eqn:E1.
      * apply Exists_cons_tl, (Hrm k); [|done]. rewrite E1. f_equal.
        eapply lookup_weaken in E1; [|exact H1]. congruence.
      * apply Exists_cons_hd. simpl. eauto.
    + intros ??? [= <- <- <-] ?? k it Hk. eapply Hcomp; eauto.
Qed.

End Sweeper.

(** ** Witnesses *)

#[export] Instance string_dynamic : Dynamic string := GoString.

Definition demo0 : InMemoryCache string :=
  NewInMemory [WithSweepInterval 0; WithMaxEntries 2; WithMaxMemory 0].
Definition demo1 : InMemoryCache string :=
  fst (InMemoryCache_Set Background 10 "a" "xx" 5 demo0).
Definition demo : InMemoryCache string :=
  fst (InMemoryCache_Set Background 11 "b" "y" 0 demo1).

Definition demo_mem : InMemoryCache string :=
  fst (InMemoryCache_Set Background 10 "a" "xxxx" 0
         (NewInMemory [WithSweepInterval 0; WithMaxEntries 0; WithMaxMemory 5])).

Lemma InMemoryCache_reachable_inv_witness :
  lru_inv demo /\ order demo = ["b"; "a"] /\ currentMemory demo = 3.
Proof.
  split; [|by vm_compute].
  exact (InMemoryCache_reachable_inv 2 0 0 demo
    (rtc_l _ _ demo1 _ (step_set Background 10 "a" "xx" 5 demo0)
      (rtc_l _ _ demo _ (step_set Background 11 "b" "y" 0 demo1) (rtc_refl _ demo)))).
Defined.

Lemma demo_inv : lru_inv demo.
Proof.
  apply Set_inv, Set_inv, NewInMemory_inv. intros o c. rewrite !elem_of_cons, elem_of_nil.
  intros [-> | [-> | [-> | []]]]; done.
Qed.

Lemma demo_mem_inv : lru_inv demo_mem.
Proof.
  apply Set_inv, NewInMemory_inv. intros o c. rewrite !elem_of_cons, elem_of_nil.
  intros [-> | [-> | [-> | []]]]; done.
Qed.

Lemma InMemoryCache_Set_memory_bound_witness :
  let c' := fst (InMemoryCache_Set Background 12 "b" "zzz" 0 demo_mem) in
  currentMemory c' = 3 /\ currentMemory c' <= maxMemory c'.
Proof.
  split; [by vm_compute|].
  apply (InMemoryCache_Set_memory_bound Background 12 "b" "zzz" 0 demo_mem);
    [apply demo_mem_inv|by vm_compute|by vm_compute].
Defined.

Lemma InMemoryCache_Set_evicts_lru_witness :
  order (fst (InMemoryCache_Set Background 12 "c" "z" 0 demo)) = ["c"; "b"].
Proof.
  rewrite (proj2 (InMemoryCache_Set_evicts_lru Background 12 "c" "z" 0 demo
    (fst (InMemoryCache_Set Background 12 "c" "z" 0 demo)) "a" demo_inv
    ltac:(by vm_compute) ltac:(by vm_compute) ltac:(by vm_compute) ltac:(by vm_compute)
    ltac:(by vm_compute) ltac:(by vm_compute))).
  by vm_compute.
Defined.

Lemma InMemoryCache_Close_stale_memory_witness :
  snd (InMemoryCache_Get Background 30 "k"
    (fst (InMemoryCache_Set Background 20 "k" "vv" 0 (InMemoryCache_Close demo_mem)))) = Ok None.
Proof.
  apply (InMemoryCache_Close_stale_memory 20 30 "k" "vv" 0 demo_mem);
    [apply demo_mem_inv|by vm_compute|by vm_compute|by vm_compute].
Defined.

Lemma InMemoryCache_Set_Get_witness :
  snd (InMemoryCache_Get Background 19 "c"
    (fst (InMemoryCache_Set Background 12 "c" "z" 7 demo))) = Ok (Some "z").
Proof.
  transitivity (Ok (if decide (served (expiry 12 7) 19) then Some "z" else None));
    [|by vm_compute].
  apply (InMemoryCache_Set_Get 12 19 "c" "z" 7 demo);
    [exact (conj demo_inv (Z.le_refl 0))|lia|lia|unfold is_i64; lia|by vm_compute].
Defined.

Lemma sweep_tick_correct_witness : exists c',
  sweep_tick [(20, ["b"; "a"])] demo = Some c' /\ items c' ⊆ items demo.
Proof.
  destruct (sweep_tick_correct [(20, ["b"; "a"])] demo demo_inv ltac:(vm_compute; lia))
    as (c'&E&_&Hs&_).
  exists c'. split; [exact E|exact Hs].
Defined.

(** An adaptive cache over two LRU caches after one write, switched to the
    second one. *)
Definition demo_adaptive : AdaptiveCache (InMemoryCache string) (InMemoryCache string) :=
  fst (AdaptiveCache_Set Background 12 "k" "v" 7 (NewAdaptive demo demo)).

Definition demo_switched : AdaptiveCache (InMemoryCache string) (InMemoryCache string) :=
  mkAdaptive (lru demo_adaptive) (lfu demo_adaptive) true
    (ac_hits demo_adaptive) (ac_misses demo_adaptive) (switchEvery demo_adaptive).

Lemma AdaptiveCache_Set_Get_witness : exists a3,
  AdaptiveCache_Get Background 15 "k" demo_switched = (a3, Ok (Some "v")).
Proof.
  destruct (AdaptiveCache_Set_Get (NewAdaptive demo demo) demo_adaptive demo_switched
    12 15 "k" "v" 7 true) as (a3&E&_); [| | | | | | |exists a3; exact E].
  - split_and!; [exact (conj demo_inv (Z.le_refl 0)) .. |].
    unfold adaptive_inv. simpl. lia.
  - lia.
  - unfold is_i64. lia.
  - lia.
  - vm_compute. discriminate.
  - vm_compute. reflexivity.
  - reflexivity.
Defined.
