(* ===== verification/Codec.v ===== *)
(** * Codec: how values are stored as bytes

    Models [src/cache/codec.go]: the interface [Codec], seen at one type of
    values, and [ByteCodec]. [JSONCodec] and [GobCodec] hand their argument to
    [encoding/json] and [encoding/gob], which work by reflection on any Go
    type: where a component uses one of them by default, it is an argument. *)

From S2P Require Import Prelude InMemoryCache.

Record Codec (T : Type) := mkCodec {
  Marshal : T -> res (list Byte.byte);
  Unmarshal : list Byte.byte -> res T;
}.
Arguments mkCodec {T} _ _.
Arguments Marshal {T} _ _.
Arguments Unmarshal {T} _ _.

(** The promise of a codec: what it encodes it decodes. *)
Class LawfulCodec {T : Type} (c : Codec T) : Prop :=
  codec_roundtrip : forall v data, Marshal c v = Ok data -> Unmarshal c data = Ok v.

(** What a map of bytes holds of the codec's type. *)
Section Decoded.
Context {T : Type} (codec : Codec T).
Implicit Types m : gmap string (list Byte.byte).

Definition decoded m : gmap string T :=
  omap (fun data => match Unmarshal codec data with Ok v => Some v | Err _ => None end) m.

Lemma decoded_insert `{!LawfulCodec codec} k v data m :
  Marshal codec v = Ok data -> decoded (<[k := data]> m) = <[k := v]> (decoded m).
Proof.
  intros H. apply map_eq. intros k'. unfold decoded. rewrite lookup_omap.
  destruct (decide (k = k')) as [<-|]; [|by rewrite !lookup_insert_ne, lookup_omap].
  rewrite !lookup_insert_eq. simpl. by rewrite (codec_roundtrip _ _ H).
Qed.

Lemma decoded_delete k m : decoded (delete k m) = delete k (decoded m).
Proof. apply omap_delete. Qed.

Lemma decoded_deletes (ks : list string) m :
  decoded (fold_left (fun d k => delete k d) ks m) = fold_left (fun d k => delete k d) ks (decoded m).
Proof. revert m. induction ks as [|k ks IH]; intros m; simpl; [done|]. by rewrite IH, decoded_delete. Qed.

End Decoded.

(** ** ByteCodec *)

Definition ErrNotBytes : error := ErrNew "ByteCodec: value is not []byte".
Definition ErrNotPtrBytes : error := ErrNew "ByteCodec: v is not *[]byte".

(** [v.([]byte)] *)
Definition ByteCodec_Marshal (v : goval) : res (list Byte.byte) :=
  match v with GoBytes b => Ok b | _ => Err ErrNotBytes end.

(** The destinations [v.( *[]byte)] distinguishes. *)
Inductive dest := PtrBytes | PtrOther.

Definition ByteCodec_Unmarshal (data : list Byte.byte) (v : dest) : res goval :=
  match v with PtrBytes => Ok (GoBytes data) | PtrOther => Err ErrNotPtrBytes end.

(** The codec at the type of the destination. *)
Definition ByteCodec (v : dest) : Codec goval :=
  mkCodec ByteCodec_Marshal (fun data => ByteCodec_Unmarshal data v).

(** At [[]byte], the codec encodes exactly the byte slices, as they are. *)
#[export] Instance ByteCodec_Lawful : LawfulCodec (ByteCodec PtrBytes).
Proof. intros [] data; simpl; naive_solver. Qed.

Lemma ByteCodec_total data : exists v,
  Unmarshal (ByteCodec PtrBytes) data = Ok v /\ Marshal (ByteCodec PtrBytes) v = Ok data.
Proof. exists (GoBytes data). done. Qed.

(** At any other type nothing is stored and nothing is read. *)
Lemma ByteCodec_other v data :
  (forall b, v <> GoBytes b) ->
  Marshal (ByteCodec PtrOther) v = Err ErrNotBytes /\ Unmarshal (ByteCodec PtrOther) data = Err ErrNotPtrBytes.
Proof. intros H. split; [|done]. destruct v; naive_solver. Qed.
