(* ===== verification/Ristretto.v ===== *)
(** * Ristretto: the LFU cache and the cache factory

    Models [src/cache/ristretto.go], [src/cache/lfu.go] and
    [src/cache/factory.go]. The ristretto library is a parameter ([Ristretto]
    with its documented behaviour, [LawfulRistretto]): it may refuse a new entry
    and evict any, but it does not serve a value that was overwritten or
    deleted once [Wait] has returned.

    Such a cache keeps a weaker contract than [LawfulCache]: [FreshCache] says
    that a read answers the last value written, or misses; after a write that
    failed, or one with a negative TTL, it may answer what the key had before. The
    in-memory cache, ristretto, the adaptive cache over both and hence every cache
    of the factory keep it. *)

From S2P Require Import Prelude CacheIface InMemoryCache.

(** ** The library *)

Record ristrettoConfig := mkRConfig { NumCounters : Z; MaxCost : Z; BufferItems : Z }.

(** The boolean of [SetWithTTL], which nobody reads, is left out. *)
Class Ristretto (Q V : Type) := {
  ri_NewCache : ristrettoConfig -> res Q;
  ri_Get : time -> string -> Q -> Q * option V;
  ri_SetWithTTL : time -> string -> V -> Z -> duration -> Q -> Q;
  ri_Del : string -> Q -> Q;
  ri_Wait : Q -> Q;
  ri_Close : Q -> Q;
}.

Class LawfulRistretto (Q V : Type) `{Ristretto Q V} := {
  ri_view : Q -> time -> string -> option V;
  ri_New_law : forall cfg q t k, ri_NewCache cfg = Ok q -> ri_view q t k = None;
  ri_Get_law : forall now k q q' o, ri_Get now k q = (q', o) ->
    o = ri_view q now k /\ forall t k', now <= t -> ri_view q' t k' = ri_view q t k';
  ri_Set_law : forall now k v cost ttl q t w, 0 <= ttl -> now <= t ->
    ri_view (ri_Wait (ri_SetWithTTL now k v cost ttl q)) t k = Some w -> w = v /\ served (expiry now ttl) t;
  ri_Set_other : forall now k v cost ttl q t k' w, k' <> k -> now <= t ->
    ri_view (ri_Wait (ri_SetWithTTL now k v cost ttl q)) t k' = Some w -> ri_view q t k' = Some w;
  ri_Set_negative : forall now k v cost ttl q t k', ttl < 0 -> now <= t ->
    ri_view (ri_Wait (ri_SetWithTTL now k v cost ttl q)) t k' = ri_view q t k';
  ri_Del_law : forall k q t, ri_view (ri_Wait (ri_Del k q)) t k = None;
  ri_Del_other : forall k q t k', k' <> k -> ri_view (ri_Wait (ri_Del k q)) t k' = ri_view q t k';
}.

(** ** RistrettoCache *)

Record RistrettoCache (Q : Type) := mkRistretto { ri_c : Q }.
Arguments mkRistretto {Q} _.
Arguments ri_c {Q} _.

(** [cfg = None] is a nil configuration. *)
Definition WithRistretto (cfg : option ristrettoConfig) (c : ristrettoConfig) : ristrettoConfig :=
  match cfg with None => c | Some cfg => cfg end.

Section RistrettoCache.
Context {Q V : Type} `{!Ristretto Q V, !Dynamic V}.
Implicit Types r : RistrettoCache Q.

(** An error of the library is a panic. *)
Definition NewRistretto (opts : list (ristrettoConfig -> ristrettoConfig)) : option (RistrettoCache Q) :=
  match ri_NewCache (foldl (fun c opt => opt c) (mkRConfig 10000 (2 ^ 20) 64) opts) with
  | Err _ => None
  | Ok q => Some (mkRistretto q)
  end.

Definition RistrettoCache_Get (cx : ctx) (now : time) (key : string) r : RistrettoCache Q * res (option V) :=
  match cx 0%nat with
  | Some e => (r, Err e)
  | None =>
      let '(q, o) := ri_Get now key (ri_c r) in
      match o with
      | None => (mkRistretto q, Ok None)
      | Some v =>
          match cx 1%nat with
          | Some e => (mkRistretto q, Err e)
          | None => (mkRistretto q, Ok (Some v))
          end
      end
  end.

Definition RistrettoCache_Set (cx : ctx) (now : time) (key : string) (value : V) (ttl : duration) r
    : RistrettoCache Q * option error :=
  match cx 0%nat with
  | Some e => (r, Some e)
  | None =>
      let cost := EstimateSize (dynamic value) in
      (mkRistretto (ri_Wait (ri_SetWithTTL now key value cost ttl (ri_c r))), None)
  end.

Definition RistrettoCache_Invalidate (cx : ctx) (key : string) r : RistrettoCache Q * option error :=
  match cx 0%nat with
  | Some e => (r, Some e)
  | None => (mkRistretto (ri_Wait (ri_Del key (ri_c r))), None)
  end.

Definition RistrettoCache_Close r : RistrettoCache Q := mkRistretto (ri_Close (ri_c r)).

#[export] Instance RistrettoCache_Cache : Cache (RistrettoCache Q) V := {
  cache_Get := RistrettoCache_Get;
  cache_Set := RistrettoCache_Set;
  cache_Invalidate := RistrettoCache_Invalidate;
  cache_GetAt := None;
}.

(** [LFUCache] embeds a [RistrettoCache]. *)
Definition LFUCache : Type := RistrettoCache Q.
Definition NewLFU (opts : list (ristrettoConfig -> ristrettoConfig)) : option LFUCache := NewRistretto opts.

(** ** The factory *)

(** [Strategy] is an [int]. *)
Definition Strategy : Type := Z.
Definition LRUStrategy : Strategy := 0.
Definition LFUStrategy : Strategy := 1.
Definition AdaptiveStrategy : Strategy := 2.

Record factoryConfig := mkFactory { fc_strategy : Strategy }.
Definition WithStrategy (s : Strategy) (cfg : factoryConfig) : factoryConfig := mkFactory s.

(** The dynamic type of the cache [New] returns. *)
Inductive anyCache :=
| CLRU (c : InMemoryCache V)
| CLFU (c : LFUCache)
| CAdaptive (c : AdaptiveCache (InMemoryCache V) LFUCache).

Definition cache_New (opts : list (factoryConfig -> factoryConfig)) : option anyCache :=
  let cfg := foldl (fun c opt => opt c) (mkFactory LRUStrategy) opts in
  if fc_strategy cfg =? LFUStrategy then CLFU <$> NewLFU []
  else if fc_strategy cfg =? AdaptiveStrategy then
    (fun f => CAdaptive (NewAdaptive (NewInMemory []) f)) <$> NewLFU []
  else Some (CLRU (NewInMemory [])).

(** The calls through the interface. *)
#[export] Instance anyCache_Cache : Cache anyCache V := {
  cache_Get := fun cx now k c =>
    match c with
    | CLRU c => let '(c, r) := cache_Get cx now k c in (CLRU c, r)
    | CLFU c => let '(c, r) := cache_Get cx now k c in (CLFU c, r)
    | CAdaptive c => let '(c, r) := cache_Get cx now k c in (CAdaptive c, r)
    end;
  cache_Set := fun cx now k v ttl c =>
    match c with
    | CLRU c => let '(c, r) := cache_Set cx now k v ttl c in (CLRU c, r)
    | CLFU c => let '(c, r) := cache_Set cx now k v ttl c in (CLFU c, r)
    | CAdaptive c => let '(c, r) := cache_Set cx now k v ttl c in (CAdaptive c, r)
    end;
  cache_Invalidate := fun cx k c =>
    match c with
    | CLRU c => let '(c, r) := cache_Invalidate (V := V) cx k c in (CLRU c, r)
    | CLFU c => let '(c, r) := cache_Invalidate (V := V) cx k c in (CLFU c, r)
    | CAdaptive c => let '(c, r) := cache_Invalidate (V := V) cx k c in (CAdaptive c, r)
    end;
  cache_GetAt := None;
}.

End RistrettoCache.
Arguments anyCache Q V : clear implicits.

(** ** Freshness *)

(** The ideal cache: what may be served for every key, with the instant until
    which it may. It evicts nothing. *)
Abbreviation ideal V := (gmap string (list (V * option time))).

(** A write that is sure to have taken effect leaves one value to serve; one
    that may not have adds a value; an invalidation that succeeded leaves none. *)
Definition sure_write {V} (k : string) (v : V) (exp : option time) (m : ideal V) : ideal V := <[k := [(v, exp)]]> m.
Definition unsure_write {V} (k : string) (v : V) (exp : option time) (m : ideal V) : ideal V :=
  <[k := (v, exp) :: default [] (m !! k)]> m.

(** The ideal cache allows serving the value of the key at the instant. *)
Definition allowed {V} (m : ideal V) (t : time) (k : string) (v : V) : Prop :=
  exists l exp, m !! k = Some l /\ (v, exp) ∈ l /\ served exp t.

(** [fresh now m c]: from [now] on, [c] serves nothing but what the ideal cache
    [m] allows. A write with a negative TTL may have no effect. *)
Class FreshCache (C V : Type) `{Cache C V} := {
  fresh : time -> ideal V -> C -> Prop;
  fresh_mono : forall now now' m c, fresh now m c -> now <= now' -> fresh now' m c;
  fresh_Get : forall cx now now' k m c c' r, fresh now m c -> 0 < now' -> now <= now' ->
    cache_Get cx now' k c = (c', r) ->
    fresh now' m c' /\ (forall v, r = Ok (Some v) -> allowed m now' k v);
  fresh_Set : forall cx now now' k v ttl m c c' r, fresh now m c -> 0 < now' -> now <= now' ->
    is_i64 ttl -> cache_Set cx now' k v ttl c = (c', r) ->
    fresh now' (unsure_write k v (expiry now' ttl) m) c' /\
    (0 <= ttl -> r = None -> fresh now' (sure_write k v (expiry now' ttl) m) c');
  fresh_Invalidate : forall cx now k m c c' r, fresh now m c -> cache_Invalidate (V := V) cx k c = (c', r) ->
    fresh now m c' /\ (r = None -> fresh now (delete k m) c');
}.

(** What a view shows is allowed. *)
Definition view_fresh {V} (now : time) (m : ideal V) (view : time -> string -> option V) : Prop :=
  forall t k v, now <= t -> view t k = Some v -> allowed m t k v.

Section ViewFresh.
Context {V : Type}.
Implicit Types (m : ideal V) (view : time -> string -> option V).

Lemma view_fresh_le now now' m view view' :
  view_fresh now m view -> now <= now' -> (forall t k v, now' <= t -> view' t k = Some v -> view t k = Some v) ->
  view_fresh now' m view'.
Proof. intros H Hle Hv t k v Ht E. apply H; [lia|]. by apply Hv. Qed.

Lemma view_fresh_sure now now' m view view' k v exp :
  view_fresh now m view -> now <= now' ->
  (forall t w, now' <= t -> view' t k = Some w -> w = v /\ served exp t) ->
  (forall t k' w, k' <> k -> now' <= t -> view' t k' = Some w -> view t k' = Some w) ->
  view_fresh now' (sure_write k v exp m) view'.
Proof.
  intros H Hle Hk Ho t k' w Ht E. unfold allowed, sure_write. destruct (decide (k' = k)) as [->|Hne].
  - destruct (Hk t w Ht E) as [-> ?]. exists [(v, exp)], exp. rewrite lookup_insert_eq.
    split; [done|]. split; [by left|done].
  - rewrite lookup_insert_ne by done. apply H; [lia|]. by apply Ho.
Qed.

Lemma view_fresh_unsure now now' m view view' k v exp :
  view_fresh now m view -> now <= now' ->
  (forall t k' w, now' <= t -> view' t k' = Some w ->
     view t k' = Some w \/ k' = k /\ w = v /\ served exp t) ->
  view_fresh now' (unsure_write k v exp m) view'.
Proof.
  intros H Hle Hv t k' w Ht E. unfold allowed, unsure_write. destruct (Hv t k' w Ht E) as [Ew|(->&->&Hs)].
  - destruct (H t k' w ltac:(lia) Ew) as (l&exp'&Hl&Hin&Hs). destruct (decide (k' = k)) as [->|Hne].
    + exists ((v, exp) :: l), exp'. rewrite lookup_insert_eq, Hl. split; [done|]. split; [by right|done].
    + exists l, exp'. by rewrite lookup_insert_ne.
  - exists ((v, exp) :: default [] (m !! k)), exp. rewrite lookup_insert_eq. split; [done|]. split; [by left|done].
Qed.

Lemma view_fresh_delete now m view view' k :
  view_fresh now m view -> (forall t, view' t k = None) ->
  (forall t k', k' <> k -> view' t k' = view t k') -> view_fresh now (delete k m) view'.
Proof.
  intros H Hk Ho t k' w Ht E. destruct (decide (k' = k)) as [->|Hne]; [by rewrite Hk in E|].
  unfold allowed. rewrite lookup_delete_ne by done. apply H; [done|]. by rewrite <- Ho.
Qed.

End ViewFresh.

Section Fresh.
Context {V : Type}.

(** The in-memory cache is fresh. *)
#[export] Instance InMemoryCache_Fresh `{!Dynamic V} : FreshCache (InMemoryCache V) V.
Proof.
  refine {| fresh := fun now m c => cache_ok c /\ view_fresh now m (cache_view c) |}.
  - intros now now' m c [Hok Hf] Hle. split; [done|]. by eapply view_fresh_le.
  - intros cx now now' k m c c' r [Hok Hf] Hn Hle E.
    destruct (cache_Get_law _ _ _ _ _ _ Hok Hn E) as (Hok' & Hv & Hr & _). split; [split; [done|]|].
    + eapply view_fresh_le; [done|done|]. intros t k' v Ht. by rewrite Hv.
    + intros v ->. specialize (Hr _ eq_refl). by apply Hf.
  - intros cx now now' k v ttl m c c' r [Hok Hf] Hn Hle Hi E.
    destruct (cache_Set_law _ _ _ _ _ _ _ _ Hok Hn Hi E) as (Hok' & Hv & Ho & He & _). split.
    + split; [done|]. eapply view_fresh_unsure; [done|done|]. intros t k' w Hle' Ew.
      destruct r as [er|]; [left; by rewrite <- (He ltac:(done) t k' Hle')|].
      destruct (decide (k' = k)) as [->|Hne]; [|left; destruct (Ho t k' Hne Hle'); congruence].
      right. rewrite (Hv eq_refl t Hle') in Ew. destruct (decide _); by simplify_eq.
    + intros _ ->. split; [done|]. eapply view_fresh_sure; [done|done| |].
      * intros t w Hle'. rewrite (Hv eq_refl t Hle'). destruct (decide _); by intros [= ->].
      * intros t k' w Hne Hle' Ew. destruct (Ho t k' Hne Hle'); congruence.
  - intros cx now k m c c' r [Hok Hf] E.
    destruct (cache_Invalidate_law _ _ _ _ _ Hok E) as (Hok' & Hv & Ho & _). split.
    + split; [done|]. destruct r as [er|].
      * assert (c' = c) as ->; [|done]. simpl in E. unfold InMemoryCache_Invalidate in E. by repeat case_match; simplify_eq.
      * eapply view_fresh_le; [done|lia|]. intros t k' v _ Ev.
        destruct (decide (k' = k)) as [->|Hne]; [by rewrite Hv in Ev|by rewrite <- Ho].
    + intros ->. split; [done|]. eapply view_fresh_delete; [done|by apply Hv|]. intros t k' Hne. by apply Ho.
Defined.

Section Rist.
Context {Q : Type} `{!Ristretto Q V, !LawfulRistretto Q V, !Dynamic V}.

#[export] Instance RistrettoCache_Fresh : FreshCache (RistrettoCache Q) V.
Proof.
  refine {| fresh := fun now m c => view_fresh now m (ri_view (ri_c c)) |}; simpl.
  - intros now now' m c Hf Hle. by eapply view_fresh_le.
  - intros cx now now' k m c c' r Hf Hn Hle. unfold RistrettoCache_Get.
    destruct (cx 0%nat); [intros [= <- <-]; split; [by eapply view_fresh_le|done]|].
    destruct (ri_Get now' k (ri_c c)) as [q o] eqn:E. destruct (ri_Get_law _ _ _ _ _ E) as [Ho Hv].
    assert (view_fresh now' m (ri_view q)) as Hf' by (eapply view_fresh_le; [done|done|]; intros; by rewrite <- Hv).
    destruct o as [v|]; [destruct (cx 1%nat)|]; intros [= <- <-]; (split; [done|]); [done| |done].
    intros w [= <-]. by apply Hf.
  - intros cx now now' k v ttl m c c' r Hf Hn Hle _. unfold RistrettoCache_Set.
    destruct (cx 0%nat) as [e|]; intros [= <- <-]; simpl.
    { split; [|done]. eapply view_fresh_unsure; [done|done|]. by left. }
    destruct (Z.ltb_spec ttl 0) as [Hneg|Hpos].
    { split; [|lia]. eapply view_fresh_unsure; [done|done|]. intros t k' w Ht. rewrite ri_Set_negative by done. by left. }
    split; [|intros _ _]; [eapply view_fresh_unsure|eapply view_fresh_sure]; [done|done| |done|done| |].
    + intros t k' w Ht E. destruct (decide (k' = k)) as [->|Hne]; [right|left].
      * destruct (ri_Set_law _ _ _ _ _ _ _ _ Hpos Ht E). done.
      * by eapply ri_Set_other.
    + intros t w Hle' E. by eapply ri_Set_law.
    + intros t k' w Hne Hle' E. by eapply ri_Set_other.
  - intros cx now k m c c' r Hf. unfold RistrettoCache_Invalidate.
    destruct (cx 0%nat) as [e|]; intros [= <- <-]; simpl; [done|].
    assert (view_fresh now (delete k m) (ri_view (ri_Wait (ri_Del k (ri_c c))))) as Hd
      by (eapply view_fresh_delete; [done|intros; apply ri_Del_law|]; intros; by apply ri_Del_other).
    split; [|done]. eapply view_fresh_le; [done|lia|]. intros t k' v _ Ev.
    destruct (decide (k' = k)) as [->|Hne]; [by rewrite ri_Del_law in Ev|by rewrite <- (ri_Del_other k)].
Defined.

(** Writing with a negative TTL succeeds and has no effect: the old value stays.
    The in-memory cache stores the new one without expiry. *)
Lemma RistrettoCache_Set_negative now k v ttl (c : RistrettoCache Q) :
  ttl < 0 -> snd (RistrettoCache_Set Background now k v ttl c) = None /\
  forall t k', now <= t -> ri_view (ri_c (fst (RistrettoCache_Set Background now k v ttl c))) t k' = ri_view (ri_c c) t k'.
Proof. intros H. split; [done|]. intros t k' Ht. by apply ri_Set_negative. Qed.

End Rist.

(** The accounting after a read. *)
Definition count_read {L F : Type} (a : AdaptiveCache L F) (o : option V) : AdaptiveCache L F :=
  AdaptiveCache_adjust
    match o with
    | Some _ => mkAdaptive (lru a) (lfu a) (useLFU a) (u64 (ac_hits a + 1)) (ac_misses a) (switchEvery a)
    | None => mkAdaptive (lru a) (lfu a) (useLFU a) (ac_hits a) (u64 (ac_misses a + 1)) (switchEvery a)
    end.

(** The adaptive cache is fresh if both its caches are: whichever it selects,
    both were written and invalidated. *)
#[export] Instance AdaptiveCache_Fresh {L F} `{HL : FreshCache L V, HF : FreshCache F V} :
  FreshCache (AdaptiveCache L F) V.
Proof.
  refine {| fresh := fun now m a => fresh now m (lru a) /\ fresh now m (lfu a) |}; simpl.
  - intros now now' m a [Hl Hf] Hle. split; by eapply fresh_mono.
  - intros cx now now' k m a a' r [Hl Hf] Hn Hle. unfold AdaptiveCache_Get, AdaptiveCache_selectGet.
    assert (forall (a : AdaptiveCache L F) o, fresh now' m (lru a) /\ fresh now' m (lfu a) ->
      fresh now' m (lru (count_read a o)) /\ fresh now' m (lfu (count_read a o))) as Hc.
    { intros a0 o Ha. unfold count_read, AdaptiveCache_adjust. destruct o; simpl; by case_match. }
    destruct (useLFU a).
    + destruct (cache_Get cx now' k (lfu a)) as [f o] eqn:E.
      destruct (fresh_Get _ _ _ _ _ _ _ _ Hf Hn Hle E) as [Hf' Hr]. apply fresh_mono with (now' := now') in Hl; [|done].
      destruct o as [o|]; intros [= <- <-]; [|done]. split; [by apply (Hc (mkAdaptive (lru a) f _ _ _ _))|]. naive_solver.
    + destruct (cache_Get cx now' k (lru a)) as [l o] eqn:E.
      destruct (fresh_Get _ _ _ _ _ _ _ _ Hl Hn Hle E) as [Hl' Hr]. apply fresh_mono with (now' := now') in Hf; [|done].
      destruct o as [o|]; intros [= <- <-]; [|done]. split; [by apply (Hc (mkAdaptive l (lfu a) _ _ _ _))|]. naive_solver.
  - intros cx now now' k v ttl m a a' r [Hl Hf] Hn Hle Hi. unfold AdaptiveCache_Set.
    destruct (cache_Set cx now' k v ttl (lru a)) as [l e1] eqn:E1, (cache_Set cx now' k v ttl (lfu a)) as [f e2] eqn:E2.
    destruct (fresh_Set _ _ _ _ _ _ _ _ _ _ Hl Hn Hle Hi E1) as [Hl1 Hl2].
    destruct (fresh_Set _ _ _ _ _ _ _ _ _ _ Hf Hn Hle Hi E2) as [Hf1 Hf2].
    destruct e1 as [e1|]; intros [= <- <-]; simpl; (split; [done|]); [done|]. intros Ht ->. split; [by apply Hl2|by apply Hf2].
  - intros cx now k m a a' r [Hl Hf]. unfold AdaptiveCache_Invalidate.
    destruct (cache_Invalidate cx k (lru a)) as [l e1] eqn:E1, (cache_Invalidate cx k (lfu a)) as [f e2] eqn:E2.
    destruct (fresh_Invalidate _ _ _ _ _ _ _ Hl E1) as [Hl1 Hl2].
    destruct (fresh_Invalidate _ _ _ _ _ _ _ Hf E2) as [Hf1 Hf2].
    destruct e1 as [e1|]; intros [= <- <-]; simpl; (split; [done|]); [done|]. intros ->. split; [by apply Hl2|by apply Hf2].
Defined.

End Fresh.

(** ** Every cache of the factory is fresh *)

Section Factory.
Context {Q V : Type} `{!Ristretto Q V, !LawfulRistretto Q V, !Dynamic V}.

#[export] Instance anyCache_Fresh : FreshCache (anyCache Q V) V.
Proof.
  refine {| fresh := fun now m c =>
    match c with CLRU c => fresh now m c | CLFU c => fresh now m c | CAdaptive c => fresh now m c end |}.
  - intros now now' m [c|c|c] Hf Hle; by eapply fresh_mono.
  - intros cx now now' k m [c|c|c] c' r Hf Hn Hle; cbn [cache_Get anyCache_Cache];
      destruct (cache_Get cx now' k c) as [c1 o] eqn:E; intros [= <- <-]; by eapply fresh_Get.
  - intros cx now now' k v ttl m [c|c|c] c' r Hf Hn Hle Hi; cbn [cache_Set anyCache_Cache];
      destruct (cache_Set cx now' k v ttl c) as [c1 o] eqn:E; intros [= <- <-]; by eapply fresh_Set.
  - intros cx now k m [c|c|c] c' r Hf; cbn [cache_Invalidate anyCache_Cache];
      destruct (cache_Invalidate cx k c) as [c1 o] eqn:E; intros [= <- <-]; by eapply fresh_Invalidate.
Defined.

Lemma cache_New_fresh opts (c : anyCache Q V) : cache_New opts = Some c -> fresh 0 ∅ c.
Proof.
  assert (forall c : RistrettoCache Q, NewLFU [] = Some c -> fresh (V := V) 0 ∅ c) as Hq.
  { intros q. unfold NewLFU, NewRistretto. destruct (ri_NewCache _) as [q'|] eqn:E; [|done]. intros [= <-].
    intros t k v _ Hv. simpl in Hv. by rewrite (ri_New_law _ _ _ _ E) in Hv. }
  assert (fresh 0 ∅ (NewInMemory (V := V) [])) as Hm.
  { split; [|by intros t k v _ Hv]. split; [|done]. apply NewInMemory_inv. intros o c1 Ho. by apply not_elem_of_nil in Ho. }
  unfold cache_New. destruct (fc_strategy _ =? _); [|destruct (fc_strategy _ =? _)].
  - destruct (NewLFU []) as [q|] eqn:E; [|done]. intros [= <-]. by apply Hq.
  - destruct (NewLFU []) as [q|] eqn:E; [|done]. intros [= <-]. split; [done|]. by apply Hq.
  - by intros [= <-].
Qed.

End Factory.

(** The uses of a cache, beside the ideal cache, at instants that do not go back:
    any reads, writes and invalidations, whatever they answer. *)
Section Runs.
Context {C V : Type} `{!Cache C V}.

Definition cache_state : Type := time * ideal V * C.

Inductive cache_use : cache_state -> cache_state -> Prop :=
| use_Get cx now now' k m c c' r :
    0 < now' -> now <= now' -> cache_Get cx now' k c = (c', r) -> cache_use (now, m, c) (now', m, c')
| use_Set cx now now' k v ttl m c c' r :
    0 < now' -> now <= now' -> is_i64 ttl -> cache_Set cx now' k v ttl c = (c', r) ->
    cache_use (now, m, c)
      (now', (if bool_decide (0 <= ttl /\ r = None) then sure_write else unsure_write) k v (expiry now' ttl) m, c')
| use_Invalidate cx now k m c c' r :
    cache_Invalidate (V := V) cx k c = (c', r) ->
    cache_use (now, m, c) (now, match r with None => delete k m | Some _ => m end, c').

Lemma cache_use_fresh `{!FreshCache C V} st st' :
  rtc cache_use st st' -> fresh (fst (fst st)) (snd (fst st)) (snd st) -> fresh (fst (fst st')) (snd (fst st')) (snd st').
Proof.
  induction 1 as [|st1 st2 st3 Hs _ IH]; [done|]. intros Hf. apply IH. clear IH.
  destruct Hs as [cx now now' k m c c' r|cx now now' k v ttl m c c' r Hn Hle Hi E|cx now k m c c' r E]; simpl in *.
  - by eapply fresh_Get.
  - destruct (fresh_Set _ _ _ _ _ _ _ _ _ _ Hf Hn Hle Hi E) as [H1 H2].
    case_bool_decide as Hb; [|done]. destruct Hb. by apply H2.
  - destruct (fresh_Invalidate _ _ _ _ _ _ _ Hf E) as [H1 H2]. destruct r; [done|by apply H2].
Qed.

End Runs.
Arguments cache_state C V : clear implicits.

(** C23. No cache of the factory serves an old value. Whatever the strategy,
    over any ristretto that behaves as documented, after any sequence of reads,
    writes and invalidations, failed ones and negative TTLs included, a value that
    [Get] returns was written to the key, no write of the key that was sure to
    take effect and no successful invalidation came after, and its TTL has not run
    out. A write is sure to take effect when it succeeds and its TTL is not
    negative; so after such a write the value returned is the one it wrote, until
    the next write of the key. (A write that failed may have taken effect in one of
    the two caches of the adaptive one; a write with a negative TTL succeeds and is
    dropped by ristretto, [RistrettoCache_Set_negative].) *)
Theorem cache_New_never_stale {Q V} `{!Ristretto Q V, !LawfulRistretto Q V, !Dynamic V} opts (c0 c c' : anyCache Q V)
    now now' m cx k v :
  cache_New opts = Some c0 -> rtc cache_use (0, ∅, c0) (now, m, c) ->
  0 < now' -> now <= now' -> cache_Get cx now' k c = (c', Ok (Some v)) ->
  exists l exp, m !! k = Some l /\ (v, exp) ∈ l /\ served exp now'.
Proof.
  intros H0 Hr Hn Hle E. apply cache_New_fresh in H0.
  assert (fresh now m c) as Hf by exact (cache_use_fresh _ _ Hr H0).
  destruct (fresh_Get _ _ _ _ _ _ _ _ Hf Hn Hle E) as [_ Hv]. by apply Hv.
Qed.

(** ** Witness: a ristretto that refuses the key "no" *)

Definition rist_map : Type := gmap string (goval * option time).

Definition rist_view (q : rist_map) (t : time) (k : string) : option goval :=
  match (q : gmap string (goval * option time)) !! k with
  | Some (v, exp) => if decide (served exp t) then Some v else None
  | None => None
  end.

#[export] Instance rist_map_Ristretto : Ristretto rist_map goval := {
  ri_NewCache := fun _ => Ok (∅ : gmap string (goval * option time));
  ri_Get := fun now k q => (q, rist_view q now k);
  ri_SetWithTTL := fun now k v _ ttl q =>
    if ttl <? 0 then q
    else if decide (k = "no") then delete k (q : gmap string (goval * option time))
    else <[k := (v, expiry now ttl)]> (q : gmap string (goval * option time));
  ri_Del := fun k q => delete k (q : gmap string (goval * option time));
  ri_Wait := fun q => q;
  ri_Close := fun q => q;
}.

#[export] Instance rist_map_lawful : LawfulRistretto rist_map goval.
Proof.
  refine {| ri_view := rist_view |}; simpl.
  - intros cfg q t k [= <-]. done.
  - intros now k q q' o [= <- <-]. done.
  - intros now k v cost ttl q t w Ht Hle. destruct (Z.ltb_spec ttl 0); [lia|]. unfold rist_view.
    destruct (decide (k = "no")) as [->|]; [by rewrite lookup_delete_eq|]. rewrite lookup_insert_eq.
    destruct (decide _); by intros [= ->].
  - intros now k v cost ttl q t k' w Hne Hle. unfold rist_view. destruct (ttl <? 0); [done|].
    destruct (decide (k = "no")); [rewrite lookup_delete_ne by done; done|]. by rewrite lookup_insert_ne.
  - intros now k v cost ttl q t k' Ht Hle. by destruct (Z.ltb_spec ttl 0); [|lia].
  - intros k q t. unfold rist_view. by rewrite lookup_delete_eq.
  - intros k q t k' Hne. unfold rist_view. by rewrite lookup_delete_ne.
Defined.

#[local] Instance goval_Dynamic : Dynamic goval := fun v => v.

Definition demo_adaptive : anyCache rist_map goval :=
  CAdaptive (NewAdaptive (NewInMemory []) (mkRistretto (∅ : gmap string (goval * option time)))).

Definition demo_written1 : anyCache rist_map goval := fst (cache_Set Background 4 "a" GoWord16 10 demo_adaptive).
Definition demo_written : anyCache rist_map goval := fst (cache_Set Background 5 "a" GoWord8 10 demo_written1).

Lemma cache_New_never_stale_witness :
  exists l exp, (sure_write "a" GoWord8 (expiry 5 10) (sure_write "a" GoWord16 (expiry 4 10) ∅)) !! "a" = Some l /\
    (GoWord8, exp) ∈ l /\ served exp 7.
Proof.
  apply (cache_New_never_stale (Q := rist_map) [WithStrategy AdaptiveStrategy] demo_adaptive
    demo_written (fst (cache_Get Background 7 "a" demo_written))
    5 7 _ Background "a" GoWord8); [reflexivity| |lia|lia|vm_compute; reflexivity].
  eapply rtc_l; [|eapply rtc_l; [|apply rtc_refl]].
  - apply (use_Set Background 0 4 "a" GoWord16 10 ∅ demo_adaptive demo_written1 None); [lia|lia|decide_closed|vm_compute; reflexivity].
  - apply (use_Set Background 4 5 "a" GoWord8 10 (sure_write "a" GoWord16 (expiry 4 10) ∅) demo_written1 demo_written None); [lia|lia|decide_closed|vm_compute; reflexivity].
Defined.
