(* ===== verification/VersionedCache.v ===== *)
(** * VersionedCache: a cache of histories

    Models [src/cache/versioned/versioned.go]: a cache of [merge.Value] that
    keeps a bounded history per key in a base cache of [VersionedValue] and a
    global LRU list over the keys it has written. The map [entries] from keys
    to list nodes is the set of keys that have a node. *)

From S2P Require Import Prelude Merge CacheIface InMemoryCache.

Record VCache (C : Type) := mkVCache {
  base : C;
  vlimit : Z;
  vorder : list string;
  entries : gset string;
  vmaxEntries : Z;
  vhits : Z;
  vmisses : Z;
  vevictions : Z;
}.
Arguments mkVCache {C} _ _ _ _ _ _ _ _.
Arguments base {C} _.
Arguments vlimit {C} _.
Arguments vorder {C} _.
Arguments entries {C} _.
Arguments vmaxEntries {C} _.
Arguments vhits {C} _.
Arguments vmisses {C} _.
Arguments vevictions {C} _.

Section Versioned.
Context {C T : Type} `{!Cache C (VersionedValue T)}.
Implicit Types c : VCache C.

Definition VCache_New (b : C) (lim : Z) (max : Z) : VCache C := mkVCache b lim [] ∅ max 0 0 0.

Definition set_base c (b : C) : VCache C :=
  mkVCache b (vlimit c) (vorder c) (entries c) (vmaxEntries c) (vhits c) (vmisses c) (vevictions c).
Definition set_lru c (ord : list string) (ents : gset string) : VCache C :=
  mkVCache (base c) (vlimit c) ord ents (vmaxEntries c) (vhits c) (vmisses c) (vevictions c).
Definition vcount_hit c : VCache C :=
  mkVCache (base c) (vlimit c) (vorder c) (entries c) (vmaxEntries c)
    (u64 (vhits c + 1)) (vmisses c) (vevictions c).
Definition vcount_miss c : VCache C :=
  mkVCache (base c) (vlimit c) (vorder c) (entries c) (vmaxEntries c)
    (vhits c) (u64 (vmisses c + 1)) (vevictions c).
Definition vcount_eviction c : VCache C :=
  mkVCache (base c) (vlimit c) (vorder c) (entries c) (vmaxEntries c)
    (vhits c) (vmisses c) (u64 (vevictions c + 1)).

(** [if e, ok := c.entries[key]; ok { c.order.MoveToFront(e) }] *)
Definition touch (key : string) c : VCache C :=
  if decide (key ∈ entries c) then set_lru c (list_MoveToFront key (vorder c)) (entries c) else c.

Definition VCache_Get (cx : ctx) (now : time) (key : string) c : VCache C * res (option (Value T)) :=
  let '(b, r) := cache_Get cx now key (base c) in
  let c := set_base c b in
  match r with
  | Err e => (c, Err e)
  | Ok None => (vcount_miss c, Ok None)
  | Ok (Some vv) =>
      let c := vcount_hit (touch key c) in
      match VersionedValue_Latest vv with
      | Some v => (c, Ok (Some v))
      | None => (vcount_miss c, Ok None)
      end
  end.

Definition VCache_GetAt (cx : ctx) (now : time) (key : string) (at_ : time) c
    : VCache C * res (option (Value T)) :=
  let '(b, r) := cache_Get cx now key (base c) in
  let c := set_base c b in
  match r with
  | Err e => (c, Err e)
  | Ok None => (vcount_miss c, Ok None)
  | Ok (Some vv) =>
      let c := touch key c in
      match VersionedValue_At at_ vv with
      | Some v => (vcount_hit c, Ok (Some v))
      | None => (vcount_miss c, Ok None)
      end
  end.

(** The locked part of [Set]: move the key's node to the front or push a new
    one and evict the last key when there are too many. *)
Definition track (now : time) (key : string) c : VCache C :=
  if decide (key ∈ entries c) then set_lru c (list_MoveToFront key (vorder c)) (entries c)
  else
    let c := set_lru c (list_PushFront key (vorder c)) ({[key]} ∪ entries c) in
    if (0 <? vmaxEntries c) && (vmaxEntries c <? Z.of_nat (length (vorder c))) then
      match list_Back (vorder c) with
      | None => c
      | Some k =>
          let c := set_lru c (list_RemoveBack (vorder c)) (entries c ∖ {[k]}) in
          let c := set_base c (fst (cache_Invalidate Background k (base c))) in
          vcount_eviction c
      end
    else c.

Definition VCache_Set (cx : ctx) (now : time) (key : string) (val : Value T) (ttl : duration) c
    : VCache C * option error :=
  let '(b, r) := cache_Get cx now key (base c) in
  let c := set_base c b in
  match r with
  | Err e => (c, Some e)
  | Ok o =>
      let vv := match o with
                | None => NewVersionedValue val (vlimit c)
                | Some vv => VersionedValue_Add val vv
                end in
      let '(b, err) := cache_Set cx now key vv ttl (base c) in
      let c := set_base c b in
      match err with
      | Some e => (c, Some e)
      | None => (track now key c, None)
      end
  end.

Definition VCache_Invalidate (cx : ctx) (key : string) c : VCache C * option error :=
  let c := if decide (key ∈ entries c)
           then set_lru c (list_Remove key (vorder c)) (entries c ∖ {[key]}) else c in
  let '(b, err) := cache_Invalidate cx key (base c) in
  (set_base c b, err).

(** Hits, misses and evictions. *)
Definition VCache_Metrics c : Z * Z * Z := (vhits c, vmisses c, vevictions c).

#[export] Instance VCache_Cache : Cache (VCache C) (Value T) := {
  cache_Get := VCache_Get;
  cache_Set := VCache_Set;
  cache_Invalidate := VCache_Invalidate;
  cache_GetAt := Some VCache_GetAt;
}.

End Versioned.

(** ** Properties over a lawful base cache *)

#[local] Arguments list_MoveToFront : simpl never.
#[local] Arguments list_PushFront : simpl never.
#[local] Arguments list_RemoveBack : simpl never.

Section VersionedLaws.
Context {C T : Type} `{HC : Cache C (VersionedValue T)} `{HL : !LawfulCache C (VersionedValue T)}.
Implicit Types c : VCache C.

Record vc_inv c : Prop := {
  vinv_base : cache_ok (base c);
  vinv_nodup : NoDup (vorder c);
  vinv_entries : forall k, k ∈ vorder c <-> k ∈ entries c;
  vinv_bound : 0 < vmaxEntries c -> Z.of_nat (length (vorder c)) <= vmaxEntries c;
}.

Lemma set_base_inv c b : vc_inv c -> cache_ok b -> vc_inv (set_base c b).
Proof. intros [????] ?. by constructor. Qed.

Lemma NoDup_MoveToFront k l : NoDup l -> NoDup (list_MoveToFront k l).
Proof.
  intros H. constructor; [|by apply NoDup_list_Remove]. rewrite elem_of_list_Remove. tauto.
Qed.

Lemma length_MoveToFront k l : NoDup l -> k ∈ l -> length (list_MoveToFront k l) = length l.
Proof.
  intros Hn Hk. apply Permutation_length. apply NoDup_Permutation; [by apply NoDup_MoveToFront|done|].
  intros x. unfold list_MoveToFront. rewrite elem_of_cons, elem_of_list_Remove.
  destruct (decide (x = k)); naive_solver.
Qed.

Lemma touch_inv key c : vc_inv c -> vc_inv (touch key c).
Proof.
  intros [Hb Hn He Hs]. unfold touch. case_decide as Hk; [|done]. split; simpl.
  - done.
  - by apply NoDup_MoveToFront.
  - intros k. unfold list_MoveToFront. rewrite elem_of_cons, elem_of_list_Remove, He.
    destruct (decide (k = key)); naive_solver.
  - pose proof (length_MoveToFront key (vorder c) Hn (proj2 (He key) Hk)) as Hl.
    unfold list_MoveToFront in *. simpl in *. by rewrite Hl.
Qed.

Lemma track_inv now key c : vc_inv c -> vc_inv (track now key c).
Proof.
  intros H. pose proof (touch_inv key c H) as Ht. unfold touch in Ht. unfold track.
  destruct (decide (key ∈ entries c)) as [Hk|Hk]; [done|]. destruct H as [Hb Hn He Hs].
  assert (NoDup (key :: vorder c)) as Hn' by (constructor; [by rewrite He|done]).
  simpl. destruct ((0 <? vmaxEntries c) && _) eqn:E; bool_to_prop.
  - destruct (list_Back (key :: vorder c)) as [k|] eqn:Eb.
    + pose proof (order_back _ _ Eb) as Ho.
      assert (list_RemoveBack (key :: vorder c) = list_Remove k (key :: vorder c)) as Er.
      { symmetry. rewrite Ho at 1. apply list_Remove_back. by rewrite <- Ho. }
      unfold list_PushFront in *. rewrite Eb.
      split; simpl.
      * destruct (cache_Invalidate Background k (base c)) as [b r] eqn:Ei.
        by apply (cache_Invalidate_law _ _ _ _ _ Hb Ei).
      * rewrite Er. by apply NoDup_list_Remove.
      * intros x. rewrite Er, elem_of_list_Remove, elem_of_cons, He. set_solver.
      * intros Hp. specialize (Hs Hp). apply (f_equal length) in Ho.
        rewrite length_app in Ho. simpl in *. lia.
    + unfold list_Back in Eb. by apply last_None in Eb.
  - split; simpl; [done|done| |].
    + intros k. unfold list_PushFront. rewrite elem_of_cons, He. set_solver.
    + intros Hp. apply andb_false_iff in E as [E|E]; bool_to_prop; simpl in *; lia.
Qed.

(** The versioned cache keeps its bookkeeping consistent and within its
    global limit: [Get], [GetAt], [Set] and [Invalidate] preserve that the
    recency list holds each tracked key once and at most [maxEntries] of
    them. *)
Theorem VCache_ops_inv (cx : ctx) (now : time) (key : string) (val : Value T)
    (ttl : duration) (at_ : time) c :
  vc_inv c -> 0 < now -> is_i64 ttl ->
  vc_inv (fst (VCache_Get cx now key c)) /\
  vc_inv (fst (VCache_GetAt cx now key at_ c)) /\
  vc_inv (fst (VCache_Set cx now key val ttl c)) /\
  vc_inv (fst (VCache_Invalidate cx key c)).
Proof.
  intros H Hnow Httl.
  assert (forall b r, cache_Get cx now key (base c) = (b, r) -> vc_inv (set_base c b)) as Hget.
  { intros b r E. apply set_base_inv; [done|].
    by apply (cache_Get_law _ _ _ _ _ _ (vinv_base _ H) Hnow E). }
  assert (forall c, vc_inv c -> vc_inv (vcount_hit c) /\ vc_inv (vcount_miss c)) as Hcnt.
  { intros c' [????]. by split; constructor. }
  unfold VCache_Get, VCache_GetAt, VCache_Set, VCache_Invalidate.
  destruct (cache_Get cx now key (base c)) as [b r] eqn:E. specialize (Hget b r eq_refl).
  split_and!.
  - destruct r as [[vv|]|e]; simpl; [|by apply Hcnt|done].
    destruct (VersionedValue_Latest vv); simpl; repeat apply Hcnt; by apply touch_inv.
  - destruct r as [[vv|]|e]; simpl; [|by apply Hcnt|done].
    destruct (VersionedValue_At at_ vv); simpl; apply Hcnt; by apply touch_inv.
  - destruct r as [o|e]; simpl; [|done]. set (vv := match o with Some _ => _ | None => _ end).
    destruct (cache_Set cx now key vv ttl b) as [b' err] eqn:Es.
    assert (vc_inv (set_base (set_base c b) b')) as Hs.
    { apply set_base_inv; [done|].
      by apply (cache_Set_law _ _ _ _ _ _ _ _ (vinv_base _ Hget) Hnow Httl Es). }
    destruct err; simpl; [done|]. by apply track_inv.
  - set (c1 := if decide (key ∈ entries c) then _ else c).
    assert (vc_inv c1) as H1.
    { subst c1. case_decide; [|done]. destruct H as [Hb Hn He Hm]. split; simpl; [done| | |].
      - by apply NoDup_list_Remove.
      - intros k. rewrite elem_of_list_Remove, He. set_solver.
      - intros Hp. specialize (Hm Hp). unfold list_Remove.
        pose proof (length_filter (fun x => x <> key) (vorder c)). lia. }
    destruct (cache_Invalidate cx key (base c1)) as [b' err] eqn:Ei. simpl.
    apply set_base_inv; [done|]. by apply (cache_Invalidate_law _ _ _ _ _ (vinv_base _ H1) Ei).
Qed.

Lemma track_base now key c t :
  vc_inv c -> cache_view (base (track now key c)) t key = cache_view (base c) t key.
Proof.
  intros [Hb Hn He Hs]. unfold track. destruct (decide (key ∈ entries c)) as [Hk|Hk]; [done|].
  simpl. destruct ((0 <? vmaxEntries c) && _) eqn:E; [|done]. bool_to_prop.
  destruct (list_Back (list_PushFront key (vorder c))) as [k|] eqn:Eb; [|done]. simpl.
  destruct (cache_Invalidate Background k (base c)) as [b r] eqn:Ei. simpl.
  apply (cache_Invalidate_law _ _ _ _ _ Hb Ei).
  intros ->. unfold list_PushFront in *. destruct (vorder c) as [|x l] eqn:Eo.
  - simpl in *. lia.
  - apply Hk, He. unfold list_Back in Eb. change (last (x :: l) = Some k) in Eb.
    apply last_Some in Eb as [l' ->]. apply elem_of_app. right. apply list_elem_of_here.
Qed.

(** A versioned cache answers from its history: after a successful [Set]
    the latest value is the one written, and [GetAt] at any instant answers
    what the history extended by that value holds for it, as long as the
    entry has not expired. *)
Theorem VCache_Set_GetAt (now t at_ : time) (key : string) (val : Value T) (ttl : duration)
    c c' (old : option (VersionedValue T)) :
  vc_inv c -> 0 < now -> now <= t -> is_i64 ttl -> served (expiry now ttl) t ->
  cache_view (base c) now key = old ->
  VCache_Set Background now key val ttl c = (c', None) ->
  let h := match old with
           | None => NewVersionedValue val (vlimit c)
           | Some vv => VersionedValue_Add val vv
           end in
  snd (VCache_GetAt Background t key at_ c') = Ok (VersionedValue_At at_ h) /\
  snd (VCache_Get Background t key c') = Ok (Some val).
Proof.
  intros H Hnow Ht Httl Hs Hold HS h. unfold VCache_Set in HS.
  destruct (cache_Get Background now key (base c)) as [b r] eqn:E.
  destruct (cache_Get_law _ _ _ _ _ _ (vinv_base _ H) Hnow E) as (Hb&_&Hr&Hl).
  destruct (Hl eq_refl) as [o ->]. specialize (Hr o eq_refl). rewrite Hold in Hr. subst o.
  change (vlimit (set_base c b)) with (vlimit c) in HS. fold h in HS.
  simpl in HS. destruct (cache_Set Background now key h ttl b) as [b' err] eqn:Es.
  destruct (cache_Set_law _ _ _ _ _ _ _ _ Hb Hnow Httl Es) as (Hb'&Hv&_).
  destruct err; simplify_eq. specialize (Hv eq_refl t Ht). rewrite decide_True in Hv by done.
  set (c1 := set_base (set_base c b) b').
  assert (vc_inv c1) as H1 by (repeat apply set_base_inv; done).
  pose proof (track_base now key c1 t H1) as Htb. simpl in Htb. rewrite Hv in Htb.
  pose proof (track_inv now key c1 H1) as H2.
  assert (0 < t) as Ht0 by lia.
  unfold VCache_GetAt, VCache_Get.
  destruct (cache_Get Background t key (base (track now key c1))) as [b2 r2] eqn:E2.
  destruct (cache_Get_law _ _ _ _ _ _ (vinv_base _ H2) Ht0 E2) as (_&_&Hr2&Hl2).
  destruct (Hl2 eq_refl) as [o2 ->]. specialize (Hr2 o2 eq_refl). rewrite Htb in Hr2. subst o2.
  split; [by destruct (VersionedValue_At at_ h)|].
  assert (VersionedValue_Latest h = Some val) as ->; [|done].
  unfold h. case_match; [apply VersionedValue_Add_Latest|done].
Qed.

End VersionedLaws.

(** ** Witnesses *)

#[export] Instance versioned_dynamic {T} : Dynamic (VersionedValue T) := fun _ => GoOther 32.

Definition vdemo0 : VCache (InMemoryCache (VersionedValue string)) :=
  VCache_New (NewInMemory [WithSweepInterval 0]) 3 2.
Definition vdemo : VCache (InMemoryCache (VersionedValue string)) :=
  fst (VCache_Set Background 10 "k" (value_of "v1" 10) 0 vdemo0).
Definition vdemo2 : VCache (InMemoryCache (VersionedValue string)) :=
  fst (VCache_Set Background 20 "k" (value_of "v2" 20) 0 vdemo).

Lemma vdemo0_inv : vc_inv vdemo0.
Proof.
  split; simpl.
  - split; [|by vm_compute]. apply NewInMemory_inv. intros o c Ho.
    apply list_elem_of_singleton in Ho as ->. done.
  - constructor.
  - intros k. set_solver.
  - lia.
Qed.

Lemma VCache_ops_inv_witness : vc_inv vdemo.
Proof.
  exact (proj1 (proj2 (proj2 (VCache_ops_inv Background 10 "k" (value_of "v1" 10) 0 0 vdemo0
    vdemo0_inv ltac:(lia) ltac:(unfold is_i64; lia))))).
Defined.

Lemma vdemo_inv : vc_inv vdemo.
Proof.
  unfold vdemo, VCache_Set. simpl. apply track_inv. repeat apply set_base_inv.
  - apply vdemo0_inv.
  - split; [|by vm_compute]. apply count_miss_inv, vdemo0_inv.
  - split; [|by vm_compute]. apply set_locked_spec, count_miss_inv, vdemo0_inv.
Qed.

Lemma VCache_Set_GetAt_witness :
  snd (VCache_GetAt Background 25 "k" 15 vdemo2) = Ok (Some (value_of "v1" 10)) /\
  snd (VCache_Get Background 25 "k" vdemo2) = Ok (Some (value_of "v2" 20)).
Proof.
  destruct (VCache_Set_GetAt 20 25 15 "k" (value_of "v2" 20) 0 vdemo vdemo2
    (Some (NewVersionedValue (value_of "v1" 10) 3))) as [E1 E2].
  - apply vdemo_inv.
  - lia.
  - lia.
  - unfold is_i64. lia.
  - exact I.
  - vm_compute. reflexivity.
  - vm_compute. reflexivity.
  - split; [rewrite E1; vm_compute; reflexivity | exact E2].
Defined.
