(* ===== verification/Store.v ===== *)
(** * Store: the primary storage interface and its in-memory implementation

    Models [src/adapter/adapter.go]: the interfaces [Store], [Batch] and
    [Batcher], and [InMemoryStore] with its batches. [LawfulStore] is the
    contract [core] relies on; [InMemoryStore] discharges it. *)

From S2P Require Import Prelude.

(** The operations of a [Batch] of type [bt] over a store of type [S]. Only
    [Commit] reaches the store. *)
Record Batcher (S T : Type) := mkBatcher {
  bt : Type;
  batch_Batch : ctx -> S -> res bt;
  batch_Set : ctx -> string -> T -> bt -> bt * option error;
  batch_Delete : ctx -> string -> bt -> bt * option error;
  batch_Commit : ctx -> bt -> S -> S * option error;
}.
Arguments bt {S T} _.
Arguments batch_Batch {S T} _ _ _.
Arguments batch_Set {S T} _ _ _ _ _.
Arguments batch_Delete {S T} _ _ _ _.
Arguments batch_Commit {S T} _ _ _ _.

(** [store_Batcher] is what the type assertion to [Batcher] answers. *)
Class Store (S T : Type) := {
  store_Get : ctx -> string -> S -> S * res (option T);
  store_Set : ctx -> string -> T -> S -> S * option error;
  store_Keys : ctx -> S -> S * res (list string);
  store_Batcher : option (Batcher S T);
}.

(** The contract of a store: [store_view] is what it holds. Reads answer the
    view and do not change it, even when they fail; a successful write changes
    exactly its key; a failed one changes at most its key. [Keys] lists every
    key the store holds; it may list a key twice, and a key the store holds
    nothing of its type for. *)
Class LawfulStore (S T : Type) `{Store S T} := {
  store_view : S -> gmap string T;
  store_Get_law : forall cx k s s' r,
    store_Get cx k s = (s', r) ->
    store_view s' = store_view s /\ (forall o, r = Ok o -> o = store_view s !! k);
  store_Set_law : forall cx k v s s' r,
    store_Set cx k v s = (s', r) ->
    (r = None -> store_view s' = <[k := v]> (store_view s)) /\
    (forall k', k' <> k -> store_view s' !! k' = store_view s !! k');
  store_Keys_law : forall cx s s' r,
    store_Keys cx s = (s', r) ->
    store_view s' = store_view s /\
    (forall ks k, r = Ok ks -> is_Some (store_view s !! k) -> k ∈ ks);
}.

(** ** InMemoryStore *)

Record InMemoryStore (T : Type) := mkStore { store_items : gmap string T }.
Arguments mkStore {T} _.
Arguments store_items {T} _.

Record inMemoryBatch (T : Type) := mkBatch { b_sets : gmap string T; b_deletes : list string }.
Arguments mkBatch {T} _ _.
Arguments b_sets {T} _.
Arguments b_deletes {T} _.

Section InMemoryStore.
Context {T : Type}.
Implicit Types s : InMemoryStore T.
Implicit Types b : inMemoryBatch T.

Definition NewInMemoryStore : InMemoryStore T := mkStore ∅.

Definition InMemoryStore_Get (cx : ctx) (key : string) s : InMemoryStore T * res (option T) :=
  match store_items s !! key with
  | None => (s, Ok None)
  | Some v => (s, Ok (Some v))
  end.

Definition InMemoryStore_Set (cx : ctx) (key : string) (value : T) s
    : InMemoryStore T * option error :=
  (mkStore (<[key := value]> (store_items s)), None).

(** The keys in some order: that of [map_to_list]. *)
Definition InMemoryStore_Keys (cx : ctx) s : InMemoryStore T * res (list string) :=
  (s, Ok (map_to_list (store_items s)).*1).

Definition InMemoryStore_Batch (cx : ctx) s : res (inMemoryBatch T) := Ok (mkBatch ∅ []).

Definition inMemoryBatch_Set (cx : ctx) (key : string) (value : T) b
    : inMemoryBatch T * option error :=
  (mkBatch (<[key := value]> (b_sets b)) (b_deletes b), None).

Definition inMemoryBatch_Delete (cx : ctx) (key : string) b : inMemoryBatch T * option error :=
  (mkBatch (b_sets b) (b_deletes b ++ [key]), None).

(** The deletes in order, then the sets: in whatever order the map is
    iterated the result is their union over what is left. *)
Definition inMemoryBatch_Commit (cx : ctx) b s : InMemoryStore T * option error :=
  let items := fold_left (fun m k => delete k m) (b_deletes b) (store_items s) in
  let items := map_fold (fun k v m => <[k := v]> m) items (b_sets b) in
  (mkStore items, None).

#[export] Instance InMemoryStore_Store : Store (InMemoryStore T) T := {
  store_Get := InMemoryStore_Get;
  store_Set := InMemoryStore_Set;
  store_Keys := InMemoryStore_Keys;
  store_Batcher := Some (mkBatcher _ _ (inMemoryBatch T) InMemoryStore_Batch
    inMemoryBatch_Set inMemoryBatch_Delete inMemoryBatch_Commit);
}.

(** The in-memory store lists each of its keys once, and no others. *)
Lemma InMemoryStore_Keys_NoDup s : NoDup (map_to_list (store_items s)).*1.
Proof. apply NoDup_fst_map_to_list. Qed.

Lemma InMemoryStore_Keys_elem s k : is_Some (store_items s !! k) <-> k ∈ (map_to_list (store_items s)).*1.
Proof.
  rewrite list_elem_of_fmap. split.
  - intros [v Hv]. exists (k, v). split; [done|]. by apply elem_of_map_to_list.
  - intros ([k' v]&->&Hin). apply elem_of_map_to_list in Hin. by eexists.
Qed.

#[export] Instance InMemoryStore_Lawful : LawfulStore (InMemoryStore T) T.
Proof.
  refine {| store_view := store_items |}.
  - intros cx k s s' r H. simpl in H. unfold InMemoryStore_Get in H.
    destruct (store_items s !! k) eqn:E; simplify_eq/=; naive_solver.
  - intros cx k v s s' r [= <- <-]. simpl. split; [done|].
    intros k' Hk. by rewrite lookup_insert_ne.
  - intros cx s s' r [= <- <-]. split; [done|]. intros ks k [= <-]. apply InMemoryStore_Keys_elem.
Defined.

(** What the store holds for a key after a batch is committed. *)
Definition batch_result (b : inMemoryBatch T) (m : gmap string T) (k : string) : option T :=
  match b_sets b !! k with
  | Some v => Some v
  | None => if decide (k ∈ b_deletes b) then None else m !! k
  end.

Lemma lookup_fold_delete (ks : list string) (m : gmap string T) k :
  fold_left (fun m k => delete k m) ks m !! k = if decide (k ∈ ks) then None else m !! k.
Proof.
  revert m. induction ks as [|k' ks IH]; intros m; simpl.
  - done.
  - rewrite IH. destruct (decide (k ∈ ks)).
    + by rewrite decide_True by set_solver.
    + destruct (decide (k = k')) as [->|].
      * by rewrite decide_True, lookup_delete_eq by set_solver.
      * by rewrite decide_False, lookup_delete_ne by set_solver.
Qed.

Lemma fold_insert_union (sets m : gmap string T) :
  map_fold (fun k v m => <[k := v]> m) m sets = sets ∪ m.
Proof.
  apply (map_fold_weak_ind (fun r (a : gmap string T) => r = a ∪ m)).
  - by rewrite (left_id_L ∅ (∪)).
  - intros k v a r _ ->. by rewrite insert_union_l.
Qed.

(** Entering the pairs of a map, in any order, overrides with the map. *)
Lemma foldl_insert_union (sets m : gmap string T) kvs :
  kvs ≡ₚ map_to_list sets -> foldl (fun m kv => <[fst kv := snd kv]> m) m kvs = sets ∪ m.
Proof.
  intros Hp. rewrite <- (list_to_map_to_list sets).
  assert (NoDup kvs.*1) as Hnd by (rewrite Hp; apply NoDup_fst_map_to_list).
  rewrite <- (list_to_map_proper kvs) by done. clear Hp sets. revert m.
  induction kvs as [|[k v] kvs IH]; intros m; simpl; [by rewrite (left_id_L ∅ (∪))|].
  apply NoDup_cons in Hnd as [Hk Hnd]. rewrite IH by done. rewrite <- insert_union_l, insert_union_r; [done|].
  by apply not_elem_of_list_to_map_1.
Qed.

Lemma inMemoryBatch_Commit_lookup cx b s k :
  store_items (fst (inMemoryBatch_Commit cx b s)) !! k = batch_result b (store_items s) k.
Proof.
  simpl. rewrite fold_insert_union. unfold batch_result.
  destruct (b_sets b !! k) eqn:E.
  - by apply lookup_union_Some_l.
  - rewrite lookup_union_r by done. apply lookup_fold_delete.
Qed.

(** A batch as the sequence of operations queued on it. *)
Inductive batch_op :=
| BSet (k : string) (v : T)
| BDelete (k : string).

Definition batch_key (o : batch_op) : string := match o with BSet k _ => k | BDelete k => k end.

Definition batch_queue b (o : batch_op) : inMemoryBatch T :=
  match o with
  | BSet k v => fst (inMemoryBatch_Set Background k v b)
  | BDelete k => fst (inMemoryBatch_Delete Background k b)
  end.

(** The operations applied to the store one by one. *)
Definition apply_op (m : gmap string T) (o : batch_op) : gmap string T :=
  match o with BSet k v => <[k := v]> m | BDelete k => delete k m end.

Lemma apply_op_lookup m o k :
  apply_op m o !! k =
    if decide (batch_key o = k)
    then match o with BSet _ v => Some v | BDelete _ => None end else m !! k.
Proof.
  destruct o; simpl; case_decide; subst;
    by rewrite ?lookup_insert_eq, ?lookup_delete_eq, ?lookup_insert_ne, ?lookup_delete_ne.
Qed.

Definition queued (ops : list batch_op) : inMemoryBatch T := foldl batch_queue (mkBatch ∅ []) ops.

Lemma queued_snoc ops o : queued (ops ++ [o]) = batch_queue (queued ops) o.
Proof. unfold queued. by rewrite foldl_app. Qed.

(** A batch only mentions the keys queued on it. *)
Lemma queued_keys ops k :
  (k ∈ b_deletes (queued ops) \/ is_Some (b_sets (queued ops) !! k)) ->
  k ∈ batch_key <$> ops.
Proof.
  induction ops as [|o ops IH] using rev_ind; [simpl; rewrite lookup_empty; intros [?|[??]]; set_solver|].
  rewrite queued_snoc, fmap_app, elem_of_app. simpl. rewrite list_elem_of_singleton.
  destruct o as [k' v|k']; simpl.
  - intros [?|Hs]; [by left; apply IH; left|].
    destruct (decide (k = k')) as [->|]; [by right|].
    rewrite lookup_insert_ne in Hs by done. left. apply IH. by right.
  - rewrite elem_of_app, list_elem_of_singleton. intros [[?| ->]|?]; [left|by right|left]; apply IH; tauto.
Qed.

(** Committing an in-memory batch in which every key is queued once has
    the same effect on the store as performing the queued sets and deletes one
    by one in their order, although the commit applies all deletes first. *)
Theorem inMemoryBatch_Commit_sequential (cx : ctx) (ops : list batch_op) s :
  NoDup (batch_key <$> ops) ->
  inMemoryBatch_Commit cx (queued ops) s = (mkStore (foldl apply_op (store_items s) ops), None).
Proof.
  intros Hnd. rewrite (surjective_pairing (inMemoryBatch_Commit _ _ _)). f_equal.
  enough (store_items (fst (inMemoryBatch_Commit cx (queued ops) s)) =
    foldl apply_op (store_items s) ops) as E by (by rewrite <- E).
  apply map_eq. intros k. rewrite inMemoryBatch_Commit_lookup.
  induction ops as [|o ops IH] using rev_ind.
  { unfold batch_result. simpl. by rewrite lookup_empty. }
  rewrite fmap_app in Hnd. apply NoDup_app in Hnd as (Hnd&Hd&_).
  rewrite foldl_app, queued_snoc. simpl. rewrite apply_op_lookup, <- (IH Hnd).
  pose proof (queued_keys ops (batch_key o)) as Hk.
  assert (batch_key o ∉ batch_key <$> ops) as Hn by (intros ?; eapply Hd; set_solver).
  unfold batch_result. destruct o as [k' v|k']; simpl in *.
  - destruct (decide (k' = k)) as [->|]; [by rewrite lookup_insert_eq|by rewrite lookup_insert_ne].
  - destruct (decide (k' = k)) as [->|].
    + destruct (b_sets (queued ops) !! k) eqn:E; [destruct Hn; apply Hk; right; done|].
      by rewrite decide_True by set_solver.
    + case_match; [done|]. apply decide_ext. set_solver.
Qed.

End InMemoryStore.

Lemma inMemoryBatch_Commit_sequential_witness :
  inMemoryBatch_Commit Background (queued [BSet "a" 1; BDelete "b"; BSet "c" 3])
    (mkStore {["b" := 2; "d" := 4]}) =
  (mkStore {["a" := 1; "c" := 3; "d" := 4]}, None).
Proof.
  rewrite (inMemoryBatch_Commit_sequential Background
    [BSet "a" 1; BDelete "b"; BSet "c" 3] (mkStore {["b" := 2; "d" := 4]})).
  - vm_compute. reflexivity.
  - decide_closed.
Defined.
