(* ===== verification/RedisStore.v ===== *)
(** * RedisStore: the store over redis

    Models [src/adapter/redis_store.go] over any redis server ([RedisKV]) that
    holds bytes, reached through a connection ([conn]) whose calls may fail.
    The loop of [Keys] has fuel; it needs one round per position of the server's
    cursor ([rk_span]). The order in which [Commit] iterates over its map is an
    argument. *)

From S2P Require Import Prelude Remote RedisServer Store InMemoryCache Codec.

Definition defaultRedisOpTimeout : duration := 5 * Second.

Record redisStoreOptions (T : Type) := mkRSOpts { rso_timeout : duration; rso_codec : Codec T }.
Arguments mkRSOpts {T} _ _.
Arguments rso_timeout {T} _.
Arguments rso_codec {T} _.

(** The codec, fixed when a store is made, is a parameter of its type. *)
Record RedisStore (R T : Type) (codec : Codec T) := mkRedisStore {
  rs_client : conn R;
  rs_timeout : duration;
}.
Arguments mkRedisStore {R T} codec _ _.
Arguments rs_client {R T codec} _.
Arguments rs_timeout {R T codec} _.

Record redisBatch (T : Type) := mkRBatch { rb_sets : gmap string T; rb_deletes : list string }.
Arguments mkRBatch {T} _ _.
Arguments rb_sets {T} _.
Arguments rb_deletes {T} _.

(** The commands of a pipeline. *)
Inductive rcmd := RCSet (key : string) (data : list Byte.byte) | RCDel (keys : list string).

(** [SCAN] from [cursor] until the cursor is zero; [acc] is [keys]. [None]: out
    of fuel. The last component is the context of the last call. *)
Section Redis.
Context {R : Type} `{!RedisKV R (list Byte.byte)}.

Fixpoint scan_loop (fuel : nat) (cursor : Z) (acc : list string) (c : conn R)
    : option (conn R * (res (list string) * option error)) :=
  match fuel with
  | O => None
  | S fuel =>
      let '(c, (r, late)) := call (fun r => (r, rk_Scan (rk_now r) cursor r)) c in
      match r with
      | Err e => Some (c, (Err (redis_error e), late))
      | Ok (batch, next) =>
          let keys := acc ++ batch in
          if next =? 0 then Some (c, (Ok keys, late)) else scan_loop fuel next keys c
      end
  end.

Definition run_rcmd (r : R) (cmd : rcmd) : R :=
  match cmd with
  | RCSet key data => rk_Set (rk_now r) key data 0 r
  | RCDel keys => foldl (fun r k => rk_Del (rk_now r) k r) r keys
  end.

(** [MULTI ... EXEC]: the commands run one after the other, as a whole. *)
Definition exec (cmds : list rcmd) (r : R) : R * unit := (foldl run_rcmd r cmds, tt).

(** [client.Get(cctx, key).Bytes()] and what follows it, in [RedisStore.Get] and
    in [RedisCache.Get] alike; [f] is the command. *)
Definition redis_get {T} (cx : ctx) (f : R -> option (list Byte.byte)) (codec : Codec T) (c : conn R)
    : conn R * res (option T) :=
  match cx 0%nat with
  | Some e => (c, Err (ctx_err e))
  | None =>
      let '(c, (r, late)) := call (fun r => (r, f r)) c in
      match r with
      | Ok None => (c, Ok None)
      | Err e => (c, Err (redis_error e))
      | Ok (Some data) =>
          match late with
          | Some e => (c, Err (ctx_err e))
          | None =>
              match Unmarshal codec data with
              | Err e => (c, Err e)
              | Ok v => (c, Ok (Some v))
              end
          end
      end
  end.

(** [client.Set(cctx, key, data, ttl)] likewise. *)
Definition redis_set {T} (cx : ctx) (f : list Byte.byte -> R -> R) (codec : Codec T) (value : T) (c : conn R)
    : conn R * option error :=
  match cx 0%nat with
  | Some e => (c, Some (ctx_err e))
  | None =>
      match Marshal codec value with
      | Err e => (c, Some e)
      | Ok data =>
          let '(c, (r, _)) := call (fun r => (f data r, tt)) c in
          match r with
          | Err e => (c, Some (redis_error e))
          | Ok _ => (c, None)
          end
      end
  end.

End Redis.

Definition WithTimeout {T} (d : duration) (o : redisStoreOptions T) : redisStoreOptions T := mkRSOpts d (rso_codec o).
Definition WithCodec {T} (c : Codec T) (o : redisStoreOptions T) : redisStoreOptions T := mkRSOpts (rso_timeout o) c.

(** [gob] is [cache.GobCodec{}]. *)
Definition redis_store_options {T} (gob : Codec T) (opts : list (redisStoreOptions T -> redisStoreOptions T))
    : redisStoreOptions T := foldl (fun o f => f o) (mkRSOpts defaultRedisOpTimeout gob) opts.

Definition NewRedisStore {R T} (gob : Codec T) (client : conn R)
    (opts : list (redisStoreOptions T -> redisStoreOptions T))
    : RedisStore R T (rso_codec (redis_store_options gob opts)) :=
  mkRedisStore _ client (rso_timeout (redis_store_options gob opts)).

Section RedisStore.
Context {R T : Type} {codec : Codec T} `{!RedisKV R (list Byte.byte)}.
Abbreviation store := (RedisStore R T codec).
Implicit Types (s : store) (b : redisBatch T).

Definition set_client s (c : conn R) : store := mkRedisStore codec c (rs_timeout s).

Definition RedisStore_Get (cx : ctx) (key : string) s : store * res (option T) :=
  let '(c, r) := redis_get cx (fun r => rk_Get (rk_now r) key r) codec (rs_client s) in
  (set_client s c, r).

Definition RedisStore_Set (cx : ctx) (key : string) (value : T) s : store * option error :=
  let '(c, err) :=
    redis_set cx (fun data r => rk_Set (rk_now r) key data 0 r) codec value (rs_client s) in
  (set_client s c, err).

Definition RedisStore_Keys (fuel : nat) (cx : ctx) s : option (store * res (list string)) :=
  match cx 0%nat with
  | Some e => Some (s, Err (ctx_err e))
  | None =>
      '(c, (r, late)) ← scan_loop fuel 0 [] (rs_client s);
      Some (set_client s c,
            match r, late with
            | Ok keys, Some e => Err (ctx_err e)
            | r, _ => r
            end)
  end.

Definition RedisStore_Batch (cx : ctx) s : res (redisBatch T) := Ok (mkRBatch ∅ []).

Definition redisBatch_Set (cx : ctx) (key : string) (value : T) b : redisBatch T * option error :=
  (mkRBatch (<[key := value]> (rb_sets b)) (rb_deletes b), None).

Definition redisBatch_Delete (cx : ctx) (key : string) b : redisBatch T * option error :=
  (mkRBatch (rb_sets b) (rb_deletes b ++ [key]), None).

(** [for k, v := range b.sets { data, err := Marshal(v); ...; pipe.Set }] *)
Fixpoint pipe_sets (kvs : list (string * T)) : res (list rcmd) :=
  match kvs with
  | [] => Ok []
  | (k, v) :: kvs =>
      match Marshal codec v with
      | Err e => Err e
      | Ok data => cmds ← pipe_sets kvs; mret (RCSet k data :: cmds)
      end
  end.

Definition redisBatch_Commit (order : gmap string T -> list (string * T)) (cx : ctx) b s
    : store * option error :=
  match cx 0%nat with
  | Some e => (s, Some (ctx_err e))
  | None =>
      match pipe_sets (order (rb_sets b)) with
      | Err e => (s, Some e)
      | Ok sets =>
          let cmds := sets ++ (if decide (rb_deletes b = []) then [] else [RCDel (rb_deletes b)]) in
          let '(c, (r, _)) := call (exec cmds) (rs_client s) in
          (set_client s c, match r with Err e => Some (redis_error e) | Ok _ => None end)
      end
  end.

End RedisStore.

(** ** Full iterations *)

Section Scan.
Context {R : Type} `{!RedisKV R (list Byte.byte), !LawfulRedisKV R (list Byte.byte)}.

Lemma scan_loop_server fuel cursor acc (c c' : conn R) o :
  scan_loop fuel cursor acc c = Some (c', o) -> server c' = server c.
Proof.
  revert cursor acc c. induction fuel as [|fuel IH]; intros cursor acc c; [done|]. simpl.
  pose proof (call_read (fun r => (r, rk_Scan (rk_now r) cursor r)) c eq_refl) as Hs.
  destruct (call _ c) as [c1 [[[batch next]|e] late]]; simpl in Hs; [|by intros [= <- <-]].
  destruct (next =? 0); [by intros [= <- <-]|]. intros ->%IH. done.
Qed.

(** The loop ends: every round advances the cursor. *)
Lemma scan_loop_ends fuel cursor acc (c : conn R) :
  (rk_span - rk_pos cursor < fuel)%nat -> is_Some (scan_loop fuel cursor acc c).
Proof.
  revert cursor acc c. induction fuel as [|fuel IH]; intros cursor acc c Hf; [lia|]. simpl.
  pose proof (call_answer (fun r => (r, rk_Scan (rk_now r) cursor r)) c) as Ha.
  destruct (call _ c) as [c1 [[[batch next]|e] late]]; simpl in *; [|done].
  destruct (Z.eqb_spec next 0); [done|]. destruct (Ha _ eq_refl) as [_ E]. symmetry in E.
  apply IH. pose proof (rk_Scan_advances _ _ _ _ _ E). lia.
Qed.

(** It answers the keys from its cursor on, and no others. *)
Lemma scan_loop_keys fuel cursor acc (c c' : conn R) ks late k :
  scan_loop fuel cursor acc c = Some (c', (Ok ks, late)) ->
  (forall k, k ∈ acc -> rk_data (rk_now (server c)) (server c) !! k <> None) ->
  (k ∈ ks -> rk_data (rk_now (server c)) (server c) !! k <> None) /\
  (rk_data (rk_now (server c)) (server c) !! k <> None -> k ∈ acc \/ (rk_pos cursor <= rk_slot k)%nat -> k ∈ ks).
Proof.
  revert cursor acc c. induction fuel as [|fuel IH]; intros cursor acc c; [done|]. simpl.
  pose proof (call_read (fun r => (r, rk_Scan (rk_now r) cursor r)) c eq_refl) as Hs.
  pose proof (call_answer (fun r => (r, rk_Scan (rk_now r) cursor r)) c) as Ha.
  destruct (call _ c) as [c1 [[[batch next]|e] l]]; simpl in *; [|done].
  destruct (Ha _ eq_refl) as [_ E]. symmetry in E. intros Hl Hacc.
  assert (forall k, k ∈ acc ++ batch -> rk_data (rk_now (server c)) (server c) !! k <> None) as Hacc'.
  { intros k' [?|Hb]%elem_of_app; [by apply Hacc|]. rewrite <- rk_Get_data. by eapply rk_Scan_sound. }
  destruct (Z.eqb_spec next 0) as [->|Hn].
  - injection Hl as <- <- <-. split; [apply Hacc'|]. intros Hk [?|Hp]; apply elem_of_app; [by left|right].
    eapply rk_Scan_covers; [exact E| |done|by left]. by rewrite rk_Get_data.
  - rewrite <- Hs in *. destruct (IH _ _ _ Hl Hacc') as [H1 H2]. split; [done|].
    intros Hk Hp. apply H2; [done|]. destruct Hp as [?|Hp]; [left; by apply elem_of_app; left|].
    destruct (decide (rk_pos next <= rk_slot k)%nat); [by right|]. left. apply elem_of_app. right.
    eapply rk_Scan_covers; [exact E| |done|right; lia]. by rewrite rk_Get_data.
Qed.

End Scan.

(** ** The store *)

Section RedisStoreProps.
Context {R T : Type} (codec : Codec T) `{!RedisKV R (list Byte.byte), !LawfulRedisKV R (list Byte.byte)}.
Implicit Types (s : RedisStore R T codec) (b : redisBatch T).

Abbreviation srv s := (server (rs_client s)).

(** What the server holds of the type of the store. *)
Definition redis_view s : gmap string T := decoded codec (rk_data (rk_now (srv s)) (srv s)).

(** A read answers what is there, and changes nothing. *)
Lemma redis_get_correct cx f (c c' : conn R) r :
  redis_get cx f codec c = (c', r) ->
  server c' = server c /\
  (forall o, r = Ok o -> match o with
                         | Some v => exists data, f (server c) = Some data /\ Unmarshal codec data = Ok v
                         | None => f (server c) = None
                         end).
Proof.
  unfold redis_get. destruct (cx 0%nat); [by intros [= <- <-]|].
  pose proof (call_read (fun r => (r, f r)) c eq_refl) as Hs.
  pose proof (call_answer (fun r => (r, f r)) c) as Ha.
  destruct (call _ c) as [c1 [[[data|]|e] late]]; simpl in *.
  - destruct (Ha _ eq_refl) as [_ E]. destruct late; [by intros [= <- <-]|].
    destruct (Unmarshal codec data) eqn:Eu; intros [= <- <-]; (split; [done|]); intros o [= <-]; eauto.
  - destruct (Ha _ eq_refl) as [_ E]. intros [= <- <-]. split; [done|]. by intros o [= <-].
  - by intros [= <- <-].
Qed.

(** A write that succeeds has been executed; one that fails may have been. *)
Lemma redis_set_correct cx f value (c c' : conn R) err :
  redis_set cx f codec value c = (c', err) ->
  (server c' = server c \/ exists data, Marshal codec value = Ok data /\ server c' = f data (server c)) /\
  (err = None -> exists data, Marshal codec value = Ok data /\ server c' = f data (server c)).
Proof.
  unfold redis_set. destruct (cx 0%nat); [intros [= <- <-]; naive_solver|].
  destruct (Marshal codec value) as [data|]; [|intros [= <- <-]; naive_solver].
  pose proof (call_server (fun r => (f data r, tt)) c) as Hs.
  pose proof (call_answer (fun r => (f data r, tt)) c) as Ha.
  destruct (call _ c) as [c1 [[u|e] late]]; simpl in *; intros [= <- <-]; [|naive_solver].
  destruct (Ha u eq_refl) as [-> _]. naive_solver.
Qed.

(** [Keys] returns, and lists every key of the store, whatever else is in the
    database. *)
Lemma RedisStore_Keys_correct fuel cx s :
  (rk_span < fuel)%nat ->
  exists s' r, RedisStore_Keys fuel cx s = Some (s', r) /\ srv s' = srv s /\
    forall ks k, r = Ok ks -> is_Some (redis_view s !! k) -> k ∈ ks.
Proof.
  intros Hf. unfold RedisStore_Keys. destruct (cx 0%nat) as [e|]; [by exists s, (Err (ctx_err e))|].
  destruct (scan_loop_ends fuel 0 [] (rs_client s)) as [[c [r late]] E]; [rewrite rk_pos_0; lia|].
  rewrite E. simpl. eexists _, _. split; [done|]. split; [by apply scan_loop_server in E|].
  intros ks k Hr Hk. destruct r as [ks'|]; [|done]. destruct late; [done|]. injection Hr as ->.
  eapply scan_loop_keys; [exact E|set_solver| |right; rewrite rk_pos_0; lia].
  intros Hn. unfold redis_view, decoded in Hk. rewrite lookup_omap, Hn in Hk. by destruct Hk.
Qed.

End RedisStoreProps.

(** ** The interface *)

(** The fuel of [Keys] is enough. *)
#[export] Instance RedisStore_Store {R T} {codec : Codec T} `{!RedisKV R (list Byte.byte), !LawfulRedisKV R (list Byte.byte)}
    : Store (RedisStore R T codec) T := {
  store_Get := RedisStore_Get;
  store_Set := RedisStore_Set;
  store_Keys := fun cx s => default (s, Ok []) (RedisStore_Keys (S rk_span) cx s);
  store_Batcher := Some (mkBatcher _ _ (redisBatch T) RedisStore_Batch
    redisBatch_Set redisBatch_Delete (redisBatch_Commit map_to_list));
}.

Section RedisStoreLaws.
Context {R T : Type} {codec : Codec T} `{!LawfulCodec codec}.
Context `{!RedisKV R (list Byte.byte), !LawfulRedisKV R (list Byte.byte)}.
Implicit Types (s : RedisStore R T codec) (b : redisBatch T).

(** The store keeps the contract of a store, whatever the calls meet. *)
#[export] Instance RedisStore_Lawful : LawfulStore (RedisStore R T codec) T.
Proof.
  refine {| store_view := redis_view codec |}.
  - intros cx k s s' r. cbn -[redis_get]. unfold RedisStore_Get.
    destruct (redis_get _ _ _ _) as [c o] eqn:E. intros [= <- <-].
    apply redis_get_correct in E as [Hs Ho]. unfold redis_view at 1. simpl. rewrite Hs. split; [done|].
    intros x ->. specialize (Ho _ eq_refl). unfold redis_view, decoded. rewrite lookup_omap, <- rk_Get_data.
    destruct x as [v|]; [destruct Ho as (data & -> & Hu); simpl; by rewrite Hu|by rewrite Ho].
  - intros cx k v s s' r. cbn -[redis_set]. unfold RedisStore_Set.
    destruct (redis_set _ _ _ _ _) as [c o] eqn:E. intros [= <- <-].
    apply redis_set_correct in E as [Hs Ho].
    assert (forall data, Marshal codec v = Ok data ->
      server c = rk_Set (rk_now (server (rs_client s))) k data 0 (server (rs_client s)) ->
      redis_view codec (set_client s c) = <[k := v]> (redis_view codec s)) as Hv.
    { intros data Hd Hc. unfold redis_view. simpl. rewrite Hc, rk_now_Set, rk_data_Set. by apply decoded_insert. }
    split; [intros ->; destruct (Ho eq_refl) as (data & ? & ?); by eapply Hv|].
    intros k' Hne. destruct Hs as [Hs|(data & Hd & Hs)]; [unfold redis_view; simpl; by rewrite Hs|].
    rewrite (Hv data) by done. by rewrite lookup_insert_ne.
  - intros cx s s' r. cbn -[RedisStore_Keys].
    destruct (RedisStore_Keys_correct codec (S rk_span) cx s) as (s1 & r1 & -> & Hs & Hk); [lia|].
    intros [= <- <-]. split; [unfold redis_view; by rewrite Hs|]. intros ks k. apply Hk.
Defined.

(** ** Batches *)

Lemma foldl_Del_data (r : R) ks : rk_now (foldl (fun r k => rk_Del (rk_now r) k r) r ks) = rk_now r /\
  rk_data (rk_now r) (foldl (fun r k => rk_Del (rk_now r) k r) r ks) =
    fold_left (fun m k => delete k m) ks (rk_data (rk_now r) r).
Proof.
  revert r. induction ks as [|k ks IH]; intros r; simpl; [done|].
  destruct (IH (rk_Del (rk_now r) k r)) as [H1 H2]. rewrite rk_now_Del in H1, H2. split; [done|].
  rewrite H2. by rewrite rk_data_Del.
Qed.

Lemma pipe_sets_data kvs cmds (r : R) : pipe_sets (codec := codec) kvs = Ok cmds ->
  rk_now (foldl run_rcmd r cmds) = rk_now r /\
  decoded codec (rk_data (rk_now r) (foldl run_rcmd r cmds)) =
    foldl (fun m kv => <[fst kv := snd kv]> m) (decoded codec (rk_data (rk_now r) r)) kvs.
Proof.
  revert cmds r. induction kvs as [|[k v] kvs IH]; intros cmds r; simpl; [by intros [= <-]|].
  destruct (Marshal codec v) as [data|] eqn:Em; [|done].
  destruct (pipe_sets kvs) as [cmds'|] eqn:E; [|done]. simpl. intros [= <-]. simpl.
  destruct (IH cmds' (rk_Set (rk_now r) k data 0 r) eq_refl) as [H1 H2]. rewrite rk_now_Set in H1, H2.
  split; [done|]. rewrite H2, rk_data_Set. f_equal. by apply decoded_insert.
Qed.

(** The sets, then the deletes. *)
Definition redis_batch_result b (m : gmap string T) : gmap string T :=
  fold_left (fun m k => delete k m) (rb_deletes b) (rb_sets b ∪ m).

(** A commit is atomic: it takes effect as a whole or not at all, and as a whole
    if it succeeds. *)
Theorem redisBatch_Commit_atomic order cx b s s' err :
  (forall m, order m ≡ₚ map_to_list m) ->
  redisBatch_Commit order cx b s = (s', err) ->
  (err = None -> redis_view codec s' = redis_batch_result b (redis_view codec s)) /\
  (redis_view codec s' = redis_view codec s \/ redis_view codec s' = redis_batch_result b (redis_view codec s)).
Proof.
  intros Hord. unfold redisBatch_Commit. destruct (cx 0%nat); [intros [= <- <-]; naive_solver|].
  destruct (pipe_sets (order (rb_sets b))) as [sets|] eqn:Ep; [|intros [= <- <-]; naive_solver].
  set (cmds := sets ++ _).
  assert (forall c, server c = fst (exec cmds (server (rs_client s))) ->
    redis_view codec (set_client s c) = redis_batch_result b (redis_view codec s)) as Hv.
  { intros c Hc. unfold redis_view, redis_batch_result. cbn [rs_client set_client]. rewrite Hc. unfold exec, cmds.
    simpl. rewrite foldl_app. destruct (pipe_sets_data _ _ (server (rs_client s)) Ep) as [Hn Hd].
    rewrite (foldl_insert_union (rb_sets b)) in Hd by apply Hord. rewrite <- Hd.
    destruct (decide (rb_deletes b = [])) as [->|]; simpl; [by rewrite Hn|].
    destruct (foldl_Del_data (foldl run_rcmd (server (rs_client s)) sets) (rb_deletes b)) as [H1 H2].
    rewrite Hn in H1, H2. rewrite H1, H2. apply decoded_deletes. }
  pose proof (call_server (exec cmds) (rs_client s)) as Hs. pose proof (call_answer (exec cmds) (rs_client s)) as Ha.
  destruct (call _ _) as [c [[u|e] late]]; simpl in Hs, Ha; intros [= <- <-].
  - destruct (Ha u eq_refl) as [Hc _]. rewrite (Hv c Hc). tauto.
  - split; [done|]. destruct Hs as [Hs|Hs]; [left; unfold redis_view; simpl; by rewrite Hs|right; by apply Hv].
Qed.

End RedisStoreLaws.
