(* ===== verification/RedisCache.v ===== *)
(** * RedisCache: the cache over redis

    Models [src/cache/redis.go] over any redis server. Unlike the in-process
    caches its operations can fail under a live context; [ResilientCache] hides
    that. Its TTLs are those of redis, in milliseconds. *)

From S2P Require Import Prelude Remote RedisServer CacheIface InMemoryCache Codec Store RedisStore.

Definition redisCacheTimeout : duration := 5 * Second.

(** The codec, fixed when a cache is made, is a parameter of its type. *)
Record RedisCache (R T : Type) (codec : Codec T) := mkRedisCache { rca_client : conn R }.
Arguments mkRedisCache {R T} codec _.
Arguments rca_client {R T codec} _.

(** [codec = None] is a nil codec, [json] is [JSONCodec{}]. *)
Definition cache_NewRedis {R T} (json : Codec T) (client : conn R) (codec : option (Codec T))
    : RedisCache R T (default json codec) := mkRedisCache _ client.

Section RedisCache.
Context {R T : Type} {codec : Codec T} `{!RedisKV R (list Byte.byte)}.
Abbreviation cache := (RedisCache R T codec).
Implicit Types c : cache.

Definition RedisCache_Get (cx : ctx) (now : time) (key : string) c : cache * res (option T) :=
  let '(cl, r) := redis_get cx (rk_Get now key) codec (rca_client c) in (mkRedisCache codec cl, r).

Definition RedisCache_Set (cx : ctx) (now : time) (key : string) (value : T) (ttl : duration) c
    : cache * option error :=
  let '(cl, err) := redis_set cx (fun data => rk_Set now key data ttl) codec value (rca_client c) in
  (mkRedisCache codec cl, err).

Definition RedisCache_Invalidate (cx : ctx) (key : string) c : cache * option error :=
  match cx 0%nat with
  | Some e => (c, Some (ctx_err e))
  | None =>
      let '(cl, (r, _)) := call (fun r => (rk_Del (rk_now r) key r, tt)) (rca_client c) in
      (mkRedisCache codec cl, match r with Err e => Some (redis_error e) | Ok _ => None end)
  end.

#[export] Instance RedisCache_Cache : Cache cache T := {
  cache_Get := RedisCache_Get;
  cache_Set := RedisCache_Set;
  cache_Invalidate := RedisCache_Invalidate;
  cache_GetAt := None;
}.

End RedisCache.

Section RedisCacheProps.
Context {R T : Type} {codec : Codec T} `{!LawfulCodec codec}.
Context `{!RedisKV R (list Byte.byte), !LawfulRedisKV R (list Byte.byte)}.
Implicit Types c : RedisCache R T codec.

(** What the cache serves at an instant. *)
Definition rca_view c (t : time) (k : string) : option T :=
  data ← rk_Get t k (server (rca_client c));
  match Unmarshal codec data with Ok v => Some v | Err _ => None end.

(** A read answers what is there, if it answers, and changes nothing. *)
Lemma RedisCache_Get_correct cx now k c c' r :
  RedisCache_Get cx now k c = (c', r) ->
  (forall t k', rca_view c' t k' = rca_view c t k') /\ (forall o, r = Ok o -> o = rca_view c now k).
Proof.
  unfold RedisCache_Get. destruct (redis_get _ _ _ _) as [cl o] eqn:E. intros [= <- <-].
  apply redis_get_correct in E as [Hs Ho]. split; [intros; unfold rca_view; simpl; by rewrite Hs|].
  intros x ->. specialize (Ho _ eq_refl). unfold rca_view.
  destruct x as [v|]; [destruct Ho as (data & -> & Hu); simpl; by rewrite Hu|by rewrite Ho].
Qed.

(** What a write at [now] makes the cache serve at [t]. *)
Definition rca_written (now : time) (ttl : duration) (v : T) (t : time) : option T :=
  if decide (0 < ttl /\ now + rk_ttl (R := R) ttl <= t) then None else Some v.

(** A write that succeeds is served until its TTL, in the milliseconds redis is
    given, has run out; one that fails leaves the old value or has taken effect.
    Other keys are not touched. *)
Theorem RedisCache_Set_correct cx now k v ttl c c' err :
  ttl <> KeepTTL -> RedisCache_Set cx now k v ttl c = (c', err) ->
  (err = None -> forall t, now <= t -> rca_view c' t k = rca_written now ttl v t) /\
  ((forall t, now <= t -> rca_view c' t k = rca_view c t k) \/ (forall t, now <= t -> rca_view c' t k = rca_written now ttl v t)) /\
  (forall t k', k' <> k -> rca_view c' t k' = rca_view c t k').
Proof.
  intros Hk. unfold RedisCache_Set. destruct (redis_set _ _ _ _ _) as [cl o] eqn:E. intros [= <- <-].
  apply redis_set_correct in E as [Hs Ho].
  assert (forall data, Marshal codec v = Ok data -> server cl = rk_Set now k data ttl (server (rca_client c)) ->
    forall t, now <= t -> rca_view (mkRedisCache codec cl) t k = rca_written now ttl v t) as Hv.
  { intros data Hd Hc t Ht. unfold rca_view, rca_written. simpl. rewrite Hc, rk_Set_get by (done || by left).
    destruct (decide _); [done|]. simpl. by rewrite (codec_roundtrip _ _ Hd). }
  split_and!.
  - intros ->. destruct (Ho eq_refl) as (data & Hd & Hc). by eapply Hv.
  - destruct Hs as [Hs|(data & Hd & Hs)]; [left|right; by eapply Hv]. intros. unfold rca_view. simpl. by rewrite Hs.
  - intros t k' Hne. unfold rca_view. simpl.
    destruct Hs as [->|(data & Hd & ->)]; [done|]. by rewrite rk_Set_other.
Qed.

(** An invalidation that succeeds removes the key and nothing else. *)
Theorem RedisCache_Invalidate_correct cx k c c' err :
  RedisCache_Invalidate cx k c = (c', err) ->
  (err = None -> forall t, rk_now (server (rca_client c)) <= t -> rca_view c' t k = None) /\
  (forall t k', k' <> k -> rca_view c' t k' = rca_view c t k').
Proof.
  unfold RedisCache_Invalidate. destruct (cx 0%nat); [by intros [= <- <-]|].
  set (f := fun r => (rk_Del (rk_now r) k r, tt)).
  pose proof (call_server f (rca_client c)) as Hs. pose proof (call_answer f (rca_client c)) as Ha.
  destruct (call f (rca_client c)) as [cl [r late]]. simpl in *. intros [= <- <-]. split.
  - intros Hr t Ht. destruct r as [u|]; [|done]. destruct (Ha u eq_refl) as [Hc _]. unfold rca_view. simpl.
    by rewrite Hc, rk_Del_get.
  - intros t k' Hne. unfold rca_view. simpl. destruct Hs as [->| ->]; [done|]. by rewrite rk_Del_other.
Qed.

(** Wrapped in [ResilientCache] the cache never fails: whatever its calls meet,
    a read answers what redis serves or misses. *)
Theorem Resilient_RedisCache cx now k (c : ResilientCache (RedisCache R T codec)) :
  exists w o, ResilientCache_Get (V := T) cx now k c = (w, Ok o) /\ (o = None \/ o = rca_view (inner c) now k).
Proof.
  unfold ResilientCache_Get. destruct (cache_Get cx now k (inner c)) as [c' r] eqn:E.
  apply RedisCache_Get_correct in E as [_ Hr]. destruct r as [o|e]; [|by eexists _, None; eauto].
  eexists _, o. split; [done|]. right. by apply Hr.
Qed.

End RedisCacheProps.
