(* ===== verification/GormStore.v ===== *)
(** * GormStore: the store over a relational database

    Models [src/adapter/gorm_store.go]. gorm and the database are parameters:
    [SqlDB] has the statements the store issues, on tables with a key column
    and a value column, and [LawfulSqlDB] their documented behaviour. A
    statement that fails (a missing table included) is an outcome of its call.
    A transaction takes effect as a whole, or not at all. The order in which
    [Commit] iterates over its map is an argument. *)

From S2P Require Import Prelude Remote Store InMemoryCache Codec.

(** ** The database *)

(** [sql_Upsert table size rows]: [INSERT ... ON CONFLICT (key_id) DO UPDATE SET
    value], in statements of at most [size] rows. [sql_Transaction]: the body
    runs on a connection of its own. *)
Class SqlDB (D : Type) := {
  sql_HasTable : string -> D -> bool;
  sql_AutoMigrate : string -> D -> D;
  sql_First : string -> string -> D -> option (list Byte.byte);
  sql_Upsert : string -> nat -> list (string * list Byte.byte) -> D -> D;
  sql_Pluck : string -> D -> list string;
  sql_DeleteIn : string -> list string -> D -> D;
  sql_Transaction : (conn D -> conn D * option error) -> conn D -> conn D * option error;
}.

(** Upserting needs distinct keys: a statement may not affect a row twice. *)
Class LawfulSqlDB (D : Type) `{SqlDB D} := {
  sql_table : string -> D -> gmap string (list Byte.byte);
  sql_First_law : forall t k (d : D), sql_First t k d = sql_table t d !! k;
  sql_Upsert_law : forall t n rows (d : D), NoDup rows.*1 ->
    sql_table t (sql_Upsert t n rows d) = foldl (fun m kv => <[fst kv := snd kv]> m) (sql_table t d) rows;
  sql_Pluck_law : forall t (d : D), sql_Pluck t d ≡ₚ (map_to_list (sql_table t d)).*1;
  sql_DeleteIn_law : forall t ks (d : D),
    sql_table t (sql_DeleteIn t ks d) = fold_left (fun m k => delete k m) ks (sql_table t d);
  sql_AutoMigrate_law : forall t (d : D),
    sql_HasTable t (sql_AutoMigrate t d) = true /\ sql_table t (sql_AutoMigrate t d) = sql_table t d;
  sql_Transaction_law : forall body (c c' : conn D) err, sql_Transaction body c = (c', err) ->
    (exists c0 tx, server c0 = server c /\ body c0 = (tx, None) /\ server c' = server tx) \/
    (err <> None /\ server c' = server c);
  sql_Transaction_error : forall body (c : conn D), outcomes c = [] ->
    match body c with
    | (tx, None) => outcomes tx = [] -> snd (sql_Transaction body c) = None
    | (tx, Some e) => snd (sql_Transaction body c) = Some e
    end;
}.

(** ** The store *)

Definition defaultGormTableName : string := "warp_kv_store".
Definition defaultGormOpTimeout : duration := 5 * Second.

Record gormKV := mkGormKV { kv_Key : string; kv_Value : list Byte.byte }.

Record gormStoreOptions (T : Type) := mkGOpts {
  go_tableName : string;
  go_timeout : duration;
  go_codec : Codec T;
}.
Arguments mkGOpts {T} _ _ _.
Arguments go_tableName {T} _.
Arguments go_timeout {T} _.
Arguments go_codec {T} _.

Definition WithGormTableName {T} (name : string) (o : gormStoreOptions T) : gormStoreOptions T :=
  mkGOpts name (go_timeout o) (go_codec o).
Definition WithGormTimeout {T} (d : duration) (o : gormStoreOptions T) : gormStoreOptions T :=
  mkGOpts (go_tableName o) d (go_codec o).
Definition WithGormCodec {T} (c : Codec T) (o : gormStoreOptions T) : gormStoreOptions T :=
  mkGOpts (go_tableName o) (go_timeout o) c.

(** [gob] is [cache.GobCodec{}]. *)
Definition gorm_store_options {T} (gob : Codec T) (opts : list (gormStoreOptions T -> gormStoreOptions T))
    : gormStoreOptions T :=
  foldl (fun o f => f o) (mkGOpts defaultGormTableName defaultGormOpTimeout gob) opts.

(** The codec, fixed when a store is made, is a parameter of its type. *)
Record GormStore (D T : Type) (codec : Codec T) := mkGormStore {
  gs_db : conn D;
  gs_tableName : string;
  gs_timeout : duration;
}.
Arguments mkGormStore {D T} codec _ _ _.
Arguments gs_db {D T codec} _.
Arguments gs_tableName {D T codec} _.
Arguments gs_timeout {D T codec} _.

Record gormBatch (T : Type) := mkGBatch { gb_sets : gmap string T; gb_deletes : list string }.
Arguments mkGBatch {T} _ _.
Arguments gb_sets {T} _.
Arguments gb_deletes {T} _.

(** An error of the migration is dropped. *)
Definition NewGormStore {D T} `{!SqlDB D} (gob : Codec T) (db : conn D)
    (opts : list (gormStoreOptions T -> gormStoreOptions T))
    : GormStore D T (go_codec (gorm_store_options gob opts)) :=
  let o := gorm_store_options gob opts in
  let db := if sql_HasTable (go_tableName o) (server db) then db
            else fst (call (fun d => (sql_AutoMigrate (go_tableName o) d, tt)) db) in
  mkGormStore _ db (go_tableName o) (go_timeout o).

Section GormStore.
Context {D T : Type} {codec : Codec T} `{!SqlDB D}.
Abbreviation store := (GormStore D T codec).
Implicit Types (s : store) (b : gormBatch T).

Definition set_db s (c : conn D) : store := mkGormStore codec c (gs_tableName s) (gs_timeout s).

Definition GormStore_Get (cx : ctx) (key : string) s : store * res (option T) :=
  match cx 0%nat with
  | Some e => (s, Err (ctx_err e))
  | None =>
      let '(c, (r, late)) := call (fun d => (d, sql_First (gs_tableName s) key d)) (gs_db s) in
      (set_db s c,
       match r with
       | Ok None => Ok None
       | Err e => Err (ctx_err e)
       | Ok (Some data) =>
           match late with
           | Some e => Err (ctx_err e)
           | None => match Unmarshal codec data with Err e => Err e | Ok v => Ok (Some v) end
           end
       end)
  end.

Definition GormStore_Set (cx : ctx) (key : string) (value : T) s : store * option error :=
  match cx 0%nat with
  | Some e => (s, Some (ctx_err e))
  | None =>
      match Marshal codec value with
      | Err e => (s, Some e)
      | Ok data =>
          let kv := mkGormKV key data in
          let '(c, (r, _)) :=
            call (fun d => (sql_Upsert (gs_tableName s) 1 [(kv_Key kv, kv_Value kv)] d, tt)) (gs_db s) in
          (set_db s c, match r with Err e => Some (ctx_err e) | Ok _ => None end)
      end
  end.

Definition GormStore_Keys (cx : ctx) s : store * res (list string) :=
  match cx 0%nat with
  | Some e => (s, Err (ctx_err e))
  | None =>
      let '(c, (r, _)) := call (fun d => (d, sql_Pluck (gs_tableName s) d)) (gs_db s) in
      (set_db s c, match r with Err e => Err (ctx_err e) | Ok keys => Ok keys end)
  end.

Definition GormStore_Batch (cx : ctx) s : res (gormBatch T) := Ok (mkGBatch ∅ []).

Definition gormBatch_Set (cx : ctx) (key : string) (value : T) b : gormBatch T * option error :=
  (mkGBatch (<[key := value]> (gb_sets b)) (gb_deletes b), None).

Definition gormBatch_Delete (cx : ctx) (key : string) b : gormBatch T * option error :=
  (mkGBatch (gb_sets b) (gb_deletes b ++ [key]), None).

(** [for k, v := range b.sets { data, err := Marshal(v); ... }] *)
Fixpoint marshal_rows (kvs : list (string * T)) : res (list (string * list Byte.byte)) :=
  match kvs with
  | [] => Ok []
  | (k, v) :: kvs =>
      match Marshal codec v with
      | Err e => Err e
      | Ok data => rows ← marshal_rows kvs; mret ((k, data) :: rows)
      end
  end.

(** A statement of the transaction: its error ends the transaction. *)
Definition tx_exec (f : D -> D) (tx : conn D) : conn D * option error :=
  let '(tx, (r, _)) := call (fun d => (f d, tt)) tx in
  (tx, match r with Err e => Some e | Ok _ => None end).

Definition tx_deletes (table : string) b (tx : conn D) : conn D * option error :=
  if decide (gb_deletes b = []) then (tx, None) else tx_exec (sql_DeleteIn table (gb_deletes b)) tx.

Definition tx_sets (order : gmap string T -> list (string * T)) (table : string) b (tx : conn D)
    : conn D * option error :=
  if decide (gb_sets b = ∅) then (tx, None)
  else match marshal_rows (order (gb_sets b)) with
       | Err e => (tx, Some e)
       | Ok kvs => tx_exec (sql_Upsert table 100 kvs) tx
       end.

Definition gormBatch_body (order : gmap string T -> list (string * T)) (table : string) b (tx : conn D)
    : conn D * option error :=
  let '(tx, err) := tx_deletes table b tx in
  match err with
  | Some e => (tx, Some e)
  | None => tx_sets order table b tx
  end.

Definition gormBatch_Commit (order : gmap string T -> list (string * T)) (cx : ctx) b s
    : store * option error :=
  match cx 0%nat with
  | Some e => (s, Some (ctx_err e))
  | None =>
      let '(c, err) := sql_Transaction (gormBatch_body order (gs_tableName s) b) (gs_db s) in
      (set_db s c, match err with Some e => Some (ctx_err e) | None => None end)
  end.

#[export] Instance GormStore_Store : Store store T := {
  store_Get := GormStore_Get;
  store_Set := GormStore_Set;
  store_Keys := GormStore_Keys;
  store_Batcher := Some (mkBatcher _ _ (gormBatch T) GormStore_Batch
    gormBatch_Set gormBatch_Delete (gormBatch_Commit map_to_list));
}.

End GormStore.

(** ** The contract *)

Section GormStoreLaws.
Context {D T : Type} {codec : Codec T} `{!LawfulCodec codec, !SqlDB D, !LawfulSqlDB D}.
Implicit Types (s : GormStore D T codec) (b : gormBatch T) (c : conn D).

Definition table_view (table : string) (d : D) : gmap string T := decoded codec (sql_table table d).
Definition gorm_view s : gmap string T := table_view (gs_tableName s) (server (gs_db s)).

#[export] Instance GormStore_Lawful : LawfulStore (GormStore D T codec) T.
Proof.
  refine {| store_view := gorm_view |}; intros cx.
  - intros k s s' r. cbn -[call]. unfold GormStore_Get. destruct (cx 0%nat); [by intros [= <- <-]|].
    set (f := fun d => (d, sql_First (gs_tableName s) k d)).
    pose proof (call_read f (gs_db s) eq_refl) as Hs. pose proof (call_answer f (gs_db s)) as Ha.
    destruct (call f (gs_db s)) as [c [x late]]. simpl in Hs, Ha. intros [= <- <-].
    unfold gorm_view, table_view at 1. simpl. rewrite Hs. split; [done|]. intros o Ho.
    unfold table_view, decoded. rewrite lookup_omap, <- sql_First_law. destruct x as [[data|]|e]; [| |done].
    + destruct (Ha (Some data) eq_refl) as [_ <-]. destruct late; [done|]. simpl. destruct (Unmarshal codec data); congruence.
    + destruct (Ha None eq_refl) as [_ <-]. simpl. congruence.
  - intros k v s s' r. cbn -[call]. unfold GormStore_Set. destruct (cx 0%nat); [by intros [= <- <-]|].
    destruct (Marshal codec v) as [data|] eqn:Em; [|by intros [= <- <-]].
    cbn [kv_Key kv_Value]. set (f := fun d => (sql_Upsert (gs_tableName s) 1 [(k, data)] d, tt)).
    pose proof (call_server f (gs_db s)) as Hs. pose proof (call_answer f (gs_db s)) as Ha.
    destruct (call f (gs_db s)) as [c [x late]]. simpl in Hs, Ha. intros [= <- <-].
    assert (server c = sql_Upsert (gs_tableName s) 1 [(k, data)] (server (gs_db s)) ->
      gorm_view (set_db s c) = <[k := v]> (gorm_view s)) as Hv.
    { intros Hc. unfold gorm_view, table_view. simpl. rewrite Hc, sql_Upsert_law by apply NoDup_singleton.
      simpl. by apply decoded_insert. }
    split.
    + intros Hr. destruct x as [u|]; [|done]. destruct (Ha u eq_refl) as [Hc _]. by apply Hv.
    + intros k' Hne. destruct Hs as [Hs|Hs]; [unfold gorm_view; simpl; by rewrite Hs|].
      rewrite Hv by done. by rewrite lookup_insert_ne.
  - intros s s' r. cbn -[call]. unfold GormStore_Keys. destruct (cx 0%nat); [by intros [= <- <-]|].
    set (f := fun d => (d, sql_Pluck (gs_tableName s) d)).
    pose proof (call_read f (gs_db s) eq_refl) as Hs. pose proof (call_answer f (gs_db s)) as Ha.
    destruct (call f (gs_db s)) as [c [x late]]. simpl in Hs, Ha. intros [= <- <-].
    unfold gorm_view at 1. simpl. rewrite Hs. split; [done|]. intros ks k Hr [v Hk].
    destruct x as [ks'|]; [|done]. injection Hr as ->. destruct (Ha _ eq_refl) as [_ ->].
    rewrite sql_Pluck_law, list_elem_of_fmap. unfold gorm_view, table_view, decoded in Hk. rewrite lookup_omap in Hk.
    destruct (sql_table _ _ !! k) as [data|] eqn:E; [|done]. exists (k, data). split; [done|].
    by apply elem_of_map_to_list.
Defined.

(** ** Batches *)

Lemma marshal_rows_decoded kvs rows (m : gmap string (list Byte.byte)) :
  marshal_rows (codec := codec) kvs = Ok rows ->
  rows.*1 = kvs.*1 /\
  decoded codec (foldl (fun m kv => <[fst kv := snd kv]> m) m rows) =
    foldl (fun m kv => <[fst kv := snd kv]> m) (decoded codec m) kvs.
Proof.
  revert rows m. induction kvs as [|[k v] kvs IH]; intros rows m; simpl; [by intros [= <-]|].
  destruct (Marshal codec v) as [data|] eqn:Em; [|done].
  destruct (marshal_rows kvs) as [rows'|] eqn:E; [|done]. simpl. intros [= <-]. simpl.
  destruct (IH rows' (<[k := data]> m) eq_refl) as [H1 H2]. split; [by f_equal|].
  rewrite H2. f_equal. by apply decoded_insert.
Qed.

Lemma tx_exec_ok f (tx tx' : conn D) : tx_exec f tx = (tx', None) -> server tx' = f (server tx).
Proof.
  unfold tx_exec. pose proof (call_answer (fun d => (f d, tt)) tx) as Ha.
  destruct (call _ tx) as [c [[u|e] late]]; simpl in *; [|done]. intros [= <-]. by destruct (Ha u eq_refl).
Qed.

(** The deletes, then the sets. *)
Definition gorm_batch_result b (m : gmap string T) : gmap string T :=
  gb_sets b ∪ fold_left (fun m k => delete k m) (gb_deletes b) m.

Lemma gormBatch_body_ok order table b (c tx : conn D) :
  (forall m, order m ≡ₚ map_to_list m) ->
  gormBatch_body (codec := codec) order table b c = (tx, None) ->
  table_view table (server tx) = gorm_batch_result b (table_view table (server c)).
Proof.
  intros Hord. unfold gormBatch_body. destruct (tx_deletes table b c) as [c1 [e|]] eqn:E1; [done|]. intros E2.
  assert (table_view table (server c1) =
    fold_left (fun m k => delete k m) (gb_deletes b) (table_view table (server c))) as H1.
  { unfold tx_deletes in E1. destruct (decide (gb_deletes b = [])) as [->|]; [by injection E1 as ->|].
    apply tx_exec_ok in E1. unfold table_view. rewrite E1, sql_DeleteIn_law. apply decoded_deletes. }
  unfold gorm_batch_result. rewrite <- H1. unfold tx_sets in E2.
  destruct (decide (gb_sets b = ∅)) as [->|]; [injection E2 as ->; by rewrite (left_id_L ∅ (∪))|].
  destruct (marshal_rows _) as [rows|] eqn:Em; [|done]. apply tx_exec_ok in E2. unfold table_view. rewrite E2.
  destruct (marshal_rows_decoded _ _ (sql_table table (server c1)) Em) as [Hk Hd].
  rewrite sql_Upsert_law by (rewrite Hk, Hord; apply NoDup_fst_map_to_list).
  rewrite Hd. apply foldl_insert_union, Hord.
Qed.

(** A commit is atomic: it takes effect as a whole or not at all, and as a whole
    if it succeeds. *)
Theorem gormBatch_Commit_atomic order cx b s s' err :
  (forall m, order m ≡ₚ map_to_list m) ->
  gormBatch_Commit order cx b s = (s', err) ->
  (err = None -> gorm_view s' = gorm_batch_result b (gorm_view s)) /\
  (gorm_view s' = gorm_view s \/ gorm_view s' = gorm_batch_result b (gorm_view s)).
Proof.
  intros Hord. unfold gormBatch_Commit. destruct (cx 0%nat); [intros [= <- <-]; naive_solver|].
  destruct (sql_Transaction _ _) as [c e] eqn:E. intros [= <- <-].
  apply sql_Transaction_law in E as [(c0 & tx & H0 & Hb & Hc)|[He Hc]]; unfold gorm_view; simpl; rewrite Hc.
  - apply gormBatch_body_ok in Hb; [|done]. rewrite Hb, H0. tauto.
  - split; [|by left]. by destruct e.
Qed.

End GormStoreLaws.

(** ** An instance: tables in memory *)

Definition sql_map : Type := gmap string (gmap string (list Byte.byte)).

Definition sm_table (t : string) (d : sql_map) : gmap string (list Byte.byte) :=
  default ∅ ((d : gmap string (gmap string (list Byte.byte))) !! t).
Definition sm_update (t : string) (f : gmap string (list Byte.byte) -> gmap string (list Byte.byte)) (d : sql_map)
    : sql_map := <[t := f (sm_table t d)]> (d : gmap string (gmap string (list Byte.byte))).

(** The body works on a copy, which replaces the state at the commit. *)
Definition sm_Transaction (body : conn sql_map -> conn sql_map * option error) (c : conn sql_map)
    : conn sql_map * option error :=
  let '(c, (begin, _)) := call (fun d => (d, tt)) c in
  match begin with
  | Err e => (c, Some e)
  | Ok _ =>
      let '(tx, err) := body c in
      match err with
      | Some e => (mkConnection (server c) (outcomes tx), Some e)
      | None =>
          let '(c, (commit, _)) := call (fun _ => (server tx, tt)) (mkConnection (server c) (outcomes tx)) in
          (c, match commit with Err e => Some e | Ok _ => None end)
      end
  end.

#[export] Instance sql_map_DB : SqlDB sql_map := {
  sql_HasTable := fun t d => bool_decide (is_Some ((d : gmap string (gmap string (list Byte.byte))) !! t));
  sql_AutoMigrate := fun t => sm_update t id;
  sql_First := fun t k d => sm_table t d !! k;
  sql_Upsert := fun t _ rows => sm_update t (fun m => foldl (fun m kv => <[fst kv := snd kv]> m) m rows);
  sql_Pluck := fun t d => (map_to_list (sm_table t d)).*1;
  sql_DeleteIn := fun t ks => sm_update t (fun m => fold_left (fun m k => delete k m) ks m);
  sql_Transaction := sm_Transaction;
}.

Lemma sm_update_table t f d : sm_table t (sm_update t f d) = f (sm_table t d).
Proof. unfold sm_update. unfold sm_table at 1. by rewrite lookup_insert_eq. Qed.

#[export] Instance sql_map_lawful : LawfulSqlDB sql_map.
Proof.
  refine {| sql_table := sm_table |}; simpl; try done.
  - intros. apply sm_update_table.
  - intros. apply sm_update_table.
  - intros t d. split; [|by rewrite sm_update_table]. unfold sm_update. by rewrite lookup_insert_eq.
  - intros body c c' err. unfold sm_Transaction.
    pose proof (call_read (fun d : sql_map => (d, tt)) c eq_refl) as Hs.
    destruct (call _ c) as [c1 [[u|e] l1]]; simpl in Hs; [|intros [= <- <-]; naive_solver].
    destruct (body c1) as [tx [e|]] eqn:Eb; [intros [= <- <-]; naive_solver|].
    set (f := fun _ : sql_map => (server tx, tt)). set (c2 := mkConnection _ _).
    pose proof (call_server f c2) as Hc. pose proof (call_answer f c2) as Ha.
    destruct (call f c2) as [c3 [[u'|e] l2]]; simpl in Hc, Ha; intros [= <- <-].
    + left. exists c1, tx. by destruct (Ha u' eq_refl).
    + destruct Hc as [Hc|Hc]; [right; split; [done|congruence]|left; by exists c1, tx].
  - intros body c Hc. unfold sm_Transaction. rewrite call_on_time by done. simpl.
    assert (mkConnection (server c) [] = c) as -> by (destruct c; simpl in *; by subst).
    destruct (body c) as [tx [e|]]; [done|]. intros Ho. by rewrite call_on_time by done.
Defined.
