(* ===== verification/StoreProps.v ===== *)
(** * StoreProps: what the batches of the stores have in common

    The batches of the in-memory, the redis and the gorm store, driven through
    the interface [Batcher], have one specification: the queued operations one
    by one. It holds when every key is queued once; for a key that is both set
    and deleted the stores disagree, since the commits of the in-memory and the
    gorm store apply the deletes first, and that of the redis store the sets. *)

From S2P Require Import Prelude Remote RedisServer Store InMemoryCache Codec RedisStore GormStore.

Section Run.
Context {S T : Type}.

(** The calls of a client: [Batch], a [Set] or [Delete] per operation,
    [Commit]. *)
Definition queue_op (bo : Batcher S T) (b : bt bo) (o : batch_op) : bt bo :=
  match o with
  | BSet k v => fst (batch_Set bo Background k v b)
  | BDelete k => fst (batch_Delete bo Background k b)
  end.

Definition batch_run (bo : Batcher S T) (ops : list batch_op) (cx : ctx) (s : S) : S * option error :=
  match batch_Batch bo Background s with
  | Err e => (s, Some e)
  | Ok b => batch_Commit bo cx (foldl (queue_op bo) b ops) s
  end.

(** A batch is atomic and sequential: a commit that succeeds has the effect of
    its operations one by one, one that fails has it or no effect; it succeeds
    under a live context when the store is [ready] for the operations. *)
Definition batch_atomic (view : S -> gmap string T) (ready : list batch_op -> S -> Prop) (bo : Batcher S T) : Prop :=
  forall ops cx s s' err, NoDup (batch_key <$> ops) -> batch_run bo ops cx s = (s', err) ->
    (cx = Background -> ready ops s -> err = None) /\
    (err = None -> view s' = foldl apply_op (view s) ops) /\
    (view s' = view s \/ view s' = foldl apply_op (view s) ops).

End Run.

Section Queued.
Context {T : Type}.

(** A key that is queued once is not both set and deleted. *)
Lemma queued_disjoint (ops : list (@batch_op T)) k :
  NoDup (batch_key <$> ops) -> k ∈ b_deletes (queued ops) -> b_sets (queued ops) !! k = None.
Proof.
  induction ops as [|o ops IH] using rev_ind; [done|]. rewrite fmap_app. simpl.
  intros (Hnd & Hd & _)%NoDup_app. rewrite queued_snoc.
  assert (batch_key o ∉ batch_key <$> ops) as Hn by (intros ?; eapply Hd; set_solver).
  pose proof (queued_keys ops) as Hk. destruct o as [k' v|k']; simpl in *.
  - intros Hin. rewrite lookup_insert_ne; [by apply IH|]. intros ->. apply Hn, Hk. by left.
  - intros [Hin|Hin]%elem_of_app; [by apply IH|]. apply list_elem_of_singleton in Hin as ->.
    apply eq_None_not_Some. intros Hs. apply Hn, Hk. by right.
Qed.

(** What is set was queued. *)
Lemma queued_values (ops : list (@batch_op T)) k v : b_sets (queued ops) !! k = Some v -> BSet k v ∈ ops.
Proof.
  induction ops as [|o ops IH] using rev_ind; [done|]. rewrite queued_snoc, elem_of_app, list_elem_of_singleton.
  destruct o as [k' v'|k']; simpl; [|by left; apply IH].
  destruct (decide (k' = k)) as [->|]; [rewrite lookup_insert_eq; intros [= ->]; by right|].
  rewrite lookup_insert_ne by done. by left; apply IH.
Qed.

(** Deletes first. *)
Lemma queued_result (ops : list (@batch_op T)) (m : gmap string T) :
  NoDup (batch_key <$> ops) ->
  b_sets (queued ops) ∪ fold_left (fun m k => delete k m) (b_deletes (queued ops)) m = foldl apply_op m ops.
Proof.
  intros Hnd. pose proof (inMemoryBatch_Commit_sequential Background ops (mkStore m) Hnd) as E.
  unfold inMemoryBatch_Commit in E. simpl in E. rewrite fold_insert_union in E. congruence.
Qed.

(** Sets first. *)
Lemma queued_result' (ops : list (@batch_op T)) (m : gmap string T) :
  NoDup (batch_key <$> ops) ->
  fold_left (fun m k => delete k m) (b_deletes (queued ops)) (b_sets (queued ops) ∪ m) = foldl apply_op m ops.
Proof.
  intros Hnd. rewrite <- queued_result by done. apply map_eq. intros k.
  rewrite lookup_fold_delete. destruct (decide (k ∈ b_deletes (queued ops))) as [Hin|Hin].
  - rewrite lookup_union_r by (by apply queued_disjoint). by rewrite lookup_fold_delete, decide_True.
  - rewrite !lookup_union. by rewrite lookup_fold_delete, decide_False.
Qed.

End Queued.

Section Batches.
Context {R D T : Type} {codec : Codec T} `{!LawfulCodec codec}.
Context `{!RedisKV R (list Byte.byte), !LawfulRedisKV R (list Byte.byte), !SqlDB D, !LawfulSqlDB D}.

Definition batcher_of {S : Type} `{Hs : !Store S T} : Batcher S T :=
  match store_Batcher (S := S) (T := T) with
  | Some bo => bo
  | None => mkBatcher S T unit (fun _ _ => Err ErrNotFound) (fun _ _ _ b => (b, None)) (fun _ _ b => (b, None))
              (fun _ _ s => (s, None))
  end.

Lemma redis_queued ops :
  foldl (queue_op (batcher_of (S := RedisStore R T codec))) (mkRBatch ∅ []) ops =
    mkRBatch (b_sets (queued ops)) (b_deletes (queued ops)).
Proof.
  induction ops as [|o ops IH] using rev_ind; [done|]. rewrite foldl_app, queued_snoc, IH. by destruct o.
Qed.

Lemma gorm_queued ops :
  foldl (queue_op (batcher_of (S := GormStore D T codec))) (mkGBatch ∅ []) ops =
    mkGBatch (b_sets (queued ops)) (b_deletes (queued ops)).
Proof.
  induction ops as [|o ops IH] using rev_ind; [done|]. rewrite foldl_app, queued_snoc, IH. by destruct o.
Qed.

Lemma inmemory_queued ops :
  foldl (queue_op (batcher_of (S := InMemoryStore T))) (mkBatch ∅ []) ops = queued ops.
Proof.
  induction ops as [|o ops IH] using rev_ind; [done|]. rewrite foldl_app, queued_snoc, IH. by destruct o.
Qed.

(** The values can be encoded. *)
Definition encodable (ops : list (@batch_op T)) : Prop :=
  forall k v, BSet k v ∈ ops -> exists data, Marshal codec v = Ok data.

Lemma pipe_sets_ok kvs : (forall k v, (k, v) ∈ kvs -> exists data, Marshal codec v = Ok data) ->
  exists cmds, pipe_sets (codec := codec) kvs = Ok cmds.
Proof.
  induction kvs as [|[k v] kvs IH]; intros H; simpl; [by eexists|].
  destruct (H k v) as [data ->]; [by left|]. destruct IH as [cmds ->]; [|by eexists].
  intros k' v' ?. apply (H k'). by right.
Qed.

Lemma marshal_rows_ok kvs : (forall k v, (k, v) ∈ kvs -> exists data, Marshal codec v = Ok data) ->
  exists rows, marshal_rows (codec := codec) kvs = Ok rows.
Proof.
  induction kvs as [|[k v] kvs IH]; intros H; simpl; [by eexists|].
  destruct (H k v) as [data ->]; [by left|]. destruct IH as [rows ->]; [|by eexists].
  intros k' v' ?. apply (H k'). by right.
Qed.

Lemma queued_encodable ops k v : encodable ops -> (k, v) ∈ map_to_list (b_sets (queued ops)) ->
  exists data, Marshal codec v = Ok data.
Proof. intros H Hin%elem_of_map_to_list. by eapply H, queued_values. Qed.

(** The connection answers every call. *)
Definition redis_ready (ops : list batch_op) (s : RedisStore R T codec) : Prop :=
  outcomes (rs_client s) = [] /\ encodable ops.
Definition gorm_ready (ops : list batch_op) (s : GormStore D T codec) : Prop :=
  outcomes (gs_db s) = [] /\ encodable ops.

Lemma redis_commit_ready ops s : redis_ready ops s ->
  snd (redisBatch_Commit map_to_list Background (mkRBatch (b_sets (queued ops)) (b_deletes (queued ops))) s) = None.
Proof.
  intros [Ho He]. unfold redisBatch_Commit. simpl.
  destruct (pipe_sets_ok (map_to_list (b_sets (queued ops)))) as [cmds ->]; [by intros; eapply queued_encodable|].
  by rewrite call_on_time.
Qed.

Lemma tx_exec_on_time f (tx : conn D) : outcomes tx = [] -> exists tx', tx_exec f tx = (tx', None) /\ outcomes tx' = [].
Proof. intros H. unfold tx_exec. rewrite call_on_time by done. by eexists. Qed.

Lemma gorm_commit_ready ops s : gorm_ready ops s ->
  snd (gormBatch_Commit map_to_list Background (mkGBatch (b_sets (queued ops)) (b_deletes (queued ops))) s) = None.
Proof.
  intros [Ho He]. unfold gormBatch_Commit. simpl. set (body := gormBatch_body _ _ _).
  assert (exists tx, body (gs_db s) = (tx, None) /\ outcomes tx = []) as (tx & Eb & Et).
  { unfold body, gormBatch_body, tx_deletes, tx_sets. simpl.
    assert (forall c : conn D, outcomes c = [] -> exists tx,
      (if decide (b_sets (queued ops) = ∅) then (c, None)
       else match marshal_rows (codec := codec) (map_to_list (b_sets (queued ops))) with
            | Err e => (c, Some e) | Ok kvs => tx_exec (sql_Upsert (gs_tableName s) 100 kvs) c end) = (tx, None) /\
      outcomes tx = []) as Hsets.
    { intros c Hc. destruct (decide _); [by exists c|].
      destruct (marshal_rows_ok (map_to_list (b_sets (queued ops)))) as [rows ->];
        [by intros; eapply queued_encodable|]. by apply tx_exec_on_time. }
    destruct (decide (b_deletes (queued ops) = [])); [by apply Hsets|].
    edestruct tx_exec_on_time as (tx & -> & Ht); [exact Ho|]. by apply Hsets. }
  pose proof (sql_Transaction_error body (gs_db s) Ho) as He'. rewrite Eb in He'. specialize (He' Et).
  destruct (sql_Transaction body (gs_db s)) as [c err]. simpl in *. by subst.
Qed.

(** C16. The batches of the three stores mean the same: over any redis server
    and any database, whatever the calls meet, committing operations that queue
    every key once has, when it succeeds, exactly the effect of the operations
    one by one, and when it fails that effect or none. It succeeds if the values
    can be encoded and the calls are answered. *)
Theorem batches_atomic :
  batch_atomic store_items (fun _ _ => True) (batcher_of (S := InMemoryStore T)) /\
  batch_atomic (redis_view codec) redis_ready (batcher_of (S := RedisStore R T codec)) /\
  batch_atomic gorm_view gorm_ready (batcher_of (S := GormStore D T codec)).
Proof.
  split_and!; intros ops cx s s' err Hnd; unfold batch_run.
  - simpl. rewrite inmemory_queued, inMemoryBatch_Commit_sequential by done. intros [= <- <-]. naive_solver.
  - cbn -[redisBatch_Commit queue_op]. rewrite redis_queued. intros E.
    split; [intros -> Hr; apply redis_commit_ready in Hr; by rewrite E in Hr|]. apply redisBatch_Commit_atomic in E; [|done]. unfold redis_batch_result in E. simpl in E.
    by rewrite queued_result' in E.
  - cbn -[gormBatch_Commit queue_op]. rewrite gorm_queued. intros E.
    split; [intros -> Hr; apply gorm_commit_ready in Hr; by rewrite E in Hr|]. apply gormBatch_Commit_atomic in E; [|done]. unfold gorm_batch_result in E. simpl in E.
    by rewrite queued_result in E.
Qed.

End Batches.

(** ** Witnesses *)

Definition demo_redis : RedisStore (redis_map (list Byte.byte)) goval (ByteCodec PtrBytes) :=
  mkRedisStore _ (mkConnection (mkRedisMap 0 {["b" := ([Byte.x02], None)]}) []) Second.
Definition demo_gorm : GormStore sql_map goval (ByteCodec PtrBytes) :=
  mkGormStore _ (mkConnection {["t" := {["b" := [Byte.x02]]}]} []) "t" Second.
Definition demo_ops : list (@batch_op goval) := [BSet "a" (GoBytes [Byte.x01]); BDelete "b"].

(** Both stores take the batch, and hold the same afterwards. *)
Lemma batches_atomic_witness :
  snd (batch_run batcher_of demo_ops Background demo_redis) = None /\
  redis_view _ (fst (batch_run batcher_of demo_ops Background demo_redis)) = {["a" := GoBytes [Byte.x01]]} /\
  gorm_view (fst (batch_run batcher_of demo_ops Background demo_gorm)) = {["a" := GoBytes [Byte.x01]]}.
Proof.
  destruct (batches_atomic (R := redis_map (list Byte.byte)) (D := sql_map) (codec := ByteCodec PtrBytes))
    as (_ & Hr & Hg).
  assert (encodable (codec := ByteCodec PtrBytes) demo_ops) as He.
  { intros k v [[= -> ->]|[?|[]%elem_of_nil]%elem_of_cons]%elem_of_cons; [by eexists|done]. }
  assert (NoDup (batch_key <$> demo_ops)) as Hnd by decide_closed.
  destruct (Hr demo_ops Background demo_redis _ _ Hnd (surjective_pairing _)) as (H1 & H2 & _).
  destruct (Hg demo_ops Background demo_gorm _ _ Hnd (surjective_pairing _)) as (G1 & G2 & _).
  split; [by apply H1|]. rewrite (H2 (H1 eq_refl (conj eq_refl He))), (G2 (G1 eq_refl (conj eq_refl He))).
  split; vm_compute; reflexivity.
Defined.

(** A key that is set and deleted in one batch: in the order delete, set the
    redis store loses the write; in the order set, delete the other stores keep
    the value. *)
Theorem batches_differ :
  let run {S} `{Store S goval} ops s := batch_run (batcher_of (S := S)) ops Background s in
  let v := GoBytes [Byte.x01] in
  redis_view _ (fst (run [BDelete "k"; BSet "k" v] demo_redis)) !! "k" = None /\
  gorm_view (fst (run [BDelete "k"; BSet "k" v] demo_gorm)) !! "k" = Some v /\
  redis_view _ (fst (run [BSet "k" v; BDelete "k"] demo_redis)) !! "k" = None /\
  gorm_view (fst (run [BSet "k" v; BDelete "k"] demo_gorm)) !! "k" = Some v.
Proof. split_and!; vm_compute; reflexivity. Qed.
