(* ===== verification/SyncBus.v ===== *)
(** * SyncBus: the invalidation bus

    Models [src/syncbus/syncbus.go]: the interface [Bus] as a type class, and
    [InMemoryBus] with its subscriptions, its publish deduplication and its
    quorum publishing. Channels are a heap of buffered channels; the sharded
    map of the foundation library is a parameter with its documented laws. *)

From S2P Require Import Prelude Merge.

(** ** Events and publish options *)

Inductive Scope := ScopeLocal | ScopeGlobal.

Record PublishOptions := mkPubOpts {
  po_Region : string;
  po_VectorClock : option VectorClock;
  po_Scope : Scope;
}.

Definition PublishOption : Type := PublishOptions -> PublishOptions.

Definition WithRegion (region : string) : PublishOption := fun o =>
  mkPubOpts region (po_VectorClock o) (po_Scope o).
Definition WithVectorClock (vc : option VectorClock) : PublishOption := fun o =>
  mkPubOpts (po_Region o) vc (po_Scope o).
Definition WithScope (s : Scope) : PublishOption := fun o =>
  mkPubOpts (po_Region o) (po_VectorClock o) s.

Definition apply_PublishOptions (opts : list PublishOption) : PublishOptions :=
  foldl (fun o f => f o) (mkPubOpts "" None ScopeLocal) opts.

Record Event := mkEvent {
  evt_Key : string;
  evt_Region : string;
  evt_VectorClock : option VectorClock;
  evt_Scope : Scope;
}.

(** What a receive on a channel does. *)
Inductive recv :=
| Received (e : Event)
| RecvClosed
| RecvBlocks.

(** ** The interface

    A channel is its identity. [bus_recv] is the receive operation on a
    channel handed out by the bus. *)
Class Bus (B : Type) := {
  bus_Publish : ctx -> string -> list PublishOption -> B -> B * option error;
  bus_PublishAndAwait : ctx -> string -> Z -> list PublishOption -> B -> B * option error;
  bus_PublishAndAwaitTopology : ctx -> string -> Z -> list PublishOption -> B -> B * option error;
  bus_Subscribe : ctx -> string -> B -> B * res nat;
  bus_Unsubscribe : ctx -> string -> nat -> B -> B * option error;
  bus_RevokeLease : ctx -> string -> B -> B * option error;
  bus_SubscribeLease : ctx -> string -> B -> B * res nat;
  bus_UnsubscribeLease : ctx -> string -> nat -> B -> B * option error;
  bus_IsHealthy : B -> bool;
  bus_Peers : B -> list string;
  bus_recv : nat -> B -> B * recv;
}.

(** ** The sharded map of the foundation library

    [Compute] replaces the value of a key by what its function makes of the
    current one; the map behaves like a finite map. *)
Class SafeMap (M : Type -> Type) := {
  sm_New : forall {V}, M V;
  sm_Get : forall {V}, string -> M V -> option V;
  sm_Compute : forall {V}, string -> (option V -> V) -> M V -> M V;
  sm_Delete : forall {V}, string -> M V -> M V;
}.

Class LawfulSafeMap (M : Type -> Type) `{SafeMap M} := {
  sm_Get_New : forall V k, sm_Get k (sm_New (V := V)) = None;
  sm_Get_Compute : forall V k k' f (m : M V),
    sm_Get k' (sm_Compute k f m) = if decide (k = k') then Some (f (sm_Get k m)) else sm_Get k' m;
  sm_Get_Delete : forall V k k' (m : M V),
    sm_Get k' (sm_Delete k m) = if decide (k = k') then None else sm_Get k' m;
}.

(** ** InMemoryBus *)

Record chan := mkChan { buffer : list Event; closed : bool }.

(** The capacity [make(chan Event, 1)]. *)
Definition chan_cap : nat := 1.

(** [watchers] are the goroutines of [Subscribe] that wait for their context;
    [panicked] is set by a send on or a close of a closed channel. *)
Record InMemoryBus (M : Type -> Type) := mkBus {
  subs : M (list nat);
  pending : M bool;
  published : Z;
  delivered : Z;
  chans : gmap nat chan;
  next_chan : nat;
  watchers : list (string * nat);
  panicked : bool;
}.
Arguments mkBus {M} _ _ _ _ _ _ _ _.
Arguments subs {M} _.
Arguments pending {M} _.
Arguments published {M} _.
Arguments delivered {M} _.
Arguments chans {M} _.
Arguments next_chan {M} _.
Arguments watchers {M} _.
Arguments panicked {M} _.

Section InMemoryBus.
Context {M : Type -> Type} `{!SafeMap M}.
Implicit Types b : InMemoryBus M.

Definition NewInMemoryBus : InMemoryBus M := mkBus sm_New sm_New 0 0 ∅ 0 [] false.

Definition set_subs b s := mkBus s (pending b) (published b) (delivered b) (chans b)
  (next_chan b) (watchers b) (panicked b).
Definition set_pending b p := mkBus (subs b) p (published b) (delivered b) (chans b)
  (next_chan b) (watchers b) (panicked b).
Definition set_chans b c := mkBus (subs b) (pending b) (published b) (delivered b) c
  (next_chan b) (watchers b) (panicked b).
Definition count_published b := mkBus (subs b) (pending b) (u64 (published b + 1)) (delivered b)
  (chans b) (next_chan b) (watchers b) (panicked b).
Definition count_delivered b := mkBus (subs b) (pending b) (published b) (u64 (delivered b + 1))
  (chans b) (next_chan b) (watchers b) (panicked b).
Definition panic b := mkBus (subs b) (pending b) (published b) (delivered b) (chans b)
  (next_chan b) (watchers b) true.

Definition InMemoryBus_IsHealthy b : bool := true.
Definition InMemoryBus_Peers b : list string := [].

(** The non-blocking send [select { case ch <- evt: ... default: }]: whether
    the event was sent. *)
Definition try_send (ch : nat) (evt : Event) b : InMemoryBus M * bool :=
  match chans b !! ch with
  | None => (b, false)
  | Some c =>
      if closed c then (panic b, false)
      else if (length (buffer c) <? chan_cap)%nat then
        (set_chans b (<[ch := mkChan (buffer c ++ [evt]) false]> (chans b)), true)
      else (b, false)
  end.

(** The delivery loop over the subscribed channels; poll [i] of the context
    guards the next channel. The result is the context's error, or the number
    of channels the event was sent to. *)
Fixpoint deliver (cx : ctx) (i : nat) (evt : Event) (chs : list nat) (n : Z) b
    : InMemoryBus M * res Z :=
  match chs with
  | [] => (b, Ok n)
  | ch :: chs =>
      match cx i with
      | Some e => (b, Err e)
      | None =>
          let '(b, sent) := try_send ch evt b in
          if sent then deliver cx (S i) evt chs (n + 1) (count_delivered b)
          else deliver cx (S i) evt chs n b
      end
  end.

(** The deduplication step: marks the key as pending, and tells whether it
    already was. *)
Definition mark_pending (key : string) b : InMemoryBus M * bool :=
  (set_pending b (sm_Compute key (fun _ => true) (pending b)),
   match sm_Get key (pending b) with Some _ => true | None => false end).

Definition unmark_pending (key : string) b : InMemoryBus M :=
  set_pending b (sm_Delete key (pending b)).

Definition event_of (key : string) (opts : list PublishOption) : Event :=
  let o := apply_PublishOptions opts in
  mkEvent key (po_Region o) (po_VectorClock o) ScopeLocal.

(** The part of [Publish] that runs while the key is marked. *)
Definition publish_body (cx : ctx) (key : string) (opts : list PublishOption) b
    : InMemoryBus M * option error :=
  match sm_Get key (subs b) with
  | None | Some [] => (b, None)
  | Some chs =>
      let '(b, r) := deliver cx 1 (event_of key opts) chs 0 (count_published b) in
      (b, match r with Err e => Some e | Ok _ => None end)
  end.

Definition InMemoryBus_Publish (cx : ctx) (key : string) (opts : list PublishOption) b
    : InMemoryBus M * option error :=
  match cx 0%nat with
  | Some e => (b, Some e)
  | None =>
      let '(b, alreadyPending) := mark_pending key b in
      if alreadyPending then (b, None)
      else
        let '(b, err) := publish_body cx key opts b in
        (unmark_pending key b, err)
  end.

Definition await_body (cx : ctx) (key : string) (replicas : Z) (opts : list PublishOption) b
    : InMemoryBus M * option error :=
  let chs := default [] (sm_Get key (subs b)) in
  if Z.of_nat (length chs) <? replicas then (b, Some ErrQuorumNotSatisfied)
  else
    let '(b, r) := deliver cx 1 (event_of key opts) chs 0 b in
    match r with
    | Err e => (b, Some e)
    | Ok n => if n <? replicas then (b, Some ErrQuorumNotSatisfied) else (count_published b, None)
    end.

Definition InMemoryBus_PublishAndAwait (cx : ctx) (key : string) (replicas : Z)
    (opts : list PublishOption) b : InMemoryBus M * option error :=
  let replicas := if replicas <=? 0 then 1 else replicas in
  match cx 0%nat with
  | Some e => (b, Some e)
  | None =>
      let '(b, alreadyPending) := mark_pending key b in
      if alreadyPending then (b, None)
      else
        let '(b, err) := await_body cx key replicas opts b in
        (unmark_pending key b, err)
  end.

Definition InMemoryBus_PublishAndAwaitTopology (cx : ctx) (key : string) (minZones : Z)
    (opts : list PublishOption) b : InMemoryBus M * option error :=
  InMemoryBus_PublishAndAwait cx key minZones opts b.

Definition InMemoryBus_Subscribe (cx : ctx) (key : string) b : InMemoryBus M * res nat :=
  match cx 0%nat with
  | Some e => (b, Err e)
  | None =>
      let ch := next_chan b in
      (mkBus (sm_Compute key (fun v => default [] v ++ [ch]) (subs b)) (pending b)
         (published b) (delivered b) (<[ch := mkChan [] false]> (chans b)) (S ch)
         ((key, ch) :: watchers b) (panicked b), Ok ch)
  end.

Definition close_chan (ch : nat) b : InMemoryBus M :=
  match chans b !! ch with
  | None => b
  | Some c =>
      if closed c then panic b else set_chans b (<[ch := mkChan (buffer c) true]> (chans b))
  end.

Definition InMemoryBus_Unsubscribe (cx : ctx) (key : string) (ch : nat) b
    : InMemoryBus M * option error :=
  match cx 0%nat with
  | Some e => (b, Some e)
  | None =>
      let l := default [] (sm_Get key (subs b)) in
      match index_of ch l with
      | Some i =>
          (close_chan ch (set_subs b (sm_Compute key (fun v => swap_remove i (default [] v)) (subs b))),
           None)
      | None => (set_subs b (sm_Compute key (fun v => default [] v) (subs b)), None)
      end
  end.

(** The goroutine a subscription started: once its context is done it
    unsubscribes. *)
Definition watcher_fires (key : string) (ch : nat) b : InMemoryBus M :=
  fst (InMemoryBus_Unsubscribe Background key ch
    (mkBus (subs b) (pending b) (published b) (delivered b) (chans b) (next_chan b)
       (filter (fun w => w <> (key, ch)) (watchers b)) (panicked b))).

Definition chan_recv (ch : nat) b : InMemoryBus M * recv :=
  match chans b !! ch with
  | None => (b, RecvBlocks)
  | Some c =>
      match buffer c with
      | e :: q => (set_chans b (<[ch := mkChan q (closed c)]> (chans b)), Received e)
      | [] => (b, if closed c then RecvClosed else RecvBlocks)
      end
  end.

Definition lease_key (id : string) : string := ("lease:" ++ id)%string.

Definition InMemoryBus_RevokeLease (cx : ctx) (id : string) b : InMemoryBus M * option error :=
  InMemoryBus_Publish cx (lease_key id) [] b.
Definition InMemoryBus_SubscribeLease (cx : ctx) (id : string) b : InMemoryBus M * res nat :=
  InMemoryBus_Subscribe cx (lease_key id) b.
Definition InMemoryBus_UnsubscribeLease (cx : ctx) (id : string) (ch : nat) b
    : InMemoryBus M * option error :=
  InMemoryBus_Unsubscribe cx (lease_key id) ch b.

Definition InMemoryBus_Metrics b : Z * Z := (published b, delivered b).

#[export] Instance InMemoryBus_Bus : Bus (InMemoryBus M) := {
  bus_Publish := InMemoryBus_Publish;
  bus_PublishAndAwait := InMemoryBus_PublishAndAwait;
  bus_PublishAndAwaitTopology := InMemoryBus_PublishAndAwaitTopology;
  bus_Subscribe := InMemoryBus_Subscribe;
  bus_Unsubscribe := InMemoryBus_Unsubscribe;
  bus_RevokeLease := InMemoryBus_RevokeLease;
  bus_SubscribeLease := InMemoryBus_SubscribeLease;
  bus_UnsubscribeLease := InMemoryBus_UnsubscribeLease;
  bus_IsHealthy := InMemoryBus_IsHealthy;
  bus_Peers := InMemoryBus_Peers;
  bus_recv := chan_recv;
}.

(** The channels subscribed to a key, in order. *)
Definition subscribed b (k : string) : list nat := default [] (sm_Get k (subs b)).

Definition idle b (ch : nat) : bool :=
  match chans b !! ch with Some c => bool_decide (buffer c = []) | None => false end.

(** How many of the channels can take an event. *)
Definition idle_count b (chs : list nat) : Z := Z.of_nat (length (List.filter (idle b) chs)).

End InMemoryBus.

(** ** Invariant

    A subscribed channel belongs to one key, is open, and buffers at most one
    event, whose key is that key; channels are never reused and nothing ever
    panics. *)
Section BusLaws.
Context {M : Type -> Type} `{!SafeMap M, !LawfulSafeMap M}.
Implicit Types b : InMemoryBus M.

Record sub_ok b (k : string) (ch : nat) : Prop := {
  sub_open : exists c, chans b !! ch = Some c /\ closed c = false /\
    (length (buffer c) <= chan_cap)%nat /\ Forall (fun e => evt_Key e = k) (buffer c);
}.

Record bus_inv b : Prop := {
  bi_nodup : forall k, NoDup (subscribed b k);
  bi_owner : forall k k' ch, ch ∈ subscribed b k -> ch ∈ subscribed b k' -> k = k';
  bi_sub : forall k ch, ch ∈ subscribed b k -> sub_ok b k ch;
  bi_fresh : forall ch, is_Some (chans b !! ch) -> (ch < next_chan b)%nat;
  bi_panic : panicked b = false;
}.

(** The parts of the state the invariant reads. *)
Lemma bus_inv_ext b b' :
  (forall k, subscribed b' k = subscribed b k) -> chans b' = chans b ->
  next_chan b' = next_chan b -> panicked b' = panicked b -> bus_inv b -> bus_inv b'.
Proof.
  intros Hs Hc Hn Hp [H1 H2 H3 H4 H5]. split.
  - intros k. by rewrite Hs.
  - intros k k' ch. rewrite !Hs. apply H2.
  - intros k ch. rewrite Hs. intros [Ho]%H3. split. by rewrite Hc.
  - intros ch. rewrite Hc, Hn. apply H4.
  - by rewrite Hp.
Qed.

(** A change of one channel that keeps it acceptable to its subscription. *)
Lemma bus_inv_chan b ch c c' :
  bus_inv b -> chans b !! ch = Some c ->
  (forall k, ch ∈ subscribed b k ->
     closed c' = false /\ (length (buffer c') <= chan_cap)%nat /\
     Forall (fun e => evt_Key e = k) (buffer c')) ->
  bus_inv (set_chans b (<[ch := c']> (chans b))).
Proof.
  intros [H1 H2 H3 H4 H5] Hc Hok. split; simpl; try done.
  - intros k ch' Hin. destruct (H3 k ch' Hin) as [Ho]. split. simpl.
    destruct (decide (ch = ch')) as [<-|].
    + rewrite lookup_insert_eq. destruct (Hok k Hin) as (?&?&?). by exists c'.
    + by rewrite lookup_insert_ne.
  - intros ch' Hs. destruct (decide (ch = ch')) as [<-|].
    + apply H4. by exists c.
    + rewrite lookup_insert_ne in Hs by done. by apply H4.
Qed.

(** ** Delivery *)

Lemma try_send_spec ch k evt b c :
  bus_inv b -> ch ∈ subscribed b k -> chans b !! ch = Some c ->
  try_send ch evt b =
    if bool_decide (buffer c = [])
    then (set_chans b (<[ch := mkChan [evt] false]> (chans b)), true) else (b, false).
Proof.
  intros H Hin Hc. destruct (bi_sub _ H k ch Hin) as [(c'&Hc'&Ho&Hl&_)].
  unfold try_send. rewrite Hc in Hc'. simplify_eq. rewrite Hc, Ho.
  destruct (buffer c') as [|e [|e' q]]; simpl in *; [done|done|unfold chan_cap in Hl; lia].
Qed.

(** Sending to one idle subscriber keeps the invariant. *)
Lemma send_inv b k ch c evt :
  bus_inv b -> ch ∈ subscribed b k -> chans b !! ch = Some c -> evt_Key evt = k ->
  bus_inv (count_delivered (set_chans b (<[ch := mkChan [evt] false]> (chans b)))).
Proof.
  intros H Hch Hc Hk.
  eapply bus_inv_ext; [..|apply (bus_inv_chan b ch c (mkChan [evt] false) H Hc)]; try done.
  intros k' Hk'. split_and!; [done|simpl; unfold chan_cap; lia|].
  rewrite (bi_owner _ H _ _ _ Hk' Hch). by repeat constructor.
Qed.

(** The delivery loop under any context: it keeps the invariant and changes
    nothing but the buffers of the listed channels and the delivery counter. *)
Lemma deliver_inv cx i evt k chs n b :
  bus_inv b -> (forall ch, ch ∈ chs -> ch ∈ subscribed b k) -> evt_Key evt = k ->
  let b' := fst (deliver cx i evt chs n b) in
  bus_inv b' /\ subs b' = subs b /\ pending b' = pending b.
Proof.
  revert i n b. induction chs as [|ch chs IH]; intros i n b H Hin Hk; simpl; [done|].
  destruct (cx i); [done|].
  assert (ch ∈ subscribed b k) as Hch by (apply Hin; left).
  destruct (bi_sub _ H k ch Hch) as [(c&Hc&Ho&Hl&_)].
  rewrite (try_send_spec ch k evt b c H Hch Hc). case_bool_decide as Hb; simpl.
  - destruct (IH (S i) (n + 1) _ (send_inv b k ch c evt H Hch Hc Hk)) as (H'&Hs&Hp);
      [intros; apply Hin; by right|done|done].
  - apply (IH (S i) n b H); [intros; apply Hin; by right|done].
Qed.

Lemma idle_count_ext b b' chs :
  (forall x, x ∈ chs -> idle b' x = idle b x) -> idle_count b' chs = idle_count b chs.
Proof.
  unfold idle_count. intros H. do 2 f_equal. apply List.filter_ext_in.
  intros x Hx%list_elem_of_In. by apply H.
Qed.

(** Under a live context the loop reaches every listed channel. *)
Lemma deliver_live i evt k chs n b :
  bus_inv b -> NoDup chs -> (forall ch, ch ∈ chs -> ch ∈ subscribed b k) -> evt_Key evt = k ->
  exists b', deliver Background i evt chs n b = (b', Ok (n + idle_count b chs)) /\
    (forall ch, ch ∈ chs -> exists e, chans b' !! ch = Some (mkChan [e] false) /\ evt_Key e = k /\
       (idle b ch = true -> e = evt)) /\
    (forall ch, ch ∉ chs -> chans b' !! ch = chans b !! ch).
Proof.
  revert i n b. induction chs as [|ch chs IH]; intros i n b H Hnd Hin Hk; simpl.
  { exists b. unfold idle_count. rewrite Z.add_0_r. split_and!; [done|set_solver|done]. }
  apply NoDup_cons in Hnd as [Hnotin Hnd].
  assert (ch ∈ subscribed b k) as Hch by (apply Hin; left).
  destruct (bi_sub _ H k ch Hch) as [(c&Hc&Ho&Hl&Hf)].
  rewrite (try_send_spec ch k evt b c H Hch Hc).
  assert (idle b ch = bool_decide (buffer c = [])) as Hidle by (unfold idle; by rewrite Hc).
  unfold idle_count. simpl. rewrite Hidle. case_bool_decide as Hb; simpl.
  - pose proof (send_inv b k ch c evt H Hch Hc Hk) as H1.
    set (b1 := count_delivered _) in *.
    assert (forall x, x <> ch -> chans b1 !! x = chans b !! x) as Hne
      by (intros x Hx; simpl; by rewrite lookup_insert_ne).
    assert (forall x, x ∈ chs -> idle b1 x = idle b x) as Hid
      by (intros x Hx; unfold idle; rewrite Hne by set_solver; done).
    destruct (IH (S i) (n + 1) b1 H1 Hnd) as (b'&E&Hall&Hrest);
      [intros; apply Hin; by right|done|].
    exists b'. rewrite E, (idle_count_ext b b1 chs Hid). split_and!.
    + unfold idle_count. do 2 f_equal. lia.
    + intros x [->|Hx]%elem_of_cons.
      * rewrite (Hrest ch Hnotin). simpl. rewrite lookup_insert_eq. by exists evt.
      * destruct (Hall x Hx) as (e&He&Hek&Hei). exists e. by rewrite Hid in Hei.
    + intros x Hx. rewrite Hrest, Hne; set_solver.
  - destruct (IH (S i) n b H Hnd) as (b'&E&Hall&Hrest); [intros; apply Hin; by right|done|].
    exists b'. rewrite E. split_and!; [done| |].
    + intros x [->|Hx]%elem_of_cons; [|by apply Hall].
      rewrite (Hrest ch Hnotin), Hc, Hidle. destruct c as [[|e [|e' q]] cl]; simpl in *;
        [done| |unfold chan_cap in Hl; lia].
      exists e. subst. inversion Hf. by split_and!.
    + intros x Hx. apply Hrest. set_solver.
Qed.

(** ** Subscriptions *)

Lemma Subscribe_inv cx key b :
  bus_inv b -> bus_inv (fst (InMemoryBus_Subscribe cx key b)).
Proof.
  intros H. unfold InMemoryBus_Subscribe. destruct (cx 0%nat); [done|]. simpl.
  assert (forall k ch, ch ∈ subscribed b k -> (ch < next_chan b)%nat) as Hlt.
  { intros k ch Hin. destruct (bi_sub _ H k ch Hin) as [(c&Hc&_)]. apply (bi_fresh _ H). by exists c. }
  set (b' := mkBus _ _ _ _ _ _ _ _).
  assert (forall k, subscribed b' k =
    if decide (key = k) then subscribed b k ++ [next_chan b] else subscribed b k) as Hs.
  { intros k. unfold subscribed. simpl. rewrite sm_Get_Compute. by case_decide; subst. }
  assert (forall k ch, ch ∈ subscribed b' k ->
    ch ∈ subscribed b k \/ (k = key /\ ch = next_chan b)) as Hin.
  { intros k ch. rewrite Hs. case_decide; [|by left]. rewrite elem_of_app, list_elem_of_singleton.
    naive_solver. }
  split.
  - intros k. rewrite Hs. case_decide; [|apply H]. apply NoDup_app. split_and!.
    + apply H.
    + intros ch Hch%Hlt. rewrite list_elem_of_singleton. lia.
    + apply NoDup_singleton.
  - intros k k' ch [H1|[-> ->]]%Hin [H2|[-> ?]]%Hin; subst.
    + by eapply bi_owner.
    + apply Hlt in H1. lia.
    + apply Hlt in H2. lia.
    + done.
  - intros k ch Hch. split. simpl. destruct (Hin k ch Hch) as [Hold|[-> ->]].
    + rewrite lookup_insert_ne by (apply Hlt in Hold; lia). by apply (bi_sub _ H).
    + rewrite lookup_insert_eq. exists (mkChan [] false). split_and!; simpl; [done..|lia|constructor].
  - intros ch. simpl. destruct (decide (ch = next_chan b)) as [->|]; [lia|].
    rewrite lookup_insert_ne by done. intros Hc%(bi_fresh _ H). lia.
  - apply H.
Qed.

Lemma Unsubscribe_inv cx key ch b :
  bus_inv b -> bus_inv (fst (InMemoryBus_Unsubscribe cx key ch b)).
Proof.
  intros H. unfold InMemoryBus_Unsubscribe. destruct (cx 0%nat); [done|].
  change (default [] (sm_Get key (subs b))) with (subscribed b key).
  destruct (index_of ch (subscribed b key)) as [i|] eqn:Ei; simpl.
  2:{ eapply bus_inv_ext; [..|exact H]; try done. intros k. unfold subscribed. simpl.
      rewrite sm_Get_Compute. by case_decide; subst. }
  apply index_of_Some in Ei. pose proof (swap_remove_perm _ _ _ Ei) as Hp.
  assert (ch ∈ subscribed b key) as Hch by (by eapply list_elem_of_lookup_2).
  destruct (bi_sub _ H key ch Hch) as [(c&Hc&Ho&_)].
  unfold close_chan. simpl. rewrite Hc, Ho. set (b' := set_chans _ _).
  assert (forall k, subscribed b' k =
    if decide (key = k) then swap_remove i (subscribed b key) else subscribed b k) as Hs.
  { intros k. unfold subscribed. simpl. rewrite sm_Get_Compute. by case_decide; subst. }
  pose proof (bi_nodup _ H key) as Hnd. rewrite <- Hp in Hnd. apply NoDup_cons in Hnd as [Hni Hnd].
  assert (forall k x, x ∈ subscribed b' k -> x ∈ subscribed b k /\ x <> ch) as Hin.
  { intros k x. rewrite Hs. case_decide as Hk; [subst|].
    - intros Hx. rewrite <- Hp. set_solver.
    - intros Hx. split; [done|]. intros ->. by apply Hk, (bi_owner _ H _ _ ch). }
  split.
  - intros k. rewrite Hs. case_decide; [done|apply H].
  - intros k k' x [H1 _]%Hin [H2 _]%Hin. by eapply bi_owner.
  - intros k x [Hx Hne]%Hin. split. simpl. rewrite lookup_insert_ne by done. by apply (bi_sub _ H).
  - intros x. simpl. destruct (decide (x = ch)) as [->|].
    + intros _. apply (bi_fresh _ H). by exists c.
    + rewrite lookup_insert_ne by done. apply (bi_fresh _ H).
  - apply H.
Qed.

Lemma recv_inv ch b : bus_inv b -> bus_inv (fst (chan_recv ch b)).
Proof.
  intros H. unfold chan_recv. destruct (chans b !! ch) as [[[|e q] cl]|] eqn:Hc; simpl; try done.
  apply (bus_inv_chan b ch _ (mkChan q cl) H Hc). intros k Hk.
  destruct (bi_sub _ H k ch Hk) as [(c&Hc'&Ho&Hl&Hf)]. rewrite Hc in Hc'. simplify_eq/=.
  inversion Hf. split_and!; [done|lia|done].
Qed.

Lemma mark_pending_inv key b : bus_inv b <-> bus_inv (fst (mark_pending key b)).
Proof. split; apply bus_inv_ext; done. Qed.

Lemma unmark_pending_inv key b : bus_inv b <-> bus_inv (unmark_pending key b).
Proof. split; apply bus_inv_ext; done. Qed.

Lemma publish_body_inv cx key opts b :
  bus_inv b -> bus_inv (fst (publish_body cx key opts b)).
Proof.
  intros H. unfold publish_body. destruct (sm_Get key (subs b)) as [[|ch chs]|] eqn:E; try done.
  pose proof (deliver_inv cx 1 (event_of key opts) key (ch :: chs) 0 (count_published b)) as Hd.
  destruct (deliver _ _ _ _ _ _) as [b' r]. apply Hd; [|intros x; unfold subscribed; simpl; by rewrite E|done].
  by eapply bus_inv_ext; [..|exact H].
Qed.

Lemma await_body_inv cx key n opts b :
  bus_inv b -> bus_inv (fst (await_body cx key n opts b)).
Proof.
  intros H. unfold await_body. case_match; [done|].
  destruct (deliver_inv cx 1 (event_of key opts) key (subscribed b key) 0 b) as (Hd&_); [done..|].
  unfold subscribed in *. destruct (deliver _ _ _ _ _ _) as [b' [m|e]]; [|done].
  case_match; [done|]. by eapply bus_inv_ext; [..|exact Hd].
Qed.

(** The steps of a bus. The deduplication mark, the delivery and the unmark of
    a publication are separate steps, so that publications interleave. *)
Inductive bus_step : InMemoryBus M -> InMemoryBus M -> Prop :=
| step_mark key b : bus_step b (fst (mark_pending key b))
| step_publish cx key opts b : bus_step b (fst (publish_body cx key opts b))
| step_await cx key n opts b : bus_step b (fst (await_body cx key n opts b))
| step_unmark key b : bus_step b (unmark_pending key b)
| step_subscribe cx key b : bus_step b (fst (InMemoryBus_Subscribe cx key b))
| step_unsubscribe cx key ch b : bus_step b (fst (InMemoryBus_Unsubscribe cx key ch b))
| step_watcher key ch b : (key, ch) ∈ watchers b -> bus_step b (watcher_fires key ch b)
| step_recv ch b : bus_step b (fst (chan_recv ch b)).

Lemma bus_step_inv b b' : bus_step b b' -> bus_inv b -> bus_inv b'.
Proof.
  destruct 1; intros Hi.
  - by apply mark_pending_inv.
  - by apply publish_body_inv.
  - by apply await_body_inv.
  - by apply unmark_pending_inv.
  - by apply Subscribe_inv.
  - by apply Unsubscribe_inv.
  - apply Unsubscribe_inv. by eapply bus_inv_ext; [..|exact Hi].
  - by apply recv_inv.
Qed.

Lemma NewInMemoryBus_inv : bus_inv NewInMemoryBus.
Proof.
  assert (forall k, subscribed NewInMemoryBus k = []) as Hs.
  { intros k. unfold subscribed. simpl. by rewrite sm_Get_New. }
  split; try done.
  - intros k. rewrite Hs. constructor.
  - intros k k' ch. rewrite Hs. set_solver.
  - intros k ch. rewrite Hs. set_solver.
  - intros ch. simpl. rewrite lookup_empty. by intros [??].
Qed.

(** Whatever interleaving of publications, quorum publications,
    subscriptions, cancellations (explicit or by a context) and receives
    reaches a bus, no operation has sent on a closed channel or closed one
    twice, every subscribed channel is open, belongs to one key and buffers
    at most one event, of that key. *)
Theorem InMemoryBus_reachable_inv b :
  rtc bus_step NewInMemoryBus b -> bus_inv b.
Proof.
  intros H. assert (forall a, rtc bus_step a b -> bus_inv a -> bus_inv b) as Hr.
  { induction 1; eauto using bus_step_inv. }
  apply (Hr _ H), NewInMemoryBus_inv.
Qed.

Lemma Publish_reaches_all (key : string) (opts : list PublishOption) b :
  bus_inv b -> sm_Get key (pending b) = None ->
  exists b', InMemoryBus_Publish Background key opts b = (b', None) /\
    (forall ch, ch ∈ subscribed b key -> exists e,
       chans b' !! ch = Some (mkChan [e] false) /\ evt_Key e = key /\
       (idle b ch = true -> e = event_of key opts)) /\
    (forall ch, ch ∉ subscribed b key -> chans b' !! ch = chans b !! ch) /\
    (forall k, sm_Get k (pending b') = sm_Get k (pending b)).
Proof.
  intros H Hp. unfold InMemoryBus_Publish, mark_pending, Background. rewrite Hp.
  unfold publish_body. simpl. set (b1 := set_pending b _).
  assert (forall b2, pending b2 = pending b1 -> forall k,
    sm_Get k (pending (unmark_pending key b2)) = sm_Get k (pending b)) as Hpend.
  { intros b2 E k. simpl. rewrite E, sm_Get_Delete. simpl. rewrite sm_Get_Compute.
    case_decide; by subst. }
  destruct (sm_Get key (subs b)) as [[|ch chs]|] eqn:E.
  - eexists. split; [done|]. unfold subscribed. rewrite E. split_and!; [set_solver|done|by apply Hpend].
  - assert (subscribed b key = ch :: chs) as Hs by (unfold subscribed; by rewrite E).
    assert (bus_inv (count_published b1)) as H1 by (by eapply bus_inv_ext; [..|exact H]).
    destruct (deliver_live 1 (event_of key opts) key (ch :: chs) 0 _ H1) as (b'&Ed&Hall&Hrest);
      [rewrite <- Hs; apply H|intros x; rewrite <- Hs; done|done|].
    unfold Background in Ed. rewrite Ed. eexists. split; [done|]. rewrite Hs.
    split_and!; [exact Hall|exact Hrest|]. apply Hpend.
    destruct (deliver_inv Background 1 (event_of key opts) key (ch :: chs) 0 _ H1) as (_&_&Hd);
      [intros x; rewrite <- Hs; done|done|]. unfold Background in Hd. by rewrite Ed in Hd.
  - eexists. split; [done|]. unfold subscribed. rewrite E. split_and!; [set_solver|done|by apply Hpend].
Qed.

(** A publication keeps the invariant and the subscriptions. *)
Lemma Publish_static cx key opts b :
  bus_inv b -> let b' := fst (InMemoryBus_Publish cx key opts b) in bus_inv b' /\ subs b' = subs b.
Proof.
  intros H. unfold InMemoryBus_Publish. destruct (cx 0%nat); [done|].
  destruct (mark_pending key b) as [b1 dup] eqn:E.
  assert (b1 = fst (mark_pending key b)) as E1 by (by rewrite E).
  assert (bus_inv b1) as H1 by (rewrite E1; by apply mark_pending_inv).
  assert (subs b1 = subs b) as Hs by (by rewrite E1). destruct dup; [done|].
  assert (subs (fst (publish_body cx key opts b1)) = subs b) as Hsub.
  { unfold publish_body. destruct (sm_Get key (subs b1)) as [[|ch chs]|] eqn:Eg; try done.
    destruct (deliver_inv cx 1 (event_of key opts) key (ch :: chs) 0 (count_published b1)) as (_&Hd&_);
      [by eapply bus_inv_ext; [..|exact H1]|intros x; unfold subscribed; simpl; by rewrite Eg|done|].
    destruct (deliver _ _ _ _ _ _). simpl in *. by rewrite Hd. }
  pose proof (publish_body_inv cx key opts b1 H1) as Hb. destruct (publish_body cx key opts b1) as [b2 err].
  simpl in *. split; [by apply unmark_pending_inv|done].
Qed.

(** A publication reaches every subscriber: under a live context, unless
    another publication of the key is in flight, [Publish] succeeds and leaves
    every channel subscribed to the key with an event of that key to receive
    (the new one, or an earlier one not yet received: notifications coalesce),
    touches no other channel, and leaves the key publishable again. *)
Theorem InMemoryBus_Publish_reaches_all (key : string) (opts : list PublishOption) b :
  bus_inv b -> sm_Get key (pending b) = None ->
  exists b', InMemoryBus_Publish Background key opts b = (b', None) /\
    (forall ch, ch ∈ subscribed b key -> exists e,
       chans b' !! ch = Some (mkChan [e] false) /\ evt_Key e = key /\
       (idle b ch = true -> e = event_of key opts)) /\
    (forall ch, ch ∉ subscribed b key -> chans b' !! ch = chans b !! ch) /\
    (forall k, sm_Get k (pending b') = sm_Get k (pending b)).
Proof. apply Publish_reaches_all. Qed.

(** C3. Quorum publication is exact: under a live context, unless another
    publication of the key is in flight, [PublishAndAwait] succeeds exactly
    when at least the required number of subscribers (at least one) can take
    the event, and fails with [ErrQuorumNotSatisfied] otherwise. *)
Theorem InMemoryBus_PublishAndAwait_quorum (key : string) (n : Z) (opts : list PublishOption) b :
  bus_inv b -> sm_Get key (pending b) = None ->
  snd (InMemoryBus_PublishAndAwait Background key n opts b) =
    if Z.max 1 n <=? idle_count b (subscribed b key) then None else Some ErrQuorumNotSatisfied.
Proof.
  intros H Hp. unfold InMemoryBus_PublishAndAwait, mark_pending, Background. rewrite Hp.
  replace (if n <=? 0 then 1 else n) with (Z.max 1 n) by (destruct (n <=? 0) eqn:?; bool_to_prop; lia).
  unfold await_body. simpl. change (default [] (sm_Get key (subs b))) with (subscribed b key).
  assert (idle_count b (subscribed b key) <= Z.of_nat (length (subscribed b key))) as Hle.
  { unfold idle_count. apply inj_le, List.filter_length_le. }
  destruct (Z.of_nat _ <? _) eqn:El; bool_to_prop; simpl.
  - destruct (_ <=? _) eqn:E; bool_to_prop; [lia|done].
  - set (b1 := set_pending b _).
    destruct (deliver_live 1 (event_of key opts) key (subscribed b key) 0 b1) as (b'&Ed&_);
      [by eapply bus_inv_ext; [..|exact H]|apply H|done|done|].
    unfold Background in Ed. rewrite Ed.
    change (idle_count b1 (subscribed b key)) with (idle_count b (subscribed b key)). simpl.
    destruct (_ <? Z.max 1 n) eqn:E1, (Z.max 1 n <=? _) eqn:E2; bool_to_prop; done || lia.
Qed.

(** While a publication of a key is in flight, a quorum publication of the
    same key reports success without delivering anything, whatever quorum it
    asks for and however few subscribers there are. *)
Theorem InMemoryBus_PublishAndAwait_pending (key : string) (n : Z) (opts : list PublishOption) b :
  let '(b1, _) := mark_pending key b in
  let '(b2, err) := InMemoryBus_PublishAndAwait Background key n opts b1 in
  err = None /\ chans b2 = chans b /\ delivered b2 = delivered b.
Proof.
  unfold mark_pending, InMemoryBus_PublishAndAwait, Background. simpl.
  rewrite sm_Get_Compute, decide_True by done. by destruct (sm_Get key (pending b)).
Qed.

End BusLaws.

(** ** Witnesses: the bus over a finite map *)

#[export] Instance gmap_SafeMap : SafeMap (gmap string) := {
  sm_New := fun V => ∅;
  sm_Get := fun V k m => m !! k;
  sm_Compute := fun V k f m => <[k := f (m !! k)]> m;
  sm_Delete := fun V k m => delete k m;
}.

#[export] Instance gmap_LawfulSafeMap : LawfulSafeMap (gmap string).
Proof.
  split; simpl.
  - intros V k. apply lookup_empty.
  - intros V k k' f m. case_decide; [subst; apply lookup_insert_eq|by apply lookup_insert_ne].
  - intros V k k' m. case_decide; [subst; apply lookup_delete_eq|by apply lookup_delete_ne].
Qed.

Definition bus_demo0 : InMemoryBus (gmap string) := NewInMemoryBus.
Definition bus_demo : InMemoryBus (gmap string) :=
  fst (InMemoryBus_Subscribe Background "k" (fst (InMemoryBus_Subscribe Background "k" bus_demo0))).

Lemma bus_demo_steps : rtc bus_step bus_demo0 bus_demo.
Proof.
  eapply rtc_l; [apply (step_subscribe Background "k")|].
  eapply rtc_l; [apply (step_subscribe Background "k")|]. apply rtc_refl.
Qed.

Lemma bus_demo_inv : bus_inv bus_demo.
Proof. do 2 apply Subscribe_inv. apply NewInMemoryBus_inv. Qed.

Lemma InMemoryBus_reachable_inv_witness : panicked bus_demo = false.
Proof. exact (bi_panic _ (InMemoryBus_reachable_inv bus_demo bus_demo_steps)). Defined.

Lemma InMemoryBus_Publish_reaches_all_witness :
  exists b', InMemoryBus_Publish Background "k" [] bus_demo = (b', None) /\
    exists e, chans b' !! 1%nat = Some (mkChan [e] false) /\ evt_Key e = "k".
Proof.
  destruct (InMemoryBus_Publish_reaches_all "k" [] bus_demo) as (b'&E&Hall&_).
  - apply bus_demo_inv.
  - reflexivity.
  - exists b'. split; [exact E|]. destruct (Hall 1%nat) as (e&He&Hk&_); [decide_closed|].
    exists e. exact (conj He Hk).
Defined.

Lemma InMemoryBus_PublishAndAwait_quorum_witness :
  snd (InMemoryBus_PublishAndAwait Background "k" 2 [] bus_demo) = None /\
  snd (InMemoryBus_PublishAndAwait Background "k" 3 [] bus_demo) = Some ErrQuorumNotSatisfied.
Proof.
  split.
  - rewrite (InMemoryBus_PublishAndAwait_quorum "k" 2 [] bus_demo bus_demo_inv eq_refl). reflexivity.
  - rewrite (InMemoryBus_PublishAndAwait_quorum "k" 3 [] bus_demo bus_demo_inv eq_refl). reflexivity.
Defined.

Lemma InMemoryBus_PublishAndAwait_pending_witness :
  snd (InMemoryBus_PublishAndAwait Background "k" 9 [] (fst (mark_pending "k" bus_demo))) = None.
Proof.
  pose proof (InMemoryBus_PublishAndAwait_pending "k" 9 [] bus_demo) as H.
  destruct H as (E&_&_). exact E.
Defined.
