(* ===== verification/Chans.v ===== *)
(** * Chans: the channels of the subscribers of a bus

    The buses over NATS and Kafka keep, like the others, a slice of channels
    per key, send to them without blocking, and close a channel when its
    subscription ends ([src/syncbus/nats/nats.go], [src/syncbus/kafka/kafka.go]).
    This file has the heap of channels, these operations, and the invariant they
    share: a subscribed channel belongs to one key, is open, and buffers at most
    one event, whose key is that key; nothing panics. *)

From S2P Require Import Prelude SyncBus.

(** [h_panicked] is set by a send on or a close of a closed channel. *)
Record chheap := mkHeap { h_chans : gmap nat chan; h_next : nat; h_panicked : bool }.

Definition empty_heap : chheap := mkHeap ∅ 0 false.

(** [make(chan syncbus.Event, 1)] *)
Definition heap_make (h : chheap) : chheap * nat :=
  (mkHeap (<[h_next h := mkChan [] false]> (h_chans h)) (S (h_next h)) (h_panicked h), h_next h).

(** [select { case c <- evt: ... default: }]: whether the event was sent. *)
Definition heap_send (evt : Event) (ch : nat) (h : chheap) : chheap * bool :=
  match h_chans h !! ch with
  | None => (h, false)
  | Some c =>
      if closed c then (mkHeap (h_chans h) (h_next h) true, false)
      else if (length (buffer c) <? chan_cap)%nat then
        (mkHeap (<[ch := mkChan (buffer c ++ [evt]) false]> (h_chans h)) (h_next h) (h_panicked h), true)
      else (h, false)
  end.

(** [for _, c := range chans]: how many channels took the event. *)
Fixpoint heap_deliver (evt : Event) (chs : list nat) (h : chheap) : chheap * Z :=
  match chs with
  | [] => (h, 0)
  | ch :: chs =>
      let '(h, sent) := heap_send evt ch h in
      let '(h, n) := heap_deliver evt chs h in
      (h, if sent then n + 1 else n)
  end.

Definition heap_close (ch : nat) (h : chheap) : chheap :=
  match h_chans h !! ch with
  | None => h
  | Some c =>
      if closed c then mkHeap (h_chans h) (h_next h) true
      else mkHeap (<[ch := mkChan (buffer c) true]> (h_chans h)) (h_next h) (h_panicked h)
  end.

Definition heap_recv (ch : nat) (h : chheap) : chheap * recv :=
  match h_chans h !! ch with
  | None => (h, RecvBlocks)
  | Some c =>
      match buffer c with
      | e :: q => (mkHeap (<[ch := mkChan q (closed c)]> (h_chans h)) (h_next h) (h_panicked h), Received e)
      | [] => (h, if closed c then RecvClosed else RecvBlocks)
      end
  end.

(** The loop of [Unsubscribe]: the slice without the channel, which is closed. *)
Definition drop_chan (ch : nat) (chs : list nat) (h : chheap) : list nat * chheap :=
  match index_of ch chs with
  | Some i => (swap_remove i chs, heap_close ch h)
  | None => (chs, h)
  end.

(** ** Invariant *)

Record chan_ok (h : chheap) (k : string) (ch : nat) : Prop := {
  co_open : exists c, h_chans h !! ch = Some c /\ closed c = false /\
    (length (buffer c) <= chan_cap)%nat /\ Forall (fun e => evt_Key e = k) (buffer c);
}.

Record hub_inv (subs : string -> list nat) (h : chheap) : Prop := {
  hb_nodup : forall k, NoDup (subs k);
  hb_owner : forall k k' ch, ch ∈ subs k -> ch ∈ subs k' -> k = k';
  hb_open : forall k ch, ch ∈ subs k -> chan_ok h k ch;
  hb_fresh : forall ch, is_Some (h_chans h !! ch) -> (ch < h_next h)%nat;
  hb_panic : h_panicked h = false;
}.

(** The slice of a key, replaced. *)
Definition set_slice (k : string) (chs : list nat) (subs : string -> list nat) : string -> list nat :=
  fun k' => if decide (k' = k) then chs else subs k'.

Lemma hub_inv_ext subs subs' h : (forall k, subs k = subs' k) -> hub_inv subs h -> hub_inv subs' h.
Proof.
  intros E [H1 H2 H3 H4 H5]. split; try done.
  - intros k. by rewrite <- E.
  - intros k k' ch. rewrite <- !E. apply H2.
  - intros k ch. rewrite <- E. apply H3.
Qed.

Lemma hub_inv_empty : hub_inv (fun _ => []) empty_heap.
Proof.
  split; try done; [by intros; apply NoDup_nil_2|..]; try by (intros; exfalso; eapply not_elem_of_nil).
  intros ch [c Hc]. done.
Qed.

Section Hub.
Variable subs : string -> list nat.
Implicit Types h : chheap.

(** A subscribed channel is not the one to be made. *)
Lemma hub_inv_below h k ch : hub_inv subs h -> ch ∈ subs k -> (ch < h_next h)%nat.
Proof. intros H Hin. destruct (hb_open _ _ H k ch Hin) as [(c & Hc & _)]. apply H. by eexists. Qed.

Lemma hub_inv_make h k : hub_inv subs h ->
  hub_inv (set_slice k (subs k ++ [h_next h]) subs) (fst (heap_make h)).
Proof.
  intros H. pose proof (hub_inv_below h) as Hb. unfold set_slice.
  assert (forall k' ch, ch ∈ (if decide (k' = k) then subs k ++ [h_next h] else subs k') ->
    ch ∈ subs k' \/ (k' = k /\ ch = h_next h)) as Hin.
  { intros k' ch. case_decide; [subst; rewrite elem_of_app, list_elem_of_singleton|]; tauto. }
  split; simpl.
  - intros k'. case_decide; [|apply H]. apply NoDup_app. split_and!; [apply H| |apply NoDup_singleton].
    intros ch Hc ->%list_elem_of_singleton. specialize (Hb k _ H Hc). lia.
  - intros k1 k2 ch [H1|[-> ->]]%Hin [H2|[-> E]]%Hin; [by eapply H| | |done].
    + subst. specialize (Hb k1 _ H H1). lia.
    + specialize (Hb k2 _ H H2). lia.
  - intros k' ch [Hc|[-> ->]]%Hin; split.
    + specialize (Hb k' _ H Hc). destruct (hb_open _ _ H k' ch Hc) as [(c & ? & ?)]. exists c. simpl.
      by rewrite lookup_insert_ne by lia.
    + exists (mkChan [] false). simpl. rewrite lookup_insert_eq. split_and!; try done. unfold chan_cap. lia.
  - intros ch. destruct (decide (ch = h_next h)) as [->|]; [lia|]. rewrite lookup_insert_ne by done.
    intros Hc. apply H in Hc. lia.
  - apply H.
Qed.

(** Changing one channel, kept open and within its bounds. *)
Lemma hub_inv_update h ch c : hub_inv subs h -> is_Some (h_chans h !! ch) ->
  (forall k, ch ∈ subs k -> closed c = false /\ (length (buffer c) <= chan_cap)%nat /\
     Forall (fun e => evt_Key e = k) (buffer c)) ->
  hub_inv subs (mkHeap (<[ch := c]> (h_chans h)) (h_next h) (h_panicked h)).
Proof.
  intros H Hc Hok. split; simpl; try apply H.
  - intros k ch' Hin. split. simpl. destruct (decide (ch' = ch)) as [->|].
    + exists c. rewrite lookup_insert_eq. split; [done|]. by apply Hok.
    + rewrite lookup_insert_ne by done. by apply H.
  - intros ch'. destruct (decide (ch' = ch)) as [->|]; [by intros; apply H|].
    rewrite lookup_insert_ne by done. apply H.
Qed.

Lemma hub_inv_send h k evt ch : hub_inv subs h -> evt_Key evt = k -> ch ∈ subs k ->
  hub_inv subs (fst (heap_send evt ch h)).
Proof.
  intros H Hk Hin. unfold heap_send. destruct (hb_open _ _ H k ch Hin) as [(c & Hc & Hcl & Hlen & Hf)].
  rewrite Hc, Hcl. destruct (Nat.ltb_spec (length (buffer c)) chan_cap); [|done]. simpl.
  apply hub_inv_update; [done|by eexists|]. intros k' Hk'. simpl. rewrite length_app, Forall_app, Forall_singleton.
  assert (k' = k) as -> by (by eapply H). unfold chan_cap in *. simpl. split_and!; done || lia.
Qed.

Lemma hub_inv_deliver h k evt chs : hub_inv subs h -> evt_Key evt = k -> chs ⊆ subs k ->
  hub_inv subs (fst (heap_deliver evt chs h)).
Proof.
  revert h. induction chs as [|ch chs IH]; intros h H Hk Hsub; simpl; [done|].
  pose proof (hub_inv_send h k evt ch H Hk ltac:(set_solver)) as Hs. destruct (heap_send evt ch h) as [h1 sent].
  specialize (IH h1 Hs Hk ltac:(set_solver)). by destruct (heap_deliver evt chs h1).
Qed.

Lemma hub_inv_recv h ch : hub_inv subs h -> hub_inv subs (fst (heap_recv ch h)).
Proof.
  intros H. unfold heap_recv. destruct (h_chans h !! ch) as [c|] eqn:Hc; [|done].
  destruct (buffer c) as [|e q] eqn:Eb; [done|]. simpl. apply hub_inv_update; [done|by eexists|].
  intros k Hin. destruct (hb_open _ _ H k ch Hin) as [(c' & Hc' & Hcl & Hlen & Hf)].
  rewrite Hc in Hc'. simplify_eq. rewrite Eb in *. simpl in *. apply Forall_cons in Hf as [_ Hf].
  split_and!; done || lia.
Qed.

Lemma hub_inv_drop h k ch : hub_inv subs h ->
  hub_inv (set_slice k (fst (drop_chan ch (subs k) h)) subs) (snd (drop_chan ch (subs k) h)).
Proof.
  intros H. unfold drop_chan. destruct (index_of ch (subs k)) as [i|] eqn:Ei; simpl.
  2: { eapply hub_inv_ext; [|done]. intros k'. unfold set_slice. by case_decide; subst. }
  apply index_of_Some in Ei. pose proof (swap_remove_perm _ _ _ Ei) as Hp.
  pose proof (hb_nodup _ _ H k) as Hnd. rewrite <- Hp in Hnd. apply NoDup_cons in Hnd as [Hn Hnd].
  assert (ch ∈ subs k) as Hch by (rewrite <- Hp; by left).
  assert (forall k' c, c ∈ set_slice k (swap_remove i (subs k)) subs k' -> c ∈ subs k' /\ c <> ch) as Hin.
  { intros k' c. unfold set_slice. case_decide as E; [subst|].
    - intros Hc. split; [rewrite <- Hp; by right|]. by intros ->.
    - intros Hc. split; [done|]. intros ->. apply E. by eapply H. }
  destruct (hb_open _ _ H k ch Hch) as [(c & Hc & Hcl & Hlen & Hf)]. unfold heap_close. rewrite Hc, Hcl. split; simpl.
  - intros k'. unfold set_slice. case_decide; [done|apply H].
  - intros k1 k2 c' [H1 _]%Hin [H2 _]%Hin. by eapply H.
  - intros k' c' [H1 H2]%Hin. split. simpl. rewrite lookup_insert_ne by done. by apply H.
  - intros c'. destruct (decide (c' = ch)) as [->|]; [by intros; apply H; eexists|].
    rewrite lookup_insert_ne by done. apply H.
  - apply H.
Qed.

(** ** Delivery *)

Lemma heap_send_other evt ch h ch' : ch' <> ch -> h_chans (fst (heap_send evt ch h)) !! ch' = h_chans h !! ch'.
Proof. intros Hne. unfold heap_send. case_all; try done; by rewrite lookup_insert_ne. Qed.

Lemma heap_deliver_other evt chs h ch : ch ∉ chs -> h_chans (fst (heap_deliver evt chs h)) !! ch = h_chans h !! ch.
Proof.
  revert h. induction chs as [|c chs IH]; intros h Hn; [done|]. simpl.
  pose proof (heap_send_other evt c h ch ltac:(set_solver)) as Hs. destruct (heap_send evt c h) as [h1 sent].
  specialize (IH h1 ltac:(set_solver)). destruct (heap_deliver evt chs h1). simpl in *. by rewrite IH.
Qed.

(** Every channel of the slice that was empty holds the event, the others what
    they held. *)
Lemma heap_deliver_offers evt h k ch : hub_inv subs h -> evt_Key evt = k -> ch ∈ subs k ->
  exists c, h_chans h !! ch = Some c /\ closed c = false /\
    h_chans (fst (heap_deliver evt (subs k) h)) !! ch =
      Some (if decide (buffer c = []) then mkChan [evt] false else c).
Proof.
  intros H Hk Hin. destruct (hb_open _ _ H k ch Hin) as [(c & Hc & Hcl & Hlen & _)].
  exists c. split_and!; try done. pose proof (hb_nodup _ _ H k) as Hnd. clear H.
  revert h Hc Hin Hnd. induction (subs k) as [|c0 chs IH]; intros h Hc Hin Hnd; [by apply not_elem_of_nil in Hin|].
  apply NoDup_cons in Hnd as [Hn Hnd]. simpl. destruct (heap_send evt c0 h) as [h1 sent] eqn:Es.
  destruct (heap_deliver evt chs h1) as [h2 n] eqn:Ed. simpl. destruct (decide (ch = c0)) as [->|Hne].
  - pose proof (heap_deliver_other evt chs h1 c0 Hn) as Ho. rewrite Ed in Ho. simpl in Ho. rewrite Ho.
    unfold heap_send in Es. rewrite Hc, Hcl in Es. destruct c as [[|e q] cl]; simpl in *; subst cl.
    + simplify_eq. simpl. by rewrite lookup_insert_eq.
    + unfold chan_cap in *. simplify_eq. by rewrite Hc.
  - pose proof (heap_send_other evt c0 h ch Hne) as Ho. rewrite Es in Ho. simpl in Ho.
    specialize (IH h1). rewrite Ed in IH. simpl in IH. apply IH; [by rewrite Ho|set_solver|done].
Qed.

End Hub.
