(* ===== verification/NatsBus.v ===== *)
(** * NatsBus: the invalidation bus over NATS

    Models [src/syncbus/nats/nats.go]: publication with its pending set, retry
    and reconnection, subscriptions, and the handler of incoming messages.

    The NATS client is outside the model: the errors its calls meet, one record
    per iteration of a loop, are arguments, and the messages it accepted are
    results. A connection is its generation. A critical section is one
    function; the goroutines (publishers, timers of [time.AfterFunc], watchers
    of contexts) are lists in the state. UUIDs are arguments. *)

From S2P Require Import Prelude SyncBus Chans.

(** [np_publishers]: the calls of [Publish] that have marked their key and not
    returned; [np_timers]: the timers that will unmark a key. *)
Record natsPub := mkNPub {
  np_pending : gset string;
  np_published : Z;
  np_publishers : list string;
  np_timers : list string;
}.

(** [ns_sub]: the connection the NATS subscription lives on. *)
Record natsSubscription := mkNSub { ns_sub : nat; ns_chans : list nat }.

(** [nu_watchers]: the goroutines that wait for the context of a subscription. *)
Record natsSubs := mkNSubs {
  nu_conn : nat;
  nu_subs : gmap string natsSubscription;
  nu_processed : gset string;
  nu_delivered : Z;
  nu_heap : chheap;
  nu_watchers : list (string * nat);
}.

Record NATSBus := mkNats { nb_pub : natsPub; nb_sub : natsSubs }.

Definition NewNATSBus : NATSBus := mkNats (mkNPub ∅ 0 [] []) (mkNSubs 0 ∅ ∅ 0 empty_heap []).

(** ** Subscriptions *)

Section Subscriptions.
Implicit Types u : natsSubs.

Definition set_nsubs u subs heap : natsSubs :=
  mkNSubs (nu_conn u) subs (nu_processed u) (nu_delivered u) heap (nu_watchers u).

(** What [reconnect] meets: whether the connection is up; the errors of
    connecting, of subscribing to each key and of the flush. *)
Record reconnect_io := mkRecIO {
  rio_connected : bool;
  rio_connect : option error;
  rio_subscribe : string -> option error;
  rio_flush : option error;
}.

(** The subscriptions of a new connection, or the first error. The order in which
    the map is iterated only decides which error is the first. *)
Fixpoint resubscribe (io : reconnect_io) (order : list string) : option error :=
  match order with
  | [] => rio_flush io
  | key :: order => match rio_subscribe io key with Some e => Some e | None => resubscribe io order end
  end.

Definition nats_reconnect (io : reconnect_io) u : natsSubs * option error :=
  if rio_connected io then (u, None)
  else match rio_connect io with
       | Some e => (u, Some e)
       | None =>
           match resubscribe io (map_to_list (nu_subs u)).*1 with
           | Some e => (u, Some e)
           | None =>
               let conn := S (nu_conn u) in
               (mkNSubs conn ((fun s => mkNSub conn (ns_chans s)) <$> nu_subs u) (nu_processed u)
                  (nu_delivered u) (nu_heap u) (nu_watchers u), None)
           end
       end.

(** One iteration of the loop of [Subscribe]: the errors of subscribing and of
    the flush, and what the reconnection meets. *)
Record subscribe_io := mkSubIO {
  sio_subscribe : option error;
  sio_flush : option error;
  sio_reconnect : reconnect_io;
}.

Definition nats_enter (key : string) (ch : nat) u : natsSubs :=
  let chs := default [] (ns_chans <$> nu_subs u !! key) in
  let conn := default (nu_conn u) (ns_sub <$> nu_subs u !! key) in
  mkNSubs (nu_conn u) (<[key := mkNSub conn (chs ++ [ch])]> (nu_subs u)) (nu_processed u) (nu_delivered u)
    (nu_heap u) ((key, ch) :: nu_watchers u).

(** [None]: the loop goes on. *)
Definition nats_subscribe_try (cx : ctx) (i : nat) (key : string) (ch : nat) (io : subscribe_io) u
    : natsSubs * option (res nat) :=
  match nu_subs u !! key with
  | Some _ => (nats_enter key ch u, Some (Ok ch))
  | None =>
      match sio_subscribe io, sio_flush io with
      | None, None => (nats_enter key ch u, Some (Ok ch))
      | _, _ =>
          let u := fst (nats_reconnect (sio_reconnect io) u) in
          match cx i with
          | Some e => (u, Some (Err e))
          | None => (u, None)
          end
      end
  end.

Fixpoint nats_subscribe_loop (cx : ctx) (i : nat) (key : string) (ch : nat) (ios : list subscribe_io) u
    : natsSubs * option (res nat) :=
  match ios with
  | [] => (u, None)
  | io :: ios =>
      match nats_subscribe_try cx i key ch io u with
      | (u, None) => nats_subscribe_loop cx (S i) key ch ios u
      | r => r
      end
  end.

(** [None] as a result: [Subscribe] is still trying after the iterations
    [ios]. *)
Definition NATSBus_Subscribe (cx : ctx) (key : string) (ios : list subscribe_io) u
    : natsSubs * option (res nat) :=
  let '(h, ch) := heap_make (nu_heap u) in
  nats_subscribe_loop cx 0 key ch ios (set_nsubs u (nu_subs u) h).

(** [unsub_err]: the error of ending the NATS subscription. *)
Definition NATSBus_Unsubscribe (unsub_err : option error) (key : string) (ch : nat) u
    : natsSubs * option error :=
  match nu_subs u !! key with
  | None => (u, None)
  | Some sub =>
      let '(chs, h) := drop_chan ch (ns_chans sub) (nu_heap u) in
      if decide (chs = []) then (set_nsubs u (delete key (nu_subs u)) h, unsub_err)
      else (set_nsubs u (<[key := mkNSub (ns_sub sub) chs]> (nu_subs u)) h, None)
  end.

(** The goroutine of a subscription whose context is done. *)
Definition nats_watcher (unsub_err : option error) (key : string) (ch : nat) u : natsSubs :=
  fst (NATSBus_Unsubscribe unsub_err key ch
    (mkNSubs (nu_conn u) (nu_subs u) (nu_processed u) (nu_delivered u) (nu_heap u)
       (filter (fun w => w <> (key, ch)) (nu_watchers u)))).

Definition nats_event (key : string) : Event := mkEvent key "" None ScopeLocal.

(** A message with data [id] on the subject [key]. *)
Definition natsHandler (key id : string) u : natsSubs :=
  if decide (id ∈ nu_processed u) then u
  else
    let u := mkNSubs (nu_conn u) (nu_subs u) ({[id]} ∪ nu_processed u) (nu_delivered u) (nu_heap u) (nu_watchers u) in
    match nu_subs u !! key with
    | None => u
    | Some sub =>
        let '(h, n) := heap_deliver (nats_event key) (ns_chans sub) (nu_heap u) in
        mkNSubs (nu_conn u) (nu_subs u) (nu_processed u) (u64 (nu_delivered u + n)) h (nu_watchers u)
    end.

Definition nats_recv (ch : nat) u : natsSubs * recv :=
  let '(h, r) := heap_recv ch (nu_heap u) in (set_nsubs u (nu_subs u) h, r).

End Subscriptions.

(** ** Publishing *)

Section Publishing.
Implicit Types (p : natsPub) (b : NATSBus).

(** The locked first part of [Publish]: whether the key was already pending. *)
Definition nats_publish_begin (key : string) p : natsPub * bool :=
  if decide (key ∈ np_pending p) then (p, true)
  else (mkNPub ({[key]} ∪ np_pending p) (np_published p) (key :: np_publishers p) (np_timers p), false).

(** The context is done: unmark the key. *)
Definition nats_publish_abort (key : string) p : natsPub :=
  mkNPub (np_pending p ∖ {[key]}) (np_published p) (list_drop key (np_publishers p)) (np_timers p).

(** The message is sent: count it, start the timer. *)
Definition nats_publish_sent (key : string) p : natsPub :=
  mkNPub (np_pending p) (u64 (np_published p + 1)) (list_drop key (np_publishers p)) (key :: np_timers p).

(** [time.AfterFunc(time.Millisecond, ...)] *)
Definition nats_timer (key : string) p : natsPub :=
  mkNPub (np_pending p ∖ {[key]}) (np_published p) (np_publishers p) (list_drop key (np_timers p)).

(** One iteration of the loop: the error of the publication, and what the
    reconnection meets. *)
Record publish_io := mkPubIO { pio_publish : option error; pio_reconnect : reconnect_io }.

Record nats_message := mkNMsg { nm_key : string; nm_id : string }.

(** [None]: the loop goes on. The last component is what was sent. *)
Definition nats_publish_try (cx : ctx) (i : nat) (key id : string) (io : publish_io) b
    : NATSBus * (option (option error) * list nats_message) :=
  match pio_publish io with
  | None => (mkNats (nats_publish_sent key (nb_pub b)) (nb_sub b), (Some None, [mkNMsg key id]))
  | Some _ =>
      let u := fst (nats_reconnect (pio_reconnect io) (nb_sub b)) in
      match cx i with
      | Some e => (mkNats (nats_publish_abort key (nb_pub b)) u, (Some (Some e), []))
      | None => (mkNats (nb_pub b) u, (None, []))
      end
  end.

Fixpoint nats_publish_loop (cx : ctx) (i : nat) (key id : string) (ios : list publish_io) b
    : NATSBus * (option (option error) * list nats_message) :=
  match ios with
  | [] => (b, (None, []))
  | io :: ios =>
      match nats_publish_try cx i key id io b with
      | (b, (None, _)) => nats_publish_loop cx (S i) key id ios b
      | r => r
      end
  end.

(** [jitter] is the error of the context if it is done before the jitter is
    over. [None] as a result: still trying after the iterations [ios]. The
    options are not used. *)
Definition NATSBus_Publish (cx : ctx) (jitter : option error) (key id : string) (opts : list PublishOption)
    (ios : list publish_io) b : NATSBus * (option (option error) * list nats_message) :=
  let '(p, dup) := nats_publish_begin key (nb_pub b) in
  if dup then (mkNats p (nb_sub b), (Some None, []))
  else match jitter with
       | Some e => (mkNats (nats_publish_abort key p) (nb_sub b), (Some (Some e), []))
       | None => nats_publish_loop cx 0 key id ios (mkNats p (nb_sub b))
       end.

(** [backoff], doubled up to a second. *)
Definition next_backoff (backoff : duration) : duration :=
  if backoff <? Second then
    let backoff := backoff * 2 in if Second <? backoff then Second else backoff
  else backoff.

(** [deadline]: the time until the deadline of the context, if it has one;
    [ctx_Err] what [ctx.Err()] then answers; [flush_err] the error of the
    flush. *)
Definition NATSBus_PublishAndAwait (cx : ctx) (jitter : option error) (key id : string) (replicas : Z)
    (opts : list PublishOption) (ios : list publish_io) (deadline : option duration) (ctx_Err flush_err : option error) b
    : NATSBus * (option (option error) * list nats_message) :=
  let replicas := if replicas <=? 0 then 1 else replicas in
  if 1 <? replicas then (b, (Some (Some ErrQuorumUnsupported), []))
  else
    let '(b, (r, sent)) := NATSBus_Publish cx jitter key id opts ios b in
    match r with
    | Some None =>
        (b, (Some (match deadline with
                   | Some timeout => if timeout <=? 0 then ctx_Err else flush_err
                   | None => flush_err
                   end), sent))
    | r => (b, (r, sent))
    end.

Definition NATSBus_PublishAndAwaitTopology (key : string) (minZones : Z) (opts : list PublishOption) b
    : NATSBus * option error := (b, Some ErrQuorumUnsupported).

Definition NATSBus_RevokeLease (cx : ctx) (jitter : option error) (lid id : string) (ios : list publish_io) b :=
  NATSBus_Publish cx jitter (lease_key lid) id [] ios b.
Definition NATSBus_SubscribeLease (cx : ctx) (lid : string) (ios : list subscribe_io) (u : natsSubs) :=
  NATSBus_Subscribe cx (lease_key lid) ios u.
Definition NATSBus_UnsubscribeLease (unsub_err : option error) (lid : string) (ch : nat) (u : natsSubs) :=
  NATSBus_Unsubscribe unsub_err (lease_key lid) ch u.

Definition NATSBus_IsHealthy b : bool := true.
Definition NATSBus_Peers b : list string := [].
Definition NATSBus_Metrics b : Z * Z := (np_published (nb_pub b), nu_delivered (nb_sub b)).

End Publishing.
