(* ===== verification/NatsProps.v ===== *)
(** * NatsProps: what the NATS bus promises

    The invariant of the bus under every interleaving of its operations,
    goroutines and messages; what a publication sends and what a message does to
    the subscribers; and the publications the pending set swallows. *)

From S2P Require Import Prelude SyncBus Chans NatsBus.

(** ** Invariant *)

Definition nats_slice (u : natsSubs) (k : string) : list nat := default [] (ns_chans <$> nu_subs u !! k).

(** The channels are in order, no slice is empty, and every subscription lives
    on the current connection. *)
Record nats_subs_inv (u : natsSubs) : Prop := {
  nsi_hub : hub_inv (nats_slice u) (nu_heap u);
  nsi_sub : forall k s, nu_subs u !! k = Some s -> ns_chans s <> [] /\ ns_sub s = nu_conn u;
}.

(** A pending key has one goroutine that will unmark it: its publisher or its
    timer. *)
Record nats_pub_inv (p : natsPub) : Prop := {
  npi_nodup : NoDup (np_publishers p ++ np_timers p);
  npi_pending : forall k, k ∈ np_pending p <-> k ∈ np_publishers p ++ np_timers p;
}.

Definition nats_inv (b : NATSBus) : Prop := nats_pub_inv (nb_pub b) /\ nats_subs_inv (nb_sub b).

Lemma nats_slice_insert u k s k' h : nats_slice (set_nsubs u (<[k := s]> (nu_subs u)) h) k' =
  set_slice k (ns_chans s) (nats_slice u) k'.
Proof.
  unfold nats_slice, set_slice. simpl. case_decide; [subst; by rewrite lookup_insert_eq|]. by rewrite lookup_insert_ne.
Qed.

Lemma nats_reconnect_inv io u : nats_subs_inv u -> nats_subs_inv (fst (nats_reconnect io u)).
Proof.
  intros [Hh Hs]. unfold nats_reconnect. destruct (rio_connected io); [done|]. destruct (rio_connect io); [done|].
  destruct (resubscribe _ _); [done|]. split; simpl.
  - eapply hub_inv_ext; [|exact Hh]. intros k. unfold nats_slice. simpl. rewrite lookup_fmap.
    by destruct (nu_subs u !! k).
  - intros k s. rewrite lookup_fmap. destruct (nu_subs u !! k) as [s'|] eqn:E; [|done]. intros [= <-]. simpl.
    split; [by eapply Hs|done].
Qed.

(** A reconnection keeps the slices and the channels. *)
Lemma nats_reconnect_slice io u : nu_heap (fst (nats_reconnect io u)) = nu_heap u /\
  forall k, nats_slice (fst (nats_reconnect io u)) k = nats_slice u k.
Proof.
  unfold nats_reconnect, nats_slice. repeat case_match; try done. split; [done|]. intros k. simpl. rewrite lookup_fmap.
  by destruct (nu_subs u !! k).
Qed.

(** The channel [ch] has been made and is in no slice. *)
Definition made (ch : nat) (u : natsSubs) : Prop :=
  h_chans (nu_heap u) !! ch = Some (mkChan [] false) /\ forall k, ch ∉ nats_slice u k.

Lemma nats_enter_inv key ch u : nats_subs_inv u -> made ch u -> nats_subs_inv (nats_enter key ch u).
Proof.
  intros [Hh Hs] [Hc Hn]. split; simpl.
  - apply (hub_inv_ext (set_slice key (nats_slice u key ++ [ch]) (nats_slice u))).
    { intros k. unfold nats_slice, set_slice. simpl.
      case_decide; [subst; by rewrite lookup_insert_eq|by rewrite lookup_insert_ne]. }
    assert (forall k c, c ∈ set_slice key (nats_slice u key ++ [ch]) (nats_slice u) k ->
      c ∈ nats_slice u k \/ (k = key /\ c = ch)) as Hin.
    { intros k c. unfold set_slice. case_decide; [subst; rewrite elem_of_app, list_elem_of_singleton|]; tauto. }
    split; try apply Hh.
    + intros k. unfold set_slice. case_decide; [|apply Hh]. apply NoDup_app.
      split_and!; [apply Hh| |apply NoDup_singleton]. intros c Hc' ->%list_elem_of_singleton. by eapply Hn.
    + intros k1 k2 c [H1|[-> ->]]%Hin [H2|[-> E]]%Hin; [by eapply Hh| | |done]; subst; exfalso; by eapply Hn.
    + intros k c [H1|[-> ->]]%Hin; [by apply Hh|]. split. exists (mkChan [] false). split_and!; try done.
      simpl. unfold chan_cap. lia.
  - intros k s. destruct (decide (k = key)) as [->|]; [|rewrite lookup_insert_ne by done; apply Hs].
    rewrite lookup_insert_eq. intros [= <-]. simpl. split; [by destruct (default [] _)|].
    destruct (nu_subs u !! key) as [s|] eqn:E; [|done]. simpl. by eapply Hs.
Qed.

Lemma made_reconnect io ch u : made ch u -> made ch (fst (nats_reconnect io u)).
Proof.
  intros [H1 H2]. destruct (nats_reconnect_slice io u) as [Eh Es]. split; [by rewrite Eh|].
  intros k. rewrite Es. apply H2.
Qed.

Lemma nats_subscribe_loop_inv cx i key ch ios u : nats_subs_inv u -> made ch u ->
  nats_subs_inv (fst (nats_subscribe_loop cx i key ch ios u)).
Proof.
  revert i u. induction ios as [|io ios IH]; intros i u Hi Hm; [done|]. cbn [nats_subscribe_loop].
  pose proof (nats_enter_inv key ch u Hi Hm) as He. pose proof (nats_reconnect_inv (sio_reconnect io) u Hi) as Hr.
  pose proof (made_reconnect (sio_reconnect io) ch u Hm) as Hmr.
  unfold nats_subscribe_try. destruct (nu_subs u !! key); [done|].
  destruct (sio_subscribe io), (sio_flush io); try done; (destruct (cx i); [done|by apply IH]).
Qed.

Lemma heap_make_made u : nats_subs_inv u ->
  let u' := set_nsubs u (nu_subs u) (fst (heap_make (nu_heap u))) in nats_subs_inv u' /\ made (h_next (nu_heap u)) u'.
Proof.
  intros [Hh Hs].
  assert (forall k, h_next (nu_heap u) ∉ nats_slice u k) as Hn.
  { intros k Hin. pose proof (hub_inv_below _ _ k _ Hh Hin). lia. }
  split; [split; [|done]|split; [simpl; by rewrite lookup_insert_eq|done]].
  split; try apply Hh; simpl.
  - intros k c Hin. split. simpl. rewrite lookup_insert_ne; [by apply Hh|]. intros <-. by eapply Hn.
  - intros c. destruct (decide (c = h_next (nu_heap u))) as [->|]; [lia|]. rewrite lookup_insert_ne by done.
    intros Hc%Hh. lia.
Qed.

Lemma NATSBus_Subscribe_inv cx key ios u : nats_subs_inv u -> nats_subs_inv (fst (NATSBus_Subscribe cx key ios u)).
Proof.
  intros H. unfold NATSBus_Subscribe. destruct (heap_make_made u H) as [H1 H2].
  destruct (heap_make (nu_heap u)) as [h ch] eqn:E. unfold heap_make in E. injection E as <- <-. simpl in *.
  by apply nats_subscribe_loop_inv.
Qed.

Lemma NATSBus_Unsubscribe_inv e key ch u : nats_subs_inv u -> nats_subs_inv (fst (NATSBus_Unsubscribe e key ch u)).
Proof.
  intros [Hh Hs]. unfold NATSBus_Unsubscribe. destruct (nu_subs u !! key) as [sub|] eqn:E; [|done].
  pose proof (hub_inv_drop _ _ key ch Hh) as Hd. assert (nats_slice u key = ns_chans sub) as Ek.
  { unfold nats_slice. by rewrite E. }
  rewrite Ek in Hd. destruct (drop_chan ch (ns_chans sub) (nu_heap u)) as [chs h]. simpl in Hd.
  destruct (decide (chs = [])) as [->|Hne]; split; simpl.
  - eapply hub_inv_ext; [|exact Hd]. intros k. unfold set_slice, nats_slice. simpl.
    case_decide; [subst; by rewrite lookup_delete_eq|by rewrite lookup_delete_ne].
  - intros k s Hk. apply lookup_delete_Some in Hk as [_ Hk]. by eapply Hs.
  - eapply hub_inv_ext; [|exact Hd]. intros k. by rewrite nats_slice_insert.
  - intros k s. destruct (decide (k = key)) as [->|]; [|rewrite lookup_insert_ne by done; apply Hs].
    rewrite lookup_insert_eq. intros [= <-]. simpl. split; [done|]. by eapply Hs.
Qed.

Lemma natsHandler_inv key id u : nats_subs_inv u -> nats_subs_inv (natsHandler key id u).
Proof.
  intros [Hh Hs]. unfold natsHandler. case_decide; [done|]. simpl.
  destruct (nu_subs u !! key) as [sub|] eqn:E; [|by split].
  pose proof (hub_inv_deliver (nats_slice u) (nu_heap u) key (nats_event key) (ns_chans sub) Hh eq_refl) as Hd.
  destruct (heap_deliver _ _ _) as [h n]. split; simpl; [|done]. apply Hd. unfold nats_slice. by rewrite E.
Qed.

Lemma nats_recv_inv ch u : nats_subs_inv u -> nats_subs_inv (fst (nats_recv ch u)).
Proof.
  intros [Hh Hs]. unfold nats_recv. pose proof (hub_inv_recv _ _ ch Hh). destruct (heap_recv _ _). by split.
Qed.

(** ** Publishers and timers *)

Lemma nats_publish_begin_inv key p : nats_pub_inv p -> nats_pub_inv (fst (nats_publish_begin key p)).
Proof.
  intros [Hn Hp]. unfold nats_publish_begin. case_decide as Hk; [done|]. split; simpl.
  - apply NoDup_cons. split; [by rewrite <- Hp|done].
  - intros k. rewrite elem_of_union, elem_of_singleton, Hp. set_solver.
Qed.

(** A publisher or a timer that unmarks its key and ends. *)
Lemma nats_unmark_inv key l p pubs timers :
  nats_pub_inv p -> np_publishers p ++ np_timers p ≡ₚ key :: l -> pubs ++ timers = l ->
  nats_pub_inv (mkNPub (np_pending p ∖ {[key]}) (np_published p) pubs timers).
Proof.
  intros [Hn Hp] Hl <-. rewrite Hl in Hn. apply NoDup_cons in Hn as [Hk Hn]. split; simpl; [done|].
  intros k. rewrite elem_of_difference, elem_of_singleton, Hp, Hl, elem_of_cons.
  split; [tauto|]. intros Hin. split; [by right|]. by intros ->.
Qed.

Lemma nats_publish_abort_inv key p : key ∈ np_publishers p -> nats_pub_inv p -> nats_pub_inv (nats_publish_abort key p).
Proof.
  intros Hk Hi. eapply nats_unmark_inv; [done| |done].
  by rewrite <- (list_drop_perm key (np_publishers p) Hk) at 1.
Qed.

Lemma nats_timer_inv key p : key ∈ np_timers p -> nats_pub_inv p -> nats_pub_inv (nats_timer key p).
Proof.
  intros Hk Hi. eapply nats_unmark_inv; [done| |done].
  rewrite <- (list_drop_perm key (np_timers p) Hk) at 1. solve_Permutation.
Qed.

Lemma nats_publish_sent_inv key p : key ∈ np_publishers p -> nats_pub_inv p -> nats_pub_inv (nats_publish_sent key p).
Proof.
  intros Hk [Hn Hp].
  assert (list_drop key (np_publishers p) ++ key :: np_timers p ≡ₚ np_publishers p ++ np_timers p) as E.
  { rewrite <- (list_drop_perm key (np_publishers p) Hk) at 2. solve_Permutation. }
  split; simpl; [by rewrite E|]. intros k. by rewrite E.
Qed.

Lemma nats_publish_try_inv cx i key id io b : key ∈ np_publishers (nb_pub b) -> nats_inv b ->
  nats_inv (fst (nats_publish_try cx i key id io b)).
Proof.
  intros Hk [Hp Hs]. unfold nats_publish_try. pose proof (nats_reconnect_inv (pio_reconnect io) _ Hs) as Hr.
  destruct (pio_publish io); [destruct (cx i)|]; split; simpl; try done.
  - by apply nats_publish_abort_inv.
  - by apply nats_publish_sent_inv.
Qed.

(** ** Interleavings *)

(** Every critical section is a step, with the errors its calls meet. *)
Inductive nats_step : NATSBus -> NATSBus -> Prop :=
| nats_step_begin key b : nats_step b (mkNats (fst (nats_publish_begin key (nb_pub b))) (nb_sub b))
| nats_step_abort key b :
    key ∈ np_publishers (nb_pub b) -> nats_step b (mkNats (nats_publish_abort key (nb_pub b)) (nb_sub b))
| nats_step_publish cx i key id io b :
    key ∈ np_publishers (nb_pub b) -> nats_step b (fst (nats_publish_try cx i key id io b))
| nats_step_timer key b :
    key ∈ np_timers (nb_pub b) -> nats_step b (mkNats (nats_timer key (nb_pub b)) (nb_sub b))
| nats_step_make b :
    nats_step b (mkNats (nb_pub b)
      (set_nsubs (nb_sub b) (nu_subs (nb_sub b)) (fst (heap_make (nu_heap (nb_sub b))))))
| nats_step_subscribe cx i key ch io b :
    made ch (nb_sub b) -> nats_step b (mkNats (nb_pub b) (fst (nats_subscribe_try cx i key ch io (nb_sub b))))
| nats_step_unsubscribe e key ch b :
    nats_step b (mkNats (nb_pub b) (fst (NATSBus_Unsubscribe e key ch (nb_sub b))))
| nats_step_watcher e key ch b : nats_step b (mkNats (nb_pub b) (nats_watcher e key ch (nb_sub b)))
| nats_step_message key id b : nats_step b (mkNats (nb_pub b) (natsHandler key id (nb_sub b)))
| nats_step_recv ch b : nats_step b (mkNats (nb_pub b) (fst (nats_recv ch (nb_sub b)))).

Lemma nats_subscribe_try_inv cx i key ch io u : nats_subs_inv u -> made ch u ->
  nats_subs_inv (fst (nats_subscribe_try cx i key ch io u)).
Proof.
  intros Hi Hm. pose proof (nats_subscribe_loop_inv cx i key ch [io] u Hi Hm) as H. cbn [nats_subscribe_loop] in H.
  by destruct (nats_subscribe_try cx i key ch io u) as [u' [r|]].
Qed.

Lemma nats_step_inv b b' : nats_step b b' -> nats_inv b -> nats_inv b'.
Proof.
  destruct 1; intros [Hp Hs]; try (apply nats_publish_try_inv; (done || by split)); split; simpl; try done.
  - by apply nats_publish_begin_inv.
  - by apply nats_publish_abort_inv.
  - by apply nats_timer_inv.
  - by apply heap_make_made.
  - by apply nats_subscribe_try_inv.
  - by apply NATSBus_Unsubscribe_inv.
  - unfold nats_watcher. apply NATSBus_Unsubscribe_inv. destruct Hs. by split.
  - by apply natsHandler_inv.
  - by apply nats_recv_inv.
Qed.

Lemma nats_reachable_inv b : rtc nats_step NewNATSBus b -> nats_inv b.
Proof.
  intros Hr. assert (nats_inv NewNATSBus) as H0.
  { split; split; simpl; try done; [apply NoDup_nil_2|intros k; set_solver|].
    eapply hub_inv_ext; [|apply hub_inv_empty]. done. }
  revert H0. induction Hr as [|b1 b2 b3 Hs _ IH]; [done|]. intros H. apply IH. by eapply nats_step_inv.
Qed.

(** C24. Whatever interleaving of publishers, reconnections, timers,
    subscriptions, messages and receives a NATS bus goes through: nothing is sent
    on or closed twice, every subscribed channel is open and belongs to one key,
    every subscription lives on the current connection (a reconnection leaves
    none behind), and a pending key has exactly one goroutine, a publisher or a
    timer, that will unmark it. *)
Theorem NATSBus_reachable_inv b :
  rtc nats_step NewNATSBus b ->
  h_panicked (nu_heap (nb_sub b)) = false /\
  (forall k s, nu_subs (nb_sub b) !! k = Some s -> ns_sub s = nu_conn (nb_sub b) /\ ns_chans s <> [] /\
     NoDup (ns_chans s) /\ forall ch, ch ∈ ns_chans s -> chan_ok (nu_heap (nb_sub b)) k ch) /\
  NoDup (np_publishers (nb_pub b) ++ np_timers (nb_pub b)) /\
  (forall k, k ∈ np_pending (nb_pub b) <-> k ∈ np_publishers (nb_pub b) ++ np_timers (nb_pub b)).
Proof.
  intros Hr. apply nats_reachable_inv in Hr as [[Hn Hp] [Hh Hs]]. split_and!; [apply Hh| |done|done].
  intros k s Hk. destruct (Hs k s Hk) as [H1 H2].
  assert (nats_slice (nb_sub b) k = ns_chans s) as E by (unfold nats_slice; by rewrite Hk).
  rewrite <- E. split_and!; [done|by rewrite E|apply Hh|]. intros ch. apply Hh.
Qed.

(** ** Publications *)

(** The result of a loop that started with the key marked. *)
Definition published_right (cx : ctx) (key id : string) (b : NATSBus)
    (r : NATSBus * (option (option error) * list nats_message)) : Prop :=
  match r with
  | (b', (Some None, sent)) => sent = [mkNMsg key id] /\ key ∈ np_timers (nb_pub b')
  | (b', (Some (Some e), sent)) => sent = [] /\ (key ∉ np_pending (nb_pub b')) /\ exists i, cx i = Some e
  | (b', (None, sent)) => sent = [] /\ nb_pub b' = nb_pub b
  end.

Lemma nats_publish_loop_right cx i key id ios b : published_right cx key id b (nats_publish_loop cx i key id ios b).
Proof.
  revert i b. induction ios as [|io ios IH]; intros i b; [done|]. cbn [nats_publish_loop]. unfold nats_publish_try.
  destruct (pio_publish io) as [e0|]; [|simpl; split; [done|by left]].
  destruct (cx i) as [e1|] eqn:Ec; [simpl; split_and!; [done|set_solver|by exists i]|].
  specialize (IH (S i) (mkNats (nb_pub b) (fst (nats_reconnect (pio_reconnect io) (nb_sub b))))).
  by destruct (nats_publish_loop _ _ _ _ _ _) as [b' [[[e|]|] sent]].
Qed.

(** A publication over NATS. [Publish] of a key that is not pending sends
    exactly one message if it returns nil, and none if it returns an error, which
    is the context's; a pending key is dropped. On any node, in any state its
    operations reach, a message with an id not seen before is offered to exactly
    the subscribers of its key: those with an empty channel receive the event,
    the other channels do not change; seen again it has no effect. *)
Theorem nats_publication cx jitter key id opts ios b n :
  rtc nats_step NewNATSBus n -> id ∉ nu_processed (nb_sub n) ->
  let '(b', (r, sent)) := NATSBus_Publish cx jitter key id opts ios b in
  let u := natsHandler key id (nb_sub n) in
  (key ∉ np_pending (nb_pub b) ->
     (r = Some None <-> sent = [mkNMsg key id]) /\ (r <> Some None -> sent = []) /\
     (forall e, r = Some (Some e) -> jitter = Some e \/ exists i, cx i = Some e)) /\
  (key ∈ np_pending (nb_pub b) -> r = Some None /\ sent = [] /\ b' = b) /\
  (forall ch, ch ∈ nats_slice (nb_sub n) key -> exists c, h_chans (nu_heap (nb_sub n)) !! ch = Some c /\
     h_chans (nu_heap u) !! ch = Some (if decide (buffer c = []) then mkChan [nats_event key] false else c)) /\
  (forall ch, ch ∉ nats_slice (nb_sub n) key -> h_chans (nu_heap u) !! ch = h_chans (nu_heap (nb_sub n)) !! ch) /\
  natsHandler key id u = u.
Proof.
  intros Hr Hid. apply nats_reachable_inv in Hr as [_ [Hh Hs]].
  assert (nu_processed (natsHandler key id (nb_sub n)) = {[id]} ∪ nu_processed (nb_sub n) /\
    nu_heap (natsHandler key id (nb_sub n)) =
      fst (heap_deliver (nats_event key) (nats_slice (nb_sub n) key) (nu_heap (nb_sub n)))) as [Hp He].
  { unfold natsHandler, nats_slice. rewrite decide_False by done. simpl.
    destruct (nu_subs (nb_sub n) !! key); simpl; [|done]. by destruct (heap_deliver _ _ _). }
  assert (natsHandler key id (natsHandler key id (nb_sub n)) = natsHandler key id (nb_sub n)) as Hagain.
  { unfold natsHandler at 1. rewrite decide_True; [done|]. rewrite Hp. set_solver. }
  destruct (NATSBus_Publish cx jitter key id opts ios b) as [b' [r sent]] eqn:E. cbn zeta.
  split; [|split; [|split_and!; [| |exact Hagain]; rewrite He]].
  - intros Hk. unfold NATSBus_Publish, nats_publish_begin in E. rewrite decide_False in E by done.
    destruct jitter as [e|]; [injection E as <- <- <-; naive_solver|].
    pose proof (nats_publish_loop_right cx 0 key id ios (mkNats (mkNPub ({[key]} ∪ np_pending (nb_pub b))
      (np_published (nb_pub b)) (key :: np_publishers (nb_pub b)) (np_timers (nb_pub b))) (nb_sub b))) as Hl.
    rewrite E in Hl. destruct r as [[e|]|]; simpl in Hl; naive_solver.
  - intros Hk. unfold NATSBus_Publish, nats_publish_begin in E. rewrite decide_True in E by done.
    injection E as <- <- <-. by destruct b.
  - intros ch Hch. destruct (heap_deliver_offers _ (nats_event key) _ key ch Hh eq_refl Hch) as (c & ? & _ & ?).
    by exists c.
  - intros ch Hch. by apply heap_deliver_other.
Qed.

(** The pending set swallows publications: until its timer fires, a millisecond
    after a publication has returned, every further [Publish] of the key returns
    nil and sends nothing, although the message it follows may have been
    delivered and received before. *)
Theorem nats_publish_swallowed cx jitter key id id' opts ios b b' sent :
  key ∉ np_pending (nb_pub b) -> NATSBus_Publish cx jitter key id opts ios b = (b', (Some None, sent)) ->
  forall cx' jitter' opts' ios', NATSBus_Publish cx' jitter' key id' opts' ios' b' = (b', (Some None, [])).
Proof.
  intros Hk E cx' jitter' opts' ios'.
  assert (forall i ios b, key ∈ np_pending (nb_pub b) ->
    match nats_publish_loop cx i key id ios b with
    | (b1, (Some None, _)) => key ∈ np_pending (nb_pub b1) | _ => True end) as Hl.
  { intros i ios0. revert i. induction ios0 as [|io ios0 IH]; intros i b0 H0; [done|]. cbn [nats_publish_loop].
    unfold nats_publish_try. destruct (pio_publish io); [|done]. destruct (cx i); [done|]. by apply IH. }
  unfold NATSBus_Publish in E. unfold nats_publish_begin in E. rewrite decide_False in E by done.
  destruct jitter; [done|]. specialize (Hl 0%nat ios (mkNats (mkNPub ({[key]} ∪ np_pending (nb_pub b))
    (np_published (nb_pub b)) (key :: np_publishers (nb_pub b)) (np_timers (nb_pub b))) (nb_sub b))).
  rewrite E in Hl. unfold NATSBus_Publish, nats_publish_begin. rewrite decide_True by (apply Hl; set_solver).
  by destruct b'.
Qed.

(** The back-off stays within a second. *)
Lemma next_backoff_bounds n d : 0 < d <= Second -> d <= Nat.iter n next_backoff d <= Second.
Proof.
  intros Hd. induction n as [|n IH]; [simpl; lia|]. rewrite Nat.iter_succ. revert IH.
  generalize (Nat.iter n next_backoff d). intros e He. unfold next_backoff. unfold Second in *.
  repeat case_match; bool_to_prop; lia.
Qed.

(** ** Witnesses *)

Definition nats_io_ok : reconnect_io := mkRecIO true None (fun _ => None) None.

Definition nats_node : NATSBus := mkNats (nb_pub NewNATSBus)
  (fst (NATSBus_Subscribe Background "k" [mkSubIO None None nats_io_ok] (nb_sub NewNATSBus))).

Lemma nats_node_reachable : rtc nats_step NewNATSBus nats_node.
Proof.
  eapply rtc_l; [apply nats_step_make|]. eapply rtc_l; [|apply rtc_refl].
  eapply (nats_step_subscribe Background 0 "k" 0 (mkSubIO None None nats_io_ok)).
  split; [done|]. intros k Hin. by apply not_elem_of_nil in Hin.
Qed.

Lemma NATSBus_reachable_inv_witness : h_panicked (nu_heap (nb_sub nats_node)) = false.
Proof. apply NATSBus_reachable_inv, nats_node_reachable. Defined.

(** A publication that succeeds at its second try reaches the subscriber. *)
Lemma nats_publication_witness :
  let '(_, (r, sent)) := NATSBus_Publish Background None "k" "id" []
    [mkPubIO (Some ErrTimeout) nats_io_ok; mkPubIO None nats_io_ok] NewNATSBus in
  (r = Some None <-> sent = [mkNMsg "k" "id"]) /\
  h_chans (nu_heap (natsHandler "k" "id" (nb_sub nats_node))) !! 0%nat = Some (mkChan [nats_event "k"] false).
Proof.
  pose proof (nats_publication Background None "k" "id" [] [mkPubIO (Some ErrTimeout) nats_io_ok; mkPubIO None nats_io_ok]
    NewNATSBus nats_node nats_node_reachable ltac:(set_solver)) as H.
  destruct (NATSBus_Publish _ _ _ _ _ _ _) as [b' [r sent]]. destruct H as (H1 & _ & H2 & _).
  split; [apply H1; set_solver|]. destruct (H2 0%nat) as (c & Hc & E); [by left|].
  rewrite E. injection Hc as <-. done.
Defined.
