(* ===== verification/KafkaBus.v ===== *)
(** * KafkaBus: the invalidation bus over Kafka

    Models [src/syncbus/kafka/kafka.go]. The Kafka client (sarama) is outside
    the model: the errors its calls meet are arguments, and a closed producer
    that is used is recorded ([kp_misused]). A critical section is one function;
    the publishers in flight are a list, whose length is the wait group. A
    dispatching goroutine keeps a pointer to its subscription, which is a cell of
    a heap. *)

From S2P Require Import Prelude SyncBus Chans.

(** [kp_producer], [kp_consumer]: open or closed. *)
Record kafkaPub := mkKPub {
  kp_pending : gset string;
  kp_published : Z;
  kp_publishers : list string;
  kp_closed : bool;
  kp_producer : bool;
  kp_consumer : bool;
  kp_misused : bool;
}.

(** [ks_key]: the key its dispatching goroutine was started with; [ks_pc]: the
    partition consumer is open. *)
Record kafkaSubscription := mkKSub { ks_key : string; ks_pc : bool; ks_chans : list nat }.

Record kafkaSubs := mkKSubs {
  ku_subs : gmap string nat;
  ku_cells : gmap nat kafkaSubscription;
  ku_next : nat;
  ku_delivered : Z;
  ku_heap : chheap;
  ku_watchers : list (string * nat);
}.

Record KafkaBus := mkKafka { kb_pub : kafkaPub; kb_sub : kafkaSubs }.

Definition kafka_new : KafkaBus := mkKafka (mkKPub ∅ 0 [] false true true false) (mkKSubs ∅ ∅ 0 0 empty_heap []).

(** The errors of making the client, the producer and the consumer. The first
    component is [cfg.Producer.Return.Successes], which is set. *)
Definition NewKafkaBus (client producer consumer : option error) (successes : bool) : bool * res KafkaBus :=
  (if successes then successes else true,
   match client with
   | Some e => Err e
   | None =>
       match producer with
       | Some e => Err e
       | None => match consumer with Some e => Err e | None => Ok kafka_new end
       end
   end).

(** ** Publishing *)

Section Publishing.
Implicit Types p : kafkaPub.

Definition ErrKafkaClosed : error := ErrNew "kafka bus closed".

(** The locked first part of [Publish]; [None]: go on, with [wg.Add(1)]. *)
Definition kafka_publish_begin (key : string) p : kafkaPub * option (option error) :=
  if kp_closed p then (p, Some (Some ErrKafkaClosed))
  else if decide (key ∈ kp_pending p) then (p, Some None)
  else (mkKPub ({[key]} ∪ kp_pending p) (kp_published p) (key :: kp_publishers p) (kp_closed p)
          (kp_producer p) (kp_consumer p) (kp_misused p), None).

(** Unmark the key and [wg.Done()]; [n] publications are counted. *)
Definition kafka_publish_end (key : string) (n : Z) p : kafkaPub :=
  mkKPub (kp_pending p ∖ {[key]}) (u64 (kp_published p + n)) (list_drop key (kp_publishers p)) (kp_closed p)
    (kp_producer p) (kp_consumer p) (kp_misused p).

(** [b.producer.SendMessage(msg)], with the error it answers, and the rest. *)
Definition kafka_publish_send (send : option error) (key : string) p : kafkaPub * option error :=
  let p := mkKPub (kp_pending p) (kp_published p) (kp_publishers p) (kp_closed p) (kp_producer p) (kp_consumer p)
             (kp_misused p || negb (kp_producer p)) in
  match send with
  | Some e => (kafka_publish_end key 0 p, Some e)
  | None => (kafka_publish_end key 1 p, None)
  end.

(** [jitter] is the error of the context if it is done before the jitter is
    over. The options are not used. *)
Definition KafkaBus_Publish (jitter send : option error) (key : string) (opts : list PublishOption) p
    : kafkaPub * option error :=
  let '(p, r) := kafka_publish_begin key p in
  match r with
  | Some err => (p, err)
  | None =>
      match jitter with
      | Some e => (kafka_publish_end key 0 p, Some e)
      | None => kafka_publish_send send key p
      end
  end.

Definition KafkaBus_PublishAndAwait (jitter send : option error) (key : string) (replicas : Z)
    (opts : list PublishOption) p : kafkaPub * option error :=
  if replicas <=? 1 then KafkaBus_Publish jitter send key opts p else (p, Some ErrQuorumUnsupported).

Definition KafkaBus_PublishAndAwaitTopology (key : string) (minZones : Z) (opts : list PublishOption) p
    : kafkaPub * option error := (p, Some ErrQuorumUnsupported).

Definition KafkaBus_RevokeLease (jitter send : option error) (id : string) p : kafkaPub * option error :=
  KafkaBus_Publish jitter send (lease_key id) [] p.

(** [Close], its locked part: whether the rest follows. *)
Definition kafka_close_begin p : kafkaPub * bool :=
  if kp_closed p then (p, false)
  else (mkKPub (kp_pending p) (kp_published p) (kp_publishers p) true (kp_producer p) (kp_consumer p)
          (kp_misused p), true).

(** [b.wg.Wait()] returns when no publisher is in flight; then the clients are
    closed. [None]: still waiting. *)
Definition kafka_close_end p : option kafkaPub :=
  match kp_publishers p with
  | [] => Some (mkKPub (kp_pending p) (kp_published p) [] (kp_closed p) false false (kp_misused p))
  | _ :: _ => None
  end.

End Publishing.

(** ** Subscriptions *)

Section Subscriptions.
Implicit Types u : kafkaSubs.

Definition set_ksubs u subs cells heap : kafkaSubs :=
  mkKSubs subs cells (ku_next u) (ku_delivered u) heap (ku_watchers u).

(** [consume]: the error of [ConsumePartition]. *)
Definition KafkaBus_Subscribe (consume : option error) (key : string) u : kafkaSubs * res nat :=
  let '(h, ch) := heap_make (ku_heap u) in
  match ku_subs u !! key ≫= fun id => pair id <$> ku_cells u !! id with
  | None =>
      match consume with
      | Some e => (set_ksubs u (ku_subs u) (ku_cells u) h, Err e)
      | None =>
          (mkKSubs (<[key := ku_next u]> (ku_subs u)) (<[ku_next u := mkKSub key true [ch]]> (ku_cells u))
             (S (ku_next u)) (ku_delivered u) h ((key, ch) :: ku_watchers u), Ok ch)
      end
  | Some (id, sub) =>
      (mkKSubs (ku_subs u) (<[id := mkKSub (ks_key sub) (ks_pc sub) (ks_chans sub ++ [ch])]> (ku_cells u))
         (ku_next u) (ku_delivered u) h ((key, ch) :: ku_watchers u), Ok ch)
  end.

(** [close_err]: the error of closing the partition consumer. *)
Definition KafkaBus_Unsubscribe (close_err : option error) (key : string) (ch : nat) u
    : kafkaSubs * option error :=
  match ku_subs u !! key ≫= fun id => pair id <$> ku_cells u !! id with
  | None => (u, None)
  | Some (id, sub) =>
      let '(chs, h) := drop_chan ch (ks_chans sub) (ku_heap u) in
      if decide (chs = []) then
        (set_ksubs u (delete key (ku_subs u)) (<[id := mkKSub (ks_key sub) false []]> (ku_cells u)) h, close_err)
      else (set_ksubs u (ku_subs u) (<[id := mkKSub (ks_key sub) (ks_pc sub) chs]> (ku_cells u)) h, None)
  end.

(** The goroutine of a subscription whose context is done. *)
Definition kafka_watcher (close_err : option error) (key : string) (ch : nat) u : kafkaSubs :=
  fst (KafkaBus_Unsubscribe close_err key ch
    (mkKSubs (ku_subs u) (ku_cells u) (ku_next u) (ku_delivered u) (ku_heap u)
       (filter (fun w => w <> (key, ch)) (ku_watchers u)))).

(** One message of the partition consumer: an iteration of [dispatch]. *)
Definition kafka_dispatch (id : nat) u : kafkaSubs :=
  match ku_cells u !! id with
  | None => u
  | Some sub =>
      let '(h, n) := heap_deliver (mkEvent (ks_key sub) "" None ScopeLocal) (ks_chans sub) (ku_heap u) in
      mkKSubs (ku_subs u) (ku_cells u) (ku_next u) (u64 (ku_delivered u + n)) h (ku_watchers u)
  end.

Definition kafka_recv (ch : nat) u : kafkaSubs * recv :=
  let '(h, r) := heap_recv ch (ku_heap u) in (set_ksubs u (ku_subs u) (ku_cells u) h, r).

Definition KafkaBus_SubscribeLease (consume : option error) (id : string) u : kafkaSubs * res nat :=
  KafkaBus_Subscribe consume (lease_key id) u.
Definition KafkaBus_UnsubscribeLease (close_err : option error) (id : string) (ch : nat) u
    : kafkaSubs * option error := KafkaBus_Unsubscribe close_err (lease_key id) ch u.

Definition KafkaBus_IsHealthy (b : KafkaBus) : bool := true.
Definition KafkaBus_Peers (b : KafkaBus) : list string := [].
Definition KafkaBus_Metrics (b : KafkaBus) : Z * Z := (kp_published (kb_pub b), ku_delivered (kb_sub b)).

End Subscriptions.

(** ** Invariant *)

Section Invariant.
Implicit Types (p : kafkaPub) (u : kafkaSubs).

(** A pending key has one publisher; the producer is open while there are
    publishers, it is closed after the bus, and it has not been used since. *)
Record kafka_pub_inv p : Prop := {
  kpi_nodup : NoDup (kp_publishers p);
  kpi_pending : forall k, k ∈ kp_pending p <-> k ∈ kp_publishers p;
  kpi_open : kp_producer p = false -> kp_closed p = true /\ kp_publishers p = [];
  kpi_used : kp_misused p = false;
}.

Lemma kafka_publish_begin_inv key p : kafka_pub_inv p -> kafka_pub_inv (fst (kafka_publish_begin key p)).
Proof.
  intros Hi. pose proof Hi as [H1 H2 H3 H4]. unfold kafka_publish_begin. destruct (kp_closed p) eqn:Ec; [exact Hi|].
  case_decide as Hk; [exact Hi|]. split; simpl; try done.
  - apply NoDup_cons. split; [by rewrite <- H2|done].
  - intros k. rewrite elem_of_union, elem_of_singleton, H2. set_solver.
  - intros Hp. destruct (H3 Hp). congruence.
Qed.

Lemma kafka_publish_end_inv key n p : key ∈ kp_publishers p -> kafka_pub_inv p ->
  kafka_pub_inv (kafka_publish_end key n p).
Proof.
  intros Hk [H1 H2 H3 H4]. pose proof (list_drop_perm key _ Hk) as Hp. split; simpl; try done.
  - rewrite <- Hp in H1. by apply NoDup_cons in H1 as [_ ?].
  - intros k. assert (k ∈ kp_publishers p <-> k = key \/ k ∈ list_drop key (kp_publishers p)) as Hd.
    { rewrite <- Hp at 1. apply elem_of_cons. }
    rewrite elem_of_difference, elem_of_singleton, H2, Hd.
    rewrite <- Hp in H1. apply NoDup_cons in H1 as [Hn _]. split; [tauto|]. intros Hin. split; [by right|].
    by intros ->.
  - intros Hf. destruct (H3 Hf) as [_ E]. rewrite E in Hk. by apply not_elem_of_nil in Hk.
Qed.

Lemma kafka_publish_send_inv send key p : key ∈ kp_publishers p -> kafka_pub_inv p ->
  kafka_pub_inv (fst (kafka_publish_send send key p)).
Proof.
  intros Hk Hi. destruct Hi as [H1 H2 H3 H4]. assert (kp_producer p = true) as Ho.
  { destruct (kp_producer p) eqn:E; [done|]. destruct (H3 eq_refl) as [_ E']. rewrite E' in Hk.
    by apply not_elem_of_nil in Hk. }
  unfold kafka_publish_send. rewrite H4, Ho. simpl.
  destruct send; apply kafka_publish_end_inv; try done; split; simpl; try done; intros; congruence.
Qed.

Lemma kafka_close_begin_inv p : kafka_pub_inv p -> kafka_pub_inv (fst (kafka_close_begin p)).
Proof.
  intros Hi. pose proof Hi as [H1 H2 H3 H4]. unfold kafka_close_begin. destruct (kp_closed p) eqn:E; [exact Hi|].
  split; simpl; try done. intros Hf. by destruct (H3 Hf).
Qed.

Lemma kafka_close_end_inv p p' : kp_closed p = true -> kafka_close_end p = Some p' -> kafka_pub_inv p -> kafka_pub_inv p'.
Proof.
  intros Hc. unfold kafka_close_end. destruct (kp_publishers p) eqn:E; [|done]. intros [= <-] [H1 H2 H3 H4].
  split; simpl; try done; [apply NoDup_nil_2|]. intros k. by rewrite H2, E.
Qed.

(** The channels subscribed to a key. *)
Definition kafka_slice u (k : string) : list nat :=
  default [] (ks_chans <$> (ku_subs u !! k ≫= fun id => ku_cells u !! id)).

(** A cell belongs to the key of its goroutine or has no channels. *)
Record kafka_subs_inv u : Prop := {
  kui_hub : hub_inv (kafka_slice u) (ku_heap u);
  kui_cell : forall id s, ku_cells u !! id = Some s ->
    (id < ku_next u)%nat /\ (ku_subs u !! ks_key s = Some id \/ ks_chans s = []);
  kui_sub : forall k id, ku_subs u !! k = Some id -> exists s, ku_cells u !! id = Some s /\ ks_key s = k /\
    ks_pc s = true /\ ks_chans s <> [];
}.

Lemma kafka_lookup u k id s : kafka_subs_inv u -> ku_subs u !! k = Some id -> ku_cells u !! id = Some s ->
  ks_key s = k /\ kafka_slice u k = ks_chans s /\ ks_pc s = true.
Proof.
  intros H Hk Hc. destruct (kui_sub u H k id Hk) as (s' & Hs & ? & ? & _). simplify_eq. split_and!; try done.
  unfold kafka_slice. rewrite Hk. simpl. by rewrite Hc.
Qed.

(** The slices, after a cell that is in the map has changed. *)
Lemma kafka_slice_cell u k id s' h : kafka_subs_inv u -> ku_subs u !! k = Some id ->
  forall k', kafka_slice (set_ksubs u (ku_subs u) (<[id := s']> (ku_cells u)) h) k' =
    set_slice k (ks_chans s') (kafka_slice u) k'.
Proof.
  intros H Hk k'. unfold set_slice, kafka_slice. simpl. case_decide as E; [subst; rewrite Hk; simpl; by rewrite lookup_insert_eq|].
  destruct (ku_subs u !! k') as [id'|] eqn:Hk'; [|done]. simpl. rewrite lookup_insert_ne; [done|].
  intros <-. destruct (kui_sub u H k id Hk) as (s1 & H1 & <- & _), (kui_sub u H k' id Hk') as (s2 & H2 & <- & _).
  apply E. congruence.
Qed.

Lemma kafka_cell_inv u k id s chs h : kafka_subs_inv u -> ku_subs u !! k = Some id -> ku_cells u !! id = Some s ->
  hub_inv (set_slice k chs (kafka_slice u)) h -> chs <> [] ->
  kafka_subs_inv (set_ksubs u (ku_subs u) (<[id := mkKSub (ks_key s) (ks_pc s) chs]> (ku_cells u)) h).
Proof.
  intros H Hk Hc Hh Hne. destruct (kafka_lookup u k id s H Hk Hc) as (Hkey & _ & Hpc). split; simpl.
  - eapply hub_inv_ext; [|exact Hh]. intros k'. by rewrite (kafka_slice_cell u k id).
  - intros id' s'. destruct (decide (id' = id)) as [->|]; [|rewrite lookup_insert_ne by done; apply H].
    rewrite lookup_insert_eq. intros [= <-]. simpl. rewrite Hkey. split; [by eapply H|by left].
  - intros k' id' Hk'. destruct (kui_sub u H k' id' Hk') as (s1 & H1 & H2 & H3 & H4).
    destruct (decide (id' = id)) as [->|]; [|rewrite lookup_insert_ne by done; eauto].
    rewrite lookup_insert_eq. eexists. split; [done|]. simpl. simplify_eq. done.
Qed.

Lemma KafkaBus_Subscribe_inv consume key u : kafka_subs_inv u -> kafka_subs_inv (fst (KafkaBus_Subscribe consume key u)).
Proof.
  intros H. unfold KafkaBus_Subscribe. pose proof (hub_inv_make _ _ key (kui_hub u H)) as Hm.
  destruct (heap_make (ku_heap u)) as [h ch] eqn:Eh. unfold heap_make in Eh. injection Eh as <- <-. simpl in Hm.
  destruct (ku_subs u !! key) as [id|] eqn:Hk; simpl.
  - destruct (kui_sub u H key id Hk) as (s & Hc & Hkey & Hpc & Hne). rewrite Hc. simpl.
    destruct (kafka_lookup u key id s H Hk Hc) as (_ & Es & _). rewrite Es in Hm.
    pose proof (kafka_cell_inv u key id s _ _ H Hk Hc Hm ltac:(by destruct (ks_chans s))) as [G1 G2 G3]. by split.
  - destruct consume; split; simpl; try apply H.
    + pose proof (kui_hub u H) as [J1 J2 J3 J4 J5]. split; simpl; try done.
      * intros k c Hin. pose proof (hub_inv_below _ _ k c (kui_hub u H) Hin). split. simpl.
        rewrite lookup_insert_ne by lia. by apply J3.
      * intros c. destruct (decide (c = h_next (ku_heap u))) as [->|]; [lia|]. rewrite lookup_insert_ne by done.
        intros Hc%J4. lia.
    + assert (kafka_slice u key = []) as Es by (unfold kafka_slice; by rewrite Hk). rewrite Es in Hm.
      eapply hub_inv_ext; [|exact Hm]. intros k. unfold set_slice, kafka_slice. simpl.
      case_decide; [subst; rewrite lookup_insert_eq; simpl; by rewrite lookup_insert_eq|].
      rewrite lookup_insert_ne by done. destruct (ku_subs u !! k) as [id'|] eqn:Hk'; [|done]. simpl.
      destruct (kui_sub u H k id' Hk') as (s & Hs & _). rewrite lookup_insert_ne; [done|].
      apply H in Hs as [? _]. lia.
    + intros id s. destruct (decide (id = ku_next u)) as [->|].
      * rewrite lookup_insert_eq. intros [= <-]. simpl. split; [lia|]. left. by rewrite lookup_insert_eq.
      * rewrite lookup_insert_ne by done. intros Hs. destruct (kui_cell u H id s Hs) as [? [Hk'|?]]; [|split; [lia|by right]].
        split; [lia|]. left. rewrite lookup_insert_ne; [done|]. congruence.
    + intros k id. destruct (decide (k = key)) as [->|].
      * rewrite lookup_insert_eq. intros [= <-]. eexists. rewrite lookup_insert_eq. split_and!; done.
      * rewrite lookup_insert_ne by done. intros Hk'. destruct (kui_sub u H k id Hk') as (s & Hs & ?).
        exists s. rewrite lookup_insert_ne; [done|]. apply H in Hs as [? _]. lia.
Qed.

Lemma KafkaBus_Unsubscribe_inv e key ch u : kafka_subs_inv u -> kafka_subs_inv (fst (KafkaBus_Unsubscribe e key ch u)).
Proof.
  intros H. unfold KafkaBus_Unsubscribe. destruct (ku_subs u !! key) as [id|] eqn:Hk; simpl; [|done].
  destruct (kui_sub u H key id Hk) as (s & Hc & Hkey & Hpc & Hne). rewrite Hc. simpl.
  pose proof (hub_inv_drop _ _ key ch (kui_hub u H)) as Hd.
  destruct (kafka_lookup u key id s H Hk Hc) as (_ & Es & _). rewrite Es in Hd.
  destruct (drop_chan ch (ks_chans s) (ku_heap u)) as [chs h]. simpl in Hd.
  destruct (decide (chs = [])) as [->|Hn]; [|by eapply (kafka_cell_inv u key id s)]. split; simpl.
  - eapply hub_inv_ext; [|exact Hd]. intros k. rewrite <- (kafka_slice_cell u key id (mkKSub (ks_key s) false []) h H Hk).
    unfold kafka_slice. simpl. destruct (decide (k = key)) as [->|]; [|by rewrite lookup_delete_ne].
    rewrite Hk, lookup_delete_eq. simpl. by rewrite lookup_insert_eq.
  - intros id' s'. destruct (decide (id' = id)) as [->|].
    + rewrite lookup_insert_eq. intros [= <-]. simpl. split; [by eapply H|by right].
    + rewrite lookup_insert_ne by done. intros Hs. destruct (kui_cell u H id' s' Hs) as [? [Hk'|?]]; [|split; [done|by right]].
      split; [done|]. left. rewrite lookup_delete_ne; [done|]. intros E. congruence.
  - intros k id' Hk'. apply lookup_delete_Some in Hk' as [Hne' Hk'].
    destruct (kui_sub u H k id' Hk') as (s' & Hs' & ? & ? & ?). exists s'. rewrite lookup_insert_ne; [done|].
    intros ->. congruence.
Qed.

Lemma kafka_dispatch_inv id u : kafka_subs_inv u -> kafka_subs_inv (kafka_dispatch id u).
Proof.
  intros H. unfold kafka_dispatch. destruct (ku_cells u !! id) as [s|] eqn:Hc; [|done].
  pose proof (hub_inv_deliver (kafka_slice u) (ku_heap u) (ks_key s) (mkEvent (ks_key s) "" None ScopeLocal)
    (ks_chans s) (kui_hub u H) eq_refl) as Hd.
  assert (ks_chans s ⊆ kafka_slice u (ks_key s)) as Hs.
  { destruct (kui_cell u H id s Hc) as [_ [Hk| ->]]; [|set_solver].
    destruct (kafka_lookup u _ id s H Hk Hc) as (_ & -> & _). done. }
  specialize (Hd Hs). destruct (heap_deliver _ _ _) as [h n]. destruct H. by split.
Qed.

Lemma kafka_recv_inv ch u : kafka_subs_inv u -> kafka_subs_inv (fst (kafka_recv ch u)).
Proof.
  intros [H1 H2 H3]. unfold kafka_recv. pose proof (hub_inv_recv _ _ ch H1). destruct (heap_recv _ _). by split.
Qed.

End Invariant.

(** ** Interleavings *)

(** Every critical section is a step, with the errors its calls meet. *)
Inductive kafka_step : KafkaBus -> KafkaBus -> Prop :=
| kafka_step_begin key b : kafka_step b (mkKafka (fst (kafka_publish_begin key (kb_pub b))) (kb_sub b))
| kafka_step_abort key b :
    key ∈ kp_publishers (kb_pub b) -> kafka_step b (mkKafka (kafka_publish_end key 0 (kb_pub b)) (kb_sub b))
| kafka_step_send send key b :
    key ∈ kp_publishers (kb_pub b) -> kafka_step b (mkKafka (fst (kafka_publish_send send key (kb_pub b))) (kb_sub b))
| kafka_step_close b : kafka_step b (mkKafka (fst (kafka_close_begin (kb_pub b))) (kb_sub b))
| kafka_step_closed p b :
    kp_closed (kb_pub b) = true -> kafka_close_end (kb_pub b) = Some p -> kafka_step b (mkKafka p (kb_sub b))
| kafka_step_subscribe consume key b :
    kafka_step b (mkKafka (kb_pub b) (fst (KafkaBus_Subscribe consume key (kb_sub b))))
| kafka_step_unsubscribe e key ch b :
    kafka_step b (mkKafka (kb_pub b) (fst (KafkaBus_Unsubscribe e key ch (kb_sub b))))
| kafka_step_watcher e key ch b : kafka_step b (mkKafka (kb_pub b) (kafka_watcher e key ch (kb_sub b)))
| kafka_step_message id b : kafka_step b (mkKafka (kb_pub b) (kafka_dispatch id (kb_sub b)))
| kafka_step_recv ch b : kafka_step b (mkKafka (kb_pub b) (fst (kafka_recv ch (kb_sub b)))).

Definition kafka_inv (b : KafkaBus) : Prop := kafka_pub_inv (kb_pub b) /\ kafka_subs_inv (kb_sub b).

Lemma kafka_step_inv b b' : kafka_step b b' -> kafka_inv b -> kafka_inv b'.
Proof.
  destruct 1; intros [Hp Hs]; split; simpl; try done.
  - by apply kafka_publish_begin_inv.
  - by apply kafka_publish_end_inv.
  - by apply kafka_publish_send_inv.
  - by apply kafka_close_begin_inv.
  - by eapply kafka_close_end_inv.
  - by apply KafkaBus_Subscribe_inv.
  - by apply KafkaBus_Unsubscribe_inv.
  - unfold kafka_watcher. apply KafkaBus_Unsubscribe_inv. destruct Hs. by split.
  - by apply kafka_dispatch_inv.
  - by apply kafka_recv_inv.
Qed.

Lemma kafka_reachable_inv b : rtc kafka_step kafka_new b -> kafka_inv b.
Proof.
  intros Hr. assert (kafka_inv kafka_new) as H0.
  { split; split; simpl; try done; [apply NoDup_nil_2|intros k; set_solver|].
    eapply hub_inv_ext; [|apply hub_inv_empty]. done. }
  revert H0. induction Hr as [|b1 b2 b3 Hs _ IH]; [done|]. intros H. apply IH. by eapply kafka_step_inv.
Qed.

(** C25. Whatever interleaving of publishers, messages, subscriptions and [Close]
    a Kafka bus goes through: the producer is never used after [Close] has closed
    it, since [Close] waits for the publishers in flight and lets no new one in;
    nothing is sent on or closed twice; a pending key has one publisher; and a
    message is offered to exactly the channels subscribed to its key at that
    time, by a goroutine of the current or of an ended subscription. *)
Theorem KafkaBus_reachable_inv b :
  rtc kafka_step kafka_new b ->
  kp_misused (kb_pub b) = false /\
  (kp_producer (kb_pub b) = false -> kp_closed (kb_pub b) = true /\ kp_publishers (kb_pub b) = []) /\
  h_panicked (ku_heap (kb_sub b)) = false /\
  NoDup (kp_publishers (kb_pub b)) /\ (forall k, k ∈ kp_pending (kb_pub b) <-> k ∈ kp_publishers (kb_pub b)) /\
  (forall id s ch, ku_cells (kb_sub b) !! id = Some s ->
     let heap := h_chans (ku_heap (kafka_dispatch id (kb_sub b))) in
     if decide (ku_subs (kb_sub b) !! ks_key s = Some id /\ ch ∈ kafka_slice (kb_sub b) (ks_key s))
     then exists c, h_chans (ku_heap (kb_sub b)) !! ch = Some c /\ heap !! ch =
       Some (if decide (buffer c = []) then mkChan [mkEvent (ks_key s) "" None ScopeLocal] false else c)
     else heap !! ch = h_chans (ku_heap (kb_sub b)) !! ch).
Proof.
  intros Hr. apply kafka_reachable_inv in Hr as [[H1 H2 H3 H4] Hs]. split_and!; try done; [apply Hs|].
  intros id s ch Hc. unfold kafka_dispatch. rewrite Hc. cbn zeta.
  pose proof (heap_deliver_other (mkEvent (ks_key s) "" None ScopeLocal) (ks_chans s) (ku_heap (kb_sub b)) ch) as Ho.
  pose proof (heap_deliver_offers (kafka_slice (kb_sub b)) (mkEvent (ks_key s) "" None ScopeLocal)
    (ku_heap (kb_sub b)) (ks_key s) ch (kui_hub _ Hs) eq_refl) as Hf.
  destruct (decide _) as [[Hk Hin]|Hn].
  - destruct (kafka_lookup _ _ id s Hs Hk Hc) as (_ & E & _). destruct (Hf Hin) as (c & ? & _ & Hd).
    rewrite E in Hd. destruct (heap_deliver _ _ _). by exists c.
  - assert (ch ∉ ks_chans s) as Hch.
    { destruct (kui_cell _ Hs id s Hc) as [_ [Hk| ->]]; [|apply not_elem_of_nil]. intros Hin. apply Hn. split; [done|].
      destruct (kafka_lookup _ _ id s Hs Hk Hc) as (_ & E & _). by rewrite E. }
    specialize (Ho Hch). by destruct (heap_deliver _ _ _).
Qed.

(** ** Witness *)

Definition kafka_demo : KafkaBus := mkKafka (kb_pub kafka_new) (fst (KafkaBus_Subscribe None "k" (kb_sub kafka_new))).

Lemma KafkaBus_reachable_inv_witness : kp_misused (kb_pub kafka_demo) = false.
Proof. apply KafkaBus_reachable_inv. eapply rtc_l; [apply kafka_step_subscribe|apply rtc_refl]. Defined.
