(* ===== verification/CircuitBreaker.v ===== *)
(** * CircuitBreaker: a bus behind a circuit breaker

    Models [src/syncbus/circuit_breaker.go]. The breaker is a type of the
    foundation library: its state, [NewCircuitBreaker], [State] and [Execute]
    are a parameter. Its documented behaviour is [LawfulBreaker]: an open
    breaker refuses a call with [ErrCircuitOpen] and does not run it, any other
    breaker runs it once and passes its error on. *)

From S2P Require Import Prelude SyncBus.

Inductive breakerState := StateClosed | StateOpen | StateHalfOpen.

#[export] Instance breakerState_eq_dec : EqDecision breakerState.
Proof. solve_decision. Defined.

(** [br_Execute f] takes the breaker and the state [f] works on. The admission
    decision ([br_allows]) may depend on the clock. *)
Class Breaker (Br : Type) := {
  br_New : Z -> duration -> Br;
  br_State : Br -> breakerState;
  br_allows : time -> Br -> bool;
  br_Execute : forall {S : Type}, time -> (S -> S * option error) -> Br * S -> (Br * S) * option error;
}.

Class LawfulBreaker (Br : Type) `{Breaker Br} := {
  br_refuses : forall S now f (br : Br) (s : S), br_allows now br = false ->
    exists br', br_Execute now f (br, s) = ((br', s), Some ErrCircuitOpen);
  br_runs : forall S now f (br : Br) (s : S), br_allows now br = true ->
    exists br', br_Execute now f (br, s) = ((br', fst (f s)), snd (f s));
  br_closed_allows : forall now (br : Br), br_State br = StateClosed -> br_allows now br = true;
  br_new_closed : forall threshold timeout, br_State (br_New threshold timeout) = StateClosed;
}.

Section CircuitBreakerBus.
Context {B Br : Type} `{!Bus B, !Breaker Br}.
Implicit Types cb : Br * B.

Definition NewCircuitBreaker (bus : B) (threshold : Z) (timeout : duration) : Br * B :=
  (br_New threshold timeout, bus).

Definition CircuitBreakerBus_IsHealthy cb : bool := bool_decide (br_State (fst cb) = StateClosed).

Definition CircuitBreakerBus_Publish (now : time) (cx : ctx) (key : string) (opts : list PublishOption) cb
    : (Br * B) * option error :=
  br_Execute now (bus_Publish cx key opts) cb.

Definition CircuitBreakerBus_PublishAndAwait (now : time) (cx : ctx) (key : string) (replicas : Z)
    (opts : list PublishOption) cb : (Br * B) * option error :=
  br_Execute now (bus_PublishAndAwait cx key replicas opts) cb.

Definition CircuitBreakerBus_PublishAndAwaitTopology (now : time) (cx : ctx) (key : string) (minZones : Z)
    (opts : list PublishOption) cb : (Br * B) * option error :=
  br_Execute now (bus_PublishAndAwaitTopology cx key minZones opts) cb.

Definition CircuitBreakerBus_RevokeLease (now : time) (cx : ctx) (id : string) cb : (Br * B) * option error :=
  br_Execute now (bus_RevokeLease cx id) cb.

(** The subscriptions bypass the breaker. *)
Definition bypass {A : Type} (f : B -> B * A) cb : (Br * B) * A :=
  let '(b, a) := f (snd cb) in ((fst cb, b), a).

Definition CircuitBreakerBus_Subscribe (cx : ctx) (key : string) cb : (Br * B) * res nat :=
  bypass (bus_Subscribe cx key) cb.
Definition CircuitBreakerBus_Unsubscribe (cx : ctx) (key : string) (ch : nat) cb : (Br * B) * option error :=
  bypass (bus_Unsubscribe cx key ch) cb.
Definition CircuitBreakerBus_SubscribeLease (cx : ctx) (id : string) cb : (Br * B) * res nat :=
  bypass (bus_SubscribeLease cx id) cb.
Definition CircuitBreakerBus_UnsubscribeLease (cx : ctx) (id : string) (ch : nat) cb : (Br * B) * option error :=
  bypass (bus_UnsubscribeLease cx id ch) cb.

End CircuitBreakerBus.

Section Laws.
Context {M : Type -> Type} `{!SafeMap M, !LawfulSafeMap M}.
Context {Br : Type} `{!Breaker Br, !LawfulBreaker Br}.
Implicit Types (cb : Br * InMemoryBus M).

(** A publication through the breaker either leaves the bus untouched and
    reports [ErrCircuitOpen], or reaches every subscriber. *)
Theorem CircuitBreakerBus_Publish_all_or_nothing now key opts cb :
  bus_inv (snd cb) -> sm_Get key (pending (snd cb)) = None ->
  let '(cb', err) := CircuitBreakerBus_Publish now Background key opts cb in
  if br_allows now (fst cb) then
    err = None /\ forall ch, ch ∈ subscribed (snd cb) key ->
      exists e, chans (snd cb') !! ch = Some (mkChan [e] false) /\ evt_Key e = key
  else err = Some ErrCircuitOpen /\ snd cb' = snd cb.
Proof.
  destruct cb as [br b]. simpl. intros Hb Hp. unfold CircuitBreakerBus_Publish.
  destruct (br_allows now br) eqn:Ha.
  - destruct (br_runs _ now (bus_Publish Background key opts) br b Ha) as [br' ->].
    destruct (Publish_reaches_all key opts b Hb Hp) as (b' & E & Hall & _). simpl. rewrite E.
    split; [done|]. intros ch Hc. destruct (Hall ch Hc) as (e & He & Hk & _). by exists e.
  - destruct (br_refuses _ now (bus_Publish Background key opts) br b Ha) as [br' ->]. done.
Qed.

(** A healthy bus admits every publication. *)
Lemma CircuitBreakerBus_healthy_admits now cb :
  CircuitBreakerBus_IsHealthy cb = true -> br_allows now (fst cb) = true.
Proof. unfold CircuitBreakerBus_IsHealthy. intros H%bool_decide_eq_true. by apply br_closed_allows. Qed.

End Laws.

(** ** A breaker that satisfies the laws

    It opens for [timeout] after [threshold] failures in a row. *)
Record simpleBreaker := mkBreaker {
  sb_threshold : Z; sb_timeout : duration; sb_failures : Z; sb_until : option time }.

#[export] Instance simpleBreaker_Breaker : Breaker simpleBreaker := {
  br_New := fun threshold timeout => mkBreaker threshold timeout 0 None;
  br_State := fun br => match sb_until br with None => StateClosed | Some _ => StateOpen end;
  br_allows := fun now br => match sb_until br with None => true | Some t => t <=? now end;
  br_Execute := fun S now f st =>
    let '(br, s) := st in
    if (match sb_until br with None => true | Some t => t <=? now end)
    then
      let '(s, err) := f s in
      ((match err with
        | None => mkBreaker (sb_threshold br) (sb_timeout br) 0 None
        | Some _ =>
            let n := sb_failures br + 1 in
            mkBreaker (sb_threshold br) (sb_timeout br) n
              (if sb_threshold br <=? n then Some (now + sb_timeout br) else None)
        end, s), err)
    else ((br, s), Some ErrCircuitOpen);
}.

#[export] Instance simpleBreaker_lawful : LawfulBreaker simpleBreaker.
Proof.
  split; simpl.
  - intros S now f br s ->. by eexists.
  - intros S now f br s ->. destruct (f s). by eexists.
  - intros now br. by destruct (sb_until br).
  - done.
Qed.

Lemma CircuitBreakerBus_Publish_all_or_nothing_witness :
  snd (CircuitBreakerBus_Publish 0 Background "k" []
    (mkBreaker 1 10 1 (Some 5), bus_demo)) = Some ErrCircuitOpen.
Proof.
  pose proof (CircuitBreakerBus_Publish_all_or_nothing 0 "k" [] (mkBreaker 1 10 1 (Some 5), bus_demo)
    bus_demo_inv eq_refl) as H.
  destruct (CircuitBreakerBus_Publish 0 Background "k" [] _) as [cb' err]. exact (proj1 H).
Defined.
