(* ===== verification/RedisBus.v ===== *)
(** * RedisBus: the invalidation bus over redis

    Models [src/syncbus/redis/redis.go]: publication with its pending set, the
    batcher with its retry over a fresh connection, the global update channel,
    deduplication of payloads, subscriptions, [Close].

    Outside the model is what runs in other code: the redis client (whether a
    call fails is an argument of the function that makes it; the payloads it
    accepts are results), the encoding of a batch ([encoding/json] in
    [compress/gzip]: a parameter), and UUIDs (an argument). The goroutines'
    loops are functions that perform one iteration. The state is in three
    parts: publication, subscription and connection. *)

From S2P Require Import Prelude Merge SyncBus.

Definition batchThreshold : Z := 10.
Definition redisPublishCap : nat := 1000.

Record BatchPayload := mkPayload {
  bp_Nonce : string;
  bp_Keys : list string;
  bp_Regions : list string;
  bp_Vectors : list (option VectorClock);
  bp_Scopes : list Scope;
}.

(** [rq_resp]: the identity of the channel for the answer. *)
Record publishReq := mkReq {
  rq_key : string;
  rq_opts : PublishOptions;
  rq_resp : nat;
}.

Record redisSubscription := mkRSub {
  rs_pubsub : nat;
  rs_chans : list nat;
}.

(** [rp_resp]: the answer channels, with their content; [rp_blocked] is set by a
    send on a full one; [rp_batch]: the variable [batch] of the batcher. *)
Record pubState := mkPub {
  rp_pending : gset string;
  rp_publishCh : list publishReq;
  rp_batch : list publishReq;
  rp_resp : gmap nat (option (option error));
  rp_next : nat;
  rp_published : Z;
  rp_blocked : bool;
}.

(** [rsub_heap]: the subscriptions, which the dispatching goroutines keep a
    pointer to after they have left [rsub_subs]; [rsub_pubsubs]: whether a redis
    subscription is closed; [rsub_next] numbers all of these and the channels. *)
Record subState := mkSubState {
  rsub_subs : gmap string nat;
  rsub_heap : gmap nat redisSubscription;
  rsub_chans : gmap nat chan;
  rsub_pubsubs : gmap nat bool;
  rsub_next : nat;
  rsub_seen : gmap string time;
  rsub_delivered : Z;
  rsub_panicked : bool;
}.

(** [rc_client] is the generation of the client; [rc_ready]: [globalReady] is
    closed. *)
Record connState := mkConn {
  rc_client : nat;
  rc_ready : bool;
  rc_globalSub : option nat;
  rc_globalCancel : bool;
  rc_closed : bool;
}.

Record RedisBus := mkRedis {
  r_pub : pubState;
  r_sub : subState;
  r_conn : connState;
}.

Definition NewRedisBus : RedisBus :=
  mkRedis (mkPub ∅ [] [] ∅ 0 0 false) (mkSubState ∅ ∅ ∅ ∅ 0 ∅ 0 false) (mkConn 0 false None false false).

Definition set_pub (b : RedisBus) p : RedisBus := mkRedis p (r_sub b) (r_conn b).
Definition set_sub (b : RedisBus) s : RedisBus := mkRedis (r_pub b) s (r_conn b).
Definition set_conn (b : RedisBus) c : RedisBus := mkRedis (r_pub b) (r_sub b) c.

(** ** Publishing *)

Section Publish.
Implicit Types p : pubState.

Definition set_rpending p pend : pubState :=
  mkPub pend (rp_publishCh p) (rp_batch p) (rp_resp p) (rp_next p) (rp_published p) (rp_blocked p).
Definition set_rqueue p q batch : pubState :=
  mkPub (rp_pending p) q batch (rp_resp p) (rp_next p) (rp_published p) (rp_blocked p).

(** The locked first part of [Publish]: whether the key was already pending. *)
Definition redis_publish_begin (key : string) p : pubState * bool :=
  if decide (key ∈ rp_pending p) then (p, true) else (set_rpending p ({[key]} ∪ rp_pending p), false).

Definition redis_publish_cleanup (key : string) p : pubState :=
  set_rpending p (rp_pending p ∖ {[key]}).

Definition redis_has_room p : bool := (length (rp_publishCh p) <? redisPublishCap)%nat.

(** [make(chan error, 1)] and [case b.publishCh <- publishReq{...}] *)
Definition redis_publish_send (key : string) (o : PublishOptions) p : pubState * nat :=
  let resp := rp_next p in
  (mkPub (rp_pending p) (rp_publishCh p ++ [mkReq key o resp]) (rp_batch p)
     (<[resp := None]> (rp_resp p)) (S resp) (rp_published p) (rp_blocked p), resp).

Definition ctx_error (e : error) : error := if decide (e = DeadlineExceeded) then ErrTimeout else e.

(** Where a publication stands. *)
Inductive redis_pub :=
| RPubDone (err : option error)
| RPubQueueing
| RPubWaiting (resp : nat).

(** The first select; [pick] decides when both cases are ready. *)
Definition redis_publish_queue (cx : ctx) (pick : bool) (key : string) (o : PublishOptions) p
    : pubState * redis_pub :=
  let queue := let '(p, resp) := redis_publish_send key o p in (p, RPubWaiting resp) in
  match redis_has_room p, cx 0%nat with
  | true, None => queue
  | true, Some e =>
      if pick then queue else (redis_publish_cleanup key p, RPubDone (Some (ctx_error e)))
  | false, Some e => (redis_publish_cleanup key p, RPubDone (Some (ctx_error e)))
  | false, None => (p, RPubQueueing)
  end.

Definition redis_publish_start (cx : ctx) (pick : bool) (key : string) (opts : list PublishOption) p
    : pubState * redis_pub :=
  let '(p, dup) := redis_publish_begin key p in
  if dup then (p, RPubDone None)
  else redis_publish_queue cx pick key (apply_PublishOptions opts) p.

(** The second select. *)
Definition redis_publish_wait (cx : ctx) (pick : bool) (key : string) (resp : nat) p
    : pubState * redis_pub :=
  let taken err :=
    let p := redis_publish_cleanup key p in
    (mkPub (rp_pending p) (rp_publishCh p) (rp_batch p) (<[resp := None]> (rp_resp p)) (rp_next p)
       (match err with None => u64 (rp_published p + 1) | Some _ => rp_published p end) (rp_blocked p),
     RPubDone err) in
  match default None (rp_resp p !! resp), cx 0%nat with
  | Some err, None => taken err
  | Some err, Some e =>
      if pick then taken err else (redis_publish_cleanup key p, RPubDone (Some (ctx_error e)))
  | None, Some e => (redis_publish_cleanup key p, RPubDone (Some (ctx_error e)))
  | None, None => (p, RPubWaiting resp)
  end.

(** [PublishAndAwait]: [reply] is the answer of the server, the number of
    clients that received the message. *)
Definition RedisBus_PublishAndAwait (reply : res Z) (key : string) (replicas : Z)
    (opts : list PublishOption) p : pubState * option error :=
  let replicas := if replicas <=? 0 then 1 else replicas in
  match reply with
  | Err e => (p, Some e)
  | Ok val =>
      if val <? replicas then (p, Some ErrQuorumNotSatisfied)
      else (mkPub (rp_pending p) (rp_publishCh p) (rp_batch p) (rp_resp p) (rp_next p)
              (u64 (rp_published p + 1)) (rp_blocked p), None)
  end.

Definition RedisBus_PublishAndAwaitTopology (reply : res Z) (key : string) (minZones : Z)
    (opts : list PublishOption) p : pubState * option error :=
  RedisBus_PublishAndAwait reply key minZones opts p.

(** ** The batcher *)

(** The first request of every key, in order. *)
Fixpoint unique_batch (seen : gset string) (batch : list publishReq) : list publishReq :=
  match batch with
  | [] => []
  | req :: batch =>
      if decide (rq_key req ∈ seen) then unique_batch seen batch
      else req :: unique_batch ({[rq_key req]} ∪ seen) batch
  end.

Definition batch_payload (nonce : string) (batch : list publishReq) : BatchPayload :=
  let u := unique_batch ∅ batch in
  mkPayload nonce (rq_key <$> u) ((fun r => po_Region (rq_opts r)) <$> u)
    ((fun r => po_VectorClock (rq_opts r)) <$> u) ((fun r => po_Scope (rq_opts r)) <$> u).

(** [req.resp <- err]: the channel holds one answer. *)
Definition respond (err : option error) p (req : publishReq) : pubState :=
  match default None (rp_resp p !! rq_resp req) with
  | Some _ => mkPub (rp_pending p) (rp_publishCh p) (rp_batch p) (rp_resp p) (rp_next p) (rp_published p) true
  | None => mkPub (rp_pending p) (rp_publishCh p) (rp_batch p) (<[rq_resp req := Some err]> (rp_resp p))
              (rp_next p) (rp_published p) (rp_blocked p)
  end.

(** [for _, req := range batch { req.resp <- err }; batch = nil] *)
Definition respond_all (err : option error) p : pubState :=
  let p := foldl (respond err) p (rp_batch p) in set_rqueue p (rp_publishCh p) [].

(** How [client.Publish] ends: answered, failed before the server had the
    message, or the message published and the answer lost. *)
Inductive publish_io := Published | NotPublished (e : error) | PublishLost (e : error).

Definition publish_err (pub : publish_io) : option error :=
  match pub with Published => None | NotPublished e | PublishLost e => Some e end.

Definition publish_sent (payload : BatchPayload) (pub : publish_io) : list BatchPayload :=
  match pub with Published | PublishLost _ => [payload] | NotPublished _ => [] end.

(** What the calls of one [flush] meet: the error of the encoding, those of
    [readyClient] and of the publication, whether the bus was closed, and the
    same for the second try, with the close seen during the jitter. *)
Record flush_io := mkFlushIO {
  io_encode : option error;
  io_ready1 : option error;
  io_publish1 : publish_io;
  io_closed : bool;
  io_ready2 : option error;
  io_jitter_closed : bool;
  io_publish2 : publish_io;
}.

(** The first try, which [readyClient] may prevent. *)
Definition first_try (io : flush_io) : publish_io :=
  match io_ready1 io with Some e => NotPublished e | None => io_publish1 io end.

(** Whether [flush] reconnects. *)
Definition flush_reconnects (io : flush_io) p : bool :=
  match rp_batch p, io_encode io, publish_err (first_try io) with
  | _ :: _, None, Some _ => negb (io_closed io)
  | _, _, _ => false
  end.

(** The payloads that the server has published are the second result. *)
Definition redis_flush (nonce : string) (io : flush_io) p : pubState * list BatchPayload :=
  match rp_batch p with
  | [] => (p, [])
  | batch =>
      let payload := batch_payload nonce batch in
      match io_encode io with
      | Some err => (respond_all (Some err) p, [])
      | None =>
          let sent := publish_sent payload (first_try io) in
          match publish_err (first_try io) with
          | None => (respond_all None p, sent)
          | Some err =>
              if io_closed io then (respond_all (Some err) p, sent)
              else
                match io_ready2 io with
                | Some err => (respond_all (Some err) p, sent)
                | None =>
                    if io_jitter_closed io then (p, sent)
                    else (respond_all (publish_err (io_publish2 io)) p,
                          sent ++ publish_sent payload (io_publish2 io))
                end
          end
      end
  end.

(** [case req := <-b.publishCh] *)
Definition redis_batcher_req (nonce : string) (io : flush_io) p : pubState * list BatchPayload :=
  match rp_publishCh p with
  | [] => (p, [])
  | req :: q =>
      let p := set_rqueue p q (rp_batch p ++ [req]) in
      if batchThreshold <=? Z.of_nat (length (rp_batch p)) then redis_flush nonce io p else (p, [])
  end.

(** A flush when the bus is known to be closed. *)
Definition closing_io (io : flush_io) : flush_io :=
  mkFlushIO (io_encode io) (io_ready1 io) (io_publish1 io) true (io_ready2 io) true (io_publish2 io).

(** [case <-ticker.C]; and [case <-b.closeCh], where the bus is closed. *)
Definition redis_batcher_tick (nonce : string) (io : flush_io) p : pubState * list BatchPayload :=
  redis_flush nonce io p.

Definition redis_batcher_close (nonce : string) (io : flush_io) p : pubState * list BatchPayload :=
  redis_flush nonce (closing_io io) p.

End Publish.

(** ** Subscriptions *)

Section Subscribe.
Implicit Types s : subState.

Definition set_rsubs s subs heap chans : subState :=
  mkSubState subs heap chans (rsub_pubsubs s) (rsub_next s) (rsub_seen s) (rsub_delivered s) (rsub_panicked s).
Definition set_pubsubs s pubsubs next : subState :=
  mkSubState (rsub_subs s) (rsub_heap s) (rsub_chans s) pubsubs next (rsub_seen s) (rsub_delivered s)
    (rsub_panicked s).
Definition set_seen s seen : subState :=
  mkSubState (rsub_subs s) (rsub_heap s) (rsub_chans s) (rsub_pubsubs s) (rsub_next s) seen (rsub_delivered s)
    (rsub_panicked s).
Definition rpanic s : subState :=
  mkSubState (rsub_subs s) (rsub_heap s) (rsub_chans s) (rsub_pubsubs s) (rsub_next s) (rsub_seen s)
    (rsub_delivered s) true.

(** The channels of a subscription. *)
Definition sub_chans (id : nat) s : list nat := default [] (rs_chans <$> rsub_heap s !! id).

(** [recv_err]: the error of [ps.Receive], when a redis subscription is opened;
    that subscription is then left as it is, open. The channel, the subscription
    and the redis subscription share a number. *)
Definition RedisBus_Subscribe (recv_err : option error) (key : string) s : subState * res nat :=
  let ch := rsub_next s in
  match rsub_subs s !! key ≫= fun id => pair id <$> rsub_heap s !! id with
  | None =>
      match recv_err with
      | Some e => (set_pubsubs s (<[ch := false]> (rsub_pubsubs s)) (S ch), Err e)
      | None =>
          (set_pubsubs
             (set_rsubs s (<[key := ch]> (rsub_subs s)) (<[ch := mkRSub ch [ch]]> (rsub_heap s))
                (<[ch := mkChan [] false]> (rsub_chans s)))
             (<[ch := false]> (rsub_pubsubs s)) (S ch), Ok ch)
      end
  | Some (id, sub) =>
      (set_pubsubs
         (set_rsubs s (rsub_subs s) (<[id := mkRSub (rs_pubsub sub) (rs_chans sub ++ [ch])]> (rsub_heap s))
            (<[ch := mkChan [] false]> (rsub_chans s)))
         (rsub_pubsubs s) (S ch), Ok ch)
  end.

Definition redis_close_chan (ch : nat) s : subState :=
  match rsub_chans s !! ch with
  | None => s
  | Some c => if closed c then rpanic s
              else set_rsubs s (rsub_subs s) (rsub_heap s) (<[ch := mkChan (buffer c) true]> (rsub_chans s))
  end.

Definition close_pubsub (ps : nat) s : subState :=
  set_pubsubs s (<[ps := true]> (rsub_pubsubs s)) (rsub_next s).

(** [close_err]: the error of closing the redis subscription. *)
Definition RedisBus_Unsubscribe (close_err : option error) (key : string) (ch : nat) s
    : subState * option error :=
  match rsub_subs s !! key ≫= fun id => pair id <$> rsub_heap s !! id with
  | None => (s, None)
  | Some (id, sub) =>
      let '(s, chs) :=
        match index_of ch (rs_chans sub) with
        | Some i =>
            let chs := swap_remove i (rs_chans sub) in
            (redis_close_chan ch
               (set_rsubs s (rsub_subs s) (<[id := mkRSub (rs_pubsub sub) chs]> (rsub_heap s)) (rsub_chans s)),
             chs)
        | None => (s, rs_chans sub)
        end in
      if decide (chs = []) then
        (close_pubsub (rs_pubsub sub)
           (set_rsubs s (delete key (rsub_subs s)) (rsub_heap s) (rsub_chans s)), close_err)
      else (s, None)
  end.

(** ** Dispatch *)

Definition checkSeen (now : time) (payload : string) s : subState * bool :=
  match rsub_seen s !! payload with
  | Some _ => (s, true)
  | None => (set_seen s (<[payload := now]> (rsub_seen s)), false)
  end.

Definition cleanupSeen_tick (now : time) s : subState :=
  set_seen s (filter (fun kv => ~ Minute < time_Sub now kv.2) (rsub_seen s)).

(** A non-blocking send on a subscriber's channel, counted when it succeeds. *)
Definition redis_send (evt : Event) s (ch : nat) : subState :=
  match rsub_chans s !! ch with
  | None => s
  | Some c =>
      if closed c then rpanic s
      else if (length (buffer c) <? chan_cap)%nat then
        mkSubState (rsub_subs s) (rsub_heap s) (<[ch := mkChan (buffer c ++ [evt]) false]> (rsub_chans s))
          (rsub_pubsubs s) (rsub_next s) (rsub_seen s) (u64 (rsub_delivered s + 1)) (rsub_panicked s)
      else s
  end.

(** One message of the goroutine [dispatch] of a subscription: [checkSeen], and
    under the lock taken again the sends; [redis_dispatch] is both, uninterrupted. *)
Definition dispatch_event (key : string) (id : nat) s : subState :=
  foldl (redis_send (mkEvent key "" None ScopeLocal)) s (sub_chans id s).

Definition redis_dispatch (now : time) (key : string) (id : nat) (payload : string) s : subState :=
  let '(s, seen) := checkSeen now payload s in if seen then s else dispatch_event key id s.

(** The event of entry [i] of a batch. *)
Definition batch_event (batch : BatchPayload) (i : nat) (key : string) : Event :=
  mkEvent key (default "" (bp_Regions batch !! i)) (default None (bp_Vectors batch !! i))
    (default ScopeLocal (bp_Scopes batch !! i)).

Definition dispatch_entry (batch : BatchPayload) s (ik : nat * string) : subState :=
  let '(i, key) := ik in
  match rsub_subs s !! key with
  | None => s
  | Some id => foldl (redis_send (batch_event batch i key)) s (sub_chans id s)
  end.

(** One message of the global channel: [checkSeen] and the decoding give the
    entries to dispatch, and the lock is taken for each of them;
    [dispatch_global] is the whole, uninterrupted. *)
Section Codec.
Variable decode_batch : string -> option BatchPayload.

Definition batch_entries (batch : BatchPayload) : list (BatchPayload * (nat * string)) :=
  imap (fun i key => (batch, (i, key))) (bp_Keys batch).

Definition global_message (now : time) (payload : string) s
    : subState * list (BatchPayload * (nat * string)) :=
  let '(s, seen) := checkSeen now payload s in
  if seen then (s, []) else (s, default [] (batch_entries <$> decode_batch payload)).

Definition global_entry s (e : BatchPayload * (nat * string)) : subState := dispatch_entry (e.1) s (e.2).

Definition dispatch_global (now : time) (payload : string) s : subState :=
  let '(s, entries) := global_message now payload s in foldl global_entry s entries.

End Codec.

Definition redis_recv (ch : nat) s : subState * recv :=
  match rsub_chans s !! ch with
  | None => (s, RecvBlocks)
  | Some c =>
      match buffer c with
      | e :: q => (set_rsubs s (rsub_subs s) (rsub_heap s) (<[ch := mkChan q (closed c)]> (rsub_chans s)),
                   Received e)
      | [] => (s, if closed c then RecvClosed else RecvBlocks)
      end
  end.

(** [reconnect]'s loop over the subscriptions, in the order Go visits them, with
    the error of each [ps.Receive]: the old redis subscription is closed, the
    new one kept unless it fails. *)
Definition resubscribe s (ke : string * option error) : subState :=
  let '(key, err) := ke in
  match rsub_subs s !! key ≫= fun id => pair id <$> rsub_heap s !! id with
  | None => s
  | Some (id, sub) =>
      let s := close_pubsub (rs_pubsub sub) s in
      match err with
      | Some _ => s
      | None =>
          let ps := rsub_next s in
          set_pubsubs
            (set_rsubs s (rsub_subs s) (<[id := mkRSub ps (rs_chans sub)]> (rsub_heap s)) (rsub_chans s))
            (<[ps := false]> (rsub_pubsubs s)) (S ps)
      end
  end.

End Subscribe.

(** ** Connection *)

Definition close_global (b : RedisBus) : RedisBus :=
  let c := r_conn b in
  let b := match rc_globalSub c with Some ps => set_sub b (close_pubsub ps (r_sub b)) | None => b end in
  set_conn b (mkConn (rc_client c) (rc_ready c) None false (rc_closed c)).

(** [reconnect]: a new client, whose global subscription is not ready. *)
Definition reconnect (keys : list (string * option error)) (b : RedisBus) : RedisBus :=
  let b := close_global b in
  let c := r_conn b in
  let b := set_conn b (mkConn (S (rc_client c)) false (rc_globalSub c) (rc_globalCancel c) (rc_closed c)) in
  set_sub b (foldl resubscribe (r_sub b) keys).

(** [dispatchGlobal] opens the global subscription for the client it saw; if
    that client was replaced it closes it again. *)
Definition global_subscribe (client : nat) (b : RedisBus) : RedisBus * option nat :=
  let s := r_sub b in
  let ps := rsub_next s in
  let c := r_conn b in
  let current := (client =? rc_client c)%nat in
  let b := set_sub b (set_pubsubs s (<[ps := negb current]> (rsub_pubsubs s)) (S ps)) in
  if current
  then (set_conn b (mkConn (rc_client c) (rc_ready c) (Some ps) true (rc_closed c)), Some ps)
  else (b, None).

(** [ps.ReceiveTimeout] has returned: on success the channel [globalReady] is
    closed, unless the client was replaced. *)
Definition global_received (client ps : nat) (err : option error) (b : RedisBus) : RedisBus :=
  let c := r_conn b in
  let mine := bool_decide (rc_globalSub c = Some ps) in
  let cancel := if mine then false else rc_globalCancel c in
  match err with
  | Some _ =>
      set_conn (set_sub b (close_pubsub ps (r_sub b)))
        (mkConn (rc_client c) (rc_ready c) (if mine then None else rc_globalSub c) cancel (rc_closed c))
  | None =>
      set_conn b (mkConn (rc_client c) (rc_ready c || (client =? rc_client c)%nat) (rc_globalSub c) cancel
                    (rc_closed c))
  end.

(** The connection of the global subscription is lost. *)
Definition global_lost (ps : nat) (b : RedisBus) : RedisBus :=
  let c := r_conn b in
  set_conn (set_sub b (close_pubsub ps (r_sub b)))
    (mkConn (rc_client c) (rc_ready c) (if decide (rc_globalSub c = Some ps) then None else rc_globalSub c)
       (rc_globalCancel c) (rc_closed c)).

(** One round of [readyClient]: what its select sees. *)
Inductive ready_event := SeesReady | SeesProbe (ping : option error) | SeesClose | SeesTimeout.

Definition ready_round (ev : ready_event) (b : RedisBus) : option (res nat) :=
  match ev with
  | SeesReady => if rc_ready (r_conn b) then Some (Ok (rc_client (r_conn b))) else None
  | SeesProbe (Some e) => Some (Err e)
  | SeesProbe None => None
  | SeesClose => Some (Err Canceled)
  | SeesTimeout => Some (Err ErrTimeout)
  end.

(** [flush] with its reconnection; [keys] are the keys of the subscriptions with
    the outcome of subscribing to them again. *)
Definition RedisBus_flush (nonce : string) (io : flush_io) (keys : list (string * option error))
    (b : RedisBus) : RedisBus * list BatchPayload :=
  let b := if flush_reconnects io (r_pub b) then reconnect keys b else b in
  let '(p, sent) := redis_flush nonce io (r_pub b) in (set_pub b p, sent).

(** [Close], up to the wait for the goroutines; a second close panics. *)
Definition RedisBus_Close (b : RedisBus) : RedisBus :=
  if rc_closed (r_conn b) then set_sub b (rpanic (r_sub b))
  else
    let b := close_global b in
    let c := r_conn b in
    let b := set_conn b (mkConn (rc_client c) (rc_ready c) (rc_globalSub c) (rc_globalCancel c) true) in
    let s := r_sub b in
    let ps := omap (fun id => rs_pubsub <$> rsub_heap s !! id) (map_to_list (rsub_subs s)).*2 in
    set_sub b (foldr close_pubsub (set_rsubs s ∅ (rsub_heap s) (rsub_chans s)) ps).

Definition RedisBus_RevokeLease (cx : ctx) (pick : bool) (id : string) p : pubState * redis_pub :=
  redis_publish_start cx pick (lease_key id) [] p.
Definition RedisBus_SubscribeLease (recv_err : option error) (id : string) s : subState * res nat :=
  RedisBus_Subscribe recv_err (lease_key id) s.
Definition RedisBus_UnsubscribeLease (close_err : option error) (id : string) (ch : nat) s
    : subState * option error :=
  RedisBus_Unsubscribe close_err (lease_key id) ch s.
Definition RedisBus_Metrics (b : RedisBus) : Z * Z := (rp_published (r_pub b), rsub_delivered (r_sub b)).
Definition RedisBus_IsHealthy (b : RedisBus) : bool := true.
Definition RedisBus_Peers (b : RedisBus) : list string := [].
