(* ===== verification/RedisProps.v ===== *)
(** * RedisProps: what the redis bus promises

    The batcher answers every request of a batch once, and [nil] only if the
    server published the batch and said so; a flush publishes each key of its
    batch once with the options of its first request (or twice, after a lost
    answer); and a batch that reaches another node is offered, once, to exactly
    the subscribers of its keys. A request that is still queued when the bus
    closes gets no answer. *)

From S2P Require Import Prelude Merge SyncBus Bytes Utf8 RedisBus.

(** ** The batcher *)

Section Batcher.
Implicit Types p : pubState.

(** The requests that await an answer. *)
Definition open_reqs p : list publishReq := rp_publishCh p ++ rp_batch p.

Record pub_inv p : Prop := {
  pi_nodup : NoDup (rq_resp <$> open_reqs p);
  pi_empty : forall req, req ∈ open_reqs p -> rp_resp p !! rq_resp req = Some None;
  pi_fresh : forall n, (rp_next p <= n)%nat -> rp_resp p !! n = None;
  pi_flows : rp_blocked p = false;
}.

(** The parts of the state the invariant reads. *)
Lemma pub_inv_ext p p' :
  open_reqs p' ≡ₚ open_reqs p -> rp_resp p' = rp_resp p -> rp_next p' = rp_next p ->
  rp_blocked p' = rp_blocked p -> pub_inv p -> pub_inv p'.
Proof.
  intros E1 E2 E3 E4 []. split; rewrite ?E2, ?E3, ?E4; try done.
  - by rewrite E1.
  - intros req. rewrite E1. auto.
Qed.

Lemma redis_publish_begin_inv key p : pub_inv p -> pub_inv (fst (redis_publish_begin key p)).
Proof. intros H. unfold redis_publish_begin. case_decide; [done|]. by eapply pub_inv_ext; [..|exact H]. Qed.

Lemma redis_publish_send_inv key o p : pub_inv p -> pub_inv (fst (redis_publish_send key o p)).
Proof.
  intros H. pose proof H as [H1 H2 H3 H4].
  assert (rp_next p ∉ rq_resp <$> open_reqs p) as Hn.
  { intros (req & E & Hr)%list_elem_of_fmap. pose proof (H2 req Hr) as Hs. rewrite <- E, H3 in Hs; [done|lia]. }
  assert (open_reqs (fst (redis_publish_send key o p)) ≡ₚ mkReq key o (rp_next p) :: open_reqs p) as Hp.
  { unfold open_reqs. simpl. solve_Permutation. }
  split; simpl; try done.
  - rewrite Hp. simpl. by apply NoDup_cons.
  - intros req. rewrite Hp. intros [->|Hr]%elem_of_cons; simpl; [by rewrite lookup_insert_eq|].
    rewrite lookup_insert_ne; [by apply H2|]. intros E. apply Hn. rewrite E. by apply list_elem_of_fmap_2.
  - intros n Hle. rewrite lookup_insert_ne by lia. apply H3. lia.
Qed.

Lemma redis_publish_queue_inv cx pick key o p :
  pub_inv p -> pub_inv (fst (redis_publish_queue cx pick key o p)).
Proof.
  intros H. pose proof (redis_publish_send_inv key o p H) as Hs. unfold redis_publish_queue.
  destruct (redis_publish_send key o p) as [p' resp]. repeat case_match; try done;
    by eapply pub_inv_ext; [..|exact H].
Qed.

Lemma redis_publish_start_inv cx pick key opts p :
  pub_inv p -> pub_inv (fst (redis_publish_start cx pick key opts p)).
Proof.
  intros H. pose proof (redis_publish_begin_inv key p H) as Hb. unfold redis_publish_start.
  destruct (redis_publish_begin key p) as [p' dup]. destruct dup; [done|]. by apply redis_publish_queue_inv.
Qed.

Lemma redis_publish_wait_inv cx pick key resp p :
  pub_inv p -> pub_inv (fst (redis_publish_wait cx pick key resp p)).
Proof.
  intros H. pose proof H as [H1 H2 H3 H4].
  assert (forall err, default None (rp_resp p !! resp) = Some err ->
    pub_inv (mkPub (rp_pending p ∖ {[key]}) (rp_publishCh p) (rp_batch p) (<[resp := None]> (rp_resp p)) (rp_next p)
      (match err with None => u64 (rp_published p + 1) | Some _ => rp_published p end) (rp_blocked p))) as Ht.
  { intros err Hr. assert (rp_resp p !! resp = Some (Some err)) as Hr'
      by (destruct (rp_resp p !! resp) as [[]|]; simpl in Hr; congruence).
    split; simpl; try done.
    - intros req Hreq. rewrite lookup_insert_ne; [by apply H2|]. intros ->. apply H2 in Hreq. congruence.
    - intros n Hn. rewrite lookup_insert_ne; [by apply H3|]. intros ->. rewrite H3 in Hr' by done. done. }
  assert (pub_inv (redis_publish_cleanup key p)) as Hc by (by eapply pub_inv_ext; [..|exact H]).
  unfold redis_publish_wait.
  destruct (default None (rp_resp p !! resp)) as [err|] eqn:E, (cx 0%nat); [destruct pick|..];
    simpl; done || by apply Ht.
Qed.

(** ** Answers *)

(** Every request of a batch whose answer channels are empty is answered. *)
Lemma respond_fold err batch p :
  NoDup (rq_resp <$> batch) -> (forall req, req ∈ batch -> rp_resp p !! rq_resp req = Some None) ->
  let p' := foldl (respond err) p batch in
  (forall n, rp_resp p' !! n = if decide (n ∈ rq_resp <$> batch) then Some (Some err) else rp_resp p !! n) /\
  rp_publishCh p' = rp_publishCh p /\ rp_batch p' = rp_batch p /\ rp_next p' = rp_next p /\
  rp_blocked p' = rp_blocked p /\ rp_pending p' = rp_pending p /\ rp_published p' = rp_published p.
Proof.
  revert p. induction batch as [|req batch IH]; intros p Hnd He; simpl; [done|].
  apply NoDup_cons in Hnd as [Hni Hnd].
  assert (respond err p req = mkPub (rp_pending p) (rp_publishCh p) (rp_batch p)
    (<[rq_resp req := Some err]> (rp_resp p)) (rp_next p) (rp_published p) (rp_blocked p)) as ->.
  { unfold respond. rewrite He by (by left). done. }
  set (p1 := mkPub _ _ _ _ _ _ _). destruct (IH p1 Hnd) as (Hr & Hrest).
  { intros r Hin. simpl. rewrite lookup_insert_ne; [apply He; by right|]. intros E. apply Hni. rewrite E.
    by apply list_elem_of_fmap_2. }
  split; [|exact Hrest]. intros n. rewrite Hr. simpl. destruct (decide (n = rq_resp req)) as [->|Hne].
  - rewrite (decide_True (P := rq_resp req ∈ _ :: _)) by (by left). rewrite lookup_insert_eq. by case_decide.
  - rewrite lookup_insert_ne by congruence.
    destruct (decide (n ∈ rq_resp <$> batch)); [rewrite decide_True by (by right)|rewrite decide_False by set_solver]; done.
Qed.

Lemma respond_all_spec err p :
  pub_inv p ->
  let p' := respond_all err p in
  pub_inv p' /\ rp_batch p' = [] /\ rp_publishCh p' = rp_publishCh p /\
  (forall req, req ∈ rp_batch p -> rp_resp p' !! rq_resp req = Some (Some err)) /\
  (forall req, req ∈ rp_publishCh p -> rp_resp p' !! rq_resp req = Some None).
Proof.
  intros [H1 H2 H3 H4]. unfold respond_all. unfold open_reqs in *. rewrite fmap_app in H1.
  apply NoDup_app in H1 as (Hq & Hdis & Hb).
  destruct (respond_fold err (rp_batch p) p Hb) as (Hr & Ec & Eb & En & Ef & _).
  { intros req Hreq. apply H2. apply elem_of_app. by right. }
  set (p1 := foldl (respond err) p (rp_batch p)) in *. simpl.
  assert (forall req, req ∈ rp_publishCh p -> rp_resp p1 !! rq_resp req = Some None) as Hopen.
  { intros req Hreq. rewrite Hr, decide_False; [apply H2, elem_of_app; by left|].
    apply Hdis. by apply list_elem_of_fmap_2. }
  split_and!; [|done|done| |done].
  - split; unfold open_reqs; simpl; rewrite ?app_nil_r, ?Ec; try done.
    + intros n Hn. rewrite En in Hn. rewrite Hr, decide_False; [by apply H3|].
      intros (req & -> & Hreq)%list_elem_of_fmap. specialize (H2 req). rewrite H3 in H2 by done.
      discriminate H2. apply elem_of_app. by right.
    + by rewrite Ef.
  - intros req Hreq. rewrite Hr, decide_True; [done|]. by apply list_elem_of_fmap_2.
Qed.

Lemma redis_flush_inv nonce io p : pub_inv p -> pub_inv (fst (redis_flush nonce io p)).
Proof.
  intros H. pose proof (fun err => proj1 (respond_all_spec err p H)) as Hr. unfold redis_flush.
  repeat case_match; simpl; done || apply Hr.
Qed.

Lemma redis_batcher_req_inv nonce io p : pub_inv p -> pub_inv (fst (redis_batcher_req nonce io p)).
Proof.
  intros H. unfold redis_batcher_req. destruct (rp_publishCh p) as [|req q] eqn:E; [done|].
  assert (pub_inv (set_rqueue p q (rp_batch p ++ [req]))) as Hi.
  { eapply pub_inv_ext; [..|exact H]; try done. unfold open_reqs. simpl. rewrite E. solve_Permutation. }
  case_match; [by apply redis_flush_inv|done].
Qed.

(** The steps of the publishing side, as they interleave. *)
Inductive redis_pub_step : pubState -> pubState -> Prop :=
| rps_start cx pick key opts p : redis_pub_step p (fst (redis_publish_start cx pick key opts p))
| rps_queue cx pick key o p : redis_pub_step p (fst (redis_publish_queue cx pick key o p))
| rps_wait cx pick key resp p : redis_pub_step p (fst (redis_publish_wait cx pick key resp p))
| rps_await reply key n opts p : redis_pub_step p (fst (RedisBus_PublishAndAwait reply key n opts p))
| rps_req nonce io p : redis_pub_step p (fst (redis_batcher_req nonce io p))
| rps_tick nonce io p : redis_pub_step p (fst (redis_batcher_tick nonce io p))
| rps_close nonce io p : redis_pub_step p (fst (redis_batcher_close nonce io p)).

Lemma redis_pub_step_inv p p' : redis_pub_step p p' -> pub_inv p -> pub_inv p'.
Proof.
  destruct 1; intros Hi.
  - by apply redis_publish_start_inv.
  - by apply redis_publish_queue_inv.
  - by apply redis_publish_wait_inv.
  - unfold RedisBus_PublishAndAwait. repeat case_match; try done; by eapply pub_inv_ext; [..|exact Hi].
  - by apply redis_batcher_req_inv.
  - by apply redis_flush_inv.
  - by apply redis_flush_inv.
Qed.

Lemma NewRedisBus_pub_inv : pub_inv (r_pub NewRedisBus).
Proof.
  split; simpl; try done.
  - constructor.
  - by intros req ?%elem_of_nil.
Qed.

Lemma redis_pub_reachable p : rtc redis_pub_step (r_pub NewRedisBus) p -> pub_inv p.
Proof.
  intros H. assert (forall a, rtc redis_pub_step a p -> pub_inv a -> pub_inv p) as Hr.
  { induction 1; eauto using redis_pub_step_inv. }
  apply (Hr _ H), NewRedisBus_pub_inv.
Qed.

(** ** What a flush publishes *)

(** The first request of a key. *)
Fixpoint first_req (k : string) (batch : list publishReq) : option publishReq :=
  match batch with
  | [] => None
  | req :: batch => if decide (rq_key req = k) then Some req else first_req k batch
  end.

Lemma unique_batch_keys seen batch :
  NoDup (rq_key <$> unique_batch seen batch) /\
  forall k, k ∈ rq_key <$> unique_batch seen batch -> k ∉ seen.
Proof.
  revert seen. induction batch as [|req batch IH]; intros seen; simpl.
  { split; [constructor|]. by intros k ?%elem_of_nil. }
  case_decide as Hs; [apply IH|]. simpl. destruct (IH ({[rq_key req]} ∪ seen)) as [Hnd Hin]. split.
  - apply NoDup_cons. split; [|done]. intros ?%Hin. set_solver.
  - intros k [->|Hk]%elem_of_cons; [done|]. apply Hin in Hk. set_solver.
Qed.

(** Entry by entry, the deduplicated batch holds the first request of each key. *)
Lemma unique_batch_first seen batch req :
  req ∈ unique_batch seen batch <-> (rq_key req ∉ seen) /\ first_req (rq_key req) batch = Some req.
Proof.
  revert seen. induction batch as [|r batch IH]; intros seen; simpl.
  { split; [by intros ?%elem_of_nil|by intros [_ ?]]. }
  destruct (decide (rq_key r = rq_key req)) as [E|E].
  - rewrite E. case_decide as Hs; [rewrite IH; set_solver|]. rewrite elem_of_cons, IH. split.
    + intros [->|[Hn _]]; [done|]. set_solver.
    + intros [_ [= ->]]. by left.
  - case_decide as Hs; [apply IH|]. rewrite elem_of_cons, IH. split.
    + intros [->|[Hn ?]]; [done|]. split; [set_solver|done].
    + intros [Hn ?]. right. split; [set_solver|done].
Qed.

Lemma first_req_key k batch req : first_req k batch = Some req -> rq_key req = k /\ req ∈ batch.
Proof.
  induction batch as [|r batch IH]; simpl; [done|]. case_decide as Hk.
  - intros [= <-]. split; [done|]. by left.
  - intros [? ?]%IH. split; [done|]. by right.
Qed.

Lemma first_req_some k batch : k ∈ rq_key <$> batch -> is_Some (first_req k batch).
Proof.
  induction batch as [|r batch IH]; simpl; [by intros ?%elem_of_nil|]. case_decide; [by eauto|].
  intros [->|?]%elem_of_cons; [done|by apply IH].
Qed.

(** The entry of a request in a payload. *)
Definition has_entry (payload : BatchPayload) (k : string) (o : PublishOptions) : Prop :=
  exists i, bp_Keys payload !! i = Some k /\ bp_Regions payload !! i = Some (po_Region o) /\
    bp_Vectors payload !! i = Some (po_VectorClock o) /\ bp_Scopes payload !! i = Some (po_Scope o).

Lemma batch_payload_entries nonce batch :
  NoDup (bp_Keys (batch_payload nonce batch)) /\
  forall k o, has_entry (batch_payload nonce batch) k o <->
    exists req, first_req k batch = Some req /\ rq_opts req = o.
Proof.
  split; [apply unique_batch_keys|]. intros k o. unfold has_entry, batch_payload.
  cbn [bp_Keys bp_Regions bp_Vectors bp_Scopes]. split.
  - intros (i & Hk & Hr & Hv & Hs). rewrite list_lookup_fmap in Hk. rewrite list_lookup_fmap in Hr.
    rewrite list_lookup_fmap in Hv. rewrite list_lookup_fmap in Hs.
    destruct (unique_batch ∅ batch !! i) as [req|] eqn:E; [|done].
    apply list_elem_of_lookup_2, unique_batch_first in E as [_ E].
    injection Hk as <-. injection Hr as Hr. injection Hv as Hv. injection Hs as Hs.
    exists req. split; [done|]. destruct (rq_opts req), o; simpl in *; congruence.
  - intros (req & Hf & <-). pose proof (first_req_key _ _ _ Hf) as [<- _].
    assert (req ∈ unique_batch ∅ batch) as [i Hi]%list_elem_of_lookup_1.
    { apply unique_batch_first. split; [apply not_elem_of_empty|done]. }
    exists i. rewrite 4!list_lookup_fmap. by rewrite Hi.
Qed.

(** The answer of a publication got lost. *)
Definition lost (pub : publish_io) : Prop := exists e, pub = PublishLost e.

(** One of the two tries of a flush was published and answered. *)
Definition flush_succeeds (io : flush_io) : Prop :=
  io_encode io = None /\
  ((io_ready1 io = None /\ io_publish1 io = Published) \/
   (io_closed io = false /\ io_ready2 io = None /\ io_publish2 io = Published)).

(** The payload of a batch: one entry per key, with the options of the first
    request of that key. *)
Definition payload_of (payload : BatchPayload) (batch : list publishReq) : Prop :=
  NoDup (bp_Keys payload) /\
 forall k o, has_entry payload k o <-> exists req, first_req k batch = Some req /\ rq_opts req = o.

(** What the server has published when a flush ends, by its outcome. *)
Lemma redis_flush_cases p nonce io :
  rp_batch p <> [] ->
  exists n, snd (redis_flush nonce io p) = replicate n (batch_payload nonce (rp_batch p)) /\ (n <= 2)%nat /\
   (n = 2%nat -> lost (io_publish1 io)) /\
   ((fst (redis_flush nonce io p) = p /\ io_jitter_closed io = true /\ (n <= 1)%nat /\
       (n = 1%nat -> lost (io_publish1 io))) \/
     exists err, fst (redis_flush nonce io p) = respond_all err p /\ (err = None <-> flush_succeeds io) /\
      (err = None -> n <> 0%nat) /\
      (err <> None -> n <> 0%nat -> lost (io_publish1 io) \/ lost (io_publish2 io))).
Proof.
  intros Hne. destruct io as [enc r1 p1 cl r2 j p2]. unfold redis_flush, flush_succeeds, lost, first_try.
  destruct (rp_batch p) as [|r rest]; [done|]. set (payload := batch_payload nonce _). simpl.
  destruct enc as [e|]; [exists 0%nat; split_and!; [done|lia|done|]; right; exists (Some e); naive_solver|].
  destruct r1 as [e1|], p1 as [|e1'|e1'], cl, r2 as [e2|], j, p2 as [|e2'|e2']; simpl;
    (lazymatch goal with
     | |- context [?l = replicate _ _] => let n := eval cbv in (length l) in exists n
     end);
    (split_and!; [done|lia|naive_solver lia|]);
    first [ left; split_and!; solve [done|lia|naive_solver lia]
          | right; lazymatch goal with |- context [respond_all ?e _] => exists e end;
            split_and!; solve [done|lia|naive_solver lia] ].
Qed.

Lemma redis_flush_payload p nonce io payload :
  payload ∈ snd (redis_flush nonce io p) -> payload = batch_payload nonce (rp_batch p).
Proof.
  destruct (decide (rp_batch p = [])) as [E|Hne].
  - unfold redis_flush. rewrite E. by intros ?%elem_of_nil.
  - destruct (redis_flush_cases p nonce io Hne) as (n & -> & _). by intros [? _]%elem_of_replicate.
Qed.

(** C12. Every request of a flushed batch is answered, once, and [nil] only with
    the truth. In every state the publishers and the batcher reach, a flush of a
    non-empty batch never blocks on an answer channel, leaves the requests still
    queued unanswered (when the bus closes they stay so:
    [redis_close_strands_queued]) and ends in one of two ways. If the bus was
    closed during the pause before the second try, the batch stays whole, for
    the flush that follows the close. Otherwise the batch is empty and all its
    requests have the same answer: [nil] exactly when one of the two tries was
    published and answered. The server published nothing but copies of one
    payload: at least one if the answer is [nil]; none with an error or a batch
    that stays, unless the answer of a publication was lost; at most two, and
    two only if the answer to the first was lost. The payload has one entry per
    key of the batch, with the options of the first request of that key. *)
Theorem redis_flush_correct p nonce io :
  rtc redis_pub_step (r_pub NewRedisBus) p -> rp_batch p <> [] ->
  let '(p', sent) := redis_flush nonce io p in
  rp_blocked p' = false /\ rp_publishCh p' = rp_publishCh p /\
 (forall req, req ∈ rp_publishCh p -> rp_resp p' !! rq_resp req = Some None) /\
 exists payload n, payload_of payload (rp_batch p) /\
   sent = replicate n payload /\ (n <= 2)%nat /\ (n = 2%nat -> lost (io_publish1 io)) /\
   ((p' = p /\ io_jitter_closed io = true /\ (n <= 1)%nat /\ (n = 1%nat -> lost (io_publish1 io))) \/
     (rp_batch p' = [] /\ exists err,
       (forall req, req ∈ rp_batch p -> rp_resp p' !! rq_resp req = Some (Some err)) /\
      (err = None <-> flush_succeeds io) /\
      (err = None -> n <> 0%nat) /\
      (err <> None -> n <> 0%nat -> lost (io_publish1 io) \/ lost (io_publish2 io)))).
Proof.
  intros Hr Hne. apply redis_pub_reachable in Hr as Hi.
  destruct (redis_flush_cases p nonce io Hne) as (n & Es & Hn & H2 & Hcase).
  destruct (redis_flush nonce io p) as [p' sent]. simpl in *. subst sent.
  destruct Hcase as [(-> & Hj & H1)|(err & -> & Herr & H1)].
  - split_and!; [apply Hi|done|intros req Hq; apply (pi_empty _ Hi), elem_of_app; by left|].
    exists (batch_payload nonce (rp_batch p)), n. split_and!; [apply batch_payload_entries|done|done|done|by left].
  - destruct (respond_all_spec err p Hi) as (Hi' & Hb & Hq & Ha & Ho). split_and!; [apply Hi'|done|done|].
    exists (batch_payload nonce (rp_batch p)), n. split_and!; [apply batch_payload_entries|done|done|done|].
    right. split; [done|]. by exists err.
Qed.

End Batcher.

(** ** Subscriptions *)

Section Subscribers.
Implicit Types s : subState.

(** A channel of a subscription belongs to it alone, is open and holds at most
    one event; a subscription of the map is there for one key, and has
    channels; nothing has panicked. *)
Record sub_inv s : Prop := {
  si_nodup : forall id, NoDup (sub_chans id s);
  si_owner : forall id id' ch, ch ∈ sub_chans id s -> ch ∈ sub_chans id' s -> id = id';
  si_open : forall id ch, ch ∈ sub_chans id s -> exists c, rsub_chans s !! ch = Some c /\ closed c = false /\
    (length (buffer c) <= chan_cap)%nat;
  si_keys : forall k k' id, rsub_subs s !! k = Some id -> rsub_subs s !! k' = Some id -> k = k';
  si_used : forall k id, rsub_subs s !! k = Some id -> sub_chans id s <> [];
  si_fresh : forall n, (rsub_next s <= n)%nat -> rsub_chans s !! n = None /\ rsub_heap s !! n = None;
  si_panic : rsub_panicked s = false;
}.

Lemma sub_inv_ext s s' :
  rsub_subs s' = rsub_subs s -> (forall id, sub_chans id s' = sub_chans id s) ->
  rsub_chans s' = rsub_chans s ->
  (forall n, (rsub_next s' <= n)%nat -> (rsub_next s <= n)%nat /\ rsub_heap s' !! n = rsub_heap s !! n) ->
  rsub_panicked s' = rsub_panicked s -> sub_inv s -> sub_inv s'.
Proof.
  intros E1 E2 E3 E4 E5 [H1 H2 H3 H4 H5 H6 H7]. split; rewrite ?E1, ?E3, ?E5; try done.
  - intros id. by rewrite E2.
  - intros id id' ch. rewrite !E2. apply H2.
  - intros id ch. rewrite E2. apply H3.
  - intros k id. rewrite E2. apply H5.
  - intros n [Hle Hh]%E4. destruct (H6 n Hle). by rewrite Hh.
Qed.

(** A change of the content of one channel. *)
Lemma sub_inv_chan s ch c :
  sub_inv s -> is_Some (rsub_chans s !! ch) ->
  ((exists id, ch ∈ sub_chans id s) -> closed c = false /\ (length (buffer c) <= chan_cap)%nat) ->
  sub_inv (set_rsubs s (rsub_subs s) (rsub_heap s) (<[ch := c]> (rsub_chans s))).
Proof.
  intros [H1 H2 H3 H4 H5 H6 H7] Hs Hok. split; simpl; try done.
  - intros id x Hx. destruct (decide (x = ch)) as [->|].
    + exists c. rewrite lookup_insert_eq. destruct Hok; [by exists id|]. done.
    + rewrite lookup_insert_ne by done. by eapply H3.
  - intros n Hn. destruct (H6 n Hn) as [Hc Hh]. split; [|done]. rewrite lookup_insert_ne; [done|].
    intros ->. rewrite Hc in Hs. by destruct Hs.
Qed.

Lemma sub_chans_lt s id ch : sub_inv s -> ch ∈ sub_chans id s -> (ch < rsub_next s)%nat.
Proof.
  intros H Hc. destruct (si_open _ H id ch Hc) as (c & E & _).
  destruct (decide (rsub_next s <= ch)%nat) as [Hle|]; [|lia]. destruct (si_fresh _ H ch Hle). congruence.
Qed.

Lemma sub_chans_id_lt s k id : sub_inv s -> rsub_subs s !! k = Some id -> (id < rsub_next s)%nat.
Proof.
  intros H Hk. destruct (decide (rsub_next s <= id)%nat) as [Hle|]; [|lia].
  destruct (si_fresh _ H id Hle) as [_ Hh]. destruct (si_used _ H k id Hk). unfold sub_chans. by rewrite Hh.
Qed.

(** What the lookup of a key's subscription finds. *)
Lemma find_sub_Some s key id sub :
  (rsub_subs s !! key ≫= fun id => pair id <$> rsub_heap s !! id) = Some (id, sub) <->
  rsub_subs s !! key = Some id /\ rsub_heap s !! id = Some sub.
Proof.
  destruct (rsub_subs s !! key) as [i|]; simpl; [|naive_solver].
  destruct (rsub_heap s !! i) eqn:E; simpl; naive_solver.
Qed.

Lemma find_sub_None s key :
  sub_inv s -> (rsub_subs s !! key ≫= fun id => pair id <$> rsub_heap s !! id) = None ->
  rsub_subs s !! key = None.
Proof.
  intros H E. destruct (rsub_subs s !! key) as [id|] eqn:Ek; [|done]. simpl in E.
  destruct (si_used _ H key id Ek). unfold sub_chans. by destruct (rsub_heap s !! id).
Qed.

Lemma sub_chans_heap s id sub : rsub_heap s !! id = Some sub -> sub_chans id s = rs_chans sub.
Proof. unfold sub_chans. by intros ->. Qed.

(** A new channel at the end of a subscription, old or new. *)
Lemma add_chan_inv s key id ps :
  sub_inv s ->
  (rsub_subs s !! key = Some id \/ (rsub_subs s !! key = None /\ id = rsub_next s)) ->
  sub_inv (mkSubState (<[key := id]> (rsub_subs s))
    (<[id := mkRSub ps (sub_chans id s ++ [rsub_next s])]> (rsub_heap s))
    (<[rsub_next s := mkChan [] false]> (rsub_chans s)) (rsub_pubsubs s) (S (rsub_next s))
    (rsub_seen s) (rsub_delivered s) (rsub_panicked s)).
Proof.
  intros H Hid. pose proof (sub_chans_lt s) as Hlt. set (ch := rsub_next s). set (s' := mkSubState _ _ _ _ _ _ _ _).
  assert (forall i, sub_chans i s' = if decide (i = id) then sub_chans id s ++ [ch] else sub_chans i s) as Hs.
  { intros i. unfold sub_chans at 1. simpl. case_decide; subst; [by rewrite lookup_insert_eq|].
    by rewrite lookup_insert_ne. }
  assert (forall i x, x ∈ sub_chans i s' -> x ∈ sub_chans i s \/ (i = id /\ x = ch)) as Hin.
  { intros i x. rewrite Hs. case_decide; [subst|by left].
    rewrite elem_of_app, list_elem_of_singleton. naive_solver. }
  split.
  - intros i. rewrite Hs. case_decide; [|apply H]. apply NoDup_app.
    split_and!; [apply H| |apply NoDup_singleton]. intros x Hx%(Hlt _ _ H). rewrite list_elem_of_singleton.
    unfold ch. lia.
  - intros i i' x [H1|[-> ->]]%Hin [H2|[-> ?]]%Hin; subst; [by eapply si_owner| | |done].
    + apply (Hlt _ _ H) in H1. unfold ch in *. lia.
    + apply (Hlt _ _ H) in H2. unfold ch in *. lia.
  - intros i x [Hx|[-> ->]]%Hin; simpl.
    + rewrite lookup_insert_ne by (apply (Hlt _ _ H) in Hx; unfold ch; lia). by eapply si_open.
    + rewrite lookup_insert_eq. eexists. split_and!; [done|done|simpl; lia].
  - assert (forall k, rsub_subs s !! k = Some id -> k = key) as Hk.
    { intros k Ek. destruct Hid as [Hid|[_ ->]]; [by eapply si_keys|]. apply sub_chans_id_lt in Ek; [lia|done]. }
    intros k k' i. simpl. rewrite !lookup_insert_Some.
    intros [[<- <-]|[? H1]] [[<- ?]|[? H2]]; subst; try done.
    + symmetry. by apply Hk.
    + by apply Hk.
    + by eapply si_keys.
  - intros k i. simpl. rewrite lookup_insert_Some, Hs. intros [[<- <-]|[? Hk]].
    + rewrite decide_True by done. by destruct (sub_chans id s).
    + case_decide; [by destruct (sub_chans id s)|]. by eapply si_used.
  - intros n Hn. simpl in *. rewrite !lookup_insert_ne; [apply H; lia| |unfold ch; lia].
    destruct Hid as [Hid|[_ ->]]; [apply sub_chans_id_lt in Hid; [lia|done]|lia].
  - apply H.
Qed.

Lemma RedisBus_Subscribe_inv recv_err key s :
  sub_inv s -> sub_inv (fst (RedisBus_Subscribe recv_err key s)).
Proof.
  intros H. unfold RedisBus_Subscribe.
  destruct (rsub_subs s !! key ≫= _) as [[id sub]|] eqn:E; simpl.
  - apply find_sub_Some in E as [E1 E2]. pose proof (add_chan_inv s key id (rs_pubsub sub) H (or_introl E1)) as Hi.
    rewrite (sub_chans_heap _ _ _ E2), (insert_id (rsub_subs s)) in Hi by done. exact Hi.
  - apply find_sub_None in E; [|done]. destruct recv_err.
    { eapply sub_inv_ext; [..|exact H]; try done. intros n Hn. simpl in Hn. split; [lia|done]. }
    pose proof (add_chan_inv s key (rsub_next s) (rsub_next s) H (or_intror (conj E eq_refl))) as Hi.
    destruct (si_fresh _ H (rsub_next s)) as [_ Hh]; [lia|]. unfold sub_chans in Hi. rewrite Hh in Hi. simpl in Hi.
    by eapply sub_inv_ext; [..|exact Hi].
Qed.

(** Closing a redis subscription touches no channel. *)
Lemma close_pubsub_inv ps s : sub_inv s -> sub_inv (close_pubsub ps s).
Proof. by apply sub_inv_ext. Qed.

(** A channel leaves its subscription and is closed. *)
Lemma remove_chan_inv s id ps i ch sub :
  sub_inv s -> rsub_heap s !! id = Some sub -> index_of ch (rs_chans sub) = Some i ->
  let chs := swap_remove i (rs_chans sub) in
  let s1 := redis_close_chan ch
    (set_rsubs s (rsub_subs s) (<[id := mkRSub ps chs]> (rsub_heap s)) (rsub_chans s)) in
  forall subs', (forall k j, subs' !! k = Some j -> rsub_subs s !! k = Some j /\ (j = id -> chs <> [])) ->
  sub_inv (set_rsubs s1 subs' (rsub_heap s1) (rsub_chans s1)).
Proof.
  intros H Hh Hi chs s1 subs' Hsub. apply index_of_Some in Hi. pose proof (swap_remove_perm _ _ _ Hi) as Hp.
  pose proof (sub_chans_heap _ _ _ Hh) as Hc.
  assert (ch ∈ sub_chans id s) as Hch by (rewrite Hc; by eapply list_elem_of_lookup_2).
  destruct (si_open _ H id ch Hch) as (c & Ec & Eo & El).
  assert (NoDup (ch :: chs)) as Hnd by (rewrite (Hp : ch :: chs ≡ₚ _), <- Hc; apply H).
  apply NoDup_cons in Hnd as [Hni Hnd].
  subst s1. unfold redis_close_chan. simpl. rewrite Ec, Eo. set (s' := set_rsubs _ _ _ _).
  assert (forall j, sub_chans j s' = if decide (j = id) then chs else sub_chans j s) as Hs.
  { intros j. unfold sub_chans at 1. simpl. case_decide; subst; [by rewrite lookup_insert_eq|].
    by rewrite lookup_insert_ne. }
  assert (forall j x, x ∈ sub_chans j s' -> x ∈ sub_chans j s /\ x <> ch) as Hin.
  { intros j x. rewrite Hs. case_decide as Hj; [subst|].
    - intros Hx. split; [|by intros ->]. rewrite Hc, <- (Hp : ch :: chs ≡ₚ _). by right.
    - intros Hx. split; [done|]. intros ->. by apply Hj, (si_owner _ H _ _ ch). }
  split.
  - intros j. rewrite Hs. case_decide; [done|apply H].
  - intros j j' x [H1 _]%Hin [H2 _]%Hin. by eapply si_owner.
  - intros j x [Hx Hne]%Hin. simpl. rewrite lookup_insert_ne by done. by eapply si_open.
  - intros k k' j [H1 _]%Hsub [H2 _]%Hsub. by eapply si_keys.
  - intros k j [H1 H2]%Hsub. rewrite Hs. case_decide; [by apply H2|by eapply si_used].
  - intros n Hn. simpl in *. destruct (si_fresh _ H n Hn) as [F1 F2].
    rewrite !lookup_insert_ne; [done|congruence|congruence].
  - apply H.
Qed.

Lemma RedisBus_Unsubscribe_inv close_err key ch s :
  sub_inv s -> sub_inv (fst (RedisBus_Unsubscribe close_err key ch s)).
Proof.
  intros H. unfold RedisBus_Unsubscribe.
  destruct (rsub_subs s !! key ≫= _) as [[id sub]|] eqn:E; [|done].
  apply find_sub_Some in E as [E1 E2].
  destruct (index_of ch (rs_chans sub)) as [i|] eqn:Ei.
  - pose proof (remove_chan_inv s id (rs_pubsub sub) i ch sub H E2 Ei) as Hr. simpl in Hr.
    set (s1 := redis_close_chan _ _) in *.
    assert (rsub_subs s1 = rsub_subs s) as Es1 by (unfold s1, redis_close_chan; by repeat case_match).
    case_decide as Hd; simpl.
    + apply close_pubsub_inv. rewrite Es1. apply Hr. intros k j [Hne Hk]%lookup_delete_Some. split; [done|].
      intros ->. destruct Hne. by eapply (si_keys _ H).
    + assert (s1 = set_rsubs s1 (rsub_subs s1) (rsub_heap s1) (rsub_chans s1)) as -> by (by destruct s1).
      rewrite Es1. by apply Hr.
  - case_decide as Hd; simpl; [|done].
    destruct (si_used _ H key id E1). by rewrite (sub_chans_heap _ _ _ E2).
Qed.

Lemma resubscribe_inv s ke : sub_inv s -> sub_inv (resubscribe s ke).
Proof.
  intros H. destruct ke as [key err]. unfold resubscribe.
  destruct (rsub_subs s !! key ≫= _) as [[id sub]|] eqn:E; [|done].
  apply find_sub_Some in E as [E1 E2]. pose proof (sub_chans_id_lt s key id H E1) as Hlt.
  destruct err; [by apply close_pubsub_inv|].
  eapply sub_inv_ext; [..|exact H]; try done; simpl.
  - intros j. unfold sub_chans. simpl. destruct (decide (j = id)) as [->|].
    + by rewrite lookup_insert_eq, E2.
    + by rewrite lookup_insert_ne.
  - intros n Hn. split; [lia|]. by rewrite lookup_insert_ne by lia.
Qed.

(** ** Dispatch *)

(** What an open channel holds after an event is offered to it. *)
Definition offer (evt : Event) (c : chan) : chan :=
  if decide (buffer c = []) then mkChan [evt] false else c.

(** An event offered to the channels of a subscription: they, and only they,
    may take it. *)
Lemma send_fold evt id chs s :
  sub_inv s -> NoDup chs -> (forall x, x ∈ chs -> x ∈ sub_chans id s) ->
  let s' := foldl (redis_send evt) s chs in
  sub_inv s' /\ rsub_subs s' = rsub_subs s /\ rsub_heap s' = rsub_heap s /\ rsub_seen s' = rsub_seen s /\
  forall x, rsub_chans s' !! x = if decide (x ∈ chs) then offer evt <$> rsub_chans s !! x else rsub_chans s !! x.
Proof.
  revert s. induction chs as [|ch chs IH]; intros s H Hnd Hin; simpl; [done|].
  apply NoDup_cons in Hnd as [Hni Hnd].
  destruct (si_open _ H id ch) as (c & Ec & Eo & El); [apply Hin; by left|].
  assert (sub_inv (redis_send evt s ch) /\ rsub_subs (redis_send evt s ch) = rsub_subs s /\
    rsub_heap (redis_send evt s ch) = rsub_heap s /\ rsub_seen (redis_send evt s ch) = rsub_seen s /\
    rsub_chans (redis_send evt s ch) = <[ch := offer evt c]> (rsub_chans s)) as (Hi & E1 & E2 & E3 & E4).
  { unfold redis_send, offer. rewrite Ec, Eo. destruct c as [[|e [|e' q]] cl]; simpl in *; subst.
    - split_and!; try done.
      eapply sub_inv_ext; [..|apply (sub_inv_chan s ch (mkChan [evt] false) H)]; try done.
    - rewrite insert_id by done. by split_and!.
    - unfold chan_cap in El. lia. }
  set (s1 := redis_send evt s ch) in *.
  destruct (IH s1 Hi Hnd) as (Hs' & F1 & F2 & F3 & F4).
  { intros x Hx. unfold sub_chans. rewrite E2. apply Hin. by right. }
  split_and!; [done|congruence|congruence|congruence|]. intros x. rewrite F4, E4.
  destruct (decide (x = ch)) as [->|Hne].
  - rewrite (decide_False (P := ch ∈ chs)), lookup_insert_eq, decide_True, Ec; [done|by left|done].
  - rewrite lookup_insert_ne by done.
    destruct (decide (x ∈ chs)); [rewrite decide_True by (by right)|rewrite decide_False by set_solver]; done.
Qed.

(** The channels subscribed to a key. *)
Definition key_chans (key : string) s : list nat :=
  default [] ((fun id => sub_chans id s) <$> rsub_subs s !! key).

Lemma dispatch_entry_spec batch i key s :
  sub_inv s ->
  let s' := dispatch_entry batch s (i, key) in
  sub_inv s' /\ rsub_subs s' = rsub_subs s /\ rsub_heap s' = rsub_heap s /\ rsub_seen s' = rsub_seen s /\
  forall x, rsub_chans s' !! x =
    if decide (x ∈ key_chans key s) then offer (batch_event batch i key) <$> rsub_chans s !! x
    else rsub_chans s !! x.
Proof.
  intros H. unfold dispatch_entry, key_chans. destruct (rsub_subs s !! key) as [id|]; simpl; [|done].
  by apply (send_fold _ id); [|apply H|].
Qed.

Lemma key_chans_owner s k k' x :
  sub_inv s -> x ∈ key_chans k s -> x ∈ key_chans k' s -> k = k'.
Proof.
  intros H. unfold key_chans. destruct (rsub_subs s !! k) as [id|] eqn:E; [|by intros ?%elem_of_nil].
  destruct (rsub_subs s !! k') as [id'|] eqn:E'; [|by intros _ ?%elem_of_nil]. simpl. intros Hx Hx'.
  eapply (si_keys _ H); [done|]. by rewrite (si_owner _ H _ _ _ Hx Hx').
Qed.

(** The loop over the entries of a batch with distinct keys. *)
Lemma dispatch_entries batch es s :
  sub_inv s -> NoDup es.*2 ->
  let s' := foldl (dispatch_entry batch) s es in
  sub_inv s' /\ rsub_subs s' = rsub_subs s /\ rsub_heap s' = rsub_heap s /\ rsub_seen s' = rsub_seen s /\
  (forall i key x, (i, key) ∈ es -> x ∈ key_chans key s ->
     rsub_chans s' !! x = offer (batch_event batch i key) <$> rsub_chans s !! x) /\
  (forall x, (forall key, key ∈ es.*2 -> x ∉ key_chans key s) -> rsub_chans s' !! x = rsub_chans s !! x).
Proof.
  revert s. induction es as [|[i key] es IH]; intros s H Hnd; cbn [foldl fmap list_fmap snd] in *.
  { split_and!; try done. by intros i key x ?%elem_of_nil. }
  apply NoDup_cons in Hnd as [Hni Hnd].
  destruct (dispatch_entry_spec batch i key s H) as (Hi & E1 & E2 & E3 & E4).
  set (s1 := dispatch_entry batch s (i, key)) in *.
  assert (forall k, key_chans k s1 = key_chans k s) as Ek by (intros k; unfold key_chans, sub_chans; by rewrite E1, E2).
  destruct (IH s1 Hi Hnd) as (Hs' & F1 & F2 & F3 & F4 & F5).
  split_and!; [done|congruence|congruence|congruence| |].
  - intros j k x [[= -> ->]|Hj]%elem_of_cons Hx.
    + rewrite F5, E4, decide_True; [done|done|]. intros k' Hk' Hx'. rewrite Ek in Hx'. apply Hni.
      by rewrite (key_chans_owner s key k' x H Hx Hx').
    + rewrite (F4 j k x Hj) by (by rewrite Ek). f_equal. rewrite E4, decide_False; [done|]. intros Hx'.
      apply Hni. rewrite (key_chans_owner s key k x H Hx' Hx).
      apply list_elem_of_fmap. by exists (j, k).
  - intros x Hx. rewrite F5; [rewrite E4, decide_False; [done|apply Hx; by left]|].
    intros k Hk. rewrite Ek. apply Hx. by right.
Qed.

Lemma imap_pair_snd {A} (l : list A) : (imap pair l).*2 = l.
Proof. rewrite fmap_imap. apply list_eq. intros i. rewrite list_lookup_imap. by destruct (l !! i). Qed.

Lemma elem_of_imap_pair {A} (l : list A) i x : (i, x) ∈ imap pair l <-> l !! i = Some x.
Proof.
  rewrite list_elem_of_lookup. setoid_rewrite list_lookup_imap. split.
  - intros (j & Hj). destruct (l !! j) eqn:E; simplify_eq/=. done.
  - intros E. exists i. by rewrite E.
Qed.

Lemma checkSeen_inv now payload s : sub_inv s -> sub_inv (fst (checkSeen now payload s)).
Proof. intros H. unfold checkSeen. case_match; [done|]. by eapply sub_inv_ext; [..|exact H]. Qed.

Lemma global_message_inv decode now payload s : sub_inv s -> sub_inv (fst (global_message decode now payload s)).
Proof.
  intros H. pose proof (checkSeen_inv now payload s H) as Hc. unfold global_message.
  by destruct (checkSeen now payload s) as [s1 []].
Qed.

(** The steps of the subscribing side, one for each hold of the lock, as they
    interleave: [rss_seen] and [rss_dispatch] are the two of a message for any
    subscription a goroutine still points to; [rss_message] begins a message of
    the global channel, [rss_entry] dispatches one entry of a batch. *)
Inductive redis_sub_step (decode : string -> option BatchPayload) : subState -> subState -> Prop :=
| rss_subscribe recv_err key s : redis_sub_step decode s (fst (RedisBus_Subscribe recv_err key s))
| rss_unsubscribe close_err key ch s : redis_sub_step decode s (fst (RedisBus_Unsubscribe close_err key ch s))
| rss_seen now payload s : redis_sub_step decode s (fst (checkSeen now payload s))
| rss_dispatch key id s : redis_sub_step decode s (dispatch_event key id s)
| rss_message now payload s : redis_sub_step decode s (fst (global_message decode now payload s))
| rss_entry e s : redis_sub_step decode s (global_entry s e)
| rss_cleanup now s : redis_sub_step decode s (cleanupSeen_tick now s)
| rss_recv ch s : redis_sub_step decode s (fst (redis_recv ch s))
| rss_resubscribe ke s : redis_sub_step decode s (resubscribe s ke)
| rss_close_pubsub ps s : redis_sub_step decode s (close_pubsub ps s)
| rss_clear s : redis_sub_step decode s (set_rsubs s ∅ (rsub_heap s) (rsub_chans s)).

Lemma redis_sub_step_inv decode s s' : redis_sub_step decode s s' -> sub_inv s -> sub_inv s'.
Proof.
  destruct 1 as [| | |key id s|now payload s|[batch [i key]] s| |ch s| | |]; intros Hi.
  - by apply RedisBus_Subscribe_inv.
  - by apply RedisBus_Unsubscribe_inv.
  - by apply checkSeen_inv.
  - by apply (send_fold _ id); [|apply Hi|].
  - by apply global_message_inv.
  - by apply (dispatch_entry_spec batch i key).
  - by eapply sub_inv_ext; [..|exact Hi].
  - unfold redis_recv. destruct (rsub_chans s !! ch) as [[[|e q] cl]|] eqn:E; simpl; try done.
    apply sub_inv_chan; [done|by eexists|]. intros [id Hc].
    destruct (si_open _ Hi id ch Hc) as (c & Ec & Eo & El). simplify_eq/=. split; [done|]. unfold chan_cap in *. lia.
  - by apply resubscribe_inv.
  - by apply close_pubsub_inv.
  - destruct Hi as [H1 H2 H3 H4 H5 H6 H7]. split; try done; intros *; simpl; by rewrite lookup_empty.
Qed.

(** The uninterrupted dispatches are runs of these steps. *)
Lemma redis_dispatch_steps decode now key id payload s :
  rtc (redis_sub_step decode) s (redis_dispatch now key id payload s).
Proof.
  unfold redis_dispatch. eapply rtc_l; [apply (rss_seen decode now payload)|].
  destruct (checkSeen now payload s) as [s1 []]; [done|]. apply rtc_once, rss_dispatch.
Qed.

Lemma dispatch_global_steps decode now payload s :
  rtc (redis_sub_step decode) s (dispatch_global decode now payload s).
Proof.
  unfold dispatch_global. eapply rtc_l; [apply (rss_message decode now payload)|].
  destruct (global_message decode now payload s) as [s1 es]. simpl. revert s1.
  induction es as [|e es IH]; intros s1; simpl; [done|]. eapply rtc_l; [apply (rss_entry decode e)|apply IH].
Qed.

Lemma NewRedisBus_sub_inv : sub_inv (r_sub NewRedisBus).
Proof.
  assert (forall id, sub_chans id (r_sub NewRedisBus) = []) as Hs
    by (intros id; unfold sub_chans; simpl; by rewrite lookup_empty).
  split; simpl; try done; intros *; rewrite ?Hs, ?lookup_empty; try done.
  - constructor.
  - by intros ?%elem_of_nil.
  - by intros ?%elem_of_nil.
Qed.

Lemma redis_sub_reachable decode s : rtc (redis_sub_step decode) (r_sub NewRedisBus) s -> sub_inv s.
Proof.
  intros H. assert (forall a, rtc (redis_sub_step decode) a s -> sub_inv a -> sub_inv s) as Hr.
  { induction 1; eauto using redis_sub_step_inv. }
  apply (Hr _ H), NewRedisBus_sub_inv.
Qed.

End Subscribers.

(** ** From one node to another *)

Section Delivery.
Variable encode_batch : BatchPayload -> string.
Variable decode_batch : string -> option BatchPayload.

(** JSON replaces invalid UTF-8, so a batch survives its encoding if its strings
    are valid. *)
Definition payload_valid (b : BatchPayload) : Prop :=
  Forall (fun k => ValidString k = true) (bp_Keys b) /\
  Forall (fun r => ValidString r = true) (bp_Regions b) /\
  Forall (fun v => map_Forall (fun k _ => ValidString k = true) (default ∅ v)) (bp_Vectors b) /\
  ValidString (bp_Nonce b) = true.

Hypothesis codec_roundtrip : forall b, payload_valid b -> decode_batch (encode_batch b) = Some b.

Lemma batch_event_entry payload k o :
  has_entry payload k o -> exists i, bp_Keys payload !! i = Some k /\
    batch_event payload i k = mkEvent k (po_Region o) (po_VectorClock o) (po_Scope o).
Proof.
  intros (i & Hk & Hr & Hv & Hs). exists i. split; [done|]. unfold batch_event. by rewrite Hr, Hv, Hs.
Qed.

Lemma dispatch_global_seen now payload s :
  is_Some (rsub_seen s !! payload) -> dispatch_global decode_batch now payload s = s.
Proof. intros [t E]. unfold dispatch_global, global_message, checkSeen. by rewrite E. Qed.

(** The loop over the entries of a batch. *)
Lemma global_entries batch s :
  foldl global_entry s (batch_entries batch) = foldl (dispatch_entry batch) s (imap pair (bp_Keys batch)).
Proof.
  unfold batch_entries. generalize (bp_Keys batch). intros l.
  assert (forall (f : nat -> nat) s,
    foldl global_entry s (imap (fun i key => (batch, (f i, key))) l) =
    foldl (dispatch_entry batch) s (imap (fun i key => (f i, key)) l)) as H; [|apply (H id)].
  induction l as [|k l IH]; intros f s1; simpl; [done|]. apply (IH (f ∘ S)).
Qed.

Lemma dispatch_global_batch now batch s :
  sub_inv s -> NoDup (bp_Keys batch) -> payload_valid batch -> rsub_seen s !! encode_batch batch = None ->
  let s' := dispatch_global decode_batch now (encode_batch batch) s in
  sub_inv s' /\ is_Some (rsub_seen s' !! encode_batch batch) /\
  (forall k o x, has_entry batch k o -> x ∈ key_chans k s ->
     rsub_chans s' !! x =
       offer (mkEvent k (po_Region o) (po_VectorClock o) (po_Scope o)) <$> rsub_chans s !! x) /\
  (forall x, (forall k, k ∈ bp_Keys batch -> x ∉ key_chans k s) -> rsub_chans s' !! x = rsub_chans s !! x).
Proof.
  intros H Hnd Hv Hseen. unfold dispatch_global, global_message, checkSeen. rewrite Hseen, codec_roundtrip by done.
  change (default [] _) with (batch_entries batch). rewrite global_entries.
  set (s1 := set_seen s _). assert (sub_inv s1) as H1 by (by eapply sub_inv_ext; [..|exact H]).
  assert (forall k, key_chans k s1 = key_chans k s) as Ek by done.
  destruct (dispatch_entries batch (imap pair (bp_Keys batch)) s1 H1) as (Hi & _ & _ & E3 & E4 & E5);
    [by rewrite imap_pair_snd|].
  split_and!; [done| | |].
  - rewrite E3. simpl. rewrite lookup_insert_eq. by eexists.
  - intros k o x (i & Hi' & He)%batch_event_entry Hx. rewrite <- He.
    apply (E4 i k x); [by apply elem_of_imap_pair|done].
  - intros x Hx. apply E5. intros k. rewrite imap_pair_snd. apply Hx.
Qed.

(** C11. A batch reaches exactly the subscribers of its keys, once. A payload
    that a flush published on one node (whether or not its answer got lost) and
    whose strings are valid UTF-8 (JSON replaces what is not), dispatched
    without interruption by a node in any state its subscribers can reach (and
    not received before), is offered to every channel subscribed to one of its
    keys, as an event with the region, vector clock and scope of the first
    request of that key; no other channel changes, no send panics, and
    receiving the payload again, the second copy of a retry too, changes
    nothing. *)
Theorem redis_batch_delivered p nonce io payload now now' s :
  payload ∈ snd (redis_flush nonce io p) ->
  payload_valid payload ->
  rtc (redis_sub_step decode_batch) (r_sub NewRedisBus) s -> rsub_seen s !! encode_batch payload = None ->
  let s' := dispatch_global decode_batch now (encode_batch payload) s in
  rsub_panicked s' = false /\
  (forall req k x, first_req k (rp_batch p) = Some req -> x ∈ key_chans k s ->
     rsub_chans s' !! x =
       offer (mkEvent k (po_Region (rq_opts req)) (po_VectorClock (rq_opts req)) (po_Scope (rq_opts req)))
         <$> rsub_chans s !! x) /\
  (forall x, (forall k, k ∈ rq_key <$> rp_batch p -> x ∉ key_chans k s) ->
     rsub_chans s' !! x = rsub_chans s !! x) /\
  dispatch_global decode_batch now' (encode_batch payload) s' = s'.
Proof.
  intros Ef Hv Hs Hseen. apply redis_sub_reachable in Hs.
  apply redis_flush_payload in Ef as ->.
  destruct (batch_payload_entries nonce (rp_batch p)) as [Hnd Hent].
  destruct (dispatch_global_batch now _ s Hs Hnd Hv Hseen) as (Hi & Hsn & Hin & Hout).
  split_and!; [apply Hi| | |by apply dispatch_global_seen].
  - intros req k x Hr Hx. apply (Hin k (rq_opts req) x); [|done]. apply Hent. by exists req.
  - intros x Hx. apply Hout. intros k Hk. apply Hx. simpl in Hk.
    apply list_elem_of_fmap in Hk as (req & -> & [_ Hf]%unique_batch_first).
    apply list_elem_of_fmap. exists req. split; [done|]. by eapply first_req_key.
Qed.

End Delivery.

(** A request that is still queued when the bus closes is never answered: the
    batcher flushes its batch and ends, and a publisher with a context that is
    never done goes on waiting. *)
Theorem redis_close_strands_queued p nonce io req pick :
  rtc redis_pub_step (r_pub NewRedisBus) p -> req ∈ rp_publishCh p ->
  let p' := fst (redis_batcher_close nonce io p) in
  req ∈ rp_publishCh p' /\
  redis_publish_wait Background pick (rq_key req) (rq_resp req) p' = (p', RPubWaiting (rq_resp req)).
Proof.
  intros Hr Hq. apply redis_pub_reachable in Hr as Hi.
  assert (rp_publishCh (fst (redis_batcher_close nonce io p)) = rp_publishCh p /\
    rp_resp (fst (redis_batcher_close nonce io p)) !! rq_resp req = Some None) as [E1 E2].
  { pose proof (fun err => respond_all_spec err p Hi) as Hall. unfold redis_batcher_close, redis_flush. simpl.
    destruct (rp_batch p) eqn:Eb; [split; [done|apply (pi_empty _ Hi), elem_of_app; by left]|].
    destruct (io_encode io) as [e|]; [|destruct (publish_err _) as [e|]]; cbn [fst closing_io io_closed];
      lazymatch goal with |- context [respond_all ?err p] => destruct (Hall err) as (_ & _ & Ec & _ & Ho) end;
      (split; [done|by apply Ho]). }
  simpl. rewrite E1. split; [done|]. unfold redis_publish_wait. by rewrite E2.
Qed.

(** ** Witnesses: a codec that satisfies the law *)

#[export] Instance Scope_eq_dec : EqDecision Scope.
Proof. solve_decision. Defined.

#[export] Instance Scope_countable : Countable Scope.
Proof.
  refine (inj_countable' (fun s => match s with ScopeLocal => false | ScopeGlobal => true end)
    (fun b => if b : bool then ScopeGlobal else ScopeLocal) _). by intros [].
Defined.

#[export] Instance BatchPayload_eq_dec : EqDecision BatchPayload.
Proof. solve_decision. Defined.

#[export] Instance BatchPayload_countable : Countable BatchPayload.
Proof.
  refine (inj_countable'
    (fun b => (bp_Nonce b, bp_Keys b, bp_Regions b, bp_Vectors b, bp_Scopes b))
    (fun '(n, k, r, v, s) => mkPayload n k r v s) _). by intros [].
Defined.

(** A positive in binary digits. *)
Fixpoint pos_string (p : positive) : string :=
  match p with
  | xH => ""
  | xO p => String Ascii.zero (pos_string p)
  | xI p => String Ascii.one (pos_string p)
  end.

Fixpoint string_pos (s : string) : positive :=
  match s with
  | EmptyString => xH
  | String a s => if decide (a = Ascii.zero) then xO (string_pos s) else xI (string_pos s)
  end.

Lemma string_pos_string p : string_pos (pos_string p) = p.
Proof. induction p; simpl; by rewrite ?IHp. Qed.

Definition demo_encode (b : BatchPayload) : string := pos_string (encode b).
Definition demo_decode (s : string) : option BatchPayload := decode (string_pos s).

Lemma demo_codec b : payload_valid b -> demo_decode (demo_encode b) = Some b.
Proof. intros _. unfold demo_decode, demo_encode. by rewrite string_pos_string, decode_encode. Qed.

Definition demo_io : flush_io := mkFlushIO None None Published false None false Published.

(** One request in the batch. *)
Definition redis_demo : pubState :=
  fst (redis_batcher_req "n" demo_io
    (fst (redis_publish_start Background true "k" [WithRegion "eu"] (r_pub NewRedisBus)))).

Lemma redis_demo_steps : rtc redis_pub_step (r_pub NewRedisBus) redis_demo.
Proof.
  eapply rtc_l; [apply (rps_start Background true "k" [WithRegion "eu"])|].
  apply rtc_once, (rps_req "n" demo_io).
Qed.

Definition redis_sub_demo : subState := fst (RedisBus_Subscribe None "k" (r_sub NewRedisBus)).

(** The answer to the first publication is lost; the second one is answered. *)
Definition demo_lost_io : flush_io :=
  mkFlushIO None None (PublishLost (ErrNew "i/o timeout")) false None false Published.

Lemma redis_flush_correct_witness :
  length (snd (redis_flush "n" demo_lost_io redis_demo)) = 2%nat /\
  rp_resp (fst (redis_flush "n" demo_lost_io redis_demo)) !! 0%nat = Some (Some None) /\
  rp_blocked (fst (redis_flush "n" demo_lost_io redis_demo)) = false.
Proof.
  pose proof (redis_flush_correct redis_demo "n" demo_lost_io redis_demo_steps ltac:(discriminate)) as H.
  split_and!; [reflexivity|reflexivity|].
  destruct (redis_flush "n" demo_lost_io redis_demo) as [p' sent]. exact (proj1 H).
Defined.

Definition redis_demo_payload : BatchPayload := batch_payload "n" (rp_batch redis_demo).

Lemma redis_batch_delivered_witness :
  rsub_chans (dispatch_global demo_decode 0 (demo_encode redis_demo_payload) redis_sub_demo) !! 0%nat
    = Some (mkChan [mkEvent "k" "eu" None ScopeLocal] false).
Proof.
  destruct (redis_batch_delivered demo_encode demo_decode demo_codec redis_demo "n" demo_io
    redis_demo_payload 0 0 redis_sub_demo) as (_ & H & _ & _).
  - apply list_elem_of_singleton. reflexivity.
  - split_and!; [repeat constructor|repeat constructor|repeat constructor|reflexivity].
    intros k v Hk. simpl in Hk. rewrite lookup_empty in Hk. discriminate Hk.
  - apply rtc_once, (rss_subscribe demo_decode None "k").
  - reflexivity.
  - rewrite (H (mkReq "k" (mkPubOpts "eu" None ScopeLocal) 0) "k" 0%nat); [reflexivity|reflexivity|decide_closed].
Defined.

Lemma redis_close_strands_queued_witness :
  let p := fst (redis_publish_start Background true "k" [] (r_pub NewRedisBus)) in
  snd (redis_publish_wait Background true "k" 0 (fst (redis_batcher_close "n" demo_io p))) = RPubWaiting 0.
Proof.
  pose proof (redis_close_strands_queued (fst (redis_publish_start Background true "k" [] (r_pub NewRedisBus)))
    "n" demo_io (mkReq "k" (mkPubOpts "" None ScopeLocal) 0) true) as H.
  destruct H as [_ E]; [apply rtc_once, (rps_start Background true "k" [])|left|].
  simpl. simpl in E. rewrite E. reflexivity.
Defined.
