(* ===== verification/RedisNode.v ===== *)
(** * RedisNode: the goroutines of the redis bus

    Composes the operations of [RedisBus] the way [NewRedisBus] of
    [src/syncbus/redis/redis.go] does: the goroutines [dispatchGlobal] (a
    position in its two loops), [runBatcher] and [cleanupSeen], the clients that
    publish and subscribe, and [Close], which waits for the three goroutines.
    A turn is one step of one of them; turns interleave in any order. A flush of
    the batcher, with its calls of the server, is one turn; [dispatchGlobal]
    takes one turn for each entry of a batch.

    The theorems: after a lost connection or a reconnection the node subscribes
    to the global channel again, on the client of the day and on no other
    ([redis_global_recovers]); [Close] closes the subscriptions of the node for
    good and returns ([redis_Close_returns]), but for one whose [Subscribe]
    failed ([redis_Subscribe_leaks]). *)

From S2P Require Import Prelude Merge SyncBus RedisBus RedisProps.

(** ** Positions and events *)

(** [dispatchGlobal]: at the top of its loop, with the client it has read, in
    [ReceiveTimeout], in the inner loop, in a pause, returned. *)
Inductive global_pc :=
| GTop
| GClient (client : nat)
| GReceive (client ps : nat)
| GLoop (client ps : nat)
| GPause
| GDone.

(** What lets it go on; [GGo] in a pause is its timer, [GMessage None] is the nil
    message, and [GEntry] dispatches the next entry of the batch it is at. *)
Inductive global_ev :=
| GGo
| GReceived (err : option error)
| GMessage (msg : option (time * string))
| GEntry
| GChanClosed
| GSeesClose.

(** The selects of [runBatcher] and of [cleanupSeen]. *)
Inductive batcher_ev :=
| BReq (nonce : string) (io : flush_io) (keys : list (string * option error))
| BTick (nonce : string) (io : flush_io) (keys : list (string * option error))
| BClose (nonce : string) (io : flush_io).
Inductive seen_ev := SeenTick (now : time) | SeenClose.

(** What clients do; [OpSeen] and [OpDispatch] are the two steps of the goroutine
    [dispatch] of a subscription. *)
Inductive client_op :=
| OpPublish (cx : ctx) (pick : bool) (key : string) (opts : list PublishOption)
| OpQueue (cx : ctx) (pick : bool) (key : string) (o : PublishOptions)
| OpWait (cx : ctx) (pick : bool) (key : string) (resp : nat)
| OpAwait (reply : res Z) (key : string) (replicas : Z) (opts : list PublishOption)
| OpSubscribe (recv_err : option error) (key : string)
| OpUnsubscribe (close_err : option error) (key : string) (ch : nat)
| OpSeen (now : time) (payload : string)
| OpDispatch (key : string) (id : nat)
| OpRecv (ch : nat).

(** [n_entries]: what [dispatchGlobal] has still to dispatch of the batch it is
    at. [n_batcher], [n_cleaner]: the goroutine is running. Three histories: the
    subscriptions [dispatchGlobal] has opened, the clients on which the server
    confirmed one, and the payloads that were published. *)
Record node := mkNode {
  n_bus : RedisBus;
  n_pc : global_pc;
  n_entries : list (BatchPayload * (nat * string));
  n_batcher : bool;
  n_cleaner : bool;
  n_opened : list nat;
  n_confirmed : list nat;
  n_sent : list BatchPayload;
}.

(** [NewRedisBus] with the goroutines it starts. *)
Definition start_node : node := mkNode NewRedisBus GTop [] true true [] [] [].

Definition set_bus (n : node) (b : RedisBus) : node :=
  mkNode b (n_pc n) (n_entries n) (n_batcher n) (n_cleaner n) (n_opened n) (n_confirmed n) (n_sent n).
Definition set_pc (n : node) (b : RedisBus) (pc : global_pc) : node :=
  mkNode b pc (n_entries n) (n_batcher n) (n_cleaner n) (n_opened n) (n_confirmed n) (n_sent n).

Section Turns.
Variable decode_batch : string -> option BatchPayload.
Implicit Types n : node.

Definition is_closed n : bool := rc_closed (r_conn (n_bus n)).

(** The inner loop of [dispatchGlobal]: a batch is dispatched to its last entry
    before the select is at its next event. *)
Definition inner_turn (ps : nat) (ev : global_ev) n : node :=
  let b := n_bus n in
  let at_entries b es :=
    mkNode b (n_pc n) es (n_batcher n) (n_cleaner n) (n_opened n) (n_confirmed n) (n_sent n) in
  match n_entries n, ev with
  | e :: es, GEntry => at_entries (set_sub b (global_entry (r_sub b) e)) es
  | [], GMessage (Some (now, payload)) =>
      let '(s, es) := global_message decode_batch now payload (r_sub b) in at_entries (set_sub b s) es
  | [], GMessage None => n
  | [], GChanClosed => set_pc n (global_lost ps b) GPause
  | [], GSeesClose => if is_closed n then set_pc n (set_sub b (close_pubsub ps (r_sub b))) GDone else n
  | _, _ => n
  end.

(** One step of [dispatchGlobal]; an event that its position does not wait for,
    or a close that has not happened, changes nothing. *)
Definition global_turn (ev : global_ev) n : node :=
  let b := n_bus n in
  match n_pc n, ev with
  | GTop, GGo => set_pc n b (GClient (rc_client (r_conn b)))
  | GClient client, GGo =>
      let '(b', ps) := global_subscribe client b in
      mkNode b' (match ps with Some ps => GReceive client ps | None => GTop end) (n_entries n) (n_batcher n)
        (n_cleaner n) (rsub_next (r_sub b) :: n_opened n) (n_confirmed n) (n_sent n)
  | GReceive client ps, GReceived err =>
      let b' := global_received client ps err b in
      match err with
      | Some _ => set_pc n b' GPause
      | None =>
          mkNode b' (GLoop client ps) (n_entries n) (n_batcher n) (n_cleaner n) (n_opened n)
            (client :: n_confirmed n) (n_sent n)
      end
  | GLoop client ps, ev => inner_turn ps ev n
  | GPause, GGo => set_pc n b GTop
  | GPause, GSeesClose => if is_closed n then set_pc n b GDone else n
  | _, _ => n
  end.

(** A flush after the close takes the case of its select that sees it. *)
Definition io_now n (io : flush_io) : flush_io := if is_closed n then closing_io io else io.

Definition flush_turn (nonce : string) (io : flush_io) (keys : list (string * option error)) (go_on : bool) n
    : node :=
  let '(b, sent) := RedisBus_flush nonce io keys (n_bus n) in
  mkNode b (n_pc n) (n_entries n) go_on (n_cleaner n) (n_opened n) (n_confirmed n) (n_sent n ++ sent).

(** One iteration of [runBatcher]. *)
Definition batcher_turn (ev : batcher_ev) n : node :=
  if n_batcher n then
    match ev with
    | BReq nonce io keys =>
        let p := r_pub (n_bus n) in
        match rp_publishCh p with
        | [] => n
        | req :: q =>
            let p := set_rqueue p q (rp_batch p ++ [req]) in
            let n := set_bus n (set_pub (n_bus n) p) in
            if batchThreshold <=? Z.of_nat (length (rp_batch p)) then flush_turn nonce (io_now n io) keys true n else n
        end
    | BTick nonce io keys => flush_turn nonce (io_now n io) keys true n
    | BClose nonce io => if is_closed n then flush_turn nonce (io_now n io) [] false n else n
    end
  else n.

(** One iteration of [cleanupSeen]. *)
Definition cleanupSeen_turn (ev : seen_ev) n : node :=
  if n_cleaner n then
    match ev with
    | SeenTick now => set_bus n (set_sub (n_bus n) (cleanupSeen_tick now (r_sub (n_bus n))))
    | SeenClose =>
        if is_closed n
        then mkNode (n_bus n) (n_pc n) (n_entries n) (n_batcher n) false (n_opened n) (n_confirmed n) (n_sent n) else n
    end
  else n.

Definition client_pub (op : client_op) (p : pubState) : pubState :=
  match op with
  | OpPublish cx pick key opts => fst (redis_publish_start cx pick key opts p)
  | OpQueue cx pick key o => fst (redis_publish_queue cx pick key o p)
  | OpWait cx pick key resp => fst (redis_publish_wait cx pick key resp p)
  | OpAwait reply key replicas opts => fst (RedisBus_PublishAndAwait reply key replicas opts p)
  | _ => p
  end.

Definition client_sub (op : client_op) (s : subState) : subState :=
  match op with
  | OpSubscribe recv_err key => fst (RedisBus_Subscribe recv_err key s)
  | OpUnsubscribe close_err key ch => fst (RedisBus_Unsubscribe close_err key ch s)
  | OpSeen now payload => fst (checkSeen now payload s)
  | OpDispatch key id => dispatch_event key id s
  | OpRecv ch => fst (redis_recv ch s)
  | _ => s
  end.

Definition client_turn (op : client_op) n : node :=
  let b := n_bus n in set_bus n (mkRedis (client_pub op (r_pub b)) (client_sub op (r_sub b)) (r_conn b)).

(** [Close] up to its [wg.Wait()], and what it waits for. *)
Definition close_turn n : node := set_bus n (RedisBus_Close (n_bus n)).

Definition wg (n : node) : nat :=
  ((match n_pc n with GDone => 0 | _ => 1 end) + (if n_batcher n then 1 else 0)
   + (if n_cleaner n then 1 else 0))%nat.

Inductive node_step : node -> node -> Prop :=
| ns_global ev n : node_step n (global_turn ev n)
| ns_batcher ev n : node_step n (batcher_turn ev n)
| ns_cleaner ev n : node_step n (cleanupSeen_turn ev n)
| ns_client op n : node_step n (client_turn op n)
| ns_close n : is_closed n = false -> node_step n (close_turn n).

Definition reachable n : Prop := rtc node_step start_node n.

End Turns.

(** [readyClient]: what its select sees in each round, with the bus it sees it
    in. [None]: it is still waiting. *)
Fixpoint readyClient (rounds : list (ready_event * RedisBus)) : option (res nat) :=
  match rounds with
  | [] => None
  | (ev, b) :: rounds =>
      match ready_round ev b with Some r => Some r | None => readyClient rounds end
  end.

(** ** The subscriptions of the global channel

    [apart O s]: the subscriptions [O] of the global channel are in use, and
    none of them is the subscription of a key. *)
Definition apart (O : list nat) (s : subState) : Prop :=
  (forall ps, ps ∈ O -> (ps < rsub_next s)%nat) /\
  forall id sub, rsub_heap s !! id = Some sub -> (rs_pubsub sub ∉ O) /\ (rs_pubsub sub < rsub_next s)%nat.

(** No subscription is opened but under a new number. *)
Definition ages (s s' : subState) : Prop :=
  (rsub_next s <= rsub_next s')%nat /\
  forall ps, (ps < rsub_next s)%nat -> rsub_pubsubs s' !! ps = Some false -> rsub_pubsubs s !! ps = Some false.

#[export] Instance ages_refl : Reflexive ages.
Proof. by intros s. Qed.
#[export] Instance ages_trans : Transitive ages.
Proof.
  intros s1 s2 s3 [H1 H2] [H3 H4]. split; [lia|]. intros ps Hp Hl. apply (H2 ps Hp), H4; [lia|done].
Qed.

Lemma ages_ext s s' : rsub_pubsubs s' = rsub_pubsubs s -> (rsub_next s <= rsub_next s')%nat -> ages s s'.
Proof. intros E Hn. split; [done|]. by rewrite E. Qed.

Lemma ages_fresh s s' closed :
  rsub_pubsubs s' = <[rsub_next s := closed]> (rsub_pubsubs s) -> (rsub_next s <= rsub_next s')%nat -> ages s s'.
Proof. intros E Hn. split; [done|]. intros ps Hp. by rewrite E, lookup_insert_ne by lia. Qed.

Lemma ages_close ps s : ages s (close_pubsub ps s).
Proof. split; [done|]. intros q _. simpl. intros [[_ ?]|[_ ?]]%lookup_insert_Some; done. Qed.

(** A change of the other subscriptions. *)
Definition keeps (O : list nat) (s s' : subState) : Prop :=
  ages s s' /\
  (apart O s -> apart O s' /\ forall ps, ps ∈ O -> rsub_pubsubs s' !! ps = rsub_pubsubs s !! ps).

#[export] Instance keeps_refl O : Reflexive (keeps O).
Proof. by intros s. Qed.
#[export] Instance keeps_trans O : Transitive (keeps O).
Proof.
  intros s1 s2 s3 [A1 H1] [A2 H2]. split; [by etrans|]. intros H.
  destruct (H1 H) as [Ha E1]. destruct (H2 Ha) as [Hb E2].
  split; [done|]. intros ps Hp. by rewrite E2, E1.
Qed.

(** Steps that touch no redis subscription. *)
Lemma keeps_ext O s s' :
  rsub_pubsubs s' = rsub_pubsubs s -> rsub_next s' = rsub_next s ->
  (forall id sub', rsub_heap s' !! id = Some sub' ->
     exists sub, rsub_heap s !! id = Some sub /\ rs_pubsub sub' = rs_pubsub sub) ->
  keeps O s s'.
Proof.
  intros E1 E2 E3. split; [apply ages_ext; [done|lia]|]. intros [H1 H2]. split; [|by rewrite E1].
  split; rewrite E2; [done|]. intros id sub' (sub & Hs & ->)%E3. by eapply H2.
Qed.

(** A new redis subscription of a key. *)
Lemma keeps_fresh O s s' id chs :
  rsub_pubsubs s' = <[rsub_next s := false]> (rsub_pubsubs s) -> rsub_next s' = S (rsub_next s) ->
  rsub_heap s' = <[id := mkRSub (rsub_next s) chs]> (rsub_heap s) -> keeps O s s'.
Proof.
  intros E1 E2 E3. split; [apply (ages_fresh _ _ false); [done|lia]|]. intros [H1 H2].
  split; [split|]; rewrite ?E1, ?E2, ?E3.
  - intros ps Hp%H1. lia.
  - intros j sub [[<- <-]|[_ Hs]]%lookup_insert_Some; simpl.
    + split; [|lia]. intros Hp%H1. lia.
    + destruct (H2 j sub Hs). split; [done|lia].
  - intros ps Hp%H1. rewrite lookup_insert_ne by lia. done.
Qed.

(** The redis subscription of a key is closed. *)
Lemma keeps_close O s id sub :
  rsub_heap s !! id = Some sub -> keeps O s (close_pubsub (rs_pubsub sub) s).
Proof.
  intros Hs. split; [apply ages_close|]. intros H. split; [done|]. intros ps Hp. simpl.
  rewrite lookup_insert_ne; [done|]. intros <-. by apply H in Hs as [? _].
Qed.

Lemma redis_send_frame evt s ch :
  rsub_pubsubs (redis_send evt s ch) = rsub_pubsubs s /\ rsub_next (redis_send evt s ch) = rsub_next s /\
  rsub_heap (redis_send evt s ch) = rsub_heap s.
Proof. unfold redis_send. by repeat case_match. Qed.

Lemma keeps_send O evt s ch : keeps O s (redis_send evt s ch).
Proof. destruct (redis_send_frame evt s ch) as (? & ? & E). apply keeps_ext; [done|done|rewrite E; eauto]. Qed.

Lemma keeps_foldl {A} O (f : subState -> A -> subState) l s :
  (forall s x, keeps O s (f s x)) -> keeps O s (foldl f s l).
Proof.
  intros Hf. revert s. induction l as [|x l IH]; intros s; simpl; [done|]. etrans; [apply Hf|apply IH].
Qed.

Lemma keeps_checkSeen O now payload s : keeps O s (fst (checkSeen now payload s)).
Proof. unfold checkSeen. case_match; [done|]. apply keeps_ext; eauto. Qed.

Lemma keeps_message O decode now payload s : keeps O s (fst (global_message decode now payload s)).
Proof.
  pose proof (keeps_checkSeen O now payload s) as Hc. unfold global_message.
  by destruct (checkSeen now payload s) as [s1 []].
Qed.

Lemma keeps_entry O e s : keeps O s (global_entry s e).
Proof.
  destruct e as [batch [i key]]. unfold global_entry, dispatch_entry. simpl. case_match; [|done].
  apply keeps_foldl, keeps_send.
Qed.

(** A redis subscription that belongs to nothing. *)
Lemma keeps_leak O s closed :
  keeps O s (set_pubsubs s (<[rsub_next s := closed]> (rsub_pubsubs s)) (S (rsub_next s))).
Proof.
  split; [by apply (ages_fresh _ _ closed); simpl; [|lia]|]. intros [H1 H2]. split; [split|]; simpl.
  - intros ps Hp%H1. lia.
  - intros id sub Hs. destruct (H2 id sub Hs). split; [done|lia].
  - intros ps Hp%H1. rewrite lookup_insert_ne by lia. done.
Qed.

Lemma keeps_resubscribe O s ke : keeps O s (resubscribe s ke).
Proof.
  destruct ke as [key err]. unfold resubscribe. destruct (_ ≫= _) as [[id sub]|] eqn:E; [|done].
  apply find_sub_Some in E as [_ E]. etrans; [by apply (keeps_close O s id sub)|].
  destruct err; [done|]. by eapply (keeps_fresh O).
Qed.

Lemma keeps_close_chan O ch s : keeps O s (redis_close_chan ch s).
Proof. unfold redis_close_chan. repeat case_match; [done| |done]; apply keeps_ext; eauto. Qed.

Lemma keeps_Unsubscribe O close_err key ch s : keeps O s (fst (RedisBus_Unsubscribe close_err key ch s)).
Proof.
  unfold RedisBus_Unsubscribe. destruct (_ ≫= _) as [[id sub]|] eqn:E; [|done]. apply find_sub_Some in E as [_ E].
  assert (forall s1 subs, keeps O s s1 -> (exists sub1, rsub_heap s1 !! id = Some sub1 /\ rs_pubsub sub1 = rs_pubsub sub) ->
    keeps O s (close_pubsub (rs_pubsub sub) (set_rsubs s1 subs (rsub_heap s1) (rsub_chans s1)))) as Hclose.
  { intros s1 subs H1 (sub1 & Hh & <-). etrans; [exact H1|]. etrans; [|by apply (keeps_close O _ id sub1)].
    apply keeps_ext; eauto. }
  destruct (index_of ch (rs_chans sub)) as [i|].
  - set (s0 := set_rsubs s _ _ _).
    assert (keeps O s s0) as H0.
    { apply keeps_ext; [done|done|]. intros j sub' Hj. unfold s0 in Hj. simpl in Hj.
      apply lookup_insert_Some in Hj as [[<- <-]|[_ ?]]; eauto. }
    assert (rsub_heap (redis_close_chan ch s0) = rsub_heap s0) as Eh by (unfold redis_close_chan; by repeat case_match).
    assert (keeps O s (redis_close_chan ch s0)) as H1 by (etrans; [exact H0|apply keeps_close_chan]).
    case_decide; [|done]. apply Hclose; [done|]. rewrite Eh. eexists. split; [apply lookup_insert_eq|done].
  - case_decide; [|done]. apply Hclose; [done|eauto].
Qed.

Lemma keeps_client O op s : keeps O s (client_sub op s).
Proof.
  destruct op as [| | | |recv_err key|close_err key ch|now payload|key id|ch]; simpl; try done.
  - unfold RedisBus_Subscribe. destruct (_ ≫= _) as [[id sub]|] eqn:E.
    + apply find_sub_Some in E as [_ E]. simpl. split; [apply ages_ext; simpl; [done|lia]|]. intros [H1 H2].
      split; [split|done]; simpl.
      * intros ps Hp%H1. lia.
      * intros j sub' [[<- <-]|[_ Hs]]%lookup_insert_Some; simpl; [destruct (H2 _ _ E)|destruct (H2 _ _ Hs)];
          (split; [done|lia]).
    + destruct recv_err; [apply (keeps_leak O)|]. by eapply (keeps_fresh O).
  - apply keeps_Unsubscribe.
  - apply keeps_checkSeen.
  - apply keeps_foldl, keeps_send.
  - unfold redis_recv. repeat case_match; try done; apply keeps_ext; eauto.
Qed.

(** ** What holds in every state *)

(** A redis subscription is open. *)
Definition live (b : RedisBus) (ps : nat) : Prop := rsub_pubsubs (r_sub b) !! ps = Some false.

(** The client and the subscription [dispatchGlobal] holds. *)
Definition holds (pc : global_pc) : option (nat * nat) :=
  match pc with GReceive c ps | GLoop c ps => Some (c, ps) | _ => None end.

(** Of the subscriptions [dispatchGlobal] opened (in [O]) at most the one it holds is
    open; while it is, it is the one a reconnection would close, it belongs to
    the client of the bus, and in the inner loop the bus is ready. A bus that is
    ready has a client on which the server confirmed the subscription. *)
Record conn_inv (O confirmed : list nat) (pc : global_pc) (b : RedisBus) : Prop := {
  ci_apart : apart O (r_sub b);
  ci_only : forall ps, ps ∈ O -> live b ps -> exists c, holds pc = Some (c, ps);
  ci_holds : forall c ps, holds pc = Some (c, ps) -> ps ∈ O /\
    (live b ps -> rc_globalSub (r_conn b) = Some ps /\ c = rc_client (r_conn b) /\
       (pc = GLoop c ps -> rc_ready (r_conn b) = true));
  ci_global : forall ps, rc_globalSub (r_conn b) = Some ps -> ps ∈ O;
  ci_ready : rc_ready (r_conn b) = true -> rc_client (r_conn b) ∈ confirmed;
}.

Lemma conn_inv_keeps O cf pc b b' :
  r_conn b' = r_conn b -> keeps O (r_sub b) (r_sub b') -> conn_inv O cf pc b -> conn_inv O cf pc b'.
Proof.
  intros Ec [_ Hk] [H1 H2 H3 H4 H5]. destruct (Hk H1) as [Ha Hl].
  assert (forall ps, ps ∈ O -> live b' ps -> live b ps) as Hlive by (intros ps Hp; unfold live; by rewrite Hl).
  split; rewrite ?Ec; try done.
  - intros ps Hp Hv. apply (H2 ps Hp), Hlive; done.
  - intros c ps Hh. destruct (H3 c ps Hh) as [Hin Hc]. split; [done|]. intros Hv. by apply Hc, Hlive.
Qed.

(** Without an open subscription, what is left to check. *)
Lemma conn_inv_dead O cf pc b :
  apart O (r_sub b) -> (forall ps, ps ∈ O -> ~ live b ps) -> (forall c ps, holds pc = Some (c, ps) -> ps ∈ O) ->
  (forall ps, rc_globalSub (r_conn b) = Some ps -> ps ∈ O) ->
  (rc_ready (r_conn b) = true -> rc_client (r_conn b) ∈ cf) -> conn_inv O cf pc b.
Proof.
  intros H1 H2 H3 H4 H5. split; try done.
  - intros ps Hp Hv. by destruct (H2 ps Hp).
  - intros c ps Hh. split; [by eapply H3|]. intros Hv. destruct (H2 ps); [by eapply H3|done].
Qed.

Lemma apart_close O ps s : apart O s -> apart O (close_pubsub ps s).
Proof. done. Qed.

(** After the subscription at hand is closed no other is open. *)
Lemma close_held O cf pc b c ps :
  conn_inv O cf pc b -> holds pc = Some (c, ps) ->
  forall q, q ∈ O -> rsub_pubsubs (close_pubsub ps (r_sub b)) !! q <> Some false.
Proof.
  intros H Hh q Hq. simpl. destruct (decide (q = ps)) as [->|Hne]; [by rewrite lookup_insert_eq|].
  rewrite lookup_insert_ne by done. intros Hl. destruct (ci_only _ _ _ _ H q Hq Hl) as [c' E]. congruence.
Qed.

Lemma close_global_dead O cf pc b :
  conn_inv O cf pc b -> apart O (r_sub (close_global b)) /\ forall ps, ps ∈ O -> ~ live (close_global b) ps.
Proof.
  intros H. unfold close_global, live. split; [destruct (rc_globalSub (r_conn b)); apply H|].
  intros ps Hp Hl. assert (live b ps) as Hl'.
  { unfold live. destruct (rc_globalSub (r_conn b)) as [q|]; [|done]. simpl in Hl.
    by apply lookup_insert_Some in Hl as [[_ ?]|[_ ?]]. }
  destruct (ci_only _ _ _ _ H ps Hp Hl') as [c E]. destruct (ci_holds _ _ _ _ H c ps E) as [_ Hc].
  destruct (Hc Hl') as [Eg _]. rewrite Eg in Hl. simpl in Hl. by rewrite lookup_insert_eq in Hl.
Qed.

Lemma reconnect_inv O cf pc keys b : conn_inv O cf pc b -> conn_inv O cf pc (reconnect keys b).
Proof.
  intros H. destruct (close_global_dead _ _ _ _ H) as [Ha Hd]. unfold reconnect.
  set (b1 := set_conn (close_global b) _).
  apply (conn_inv_keeps O cf pc b1); [done|apply keeps_foldl; intros; apply keeps_resubscribe|].
  apply conn_inv_dead; try done. intros c ps Hh. by apply (ci_holds _ _ _ _ H c).
Qed.

Lemma RedisBus_Close_inv O cf pc b : conn_inv O cf pc b -> conn_inv O cf pc (RedisBus_Close b).
Proof.
  intros H. destruct (close_global_dead _ _ _ _ H) as [Ha Hd]. unfold RedisBus_Close.
  destruct (rc_closed (r_conn b)); [by eapply conn_inv_keeps; [..|exact H]|].
  set (b1 := set_conn (close_global b) _).
  assert (conn_inv O cf pc b1) as H1.
  { apply conn_inv_dead; try done.
    - intros c ps Hh. by apply (ci_holds _ _ _ _ H c).
    - unfold b1. simpl. destruct (rc_globalSub (r_conn b)); apply H. }
  apply (conn_inv_keeps O cf pc b1); [done| |exact H1]. simpl.
  set (s := r_sub b1). set (pss := omap _ _).
  assert (forall p, p ∈ pss -> exists id sub, rsub_heap s !! id = Some sub /\ rs_pubsub sub = p) as Hp.
  { intros p (id & Hid & (sub & Es & ->)%fmap_Some)%list_elem_of_omap. eauto. }
  clearbody pss. assert (keeps O s (set_rsubs s ∅ (rsub_heap s) (rsub_chans s))) as Hk by (apply keeps_ext; eauto).
  assert (forall l, (forall p, p ∈ l -> exists id sub, rsub_heap s !! id = Some sub /\ rs_pubsub sub = p) ->
    let s' := foldr close_pubsub (set_rsubs s ∅ (rsub_heap s) (rsub_chans s)) l in
    keeps O s s' /\ rsub_heap s' = rsub_heap s) as Hf; [|by apply Hf].
  induction l as [|p l IH]; intros Hl; simpl; [done|].
  destruct (IH (fun q Hq => Hl q (list_elem_of_further _ _ _ Hq))) as [IH1 IH2].
  split; [|exact IH2]. etrans; [exact IH1|]. destruct (Hl p) as (id & sub & Es & <-); [by left|].
  apply (keeps_close O _ id sub). by rewrite IH2.
Qed.

(** *** The turns of [dispatchGlobal] *)

Lemma apart_snoc O s ps closed :
  ps = rsub_next s -> apart O s ->
  apart (ps :: O) (set_pubsubs s (<[ps := closed]> (rsub_pubsubs s)) (S ps)).
Proof.
  intros -> [H1 H2]. split; simpl.
  - intros q [->|Hq%H1]%elem_of_cons; lia.
  - intros id sub Hs. destruct (H2 id sub Hs). rewrite not_elem_of_cons. split; [split; [lia|done]|lia].
Qed.

Lemma global_subscribe_inv O cf client b :
  conn_inv O cf (GClient client) b ->
  let '(b', ps) := global_subscribe client b in
  conn_inv (rsub_next (r_sub b) :: O) cf
    (match ps with Some ps => GReceive client ps | None => GTop end) b'.
Proof.
  intros [H1 H2 H3 H4 H5]. unfold global_subscribe. set (ps := rsub_next (r_sub b)).
  assert (forall closed q, q ∈ O -> <[ps := closed]> (rsub_pubsubs (r_sub b)) !! q <> Some false) as Hd.
  { intros cl q Hq. rewrite lookup_insert_ne by (apply H1 in Hq; unfold ps; lia). intros Hl.
    by destruct (H2 q Hq Hl). }
  assert (forall q, rc_globalSub (r_conn b) = Some q -> q ∈ ps :: O) as Hg by (intros q Hq; right; by apply H4).
  destruct (client =? rc_client (r_conn b))%nat eqn:E.
  - apply Nat.eqb_eq in E as ->. split; [by apply apart_snoc| | | |done].
    + intros q [->|Hq]%elem_of_cons Hl; [by eexists|]. by destruct (Hd false q Hq).
    + intros c q [= <- <-]. split; [left|]. done.
    + intros q [= <-]. left.
  - apply conn_inv_dead; [by apply apart_snoc| |done|done|done].
    intros q [->|Hq]%elem_of_cons; unfold live; simpl; [by rewrite lookup_insert_eq|by apply Hd].
Qed.

Lemma conn_inv_live O cf pc pc' b :
  holds pc' = holds pc -> (forall c ps, pc' = GLoop c ps -> rc_ready (r_conn b) = true \/ ~ live b ps) ->
  conn_inv O cf pc b -> conn_inv O cf pc' b.
Proof.
  intros Eh Hr [H1 H2 H3 H4 H5]. split; try done.
  - intros ps. rewrite Eh. apply H2.
  - intros c ps Hh. rewrite Eh in Hh. destruct (H3 c ps Hh) as [Hin Hc]. split; [done|]. intros Hl.
    destruct (Hc Hl) as (E1 & E2 & _). split_and!; [done|done|]. intros E. by destruct (Hr c ps E).
Qed.

Lemma global_received_inv O cf client ps err b :
  conn_inv O cf (GReceive client ps) b ->
  conn_inv O (match err with Some _ => cf | None => client :: cf end)
    (match err with Some _ => GPause | None => GLoop client ps end) (global_received client ps err b).
Proof.
  intros H. pose proof H as [H1 H2 H3 H4 H5]. destruct (H3 client ps eq_refl) as [Hin Hl].
  destruct err as [e|]; simpl.
  - apply conn_inv_dead; [by apply apart_close| |done| |done].
    + by apply (close_held O cf (GReceive client ps) b client).
    + simpl. intros q. case_match; [done|]. apply H4.
  - split; simpl; try done.
    + intros c q [= <- <-]. split; [done|]. intros Hv. destruct (Hl Hv) as (E1 & E2 & _).
      split_and!; [done|done|]. intros _. rewrite <- E2, Nat.eqb_refl. apply orb_true_r.
    + intros [Hr|E%Nat.eqb_eq]%orb_true_iff; [right; by apply H5|]. subst. left.
Qed.

Lemma close_held_inv O cf c ps b conn' pc' :
  conn_inv O cf (GLoop c ps) b -> holds pc' = None ->
  rc_client conn' = rc_client (r_conn b) -> rc_ready conn' = rc_ready (r_conn b) ->
  (forall q, rc_globalSub conn' = Some q -> rc_globalSub (r_conn b) = Some q) ->
  conn_inv O cf pc' (set_conn (set_sub b (close_pubsub ps (r_sub b))) conn').
Proof.
  intros H Eh E1 E2 E3. pose proof H as [H1 H2 H3 H4 H5].
  apply conn_inv_dead; [by apply apart_close|by apply (close_held O cf (GLoop c ps) b c)|by rewrite Eh| |].
  - intros q Hq. by apply H4, E3.
  - simpl. by rewrite E1, E2.
Qed.

Definition node_conn_inv (n : node) : Prop := conn_inv (n_opened n) (n_confirmed n) (n_pc n) (n_bus n).

Lemma at_entries_conn n s es :
  keeps (n_opened n) (r_sub (n_bus n)) s -> node_conn_inv n ->
  node_conn_inv (mkNode (set_sub (n_bus n) s) (n_pc n) es (n_batcher n) (n_cleaner n) (n_opened n)
    (n_confirmed n) (n_sent n)).
Proof. intros Hk H. by eapply conn_inv_keeps; [..|exact H]. Qed.

Lemma inner_turn_conn decode c ps ev n :
  n_pc n = GLoop c ps -> node_conn_inv n -> node_conn_inv (inner_turn decode ps ev n).
Proof.
  intros Epc H. pose proof H as H'. unfold node_conn_inv in H'. rewrite Epc in H'. unfold inner_turn.
  destruct (n_entries n) as [|e es], ev as [|err|[[now payload]|]| | |]; try exact H.
  - pose proof (keeps_message (n_opened n) decode now payload (r_sub (n_bus n))) as Hk.
    destruct (global_message _ _ _ _) as [s es]. by apply at_entries_conn.
  - apply (close_held_inv (n_opened n) (n_confirmed n) c ps (n_bus n)); try done. simpl. intros q. by case_decide.
  - destruct (is_closed n); [|exact H].
    by apply (close_held_inv (n_opened n) (n_confirmed n) c ps (n_bus n) (r_conn (n_bus n))).
  - apply at_entries_conn; [apply keeps_entry|exact H].
Qed.

Lemma global_turn_conn decode ev n : node_conn_inv n -> node_conn_inv (global_turn decode ev n).
Proof.
  intros H. destruct (n_pc n) as [|c|c ps|c ps| |] eqn:Epc; unfold global_turn; rewrite Epc;
    try (by eapply inner_turn_conn); destruct ev as [|err|msg| | |]; try exact H;
    pose proof H as H'; unfold node_conn_inv in *; rewrite Epc in H'.
  - by eapply conn_inv_live; [..|exact H'].
  - pose proof (global_subscribe_inv _ _ c _ H') as Hs. by destruct (global_subscribe c (n_bus n)).
  - pose proof (global_received_inv _ _ c ps err _ H') as Hr. by destruct err.
  - by eapply conn_inv_live; [..|exact H'].
  - destruct (is_closed n); [|exact H]. by eapply conn_inv_live; [..|exact H'].
Qed.

(** *** Every turn *)

Lemma flush_conn O cf pc nonce io keys b :
  conn_inv O cf pc b -> conn_inv O cf pc (fst (RedisBus_flush nonce io keys b)).
Proof.
  intros H. unfold RedisBus_flush. set (b' := if flush_reconnects _ _ then _ else _).
  assert (conn_inv O cf pc b') as H' by (unfold b'; case_match; [by apply reconnect_inv|done]).
  destruct (redis_flush nonce io (r_pub b')) as [p sent]. by eapply conn_inv_keeps; [..|exact H'].
Qed.

Lemma flush_turn_fst nonce io keys go n : n_bus (flush_turn nonce io keys go n) = fst (RedisBus_flush nonce io keys (n_bus n)).
Proof. unfold flush_turn. by destruct (RedisBus_flush nonce io keys (n_bus n)). Qed.

Lemma flush_turn_conn nonce io keys go n : node_conn_inv n -> node_conn_inv (flush_turn nonce io keys go n).
Proof.
  intros H. pose proof (flush_conn _ _ _ nonce io keys _ H) as Hf. unfold node_conn_inv, flush_turn.
  by destruct (RedisBus_flush nonce io keys (n_bus n)).
Qed.

Lemma set_bus_conn n b' :
  r_conn b' = r_conn (n_bus n) -> keeps (n_opened n) (r_sub (n_bus n)) (r_sub b') ->
  node_conn_inv n -> node_conn_inv (set_bus n b').
Proof. intros E Hk H. by eapply conn_inv_keeps; [..|exact H]. Qed.

Lemma batcher_turn_conn ev n : node_conn_inv n -> node_conn_inv (batcher_turn ev n).
Proof.
  intros H. unfold batcher_turn. destruct (n_batcher n); [|done]. destruct ev as [nonce io keys|nonce io keys|nonce io].
  - destruct (rp_publishCh _) as [|req q]; [done|]. set (n1 := set_bus n _).
    assert (node_conn_inv n1) by (by apply set_bus_conn). case_match; [by apply flush_turn_conn|done].
  - by apply flush_turn_conn.
  - case_match; [by apply flush_turn_conn|done].
Qed.

Lemma node_step_conn decode n n' : node_step decode n n' -> node_conn_inv n -> node_conn_inv n'.
Proof.
  destruct 1 as [ev n|ev n|ev n|op n|n Hc]; intros H.
  - by apply global_turn_conn.
  - by apply batcher_turn_conn.
  - unfold cleanupSeen_turn. destruct (n_cleaner n); [|done]. destruct ev; [|by case_match].
    apply set_bus_conn; [done| |done]. apply keeps_ext; eauto.
  - apply set_bus_conn; [done|apply keeps_client|done].
  - by apply RedisBus_Close_inv.
Qed.

Lemma start_node_conn : node_conn_inv start_node.
Proof.
  split; simpl; try done. split; [by intros ps ?%elem_of_nil|]. intros id sub. simpl. by rewrite lookup_empty.
Qed.

Lemma rtc_preserves {A} (R : A -> A -> Prop) (P : A -> Prop) a b :
  (forall x y, R x y -> P x -> P y) -> rtc R a b -> P a -> P b.
Proof. intros HR. induction 1; eauto. Qed.

Lemma reachable_conn decode n : reachable decode n -> node_conn_inv n.
Proof. intros H. eapply (rtc_preserves (node_step decode)); [apply node_step_conn|exact H|apply start_node_conn]. Qed.

(** ** The publishing side of a node

    Its turns are steps of [redis_pub_step], so what [RedisProps] proves of the
    batcher holds of a node. *)

Lemma reconnect_pub keys b : r_pub (reconnect keys b) = r_pub b.
Proof. unfold reconnect, close_global. simpl. by case_match. Qed.

Lemma flush_pub nonce io keys b :
  r_pub (fst (RedisBus_flush nonce io keys b)) = fst (redis_flush nonce io (r_pub b)).
Proof.
  unfold RedisBus_flush. assert (r_pub (if flush_reconnects io (r_pub b) then reconnect keys b else b) = r_pub b) as ->
    by (case_match; [apply reconnect_pub|done]).
  by destruct (redis_flush nonce io (r_pub b)).
Qed.

Lemma RedisBus_Close_pub b : r_pub (RedisBus_Close b) = r_pub b.
Proof. unfold RedisBus_Close, close_global. repeat case_match; done. Qed.

Lemma inner_turn_frame decode c ps ev n :
  n_pc n = GLoop c ps ->
  let n' := inner_turn decode ps ev n in
  r_pub (n_bus n') = r_pub (n_bus n) /\ is_closed n' = is_closed n /\ n_batcher n' = n_batcher n /\
  n_cleaner n' = n_cleaner n /\ (n_pc n' = GDone -> is_closed n = true).
Proof.
  intros Epc. unfold inner_turn, is_closed. destruct (n_entries n), ev as [|err|[[now payload]|]| | |];
    try destruct (global_message _ _ _ _); simpl; try destruct (rc_closed (r_conn (n_bus n))) eqn:Ec; simpl;
    rewrite ?Epc, ?Ec; done.
Qed.

Lemma global_turn_frame decode ev n :
  let n' := global_turn decode ev n in
  r_pub (n_bus n') = r_pub (n_bus n) /\ is_closed n' = is_closed n /\ n_batcher n' = n_batcher n /\
  n_cleaner n' = n_cleaner n /\ (n_pc n' = GDone -> n_pc n = GDone \/ is_closed n = true).
Proof.
  unfold global_turn. destruct (n_pc n) as [|c|c ps|c ps| |] eqn:Epc;
    try (destruct (inner_turn_frame decode c ps ev n Epc) as (?&?&?&?&?); split_and!; auto);
    destruct ev; unfold global_subscribe, global_received, is_closed; repeat case_match; simplify_eq/=;
    rewrite ?Epc; split_and!; auto; congruence.
Qed.

Lemma global_turn_pub decode ev n : r_pub (n_bus (global_turn decode ev n)) = r_pub (n_bus n).
Proof. apply global_turn_frame. Qed.

Lemma node_step_pub decode n n' :
  node_step decode n n' -> rtc redis_pub_step (r_pub (n_bus n)) (r_pub (n_bus n')).
Proof.
  destruct 1 as [ev n|ev n|ev n|op n|n Hc].
  - by rewrite global_turn_pub.
  - unfold batcher_turn. destruct (n_batcher n); [|done]. destruct ev as [nonce io keys|nonce io keys|nonce io].
    + apply rtc_once. pose proof (rps_req nonce (io_now n io) (r_pub (n_bus n))) as Hs. unfold redis_batcher_req in Hs.
      destruct (rp_publishCh _) as [|req q]; [done|]. case_match; [|done].
      by rewrite flush_turn_fst, flush_pub.
    + rewrite flush_turn_fst, flush_pub. apply rtc_once, rps_tick.
    + destruct (is_closed n) eqn:Ec; [|done]. rewrite flush_turn_fst, flush_pub. unfold io_now. rewrite Ec.
      apply rtc_once, rps_close.
  - unfold cleanupSeen_turn. by repeat case_match.
  - destruct op; simpl; try done; apply rtc_once; constructor.
  - simpl. by rewrite RedisBus_Close_pub.
Qed.

Lemma reachable_pub decode n : reachable decode n -> rtc redis_pub_step (r_pub NewRedisBus) (r_pub (n_bus n)).
Proof.
  intros H. eapply (rtc_preserves (node_step decode) (fun n => rtc redis_pub_step _ (r_pub (n_bus n)))); [|exact H|done].
  intros x y Hs Hx. etrans; [exact Hx|by eapply node_step_pub].
Qed.

(** A goroutine returns only when the bus is closed; the batcher leaves no batch. *)
Record done_inv (n : node) : Prop := {
  di_global : n_pc n = GDone -> is_closed n = true;
  di_cleaner : n_cleaner n = false -> is_closed n = true;
  di_batcher : n_batcher n = false -> is_closed n = true /\ rp_batch (r_pub (n_bus n)) = [];
}.

Lemma closed_flush nonce io keys b :
  rc_closed (r_conn (fst (RedisBus_flush nonce io keys b))) = rc_closed (r_conn b).
Proof. unfold RedisBus_flush, reconnect, close_global. repeat case_match; simplify_eq/=; done. Qed.

Lemma closing_flush_batch nonce io keys b :
  rp_batch (r_pub (fst (RedisBus_flush nonce (closing_io io) keys b))) = [].
Proof.
  rewrite flush_pub. unfold redis_flush. destruct (rp_batch (r_pub b)) as [|r rs] eqn:E; [exact E|].
  destruct (io_encode _); [done|]. by destruct (publish_err _).
Qed.

Lemma client_pub_batch op p : rp_batch (client_pub op p) = rp_batch p.
Proof.
  destruct op; simpl; try done;
    unfold redis_publish_start, redis_publish_begin, redis_publish_queue, redis_publish_send, redis_publish_wait,
      RedisBus_PublishAndAwait;
    repeat case_match; simplify_eq/=; done.
Qed.

Lemma global_turn_done decode ev n :
  is_closed (global_turn decode ev n) = is_closed n /\ n_batcher (global_turn decode ev n) = n_batcher n /\
  n_cleaner (global_turn decode ev n) = n_cleaner n /\
  (n_pc (global_turn decode ev n) = GDone -> n_pc n = GDone \/ is_closed n = true).
Proof. apply global_turn_frame. Qed.

Lemma flush_turn_frame nonce io keys go n :
  let n' := flush_turn nonce io keys go n in
  is_closed n' = is_closed n /\ n_pc n' = n_pc n /\ n_cleaner n' = n_cleaner n /\ n_batcher n' = go /\
  n_opened n' = n_opened n.
Proof.
  pose proof (closed_flush nonce io keys (n_bus n)) as Hc. unfold flush_turn, is_closed.
  by destruct (RedisBus_flush nonce io keys (n_bus n)).
Qed.

Lemma RedisBus_Close_closed b : rc_closed (r_conn (RedisBus_Close b)) = true.
Proof. unfold RedisBus_Close. destruct (rc_closed (r_conn b)) eqn:E; done. Qed.

Lemma node_step_done decode n n' : node_step decode n n' -> done_inv n -> done_inv n'.
Proof.
  destruct 1 as [ev n|ev n|ev n|op n|n Hc]; intros H; pose proof H as [H1 H2 H3].
  - destruct (global_turn_done decode ev n) as (E1 & E2 & E3 & E4).
    split; rewrite E1, ?E2, ?E3, ?global_turn_pub; try done. intros [?|?]%E4; auto.
  - unfold batcher_turn. destruct (n_batcher n) eqn:Eb; [|done].
    assert (forall nonce io keys n, done_inv n -> done_inv (flush_turn nonce io keys true n)) as Hf.
    { intros nonce io keys m [M1 M2 M3]. destruct (flush_turn_frame nonce io keys true m) as (E1 & E2 & E3 & E4 & _).
      split; rewrite E1, ?E2, ?E3, ?E4; done. }
    destruct ev as [nonce io keys|nonce io keys|nonce io].
    + destruct (rp_publishCh _) as [|req q]; [done|]. set (n1 := set_bus n _).
      assert (done_inv n1) as Hn1 by (split; simpl; [done|done|congruence]). case_match; [by apply Hf|done].
    + by apply Hf.
    + destruct (is_closed n) eqn:Ec; [|done]. unfold io_now. rewrite Ec.
      destruct (flush_turn_frame nonce (closing_io io) [] false n) as (E1 & E2 & E3 & E4 & _).
      split; rewrite E1, Ec; try done. intros _. split; [done|]. rewrite flush_turn_fst. apply closing_flush_batch.
  - unfold cleanupSeen_turn. destruct (n_cleaner n) eqn:Ecl; [|done]. destruct ev; [split; [exact H1|simpl; congruence|exact H3]|].
    destruct (is_closed n) eqn:Ec; [|done]. split; [by intros _|by intros _|]. intros Hb. split; [exact Ec|by apply H3].
  - split; simpl; [done|done|]. by rewrite client_pub_batch.
  - assert (is_closed (close_turn n) = true) as Ec by apply RedisBus_Close_closed.
    split; rewrite ?Ec; try done. simpl. rewrite RedisBus_Close_pub. intros Hb. split; [done|by apply H3].
Qed.

Lemma reachable_done decode n : reachable decode n -> done_inv n.
Proof. intros H. by eapply (rtc_preserves (node_step decode)); [apply node_step_done|exact H|]. Qed.

(** ** The node finds its way back to the global channel *)

#[export] Instance live_dec b ps : Decision (live b ps).
Proof. unfold live. apply _. Defined.

(** An event of a server that answers: a subscription that is open is confirmed
    and its messages arrive; the channel of a closed one is closed. The entries
    of a batch need no server. *)
Definition answered (n : node) (ev : global_ev) : Prop :=
  match n_pc n, ev with
  | GTop, GGo | GClient _, GGo | GPause, GGo => True
  | GReceive _ ps, GReceived err => live (n_bus n) ps -> err = None
  | GLoop _ _, GEntry => n_entries n <> []
  | GLoop _ ps, GMessage _ => n_entries n = [] /\ live (n_bus n) ps
  | GLoop _ ps, GChanClosed => n_entries n = [] /\ ~ live (n_bus n) ps
  | _, _ => False
  end.

(** A run with [k] turns of [dispatchGlobal], in which clients and the other
    goroutines do what they like, short of a reconnection and of [Close]. *)
Inductive served_run (decode : string -> option BatchPayload) : nat -> node -> node -> Prop :=
| sr_refl n : served_run decode 0 n n
| sr_global k ev n n' : answered n ev -> served_run decode k (global_turn decode ev n) n' ->
    served_run decode (S k) n n'
| sr_client k op n n' : served_run decode k (client_turn op n) n' -> served_run decode k n n'
| sr_cleaner k ev n n' : served_run decode k (cleanupSeen_turn ev n) n' -> served_run decode k n n'
| sr_batcher k ev n n' : r_conn (n_bus (batcher_turn ev n)) = r_conn (n_bus n) ->
    served_run decode k (batcher_turn ev n) n' -> served_run decode k n n'.

(** The turns that are missing. *)
Definition rank (n : node) : nat :=
  match n_pc n with
  | GLoop _ ps => if decide (live (n_bus n) ps) then 0 else 5 + length (n_entries n)
  | GReceive _ ps => if decide (live (n_bus n) ps) then 1 else 6 + length (n_entries n)
  | GClient c => (if decide (c = rc_client (r_conn (n_bus n))) then 2 else 4) + length (n_entries n)
  | GTop => 3 + length (n_entries n)
  | GPause => 4 + length (n_entries n)
  | GDone => 0
  end.

(** A change of the bus that [dispatchGlobal] does not notice. *)
Definition unnoticed (n n' : node) : Prop :=
  n_pc n' = n_pc n /\ r_conn (n_bus n') = r_conn (n_bus n) /\ n_opened n' = n_opened n /\
  n_entries n' = n_entries n /\ keeps (n_opened n) (r_sub (n_bus n)) (r_sub (n_bus n')).

Lemma unnoticed_live n n' c ps :
  node_conn_inv n -> unnoticed n n' -> holds (n_pc n) = Some (c, ps) -> live (n_bus n') ps <-> live (n_bus n) ps.
Proof.
  intros H (_ & _ & _ & _ & _ & Hk) Hh. destruct (Hk (ci_apart _ _ _ _ H)) as [_ Hl]. unfold live. rewrite Hl; [done|].
  by eapply (ci_holds _ _ _ _ H).
Qed.

Lemma decide_same {A} (P Q : Prop) `{!Decision P, !Decision Q} (x y : A) :
  (P <-> Q) -> (if decide P then x else y) = (if decide Q then x else y).
Proof. intros HPQ. destruct (decide P), (decide Q); tauto. Qed.

Lemma rank_unnoticed n n' : node_conn_inv n -> unnoticed n n' -> rank n' = rank n.
Proof.
  intros H Hu. pose proof Hu as (E1 & E2 & _ & E4 & _). pose proof (fun c ps => unnoticed_live n n' c ps H Hu) as Hl.
  unfold rank. rewrite E1, E2, E4. destruct (n_pc n) as [|c|c ps|c ps| |]; try done; apply decide_same, (Hl c ps); done.
Qed.

Lemma client_unnoticed op n : unnoticed n (client_turn op n).
Proof. split_and!; try done. apply keeps_client. Qed.

Lemma cleaner_unnoticed ev n : unnoticed n (cleanupSeen_turn ev n).
Proof.
  unfold cleanupSeen_turn. destruct (n_cleaner n); [|done]. by destruct ev; [|case_match].
Qed.

Lemma flush_unnoticed nonce io keys go n :
  r_conn (fst (RedisBus_flush nonce io keys (n_bus n))) = r_conn (n_bus n) ->
  unnoticed n (flush_turn nonce io keys go n).
Proof.
  unfold RedisBus_flush, flush_turn, RedisBus_flush. destruct (flush_reconnects io (r_pub (n_bus n))).
  - destruct (redis_flush _ _ _). simpl. intros E. apply (f_equal rc_client) in E. simpl in E. lia.
  - by destruct (redis_flush _ _ _).
Qed.

Lemma batcher_unnoticed ev n :
  r_conn (n_bus (batcher_turn ev n)) = r_conn (n_bus n) -> unnoticed n (batcher_turn ev n).
Proof.
  unfold batcher_turn. destruct (n_batcher n); [|done]. destruct ev as [nonce io keys|nonce io keys|nonce io].
  - destruct (rp_publishCh _) as [|req q]; [done|]. case_match; [|done]. set (n1 := set_bus n _).
    rewrite flush_turn_fst. intros E. by apply (flush_unnoticed nonce (io_now n1 io) keys true n1).
  - rewrite flush_turn_fst. apply flush_unnoticed.
  - case_match; [|done]. rewrite flush_turn_fst. apply flush_unnoticed.
Qed.

Lemma keeps_live O s s' ps : keeps O s s' -> apart O s -> ps ∈ O ->
  rsub_pubsubs s' !! ps = rsub_pubsubs s !! ps.
Proof. intros [_ Hk] Ha. by apply Hk. Qed.

(** Each turn brings it nearer. *)
Lemma rank_global decode ev n :
  node_conn_inv n -> answered n ev -> (rank (global_turn decode ev n) <= rank n - 1)%nat.
Proof.
  unfold node_conn_inv. intros H. destruct n as [b pc es bt cl O cf sent]. simpl in H.
  unfold answered, global_turn, rank.
  cbn [n_pc n_bus n_entries n_batcher n_cleaner n_opened n_confirmed n_sent].
  destruct pc as [|c|c ps|c ps| |], ev as [|err|msg| | |]; try done.
  - intros _. simpl. rewrite decide_True by done. lia.
  - intros _. unfold global_subscribe. destruct (c =? rc_client (r_conn b))%nat eqn:E; simpl.
    + apply Nat.eqb_eq in E. rewrite (decide_True (P := c = _)), decide_True; [lia| |done].
      unfold live. simpl. by rewrite lookup_insert_eq.
    + apply Nat.eqb_neq in E. rewrite decide_False by done. lia.
  - intros Ha. destruct err as [e|]; simpl.
    + destruct (decide (live b ps)) as [Hl|]; [by specialize (Ha Hl)|lia].
    + destruct (decide (live b ps)) as [Hl|Hl]; [rewrite decide_True by done; lia|rewrite decide_False by done; lia].
  - intros [-> Hl]. unfold inner_turn. cbn [n_entries n_bus].
    destruct msg as [[now payload]|]; simpl; [|rewrite decide_True by done; lia].
    pose proof (keeps_message O decode now payload (r_sub b)) as Hk.
    destruct (global_message decode now payload (r_sub b)) as [s es]. simpl in *.
    rewrite !decide_True; [lia|done|]. unfold live in *. simpl.
    rewrite (keeps_live O (r_sub b)); [done|exact Hk|apply H|by eapply (ci_holds _ _ _ _ H)].
  - intros Hne. destruct es as [|e es]; [done|]. unfold inner_turn. simpl.
    pose proof (keeps_live O (r_sub b) _ ps (keeps_entry O e (r_sub b)) (ci_apart _ _ _ _ H)) as Hk.
    rewrite (decide_same (live (set_sub b (global_entry (r_sub b) e)) ps) (live b ps)); [case_decide; lia|].
    unfold live. simpl. rewrite Hk; [done|]. by eapply (ci_holds _ _ _ _ H).
  - intros [-> Hl]. simpl. rewrite decide_False by done. lia.
Qed.

Lemma served_run_rank decode k n n' :
  served_run decode k n n' -> node_conn_inv n -> n_pc n <> GDone -> is_closed n = false ->
  node_conn_inv n' /\ n_pc n' <> GDone /\ (rank n' <= rank n - k)%nat.
Proof.
  assert (forall m m', unnoticed m m' -> n_pc m <> GDone -> is_closed m = false ->
    n_pc m' <> GDone /\ is_closed m' = false) as Hu.
  { intros m m' (E1 & E2 & _) Hd Hc. unfold is_closed in *. by rewrite E1, E2. }
  induction 1 as [n|k ev n n' Ha _ IH|k op n n' _ IH|k ev n n' _ IH|k ev n n' Eb _ IH]; intros Hi Hd Hc.
  - split_and!; [done|done|lia].
  - destruct (global_turn_done decode ev n) as (E1 & _ & _ & E4).
    destruct IH as (I1 & I2 & I3); [by apply global_turn_conn|intros [?|?]%E4; congruence|congruence|].
    pose proof (rank_global decode ev n Hi Ha). split_and!; [done|done|lia].
  - destruct (Hu _ _ (client_unnoticed op n) Hd Hc). rewrite <- (rank_unnoticed n (client_turn op n)); [|done|].
    + apply IH; [|done|done]. apply set_bus_conn; [done|apply keeps_client|done].
    + apply client_unnoticed.
  - destruct (Hu _ _ (cleaner_unnoticed ev n) Hd Hc).
    rewrite <- (rank_unnoticed n (cleanupSeen_turn ev n)); [|done|apply cleaner_unnoticed].
    apply IH; [|done|done]. by eapply (node_step_conn decode); [apply ns_cleaner|].
  - destruct (Hu _ _ (batcher_unnoticed ev n Eb) Hd Hc).
    rewrite <- (rank_unnoticed n (batcher_turn ev n)); [|done|by apply batcher_unnoticed].
    apply IH; [by apply batcher_turn_conn|done|done].
Qed.

(** A node that is not closed waits for something the server can give. *)
Lemma answered_exists decode n :
  reachable decode n -> is_closed n = false -> exists ev, answered n ev.
Proof.
  intros Hr Hc. pose proof (di_global _ (reachable_done _ _ Hr)) as Hd. unfold answered.
  destruct (n_pc n) as [|c|c ps|c ps| |]; [by exists GGo|by exists GGo|by exists (GReceived None)| |by exists GGo|].
  - destruct (n_entries n); [|by exists GEntry].
    destruct (decide (live (n_bus n) ps)); [by exists (GMessage None)|by exists GChanClosed].
  - rewrite Hd in Hc; done.
Qed.

(** C18. A node finds its way back to the global channel. Wherever a lost
    connection, a reconnection of the batcher or a failed subscription leaves
    the goroutine [dispatchGlobal] of a bus that is not closed, it waits for
    something a server that answers will give; and after at most six such
    turns, besides one for each entry left of a batch it was dispatching,
    whatever clients and the other goroutines do in the meantime short
    of another reconnection, it is in its inner loop with an open subscription
    on the present client. That is the subscription a reconnection or [Close]
    will close, the only global one that is open, the server has confirmed it,
    and [readyClient] gives the batcher this client. *)
Theorem redis_global_recovers decode n k n' :
  reachable decode n -> is_closed n = false -> served_run decode k n n' ->
  (6 + length (n_entries n) <= k)%nat ->
  (exists ev, answered n ev) /\
  exists ps, let conn := r_conn (n_bus n') in
    n_pc n' = GLoop (rc_client conn) ps /\ live (n_bus n') ps /\ rc_globalSub conn = Some ps /\
    (forall q, q ∈ n_opened n' -> live (n_bus n') q -> q = ps) /\
    rc_client conn ∈ n_confirmed n' /\
    readyClient [(SeesReady, n_bus n')] = Some (Ok (rc_client conn)).
Proof.
  intros Hr Hc Hs Hk. split; [by eapply answered_exists|].
  destruct (served_run_rank decode k n n' Hs) as (Hi & Hd & Hrank);
    [by eapply reachable_conn|intros E; apply (di_global _ (reachable_done _ _ Hr)) in E; congruence|done|].
  assert (rank n <= 6 + length (n_entries n))%nat as H6 by (unfold rank; repeat case_match; lia).
  assert (rank n' = 0)%nat as H0 by lia. unfold rank in H0.
  destruct (n_pc n') as [|c|c ps|c ps| |] eqn:Epc; try done; try (by case_decide).
  destruct (decide (live (n_bus n') ps)) as [Hl|]; [|done].
  destruct (ci_holds _ _ _ _ Hi c ps) as [_ Hh]; [by rewrite Epc|]. destruct (Hh Hl) as (E1 & -> & E3).
  specialize (E3 Epc). exists ps. simpl. rewrite E3. split_and!; try done; [|by apply (ci_ready _ _ _ _ Hi)].
  intros q Hq Hlq. destruct (ci_only _ _ _ _ Hi q Hq Hlq) as [c E]. rewrite Epc in E. by injection E.
Qed.

(** [readyClient] never gives a client on which the server has not confirmed
    the global subscription. *)
Lemma readyClient_confirmed decode rounds c :
  (forall ev b, (ev, b) ∈ rounds -> exists n, reachable decode n /\ n_bus n = b) ->
  readyClient rounds = Some (Ok c) -> exists n, reachable decode n /\ c ∈ n_confirmed n.
Proof.
  induction rounds as [|[ev b] rounds IH]; intros Hr; simpl; [done|].
  destruct (ready_round ev b) as [r|] eqn:E.
  - intros [= ->]. destruct (Hr ev b) as (n & Hn & <-); [left|].
    destruct ev as [|[e|]| |]; simpl in E; try done. destruct (rc_ready _) eqn:Er; [|done]. injection E as <-.
    exists n. split; [done|]. by apply (ci_ready _ _ _ _ (reachable_conn _ _ Hn)).
  - apply IH. intros ev' b' Hin. apply (Hr ev' b'). by right.
Qed.

(** ** [Close] returns *)

(** What each goroutine meets when the bus is closed: [ReceiveTimeout] returns,
    with an error or without, and a select takes the close. *)
Definition closing (n : node) (ev : global_ev) : Prop :=
  match n_pc n, ev with
  | GTop, GGo | GClient _, GGo | GReceive _ _, GReceived _ | GPause, GSeesClose => True
  | GLoop _ _, GChanClosed | GLoop _ _, GSeesClose => n_entries n = []
  | _, _ => False
  end.

(** What may go on besides: the clients, messages that still arrive and the
    entries of their batches, the requests and ticks that a select takes before
    the close. *)
Inductive meanwhile (decode : string -> option BatchPayload) : node -> node -> Prop :=
| mw_client op n : meanwhile decode n (client_turn op n)
| mw_message msg n : meanwhile decode n (global_turn decode (GMessage msg) n)
| mw_entry n : meanwhile decode n (global_turn decode GEntry n)
| mw_req nonce io keys n : meanwhile decode n (batcher_turn (BReq nonce io keys) n)
| mw_tick nonce io keys n : meanwhile decode n (batcher_turn (BTick nonce io keys) n)
| mw_seen now n : meanwhile decode n (cleanupSeen_turn (SeenTick now) n).

(** A run with [k] turns of goroutines that have not returned and get on with
    the close. *)
Inductive closing_run (decode : string -> option BatchPayload) : nat -> node -> node -> Prop :=
| cr_refl n : closing_run decode 0 n n
| cr_global k ev n n' : closing n ev -> closing_run decode k (global_turn decode ev n) n' ->
    closing_run decode (S k) n n'
| cr_batcher k nonce io n n' : n_batcher n = true -> closing_run decode k (batcher_turn (BClose nonce io) n) n' ->
    closing_run decode (S k) n n'
| cr_cleaner k n n' : n_cleaner n = true -> closing_run decode k (cleanupSeen_turn SeenClose n) n' ->
    closing_run decode (S k) n n'
| cr_meanwhile k n m n' : meanwhile decode n m -> closing_run decode k m n' -> closing_run decode k n n'.

Definition pc_turns (n : node) : nat :=
  match n_pc n with
  | GDone => 0
  | GPause => 1
  | GLoop _ _ => 2
  | GReceive _ _ => 3
  | GClient c => if decide (c = rc_client (r_conn (n_bus n))) then 4 else 6
  | GTop => 5
  end.

Definition turns_left (n : node) : nat :=
  (pc_turns n + (if n_batcher n then 1 else 0) + (if n_cleaner n then 1 else 0))%nat.

Lemma turns_global decode ev n :
  is_closed n = true -> closing n ev -> (pc_turns (global_turn decode ev n) < pc_turns n)%nat.
Proof.
  intros Hc. unfold closing, global_turn, inner_turn, pc_turns. rewrite Hc.
  destruct (n_pc n) as [|c|c ps|c ps| |] eqn:Epc, ev as [|err|msg| | |]; try done.
  - intros _. simpl. rewrite decide_True by done. lia.
  - intros _. unfold global_subscribe. destruct (c =? rc_client _)%nat eqn:E; simpl.
    + case_decide; lia.
    + apply Nat.eqb_neq in E. rewrite decide_False by done. lia.
  - intros _. destruct err; simpl; lia.
  - intros ->. simpl. lia.
  - intros ->. simpl. lia.
  - intros _. simpl. lia.
Qed.

(** A flush after the close leaves the connection alone. *)
Lemma closing_flush_conn nonce io keys go n :
  is_closed n = true -> r_conn (n_bus (flush_turn nonce (io_now n io) keys go n)) = r_conn (n_bus n).
Proof.
  intros Hc. rewrite flush_turn_fst. unfold RedisBus_flush, flush_reconnects, io_now. rewrite Hc.
  assert (forall (o : option error), match o with Some _ => negb (io_closed (closing_io io)) | None => false end = false)
    as E by (by intros []).
  destruct (rp_batch (r_pub (n_bus n))), (io_encode (closing_io io)); rewrite ?E; by destruct (redis_flush _ _ _).
Qed.

Lemma flush_turn_entries nonce io keys go n : n_entries (flush_turn nonce io keys go n) = n_entries n.
Proof. unfold flush_turn. by destruct (RedisBus_flush nonce io keys (n_bus n)). Qed.

Lemma closing_batcher ev n :
  is_closed n = true ->
  n_pc (batcher_turn ev n) = n_pc n /\ r_conn (n_bus (batcher_turn ev n)) = r_conn (n_bus n) /\
  n_cleaner (batcher_turn ev n) = n_cleaner n /\
  n_batcher (batcher_turn ev n) = match ev with BClose _ _ => false | _ => n_batcher n end.
Proof.
  intros Hc. unfold batcher_turn. destruct (n_batcher n) eqn:Hb; [|by destruct ev]. rewrite Hc.
  destruct ev as [nonce io keys|nonce io keys|nonce io].
  - destruct (rp_publishCh _) as [|req q]; [done|]. set (n1 := set_bus n _). case_match; [|done].
    destruct (flush_turn_frame nonce (io_now n1 io) keys true n1) as (_ & E2 & E3 & E4 & _).
    split_and!; [done|by rewrite closing_flush_conn|done|done].
  - destruct (flush_turn_frame nonce (io_now n io) keys true n) as (_ & E2 & E3 & E4 & _).
    split_and!; [done|by rewrite closing_flush_conn|done|done].
  - destruct (flush_turn_frame nonce (io_now n io) [] false n) as (_ & E2 & E3 & E4 & _).
    split_and!; [done|by rewrite closing_flush_conn|done|done].
Qed.

Lemma inner_conn decode c ps ev n :
  (exists msg, ev = GMessage msg) \/ ev = GEntry -> n_pc n = GLoop c ps ->
  n_pc (inner_turn decode ps ev n) = n_pc n /\ r_conn (n_bus (inner_turn decode ps ev n)) = r_conn (n_bus n).
Proof.
  intros He Epc. unfold inner_turn. destruct (n_entries n), He as [[[[now payload]|] ->]| ->]; try done.
  by destruct (global_message _ _ _ _).
Qed.

Lemma message_conn decode ev n :
  (exists msg, ev = GMessage msg) \/ ev = GEntry ->
  n_pc (global_turn decode ev n) = n_pc n /\ r_conn (n_bus (global_turn decode ev n)) = r_conn (n_bus n).
Proof.
  intros He. unfold global_turn. destruct (n_pc n) as [|c|c ps|c ps| |] eqn:Epc;
    try (rewrite <- Epc; by apply (inner_conn decode c)); by destruct He as [[msg ->]| ->].
Qed.

Lemma meanwhile_step decode n m : meanwhile decode n m -> node_step decode n m.
Proof. destruct 1; constructor. Qed.

Lemma meanwhile_frame decode n m :
  meanwhile decode n m -> is_closed n = true -> is_closed m = true /\ turns_left m = turns_left n.
Proof.
  assert (forall m, n_pc m = n_pc n /\ r_conn (n_bus m) = r_conn (n_bus n) /\ n_cleaner m = n_cleaner n /\
    n_batcher m = n_batcher n -> is_closed n = true -> is_closed m = true /\ turns_left m = turns_left n) as Hf.
  { intros m' (E1 & E2 & E3 & E4) Hc. unfold is_closed, turns_left, pc_turns in *. by rewrite E1, E2, E3, E4. }
  assert (forall ev, (exists msg, ev = GMessage msg) \/ ev = GEntry -> let m := global_turn decode ev n in
    n_pc m = n_pc n /\ r_conn (n_bus m) = r_conn (n_bus n) /\ n_cleaner m = n_cleaner n /\
    n_batcher m = n_batcher n) as Hg.
  { intros ev He. destruct (message_conn decode ev n He), (global_turn_frame decode ev n) as (_ & _ & ? & ? & _).
    done. }
  intros H Hc. destruct H; apply Hf; try done.
  - apply Hg. eauto.
  - apply Hg. eauto.
  - by apply (closing_batcher (BReq nonce io keys)).
  - by apply (closing_batcher (BTick nonce io keys)).
  - unfold cleanupSeen_turn. by destruct (n_cleaner n) eqn:E.
Qed.

Lemma closing_run_left decode k n n' :
  closing_run decode k n n' -> is_closed n = true ->
  rtc (node_step decode) n n' /\ is_closed n' = true /\ (k + turns_left n' <= turns_left n)%nat.
Proof.
  induction 1 as [n|k ev n n' Ha _ IH|k nonce io n n' Hb _ IH|k n n' Hl _ IH|k n m n' Hm _ IH]; intros Hc.
  - done.
  - pose proof (turns_global decode ev n Hc Ha). destruct (global_turn_done decode ev n) as (E1 & E2 & E3 & _).
    destruct IH as (I1 & I2 & I3); [congruence|].
    split_and!; [by eapply rtc_l; [apply ns_global|]|done|]. unfold turns_left in *. rewrite E2, E3 in I3. lia.
  - destruct (closing_batcher (BClose nonce io) n Hc) as (E1 & E2 & E3 & E4).
    destruct IH as (I1 & I2 & I3); [unfold is_closed; by rewrite E2|].
    split_and!; [by eapply rtc_l; [apply ns_batcher|]|done|].
    unfold turns_left, pc_turns in *. rewrite E1, E2, E3, E4 in I3. rewrite Hb. lia.
  - assert (cleanupSeen_turn SeenClose n =
      mkNode (n_bus n) (n_pc n) (n_entries n) (n_batcher n) false (n_opened n) (n_confirmed n) (n_sent n)) as E
      by (unfold cleanupSeen_turn; by rewrite Hl, Hc).
    destruct IH as (I1 & I2 & I3); [by rewrite E|].
    split_and!; [by eapply rtc_l; [apply ns_cleaner|]|done|].
    rewrite E in I3. unfold turns_left, pc_turns in *. simpl in I3. rewrite Hl. lia.
  - destruct (meanwhile_frame decode n m Hm Hc) as [Hm1 Hm2]. destruct IH as (I1 & I2 & I3); [done|].
    split_and!; [by eapply rtc_l; [by apply meanwhile_step|]|done|lia].
Qed.

(** While a goroutine has not returned, one of them can get on; [dispatchGlobal]
    after it has dispatched the rest of a batch. *)
Lemma turns_left_wg decode n : wg n <> 0%nat -> exists n', closing_run decode 1 n n'.
Proof.
  intros Hw. unfold wg in Hw. destruct (n_batcher n) eqn:Eb.
  { eexists. by apply (cr_batcher decode 0 "" (mkFlushIO None None Published false None false Published));
      [|apply cr_refl]. }
  destruct (n_cleaner n) eqn:El.
  { exists (cleanupSeen_turn SeenClose n). apply (cr_cleaner decode 0); [done|apply cr_refl]. }
  assert (forall m ev, closing m ev -> exists n', closing_run decode 1 m n') as Hev.
  { intros m ev Hev. eexists. by apply (cr_global decode 0 ev); [|apply cr_refl]. }
  destruct (n_pc n) as [|c|c ps|c ps| |] eqn:Epc; [| | | | |done].
  - apply (Hev n GGo). unfold closing. by rewrite Epc.
  - apply (Hev n GGo). unfold closing. by rewrite Epc.
  - apply (Hev n (GReceived None)). unfold closing. by rewrite Epc.
  - clear Hw Eb El. remember (n_entries n) as es eqn:Ees. revert n Epc Ees.
    induction es as [|e es IH]; intros n Epc Ees.
    + apply (Hev n GChanClosed). unfold closing. by rewrite Epc.
    + assert (n_pc (global_turn decode GEntry n) = GLoop c ps /\ n_entries (global_turn decode GEntry n) = es)
        as [E1 E2] by (unfold global_turn, inner_turn; rewrite Epc, <- Ees; done).
      destruct (IH _ E1 (eq_sym E2)) as [n' Hn']. exists n'. eapply cr_meanwhile; [apply mw_entry|exact Hn'].
  - apply (Hev n GSeesClose). unfold closing. by rewrite Epc.
Qed.

(** ** What [Close] closes stays closed *)

(** The redis subscription of a key. *)
Definition key_pubsub (b : RedisBus) (ps : nat) : Prop :=
  exists key id sub, rsub_subs (r_sub b) !! key = Some id /\ rsub_heap (r_sub b) !! id = Some sub /\
    rs_pubsub sub = ps.

Lemma foldr_close_pubsub s l ps :
  let s' := foldr close_pubsub s l in
  rsub_next s' = rsub_next s /\ rsub_heap s' = rsub_heap s /\ rsub_subs s' = rsub_subs s /\
  rsub_pubsubs s' !! ps = if decide (ps ∈ l) then Some true else rsub_pubsubs s !! ps.
Proof.
  induction l as [|q l IH]; simpl; [done|]. destruct IH as (E1 & E2 & E3 & E4). split_and!; try done.
  destruct (decide (ps = q)) as [->|Hne].
  - rewrite lookup_insert_eq, decide_True; [done|left].
  - rewrite lookup_insert_ne, E4 by done.
    destruct (decide (ps ∈ l)); [rewrite decide_True by (by right)|rewrite decide_False by set_solver]; done.
Qed.

Lemma close_global_sub_frame b :
  rsub_next (r_sub (close_global b)) = rsub_next (r_sub b) /\
  rsub_heap (r_sub (close_global b)) = rsub_heap (r_sub b) /\
  rsub_subs (r_sub (close_global b)) = rsub_subs (r_sub b) /\
  ages (r_sub b) (r_sub (close_global b)).
Proof. unfold close_global. destruct (rc_globalSub (r_conn b)); split_and!; try done. apply ages_close. Qed.

(** The table of the keys is empty, and their subscriptions are closed. *)
Lemma RedisBus_Close_keys b :
  rc_closed (r_conn b) = false ->
  rsub_subs (r_sub (RedisBus_Close b)) = ∅ /\
  rsub_next (r_sub (RedisBus_Close b)) = rsub_next (r_sub b) /\
  (forall ps, live (RedisBus_Close b) ps -> live (close_global b) ps /\ ~ key_pubsub b ps).
Proof.
  intros Hc. unfold RedisBus_Close. rewrite Hc. destruct (close_global_sub_frame b) as (E1 & E2 & E3 & _).
  cbn [r_sub set_sub set_conn]. set (s0 := set_rsubs (r_sub (close_global b)) _ _ _). set (l := omap _ _).
  destruct (foldr_close_pubsub s0 l 0) as (F1 & F2 & F3 & _). split_and!; [done|by rewrite F1|].
  intros ps. unfold live. cbn [r_sub set_sub set_conn].
  destruct (foldr_close_pubsub s0 l ps) as (_ & _ & _ & ->). case_decide as Hin; [done|].
  intros Hl. split; [exact Hl|]. intros (key & id & sub & Hk & Hh & <-). apply Hin.
  apply list_elem_of_omap. exists id. rewrite E3, E2. split; [|by rewrite Hh].
  apply list_elem_of_fmap. exists (key, id). split; [done|]. by apply elem_of_map_to_list.
Qed.

(** Right after [Close] nothing of the node is open. *)
Lemma close_turn_dead n ps :
  node_conn_inv n -> is_closed n = false -> (ps ∈ n_opened n \/ key_pubsub (n_bus n) ps) ->
  (ps < rsub_next (r_sub (n_bus (close_turn n))))%nat /\ ~ live (n_bus (close_turn n)) ps.
Proof.
  intros H Hc Hps. destruct (RedisBus_Close_keys (n_bus n) Hc) as (_ & En & Hl). simpl. rewrite En.
  destruct (ci_apart _ _ _ _ H) as [Ha1 Ha2]. split.
  - destruct Hps as [Hp|(key & id & sub & _ & Hh & <-)]; [by apply Ha1|by eapply Ha2].
  - intros [Hg Hk]%Hl. destruct Hps as [Hp|Hp]; [|done]. by apply (close_global_dead _ _ _ _ H) in Hg.
Qed.

Lemma reconnect_ages keys b : ages (r_sub b) (r_sub (reconnect keys b)).
Proof.
  unfold reconnect. simpl. etrans; [apply (close_global_sub_frame b)|].
  apply (keeps_foldl []). intros. apply keeps_resubscribe.
Qed.

Lemma flush_turn_ages nonce io keys go n :
  ages (r_sub (n_bus n)) (r_sub (n_bus (flush_turn nonce io keys go n))).
Proof.
  rewrite flush_turn_fst. unfold RedisBus_flush. destruct (flush_reconnects io (r_pub (n_bus n)));
    destruct (redis_flush _ _ _); [apply reconnect_ages|done].
Qed.

Lemma inner_turn_ages decode ps ev n : ages (r_sub (n_bus n)) (r_sub (n_bus (inner_turn decode ps ev n))).
Proof.
  unfold inner_turn. destruct (n_entries n) as [|e es], ev as [|err|[[now payload]|]| | |]; try done.
  - pose proof (keeps_message [] decode now payload (r_sub (n_bus n))) as [Hk _].
    by destruct (global_message _ _ _ _).
  - apply ages_close.
  - case_match; [apply ages_close|done].
  - apply (keeps_entry []).
Qed.

Lemma global_turn_ages decode ev n : ages (r_sub (n_bus n)) (r_sub (n_bus (global_turn decode ev n))).
Proof.
  unfold global_turn. destruct (n_pc n) as [|c|c ps|c ps| |]; try apply inner_turn_ages;
    destruct ev as [|err|msg| | |]; try done.
  - unfold global_subscribe. destruct (c =? _)%nat; [apply (ages_fresh _ _ false)|apply (ages_fresh _ _ true)]; done || (simpl; lia).
  - destruct err; [apply ages_close|done].
  - by case_match.
Qed.

Lemma node_step_ages decode n n' : node_step decode n n' -> ages (r_sub (n_bus n)) (r_sub (n_bus n')).
Proof.
  destruct 1 as [ev n|ev n|ev n|op n|n Hc].
  - apply global_turn_ages.
  - unfold batcher_turn. destruct (n_batcher n); [|done]. destruct ev as [nonce io keys|nonce io keys|nonce io].
    + destruct (rp_publishCh _) as [|req q]; [done|]. set (n1 := set_bus n _). case_match; [|done].
      apply (flush_turn_ages _ _ _ _ n1).
    + apply flush_turn_ages.
    + case_match; [apply flush_turn_ages|done].
  - unfold cleanupSeen_turn. destruct (n_cleaner n); [|done]. by destruct ev; [|case_match].
  - apply (keeps_client []).
  - destruct (RedisBus_Close_keys (n_bus n) Hc) as (_ & En & _).
    split; [change (rsub_next (r_sub (n_bus n)) <= rsub_next (r_sub (RedisBus_Close (n_bus n))))%nat; lia|]. intros ps _ Hl.
    apply (RedisBus_Close_keys (n_bus n) Hc) in Hl as [Hl Hk]. unfold live in Hl.
    destruct (close_global_sub_frame (n_bus n)) as (E & _ & _ & Hag).
    destruct (decide (ps < rsub_next (r_sub (n_bus n)))%nat); [by apply Hag|].
    revert Hl. unfold close_global. destruct (rc_globalSub (r_conn (n_bus n))) as [q|]; [|done]. simpl.
    by intros [[_ ?]|[_ ?]]%lookup_insert_Some.
Qed.

Lemma rtc_ages decode n n' : rtc (node_step decode) n n' -> ages (r_sub (n_bus n)) (r_sub (n_bus n')).
Proof. induction 1 as [|x y z Hs _ IH]; [done|]. etrans; [by eapply node_step_ages|exact IH]. Qed.

(** ** The subscribing side of a node: no send and no close panics *)

Lemma sub_inv_pubsubs s pss n : (rsub_next s <= n)%nat -> sub_inv s -> sub_inv (set_pubsubs s pss n).
Proof. intros Hn. apply sub_inv_ext; try done. intros m Hm. simpl in Hm. split; [lia|done]. Qed.

Lemma close_global_sub b : sub_inv (r_sub b) -> sub_inv (r_sub (close_global b)).
Proof. intros H. unfold close_global. by destruct (rc_globalSub (r_conn b)); [apply close_pubsub_inv|]. Qed.

Lemma flush_sub nonce io keys b : sub_inv (r_sub b) -> sub_inv (r_sub (fst (RedisBus_flush nonce io keys b))).
Proof.
  intros H. unfold RedisBus_flush. set (b' := if flush_reconnects _ _ then _ else _).
  assert (sub_inv (r_sub b')) as H'; [|by destruct (redis_flush nonce io (r_pub b'))].
  assert (forall s, sub_inv s -> sub_inv (foldl resubscribe s keys)) as Hk.
  { clear. induction keys as [|ke keys IH]; intros s Hs; simpl; [done|]. by apply IH, resubscribe_inv. }
  unfold b'. case_match; [|done]. by apply Hk, (close_global_sub b).
Qed.

Lemma RedisBus_Close_sub b :
  rc_closed (r_conn b) = false -> sub_inv (r_sub b) -> sub_inv (r_sub (RedisBus_Close b)).
Proof.
  intros Hc H. unfold RedisBus_Close. rewrite Hc. simpl. apply close_global_sub in H.
  set (s := r_sub (close_global b)) in *. induction (omap _ _) as [|ps l IH]; simpl; [|by apply close_pubsub_inv].
  by eapply (redis_sub_step_inv (fun _ => None) s); [apply rss_clear|].
Qed.

Lemma inner_turn_sub decode ps ev n :
  sub_inv (r_sub (n_bus n)) -> sub_inv (r_sub (n_bus (inner_turn decode ps ev n))).
Proof.
  intros H. unfold inner_turn. destruct (n_entries n) as [|e es], ev as [|err|[[now payload]|]| | |]; try done.
  - pose proof (global_message_inv decode now payload _ H). by destruct (global_message _ _ _ _).
  - by apply close_pubsub_inv.
  - case_match; [by apply close_pubsub_inv|done].
  - by eapply (redis_sub_step_inv (fun _ => None)); [apply rss_entry|].
Qed.

Lemma global_turn_sub decode ev n :
  sub_inv (r_sub (n_bus n)) -> sub_inv (r_sub (n_bus (global_turn decode ev n))).
Proof.
  intros H. unfold global_turn. destruct (n_pc n) as [|c|c ps|c ps| |]; try (by apply inner_turn_sub);
    destruct ev as [|err|msg| | |]; try done.
  - unfold global_subscribe. destruct (c =? _)%nat; (apply sub_inv_pubsubs; [lia|done]).
  - destruct err; [by apply close_pubsub_inv|done].
  - by case_match.
Qed.

Lemma client_sub_inv op s : sub_inv s -> sub_inv (client_sub op s).
Proof.
  intros H. destruct op; simpl; try done; (eapply (redis_sub_step_inv (fun _ => None)); [|exact H]); constructor.
Qed.

Lemma node_step_sub decode n n' :
  node_step decode n n' -> sub_inv (r_sub (n_bus n)) -> sub_inv (r_sub (n_bus n')).
Proof.
  destruct 1 as [ev n|ev n|ev n|op n|n Hc]; intros H.
  - by apply global_turn_sub.
  - unfold batcher_turn. destruct (n_batcher n); [|done]. destruct ev as [nonce io keys|nonce io keys|nonce io].
    + destruct (rp_publishCh _) as [|req q]; [done|]. case_match; [|done]. rewrite flush_turn_fst. by apply flush_sub.
    + rewrite flush_turn_fst. by apply flush_sub.
    + case_match; [|done]. rewrite flush_turn_fst. by apply flush_sub.
  - unfold cleanupSeen_turn. destruct (n_cleaner n); [|done]. destruct ev; [|by case_match].
    by eapply (redis_sub_step_inv (fun _ => None)); [apply rss_cleanup|].
  - by apply client_sub_inv.
  - by apply RedisBus_Close_sub.
Qed.

Lemma reachable_sub decode n : reachable decode n -> sub_inv (r_sub (n_bus n)).
Proof.
  intros H. eapply (rtc_preserves (node_step decode) (fun n => sub_inv (r_sub (n_bus n))));
    [apply node_step_sub|exact H|apply NewRedisBus_sub_inv].
Qed.

(** C19. [Close] closes what the node listens to, and returns. Once a node in any
    reachable state is closed, its table of keys is empty, and every redis
    subscription that it held for a key and every one that it ever opened for
    the global channel is closed, and none of them is ever open again. Its
    goroutines make at most eight more turns that get on with the close (a
    passage of [runBatcher] or [cleanupSeen] that takes it, or a step of
    [dispatchGlobal], whose call of the server may end either way; not counted
    are the requests, ticks, messages and entries of a batch that are taken
    before it), and as long as [Close] waits for one of them such a turn is
    possible. When it returns, the global subscriptions that [dispatchGlobal]
    opened in the meantime are closed too, the batcher holds no request that it
    has taken and not answered (the requests still queued are not answered:
    [redis_close_strands_queued]) and was never blocked by an answer, and
    nothing has been sent on, or closed, a closed channel. *)
Theorem redis_Close_returns decode n k n' :
  reachable decode n -> is_closed n = false -> closing_run decode k (close_turn n) n' ->
  rsub_subs (r_sub (n_bus (close_turn n))) = ∅ /\
  (forall ps, ps ∈ n_opened n \/ key_pubsub (n_bus n) ps ->
     ~ live (n_bus (close_turn n)) ps /\ ~ live (n_bus n') ps) /\
  (k <= 8)%nat /\
  (wg n' <> 0%nat -> exists n'', closing_run decode 1 n' n'') /\
  (wg n' = 0%nat ->
    (forall ps, ps ∈ n_opened n' -> ~ live (n_bus n') ps) /\
    rp_batch (r_pub (n_bus n')) = [] /\
    rp_blocked (r_pub (n_bus n')) = false /\ rsub_panicked (r_sub (n_bus n')) = false).
Proof.
  intros Hr Hc Hs. assert (reachable decode (close_turn n)) as Hr' by (by eapply rtc_r, ns_close).
  destruct (closing_run_left decode k _ n' Hs) as (Hn & _ & Hk); [apply RedisBus_Close_closed|].
  assert (reachable decode n') as Hrn by (unfold reachable in *; by etrans).
  assert (turns_left (close_turn n) <= 8)%nat as H8 by (unfold turns_left, pc_turns; repeat case_match; lia).
  split_and!; [by apply RedisBus_Close_keys| |lia|apply turns_left_wg|].
  { intros ps Hps. destruct (close_turn_dead n ps (reachable_conn _ _ Hr) Hc Hps) as [Hlt Hd].
    split; [done|]. intros Hl. by apply Hd, (rtc_ages _ _ _ Hn). }
  intros Hw. unfold wg in Hw. destruct (reachable_done _ _ Hrn) as [_ _ D3].
  split_and!; [|apply D3| |by eapply si_panic, reachable_sub].
  - intros ps Hp Hl. destruct (ci_only _ _ _ _ (reachable_conn _ _ Hrn) ps Hp Hl) as [c E].
    destruct (n_pc n'); done || lia.
  - destruct (n_batcher n'); [lia|done].
  - by eapply pi_flows, redis_pub_reachable, reachable_pub.
Qed.

(** [Subscribe] does not close the redis subscription whose [ps.Receive] fails:
    it belongs to no key, and [Close] leaves it open. *)
Theorem redis_Subscribe_leaks decode n key e :
  reachable decode n -> is_closed n = false -> rsub_subs (r_sub (n_bus n)) !! key = None ->
  let ps := rsub_next (r_sub (n_bus n)) in
  let n1 := client_turn (OpSubscribe (Some e) key) n in
  snd (RedisBus_Subscribe (Some e) key (r_sub (n_bus n))) = Err e /\
  live (n_bus n1) ps /\ ~ key_pubsub (n_bus n1) ps /\ live (n_bus (close_turn n1)) ps.
Proof.
  intros Hr Hc Hk ps n1. pose proof (ci_apart _ _ _ _ (reachable_conn _ _ Hr)) as [Ha1 Ha2].
  assert (RedisBus_Subscribe (Some e) key (r_sub (n_bus n)) =
    (set_pubsubs (r_sub (n_bus n)) (<[ps := false]> (rsub_pubsubs (r_sub (n_bus n)))) (S ps), Err e)) as E
    by (unfold RedisBus_Subscribe; by rewrite Hk).
  assert (live (n_bus n1) ps) as Hl by (unfold live, n1; cbn [n_bus set_bus client_turn r_sub client_sub]; rewrite E; apply lookup_insert_eq).
  assert (~ key_pubsub (n_bus n1) ps) as Hkey.
  { intros (key' & id & sub & _ & Hh & Hps). unfold n1 in Hh. simpl in Hh. rewrite E in Hh.
    apply Ha2 in Hh as [_ Hh]. unfold ps in Hps. lia. }
  split_and!; [by rewrite E|done|done|]. unfold close_turn, RedisBus_Close.
  assert (rc_closed (r_conn (n_bus n1)) = false) as -> by done. unfold live. cbn [n_bus set_bus r_sub set_sub set_conn].
  set (l := omap _ _). set (s0 := set_rsubs _ _ _ _). destruct (foldr_close_pubsub s0 l ps) as (_ & _ & _ & ->).
  destruct (close_global_sub_frame (n_bus n1)) as (_ & E2 & E3 & _). rewrite decide_False.
  - unfold s0. simpl. unfold close_global. change (r_conn (n_bus n1)) with (r_conn (n_bus n)).
    destruct (rc_globalSub (r_conn (n_bus n))) as [q|] eqn:Eq; [|exact Hl]. simpl.
    rewrite lookup_insert_ne; [exact Hl|]. apply (ci_global _ _ _ _ (reachable_conn _ _ Hr)), Ha1 in Eq. unfold ps. lia.
  - intros (id & Hid & Hps)%list_elem_of_omap. apply Hkey. rewrite E2 in Hps.
    apply fmap_Some in Hps as (sub & Hh & ->). rewrite E3 in Hid.
    apply list_elem_of_fmap in Hid as ([k' i] & -> & Hin%elem_of_map_to_list). by exists k', i, sub.
Qed.

(** ** Witnesses: the batcher's publication fails while the node listens to the
    global channel, and it reconnects *)

Definition wn_io : flush_io := mkFlushIO None None (NotPublished (ErrNew "connection refused")) false None false Published.
Definition wn_decode (payload : string) : option BatchPayload := None.
Definition wn_listening : node :=
  global_turn wn_decode (GReceived None) (global_turn wn_decode GGo (global_turn wn_decode GGo start_node)).
Definition wn_lost : node :=
  batcher_turn (BTick "nonce" wn_io [])
    (batcher_turn (BReq "nonce" wn_io []) (client_turn (OpPublish Background true "k" []) wn_listening)).

Lemma wn_reachable : reachable wn_decode wn_lost.
Proof.
  unfold reachable, wn_lost, wn_listening. do 6 (eapply rtc_r; [|constructor]). constructor.
Qed.

(** The channel of the closed subscription is closed; a pause, and round again. *)
Definition wn_back : node :=
  foldl (fun n ev => global_turn wn_decode ev n) wn_lost
    [GChanClosed; GGo; GGo; GGo; GReceived None; GMessage (Some (5, "x"))].

Lemma wn_served : served_run wn_decode 6 wn_lost wn_back.
Proof.
  unfold wn_back. cbn [foldl].
  apply (sr_global wn_decode 5 GChanClosed). { vm_compute. split; [reflexivity|]. intros H. discriminate H. }
  apply (sr_global wn_decode 4 GGo). { exact I. }
  apply (sr_global wn_decode 3 GGo). { exact I. }
  apply (sr_global wn_decode 2 GGo). { exact I. }
  apply (sr_global wn_decode 1 (GReceived None)). { vm_compute. reflexivity. }
  apply (sr_global wn_decode 0 (GMessage (Some (5, "x")))). { vm_compute. split; reflexivity. }
  apply sr_refl.
Qed.

Lemma redis_global_recovers_witness :
  rc_ready (r_conn (n_bus wn_lost)) = false /\
  exists ps, n_pc wn_back = GLoop (rc_client (r_conn (n_bus wn_back))) ps /\ live (n_bus wn_back) ps.
Proof.
  split; [vm_compute; reflexivity|].
  destruct (redis_global_recovers wn_decode wn_lost 6 wn_back wn_reachable eq_refl wn_served (le_n 6))
    as (_ & ps & H1 & H2 & _). exists ps. split; [exact H1|exact H2].
Defined.

Lemma wn_back_reachable : reachable wn_decode wn_back.
Proof.
  unfold reachable, wn_back. cbn [foldl]. do 6 (eapply rtc_r; [|constructor]). apply wn_reachable.
Qed.

(** A client subscribes to a key; the bus closes; the batcher still takes a
    request and a tick, and a message still arrives, before they all return. *)
Definition wn_open : node := client_turn (OpSubscribe None "s") wn_back.

Lemma wn_open_reachable : reachable wn_decode wn_open.
Proof. eapply rtc_r; [apply wn_back_reachable|]. apply ns_client. Qed.

Definition wn_closing_node : node :=
  batcher_turn (BTick "nonce" wn_io [])
    (global_turn wn_decode (GMessage (Some (6, "y"))) (client_turn (OpPublish Background true "q" []) (close_turn wn_open))).

Definition wn_ended : node :=
  cleanupSeen_turn SeenClose (batcher_turn (BClose "nonce" wn_io)
    (global_turn wn_decode GSeesClose wn_closing_node)).

Lemma wn_closing : closing_run wn_decode 3 (close_turn wn_open) wn_ended.
Proof.
  unfold wn_ended, wn_closing_node.
  eapply cr_meanwhile; [apply (mw_client wn_decode (OpPublish Background true "q" []))|].
  eapply cr_meanwhile; [apply (mw_message wn_decode (Some (6, "y")))|].
  eapply cr_meanwhile; [apply (mw_tick wn_decode "nonce" wn_io [])|].
  apply (cr_global wn_decode 2 GSeesClose). { vm_compute. reflexivity. }
  apply (cr_batcher wn_decode 1 "nonce" wn_io). { vm_compute. reflexivity. }
  apply (cr_cleaner wn_decode 0). { vm_compute. reflexivity. }
  apply cr_refl.
Qed.

Lemma wn_open_key : key_pubsub (n_bus wn_open) 2.
Proof.
  exists "s", 2%nat, (mkRSub 2 [2%nat]). split_and!; vm_compute; reflexivity.
Qed.

Lemma redis_Close_returns_witness :
  live (n_bus wn_open) 2 /\ live (n_bus wn_open) 1 /\
  ~ live (n_bus (close_turn wn_open)) 2 /\ ~ live (n_bus wn_ended) 2 /\
  forall ps, ps ∈ n_opened wn_ended -> ~ live (n_bus wn_ended) ps.
Proof.
  split; [vm_compute; reflexivity|]. split; [vm_compute; reflexivity|].
  destruct (redis_Close_returns wn_decode wn_open 3 wn_ended wn_open_reachable eq_refl wn_closing)
    as (_ & Hd & _ & _ & H).
  split; [exact (proj1 (Hd 2%nat (or_intror wn_open_key)))|].
  split; [exact (proj2 (Hd 2%nat (or_intror wn_open_key)))|].
  apply H. vm_compute. reflexivity.
Defined.
