(* ===== verification/Registry.v ===== *)
(** * Registry: key registrations of [core]

    Models the registration part of [src/core/core.go]: the consistency modes,
    the [registration] record, the 512 shards selected by a 32-bit FNV-1a hash,
    and [Register], [RegisterDynamicTTL], [Unregister], [SetQuorum],
    [SetQuorumAware] and [quorumSize]. Registrations are shared by pointer
    between the shard maps and operations in flight, so they live in a heap
    and the shards map a key to a location. The sharded structure is proved to
    refine one flat map. *)

From S2P Require Import Prelude TTL.

(** [ModeOther] is any other value of the integer type [Mode]. *)
Inductive Mode :=
| ModeStrongLocal
| ModeEventualDistributed
| ModeStrongDistributed
| ModeOther (n : Z).

(** A TTL strategy is an object: the registration holds its location. *)
Record registration := mkReg {
  rg_ttl : duration;
  rg_ttlStrategy : option nat;
  rg_ttlOpts : TTLOptions;
  rg_mode : Mode;
  rg_currentTTL : duration;
  rg_lastAccess : time;
  rg_quorum : Z;
}.

Definition set_access (ttl : duration) (last : time) (g : registration) : registration :=
  mkReg (rg_ttl g) (rg_ttlStrategy g) (rg_ttlOpts g) (rg_mode g) ttl last (rg_quorum g).
Definition set_quorum (q : Z) (g : registration) : registration :=
  mkReg (rg_ttl g) (rg_ttlStrategy g) (rg_ttlOpts g) (rg_mode g)
    (rg_currentTTL g) (rg_lastAccess g) q.

Definition regShardCount : nat := 512.

Record registry := mkRegistry {
  shards : list (gmap string nat);
  reg_heap : gmap nat registration;
  next_reg : nat;
}.

Definition new_registry : registry := mkRegistry (replicate regShardCount ∅) ∅ 0.

(** ** FNV-1a *)

Definition offset32 : Z := 2166136261.
Definition prime32 : Z := 16777619.

Fixpoint hash_loop (key : string) (hash : Z) : Z :=
  match key with
  | EmptyString => hash
  | String c key =>
      hash_loop key (u32 (Z.lxor hash (Z.of_N (Ascii.N_of_ascii c)) * prime32))
  end.

Definition hashString (key : string) : Z := hash_loop key (u32 offset32).

(** The index of the shard of a key. *)
Definition shard_of (key : string) : nat := Z.to_nat (hashString key mod Z.of_nat regShardCount).

(** ** Operations *)

Definition shard_map (i : nat) (r : registry) : gmap string nat := default ∅ (shards r !! i).

Definition getReg (key : string) (r : registry) : option nat :=
  shard_map (shard_of key) r !! key.

(** [shard.regs[key] = &registration{...}] *)
Definition put_reg (key : string) (g : registration) (r : registry) : registry :=
  let i := shard_of key in
  mkRegistry (<[i := <[key := next_reg r]> (shard_map i r)]> (shards r))
    (<[next_reg r := g]> (reg_heap r)) (S (next_reg r)).

(** A write through a registration pointer, under its mutex. *)
Definition update_reg (l : nat) (f : registration -> registration) (r : registry) : registry :=
  mkRegistry (shards r) (alter f l (reg_heap r)) (next_reg r).

Definition registry_Register (key : string) (mode : Mode) (ttl : duration)
    (opts : list TTLOption) (r : registry) : registry * bool :=
  match getReg key r with
  | Some _ => (r, false)
  | None => (put_reg key (mkReg ttl None (apply_TTLOptions opts) mode ttl 0 1) r, true)
  end.

Definition registry_RegisterDynamicTTL (key : string) (mode : Mode) (strat : option nat)
    (opts : list TTLOption) (r : registry) : registry * bool :=
  match getReg key r with
  | Some _ => (r, false)
  | None => (put_reg key (mkReg 0 strat (apply_TTLOptions opts) mode 0 0 1) r, true)
  end.

Definition registry_Unregister (key : string) (r : registry) : registry :=
  let i := shard_of key in
  mkRegistry (<[i := delete key (shard_map i r)]> (shards r)) (reg_heap r) (next_reg r).

Definition registry_SetQuorum (key : string) (replicas : Z) (r : registry) : registry * bool :=
  match getReg key r with
  | None => (r, false)
  | Some l =>
      let replicas := if replicas <? 1 then 1 else replicas in
      (update_reg l (set_quorum replicas) r, true)
  end.

Definition registry_SetQuorumAware (key : string) (replicas minZones : Z) (r : registry)
    : registry * bool :=
  match getReg key r with
  | None => (r, false)
  | Some l =>
      let replicas := if replicas <? 1 then 1 else replicas in
      let minZones := if minZones <? 1 then 1 else minZones in
      (update_reg l (set_quorum replicas) r, true)
  end.

Definition quorumSize (g : registration) : Z := if rg_quorum g <? 1 then 1 else rg_quorum g.

(** The registration [GetOrSet] creates for an unknown key. *)
Definition default_registration : registration :=
  mkReg (5 * Minute) None zero_TTLOptions ModeStrongLocal (5 * Minute) 0 1.

(** [GetOrSet]: the registration of the key, created when there is none. *)
Definition registry_ensure (key : string) (r : registry) : registry * nat :=
  match getReg key r with
  | Some l => (r, l)
  | None => (put_reg key default_registration r, next_reg r)
  end.

(** ** Invariant and abstraction *)

(** The registration of a key, as the flat map the shards implement. *)
Definition reg_view (r : registry) (key : string) : option registration :=
  l ← getReg key r; reg_heap r !! l.

Record reg_inv (r : registry) : Prop := {
  ri_shards : length (shards r) = regShardCount;
  ri_placed : forall i key l, shard_map i r !! key = Some l -> i = shard_of key;
  ri_alloc : forall key l, getReg key r = Some l -> is_Some (reg_heap r !! l);
  ri_inj : forall key key' l, getReg key r = Some l -> getReg key' r = Some l -> key = key';
  ri_fresh : forall l, is_Some (reg_heap r !! l) -> (l < next_reg r)%nat;
}.

Lemma hash_loop_u32 key h : is_u32 h -> is_u32 (hash_loop key h).
Proof. revert h. induction key; intros h Hh; simpl; [done|]. apply IHkey. auto with warp. Qed.

Lemma shard_of_lt key : (shard_of key < regShardCount)%nat.
Proof.
  unfold shard_of, regShardCount. pose proof (Z.mod_pos_bound (hashString key) 512). lia.
Qed.
#[export] Hint Resolve shard_of_lt : warp.

Lemma shard_map_insert r key m h n i :
  reg_inv r ->
  shard_map i (mkRegistry (<[shard_of key := m]> (shards r)) h n) =
    if decide (shard_of key = i) then m else shard_map i r.
Proof.
  intros H. unfold shard_map. simpl. case_decide as Hi; [subst|by rewrite list_lookup_insert_ne].
  rewrite list_lookup_insert_eq; [done|]. rewrite (ri_shards _ H). auto with warp.
Qed.

(** The lookup of a key after its shard map was replaced. *)
Lemma getReg_insert r key m h n key' :
  reg_inv r -> (forall k, k <> key -> m !! k = shard_map (shard_of key) r !! k) ->
  getReg key' (mkRegistry (<[shard_of key := m]> (shards r)) h n) =
    if decide (key = key') then m !! key else getReg key' r.
Proof.
  intros H Hm. unfold getReg. rewrite shard_map_insert by done.
  case_decide as E1; case_decide as E2; subst; try done.
  rewrite Hm by done. by rewrite E1.
Qed.

Lemma getReg_put_reg key g r key' :
  reg_inv r -> getReg key' (put_reg key g r) =
    if decide (key = key') then Some (next_reg r) else getReg key' r.
Proof.
  intros H. unfold put_reg. rewrite getReg_insert; [|done|].
  - by rewrite lookup_insert_eq.
  - intros k Hk. by rewrite lookup_insert_ne.
Qed.

Lemma getReg_fresh r key l : reg_inv r -> getReg key r = Some l -> (l < next_reg r)%nat.
Proof. intros H Hl. by apply (ri_fresh _ H), (ri_alloc _ H key). Qed.

Lemma put_reg_inv key g r : reg_inv r -> reg_inv (put_reg key g r).
Proof.
  intros H. split.
  - simpl. rewrite length_insert. apply H.
  - intros i k l. unfold put_reg. rewrite shard_map_insert by done. case_decide as Hi; [subst|apply H].
    destruct (decide (key = k)) as [->|]; [done|]. rewrite lookup_insert_ne by done. apply H.
  - intros k l. rewrite getReg_put_reg by done. simpl. case_decide.
    + intros [= <-]. rewrite lookup_insert_eq. by eexists.
    + intros Hl. rewrite lookup_insert_ne; [by apply (ri_alloc _ H k)|].
      apply getReg_fresh in Hl; [lia|done].
  - intros k k' l. rewrite !getReg_put_reg by done. do 2 case_decide; subst; try done.
    + intros [= <-] Hl%getReg_fresh; [lia|done].
    + intros Hl%getReg_fresh [= <-]; [lia|done].
    + apply H.
  - intros l. simpl. destruct (decide (l = next_reg r)) as [->|]; [lia|].
    rewrite lookup_insert_ne by done. intros Hl%(ri_fresh _ H). lia.
Qed.

Lemma reg_view_put key g r key' :
  reg_inv r -> reg_view (put_reg key g r) key' =
    if decide (key = key') then Some g else reg_view r key'.
Proof.
  intros H. unfold reg_view. rewrite getReg_put_reg by done. case_decide; simpl.
  - by rewrite lookup_insert_eq.
  - destruct (getReg key' r) as [l|] eqn:E; [simpl|done].
    apply getReg_fresh in E; [|done]. by rewrite lookup_insert_ne by lia.
Qed.

Lemma update_reg_inv l f r : reg_inv r -> reg_inv (update_reg l f r).
Proof.
  intros [H1 H2 H3 H4 H5]. split; try done.
  - intros k l' Hl. simpl. rewrite lookup_alter_is_Some. by apply (H3 k).
  - intros l'. simpl. rewrite lookup_alter_is_Some. apply H5.
Qed.

Lemma reg_view_update key l f r key' :
  reg_inv r -> getReg key r = Some l ->
  reg_view (update_reg l f r) key' =
    if decide (key = key') then f <$> reg_view r key else reg_view r key'.
Proof.
  intros H Hl. unfold reg_view. change (getReg key' (update_reg l f r)) with (getReg key' r).
  rewrite Hl. simpl. case_decide as Hk; [subst; rewrite Hl; simpl; apply lookup_alter_eq|].
  destruct (getReg key' r) as [l'|] eqn:E; [|done]. simpl. apply lookup_alter_ne.
  intros ->. by apply Hk, (ri_inj _ H _ _ l').
Qed.

Lemma Unregister_inv key r : reg_inv r -> reg_inv (registry_Unregister key r).
Proof.
  intros H. assert (forall k l, getReg k (registry_Unregister key r) = Some l -> getReg k r = Some l) as Hg.
  { intros k l. unfold registry_Unregister. rewrite getReg_insert; [|done|].
    - case_decide; [subst|done]. by rewrite lookup_delete_eq.
    - intros k' Hk. by rewrite lookup_delete_ne. }
  split; simpl; try apply H.
  - rewrite length_insert. apply H.
  - intros i k l. unfold registry_Unregister. rewrite shard_map_insert by done.
    case_decide; [subst|apply H]. intros [_ Hl]%lookup_delete_Some. by apply (ri_placed _ H) in Hl.
  - intros k l Hl%Hg. by apply (ri_alloc _ H k).
  - intros k k' l Hl%Hg Hl'%Hg. by apply (ri_inj _ H _ _ l).
Qed.

Lemma reg_view_Unregister key r key' :
  reg_inv r -> reg_view (registry_Unregister key r) key' =
    if decide (key = key') then None else reg_view r key'.
Proof.
  intros H. unfold reg_view, registry_Unregister. rewrite getReg_insert; [|done|].
  - case_decide; [by rewrite lookup_delete_eq|done].
  - intros k Hk. by rewrite lookup_delete_ne.
Qed.

Lemma shard_map_new i : shard_map i new_registry = ∅.
Proof.
  unfold shard_map. change (shards new_registry) with (replicate regShardCount (∅ : gmap string nat)).
  destruct (_ !! i) eqn:E; [|done]. by apply lookup_replicate in E as [-> _].
Qed.

Lemma getReg_new key : getReg key new_registry = None.
Proof. unfold getReg. by rewrite shard_map_new, lookup_empty. Qed.

Lemma new_registry_inv : reg_inv new_registry.
Proof.
  split.
  - apply length_replicate.
  - intros i k l. by rewrite shard_map_new, lookup_empty.
  - intros k l. by rewrite getReg_new.
  - intros k k' l. by rewrite getReg_new.
  - intros l. change (reg_heap new_registry) with (∅ : gmap nat registration).
    rewrite lookup_empty. by intros [??].
Qed.

Lemma reg_view_new key : reg_view new_registry key = None.
Proof. unfold reg_view. by rewrite getReg_new. Qed.

(** The view tells registered keys from unregistered ones. *)
Lemma reg_view_is_Some r key : reg_inv r -> is_Some (reg_view r key) <-> is_Some (getReg key r).
Proof.
  intros H. unfold reg_view. destruct (getReg key r) as [l|] eqn:E; simpl; [|done].
  split; [by eexists|]. intros _. by apply (ri_alloc _ H key).
Qed.

(** ** Refinement to a flat map *)

(** The calls of the registry; [CAccess] is the write of the current TTL and
    of the last access that reads and writes of the key perform. *)
Inductive reg_call :=
| CRegister (key : string) (mode : Mode) (ttl : duration) (opts : list TTLOption)
| CRegisterDynamicTTL (key : string) (mode : Mode) (strat : option nat) (opts : list TTLOption)
| CUnregister (key : string)
| CSetQuorum (key : string) (replicas : Z)
| CSetQuorumAware (key : string) (replicas minZones : Z)
| CAccess (key : string) (ttl : duration) (last : time)
| CEnsure (key : string).

Definition run_call (r : registry) (c : reg_call) : registry * bool :=
  match c with
  | CRegister key mode ttl opts => registry_Register key mode ttl opts r
  | CRegisterDynamicTTL key mode strat opts => registry_RegisterDynamicTTL key mode strat opts r
  | CUnregister key => (registry_Unregister key r, true)
  | CSetQuorum key n => registry_SetQuorum key n r
  | CSetQuorumAware key n z => registry_SetQuorumAware key n z r
  | CAccess key ttl last =>
      match getReg key r with
      | Some l => (update_reg l (set_access ttl last) r, true)
      | None => (r, false)
      end
  | CEnsure key => (fst (registry_ensure key r), true)
  end.

(** The same calls on one flat map. *)
Definition map_call (m : gmap string registration) (c : reg_call)
    : gmap string registration * bool :=
  let create key g := match m !! key with
                      | Some _ => (m, false)
                      | None => (<[key := g]> m, true)
                      end in
  let modify key f := (alter f key m, bool_decide (is_Some (m !! key))) in
  match c with
  | CRegister key mode ttl opts => create key (mkReg ttl None (apply_TTLOptions opts) mode ttl 0 1)
  | CRegisterDynamicTTL key mode strat opts =>
      create key (mkReg 0 strat (apply_TTLOptions opts) mode 0 0 1)
  | CUnregister key => (delete key m, true)
  | CSetQuorum key n | CSetQuorumAware key n _ => modify key (set_quorum (Z.max 1 n))
  | CAccess key ttl last => modify key (set_access ttl last)
  | CEnsure key => (fst (create key default_registration), true)
  end.

Fixpoint run_calls {S} (step : S -> reg_call -> S * bool) (s : S) (cs : list reg_call)
    : S * list bool :=
  match cs with
  | [] => (s, [])
  | c :: cs =>
      let '(s, b) := step s c in
      let '(s, bs) := run_calls step s cs in (s, b :: bs)
  end.

Definition reg_sim (r : registry) (m : gmap string registration) : Prop :=
  reg_inv r /\ forall key, reg_view r key = m !! key.

Lemma sim_create r m key g :
  reg_sim r m -> reg_view r key = None -> reg_sim (put_reg key g r) (<[key := g]> m).
Proof.
  intros [H Hv] Hn. split; [by apply put_reg_inv|]. intros k. rewrite reg_view_put by done.
  case_decide; [subst; by rewrite lookup_insert_eq|by rewrite lookup_insert_ne, Hv].
Qed.

Lemma sim_modify r m key l f :
  reg_sim r m -> getReg key r = Some l -> reg_sim (update_reg l f r) (alter f key m).
Proof.
  intros [H Hv] Hl. split; [by apply update_reg_inv|]. intros k.
  rewrite (reg_view_update key) by done.
  case_decide; [subst; by rewrite lookup_alter_eq, Hv|by rewrite lookup_alter_ne, Hv].
Qed.

Lemma sim_lookup r m key :
  reg_sim r m -> match getReg key r with Some _ => is_Some (m !! key) | None => m !! key = None end.
Proof.
  intros [H Hv]. rewrite <- Hv. pose proof (reg_view_is_Some r key H) as Hs.
  destruct (getReg key r) eqn:E; [by apply Hs; eexists|]. by unfold reg_view; rewrite E.
Qed.

Lemma run_call_sim r m c :
  reg_sim r m ->
  reg_sim (fst (run_call r c)) (fst (map_call m c)) /\ snd (run_call r c) = snd (map_call m c).
Proof.
  intros Hsim. pose proof Hsim as [H Hv].
  destruct c as [key mode ttl opts|key mode st opts|key|key n|key n z|key ttl last|key]; simpl;
    unfold registry_Register, registry_RegisterDynamicTTL, registry_SetQuorum,
      registry_SetQuorumAware, registry_ensure; try pose proof (sim_lookup r m key Hsim) as Hl;
    try replace (if n <? 1 then 1 else n) with (Z.max 1 n) by (destruct (n <? 1) eqn:?; bool_to_prop; lia).
  3:{ split; [|done]. split; [by apply Unregister_inv|]. intros k. rewrite reg_view_Unregister by done.
      case_decide; [subst; by rewrite lookup_delete_eq|by rewrite lookup_delete_ne, Hv]. }
  all: destruct (getReg key r) as [l|] eqn:E; simpl.
  all: try match type of Hl with is_Some _ => destruct Hl as [g Hg] end.
  all: try (rewrite Hg || rewrite Hl); simpl; try done.
  all: try (split; [by apply sim_create; [|rewrite Hv]|done]).
  all: try (split; [by apply (sim_modify _ _ key)|done]).
  all: split; [by rewrite alter_id'|done].
Qed.

(** C34. The 512-shard registry with its heap of registrations implements one
    flat map from keys to registrations: every sequence of registrations,
    removals, quorum changes and access updates, started on the empty
    registry, answers the same and leaves the same registration for every key
    as the same calls on a single map. *)
Theorem registry_refines_map (cs : list reg_call) :
  let '(r, bs) := run_calls run_call new_registry cs in
  let '(m, bs') := run_calls map_call ∅ cs in
  bs = bs' /\ reg_inv r /\ forall key, reg_view r key = m !! key.
Proof.
  assert (forall r m, reg_sim r m ->
    let '(r, bs) := run_calls run_call r cs in
    let '(m, bs') := run_calls map_call m cs in bs = bs' /\ reg_sim r m) as Hgen.
  { induction cs as [|c cs IH]; intros r m Hs; [done|].
    destruct (run_call_sim r m c Hs) as [Hs' Hb]. simpl.
    destruct (run_call r c) as [r1 b1], (map_call m c) as [m1 b2]. simpl in *. subst b2.
    specialize (IH _ _ Hs').
    destruct (run_calls run_call r1 cs), (run_calls map_call m1 cs). destruct IH as [-> ?]. done. }
  specialize (Hgen new_registry ∅).
  destruct (run_calls run_call new_registry cs), (run_calls map_call ∅ cs).
  apply Hgen. split; [apply new_registry_inv|]. intros key. by rewrite reg_view_new, lookup_empty.
Qed.
