(* ===== verification/Warp.v ===== *)
(** * Warp: the orchestrator

    Models the type [Warp] of [src/core/core.go] and its operations: [New] and
    its options, [Register], [RegisterDynamicTTL], [Unregister], [Get],
    [GetOrSet], [GetAt], [Set], [Invalidate], [InvalidateLocal], [Merge],
    [Warmup], the subscription forwarders, the background goroutines they
    start, and the [validatorCache] adapter.

    The cache, the store, the bus and the TTL strategies are any types with
    the operations of their interfaces. Goroutines started by an operation are
    tasks of the state; [run_task] performs one. What the operation does not
    decide itself is in its environment: the instants its clock readings see,
    the result of a call in flight that singleflight shares, and whether the
    soft timeout fires first. *)

From S2P Require Import Prelude Merge TTL CacheIface Store SyncBus Registry.

(** ** The cache of a Warp

    The dynamic type of the field [cache]: the cache given to [New], or that
    cache wrapped by [WithCacheResiliency]. *)
Inductive WCache (C : Type) :=
| CPlain (c : C)
| CResilient (r : ResilientCache C).
Arguments CPlain {C} _.
Arguments CResilient {C} _.

Section WCache.
Context {C V : Type} `{!Cache C V}.

Definition WCache_Get (cx : ctx) (now : time) (key : string) (wc : WCache C)
    : WCache C * res (option V) :=
  match wc with
  | CPlain c => let '(c, r) := cache_Get cx now key c in (CPlain c, r)
  | CResilient c => let '(c, r) := ResilientCache_Get cx now key c in (CResilient c, r)
  end.

Definition WCache_Set (cx : ctx) (now : time) (key : string) (v : V) (ttl : duration)
    (wc : WCache C) : WCache C * option error :=
  match wc with
  | CPlain c => let '(c, r) := cache_Set cx now key v ttl c in (CPlain c, r)
  | CResilient c => let '(c, r) := ResilientCache_Set cx now key v ttl c in (CResilient c, r)
  end.

Definition WCache_Invalidate (cx : ctx) (key : string) (wc : WCache C)
    : WCache C * option error :=
  match wc with
  | CPlain c => let '(c, r) := cache_Invalidate cx key c in (CPlain c, r)
  | CResilient c => let '(c, r) := ResilientCache_Invalidate cx key c in (CResilient c, r)
  end.

(** The type assertion to [versionedCache] and the call of [GetAt]; [None]
    when the assertion fails, which it does for the wrapped cache. *)
Definition WCache_GetAt (cx : ctx) (now : time) (key : string) (at_ : time) (wc : WCache C)
    : option (WCache C * res (option V)) :=
  match wc with
  | CPlain c =>
      f ← cache_GetAt (C := C) (V := V);
      let '(c, r) := f cx now key at_ c in Some (CPlain c, r)
  | CResilient _ => None
  end.

End WCache.

(** ** State *)

Record lease := mkLease {
  l_keys : gset string;
  l_timer : option duration;
  l_sub : option nat;
}.

(** What a refresh fetches from: the store, or the loader of [GetOrSet]. *)
Inductive source (T : Type) :=
| FromStore
| FromLoader (loader : ctx -> res T).
Arguments FromStore {T}.
Arguments FromLoader {T} _.

(** Goroutines started and not yet run. *)
Inductive task (T : Type) :=
| TSoftRefresh (key : string) (l : nat) (currentTTL : duration) (src : source T)
| TEagerRefresh (key : string) (l : nat) (currentTTL : duration)
| TPublish (key : string)
| TListen (key : string).
Arguments TSoftRefresh {T} _ _ _ _.
Arguments TEagerRefresh {T} _ _ _.
Arguments TPublish {T} _.
Arguments TListen {T} _.

(** [w_metrics]: the counters and the latency histogram exist;
    [w_listeners]: the channels of the running invalidation listeners. *)
Record Warp (T C S B St : Type) := mkWarp {
  w_cache : WCache C;
  w_store : option S;
  w_bus : option B;
  w_merges : Engine T;
  w_leases : gmap string lease;
  w_publishErrs : list error;
  w_reg : registry;
  w_strats : gmap nat St;
  w_metrics : bool;
  w_hits : Z;
  w_misses : Z;
  w_evictions : Z;
  w_trace : bool;
  w_resilient : bool;
  w_publishTimeout : duration;
  w_tasks : list (task T);
  w_listeners : list nat;
}.
Arguments mkWarp {T C S B St} _ _ _ _ _ _ _ _ _ _ _ _ _ _ _ _ _.
Arguments w_cache {T C S B St} _.
Arguments w_store {T C S B St} _.
Arguments w_bus {T C S B St} _.
Arguments w_merges {T C S B St} _.
Arguments w_leases {T C S B St} _.
Arguments w_publishErrs {T C S B St} _.
Arguments w_reg {T C S B St} _.
Arguments w_strats {T C S B St} _.
Arguments w_metrics {T C S B St} _.
Arguments w_hits {T C S B St} _.
Arguments w_misses {T C S B St} _.
Arguments w_evictions {T C S B St} _.
Arguments w_trace {T C S B St} _.
Arguments w_resilient {T C S B St} _.
Arguments w_publishTimeout {T C S B St} _.
Arguments w_tasks {T C S B St} _.
Arguments w_listeners {T C S B St} _.

(** The environment of an operation: the clock before and after it leaves the
    process (store, loader, bus), the result of a call in flight for the key
    that singleflight shares with it, and whether the soft timeout fires before
    the fetch answers. *)
Record env (T : Type) := mkEnv {
  t0 : time;
  t1 : time;
  inflight : option (res (Value T));
  timed_out : bool;
}.
Arguments mkEnv {T} _ _ _ _.
Arguments t0 {T} _.
Arguments t1 {T} _.
Arguments inflight {T} _.
Arguments timed_out {T} _.

Section Warp.
Context {T C S B St : Type}.
Context `{!Cache C (Value T), !Store S T, !Bus B, !TTLStrategy St}.
Abbreviation W := (Warp T C S B St).
Implicit Types w : W.

(** *** Field updates *)

Definition set_cache w c : W := mkWarp c (w_store w) (w_bus w) (w_merges w) (w_leases w)
  (w_publishErrs w) (w_reg w) (w_strats w) (w_metrics w) (w_hits w) (w_misses w) (w_evictions w)
  (w_trace w) (w_resilient w) (w_publishTimeout w) (w_tasks w) (w_listeners w).
Definition set_store w s : W := mkWarp (w_cache w) s (w_bus w) (w_merges w) (w_leases w)
  (w_publishErrs w) (w_reg w) (w_strats w) (w_metrics w) (w_hits w) (w_misses w) (w_evictions w)
  (w_trace w) (w_resilient w) (w_publishTimeout w) (w_tasks w) (w_listeners w).
Definition set_bus w b : W := mkWarp (w_cache w) (w_store w) b (w_merges w) (w_leases w)
  (w_publishErrs w) (w_reg w) (w_strats w) (w_metrics w) (w_hits w) (w_misses w) (w_evictions w)
  (w_trace w) (w_resilient w) (w_publishTimeout w) (w_tasks w) (w_listeners w).
Definition set_merges w m : W := mkWarp (w_cache w) (w_store w) (w_bus w) m (w_leases w)
  (w_publishErrs w) (w_reg w) (w_strats w) (w_metrics w) (w_hits w) (w_misses w) (w_evictions w)
  (w_trace w) (w_resilient w) (w_publishTimeout w) (w_tasks w) (w_listeners w).
Definition set_leases w l : W := mkWarp (w_cache w) (w_store w) (w_bus w) (w_merges w) l
  (w_publishErrs w) (w_reg w) (w_strats w) (w_metrics w) (w_hits w) (w_misses w) (w_evictions w)
  (w_trace w) (w_resilient w) (w_publishTimeout w) (w_tasks w) (w_listeners w).
Definition set_publishErrs w p : W := mkWarp (w_cache w) (w_store w) (w_bus w) (w_merges w)
  (w_leases w) p (w_reg w) (w_strats w) (w_metrics w) (w_hits w) (w_misses w) (w_evictions w)
  (w_trace w) (w_resilient w) (w_publishTimeout w) (w_tasks w) (w_listeners w).
Definition set_reg w r : W := mkWarp (w_cache w) (w_store w) (w_bus w) (w_merges w) (w_leases w)
  (w_publishErrs w) r (w_strats w) (w_metrics w) (w_hits w) (w_misses w) (w_evictions w)
  (w_trace w) (w_resilient w) (w_publishTimeout w) (w_tasks w) (w_listeners w).
Definition set_strats w s : W := mkWarp (w_cache w) (w_store w) (w_bus w) (w_merges w) (w_leases w)
  (w_publishErrs w) (w_reg w) s (w_metrics w) (w_hits w) (w_misses w) (w_evictions w)
  (w_trace w) (w_resilient w) (w_publishTimeout w) (w_tasks w) (w_listeners w).
Definition set_counters w h m e : W := mkWarp (w_cache w) (w_store w) (w_bus w) (w_merges w)
  (w_leases w) (w_publishErrs w) (w_reg w) (w_strats w) (w_metrics w) h m e
  (w_trace w) (w_resilient w) (w_publishTimeout w) (w_tasks w) (w_listeners w).
Definition set_config w mt tr rs pt : W := mkWarp (w_cache w) (w_store w) (w_bus w) (w_merges w)
  (w_leases w) (w_publishErrs w) (w_reg w) (w_strats w) mt (w_hits w) (w_misses w) (w_evictions w)
  tr rs pt (w_tasks w) (w_listeners w).
Definition set_tasks w ts ls : W := mkWarp (w_cache w) (w_store w) (w_bus w) (w_merges w)
  (w_leases w) (w_publishErrs w) (w_reg w) (w_strats w) (w_metrics w) (w_hits w) (w_misses w)
  (w_evictions w) (w_trace w) (w_resilient w) (w_publishTimeout w) ts ls.

Definition start_task (t : task T) w : W := set_tasks w (w_tasks w ++ [t]) (w_listeners w).

(** The counters are incremented when they exist. *)
Definition inc_hits w : W :=
  if w_metrics w then set_counters w (w_hits w + 1) (w_misses w) (w_evictions w) else w.
Definition inc_misses w : W :=
  if w_metrics w then set_counters w (w_hits w) (w_misses w + 1) (w_evictions w) else w.
Definition inc_evictions w : W :=
  if w_metrics w then set_counters w (w_hits w) (w_misses w) (w_evictions w + 1) else w.

(** *** Options and construction *)

Definition Option : Type := W -> W.

Definition WithMetrics : Option := fun w =>
  set_config w true (w_trace w) (w_resilient w) (w_publishTimeout w).
Definition WithCacheResiliency : Option := fun w =>
  set_config w (w_metrics w) (w_trace w) true (w_publishTimeout w).
Definition WithPublishTimeout (d : duration) : Option := fun w =>
  set_config w (w_metrics w) (w_trace w) (w_resilient w) d.
Definition WithTracing : Option := fun w =>
  set_config w (w_metrics w) true (w_resilient w) (w_publishTimeout w).

(** [heap]: the strategy objects the program created. *)
Definition New (c : C) (s : option S) (bus : option B) (m : option (Engine T))
    (heap : gmap nat St) (opts : list Option) : W :=
  let w := mkWarp (CPlain c) s bus (default NewEngine m) ∅ [] new_registry heap
             false 0 0 0 false false 0 [] [] in
  let w := foldl (fun w opt => opt w) w opts in
  if w_resilient w then
    set_cache w (match w_cache w with CPlain c => CResilient (NewResilient c) | wc => wc end)
  else w.

(** *** Calls of the components *)

Definition cacheGet (cx : ctx) (t : time) (key : string) w : W * res (option (Value T)) :=
  let '(c, r) := WCache_Get cx t key (w_cache w) in (set_cache w c, r).
Definition cacheSet (cx : ctx) (t : time) (key : string) (v : Value T) (ttl : duration) w
    : W * option error :=
  let '(c, r) := WCache_Set cx t key v ttl (w_cache w) in (set_cache w c, r).
Definition cacheInvalidate (cx : ctx) (key : string) w : W * option error :=
  let '(c, r) := WCache_Invalidate cx key (w_cache w) in (set_cache w c, r).

(** [w.store.Get] where the store is known to exist. *)
Definition storeGet (cx : ctx) (key : string) w : W * res (option T) :=
  match w_store w with
  | None => (w, Ok None)
  | Some s => let '(s, r) := store_Get cx key s in (set_store w (Some s), r)
  end.

(** [if w.store != nil { w.store.Set(...) }] *)
Definition storeSet (cx : ctx) (key : string) (v : T) w : W * option error :=
  match w_store w with
  | None => (w, None)
  | Some s => let '(s, r) := store_Set cx key v s in (set_store w (Some s), r)
  end.

Definition updateReg (l : nat) (f : registration -> registration) w : W :=
  set_reg w (update_reg l f (w_reg w)).

(** [if reg.ttlStrategy != nil { reg.ttlStrategy.Record(key) }] *)
Definition stratRecord (g : registration) (t : time) (key : string) w : W :=
  match rg_ttlStrategy g with
  | None => w
  | Some s => set_strats w (alter (strategy_Record t key) s (w_strats w))
  end.

(** [ttl := dflt; if reg.ttlStrategy != nil { ttl = reg.ttlStrategy.TTL(key) }] *)
Definition stratTTL (g : registration) (dflt : duration) (t : time) (key : string) w
    : W * duration :=
  match rg_ttlStrategy g with
  | None => (w, dflt)
  | Some s =>
      match w_strats w !! s with
      | None => (w, dflt)
      | Some st =>
          let '(st, ttl) := strategy_TTL t key st in
          (set_strats w (<[s := st]> (w_strats w)), ttl)
      end
  end.

(** The registration of a key: its pointer and what it points to. *)
Definition lookupReg (key : string) w : option (nat * registration) :=
  l ← getReg key (w_reg w); g ← reg_heap (w_reg w) !! l; Some (l, g).

(** The function [Get] hands to singleflight, and what singleflight answers:
    the result of a call in flight, or that of the function. *)
Definition storeFetch (cx : ctx) (e : env T) (key : string) w : W * res (Value T) :=
  match inflight e with
  | Some r => (w, r)
  | None =>
      let '(w, r) := storeGet cx key w in
      (w, match r with
          | Err er => Err er
          | Ok None => Err ErrNotFound
          | Ok (Some val) => Ok (value_of val (t1 e))
          end)
  end.

Definition loaderFetch (cx : ctx) (e : env T) (loader : ctx -> res T) w : W * res (Value T) :=
  match inflight e with
  | Some r => (w, r)
  | None => (w, match loader cx with Err er => Err er | Ok val => Ok (value_of val (t1 e)) end)
  end.

Definition grace (g : registration) : duration := FailSafeGracePeriod (rg_ttlOpts g).

(** *** Get *)

(** The condition of the hot path of [Get]. *)
Definition fast_path (g : registration) w : bool :=
  negb (Sliding (rg_ttlOpts g)) &&
  float64_eqb (EagerRefreshThreshold (rg_ttlOpts g)) float64_zero &&
  (grace g =? 0) &&
  match rg_ttlStrategy g with None => true | Some _ => false end &&
  negb (w_trace w) && negb (w_metrics w).

(** The value is past its logical expiry, but still in its grace period. *)
Definition is_stale (g : registration) (v : Value T) (now : time) : bool :=
  (0 <? grace g) && time_After now (time_Add (Timestamp v) (rg_currentTTL g)).

(** A value was fetched for the key: the registration and the cache follow. *)
Definition store_refreshed (cx : ctx) (key : string) (l : nat) (g : registration)
    (dflt : duration) (mv : Value T) (t : time) w : W :=
  let '(w, ttl) := stratTTL g dflt t key w in
  let w := updateReg l (set_access ttl (Timestamp mv)) w in
  fst (cacheSet cx t key mv (ttl +₆₄ grace g) w).

(** The refresh of a stale value from the store. *)
Definition get_stale (cx : ctx) (e : env T) (key : string) (l : nat) (g : registration)
    (v : Value T) w : W * res T :=
  let currentTTL := rg_currentTTL g in
  if (0 <? SoftTimeout (rg_ttlOpts g)) && timed_out e then
    (inc_hits (start_task (TSoftRefresh key l currentTTL FromStore) w), Ok (Data v))
  else
    let '(w, r) := storeFetch Background e key w in
    match r with
    | Err er =>
        if negb (errors_Is er ErrNotFound) then (inc_hits w, Ok (Data v))
        else (w, Err ErrNotFound)
    | Ok mv =>
        (inc_hits (store_refreshed (after 2 cx) key l g currentTTL mv (t1 e) w), Ok (Data mv))
    end.

(** Sliding expiration and dynamic TTL adjustment on a hit. *)
Definition slide (cx : ctx) (now : time) (key : string) (l : nat) (g : registration)
    (v : Value T) w : W :=
  let o := rg_ttlOpts g in
  if Sliding o || (0 <? FreqThreshold o) then
    let '(w, ttl) :=
      match rg_ttlStrategy g with
      | Some _ =>
          let '(w, ttl) := stratTTL g 0 now key w in
          (w, if 0 <? FreqThreshold o then TTLOptions_Adjust o ttl (rg_lastAccess g) now else ttl)
      | None => (w, TTLOptions_Adjust o (rg_currentTTL g) (rg_lastAccess g) now)
      end in
    let w := updateReg l (set_access ttl now) w in
    fst (cacheSet cx now key v (ttl +₆₄ grace g) w)
  else w.

(** Eager refresh: a task when the value is close to its logical expiry. *)
Definition eager (now : time) (key : string) (l : nat) (g : registration) (v : Value T) w : W :=
  let threshold := EagerRefreshThreshold (rg_ttlOpts g) in
  match w_store w with
  | Some _ =>
      if float64_ltb float64_zero threshold then
        let currentTTL :=
          match reg_heap (w_reg w) !! l with Some g => rg_currentTTL g | None => 0 end in
        let remainingTTL := time_Sub (time_Add (Timestamp v) currentTTL) now in
        if (0 <? currentTTL) &&
           float64_leb (float64_div (float64_of_Z remainingTTL) (float64_of_Z currentTTL)) threshold
        then start_task (TEagerRefresh key l currentTTL) w
        else w
      else w
  | None => w
  end.

(** The hit branch of [Get] past the hot path. *)
Definition get_slow (cx : ctx) (e : env T) (key : string) (l : nat) (g : registration)
    (v : Value T) w : W * res T :=
  let now := t0 e in
  let w := stratRecord g now key w in
  if is_stale g v now && match w_store w with Some _ => true | None => false end then
    get_stale cx e key l g v w
  else
    let w := slide (after 1 cx) now key l g v w in
    let w := eager now key l g v w in
    (inc_hits w, Ok (Data v)).

(** The miss branch of [Get]. *)
Definition get_miss (cx : ctx) (e : env T) (key : string) (l : nat) (g : registration) w
    : W * res T :=
  let w := inc_misses w in
  match w_store w with
  | None => (w, Err ErrNotFound)
  | Some _ =>
      let '(w, r) := storeFetch (after 1 cx) e key w in
      match r with
      | Err er => if errors_Is er ErrNotFound then (w, Err ErrNotFound) else (w, Err er)
      | Ok mv => (store_refreshed (after 2 cx) key l g (rg_ttl g) mv (t1 e) w, Ok (Data mv))
      end
  end.

Definition Warp_Get (cx : ctx) (e : env T) (key : string) w : W * res T :=
  match lookupReg key w with
  | None => (w, Err ErrUnregistered)
  | Some (l, g) =>
      let '(w, r) := cacheGet (after 0 cx) (t0 e) key w in
      match r with
      | Ok (Some v) =>
          if fast_path g w then (inc_hits w, Ok (Data v))
          else get_slow cx e key l g v w
      | _ => get_miss cx e key l g w
      end
  end.

(** *** Set *)

(** The value the new one is merged with: the cached one, or, for a key with a
    custom merge function, the stored one. *)
Definition set_old (cx : ctx) (key : string) (found : option (Value T)) w
    : W * res (option (Value T)) :=
  match found, w_store w with
  | None, Some _ =>
      if Engine_HasCustom key (w_merges w) then
        let '(w, r) := storeGet cx key w in
        (w, match r with
            | Err er => Err er
            | Ok o => Ok ((fun stored => value_of stored 0) <$> o)
            end)
      else (w, Ok None)
  | _, _ => (w, Ok found)
  end.

Definition set_merged (key : string) (old : option (Value T)) (newVal : Value T) w : Value T :=
  match old with
  | None => newVal
  | Some o => match Engine_Merge (w_merges w) key o newVal with Ok m => m | Err _ => newVal end
  end.

(** The closure [applyLocal] of [Set]. *)
Definition set_local (cx : ctx) (t : time) (key : string) (l : nat) (newVal : Value T)
    (ttl effectiveTTL : duration) (now : time) w : W * option error :=
  let '(w, err) := cacheSet (after 3 cx) t key newVal effectiveTTL w in
  match err with
  | Some er => (w, Some er)
  | None =>
      let '(w, err) := storeSet (after 4 cx) key (Data newVal) w in
      match err with
      | Some er => (w, Some er)
      | None => (updateReg l (set_access ttl now) w, None)
      end
  end.

(** The mode dispatch of [Set] and [Invalidate] around their local part. *)
Definition distribute (cx : ctx) (key : string) (g : registration)
    (applyLocal : W -> W * option error) w : W * option error :=
  match rg_mode g with
  | ModeEventualDistributed =>
      let '(w, err) := applyLocal w in
      match err with
      | Some er => (w, Some er)
      | None =>
          match w_bus w with
          | None => (w, None)
          | Some b => if bus_IsHealthy b then (start_task (TPublish key) w, None) else (w, None)
          end
      end
  | ModeStrongDistributed =>
      match w_bus w with
      | None => (w, Some ErrBusRequired)
      | Some b =>
          if bus_IsHealthy b then
            let '(b, err) := bus_PublishAndAwait (after 2 cx) key (quorumSize g) [] b in
            let w := set_bus w (Some b) in
            match err with
            | Some er => (w, Some er)
            | None => applyLocal w
            end
          else applyLocal w
      end
  | _ => applyLocal w
  end.

Definition Warp_Set (cx : ctx) (e : env T) (key : string) (value : T) w : W * option error :=
  match lookupReg key w with
  | None => (w, Some ErrUnregistered)
  | Some (l, g) =>
      let now := t0 e in
      let w := stratRecord g now key w in
      let newVal := value_of value now in
      let '(w, r) := cacheGet (after 0 cx) now key w in
      match r with
      | Err er => (w, Some er)
      | Ok found =>
          let '(w, r) := set_old (after 1 cx) key found w in
          match r with
          | Err er => (w, Some er)
          | Ok old =>
              let newVal := set_merged key old newVal w in
              let '(w, ttl) := stratTTL g (rg_ttl g) now key w in
              distribute cx key g
                (set_local cx (t1 e) key l newVal ttl (ttl +₆₄ grace g) now) w
          end
      end
  end.

(** *** Invalidate *)

Definition invalidate_local (cx : ctx) (key : string) w : W * option error :=
  let '(w, err) := cacheInvalidate (after 3 cx) key w in
  match err with
  | Some er => (w, Some er)
  | None => (inc_evictions w, None)
  end.

Definition Warp_Invalidate (cx : ctx) (key : string) w : W * option error :=
  match lookupReg key w with
  | None => (w, Some ErrUnregistered)
  | Some (_, g) => distribute cx key g (invalidate_local cx key) w
  end.

Definition InvalidateLocal (cx : ctx) (key : string) w : W * option error :=
  cacheInvalidate cx key w.

(** *** GetOrSet *)

(** The refresh of a stale value by the loader. *)
Definition getOrSet_stale (cx : ctx) (e : env T) (key : string) (l : nat) (g : registration)
    (loader : ctx -> res T) (v : Value T) w : W * res T :=
  let currentTTL := rg_currentTTL g in
  if (0 <? SoftTimeout (rg_ttlOpts g)) && timed_out e then
    (inc_hits (start_task (TSoftRefresh key l currentTTL (FromLoader loader)) w), Ok (Data v))
  else
    let '(w, r) := loaderFetch (after 1 cx) e loader w in
    match r with
    | Err _ => (inc_hits w, Ok (Data v))
    | Ok mv =>
        (inc_hits (store_refreshed (after 2 cx) key l g currentTTL mv (t1 e) w), Ok (Data mv))
    end.

(** The function the miss branch hands to singleflight. *)
Definition getOrSet_load (cx : ctx) (e : env T) (key : string) (l : nat) (g : registration)
    (loader : ctx -> res T) w : W * res (Value T) :=
  let '(w, r) := cacheGet (after 1 cx) (t0 e) key w in
  match r with
  | Err er => (w, Err er)
  | Ok (Some v) => (w, Ok v)
  | Ok None =>
      match loader (after 2 cx) with
      | Err er => (w, Err er)
      | Ok val =>
          let mv := value_of val (t1 e) in
          let '(w, ttl) := stratTTL g (rg_ttl g) (t1 e) key w in
          let w := updateReg l (set_access ttl (Timestamp mv)) w in
          let '(w, _) := Warp_Set (after 3 cx) (mkEnv (t1 e) (t1 e) None false) key (Data mv) w in
          (w, Ok mv)
      end
  end.

Definition getOrSet_miss (cx : ctx) (e : env T) (key : string) (l : nat) (g : registration)
    (loader : ctx -> res T) w : W * res T :=
  let w := inc_misses w in
  let '(w, r) := match inflight e with
                 | Some r => (w, r)
                 | None => getOrSet_load cx e key l g loader w
                 end in
  (w, match r with Err er => Err er | Ok mv => Ok (Data mv) end).

Definition Warp_GetOrSet (cx : ctx) (e : env T) (key : string) (loader : ctx -> res T) w
    : W * res T :=
  let '(r, l) := registry_ensure key (w_reg w) in
  let w := set_reg w r in
  match reg_heap r !! l with
  | None => (w, Err ErrUnregistered)
  | Some g =>
      let now := t0 e in
      let w := stratRecord g now key w in
      let '(w, r) := cacheGet (after 0 cx) now key w in
      match r with
      | Err er => (w, Err er)
      | Ok (Some v) =>
          if is_stale g v now then getOrSet_stale cx e key l g loader v w
          else (inc_hits (slide (after 1 cx) now key l g v w), Ok (Data v))
      | Ok None => getOrSet_miss cx e key l g loader w
      end
  end.

(** *** GetAt *)

Definition Warp_GetAt (cx : ctx) (now : time) (key : string) (at_ : time) w : W * res T :=
  match lookupReg key w with
  | None => (w, Err ErrUnregistered)
  | Some (_, g) =>
      let w := stratRecord g now key w in
      match WCache_GetAt (after 0 cx) now key at_ (w_cache w) with
      | None => (w, Err ErrNotFound)
      | Some (c, r) =>
          let w := set_cache w c in
          match r with
          | Err er => (w, Err er)
          | Ok (Some v) => (inc_hits w, Ok (Data v))
          | Ok None => (inc_misses w, Err ErrNotFound)
          end
      end
  end.

(** *** Registration *)

Definition is_distributed (m : Mode) : bool :=
  match m with ModeEventualDistributed | ModeStrongDistributed => true | _ => false end.

Definition Warp_Register (key : string) (mode : Mode) (ttl : duration) (opts : list TTLOption) w
    : W * bool :=
  let '(r, ok) := registry_Register key mode ttl opts (w_reg w) in
  let w := set_reg w r in
  if ok && is_distributed mode && match w_bus w with Some _ => true | None => false end
  then (start_task (TListen key) w, ok)
  else (w, ok).

Definition Warp_RegisterDynamicTTL (key : string) (mode : Mode) (strat : option nat)
    (opts : list TTLOption) w : W * bool :=
  let '(r, ok) := registry_RegisterDynamicTTL key mode strat opts (w_reg w) in (set_reg w r, ok).

Definition Warp_Unregister (key : string) w : W := set_reg w (registry_Unregister key (w_reg w)).

Definition Warp_SetQuorum (key : string) (replicas : Z) w : W * bool :=
  let '(r, ok) := registry_SetQuorum key replicas (w_reg w) in (set_reg w r, ok).

Definition Warp_SetQuorumAware (key : string) (replicas minZones : Z) w : W * bool :=
  let '(r, ok) := registry_SetQuorumAware key replicas minZones (w_reg w) in (set_reg w r, ok).

Definition Warp_Merge (key : string) (fn : MergeFn T) w : W :=
  set_merges w (Engine_Register key fn (w_merges w)).

(** *** The bus, forwarded *)

Definition Warp_Peers w : list string :=
  match w_bus w with None => [] | Some b => bus_Peers b end.

Definition Warp_Subscribe (cx : ctx) (key : string) w : W * res nat :=
  match w_bus w with
  | None => (w, Err ErrBusRequired)
  | Some b => let '(b, r) := bus_Subscribe cx key b in (set_bus w (Some b), r)
  end.

Definition Warp_Unsubscribe (cx : ctx) (key : string) (ch : nat) w : W * option error :=
  match w_bus w with
  | None => (w, Some ErrBusRequired)
  | Some b => let '(b, r) := bus_Unsubscribe cx key ch b in (set_bus w (Some b), r)
  end.

(** *** Warmup

    [arrivals] are the keys of the registry's snapshot in the order in which
    their fetches complete. [None] is the nil dereference of a key whose
    registration was removed after the snapshot. *)
Definition warm_key (cx : ctx) (t : time) (key : string) (val : T) w : option W :=
  '(l, g) ← lookupReg key w;
  let mv := value_of val t in
  let '(w, ttl) := stratTTL g (rg_ttl g) t key w in
  let w := updateReg l (set_access ttl t) w in
  Some (fst (cacheSet cx t key mv (ttl +₆₄ grace g) w)).

Fixpoint warm_keys (cx : ctx) (i : nat) (t : time) (arrivals : list string) w : option W :=
  match arrivals with
  | [] => Some w
  | key :: arrivals =>
      let '(w, r) := storeGet (after (2 * i) cx) key w in
      match r with
      | Ok (Some val) =>
          match cx (2 * i + 1)%nat with
          | Some _ => Some w
          | None =>
              w ← warm_key (after (2 * i + 1) cx) t key val w;
              warm_keys cx (Datatypes.S i) t arrivals w
          end
      | _ => warm_keys cx (Datatypes.S i) t arrivals w
      end
  end.

Definition Warp_Warmup (cx : ctx) (t : time) (arrivals : list string) w : option W :=
  match w_store w with
  | None => Some w
  | Some _ => warm_keys cx 0 t arrivals w
  end.

(** *** Goroutines *)

(** [select { case w.publishErrCh <- err: default: }] on a channel of capacity 1 *)
Definition report_publish (err : option error) w : W :=
  match err with
  | None => w
  | Some er => match w_publishErrs w with [] => set_publishErrs w [er] | _ => w end
  end.

(** The goroutines a task stands for; [cx] is the context with the deadline the
    task sets, where it sets one. *)

(** After a soft timeout: wait for the fetch and store its value. *)
Definition soft_refresh (cx : ctx) (e : env T) (key : string) (l : nat) (currentTTL : duration)
    (src : source T) w : W :=
  let '(w, r) := match src with
                 | FromStore => storeFetch Background e key w
                 | FromLoader loader => loaderFetch (after 0 cx) e loader w
                 end in
  match r, reg_heap (w_reg w) !! l with
  | Ok mv, Some g =>
      let '(w, ttl) := stratTTL g currentTTL (t1 e) key w in
      fst (cacheSet Background (t1 e) key mv (ttl +₆₄ grace g) w)
  | _, _ => w
  end.

Definition eager_refresh (cx : ctx) (e : env T) (key : string) (l : nat) (currentTTL : duration) w : W :=
  match reg_heap (w_reg w) !! l with
  | None => w
  | Some g =>
      let fetchCtx := if 0 <? SoftTimeout (rg_ttlOpts g) then after 0 cx else Background in
      let '(w, r) := storeFetch fetchCtx e key w in
      match r with
      | Err _ => w
      | Ok mv => store_refreshed Background key l g currentTTL mv (t1 e) w
      end
  end.

Definition publish_task (cx : ctx) (key : string) w : W :=
  match w_bus w with
  | None => w
  | Some b =>
      let pubCtx := if 0 <? w_publishTimeout w then after 0 cx else Background in
      let '(b, err) := bus_Publish pubCtx key [] b in
      report_publish err (set_bus w (Some b))
  end.

(** The start of [listenForInvalidations]. *)
Definition listen_task (key : string) w : W :=
  match w_bus w with
  | None => w
  | Some b =>
      let '(b, r) := bus_Subscribe Background key b in
      let w := set_bus w (Some b) in
      match r with
      | Err _ => w
      | Ok ch => set_tasks w (w_tasks w) (w_listeners w ++ [ch])
      end
  end.

Definition run_task (cx : ctx) (e : env T) (t : task T) w : W :=
  match t with
  | TSoftRefresh key l currentTTL src => soft_refresh cx e key l currentTTL src w
  | TEagerRefresh key l currentTTL => eager_refresh cx e key l currentTTL w
  | TPublish key => publish_task cx key w
  | TListen key => listen_task key w
  end.

(** One turn of the loop [for evt := range ch] of a listener. *)
Definition listener_turn (ch : nat) w : W :=
  match w_bus w with
  | None => w
  | Some b =>
      let '(b, r) := bus_recv ch b in
      let w := set_bus w (Some b) in
      match r with
      | Received evt => fst (cacheInvalidate Background (evt_Key evt) w)
      | RecvClosed => set_tasks w (w_tasks w) (filter (fun c => c <> ch) (w_listeners w))
      | RecvBlocks => w
      end
  end.

(** Run the oldest task. *)
Definition run_next (cx : ctx) (e : env T) w : W :=
  match w_tasks w with
  | [] => w
  | t :: ts => run_task cx e t (set_tasks w ts (w_listeners w))
  end.

(** *** The validator's view of the cache *)

Definition validatorCache_Get (cx : ctx) (now : time) (key : string) w : W * res (option T) :=
  let '(w, r) := cacheGet cx now key w in
  (w, match r with Err er => Err er | Ok o => Ok (Data <$> o) end).

Definition validatorCache_Set (cx : ctx) (now : time) (key : string) (value : T) (_ : duration) w
    : W * option error :=
  let mv := value_of value now in
  let '(w, ttl) :=
    match lookupReg key w with
    | None => (w, 0)
    | Some (l, g) =>
        let w := stratRecord g now key w in
        let '(w, ttl) := stratTTL g (rg_ttl g) now key w in
        (updateReg l (set_access ttl now) w, ttl)
    end in
  cacheSet cx now key mv ttl w.

Definition validatorCache_Invalidate (cx : ctx) (key : string) w : W * option error :=
  cacheInvalidate cx key w.

End Warp.

Arguments WithMetrics {T C S B St} _.
Arguments WithCacheResiliency {T C S B St} _.
Arguments WithTracing {T C S B St} _.

#[export] Instance validatorCache_Cache {T C S B St} `{!Cache C (Value T), !TTLStrategy St}
    : Cache (Warp T C S B St) T := {
  cache_Get := validatorCache_Get;
  cache_Set := validatorCache_Set;
  cache_Invalidate := validatorCache_Invalidate;
  cache_GetAt := None;
}.
