(* ===== verification/WarpCache.v ===== *)
(** * WarpCache: the orchestrator against its interfaces

    The contracts of the cache and of the store, lifted to the calls a [Warp]
    makes ([cacheGet], [cacheSet], [cacheInvalidate], [storeGet], [storeSet]),
    the frame of each helper, and the invariant [warp_ok]. The theorems about
    [Warp] are proved from these lemmas and hold for every lawful cache and
    store. *)

From S2P Require Import Prelude Merge TTL CacheIface Store SyncBus Registry Warp.

Section WarpCache.
Context {T C : Type} `{HCa : !Cache C (Value T), HC : !LawfulCache C (Value T)}.
Implicit Types wc : WCache C.

Definition wc_raw wc : C := match wc with CPlain c => c | CResilient r => inner r end.

Definition wc_ok wc : Prop := cache_ok (wc_raw wc).
Definition wc_view wc (t : time) (k : string) : option (Value T) := cache_view (wc_raw wc) t k.

(** Wrapped or not, and nothing else about the cache object. *)
Definition wc_kind wc : bool := match wc with CPlain _ => false | CResilient _ => true end.

(** Nothing is observably different from [now] on. *)
Definition same_view (now : time) wc wc' : Prop :=
  forall t k, now <= t -> wc_view wc' t k = wc_view wc t k.

Lemma WCache_Get_ok cx now key wc wc' r :
  wc_ok wc -> 0 < now -> WCache_Get cx now key wc = (wc', r) ->
  wc_ok wc' /\ same_view now wc wc' /\ wc_kind wc' = wc_kind wc.
Proof.
  unfold wc_ok, same_view, wc_view. intros H Hn E. destruct wc as [c|[c]]; simpl in *.
  - destruct (cache_Get cx now key c) as [c' r'] eqn:Ec. simplify_eq/=.
    destruct (cache_Get_law _ _ _ _ _ _ H Hn Ec) as (?&?&_). done.
  - unfold ResilientCache_Get in E. simpl in E.
    destruct (cache_Get cx now key c) as [c' r'] eqn:Ec.
    destruct (cache_Get_law _ _ _ _ _ _ H Hn Ec) as (?&?&_). by destruct r'; simplify_eq/=.
Qed.

Lemma WCache_Get_live now key wc :
  wc_ok wc -> 0 < now ->
  exists wc', WCache_Get Background now key wc = (wc', Ok (wc_view wc now key)).
Proof.
  unfold wc_ok, wc_view. intros H Hn. destruct wc as [c|[c]]; simpl in *.
  - destruct (cache_Get Background now key c) as [c' r'] eqn:Ec.
    destruct (cache_Get_law _ _ _ _ _ _ H Hn Ec) as (_&_&Hr&Hl).
    destruct (Hl eq_refl) as [o ->]. rewrite (Hr o eq_refl). by eexists.
  - unfold ResilientCache_Get. simpl. destruct (cache_Get Background now key c) as [c' r'] eqn:Ec.
    destruct (cache_Get_law _ _ _ _ _ _ H Hn Ec) as (_&_&Hr&Hl).
    destruct (Hl eq_refl) as [o ->]. rewrite (Hr o eq_refl). by eexists.
Qed.

(** What a write does to the views: other keys are at most evicted. *)
Definition set_view (now : time) (key : string) (v : Value T) (ttl : duration) wc wc' : Prop :=
  (forall t, now <= t ->
     wc_view wc' t key = if decide (served (expiry now ttl) t) then Some v else None) /\
  (forall t k, k <> key -> now <= t -> wc_view wc' t k = wc_view wc t k \/ wc_view wc' t k = None).

Lemma WCache_Set_ok cx now key v ttl wc wc' r :
  wc_ok wc -> 0 < now -> is_i64 ttl -> WCache_Set cx now key v ttl wc = (wc', r) ->
  wc_ok wc' /\ wc_kind wc' = wc_kind wc /\
  (forall t k, k <> key -> now <= t -> wc_view wc' t k = wc_view wc t k \/ wc_view wc' t k = None) /\
  (r <> None -> same_view now wc wc').
Proof.
  unfold wc_ok, wc_view, same_view. intros H Hn Ht E. destruct wc as [c|[c]]; simpl in *.
  - destruct (cache_Set cx now key v ttl c) as [c' r'] eqn:Ec. simplify_eq/=.
    destruct (cache_Set_law _ _ _ _ _ _ _ _ H Hn Ht Ec) as (?&_&?&Hr&_). split_and!; done.
  - unfold ResilientCache_Set in E. simpl in E.
    destruct (cache_Set cx now key v ttl c) as [c' r'] eqn:Ec.
    destruct (cache_Set_law _ _ _ _ _ _ _ _ H Hn Ht Ec) as (?&_&?&_).
    by destruct r'; simplify_eq/=.
Qed.

Lemma WCache_Set_live now key v ttl wc :
  wc_ok wc -> 0 < now -> is_i64 ttl ->
  exists wc', WCache_Set Background now key v ttl wc = (wc', None) /\ wc_ok wc' /\
    wc_kind wc' = wc_kind wc /\ set_view now key v ttl wc wc'.
Proof.
  unfold wc_ok, set_view, wc_view. intros H Hn Ht. destruct wc as [c|[c]]; simpl in *.
  - destruct (cache_Set Background now key v ttl c) as [c' r'] eqn:Ec.
    destruct (cache_Set_law _ _ _ _ _ _ _ _ H Hn Ht Ec) as (Hok&Hv&Ho&_&Hl).
    rewrite (Hl eq_refl) in *. eexists. split_and!; [done|done|done|by apply Hv|done].
  - unfold ResilientCache_Set. simpl. destruct (cache_Set Background now key v ttl c) as [c' r'] eqn:Ec.
    destruct (cache_Set_law _ _ _ _ _ _ _ _ H Hn Ht Ec) as (Hok&Hv&Ho&_&Hl).
    rewrite (Hl eq_refl) in *. eexists. split_and!; [done|done|done|by apply Hv|done].
Qed.

Lemma WCache_Invalidate_ok cx key wc wc' r :
  wc_ok wc -> WCache_Invalidate cx key wc = (wc', r) ->
  wc_ok wc' /\ wc_kind wc' = wc_kind wc /\
  (forall t k, k <> key -> wc_view wc' t k = wc_view wc t k).
Proof.
  unfold wc_ok, wc_view. intros H E. destruct wc as [c|[c]]; simpl in *.
  - destruct (cache_Invalidate cx key c) as [c' r'] eqn:Ec. simplify_eq/=.
    destruct (cache_Invalidate_law _ _ _ _ _ H Ec) as (?&_&?&_). done.
  - unfold ResilientCache_Invalidate in E. simpl in E.
    destruct (cache_Invalidate cx key c) as [c' r'] eqn:Ec.
    destruct (cache_Invalidate_law _ _ _ _ _ H Ec) as (?&_&?&_). by destruct r'; simplify_eq/=.
Qed.

Lemma WCache_Invalidate_live key wc :
  wc_ok wc ->
  exists wc', WCache_Invalidate Background key wc = (wc', None) /\ wc_ok wc' /\
    wc_kind wc' = wc_kind wc /\
    (forall t, wc_view wc' t key = None) /\
    (forall t k, k <> key -> wc_view wc' t k = wc_view wc t k).
Proof.
  unfold wc_ok, wc_view. intros H. destruct wc as [c|[c]]; simpl in *.
  - destruct (cache_Invalidate Background key c) as [c' r'] eqn:Ec.
    destruct (cache_Invalidate_law _ _ _ _ _ H Ec) as (Hok&Hv&Ho&Hl).
    rewrite (Hl eq_refl) in *. eexists. split_and!; [done|done|done|by apply Hv|done].
  - unfold ResilientCache_Invalidate. simpl. destruct (cache_Invalidate Background key c) as [c' r'] eqn:Ec.
    destruct (cache_Invalidate_law _ _ _ _ _ H Ec) as (Hok&Hv&Ho&Hl).
    rewrite (Hl eq_refl) in *. eexists. split_and!; [done|done|done|by apply Hv|done].
Qed.

End WarpCache.

Section WarpCalls.
Context {T C S B St : Type}.
Context `{HCa : !Cache C (Value T), HC : !LawfulCache C (Value T)}.
Context `{HSa : !Store S T, HS : !LawfulStore S T, !Bus B, !TTLStrategy St}.
Abbreviation W := (Warp T C S B St).
Implicit Types w : W.

(** ** Frames: what a helper may change *)

Lemma stratRecord_frame g t key w : exists st, stratRecord g t key w = set_strats w st.
Proof. unfold stratRecord. case_match; [by eexists|]. exists (w_strats w). by destruct w. Qed.

Lemma stratTTL_frame g d t key w : exists st ttl, stratTTL g d t key w = (set_strats w st, ttl).
Proof.
  unfold stratTTL. destruct (rg_ttlStrategy g) as [s|]; [destruct (w_strats w !! s) as [x|]|].
  - destruct (strategy_TTL t key x). by eexists _, _.
  - exists (w_strats w), d. by destruct w.
  - exists (w_strats w), d. by destruct w.
Qed.

Lemma stratTTL_none g d t key w : rg_ttlStrategy g = None -> stratTTL g d t key w = (w, d).
Proof. unfold stratTTL. by intros ->. Qed.

(** The counters are the only thing the [inc_] functions change. *)
Definition same_state w w' : Prop := exists h m ev, w' = set_counters w h m ev.

Lemma inc_hits_same w : same_state w (inc_hits w).
Proof. unfold inc_hits. case_match; [by eexists _, _, _|]. exists (w_hits w), (w_misses w), (w_evictions w). by destruct w. Qed.
Lemma inc_misses_same w : same_state w (inc_misses w).
Proof. unfold inc_misses. case_match; [by eexists _, _, _|]. exists (w_hits w), (w_misses w), (w_evictions w). by destruct w. Qed.
Lemma inc_evictions_same w : same_state w (inc_evictions w).
Proof. unfold inc_evictions. case_match; [by eexists _, _, _|]. exists (w_hits w), (w_misses w), (w_evictions w). by destruct w. Qed.

(** ** Invariant *)

Record warp_ok w : Prop := {
  wo_cache : wc_ok (w_cache w);
  wo_reg : reg_inv (w_reg w);
  wo_kind : wc_kind (w_cache w) = w_resilient w;
  wo_errs : (length (w_publishErrs w) <= 1)%nat;
  wo_listen : w_bus w = None -> w_listeners w = [];
}.

Lemma warp_ok_ext w w' :
  w_cache w' = w_cache w -> w_reg w' = w_reg w -> w_resilient w' = w_resilient w ->
  w_publishErrs w' = w_publishErrs w -> w_bus w' = w_bus w -> w_listeners w' = w_listeners w ->
  warp_ok w -> warp_ok w'.
Proof. intros E1 E2 E3 E4 E5 E6 [H1 H2 H3 H4 H5]. split; [congruence..|]. rewrite E5, E6. done. Qed.

Lemma warp_ok_cache w c :
  warp_ok w -> wc_ok c -> wc_kind c = wc_kind (w_cache w) -> warp_ok (set_cache w c).
Proof. intros [H1 H2 H3 H4 H5] Hc Hk. split; simpl; try done. congruence. Qed.

Lemma warp_ok_reg w r : warp_ok w -> reg_inv r -> warp_ok (set_reg w r).
Proof. intros [H1 H2 H3 H4 H5] Hr. split; done. Qed.

Lemma updateReg_ok l f w : warp_ok w -> warp_ok (updateReg l f w).
Proof. intros H. apply warp_ok_reg; [done|]. by apply update_reg_inv, (wo_reg _ H). Qed.

Lemma same_state_ok w w' : same_state w w' -> warp_ok w -> warp_ok w'.
Proof. intros (?&?&?&->). by apply warp_ok_ext. Qed.

Lemma stratRecord_ok g t key w : warp_ok w -> warp_ok (stratRecord g t key w).
Proof. destruct (stratRecord_frame g t key w) as [st ->]. by apply warp_ok_ext. Qed.

Lemma stratTTL_ok g d t key w : warp_ok w -> warp_ok (fst (stratTTL g d t key w)).
Proof. destruct (stratTTL_frame g d t key w) as (st&ttl&->). by apply warp_ok_ext. Qed.

Lemma cacheGet_ok cx t key w :
  warp_ok w -> 0 < t -> warp_ok (fst (cacheGet cx t key w)).
Proof.
  intros H Ht. unfold cacheGet. destruct (WCache_Get cx t key (w_cache w)) as [c r] eqn:E.
  destruct (WCache_Get_ok _ _ _ _ _ _ (wo_cache _ H) Ht E) as (?&_&?). by apply warp_ok_cache.
Qed.

Lemma cacheSet_ok cx t key v ttl w :
  warp_ok w -> 0 < t -> is_i64 ttl -> warp_ok (fst (cacheSet cx t key v ttl w)).
Proof.
  intros H Ht Hi. unfold cacheSet. destruct (WCache_Set cx t key v ttl (w_cache w)) as [c r] eqn:E.
  destruct (WCache_Set_ok _ _ _ _ _ _ _ _ (wo_cache _ H) Ht Hi E) as (?&?&_). by apply warp_ok_cache.
Qed.

Lemma cacheInvalidate_ok cx key w : warp_ok w -> warp_ok (fst (cacheInvalidate cx key w)).
Proof.
  intros H. unfold cacheInvalidate. destruct (WCache_Invalidate cx key (w_cache w)) as [c r] eqn:E.
  destruct (WCache_Invalidate_ok _ _ _ _ _ (wo_cache _ H) E) as (?&?&_). by apply warp_ok_cache.
Qed.

Lemma storeGet_frame cx key w : exists s r, storeGet cx key w = (set_store w s, r).
Proof.
  unfold storeGet. destruct (w_store w) eqn:E; [|exists None; eexists; by destruct w; simplify_eq/=].
  destruct (store_Get cx key s). by eexists _, _.
Qed.

Lemma storeSet_frame cx key v w : exists s r, storeSet cx key v w = (set_store w s, r).
Proof.
  unfold storeSet. destruct (w_store w) eqn:E; [|exists None; eexists; by destruct w; simplify_eq/=].
  destruct (store_Set cx key v s). by eexists _, _.
Qed.

Lemma storeGet_ok cx key w : warp_ok w -> warp_ok (fst (storeGet cx key w)).
Proof. destruct (storeGet_frame cx key w) as (s&r&->). by apply warp_ok_ext. Qed.

Lemma storeSet_ok cx key v w : warp_ok w -> warp_ok (fst (storeSet cx key v w)).
Proof. destruct (storeSet_frame cx key v w) as (s&r&->). by apply warp_ok_ext. Qed.

Lemma storeFetch_frame cx e key w : exists s r, storeFetch cx e key w = (set_store w s, r).
Proof.
  unfold storeFetch. case_match; [exists (w_store w); eexists; by destruct w|].
  destruct (storeGet_frame cx key w) as (s&r&->). by eexists _, _.
Qed.

Lemma loaderFetch_frame cx e ld w : exists r, loaderFetch cx e ld w = (w, r).
Proof. unfold loaderFetch. case_match; by eexists. Qed.

(** What the store holds; a Warp without a store holds nothing. *)
Definition w_stored w : gmap string T := match w_store w with Some s => store_view s | None => ∅ end.

Lemma storeGet_view cx key w :
  w_stored (fst (storeGet cx key w)) = w_stored w /\
  forall o, snd (storeGet cx key w) = Ok o -> o = w_stored w !! key.
Proof.
  unfold storeGet, w_stored. destruct (w_store w) as [s|] eqn:E; simpl.
  - destruct (store_Get cx key s) as [s' r] eqn:Es. simpl. by apply (store_Get_law _ _ _ _ _ Es).
  - rewrite E. split; [done|]. intros o [= <-]. by rewrite lookup_empty.
Qed.

Lemma storeSet_view cx key v w :
  snd (storeSet cx key v w) = None -> is_Some (w_store w) ->
  w_stored (fst (storeSet cx key v w)) = <[key := v]> (w_stored w).
Proof.
  unfold storeSet, w_stored. intros Hr [s E]. rewrite E in *.
  destruct (store_Set cx key v s) as [s' r] eqn:Es. simpl in *. by apply (store_Set_law _ _ _ _ _ _ Es).
Qed.

(** ** Live calls *)

Lemma cacheGet_live t key w :
  warp_ok w -> 0 < t ->
  exists c, cacheGet Background t key w = (set_cache w c, Ok (wc_view (w_cache w) t key)) /\
    warp_ok (set_cache w c) /\ same_view t (w_cache w) c.
Proof.
  intros H Ht. unfold cacheGet. destruct (WCache_Get_live t key _ (wo_cache _ H) Ht) as [c E].
  destruct (WCache_Get_ok _ _ _ _ _ _ (wo_cache _ H) Ht E) as (?&?&?). rewrite E.
  exists c. split_and!; [done| |done]. by apply warp_ok_cache.
Qed.

Lemma cacheSet_live t key v ttl w :
  warp_ok w -> 0 < t -> is_i64 ttl ->
  exists c, cacheSet Background t key v ttl w = (set_cache w c, None) /\
    warp_ok (set_cache w c) /\ set_view t key v ttl (w_cache w) c.
Proof.
  intros H Ht Hi. unfold cacheSet.
  destruct (WCache_Set_live t key v ttl _ (wo_cache _ H) Ht Hi) as (c&E&?&?&?). rewrite E.
  exists c. split_and!; [done| |done]. by apply warp_ok_cache.
Qed.

Lemma cacheInvalidate_live key w :
  warp_ok w ->
  exists c, cacheInvalidate Background key w = (set_cache w c, None) /\
    warp_ok (set_cache w c) /\ (forall t, wc_view c t key = None) /\
    (forall t k, k <> key -> wc_view c t k = wc_view (w_cache w) t k).
Proof.
  intros H. unfold cacheInvalidate.
  destruct (WCache_Invalidate_live key _ (wo_cache _ H)) as (c&E&?&?&?&?). rewrite E.
  exists c. split_and!; [done| |done|done]. by apply warp_ok_cache.
Qed.

(** The registration of a key is what its view says. *)
Lemma lookupReg_view key w :
  warp_ok w -> snd <$> lookupReg key w = reg_view (w_reg w) key.
Proof.
  intros _. unfold lookupReg, reg_view. destruct (getReg key (w_reg w)) as [l|]; [|done]. simpl.
  by destruct (reg_heap (w_reg w) !! l).
Qed.

End WarpCalls.
