(* ===== verification/WarpInv.v ===== *)
(** * WarpInv: the invariant of a Warp under every operation

    Every operation and every background task of [Warp.v] keeps [warp_ok], for
    any context, environment, lawful cache, store, bus and strategy. *)

From S2P Require Import Prelude Merge TTL CacheIface Store SyncBus Registry Warp WarpCache.

Section WarpInv.
Context {T C S B St : Type}.
Context `{HCa : !Cache C (Value T), HC : !LawfulCache C (Value T)}.
Context `{HSa : !Store S T, !Bus B, !TTLStrategy St}.
Abbreviation W := (Warp T C S B St).
Implicit Types w : W.
Implicit Types e : env T.

(** Clock readings are never the zero instant. *)
Definition env_ok e : Prop := 0 < t0 e /\ 0 < t1 e.

Lemma start_task_ok t w : warp_ok w -> warp_ok (start_task t w).
Proof. by apply warp_ok_ext. Qed.

Lemma inc_hits_ok w : warp_ok w -> warp_ok (inc_hits w).
Proof. apply same_state_ok, inc_hits_same. Qed.
Lemma inc_misses_ok w : warp_ok w -> warp_ok (inc_misses w).
Proof. apply same_state_ok, inc_misses_same. Qed.
Lemma inc_evictions_ok w : warp_ok w -> warp_ok (inc_evictions w).
Proof. apply same_state_ok, inc_evictions_same. Qed.

Lemma storeFetch_ok cx e key w : warp_ok w -> warp_ok (fst (storeFetch cx e key w)).
Proof. destruct (storeFetch_frame cx e key w) as (s&r&->). by apply warp_ok_ext. Qed.

Lemma store_refreshed_ok cx key l g d mv t w :
  warp_ok w -> 0 < t -> warp_ok (store_refreshed cx key l g d mv t w).
Proof.
  intros H Ht. unfold store_refreshed. pose proof (stratTTL_ok g d t key w H) as H1.
  destruct (stratTTL g d t key w) as [w1 ttl]. apply cacheSet_ok; auto using updateReg_ok with warp.
Qed.

Lemma slide_ok cx now key l g v w :
  warp_ok w -> 0 < now -> warp_ok (slide cx now key l g v w).
Proof.
  intros H Ht. unfold slide. case_match; [|done].
  assert (forall w ttl, warp_ok w ->
    warp_ok (fst (cacheSet cx now key v (ttl +₆₄ grace g) (updateReg l (set_access ttl now) w)))) as Hc
    by (intros; apply cacheSet_ok; auto using updateReg_ok with warp).
  destruct (rg_ttlStrategy g); [|by apply Hc].
  pose proof (stratTTL_ok g 0 now key w H). destruct (stratTTL g 0 now key w). by apply Hc.
Qed.

Lemma eager_ok now key l g v w : warp_ok w -> warp_ok (eager now key l g v w).
Proof. unfold eager. intros H. repeat case_match; auto using start_task_ok. Qed.

#[local] Hint Resolve start_task_ok inc_hits_ok inc_misses_ok inc_evictions_ok storeFetch_ok
  store_refreshed_ok slide_ok eager_ok stratRecord_ok stratTTL_ok cacheGet_ok cacheSet_ok
  cacheInvalidate_ok storeGet_ok storeSet_ok updateReg_ok : core.

Lemma get_stale_ok cx e key l g v w :
  warp_ok w -> env_ok e -> warp_ok (fst (get_stale cx e key l g v w)).
Proof.
  intros H [_ Ht]. unfold get_stale. case_match; [simpl; auto|].
  pose proof (storeFetch_ok Background e key w H) as H1.
  destruct (storeFetch Background e key w) as [w1 r]. case_match; [simpl; auto|].
  case_match; simpl; auto.
Qed.

Lemma Warp_Get_ok cx e key w :
  warp_ok w -> env_ok e -> warp_ok (fst (Warp_Get cx e key w)).
Proof.
  intros H He. pose proof He as [Ht0 Ht1]. unfold Warp_Get. destruct (lookupReg key w) as [[l g]|]; [|done]. pose proof (cacheGet_ok (after 0 cx) (t0 e) key w H Ht0) as H1.
  destruct (cacheGet (after 0 cx) (t0 e) key w) as [w1 r]. simpl in H1.
  assert (warp_ok (fst (get_miss cx e key l g w1))) as Hm.
  { unfold get_miss. destruct (w_store (inc_misses w1)); [|simpl; auto].
    pose proof (storeFetch_ok (after 1 cx) e key _ (inc_misses_ok _ H1)) as H2.
    destruct (storeFetch (after 1 cx) e key (inc_misses w1)) as [w2 r2].
    repeat case_match; simpl; auto. }
  destruct r as [[v|]|]; [|done..]. case_match; [simpl; auto|].
  unfold get_slow. case_match; [apply get_stale_ok; auto|]. simpl. auto.
Qed.

Lemma set_local_ok cx t key l nv ttl eff now w :
  warp_ok w -> 0 < t -> is_i64 eff -> warp_ok (fst (set_local cx t key l nv ttl eff now w)).
Proof.
  intros H Ht Hi. unfold set_local.
  pose proof (cacheSet_ok (after 3 cx) t key nv eff w H Ht Hi) as H1.
  destruct (cacheSet (after 3 cx) t key nv eff w) as [w1 [er|]]; [done|].
  pose proof (storeSet_ok (after 4 cx) key (Data nv) w1 H1) as H2.
  destruct (storeSet (after 4 cx) key (Data nv) w1) as [w2 [er|]]; [done|]. simpl. auto.
Qed.

Lemma set_bus_ok b w : warp_ok w -> warp_ok (set_bus w (Some b)).
Proof. intros [H1 H2 H3 H4 H5]. by split. Qed.

Lemma distribute_ok cx key g (f : W -> W * option error) w :
  (forall w, warp_ok w -> warp_ok (fst (f w))) -> warp_ok w ->
  warp_ok (fst (distribute cx key g f w)).
Proof.
  intros Hf H. unfold distribute. pose proof (Hf w H) as Hw.
  destruct (rg_mode g); [done| | |done].
  - destruct (f w) as [w1 [er|]]; [done|]. simpl in Hw. repeat case_match; simpl; auto.
  - destruct (w_bus w) as [b|]; [|done]. case_match; [|done].
    destruct (bus_PublishAndAwait (after 2 cx) key (quorumSize g) [] b) as [b' [er|]];
      simpl; auto using set_bus_ok.
Qed.

Lemma set_old_ok cx key o w : warp_ok w -> warp_ok (fst (set_old cx key o w)).
Proof.
  intros H. unfold set_old. destruct o, (w_store w); try done. destruct (Engine_HasCustom _ _); [|done].
  pose proof (storeGet_ok cx key w H) as H1. by destruct (storeGet cx key w).
Qed.

Lemma Warp_Set_ok cx e key value w :
  warp_ok w -> env_ok e -> warp_ok (fst (Warp_Set cx e key value w)).
Proof.
  intros H [Ht0 Ht1]. unfold Warp_Set. destruct (lookupReg key w) as [[l g]|]; [|done].
  pose proof (cacheGet_ok (after 0 cx) (t0 e) key _ (stratRecord_ok g (t0 e) key w H) Ht0) as H1.
  destruct (cacheGet (after 0 cx) (t0 e) key _) as [w1 [o|]]; [|done].
  pose proof (set_old_ok (after 1 cx) key o w1 H1) as H2.
  destruct (set_old (after 1 cx) key o w1) as [w2 [old|]]; [|done].
  pose proof (stratTTL_ok g (rg_ttl g) (t0 e) key w2 H2) as H3.
  destruct (stratTTL g (rg_ttl g) (t0 e) key w2) as [w3 ttl].
  apply distribute_ok; [|done]. intros w4 H4. apply set_local_ok; auto with warp.
Qed.

Lemma Warp_Invalidate_ok cx key w : warp_ok w -> warp_ok (fst (Warp_Invalidate cx key w)).
Proof.
  intros H. unfold Warp_Invalidate. destruct (lookupReg key w) as [[l g]|]; [|done].
  apply distribute_ok; [|done]. intros w1 H1. unfold invalidate_local.
  pose proof (cacheInvalidate_ok (after 3 cx) key w1 H1) as H2.
  destruct (cacheInvalidate (after 3 cx) key w1) as [w2 [er|]]; simpl; auto.
Qed.

Lemma registry_ensure_inv key r : reg_inv r -> reg_inv (fst (registry_ensure key r)).
Proof. unfold registry_ensure. case_match; simpl; auto using put_reg_inv. Qed.

Lemma getOrSet_stale_ok cx e key l g ld v w :
  warp_ok w -> env_ok e -> warp_ok (fst (getOrSet_stale cx e key l g ld v w)).
Proof.
  intros H [_ Ht]. unfold getOrSet_stale. case_match; [simpl; auto|].
  destruct (loaderFetch_frame (after 1 cx) e ld w) as [r ->]. case_match; simpl; auto.
Qed.

Lemma getOrSet_miss_ok cx e key l g ld w :
  warp_ok w -> env_ok e -> warp_ok (fst (getOrSet_miss cx e key l g ld w)).
Proof.
  intros H [Ht0 Ht1]. unfold getOrSet_miss. destruct (inflight e); [simpl; auto|].
  unfold getOrSet_load.
  pose proof (cacheGet_ok (after 1 cx) (t0 e) key _ (inc_misses_ok w H) Ht0) as H1.
  destruct (cacheGet (after 1 cx) (t0 e) key _) as [w1 [[v|]|er]]; try done.
  destruct (ld (after 2 cx)); [|done].
  pose proof (stratTTL_ok g (rg_ttl g) (t1 e) key w1 H1) as H2.
  destruct (stratTTL g (rg_ttl g) (t1 e) key w1) as [w2 ttl].
  epose proof (Warp_Set_ok (after 3 cx) (mkEnv (t1 e) (t1 e) None false) key a
    (updateReg l (set_access ttl (t1 e)) w2)) as H3.
  simpl. destruct (Warp_Set _ _ _ _ _) as [w3 er]. apply H3; [|done]. by apply updateReg_ok.
Qed.

Lemma Warp_GetOrSet_ok cx e key ld w :
  warp_ok w -> env_ok e -> warp_ok (fst (Warp_GetOrSet cx e key ld w)).
Proof.
  intros H He. pose proof He as [Ht0 Ht1]. unfold Warp_GetOrSet.
  pose proof (registry_ensure_inv key _ (wo_reg _ H)) as Hr.
  destruct (registry_ensure key (w_reg w)) as [r l]. simpl in Hr.
  pose proof (warp_ok_reg w r H Hr) as H1. destruct (reg_heap r !! l) as [g|]; [|done].
  pose proof (cacheGet_ok (after 0 cx) (t0 e) key _ (stratRecord_ok g (t0 e) key _ H1) Ht0) as H2.
  destruct (cacheGet (after 0 cx) (t0 e) key _) as [w2 [[v|]|er]]; [| |done].
  - case_match; [by apply getOrSet_stale_ok|]. simpl. auto.
  - by apply getOrSet_miss_ok.
Qed.

Lemma Warp_GetAt_ok cx now key at_ w :
  warp_ok w -> 0 < now -> warp_ok (fst (Warp_GetAt cx now key at_ w)).
Proof.
  intros H Hn. unfold Warp_GetAt. destruct (lookupReg key w) as [[l g]|]; [|done].
  pose proof (stratRecord_ok g now key w H) as H1. set (w1 := stratRecord g now key w) in *.
  destruct (WCache_GetAt (after 0 cx) now key at_ (w_cache w1)) as [[c r]|] eqn:E; [|done].
  assert (warp_ok (set_cache w1 c)) as H2.
  { pose proof (wo_cache _ H1) as Hc. apply warp_ok_cache; [done|..]; revert E Hc;
      unfold WCache_GetAt, wc_ok; destruct (w_cache w1) as [c0|]; try done;
      destruct cache_GetAt as [f|] eqn:Ef; simpl; try done;
      destruct (f (after 0 cx) now key at_ c0) as [c1 r1] eqn:Efc; intros [= <- <-]; simpl; try done.
    intros Hc. by destruct (cache_GetAt_law _ _ _ _ _ _ _ _ Ef Hc Hn Efc). }
  repeat case_match; simpl; auto.
Qed.

Lemma registry_Register_inv key m ttl o r : reg_inv r -> reg_inv (fst (registry_Register key m ttl o r)).
Proof. unfold registry_Register. case_match; simpl; auto using put_reg_inv. Qed.

Lemma Warp_Register_ok key m ttl o w : warp_ok w -> warp_ok (fst (Warp_Register key m ttl o w)).
Proof.
  intros H. unfold Warp_Register. pose proof (registry_Register_inv key m ttl o _ (wo_reg _ H)) as Hr.
  destruct (registry_Register key m ttl o (w_reg w)) as [r ok]. pose proof (warp_ok_reg w r H Hr).
  case_match; simpl; auto.
Qed.

Lemma warm_keys_ok cx i t ks w w' :
  warp_ok w -> 0 < t -> warm_keys cx i t ks w = Some w' -> warp_ok w'.
Proof.
  intros H Ht. revert i w H. induction ks as [|k ks IH]; intros i w H; simpl; [by intros [= <-]|].
  pose proof (storeGet_ok (after (2 * i) cx) k w H) as H1. simpl in H1.
  destruct (storeGet _ k w) as [w1 [[v|]|er]]; simpl in H1; [|by apply IH|by apply IH].
  destruct (cx _); [by intros [= <-]|]. unfold warm_key.
  destruct (lookupReg k w1) as [[l g]|]; [|done]. simpl.
  pose proof (stratTTL_ok g (rg_ttl g) t k w1 H1) as H2.
  destruct (stratTTL g (rg_ttl g) t k w1) as [w2 ttl]. apply IH, cacheSet_ok; auto with warp.
Qed.

Lemma report_publish_ok err w : warp_ok w -> warp_ok (report_publish err w).
Proof.
  intros H. unfold report_publish. destruct err; [|done]. destruct (w_publishErrs w) eqn:E; [|done].
  destruct H as [H1 H2 H3 H4 H5]. split; done.
Qed.

Lemma run_task_ok cx e t w : warp_ok w -> env_ok e -> warp_ok (run_task cx e t w).
Proof.
  intros H [_ Ht].
  destruct t as [key l cur src|key l cur|key|key]; cbn [run_task];
    unfold soft_refresh, eager_refresh, publish_task, listen_task.
  - assert (exists s r, (match src with
      | FromStore => storeFetch Background e key w
      | FromLoader ld => loaderFetch (after 0 cx) e ld w end) = (set_store w s, r)) as (s&r&->).
    { destruct src; [apply storeFetch_frame|]. destruct (loaderFetch_frame (after 0 cx) e loader w) as [r ->].
      exists (w_store w), r. by destruct w. }
    assert (warp_ok (set_store w s)) as H1 by (by eapply warp_ok_ext; [..|exact H]).
    destruct r as [mv|]; [|done]. destruct (_ !! l) as [g|]; [|done].
    pose proof (stratTTL_ok g cur (t1 e) key _ H1) as H2.
    destruct (stratTTL g cur (t1 e) key _) as [w2 ttl]. apply cacheSet_ok; auto with warp.
  - destruct (reg_heap (w_reg w) !! l) as [g|]; [|done].
    set (cx' := if _ : bool then _ else _).
    pose proof (storeFetch_ok cx' e key w H) as H1. destruct (storeFetch cx' e key w) as [w1 r].
    case_match; auto.
  - destruct (w_bus w) as [b|]; [|done]. destruct (bus_Publish _ key [] b) as [b' err].
    auto using report_publish_ok, set_bus_ok.
  - destruct (w_bus w) as [b|] eqn:Eb; [|done]. destruct (bus_Subscribe Background key b) as [b' [ch|]];
      [|by apply set_bus_ok]. destruct H as [H1 H2 H3 H4 H5]. by split.
Qed.

Lemma run_next_ok cx e w : warp_ok w -> env_ok e -> warp_ok (run_next cx e w).
Proof.
  intros H He. unfold run_next. destruct (w_tasks w); [done|].
  apply run_task_ok; [|done]. by eapply warp_ok_ext; [..|exact H].
Qed.

Lemma listener_turn_ok ch w : warp_ok w -> warp_ok (listener_turn ch w).
Proof.
  intros H. unfold listener_turn. destruct (w_bus w) as [b|] eqn:Eb; [|done].
  destruct (bus_recv ch b) as [b' r]. pose proof (set_bus_ok b' w H) as H1.
  destruct r; [auto| |done]. destruct H1. by split.
Qed.

(** ** Reachability *)

(** A step of a Warp: a call of an operation, in any context, or the progress
    of a goroutine. *)
Inductive warp_step : W -> W -> Prop :=
| ws_get cx e key w : env_ok e -> warp_step w (fst (Warp_Get cx e key w))
| ws_set cx e key v w : env_ok e -> warp_step w (fst (Warp_Set cx e key v w))
| ws_getOrSet cx e key ld w : env_ok e -> warp_step w (fst (Warp_GetOrSet cx e key ld w))
| ws_getAt cx t key a w : 0 < t -> warp_step w (fst (Warp_GetAt cx t key a w))
| ws_invalidate cx key w : warp_step w (fst (Warp_Invalidate cx key w))
| ws_invalidateLocal cx key w : warp_step w (fst (InvalidateLocal cx key w))
| ws_register key m ttl o w : warp_step w (fst (Warp_Register key m ttl o w))
| ws_registerDynamic key m st o w : warp_step w (fst (Warp_RegisterDynamicTTL key m st o w))
| ws_unregister key w : warp_step w (Warp_Unregister key w)
| ws_quorum key n w : warp_step w (fst (Warp_SetQuorum key n w))
| ws_merge key fn w : warp_step w (Warp_Merge key fn w)
| ws_warmup cx t ks w w' : 0 < t -> Warp_Warmup cx t ks w = Some w' -> warp_step w w'
| ws_task cx e w : env_ok e -> warp_step w (run_next cx e w)
| ws_listener ch w : warp_step w (listener_turn ch w).

Lemma warp_step_ok w w' : warp_step w w' -> warp_ok w -> warp_ok w'.
Proof.
  destruct 1; intros Hok.
  - by apply Warp_Get_ok.
  - by apply Warp_Set_ok.
  - by apply Warp_GetOrSet_ok.
  - by apply Warp_GetAt_ok.
  - by apply Warp_Invalidate_ok.
  - by apply cacheInvalidate_ok.
  - by apply Warp_Register_ok.
  - unfold Warp_RegisterDynamicTTL, registry_RegisterDynamicTTL.
    pose proof (wo_reg _ Hok). destruct (getReg _ _); simpl; auto using put_reg_inv, warp_ok_reg.
  - apply warp_ok_reg; [done|]. by apply Unregister_inv, Hok.
  - unfold Warp_SetQuorum, registry_SetQuorum.
    pose proof (wo_reg _ Hok). destruct (getReg _ _); simpl; auto using update_reg_inv, warp_ok_reg.
  - by eapply warp_ok_ext; [..|exact Hok].
  - unfold Warp_Warmup in *. case_match; [by eapply warm_keys_ok|by simplify_eq].
  - by apply run_next_ok.
  - by apply listener_turn_ok.
Qed.

(** What the options of [New] have in common: they set configuration fields. *)
Definition config_option (o : Option (T := T) (C := C) (S := S) (B := B) (St := St)) : Prop :=
  forall w, exists mt tr rs pt, o w = set_config w mt tr rs pt.

Lemma options_config d :
  config_option WithMetrics /\ config_option WithCacheResiliency /\
  config_option (WithPublishTimeout d) /\ config_option WithTracing.
Proof. by split_and!; intros w; eexists _, _, _, _. Qed.

Lemma New_ok c s b m heap opts :
  cache_ok c -> (forall o, o ∈ opts -> config_option o) ->
  warp_ok (New c s b m heap opts).
Proof.
  intros Hc Ho. unfold New.
  assert (forall w, exists mt tr rs pt,
    foldl (fun w opt => opt w) w opts = set_config w mt tr rs pt) as Hfold.
  { induction opts as [|o opts IH]; intros w; simpl; [by destruct w; eexists _, _, _, _|].
    destruct (Ho o ltac:(left) w) as (mt&tr&rs&pt&->).
    destruct (IH ltac:(intros o' Hin; apply Ho; by right) (set_config w mt tr rs pt))
      as (mt'&tr'&rs'&pt'&->). by eexists _, _, _, _. }
  edestruct Hfold as (mt&tr&rs&pt&->). simpl.
  destruct rs; split; simpl; done || lia || apply new_registry_inv.
Qed.

(** From a new Warp, whatever operations are called in whatever contexts,
    at whatever instants and however its goroutines progress: the cache
    satisfies its own invariant, the sharded registry is well formed, the
    cache stays wrapped exactly when resiliency was asked for, at most one
    publish error is buffered, and there are no listeners without a bus. *)
Theorem Warp_reachable_ok (c : C) (s : option S) (b : option B) (m : option (Engine T))
    (heap : gmap nat St) (opts : list Option) w :
  cache_ok c -> (forall o, o ∈ opts -> config_option o) ->
  rtc warp_step (New c s b m heap opts) w -> warp_ok w.
Proof.
  intros Hc Ho Hr. pose proof (New_ok c s b m heap opts Hc Ho) as H.
  induction Hr; eauto using warp_step_ok.
Qed.

End WarpInv.
