(* ===== verification/WarpProps.v ===== *)
(** * WarpProps: what the operations of a Warp do

    The functional behaviour of [Get], [Set], [Invalidate], [GetOrSet] and
    [Warmup] under a live context, for every lawful cache and store: what they
    answer on every branch, what the cache, the store and the registration
    hold afterwards. *)

From S2P Require Import Prelude Merge TTL CacheIface Store SyncBus Registry Warp WarpCache WarpInv.

Section WarpProps.
Context {T C S B St : Type}.
Context `{HCa : !Cache C (Value T), HC : !LawfulCache C (Value T)}.
Context `{HSa : !Store S T, HS : !LawfulStore S T, !Bus B, !TTLStrategy St}.
Abbreviation W := (Warp T C S B St).
Implicit Types w : W.
Implicit Types e : env T.

(** What the cache of a Warp holds. *)
Definition cached w (t : time) (key : string) : option (Value T) := wc_view (w_cache w) t key.

Definition has_store w : bool := match w_store w with Some _ => true | None => false end.

(** What a fetch of the key brings, without its effect. *)
Definition fetched e (key : string) w : res (Value T) := snd (storeFetch Background e key w).

Lemma fetched_ext e key w w' : w_store w' = w_store w -> fetched e key w' = fetched e key w.
Proof.
  intros E. unfold fetched, storeFetch. destruct (inflight e); [done|]. unfold storeGet. rewrite E.
  destruct (w_store w); [|done]. by destruct (store_Get Background key s).
Qed.

Lemma inc_hits_frame w : w_cache (inc_hits w) = w_cache w /\ w_store (inc_hits w) = w_store w /\
  w_reg (inc_hits w) = w_reg w /\ w_tasks (inc_hits w) = w_tasks w.
Proof. unfold inc_hits. by case_match. Qed.

Lemma inc_misses_frame w : w_cache (inc_misses w) = w_cache w /\ w_store (inc_misses w) = w_store w /\
  w_reg (inc_misses w) = w_reg w /\ w_strats (inc_misses w) = w_strats w.
Proof. unfold inc_misses. by case_match. Qed.

Lemma stratRecord_store g t key w : w_store (stratRecord g t key w) = w_store w.
Proof. by destruct (stratRecord_frame g t key w) as [st ->]. Qed.

(** The frames of the cache writes: the store stays. *)
Lemma cacheSet_store cx t key v ttl w : w_store (fst (cacheSet cx t key v ttl w)) = w_store w.
Proof. unfold cacheSet. by destruct (WCache_Set _ _ _ _ _ _). Qed.

Lemma slide_store cx t key l g v w : w_store (slide cx t key l g v w) = w_store w.
Proof.
  unfold slide. case_match; [|done]. destruct (rg_ttlStrategy g); [|by rewrite cacheSet_store].
  destruct (stratTTL_frame g 0 t key w) as (st&ttl&->). by rewrite cacheSet_store.
Qed.

Lemma eager_store t key l g v w : w_store (eager t key l g v w) = w_store w.
Proof. unfold eager. destruct (w_store w) eqn:E; [|done]. by repeat case_match. Qed.

(** ** Get *)

(** The specification of [Get]: what it answers, from what the cache holds,
    whether there is a store, and what a fetch brings. *)
Definition get_answer e (g : registration) (c : option (Value T)) (store : bool)
    (f : res (Value T)) : res T :=
  match c with
  | Some v =>
      if is_stale g v (t0 e) && store && negb ((0 <? SoftTimeout (rg_ttlOpts g)) && timed_out e)
      then match f with
           | Ok mv => Ok (Data mv)
           | Err er => if errors_Is er ErrNotFound then Err ErrNotFound else Ok (Data v)
           end
      else Ok (Data v)
  | None =>
      if store then
        match f with
        | Ok mv => Ok (Data mv)
        | Err er => Err (if errors_Is er ErrNotFound then ErrNotFound else er)
        end
      else Err ErrNotFound
  end.

Lemma fast_path_fresh g (v : Value T) t w : fast_path g w = true -> is_stale g v t = false.
Proof.
  unfold fast_path, is_stale. intros H. bool_to_prop.
  assert (grace g = 0) as -> by done. done.
Qed.

Lemma get_stale_answer e key l g v w :
  snd (get_stale Background e key l g v w) =
    if (0 <? SoftTimeout (rg_ttlOpts g)) && timed_out e then Ok (Data v)
    else match fetched e key w with
         | Ok mv => Ok (Data mv)
         | Err er => if errors_Is er ErrNotFound then Err ErrNotFound else Ok (Data v)
         end.
Proof.
  unfold get_stale, fetched. case_match; [done|].
  destruct (storeFetch Background e key w) as [w1 [mv|er]]; [done|]. simpl.
  by destruct (errors_Is er ErrNotFound).
Qed.

Lemma get_miss_answer e key l g w :
  snd (get_miss Background e key l g w) = get_answer e g None (has_store w) (fetched e key w).
Proof.
  unfold get_miss, has_store. simpl. destruct (inc_misses_frame w) as (_&Es&_).
  rewrite <- (fetched_ext e key w (inc_misses w) Es), <- Es.
  destruct (w_store (inc_misses w)); [|done]. unfold fetched.
  change (after 1 Background) with Background.
  destruct (storeFetch Background e key (inc_misses w)) as [w1 [mv|er]]; [done|]. simpl.
  by destruct (errors_Is er ErrNotFound).
Qed.

Lemma Warp_Get_answers_eq e key w :
  warp_ok w -> env_ok e ->
  snd (Warp_Get Background e key w) =
    match reg_view (w_reg w) key with
    | None => Err ErrUnregistered
    | Some g => get_answer e g (cached w (t0 e) key) (has_store w) (fetched e key w)
    end.
Proof.
  intros H [Ht0 Ht1]. rewrite <- (lookupReg_view key w H). unfold Warp_Get.
  destruct (lookupReg key w) as [[l g]|]; [simpl|done].
  change (after 0 Background) with Background.
  destruct (cacheGet_live (t0 e) key w H Ht0) as (c&->&_). unfold cached.
  destruct (wc_view (w_cache w) (t0 e) key) as [v|].
  - destruct (fast_path g (set_cache w c)) eqn:Ef.
    { simpl. by rewrite (fast_path_fresh _ v (t0 e) _ Ef). }
    unfold get_slow. simpl.
    rewrite !stratRecord_store. change (w_store (set_cache w c)) with (w_store w). fold (has_store w).
    destruct (is_stale g v (t0 e) && has_store w) eqn:Es; [|done].
    rewrite get_stale_answer. rewrite (fetched_ext e key w) by (by rewrite stratRecord_store).
    by destruct ((0 <? SoftTimeout (rg_ttlOpts g)) && timed_out e).
  - rewrite get_miss_answer. by rewrite (fetched_ext e key w).
Qed.

(** C6. [Get] answers its specification on every branch: an unregistered key
    is an error; a cached value is returned unless it is stale and can be
    refreshed; a stale value is replaced by what the store holds, reported
    missing when the store no longer has it, and returned as it is when the
    store fails or the soft timeout fires; a missing value is fetched. *)
Theorem Warp_Get_answers e key w :
  warp_ok w -> env_ok e ->
  snd (Warp_Get Background e key w) =
    match reg_view (w_reg w) key with
    | None => Err ErrUnregistered
    | Some g => get_answer e g (cached w (t0 e) key) (has_store w) (fetched e key w)
    end.
Proof. apply Warp_Get_answers_eq. Qed.

Lemma lookupReg_Some key w l g :
  lookupReg key w = Some (l, g) -> getReg key (w_reg w) = Some l /\ reg_view (w_reg w) key = Some g.
Proof.
  unfold lookupReg, reg_view. destruct (getReg key (w_reg w)) as [l'|]; [|done]. simpl.
  destruct (reg_heap (w_reg w) !! l') as [g'|]; [|done]. simpl. by intros [= <- <-].
Qed.

Lemma lookupReg_update key l g f w :
  lookupReg key w = Some (l, g) -> lookupReg key (updateReg l f w) = Some (l, f g).
Proof.
  unfold lookupReg. simpl. change (getReg key (update_reg l f (w_reg w))) with (getReg key (w_reg w)).
  destruct (getReg key (w_reg w)) as [l'|]; [|done]. simpl.
  destruct (reg_heap (w_reg w) !! l') as [g'|] eqn:E; [|done]. simpl. intros [= -> ->].
  by rewrite lookup_alter_eq, E.
Qed.

Lemma lookupReg_ext key w w' : w_reg w' = w_reg w -> lookupReg key w' = lookupReg key w.
Proof. unfold lookupReg. by intros ->. Qed.

(** A fetched value is written to the cache and the registration. *)
Lemma store_refreshed_live key l g d mv t w :
  warp_ok w -> 0 < t ->
  exists ttl st c,
    store_refreshed Background key l g d mv t w =
      set_cache (updateReg l (set_access ttl (Timestamp mv)) (set_strats w st)) c /\
    set_view t key mv (ttl +₆₄ grace g) (w_cache w) c /\
    (rg_ttlStrategy g = None -> ttl = d).
Proof.
  intros H Ht. unfold store_refreshed.
  destruct (stratTTL_frame g d t key w) as (st&ttl&E). rewrite E.
  set (w1 := updateReg l (set_access ttl (Timestamp mv)) (set_strats w st)).
  assert (warp_ok w1) as H1 by (apply updateReg_ok; by eapply warp_ok_ext; [..|exact H]).
  destruct (cacheSet_live t key mv (ttl +₆₄ grace g) w1 H1 Ht) as (c&->&_&Hv); [auto with warp|].
  exists ttl, st, c. split_and!; [done|done|]. intros Hs. rewrite stratTTL_none in E by done. congruence.
Qed.

(** A cached value that is not stale is served from the cache alone. *)
Lemma Get_hit_fresh e key w l g v :
  warp_ok w -> env_ok e -> lookupReg key w = Some (l, g) ->
  cached w (t0 e) key = Some v -> is_stale g v (t0 e) = false ->
  exists w', Warp_Get Background e key w = (w', Ok (Data v)) /\ w_store w' = w_store w.
Proof.
  intros H [Ht0 Ht1] Hl Hv Hs. unfold Warp_Get. rewrite Hl.
  change (after 0 Background) with Background. unfold cached in Hv.
  destruct (cacheGet_live (t0 e) key w H Ht0) as (c&->&_). rewrite Hv.
  case_match; [eexists; split; [done|]; by rewrite (proj1 (proj2 (inc_hits_frame _)))|].
  unfold get_slow. rewrite Hs. simpl. eexists. split; [done|].
  rewrite (proj1 (proj2 (inc_hits_frame _))), eager_store, slide_store, stratRecord_store. done.
Qed.

Lemma fetched_found e key w x :
  inflight e = None -> snd (storeGet Background key w) = Ok (Some x) ->
  fetched e key w = Ok (value_of x (t1 e)).
Proof.
  intros Hi Hx. unfold fetched, storeFetch. rewrite Hi.
  destruct (storeGet Background key w). simpl in *. by subst.
Qed.

(** The miss branch fills the cache. *)
Lemma get_miss_fills e key w l g x :
  warp_ok w -> 0 < t1 e -> inflight e = None -> lookupReg key w = Some (l, g) ->
  snd (storeGet Background key w) = Ok (Some x) ->
  exists w1 ttl, get_miss Background e key l g w = (w1, Ok x) /\
    (rg_ttlStrategy g = None -> ttl = rg_ttl g) /\
    lookupReg key w1 = Some (l, set_access ttl (t1 e) g) /\
    (forall t, t1 e <= t -> cached w1 t key =
       if decide (served (expiry (t1 e) (ttl +₆₄ grace g)) t) then Some (value_of x (t1 e)) else None).
Proof.
  intros H Ht1 Hi Hl Hx. unfold get_miss.
  destruct (inc_misses_frame w) as (_&Es&Er&_). pose proof (inc_misses_ok w H) as H1.
  pose proof (fetched_found e key w x Hi Hx) as Hf.
  rewrite <- (fetched_ext e key w (inc_misses w) Es) in Hf. unfold fetched in Hf.
  assert (is_Some (w_store (inc_misses w))) as [s ->].
  { rewrite Es. unfold storeGet in Hx. destruct (w_store w); [by eexists|done]. }
  change (after 1 Background) with Background. change (after 2 Background) with Background.
  destruct (storeFetch_frame Background e key (inc_misses w)) as (s'&r&Ef).
  rewrite Ef in *. simpl in Hf. subst r.
  assert (warp_ok (set_store (inc_misses w) s')) as H2 by (by eapply warp_ok_ext; [..|exact H1]).
  destruct (store_refreshed_live key l g (rg_ttl g) (value_of x (t1 e)) (t1 e) _ H2 Ht1)
    as (ttl&st&c'&->&[Hv _]&Httl).
  eexists _, ttl. split_and!; [done|done| |exact Hv].
  rewrite (lookupReg_ext _ (updateReg l (set_access ttl (t1 e)) w)); [by apply lookupReg_update|].
  simpl. by rewrite Er.
Qed.

Lemma Warp_Get_miss_eq e key w l g :
  warp_ok w -> 0 < t0 e -> lookupReg key w = Some (l, g) -> cached w (t0 e) key = None ->
  exists c, Warp_Get Background e key w = get_miss Background e key l g (set_cache w c) /\
    warp_ok (set_cache w c).
Proof.
  intros H Ht Hl Hc. unfold Warp_Get. rewrite Hl. change (after 0 Background) with Background.
  unfold cached in Hc. destruct (cacheGet_live (t0 e) key w H Ht) as (c&->&Hok&_).
  rewrite Hc. by exists c.
Qed.

(** A miss is filled from the store: [Get] of a key that is not cached
    returns what the store holds and leaves it in the cache, stamped with the
    instant of the fetch, until the TTL plus the grace period runs out; so a
    second [Get] before the logical expiry returns the same value and does not
    touch the store. *)
Theorem Warp_Get_fills e e' key w (g : registration) (x : T) :
  warp_ok w -> env_ok e -> env_ok e' -> inflight e = None ->
  reg_view (w_reg w) key = Some g -> cached w (t0 e) key = None ->
  snd (storeGet Background key w) = Ok (Some x) ->
  let '(w1, r1) := Warp_Get Background e key w in
  r1 = Ok x /\
  exists ttl, (rg_ttlStrategy g = None -> ttl = rg_ttl g) /\
    reg_view (w_reg w1) key = Some (set_access ttl (t1 e) g) /\
    (forall t, t1 e <= t -> cached w1 t key =
       if decide (served (expiry (t1 e) (ttl +₆₄ grace g)) t) then Some (value_of x (t1 e)) else None) /\
    (t1 e <= t0 e' -> served (expiry (t1 e) (ttl +₆₄ grace g)) (t0 e') ->
     t0 e' <= t1 e + ttl ->
     let '(w2, r2) := Warp_Get Background e' key w1 in r2 = Ok x /\ w_store w2 = w_store w1).
Proof.
  intros H He He' Hi Hg Hc Hx. pose proof He as [Ht0 Ht1].
  pose proof (Warp_Get_ok Background e key w H He) as Hok.
  rewrite <- (lookupReg_view key w H) in Hg.
  destruct (lookupReg key w) as [[l g']|] eqn:El; simplify_eq/=.
  destruct (Warp_Get_miss_eq e key w l g H Ht0 El Hc) as (c&E&Hok1).
  destruct (get_miss_fills e key (set_cache w c) l g x Hok1 Ht1 Hi) as (w1&ttl&E1&Httl&Hl1&Hv); [done| |].
  { revert Hx. unfold storeGet. simpl. destruct (w_store w); [|done]. by destruct (store_Get _ _ _). }
  rewrite E, E1 in *. split; [done|]. exists ttl.
  split_and!; [done|by apply lookupReg_Some in Hl1 as [_ ->]|exact Hv|]. intros Hle Hsv Hlt.
  destruct (Get_hit_fresh e' key w1 l _ (value_of x (t1 e)) Hok He' Hl1 ltac:(rewrite Hv, decide_True; done)) as (w3&->&Hst);
    [|done].
  unfold is_stale, time_After, time_Add. simpl.
  assert ((t1 e + ttl <? t0 e') = false) as -> by (by apply Z.ltb_ge). by rewrite andb_false_r.
Qed.

(** ** Set *)

(** Nothing is observably different, from [now] on: the registrations, what the
    cache and the store hold, the bus, the goroutines. *)
Record unchanged (now : time) w w' : Prop := {
  un_ok : warp_ok w';
  un_reg : w_reg w' = w_reg w;
  un_view : same_view now (w_cache w) (w_cache w');
  un_stored : w_stored w' = w_stored w;
  un_has : has_store w' = has_store w;
  un_bus : w_bus w' = w_bus w;
  un_tasks : w_tasks w' = w_tasks w;
  un_merges : w_merges w' = w_merges w;
  un_trace : w_trace w' = w_trace w;
  un_metrics : w_metrics w' = w_metrics w;
}.

Lemma unchanged_refl now w : warp_ok w -> unchanged now w w.
Proof. by split. Qed.

Lemma unchanged_trans now w w1 w2 : unchanged now w w1 -> unchanged now w1 w2 -> unchanged now w w2.
Proof.
  intros [] []. split; try congruence. intros t k Ht. rewrite un_view1 by done. by apply un_view0.
Qed.

Lemma unchanged_strats now st w : warp_ok w -> unchanged now w (set_strats w st).
Proof. intros H. split; try done. by eapply warp_ok_ext; [..|exact H]. Qed.

Lemma unchanged_stored now w s r cx key :
  warp_ok w -> storeGet cx key w = (set_store w s, r) -> unchanged now w (set_store w s).
Proof.
  intros H E. pose proof (proj1 (storeGet_view cx key w)) as Hv. rewrite E in Hv.
  split; try done; [by eapply warp_ok_ext; [..|exact H]|].
  unfold has_store. simpl. unfold storeGet in E. destruct (w_store w) as [s0|] eqn:Es.
  - destruct (store_Get cx key s0) as [s1 r1]. apply (f_equal (fun p => w_store (fst p))) in E.
    simpl in E. by rewrite <- E.
  - apply (f_equal (fun p => w_store (fst p))) in E. simpl in E. by rewrite <- E, Es.
Qed.

(** What a write of [v] is merged with, and the value written. *)
Definition effective_old e key w : option (Value T) :=
  match cached w (t0 e) key with
  | Some o => Some o
  | None =>
      if has_store w && Engine_HasCustom key (w_merges w)
      then (fun s => value_of s 0) <$> (w_stored w !! key) else None
  end.

Definition merged_value e key (v : T) w : Value T :=
  set_merged key (effective_old e key w) (value_of v (t0 e)) w.

Lemma set_old_live e key w :
  warp_ok w ->
  exists w' r, set_old Background key (cached w (t0 e) key) w = (w', r) /\ unchanged (t0 e) w w' /\
    (forall o, r = Ok o -> o = effective_old e key w) /\
    (Engine_HasCustom key (w_merges w) = false -> is_ok r = true /\ w_store w' = w_store w).
Proof.
  intros H. unfold set_old, effective_old, has_store.
  assert (forall x : option (Value T), exists w' r, (w, Ok x) = (w', r) /\ unchanged (t0 e) w w' /\
    (forall o, r = Ok o -> o = x) /\
    (Engine_HasCustom key (w_merges w) = false -> is_ok r = true /\ w_store w' = w_store w)) as Hret.
  { intros x. exists w, (Ok x). split_and!; [done|by apply unchanged_refl|by intros o [= <-]|done]. }
  destruct (cached w (t0 e) key) as [v|]; [by apply Hret|].
  destruct (w_store w) as [s0|] eqn:Es; [|by apply Hret].
  destruct (Engine_HasCustom key (w_merges w)) eqn:Ecu; simpl; [|by apply Hret].
  destruct (storeGet_frame Background key w) as (s&r&E). pose proof (proj2 (storeGet_view Background key w)) as Ho.
  rewrite E in *. eexists _, _. split_and!; [done|by eapply unchanged_stored| |done].
  intros o. destruct r as [o'|]; [|done]. intros [= <-]. by rewrite (Ho o' eq_refl).
Qed.

(** [Set] up to the mode dispatch: it has changed nothing yet. *)
Lemma Set_prepare e key v w l g :
  warp_ok w -> env_ok e -> lookupReg key w = Some (l, g) ->
  exists w1, unchanged (t0 e) w w1 /\
    (Engine_HasCustom key (w_merges w) = false -> w_store w1 = w_store w) /\
    ((Engine_HasCustom key (w_merges w) = true /\
      exists er, Warp_Set Background e key v w = (w1, Some er)) \/
     exists ttl, (rg_ttlStrategy g = None -> ttl = rg_ttl g) /\
       Warp_Set Background e key v w =
         distribute Background key g
           (set_local Background (t1 e) key l (merged_value e key v w) ttl (ttl +₆₄ grace g) (t0 e)) w1).
Proof.
  intros H [Ht0 Ht1] Hl. unfold Warp_Set. rewrite Hl.
  change (after 0 Background) with Background. change (after 1 Background) with Background.
  destruct (stratRecord_frame g (t0 e) key w) as [st ->].
  pose proof (unchanged_strats (t0 e) st w H) as U1.
  destruct (cacheGet_live (t0 e) key _ (un_ok _ _ _ U1) Ht0) as (c&->&Hok&Hsv).
  set (w2 := set_cache (set_strats w st) c) in *.
  assert (unchanged (t0 e) w w2) as U2 by (by split).
  assert (wc_view (w_cache (set_strats w st)) (t0 e) key = cached w2 (t0 e) key) as ->
    by (symmetry; by apply Hsv).
  destruct (set_old_live e key w2 Hok) as (w3&r&->&U3&Hr&Hcu).
  pose proof (unchanged_trans _ _ _ _ U2 U3) as U. change (w_merges w2) with (w_merges w) in Hcu.
  destruct r as [old|er].
  2:{ exists w3. destruct (Engine_HasCustom key (w_merges w)); [|by destruct (Hcu eq_refl)].
      split_and!; [done|done|left; split; [done|by eexists]]. }
  assert (effective_old e key w2 = effective_old e key w) as Eo.
  { unfold effective_old. assert (cached w2 (t0 e) key = cached w (t0 e) key) as -> by by apply U2. done. }
  rewrite (Hr old eq_refl), Eo.
  destruct (stratTTL_frame g (rg_ttl g) (t0 e) key w3) as (st'&ttl&Et). rewrite Et.
  exists (set_strats w3 st'). split_and!.
  - eapply unchanged_trans; [exact U|]. by apply unchanged_strats, U.
  - intros Hc. simpl. by rewrite (proj2 (Hcu Hc)).
  - right. exists ttl. split.
    + intros Hs. rewrite stratTTL_none in Et by done. congruence.
    + unfold merged_value, set_merged. by rewrite (un_merges _ _ _ U).
Qed.

Lemma distribute_None cx key g f w w' :
  distribute cx key g f w = (w', None) ->
  exists w0 w1, (w0 = w \/ exists b, w0 = set_bus w (Some b)) /\ f w0 = (w1, None) /\
    (w' = w1 \/ w' = start_task (TPublish key) w1).
Proof.
  unfold distribute. destruct (rg_mode g).
  - intros E. exists w, w'. eauto.
  - destruct (f w) as [w1 [er|]] eqn:E; [done|]. intros E'. exists w, w1. split; [by left|]. split; [done|].
    repeat case_match; simplify_eq; eauto.
  - destruct (w_bus w) as [b|]; [|done]. case_match; [|intros E; exists w, w'; eauto].
    destruct (bus_PublishAndAwait _ _ _ _ b) as [b' [er|]]; [done|]. intros E.
    exists (set_bus w (Some b')), w'. eauto 6.
  - intros E. exists w, w'. eauto.
Qed.

Lemma storeSet_effect cx key v w w' :
  storeSet cx key v w = (w', None) ->
  (exists s, w' = set_store w s) /\ has_store w' = has_store w /\
  w_stored w' = if has_store w then <[key := v]> (w_stored w) else w_stored w.
Proof.
  unfold storeSet, has_store, w_stored. destruct (w_store w) as [s|] eqn:E.
  - destruct (store_Set cx key v s) as [s' r] eqn:Es. intros [= <- ->]. simpl.
    split_and!; [by eexists|done|]. by apply (store_Set_law _ _ _ _ _ _ Es).
  - intros [= <-]. rewrite E. split_and!; [|done|done]. exists None. by destruct w; simplify_eq/=.
Qed.

Lemma set_local_live t key l g nv ttl now w w' :
  warp_ok w -> 0 < t -> lookupReg key w = Some (l, g) ->
  set_local Background t key l nv ttl (ttl +₆₄ grace g) now w = (w', None) ->
  set_view t key nv (ttl +₆₄ grace g) (w_cache w) (w_cache w') /\
  w_stored w' = (if has_store w then <[key := Data nv]> (w_stored w) else w_stored w) /\
  lookupReg key w' = Some (l, set_access ttl now g).
Proof.
  intros H Ht Hl. unfold set_local. change (after 3 Background) with Background.
  change (after 4 Background) with Background.
  destruct (cacheSet_live t key nv (ttl +₆₄ grace g) w H Ht) as (c&->&Hok&Hv); [auto with warp|].
  destruct (storeSet Background key (Data nv) (set_cache w c)) as [w2 [er|]] eqn:Est; [done|].
  intros [= <-]. apply storeSet_effect in Est as ([s ->]&_&Hs).
  split_and!; [done|exact Hs|by apply lookupReg_update].
Qed.

Lemma Set_effect e e' key (v : T) w w' (g : registration) :
  warp_ok w -> env_ok e -> env_ok e' -> reg_view (w_reg w) key = Some g ->
  Warp_Set Background e key v w = (w', None) ->
  let nv := merged_value e key v w in
  w_stored w' = (if has_store w then <[key := Data nv]> (w_stored w) else w_stored w) /\
  exists ttl, (rg_ttlStrategy g = None -> ttl = rg_ttl g) /\
    reg_view (w_reg w') key = Some (set_access ttl (t0 e) g) /\
    (forall t, t1 e <= t -> cached w' t key =
       if decide (served (expiry (t1 e) (ttl +₆₄ grace g)) t) then Some nv else None) /\
    (t1 e <= t0 e' -> served (expiry (t1 e) (ttl +₆₄ grace g)) (t0 e') ->
     t0 e' <= Timestamp nv + ttl -> snd (Warp_Get Background e' key w') = Ok (Data nv)).
Proof.
  intros H He He' Hg HS0 nv. pose proof He as [Ht0 Ht1].
  pose proof (Warp_Set_ok Background e key v w H He) as Hok'. rewrite HS0 in Hok'. simpl in Hok'.
  rewrite <- (lookupReg_view key w H) in Hg.
  destruct (lookupReg key w) as [[l g']|] eqn:El; simplify_eq/=.
  destruct (Set_prepare e key v w l g H He El) as (w1&U&_&[[_ [er E]]|(ttl&Httl&E)]); [congruence|].
  rewrite E in HS0. apply distribute_None in HS0 as (w2&w3&Hw2&HL&Hw').
  assert (w_reg w2 = w_reg w /\ w_stored w2 = w_stored w /\ has_store w2 = has_store w) as (F1&F2&F3)
    by (destruct U, Hw2 as [->|[b ->]]; done).
  assert (warp_ok w2) as Hok2.
  { destruct Hw2 as [->|[b ->]]; [apply U|]. apply set_bus_ok, U. }
  destruct (set_local_live (t1 e) key l g nv ttl (t0 e) w2 w3) as (Hv&Hst&Hl3); [done|done| |done|].
  { rewrite <- El. by apply lookupReg_ext. }
  assert (w_stored w' = w_stored w3 /\ w_cache w' = w_cache w3 /\ w_reg w' = w_reg w3) as (E1&E2&E3)
    by (by destruct Hw' as [->| ->]).
  split; [by rewrite E1, Hst, F2, F3|].
  assert (lookupReg key w' = Some (l, set_access ttl (t0 e) g)) as Hl' by (by rewrite (lookupReg_ext _ w3)).
  assert (forall t, t1 e <= t -> cached w' t key =
       if decide (served (expiry (t1 e) (ttl +₆₄ grace g)) t) then Some nv else None) as Hc
    by (unfold cached; rewrite E2; apply Hv).
  exists ttl. split_and!; [done|by apply lookupReg_Some in Hl' as [_ ->]|done|]. intros Hle Hsv Hlt.
  destruct (Get_hit_fresh e' key w' l _ nv Hok' He' Hl' ltac:(rewrite Hc, decide_True; done)) as (w4&->&_); [|done].
  unfold is_stale, time_After, time_Add. simpl.
  assert ((Timestamp nv + ttl <? t0 e') = false) as -> by (by apply Z.ltb_ge). by rewrite andb_false_r.
Qed.

(** C1. A successful [Set], in any mode, makes the merged value the current
    one everywhere: the cache serves it until the TTL plus the grace period
    runs out, the store holds it, and the registration records the TTL; a
    [Get] before the logical expiry returns it. The merged value is that of
    the merge engine with the cached value, or with the stored one for a key
    with a custom merge function. *)
Theorem Warp_Set_correct e e' key (v : T) w w' (g : registration) :
  warp_ok w -> env_ok e -> env_ok e' -> reg_view (w_reg w) key = Some g ->
  Warp_Set Background e key v w = (w', None) ->
  let nv := merged_value e key v w in
  w_stored w' = (if has_store w then <[key := Data nv]> (w_stored w) else w_stored w) /\
  exists ttl, (rg_ttlStrategy g = None -> ttl = rg_ttl g) /\
    reg_view (w_reg w') key = Some (set_access ttl (t0 e) g) /\
    (forall t, t1 e <= t -> cached w' t key =
       if decide (served (expiry (t1 e) (ttl +₆₄ grace g)) t) then Some nv else None) /\
    (t1 e <= t0 e' -> served (expiry (t1 e) (ttl +₆₄ grace g)) (t0 e') ->
     t0 e' <= Timestamp nv + ttl -> snd (Warp_Get Background e' key w') = Ok (Data nv)).
Proof. apply Set_effect. Qed.

(** The registry, what the cache serves and what the store holds are as they
    were. *)
Definition as_before (now : time) w w' : Prop :=
  w_reg w' = w_reg w /\ same_view now (w_cache w) (w_cache w') /\ w_stored w' = w_stored w.

(** C7. A write of a key in strong distributed mode takes effect only after
    its quorum acknowledged: when the bus is missing, or is healthy and the
    quorum publication fails, [Set] and [Invalidate] report it, and the cache,
    the store and the registration are as before. *)
Theorem Warp_strong_all_or_nothing e key (v : T) w (g : registration) :
  warp_ok w -> env_ok e -> reg_view (w_reg w) key = Some g -> rg_mode g = ModeStrongDistributed ->
  (forall b, w_bus w = Some b -> bus_IsHealthy b = true /\
     snd (bus_PublishAndAwait Background key (quorumSize g) [] b) <> None) ->
  let '(w1, r1) := Warp_Set Background e key v w in
  let '(w2, r2) := Warp_Invalidate Background key w in
  r1 <> None /\ as_before (t0 e) w w1 /\ r2 <> None /\ as_before (t0 e) w w2 /\
  (w_bus w = None -> r2 = Some ErrBusRequired).
Proof.
  intros H He Hg Hm Hb. rewrite <- (lookupReg_view key w H) in Hg.
  destruct (lookupReg key w) as [[l g']|] eqn:El; simplify_eq/=.
  assert (forall f w1, w_bus w1 = w_bus w -> exists w2 er,
    distribute Background key g f w1 = (w2, Some er) /\ w_reg w2 = w_reg w1 /\
    w_cache w2 = w_cache w1 /\ w_stored w2 = w_stored w1 /\
    (w_bus w = None -> er = ErrBusRequired)) as Hd.
  { intros f w1 Ew. unfold distribute. rewrite Hm, Ew. change (after 2 Background) with Background.
    destruct (w_bus w) as [b|]; [|by eexists _, _].
    destruct (Hb b eq_refl) as [-> Hne].
    destruct (bus_PublishAndAwait Background key (quorumSize g) [] b) as [b' [er|]]; [|done].
    by eexists _, _. }
  assert (exists w1 er, Warp_Set Background e key v w = (w1, Some er) /\ as_before (t0 e) w w1) as (w1&er&->&F1).
  { destruct (Set_prepare e key v w l g H He El) as (w1&U&_&[[_ [er E]]|(ttl&_&E)]).
    - exists w1, er. split; [done|]. split_and!; apply U.
    - match type of E with _ = distribute _ _ _ ?f _ =>
        destruct (Hd f w1 (un_bus _ _ _ U)) as (w2&er&E'&E1&E2&E3&_) end.
      exists w2, er. rewrite E. split; [exact E'|]. unfold as_before. rewrite E1, E2, E3. split_and!; apply U. }
  unfold Warp_Invalidate. rewrite El.
  destruct (Hd (invalidate_local Background key) w eq_refl) as (w2&er2&->&E1&E2&E3&E4).
  unfold as_before in *. rewrite E1, E2, E3. split_and!; [done|apply F1..|done|done|done|done|].
  intros En. by rewrite (E4 En).
Qed.

(** ** Invalidate *)

Lemma distribute_local_live cx key g f w w' :
  distribute cx key g f w = (w', None) ->
  (forall w0 w1, warp_ok w0 -> w_cache w0 = w_cache w -> f w0 = (w1, None) ->
     warp_ok w1 /\ (forall t, cached w1 t key = None) /\
     (forall t k, k <> key -> cached w1 t k = cached w t k)) ->
  warp_ok w ->
  (forall t, cached w' t key = None) /\ (forall t k, k <> key -> cached w' t k = cached w t k).
Proof.
  intros E Hf H. apply distribute_None in E as (w0&w1&Hw0&E&Hw').
  assert (warp_ok w0 /\ w_cache w0 = w_cache w) as [H0 Ec].
  { destruct Hw0 as [->|[b ->]]; [done|]. split; [by apply set_bus_ok|done]. }
  destruct (Hf w0 w1 H0 Ec E) as (_&Hk&Ho).
  by destruct Hw' as [->| ->].
Qed.

(** C8. A successful [Invalidate] removes the key from the cache and nothing
    else, so that the next [Get] fetches the key from the store, or reports it
    missing when there is none. *)
Theorem Warp_Invalidate_correct e key w w' :
  warp_ok w -> env_ok e -> Warp_Invalidate Background key w = (w', None) ->
  (forall t, cached w' t key = None) /\
  (forall t k, k <> key -> cached w' t k = cached w t k) /\
  w_store w' = w_store w /\
  snd (Warp_Get Background e key w') =
    match w_store w with
    | None => Err ErrNotFound
    | Some _ => match fetched e key w with
                | Ok mv => Ok (Data mv)
                | Err er => Err (if errors_Is er ErrNotFound then ErrNotFound else er)
                end
    end.
Proof.
  intros H He E. pose proof (Warp_Invalidate_ok Background key w H) as H'. rewrite E in H'. simpl in H'.
  unfold Warp_Invalidate in E. destruct (lookupReg key w) as [[l g]|] eqn:El; [|done].
  assert (w_store w' = w_store w /\ w_reg w' = w_reg w) as [Es Er].
  { apply distribute_None in E as (w0&w1&Hw0&E&Hw'). unfold invalidate_local, cacheInvalidate in E.
    destruct (WCache_Invalidate _ key (w_cache w0)) as [c [er|]]; [done|]. injection E as <-.
    assert (w_store (inc_evictions (set_cache w0 c)) = w_store w0 /\
            w_reg (inc_evictions (set_cache w0 c)) = w_reg w0) as [? ?].
    { unfold inc_evictions. by case_match. }
    destruct Hw0 as [->|[b ->]], Hw' as [->| ->]; done. }
  destruct (distribute_local_live _ _ _ _ _ _ E) as [Hk Ho]; [|done|].
  { intros w0 w1 H0 Ec. unfold invalidate_local. change (after 3 Background) with Background.
    destruct (cacheInvalidate_live key w0 H0) as (c&->&Hok&Hk&Ho). intros [= <-].
    split; [by apply inc_evictions_ok|]. unfold cached. unfold inc_evictions. rewrite Ec in Ho.
    by case_match. }
  split_and!; [done|done|done|]. rewrite Warp_Get_answers_eq by done.
  rewrite Hk, Er, <- (lookupReg_view key w H), El. simpl. unfold has_store. rewrite Es.
  rewrite (fetched_ext e key w w' Es). by destruct (w_store w).
Qed.

(** ** GetOrSet *)

Lemma registry_ensure_lookup key w :
  warp_ok w -> exists g, let '(r, l) := registry_ensure key (w_reg w) in
    lookupReg key (set_reg w r) = Some (l, g) /\ reg_heap r !! l = Some g /\
    g = default default_registration (reg_view (w_reg w) key).
Proof.
  intros H. unfold registry_ensure, lookupReg, reg_view.
  destruct (getReg key (w_reg w)) as [l|] eqn:E; simpl.
  - rewrite E. destruct (ri_alloc _ (wo_reg _ H) key l E) as [g Hg]. exists g. simpl.
    by rewrite Hg.
  - exists default_registration. rewrite getReg_put_reg by apply H.
    rewrite decide_True by done. simpl. by rewrite lookup_insert_eq.
Qed.

(** A local write of a plain key succeeds when the store takes it. *)
Lemma Set_succeeds e key v w l g :
  warp_ok w -> env_ok e -> lookupReg key w = Some (l, g) -> rg_mode g = ModeStrongLocal ->
  Engine_HasCustom key (w_merges w) = false ->
  (forall s x, w_store w = Some s -> snd (store_Set Background key x s) = None) ->
  exists w', Warp_Set Background e key v w = (w', None).
Proof.
  intros H He Hl Hm Hcu Hst. pose proof He as [Ht0 Ht1].
  destruct (Set_prepare e key v w l g H He Hl) as (w1&U&Hs&[[Hc _]|(ttl&_&E)]); [congruence|].
  rewrite E. unfold distribute. rewrite Hm. unfold set_local.
  change (after 3 Background) with Background. change (after 4 Background) with Background.
  destruct (cacheSet_live (t1 e) key (merged_value e key v w) (ttl +₆₄ grace g) w1 (un_ok _ _ _ U) Ht1) as (c&->&_);
    [auto with warp|].
  unfold storeSet. simpl. rewrite (Hs Hcu). destruct (w_store w) as [s|] eqn:Es; [|by eexists].
  specialize (Hst s (Data (merged_value e key v w)) eq_refl).
  destruct (store_Set Background key _ s) as [s' r]. simpl in Hst. subst r. by eexists.
Qed.

(** What the loading function of [GetOrSet] leaves behind. *)
Definition loaded e key (x : T) (g : registration) w w' : Prop :=
  (has_store w = true -> w_stored w' = <[key := x]> (w_stored w)) /\
  exists ttl, reg_view (w_reg w') key = Some (set_access ttl (t1 e) g) /\
    forall t, t1 e <= t -> cached w' t key =
      if decide (served (expiry (t1 e) (ttl +₆₄ grace g)) t) then Some (value_of x (t1 e)) else None.

Lemma getOrSet_load_correct e key w l g loader :
  warp_ok w -> env_ok e -> t0 e <= t1 e -> lookupReg key w = Some (l, g) ->
  rg_mode g = ModeStrongLocal -> Engine_HasCustom key (w_merges w) = false ->
  (forall s x, w_store w = Some s -> snd (store_Set Background key x s) = None) ->
  cached w (t0 e) key = None -> cached w (t1 e) key = None ->
  let '(w', r) := getOrSet_load Background e key l g loader w in
  match loader Background with
  | Err er => r = Err er /\ forall t k, t0 e <= t -> cached w' t k = cached w t k
  | Ok x => r = Ok (value_of x (t1 e)) /\ loaded e key x g w w'
  end.
Proof.
  intros H [Ht0 Ht1] Hle Hl Hm Hcu Hst Hc0 Hc1. unfold getOrSet_load, cached in *.
  change (after 1 Background) with Background. change (after 2 Background) with Background.
  change (after 3 Background) with Background.
  destruct (cacheGet_live (t0 e) key w H Ht0) as (c&->&H1&Hsv). rewrite Hc0.
  destruct (loader Background) as [x|er]; [|done].
  destruct (stratTTL_frame g (rg_ttl g) (t1 e) key (set_cache w c)) as (st&ttl&->).
  set (w2 := updateReg l (set_access ttl (t1 e)) (set_strats (set_cache w c) st)).
  set (e2 := mkEnv (t1 e) (t1 e) None false).
  assert (warp_ok w2) as H2 by (apply updateReg_ok; by eapply warp_ok_ext; [..|exact H1]).
  assert (lookupReg key w2 = Some (l, set_access ttl (t1 e) g)) as Hl2 by (by apply lookupReg_update).
  assert (env_ok e2) as He2 by (by split).
  destruct (Set_succeeds e2 key x w2 l _ H2 He2 Hl2 Hm Hcu Hst) as [w3 E].
  simpl. fold w2 e2. rewrite E. split; [done|]. apply lookupReg_Some in Hl2 as [_ Hv2].
  destruct (Set_effect e2 e2 key x w2 w3 _ H2 He2 He2 Hv2 E) as (Hs&ttl'&_&Hr&Hc&_).
  assert (merged_value e2 key x w2 = value_of x (t1 e)) as Emv.
  { unfold merged_value, effective_old, cached. simpl. rewrite (Hsv (t1 e) key) by lia.
    rewrite Hc1, Hcu, andb_false_r. done. }
  rewrite Emv in *. split; [intros Hh; rewrite Hs; change (has_store w2) with (has_store w); by rewrite Hh|].
  exists ttl'. split; [exact Hr|exact Hc].
Qed.

Lemma getOrSet_load_answer e key l g loader w :
  warp_ok w -> env_ok e -> cached w (t0 e) key = None ->
  let '(w', r) := getOrSet_load Background e key l g loader w in
  match loader Background with
  | Err er => r = Err er /\ w_reg w' = w_reg w /\ same_view (t0 e) (w_cache w) (w_cache w') /\
              w_stored w' = w_stored w
  | Ok x => r = Ok (value_of x (t1 e))
  end.
Proof.
  intros H [Ht0 Ht1] Hc0. unfold getOrSet_load, cached in *.
  change (after 1 Background) with Background. change (after 2 Background) with Background.
  destruct (cacheGet_live (t0 e) key w H Ht0) as (c&->&H1&Hsv). rewrite Hc0.
  destruct (loader Background) as [x|er]; [|done]. destruct (stratTTL _ _ _ _ _) as [w1 ttl].
  by destruct (Warp_Set _ _ _ _ _).
Qed.

(** What [GetOrSet] is to answer, given what the cache serves for the key and
    what the loader answers: [shared], the result of the fetch, is that of the
    call in flight if there is one. *)
Definition getOrSet_answer (e : env T) (g : registration) (cv : option (Value T)) (load : res T) : res T :=
  let shared := match inflight e with
                | Some r => match r with Ok mv => Ok (Data mv) | Err er => Err er end
                | None => load
                end in
  match cv with
  | None => shared
  | Some v =>
      if is_stale g v (t0 e) then
        if (0 <? SoftTimeout (rg_ttlOpts g)) && timed_out e then Ok (Data v)
        else match shared with Ok x => Ok x | Err _ => Ok (Data v) end
      else Ok (Data v)
  end.

(** C9. [GetOrSet] with a live context, in every mode: a cached value that is not
    stale is answered, and the loader has no influence on anything; a stale one
    is answered when the soft timeout fires or the fetch fails, and otherwise the
    fetched value is; on a miss the answer is that of the fetch, error included.
    The fetch is the loader, or the call in flight for the key. On a miss with no
    call in flight, a failed load leaves the store, the registration and what the
    cache serves as they were, except that an unknown key is now registered with
    the defaults; and a loaded value is then in the store and served by the cache
    until the TTL plus the grace period runs out, provided the key is in local
    mode and has no custom merge function, the store takes the write, and no
    value of the key has come into the cache by the time it is loaded. *)
Theorem Warp_GetOrSet_correct e key (loader : ctx -> res T) w :
  warp_ok w -> env_ok e ->
  let g := default default_registration (reg_view (w_reg w) key) in
  let '(w', r) := Warp_GetOrSet Background e key loader w in
  r = getOrSet_answer e g (cached w (t0 e) key) (loader Background) /\
  (forall v, cached w (t0 e) key = Some v -> is_stale g v (t0 e) = false ->
     forall loader', Warp_GetOrSet Background e key loader' w = (w', r)) /\
  (cached w (t0 e) key = None -> inflight e = None ->
   (forall er, loader Background = Err er ->
      reg_view (w_reg w') key = Some g /\ same_view (t0 e) (w_cache w) (w_cache w') /\ w_stored w' = w_stored w) /\
   (forall x, loader Background = Ok x ->
      rg_mode g = ModeStrongLocal -> Engine_HasCustom key (w_merges w) = false ->
      (forall s y, w_store w = Some s -> snd (store_Set Background key y s) = None) ->
      t0 e <= t1 e -> cached w (t1 e) key = None ->
      loaded e key x g w w')).
Proof.
  intros H He gd. subst gd. pose proof He as [Ht0 Ht1]. unfold Warp_GetOrSet.
  destruct (registry_ensure_lookup key w H) as [g Hg].
  pose proof (registry_ensure_inv key _ (wo_reg _ H)) as Hri.
  destruct (registry_ensure key (w_reg w)) as [rg l]. destruct Hg as (Hl&Hh&Eg).
  rewrite <- Eg in *. rewrite Hh.
  destruct (stratRecord_frame g (t0 e) key (set_reg w rg)) as [st ->].
  change (after 0 Background) with Background. change (after 1 Background) with Background.
  assert (warp_ok (set_strats (set_reg w rg) st)) as H1
    by (eapply warp_ok_ext; [..|apply (warp_ok_reg w rg H Hri)]; done).
  destruct (cacheGet_live (t0 e) key _ H1 Ht0) as (c&->&H2&Hsv).
  change (wc_view (w_cache (set_strats (set_reg w rg) st)) (t0 e) key) with (cached w (t0 e) key).
  destruct (cached w (t0 e) key) as [v|] eqn:Ev; cbn zeta.
  { unfold getOrSet_answer. destruct (is_stale g v (t0 e)) eqn:Es.
    - unfold getOrSet_stale, loaderFetch. change (after 1 Background) with Background.
      destruct ((0 <? SoftTimeout (rg_ttlOpts g)) && timed_out e);
        [split; [done|split; [intros v1 [= <-] ?; congruence|done]]|].
      destruct (inflight e) as [[mv|er]|]; [split; [done|split; [intros v1 [= <-] ?; congruence|done]]..|].
      destruct (loader Background); (split; [done|split; [intros v1 [= <-] ?; congruence|done]]).
    - split; [done|]. by split. }
  unfold getOrSet_miss. set (w2 := inc_misses (set_cache _ c)).
  assert (forall t k, t0 e <= t -> cached w2 t k = cached w t k) as Hcv.
  { intros t k Ht. unfold cached, w2. rewrite (proj1 (inc_misses_frame _)). by apply Hsv. }
  assert (w_reg w2 = rg /\ w_store w2 = w_store w /\ w_merges w2 = w_merges w) as (E1&E2&E3)
    by (unfold w2, inc_misses; by case_match).
  assert (lookupReg key w2 = Some (l, g)) as Hl2 by (by rewrite (lookupReg_ext _ (set_reg w rg))).
  assert (warp_ok w2) as Hok2 by (by apply inc_misses_ok).
  unfold getOrSet_answer. destruct (inflight e) as [[mv|er]|]; [split; [done|by split]..|].
  pose proof (getOrSet_load_answer e key l g loader w2 Hok2 He ltac:(rewrite Hcv; done)) as Ha.
  assert (rg_mode g = ModeStrongLocal -> Engine_HasCustom key (w_merges w) = false ->
      (forall s y, w_store w = Some s -> snd (store_Set Background key y s) = None) ->
      t0 e <= t1 e -> cached w (t1 e) key = None ->
      let '(w', r) := getOrSet_load Background e key l g loader w2 in
      match loader Background with
      | Err er => r = Err er /\ forall t k, t0 e <= t -> cached w' t k = cached w2 t k
      | Ok x => r = Ok (value_of x (t1 e)) /\ loaded e key x g w2 w'
      end) as Hload.
  { intros Hm Hcu Hst Hle Hc1. apply (getOrSet_load_correct e key w2 l g loader Hok2 He Hle Hl2 Hm).
    - by rewrite E3.
    - intros s y. rewrite E2. by apply Hst.
    - rewrite Hcv by done. exact Ev.
    - rewrite Hcv by done. exact Hc1. }
  destruct (getOrSet_load Background e key l g loader w2) as [w' r].
  destruct (loader Background) as [x|er]; (split; [|split]).
  - by rewrite Ha.
  - done.
  - intros _ _. split; [done|]. intros y [= <-] Hm Hcu Hst Hle Hc1.
    destruct (Hload Hm Hcu Hst Hle Hc1) as [_ Hld]. unfold loaded, has_store, w_stored in *. by rewrite E2 in Hld.
  - by destruct Ha as [-> _].
  - done.
  - intros _ _. split; [|done]. intros er' _. destruct Ha as (_ & Hreg & Hview & Hstored). split_and!.
    + rewrite Hreg. by apply lookupReg_Some in Hl2 as [_ ?].
    + intros t k Ht. etrans; [exact (Hview t k Ht)|]. by apply Hcv.
    + rewrite Hstored. unfold w_stored. by rewrite E2.
Qed.

(** The hot path does no TTL bookkeeping: for a key registered with
    [WithDynamicTTL] alone (a frequency threshold, but no sliding, grace,
    eager refresh or strategy) on a Warp without tracing and metrics, any
    number of hits leaves the registration, and so the TTL, as it was. *)
Theorem Warp_Get_hot_path_keeps_ttl e key w (freq inc dec min max ttl : duration) (m : Mode)
    (last : time) (q : Z) (v : Value T) :
  warp_ok w -> env_ok e -> w_trace w = false -> w_metrics w = false ->
  reg_view (w_reg w) key =
    Some (mkReg ttl None (apply_TTLOptions [WithDynamicTTL freq inc dec min max]) m ttl last q) ->
  cached w (t0 e) key = Some v ->
  let '(w', r) := Warp_Get Background e key w in
  r = Ok (Data v) /\ w_reg w' = w_reg w /\ w_tasks w' = w_tasks w /\
  same_view (t0 e) (w_cache w) (w_cache w').
Proof.
  intros H [Ht0 Ht1] Htr Hme Hg Hv. rewrite <- (lookupReg_view key w H) in Hg. unfold Warp_Get.
  destruct (lookupReg key w) as [[l g]|]; [|done]. simpl in Hg. injection Hg as ->.
  change (after 0 Background) with Background. unfold cached in Hv.
  destruct (cacheGet_live (t0 e) key w H Ht0) as (c&->&_&Hsv). rewrite Hv.
  unfold fast_path. simpl. rewrite Htr, Hme. simpl.
  unfold inc_hits. simpl. rewrite Hme. done.
Qed.

(** ** Warmup *)

(** What warming keys may have put into the cache. *)
Definition warmed (t : time) (ks : list string) (m : gmap string T) w w' : Prop :=
  forall u k v, t <= u -> cached w' u k = Some v ->
    cached w u k = Some v \/ (k ∈ ks /\ exists x, m !! k = Some x /\ v = value_of x t).

Lemma reg_view_updateReg_Some k l f w :
  is_Some (reg_view (w_reg w) k) -> is_Some (reg_view (w_reg (updateReg l f w)) k).
Proof.
  unfold reg_view. simpl. change (getReg k (update_reg l f (w_reg w))) with (getReg k (w_reg w)).
  destruct (getReg k (w_reg w)) as [l'|]; [|done]. simpl. by rewrite lookup_alter_is_Some.
Qed.

Lemma warm_key_live t key x w :
  warp_ok w -> 0 < t -> is_Some (reg_view (w_reg w) key) ->
  exists w', warm_key Background t key x w = Some w' /\ warp_ok w' /\ w_stored w' = w_stored w /\
    (forall k, is_Some (reg_view (w_reg w) k) -> is_Some (reg_view (w_reg w') k)) /\
    warmed t [key] {[key := x]} w w'.
Proof.
  intros H Ht Hr. unfold warm_key. rewrite <- (lookupReg_view key w H) in Hr.
  destruct (lookupReg key w) as [[l g]|]; [simpl|by destruct Hr].
  destruct (stratTTL_frame g (rg_ttl g) t key w) as (st&ttl&->).
  set (w1 := updateReg l (set_access ttl t) (set_strats w st)).
  assert (warp_ok w1) as H1 by (apply updateReg_ok; by eapply warp_ok_ext; [..|exact H]).
  destruct (cacheSet_live t key (value_of x t) (ttl +₆₄ grace g) w1 H1 Ht) as (c&->&Hok&Hv&Ho);
    [auto with warp|].
  eexists. split_and!; [done|done|done| |].
  - intros k Hk. by apply (reg_view_updateReg_Some k l _ (set_strats w st)).
  - intros u k v Hu Hc. unfold cached in *. simpl in *. destruct (decide (k = key)) as [->|Hne].
    + rewrite Hv in Hc by done. case_decide; simplify_eq. right. split; [by left|].
      exists x. by rewrite lookup_singleton_eq.
    + destruct (Ho u k Hne Hu) as [E|E]; rewrite E in Hc; [by left|done].
Qed.

Lemma warm_keys_live t ks m i w :
  warp_ok w -> 0 < t -> w_stored w = m -> (forall k, k ∈ ks -> is_Some (reg_view (w_reg w) k)) ->
  exists w', warm_keys Background i t ks w = Some w' /\ warp_ok w' /\ w_stored w' = m /\
    warmed t ks m w w'.
Proof.
  intros H Ht. revert i w H. induction ks as [|key ks IH]; intros i w H Hm Hreg.
  { exists w. split_and!; [done|done|done|]. intros u k v _ Hv. by left. }
  cbn [warm_keys]. change (after (2 * i) Background) with Background.
  change (Background (2 * i + 1)%nat) with (@None error). change (after (2 * i + 1) Background) with Background.
  destruct (storeGet_frame Background key w) as (s&r&E).
  destruct (storeGet_view Background key w) as [Hv Ho]. rewrite E in *. simpl in Hv, Ho.
  assert (warp_ok (set_store w s)) as H1 by (by eapply warp_ok_ext; [..|exact H]).
  assert (forall k, k ∈ ks -> is_Some (reg_view (w_reg w) k)) as Hreg' by (intros; apply Hreg; by right).
  assert (forall w1, warp_ok w1 -> w_stored w1 = m ->
    (forall k, k ∈ ks -> is_Some (reg_view (w_reg w1) k)) -> warmed t (key :: ks) m w w1 ->
    exists w', warm_keys Background (Datatypes.S i) t ks w1 = Some w' /\ warp_ok w' /\ w_stored w' = m /\
      warmed t (key :: ks) m w w') as Hcont.
  { intros w1 Hok1 Hm1 Hr1 Hw1. destruct (IH (Datatypes.S i) w1 Hok1 Hm1 Hr1) as (w'&E'&Hok'&Hm'&Hw').
    exists w'. split_and!; [done|done|done|]. intros u k v Hu Hc.
    destruct (Hw' u k v Hu Hc) as [Hc1|[Hin Hx]]; [by apply Hw1|]. right. split; [by right|done]. }
  destruct r as [[x|]|er].
  - destruct (warm_key_live t key x _ H1 Ht) as (w1&->&Hok1&Hs1&Hr1&Hw1); [apply Hreg; left|].
    apply Hcont; [done|congruence|intros k Hk; by apply Hr1, Hreg'|].
    intros u k v Hu Hc. destruct (Hw1 u k v Hu Hc) as [?|[->%list_elem_of_singleton (y&Hy&->)]]; [by left|].
    right. split; [left|]. exists x. rewrite lookup_singleton_eq in Hy. simplify_eq. by rewrite <- (Ho _ eq_refl).
  - apply Hcont; [done|congruence|exact Hreg'|]. intros u k v _ Hc. by left.
  - apply Hcont; [done|congruence|exact Hreg'|]. intros u k v _ Hc. by left.
Qed.

(** [Warmup] never dereferences a missing registration when the keys it
    processes are registered, does not change the store, and fills the cache
    only from it: whatever the cache serves afterwards it served before, or it
    is the stored value of a processed key, stamped with the instant of the
    warmup. *)
Theorem Warp_Warmup_correct (t : time) (arrivals : list string) w :
  warp_ok w -> 0 < t -> (forall k, k ∈ arrivals -> is_Some (reg_view (w_reg w) k)) ->
  exists w', Warp_Warmup Background t arrivals w = Some w' /\ warp_ok w' /\
    w_stored w' = w_stored w /\ warmed t arrivals (w_stored w) w w'.
Proof.
  intros H Ht Hreg. unfold Warp_Warmup. destruct (w_store w) eqn:Es; [by apply warm_keys_live|].
  exists w. split_and!; [done|done|done|]. intros u k v _ Hv. by left.
Qed.

(** A key whose registration is removed between the snapshot of [Warmup]
    and the processing of its fetched value makes [Warmup] dereference a nil
    registration. *)
Theorem Warp_Warmup_unregistered (t : time) (key : string) (rest : list string) (x : T) w :
  warp_ok w -> reg_view (w_reg w) key = None -> snd (storeGet Background key w) = Ok (Some x) ->
  Warp_Warmup Background t (key :: rest) w = None.
Proof.
  intros H Hr Hx. unfold Warp_Warmup.
  assert (is_Some (w_store w)) as [s ->] by (unfold storeGet in Hx; destruct (w_store w); [by eexists|done]).
  cbn [warm_keys]. change (after (2 * 0) Background) with Background.
  destruct (storeGet_frame Background key w) as (s'&r&E). rewrite E in *. simpl in Hx. subst r.
  change (Background (2 * 0 + 1)%nat) with (@None error). unfold warm_key.
  rewrite <- (lookupReg_view key w H) in Hr.
  rewrite (lookupReg_ext key w) by done. by destruct (lookupReg key w).
Qed.

End WarpProps.
