(* ===== verification/Propagation.v ===== *)
(** * Propagation: invalidation across nodes

    Two nodes ([Warp]s) that share an in-memory bus: an eventual write on one
    node, its background publication, and the invalidation listeners that
    [Register] starts ([listenForInvalidations] of [src/core/core.go]). *)

From S2P Require Import Prelude Merge TTL CacheIface Store SyncBus Registry Warp WarpCache WarpInv WarpProps.

Section Propagation.
Context {T C S St : Type} {M : Type -> Type} `{!SafeMap M, !LawfulSafeMap M}.
Context `{HCa : !Cache C (Value T), HC : !LawfulCache C (Value T)}.
Context `{HSa : !Store S T, HS : !LawfulStore S T, !TTLStrategy St}.
Abbreviation W := (Warp T C S (InMemoryBus M) St).
Implicit Types w : W.
Implicit Types e : env T.

(** An eventual write leaves the bus alone and starts its publication. *)
Lemma eventual_Set_starts e key v w w' g b :
  warp_ok w -> env_ok e -> reg_view (w_reg w) key = Some g -> rg_mode g = ModeEventualDistributed ->
  w_bus w = Some b -> Warp_Set Background e key v w = (w', None) ->
  w_bus w' = Some b /\ w_tasks w' = w_tasks w ++ [TPublish key] /\
  has_store w' = has_store w.
Proof.
  intros H He Hg Hm Hb E. rewrite <- (lookupReg_view key w H) in Hg.
  destruct (lookupReg key w) as [[l g']|] eqn:El; simplify_eq/=.
  destruct (Set_prepare e key v w l g H He El) as (w1&U&_&[[_ [er E1]]|(ttl&_&E1)]); [congruence|].
  rewrite E1 in E. unfold distribute in E. rewrite Hm in E.
  destruct (set_local _ _ _ _ _ _ _ _ w1) as [w2 [er|]] eqn:EL; [done|].
  assert (w_bus w2 = w_bus w1 /\ w_tasks w2 = w_tasks w1 /\ has_store w2 = has_store w1) as (F1&F2&F3).
  { unfold set_local in EL. unfold cacheSet in EL. destruct (WCache_Set _ _ _ _ _ _) as [c [er|]]; [done|].
    destruct (storeSet _ _ _ _) as [w3 [er|]] eqn:Es; [done|]. injection EL as <-.
    apply storeSet_effect in Es as ([s ->]&Hh&_). done. }
  rewrite F1, (un_bus _ _ _ U), Hb in E. simpl in E. injection E as <-.
  split_and!; simpl; [by rewrite F1, (un_bus _ _ _ U)|by rewrite F2, (un_tasks _ _ _ U)|].
  change (has_store w2 = has_store w). by rewrite F3, (un_has _ _ _ U).
Qed.

(** The publication task of a write delivers to every subscriber. *)
Lemma publish_task_delivers e key w b :
  w_bus w = Some b -> bus_inv b -> sm_Get key (pending b) = None -> w_tasks w = [TPublish key] ->
  exists b', w_bus (run_next Background e w) = Some b' /\
    w_cache (run_next Background e w) = w_cache w /\
    w_reg (run_next Background e w) = w_reg w /\ w_store (run_next Background e w) = w_store w /\
    forall ch, ch ∈ subscribed b key -> exists ev,
      chans b' !! ch = Some (mkChan [ev] false) /\ evt_Key ev = key.
Proof.
  intros Hb Hi Hp Ht. unfold run_next. rewrite Ht. unfold run_task, publish_task. simpl. rewrite Hb.
  destruct (Publish_reaches_all key [] b Hi Hp) as (b'&E&Hall&_).
  replace (if 0 <? w_publishTimeout w then after 0 Background else Background) with Background
    by (by case_match).
  rewrite E. exists b'. split_and!; [done..|]. intros ch Hch.
  destruct (Hall ch Hch) as (ev&?&?&_). by exists ev.
Qed.

(** A listener that has an event of the key to receive drops the key. *)
Lemma listener_turn_drops ch key w b ev :
  warp_ok w -> w_bus w = Some b -> chans b !! ch = Some (mkChan [ev] false) -> evt_Key ev = key ->
  (forall t, cached (listener_turn ch w) t key = None) /\
  (forall t k, k <> key -> cached (listener_turn ch w) t k = cached w t k) /\
  w_reg (listener_turn ch w) = w_reg w /\ w_store (listener_turn ch w) = w_store w.
Proof.
  intros H Hb Hc Hk. unfold listener_turn. rewrite Hb. simpl. unfold chan_recv. rewrite Hc. simpl.
  rewrite Hk. match goal with |- context [cacheInvalidate _ _ ?w'] =>
    destruct (cacheInvalidate_live key w') as (c&->&_&Hn&Ho); [by apply set_bus_ok|] end. done.
Qed.

(** A node on the bus another node uses: the bus is one object. *)
Definition on_bus_of (wA wB : W) : W := set_bus wB (w_bus wA).

(** C31. An eventual write invalidates the key on every other node that listens.
    Two nodes share an in-memory bus; the writer has no goroutines waiting to run,
    no publication of the key is pending on the bus, and the other node's listener
    is subscribed to the key: once the write has returned with success, its
    publication has run and that listener has taken its turn, the other node's
    cache no longer holds the key, and its other keys are untouched. *)
Theorem eventual_Set_invalidates_peers e e2 key (v : T) (wA wA1 wB : W) (g : registration)
    (b : InMemoryBus M) (ch : nat) :
  warp_ok wA -> warp_ok wB -> env_ok e -> reg_view (w_reg wA) key = Some g ->
  rg_mode g = ModeEventualDistributed -> w_tasks wA = [] ->
  w_bus wA = Some b -> bus_inv b -> sm_Get key (pending b) = None -> ch ∈ subscribed b key ->
  Warp_Set Background e key v wA = (wA1, None) ->
  let wA2 := run_next Background e2 wA1 in
  let wB2 := listener_turn ch (on_bus_of wA2 wB) in
  (forall t, cached wB2 t key = None) /\ (forall t k, k <> key -> cached wB2 t k = cached wB t k).
Proof.
  intros HA HB He Hg Hm Ht Hb Hi Hp Hch E wA2 wB2.
  destruct (eventual_Set_starts e key v wA wA1 g b HA He Hg Hm Hb E) as (Hb1&Ht1&_).
  rewrite Ht in Ht1. destruct (publish_task_delivers e2 key wA1 b Hb1 Hi Hp Ht1) as (b'&Hb2&_&_&_&Hall).
  destruct (Hall ch Hch) as (ev&Hev&Hk). unfold wB2, wA2, on_bus_of. rewrite Hb2.
  destruct (listener_turn_drops ch key (set_bus wB (Some b')) b' ev) as (?&?&_);
    [by apply set_bus_ok|done..].
Qed.

(** A node also receives its own publication: with no store, an eventual
    write of a key the node itself listens to is lost again as soon as its
    listener takes its turn, and [Get] reports the key missing. *)
Theorem eventual_Set_self_invalidates e e2 e3 key (v : T) w w1 (g : registration)
    (b : InMemoryBus M) (ch : nat) :
  warp_ok w -> env_ok e -> env_ok e2 -> env_ok e3 -> reg_view (w_reg w) key = Some g ->
  rg_mode g = ModeEventualDistributed -> w_tasks w = [] -> w_store w = None ->
  w_bus w = Some b -> bus_inv b -> sm_Get key (pending b) = None -> ch ∈ subscribed b key ->
  Warp_Set Background e key v w = (w1, None) ->
  snd (Warp_Get Background e3 key (listener_turn ch (run_next Background e2 w1))) = Err ErrNotFound.
Proof.
  intros H He He2 He3 Hg Hm Ht Hs Hb Hi Hp Hch E.
  pose proof (Warp_Set_ok Background e key v w H He) as H1. rewrite E in H1. simpl in H1.
  destruct (eventual_Set_starts e key v w w1 g b H He Hg Hm Hb E) as (Hb1&Ht1&Hh).
  destruct (Set_effect e e key v w w1 g H He He Hg E) as (_&ttl&_&Hr&_).
  rewrite Ht in Ht1. destruct (publish_task_delivers e2 key w1 b Hb1 Hi Hp Ht1) as (b'&Hb2&_&Er&Es&Hall).
  destruct (Hall ch Hch) as (ev&Hev&Hk).
  pose proof (run_next_ok Background e2 w1 H1 He2) as H2.
  destruct (listener_turn_drops ch key _ b' ev H2 Hb2 Hev Hk) as (Hc&_&Er3&Es3).
  rewrite Warp_Get_answers_eq by (done || by apply listener_turn_ok).
  rewrite Hc, Er3, Er, Hr. unfold get_answer, has_store in *. rewrite Es3, Es.
  rewrite Hs in Hh. by destruct (w_store w1).
Qed.

End Propagation.
