(* ===== verification/Txn.v ===== *)
(** * Txn: transactions

    Models [Txn] of [src/core/core.go]: [Set], [Delete], [CompareAndSwap] and
    [Commit] with its batch, its deferred strong operations and its early
    returns. The maps of a transaction are iterated in an order the program
    does not choose: [Commit] takes the two orders as arguments.
    [reflect.DeepEqual] on the values is a parameter. *)

From S2P Require Import Prelude Merge TTL CacheIface Store SyncBus Registry Warp WarpCache WarpInv WarpProps.

Record Txn (T : Type) := mkTxn {
  tx_sets : gmap string T;
  tx_deletes : gset string;
  tx_cas : gmap string T;
}.
Arguments mkTxn {T} _ _ _.
Arguments tx_sets {T} _.
Arguments tx_deletes {T} _.
Arguments tx_cas {T} _.

Section Queue.
Context {T : Type}.
Implicit Types tx : Txn T.

Definition NewTxn : Txn T := mkTxn ∅ ∅ ∅.

Definition Txn_Set (key : string) (value : T) tx : Txn T :=
  mkTxn (<[key := value]> (tx_sets tx)) (tx_deletes tx ∖ {[key]}) (delete key (tx_cas tx)).

Definition Txn_Delete (key : string) tx : Txn T :=
  mkTxn (delete key (tx_sets tx)) (tx_deletes tx ∪ {[key]}) (delete key (tx_cas tx)).

Definition Txn_CompareAndSwap (key : string) (old new : T) tx : Txn T :=
  mkTxn (<[key := new]> (tx_sets tx)) (tx_deletes tx ∖ {[key]}) (<[key := old]> (tx_cas tx)).

(** The calls that queue on a transaction. *)
Inductive txn_call :=
| QSet (key : string) (value : T)
| QDelete (key : string)
| QCas (key : string) (old new : T).

Definition call_key (c : txn_call) : string :=
  match c with QSet k _ => k | QDelete k => k | QCas k _ _ => k end.

Definition txn_queue tx (c : txn_call) : Txn T :=
  match c with
  | QSet k v => Txn_Set k v tx
  | QDelete k => Txn_Delete k tx
  | QCas k old new => Txn_CompareAndSwap k old new tx
  end.

(** The last call queued for a key. *)
Definition last_call (cs : list txn_call) (k : string) : option txn_call :=
  last (filter (fun c => call_key c = k) cs).

(** What a transaction will do to a key, as its three maps say. *)
Definition txn_plan tx (k : string) : option txn_call :=
  match tx_sets tx !! k, tx_cas tx !! k with
  | Some new, Some old => Some (QCas k old new)
  | Some v, None => Some (QSet k v)
  | None, _ => if decide (k ∈ tx_deletes tx) then Some (QDelete k) else None
  end.

Definition txn_wf tx : Prop :=
  (forall k, is_Some (tx_sets tx !! k) -> k ∉ tx_deletes tx) /\
  (forall k, is_Some (tx_cas tx !! k) -> is_Some (tx_sets tx !! k)).

Lemma txn_queue_plan tx c k :
  txn_plan (txn_queue tx c) k = if decide (call_key c = k) then Some c else txn_plan tx k.
Proof.
  unfold txn_plan. destruct (decide (call_key c = k)) as [<-|E].
  - destruct c as [k' v|k'|k' old new]; simpl;
      rewrite ?lookup_insert_eq, ?lookup_delete_eq, ?lookup_insert_eq; [done| |done].
    by rewrite decide_True by set_solver.
  - assert (k ∈ tx_deletes (txn_queue tx c) <-> k ∈ tx_deletes tx) as Hd by (destruct c; set_solver).
    rewrite (decide_ext _ _ _ _ Hd).
    destruct c as [k' v|k'|k' old new]; simpl in *;
      by rewrite ?lookup_insert_ne, ?lookup_delete_ne by done.
Qed.

Lemma txn_queue_wf tx c : txn_wf tx -> txn_wf (txn_queue tx c).
Proof.
  intros [H1 H2]. split; intros k; specialize (H1 k); specialize (H2 k); destruct c as [k'|k'|k']; simpl;
    destruct (decide (k' = k)) as [->|];
    rewrite ?lookup_insert_eq, ?lookup_delete_eq, ?lookup_insert_ne, ?lookup_delete_ne by done;
    try set_solver; try (by intros [? ?]); eauto.
Qed.

(** The last operation queued for a key decides what the transaction does
    to it, whatever was queued before: the three maps of a transaction never
    disagree (a key is not both set and deleted, and only a set key has an
    expected value). *)
Theorem Txn_last_call_wins (cs : list txn_call) (k : string) :
  txn_plan (foldl txn_queue NewTxn cs) k = last_call cs k /\ txn_wf (foldl txn_queue NewTxn cs).
Proof.
  induction cs as [|c cs [IH1 IH2]] using rev_ind.
  - simpl. unfold txn_plan. simpl. rewrite lookup_empty, decide_False by set_solver.
    split; [done|]. split; intros k'; simpl; rewrite lookup_empty; by intros [? ?].
  - rewrite foldl_app. simpl. rewrite txn_queue_plan. split; [|by apply txn_queue_wf].
    unfold last_call. rewrite filter_app, filter_cons, filter_nil.
    destruct (decide (call_key c = k)).
    + by rewrite last_snoc.
    + by rewrite app_nil_r, IH1.
Qed.

End Queue.

Section Commit.
Context {T C S B St : Type}.
Context `{!Cache C (Value T), !Store S T, !Bus B, !TTLStrategy St}.
Context (DeepEqual : T -> T -> bool).
Abbreviation W := (Warp T C S B St).
Implicit Types w : W.
Implicit Types e : env T.

(** A batch of the store, with the operations it came with. *)
Abbreviation batch := (option { bo : Batcher S T & bt bo }).

(** A deferred [applyLocal] of a strong set: the values its closure captured. *)
Record strong_set := mkStrong {
  ss_key : string;
  ss_loc : nat;
  ss_val : Value T;
  ss_ttl : duration;
  ss_now : time;
}.

(** [applyLocal] of a set *)
Definition commit_local_set (cx : ctx) (t : time) (p : strong_set) w (bat : batch)
    : W * batch * option error :=
  let '(w, err) := cacheSet (after 3 cx) t (ss_key p) (ss_val p) (ss_ttl p) w in
  match err with
  | Some er => (w, bat, Some er)
  | None =>
      let '(w, bat, err) :=
        match bat with
        | Some (existT bo b) =>
            let '(b, err) := batch_Set bo (after 4 cx) (ss_key p) (Data (ss_val p)) b in
            (w, Some (existT bo b), err)
        | None =>
            let '(w, err) := storeSet (after 4 cx) (ss_key p) (Data (ss_val p)) w in (w, None, err)
        end in
      match err with
      | Some er => (w, bat, Some er)
      | None => (updateReg (ss_loc p) (set_access (ss_ttl p) (ss_now p)) w, bat, None)
      end
  end.

(** [applyLocal] of a delete *)
Definition commit_local_delete (cx : ctx) (key : string) w (bat : batch)
    : W * batch * option error :=
  let '(w, err) := cacheInvalidate (after 3 cx) key w in
  match err with
  | Some er => (w, bat, Some er)
  | None =>
      let w := inc_evictions w in
      match bat with
      | Some (existT bo b) =>
          let '(b, err) := batch_Delete bo (after 4 cx) key b in (w, Some (existT bo b), err)
      | None => (w, bat, None)
      end
  end.

(** The mode dispatch: perform the operation now, or defer it after the quorum
    has acknowledged; the boolean says that it is deferred. *)
Definition commit_dispatch (cx : ctx) (key : string) (g : registration)
    (applyLocal : W -> batch -> W * batch * option error) w (bat : batch)
    : W * batch * option error * bool :=
  match rg_mode g with
  | ModeEventualDistributed =>
      let '(w, bat, err) := applyLocal w bat in
      match err with
      | Some er => (w, bat, Some er, false)
      | None =>
          match w_bus w with
          | None => (w, bat, None, false)
          | Some b =>
              let '(b, err) := bus_Publish (after 2 cx) key [] b in
              (set_bus w (Some b), bat, err, false)
          end
      end
  | ModeStrongDistributed =>
      match w_bus w with
      | None => (w, bat, Some ErrBusRequired, false)
      | Some b =>
          let '(b, err) := bus_PublishAndAwait (after 2 cx) key (quorumSize g) [] b in
          (set_bus w (Some b), bat, err, match err with None => true | Some _ => false end)
      end
  | _ => let '(w, bat, err) := applyLocal w bat in (w, bat, err, false)
  end.

(** The check of the expected value and the merge. *)
Definition commit_value (tx : Txn T) (key : string) (old : option (Value T)) (newVal : Value T) w
    : res (Value T) :=
  match old, tx_cas tx !! key with
  | Some o, Some expected =>
      if DeepEqual (Data o) expected then Ok (set_merged key old newVal w) else Err ErrCASMismatch
  | Some o, None => Ok (set_merged key old newVal w)
  | None, Some _ => Err ErrCASMismatch
  | None, None => Ok newVal
  end.

(** One iteration of the loop over the sets. *)
Definition commit_set (cx : ctx) e (tx : Txn T) (key : string) (val : T) w (bat : batch)
    : W * batch * option error * list strong_set :=
  match lookupReg key w with
  | None => (w, bat, Some ErrUnregistered, [])
  | Some (l, g) =>
      let now := t0 e in
      let w := stratRecord g now key w in
      let '(w, r) := cacheGet (after 0 cx) now key w in
      match r with
      | Err er => (w, bat, Some er, [])
      | Ok old =>
          match commit_value tx key old (value_of val now) w with
          | Err er => (w, bat, Some er, [])
          | Ok newVal =>
              let '(w, ttl) := stratTTL g (rg_ttl g) now key w in
              let p := mkStrong key l newVal (ttl +₆₄ grace g) now in
              let '(w, bat, err, deferred) :=
                commit_dispatch cx key g (commit_local_set cx (t1 e) p) w bat in
              (w, bat, err, if deferred : bool then [p] else [])
          end
      end
  end.

(** One iteration of the loop over the deletes. *)
Definition commit_delete (cx : ctx) (key : string) w (bat : batch)
    : W * batch * option error * list string :=
  match lookupReg key w with
  | None => (w, bat, Some ErrUnregistered, [])
  | Some (_, g) =>
      let '(w, bat, err, deferred) :=
        commit_dispatch cx key g (commit_local_delete cx key) w bat in
      (w, bat, err, if deferred : bool then [key] else [])
  end.

(** A loop that stops at the first error and collects deferred operations. *)
Fixpoint commit_loop {A D} (body : ctx -> A -> W -> batch -> W * batch * option error * list D)
    (cx : ctx) (xs : list A) (defer : list D) w (bat : batch)
    : W * batch * option error * list D :=
  match xs with
  | [] => (w, bat, None, defer)
  | x :: xs =>
      let '(w, bat, err, d) := body (after 0 cx) x w bat in
      match err with
      | Some er => (w, bat, Some er, defer ++ d)
      | None => commit_loop body (after 1 cx) xs (defer ++ d) w bat
      end
  end.

(** [for _, op := range ops { if err := op(); err != nil { return err } }] *)
Definition run_deferred {A} (op : ctx -> A -> W -> batch -> W * batch * option error)
    (cx : ctx) (xs : list A) w (bat : batch) : W * batch * option error :=
  let '(w, bat, err, _) :=
    commit_loop (D := unit) (fun cx x w bat => (op cx x w bat, [])) cx xs [] w bat in
  (w, bat, err).

Definition sets_in (tx : Txn T) (order : list string) : list (string * T) :=
  omap (fun k => pair k <$> tx_sets tx !! k) order.

(** The operations of the transaction, until the batch is to be committed. *)
Definition commit_ops (cx : ctx) e (tx : Txn T) (set_order delete_order : list string) w (bat : batch)
    : W * batch * option error :=
  let '(w, bat, err, strongSets) :=
    commit_loop (fun cx kv w bat => commit_set cx e tx kv.1 kv.2 w bat)
      (after 1 cx) (sets_in tx set_order) [] w bat in
  match err with
  | Some er => (w, bat, Some er)
  | None =>
      let '(w, bat, err, strongDeletes) :=
        commit_loop commit_delete (after 2 cx) delete_order [] w bat in
      match err with
      | Some er => (w, bat, Some er)
      | None =>
          let '(w, bat, err) :=
            run_deferred (fun cx p => commit_local_set cx (t1 e) p) (after 3 cx) strongSets w bat in
          match err with
          | Some er => (w, bat, Some er)
          | None => run_deferred commit_local_delete (after 4 cx) strongDeletes w bat
          end
      end
  end.

Definition Txn_Commit (cx : ctx) e (tx : Txn T) (set_order delete_order : list string) w
    : W * option error :=
  let start := match w_store w with
               | Some s =>
                   match store_Batcher (S := S) (T := T) with
                   | Some bo =>
                       match batch_Batch bo (after 0 cx) s with
                       | Err er => Err er
                       | Ok b => Ok (Some (existT bo b))
                       end
                   | None => Ok None
                   end
               | None => Ok None
               end in
  match start with
  | Err er => (w, Some er)
  | Ok bat =>
      let '(w, bat, err) := commit_ops cx e tx set_order delete_order w bat in
      match err, bat, w_store w with
      | Some er, _, _ => (w, Some er)
      | None, Some (existT bo b), Some s =>
          let '(s, err) := batch_Commit bo (after 5 cx) b s in (set_store w (Some s), err)
      | None, _, _ => (w, None)
      end
  end.

End Commit.
