(* ===== verification/TxnProps.v ===== *)
(** * TxnProps: what a commit does

    A transaction on keys in local mode over the in-memory store: [Commit]
    makes every queued write and delete visible in the store and the cache.
    Two further theorems show where [Commit] departs from its description: it
    is not atomic, and it records the physical TTL of a key as its logical
    one. *)

From S2P Require Import Prelude Merge TTL CacheIface Store SyncBus Registry Warp WarpCache WarpInv WarpProps Txn.

Section TxnProps.
Context {T C B St : Type}.
Context `{HCa : !Cache C (Value T), HC : !LawfulCache C (Value T), !Bus B, !TTLStrategy St}.
Context (DeepEqual : T -> T -> bool).
Abbreviation W := (Warp T C (InMemoryStore T) B St).
Implicit Types w : W.
Implicit Types e : env T.

(** The batcher of the in-memory store. *)
Definition mem_batcher : Batcher (InMemoryStore T) T :=
  mkBatcher _ _ (inMemoryBatch T) InMemoryStore_Batch inMemoryBatch_Set inMemoryBatch_Delete
    inMemoryBatch_Commit.

(** A batch of the in-memory store, as [Commit] carries it. *)
Definition a_batch (b : inMemoryBatch T) : option { bo : Batcher (InMemoryStore T) T & bt bo } :=
  Some (existT mem_batcher b).

(** The key is registered in local mode. *)
Definition local_key w (k : string) : Prop :=
  exists g, reg_view (w_reg w) k = Some g /\ rg_mode g = ModeStrongLocal.

(** The merge of a write at [now] keeps the written data. *)
Definition plain_key now w (k : string) : Prop :=
  Engine_HasCustom k (w_merges w) = false /\ defaultStrategy (w_merges w) = LastWriteWins_Merge /\
  forall v, cached w now k = Some v -> Timestamp v < now.

(** What a step of a commit keeps: everything but the key's own entry and
    registration, evictions apart. *)
Record commit_frame (now : time) (key : string) w w' : Prop := {
  cf_ok : warp_ok w';
  cf_store : w_store w' = w_store w;
  cf_merges : w_merges w' = w_merges w;
  cf_unreg : forall k, reg_view (w_reg w) k = None -> reg_view (w_reg w') k = None;
  cf_local : forall k, local_key w k -> local_key w' k;
  cf_others : forall u k, k <> key -> now <= u -> cached w' u k = cached w u k \/ cached w' u k = None;
}.

(** The value a set of [x] writes: the merge with what the cache serves. *)
Definition tx_value e (key : string) (x : T) w : Value T :=
  set_merged key (cached w (t0 e) key) (value_of x (t0 e)) w.

(** For a plain key it is the queued value. *)
Lemma tx_value_plain e key x w : plain_key (t0 e) w key -> tx_value e key x w = value_of x (t0 e).
Proof.
  intros (Hc&Hd&Hv). unfold tx_value, set_merged. destruct (cached w (t0 e) key) as [v|] eqn:Ev; [|done].
  rewrite Engine_Merge_default, Hd by done. unfold LastWriteWins_Merge, time_After. simpl. specialize (Hv v eq_refl).
  assert ((Timestamp v <? t0 e) = true) as -> by (by apply Z.ltb_lt). by destruct (Vector v).
Qed.

Lemma local_key_updateReg l ttl last w k :
  local_key w k -> local_key (updateReg l (set_access ttl last) w) k.
Proof.
  intros (g&Hg&Hm). unfold local_key, reg_view in *. simpl.
  change (getReg k (update_reg l (set_access ttl last) (w_reg w))) with (getReg k (w_reg w)).
  destruct (getReg k (w_reg w)) as [l'|]; [|done]. simpl in *.
  destruct (decide (l = l')) as [->|].
  - rewrite lookup_alter_eq, Hg. simpl. by eexists.
  - rewrite lookup_alter_ne by done. by exists g.
Qed.

Lemma local_key_lookup w k :
  warp_ok w -> local_key w k -> exists l g, lookupReg k w = Some (l, g) /\ rg_mode g = ModeStrongLocal.
Proof.
  intros H (g&Hg&Hm). rewrite <- (lookupReg_view k w H) in Hg.
  destruct (lookupReg k w) as [[l g']|]; simplify_eq/=. by eexists _, _.
Qed.

(** The expected value, if any, is the cached one. *)
Definition accepted e (tx : Txn T) (key : string) w : Prop :=
  match tx_cas tx !! key, cached w (t0 e) key with
  | None, _ => True
  | Some expected, Some v => DeepEqual (Data v) expected = true
  | Some _, None => False
  end.

Lemma commit_value_accepted e tx key x w w' :
  accepted e tx key w -> w_merges w' = w_merges w ->
  commit_value DeepEqual tx key (cached w (t0 e) key) (value_of x (t0 e)) w' = Ok (tx_value e key x w).
Proof.
  unfold accepted, commit_value, tx_value, set_merged. intros Hc ->.
  destruct (tx_cas tx !! key), (cached w (t0 e) key) as [v|]; try done. by rewrite Hc.
Qed.

(** One queued set of a local key. *)
Lemma commit_set_local e tx key x w (b : inMemoryBatch T) :
  warp_ok w -> env_ok e -> t1 e = t0 e -> local_key w key -> accepted e tx key w ->
  exists w' l g ttl, commit_set DeepEqual Background e tx key x w (a_batch b) =
      (w', a_batch (mkBatch (<[key := Data (tx_value e key x w)]> (b_sets b)) (b_deletes b)), None, []) /\
    commit_frame (t0 e) key w w' /\
    lookupReg key w = Some (l, g) /\ (rg_ttlStrategy g = None -> ttl = rg_ttl g) /\
    lookupReg key w' = Some (l, set_access (ttl +₆₄ grace g) (t0 e) g) /\
    (forall u, t0 e <= u -> cached w' u key =
       if decide (served (expiry (t0 e) (ttl +₆₄ grace g)) u) then Some (tx_value e key x w) else None).
Proof.
  intros H [Ht0 Ht1] He Hk Hp. destruct (local_key_lookup w key H Hk) as (l&g&Hl&Hm).
  unfold commit_set. rewrite Hl. change (after 0 Background) with Background.
  destruct (stratRecord_frame g (t0 e) key w) as [st ->].
  assert (warp_ok (set_strats w st)) as H1 by (by eapply warp_ok_ext; [..|exact H]).
  destruct (cacheGet_live (t0 e) key _ H1 Ht0) as (c&->&H2&Hsv). simpl in Hsv.
  change (wc_view (w_cache (set_strats w st)) (t0 e) key) with (cached w (t0 e) key).
  rewrite (commit_value_accepted e tx key x w) by done.
  destruct (stratTTL_frame g (rg_ttl g) (t0 e) key (set_cache (set_strats w st) c)) as (st'&ttl&Et).
  rewrite Et. unfold commit_dispatch. rewrite Hm. unfold commit_local_set. simpl.
  change (after 3 Background) with Background. set (w2 := set_strats (set_cache _ c) st').
  assert (warp_ok w2) as H3 by (by eapply warp_ok_ext; [..|exact H2]).
  destruct (cacheSet_live (t1 e) key (tx_value e key x w) (ttl +₆₄ grace g) w2 H3 Ht1) as (c'&->&H4&Hv&Ho);
    [auto with warp|].
  rewrite He in *. eexists _, l, g, ttl. split; [done|]. split_and!; [|done| | |exact Hv].
  - split; [by apply updateReg_ok|done|done| | |].
    + intros k. unfold reg_view. simpl.
      change (getReg k (update_reg l _ (w_reg w))) with (getReg k (w_reg w)).
      destruct (getReg k (w_reg w)) as [l'|]; [|done]. simpl.
      intros Hn. by rewrite lookup_alter_None.
    + intros k Hlk. by apply (local_key_updateReg l _ _ (set_cache w2 c')).
    + intros u k Hne Hu. destruct (Ho u k Hne Hu) as [E|E]; [left|by right].
      unfold cached. simpl. rewrite E. by apply Hsv.
  - intros Hs. rewrite stratTTL_none in Et by done. congruence.
  - by apply lookupReg_update.
Qed.

(** A committed value of a key: the queued value, merged with what the cache
    served for the key before the commit, unless an earlier set of the commit
    has had that evicted. *)
Definition committed e w (key : string) (x : T) (nv : Value T) : Prop :=
  nv = tx_value e key x w \/ nv = value_of x (t0 e).

Lemma committed_plain e w key x nv : plain_key (t0 e) w key -> committed e w key x nv -> nv = value_of x (t0 e).
Proof. intros Hp [->| ->]; [by apply tx_value_plain|done]. Qed.

Lemma committed_frame e key w w' k x nv :
  commit_frame (t0 e) key w w' -> k <> key -> committed e w' k x nv -> committed e w k x nv.
Proof.
  intros F Hne [->| ->]; [|by right]. unfold committed, tx_value, set_merged. rewrite (cf_merges _ _ _ _ F).
  destruct (cf_others _ _ _ _ F (t0 e) k Hne ltac:(lia)) as [->| ->]; [by left|by right].
Qed.

Lemma committed_frame_list e key w w' xs ys :
  commit_frame (t0 e) key w w' -> key ∉ xs.*1 ->
  Forall2 (fun kx ky => ky.1 = kx.1 /\ committed e w' kx.1 kx.2 ky.2) xs ys ->
  Forall2 (fun kx ky => ky.1 = kx.1 /\ committed e w kx.1 kx.2 ky.2) xs ys.
Proof.
  intros F. revert ys. induction xs as [|[k x] xs IH]; intros ys Hni Hf; inversion Hf as [|? [k' nv] ? ys' [Ek Hc] Hf' E1 E2]; subst; [done|].
  rewrite fmap_cons in Hni. apply not_elem_of_cons in Hni as [Hne Hni]. constructor; [|by apply IH].
  split; [done|]. eapply committed_frame; [exact F| |exact Hc]. simpl in *. congruence.
Qed.

(** The loop over the sets. *)
Lemma commit_sets_local e tx (xs : list (string * T)) w (b : inMemoryBatch T) :
  warp_ok w -> env_ok e -> t1 e = t0 e -> NoDup xs.*1 ->
  (forall k, k ∈ xs.*1 -> local_key w k /\ tx_cas tx !! k = None) ->
  exists w' (ys : list (string * Value T)),
    commit_loop (fun cx kv w bat => commit_set DeepEqual cx e tx kv.1 kv.2 w bat)
      Background xs [] w (a_batch b) =
      (w', a_batch (mkBatch (foldl (fun m kv => <[kv.1 := Data kv.2]> m) (b_sets b) ys) (b_deletes b)), None, []) /\
    Forall2 (fun kx ky => ky.1 = kx.1 /\ committed e w kx.1 kx.2 ky.2) xs ys /\
    warp_ok w' /\ w_store w' = w_store w /\ (forall k, local_key w k -> local_key w' k) /\
    (forall u k, t0 e <= u -> cached w' u k = None \/
       (~ (k ∈ xs.*1) /\ cached w' u k = cached w u k) \/
       (exists nv, (k, nv) ∈ ys /\ cached w' u k = Some nv)).
Proof.
  intros H He Het. revert w b H. induction xs as [|[key x] xs IH]; intros w b H Hnd Hk.
  { exists w, []. destruct b. split_and!; [done|constructor|done|done|done|]. intros u k _. right. left.
    split; [set_solver|done]. }
  rewrite fmap_cons in *. apply NoDup_cons in Hnd as [Hni Hnd].
  destruct (Hk key ltac:(left)) as (Hl&Hcas).
  destruct (commit_set_local e tx key x w b H He Het Hl) as (w1&l&g&ttl&E&F&_&_&_&Hv);
    [unfold accepted; by rewrite Hcas|].
  cbn [commit_loop]. change (after 0 Background) with Background. change (after 1 Background) with Background.
  simpl. rewrite E. simpl.
  destruct (IH w1 (mkBatch (<[key := Data (tx_value e key x w)]> (b_sets b)) (b_deletes b)) (cf_ok _ _ _ _ F) Hnd)
    as (w'&ys&E'&Hys&H'&Es&Hlk&Hc).
  { intros k Hin. destruct (Hk k ltac:(by right)) as (Hl'&Hcas').
    split; [by apply (cf_local _ _ _ _ F)|done]. }
  exists w', ((key, tx_value e key x w) :: ys). rewrite E'.
  split_and!; [done| |done|by rewrite Es, (cf_store _ _ _ _ F)| |].
  - constructor; [by split; [|left]|]. by eapply committed_frame_list.
  - intros k ?. by apply Hlk, (cf_local _ _ _ _ F).
  - intros u k Hu. destruct (Hc u k Hu) as [?|[[Hni' E1]|(v&Hin&E1)]]; [by left| |].
    + destruct (decide (k = key)) as [->|Hne].
      * rewrite E1, (Hv u Hu). case_decide; [|by left]. right. right. eexists. split; [left|done].
      * destruct (cf_others _ _ _ _ F u k Hne Hu) as [E2|E2]; [|left; congruence].
        right. left. split; [set_solver|congruence].
    + right. right. exists v. split; [by right|done].
Qed.

(** One queued delete of a local key. *)
Lemma commit_delete_local key w (b : inMemoryBatch T) :
  warp_ok w -> local_key w key ->
  exists w', commit_delete Background key w (a_batch b) =
      (w', a_batch (mkBatch (b_sets b) (b_deletes b ++ [key])), None, []) /\
    warp_ok w' /\ w_reg w' = w_reg w /\ w_store w' = w_store w /\
    (forall u k, cached w' u k = if decide (k = key) then None else cached w u k).
Proof.
  intros H Hk. destruct (local_key_lookup w key H Hk) as (l&g&Hl&Hm).
  unfold commit_delete. rewrite Hl. unfold commit_dispatch. rewrite Hm. unfold commit_local_delete.
  change (after 3 Background) with Background.
  destruct (cacheInvalidate_live key w H) as (c&->&H1&Hn&Ho).
  exists (inc_evictions (set_cache w c)).
  assert (w_reg (inc_evictions (set_cache w c)) = w_reg w /\
    w_store (inc_evictions (set_cache w c)) = w_store w /\
    w_cache (inc_evictions (set_cache w c)) = c) as (E1&E2&E3) by (unfold inc_evictions; by case_match).
  split_and!; [done|by apply inc_evictions_ok|done|done|].
  intros u k. unfold cached. rewrite E3. case_decide; [subst; apply Hn|by apply Ho].
Qed.

(** The loop over the deletes. *)
Lemma commit_deletes_local (ks : list string) w (b : inMemoryBatch T) :
  warp_ok w -> (forall k, k ∈ ks -> local_key w k) ->
  exists w', commit_loop commit_delete Background ks [] w (a_batch b) =
      (w', a_batch (mkBatch (b_sets b) (b_deletes b ++ ks)), None, []) /\
    warp_ok w' /\ w_store w' = w_store w /\
    (forall u k, cached w' u k = if decide (k ∈ ks) then None else cached w u k).
Proof.
  intros H. revert w b H. induction ks as [|key ks IH]; intros w b H Hk.
  { exists w. rewrite app_nil_r. by destruct b. }
  destruct (commit_delete_local key w b H (Hk key ltac:(left))) as (w1&E&H1&Er&Es&Hc1).
  cbn [commit_loop]. change (after 0 Background) with Background. change (after 1 Background) with Background.
  rewrite E. destruct (IH w1 (mkBatch (b_sets b) (b_deletes b ++ [key])) H1) as (w'&E'&H'&Es'&Hc).
  { intros k Hin. unfold local_key. rewrite Er. apply Hk. by right. }
  exists w'. rewrite (app_nil_l (A := string)). rewrite E'. simpl. rewrite <- app_assoc.
  split_and!; [done|done|by rewrite Es'|].
  intros u k. rewrite Hc, Hc1. destruct (decide (k ∈ ks)).
  - by rewrite decide_True by set_solver.
  - destruct (decide (k = key)) as [->|Hne].
    + by rewrite decide_True by set_solver.
    + by rewrite decide_False by set_solver.
Qed.

Lemma sets_in_order (tx : Txn T) order :
  NoDup order -> (forall k, k ∈ order <-> is_Some (tx_sets tx !! k)) ->
  (sets_in tx order).*1 = order /\
  (forall k v, (k, v) ∈ sets_in tx order <-> tx_sets tx !! k = Some v).
Proof.
  intros Hnd Hin. split.
  - unfold sets_in. assert (forall k, k ∈ order -> is_Some (tx_sets tx !! k)) as Hs by (intros; by apply Hin).
    clear -Hs. induction order as [|k order IH]; [done|]. simpl.
    destruct (Hs k ltac:(left)) as [v ->]. simpl. f_equal. apply IH. intros; apply Hs; by right.
  - intros k v. unfold sets_in. rewrite list_elem_of_omap. split.
    + intros (k'&Hk'&E). destruct (tx_sets tx !! k') eqn:E'; simplify_eq/=. done.
    + intros E. exists k. split; [apply Hin; by eexists|by rewrite E].
Qed.

(** Values written one after the other under different keys. *)
Lemma foldl_insert_lookup (ys : list (string * Value T)) (m : gmap string T) k :
  NoDup ys.*1 ->
  foldl (fun m kv => <[kv.1 := Data kv.2]> m) m ys !! k =
    match list_to_map (M := gmap string (Value T)) ys !! k with Some v => Some (Data v) | None => m !! k end.
Proof.
  revert m. induction ys as [|[k0 v0] ys IH]; intros m Hn; simpl; [by rewrite lookup_empty|].
  rewrite fmap_cons in Hn. apply NoDup_cons in Hn as [Hni Hn]. rewrite IH by done.
  destruct (decide (k0 = k)) as [->|].
  - rewrite lookup_insert_eq. rewrite (not_elem_of_list_to_map_1 _ _ Hni). by rewrite lookup_insert_eq.
  - by rewrite !lookup_insert_ne.
Qed.

Lemma Forall2_keys e w (xs : list (string * T)) ys :
  Forall2 (fun kx ky => ky.1 = kx.1 /\ committed e w kx.1 kx.2 ky.2) xs ys ->
  ys.*1 = xs.*1 /\
  (forall k x, (k, x) ∈ xs -> exists nv, (k, nv) ∈ ys /\ committed e w k x nv).
Proof.
  induction 1 as [|[k x] [k' nv] xs ys [Ek Hc] _ [IH1 IH2]]; simpl in *; subst; [split; [done|set_solver]|].
  split; [by f_equal|]. intros k' x' [[= -> ->]|Hin]%elem_of_cons.
  - exists nv. split; [by left|done].
  - destruct (IH2 _ _ Hin) as (nv' & ? & ?). exists nv'. split; [by right|done].
Qed.

(** C32. Committing a transaction of sets and deletes (no compare-and-swap) of
    keys in local mode, over the in-memory store, with a live context and within
    one instant of the clock, in whatever order its maps are iterated, succeeds
    and takes full effect: the store then holds one committed value for every set
    key, no deleted key, and every other key as before; the cache serves no
    deleted key, and of a set key nothing but that same value. The committed value
    is the queued one merged with what the cache served for the key before the
    commit (or the queued one alone, when another set of the commit has had that
    evicted): it is the queued value itself for a key without a custom merge
    function, under the default strategy, whose cached value is older than the
    commit. *)
Theorem Txn_Commit_applies e (tx : Txn T) (set_order delete_order : list string) w
    (s : InMemoryStore T) :
  warp_ok w -> env_ok e -> t1 e = t0 e -> w_store w = Some s -> txn_wf tx -> tx_cas tx = ∅ ->
  NoDup set_order -> (forall k, k ∈ set_order <-> is_Some (tx_sets tx !! k)) ->
  (forall k, k ∈ delete_order <-> k ∈ tx_deletes tx) ->
  (forall k, is_Some (txn_plan tx k) -> local_key w k) ->
  let '(w', r) := Txn_Commit DeepEqual Background e tx set_order delete_order w in
  r = None /\
  forall k, match txn_plan tx k with
     | Some (QSet _ v) | Some (QCas _ _ v) => exists nv,
         (nv = set_merged k (cached w (t0 e) k) (value_of v (t0 e)) w \/ nv = value_of v (t0 e)) /\
         (plain_key (t0 e) w k -> nv = value_of v (t0 e)) /\
         w_stored w' !! k = Some (Data nv) /\
         forall u, t0 e <= u -> cached w' u k = None \/ cached w' u k = Some nv
     | Some (QDelete _) => w_stored w' !! k = None /\ forall u, t0 e <= u -> cached w' u k = None
     | None => w_stored w' !! k = w_stored w !! k /\
         forall u, t0 e <= u -> cached w' u k = None \/ cached w' u k = cached w u k
     end.
Proof.
  intros H He Het Hs [Hwf _] Hcas Hnd Hso Hdo Hloc.
  destruct (sets_in_order tx set_order Hnd Hso) as (Hfst&Hval).
  assert (forall k, is_Some (tx_sets tx !! k) -> is_Some (txn_plan tx k)) as Hps.
  { intros k [v E]. unfold txn_plan. rewrite E. case_match; by eexists. }
  assert (forall k, k ∈ delete_order -> is_Some (txn_plan tx k)) as Hpd.
  { intros k Hk%Hdo. unfold txn_plan. destruct (tx_sets tx !! k) eqn:E; [case_match; by eexists|].
    rewrite decide_True by done. by eexists. }
  unfold Txn_Commit. rewrite Hs. simpl. change (Some (existT _ (mkBatch ∅ []))) with (a_batch (mkBatch ∅ [])).
  unfold commit_ops. change (after 1 Background) with Background. change (after 2 Background) with Background.
  destruct (commit_sets_local e tx (sets_in tx set_order) w (mkBatch ∅ []) H He Het)
    as (w1&ys&E1&Hys&H1&Es1&Hl1&Hc1).
  { by rewrite Hfst. }
  { rewrite Hfst. intros k Hk%Hso. rewrite Hcas, lookup_empty. split; [by apply Hloc, Hps|done]. }
  destruct (Forall2_keys _ _ _ _ Hys) as [Hkeys Hnv]. rewrite Hfst in Hkeys.
  assert (NoDup ys.*1) as Hndy by (by rewrite Hkeys).
  rewrite E1. simpl in *. set (sets := foldl _ ∅ ys) in *.
  destruct (commit_deletes_local delete_order w1 (mkBatch sets [])) as (w2&E2&H2&Es2&Hc2); [done| |].
  { intros k Hk. by apply Hl1, Hloc, Hpd. }
  rewrite E2. simpl. rewrite Es2, Es1, Hs. simpl. split; [done|].
  pose proof (inMemoryBatch_Commit_lookup Background (mkBatch sets delete_order) s) as Hlk. simpl in Hlk.
  intros k. set (w3 := set_store w2 _) in *. assert (forall u, t0 e <= u -> cached w3 u k = if decide (k ∈ tx_deletes tx) then None else cached w1 u k)
    as Hc12 by (intros u _; change (cached w3 u k) with (cached w2 u k); by rewrite Hc2, (decide_ext _ _ _ _ (Hdo k))).
  assert (w_stored w3 !! k = batch_result (mkBatch sets delete_order) (w_stored w) k) as ->
    by (unfold w3, w_stored; simpl; by rewrite Hlk, Hs).
  unfold batch_result, txn_plan. simpl.
  assert (sets !! k = Data <$> list_to_map (M := gmap string (Value T)) ys !! k) as Hsets.
  { unfold sets. rewrite foldl_insert_lookup by done. rewrite lookup_empty. by destruct (list_to_map _ !! k). }
  rewrite Hcas, lookup_empty, (decide_ext _ _ _ _ (Hdo k)), Hsets.
  destruct (tx_sets tx !! k) as [v|] eqn:Ek.
  - destruct (Hnv k v) as (nv&Hin&Hcm); [by apply Hval|]. exists nv.
    rewrite (elem_of_list_to_map_1 ys k nv Hndy Hin). simpl. split_and!; [done|by intros ?; eapply committed_plain|done|].
    intros u Hu. rewrite Hc12 by done. rewrite decide_False by (apply Hwf; by eexists).
    destruct (Hc1 u k Hu) as [?|[[Hno _]|(v'&Hin'&E)]]; [by left| |].
    + destruct Hno. rewrite Hfst. apply Hso. by eexists.
    + right. rewrite E. f_equal. pose proof (elem_of_list_to_map_1 ys k v' Hndy Hin') as G1.
      rewrite (elem_of_list_to_map_1 ys k nv Hndy Hin) in G1. congruence.
  - assert (k ∉ ys.*1) as Hno by (rewrite Hkeys, Hso, Ek; by intros [? ?]).
    rewrite (not_elem_of_list_to_map_1 _ _ Hno). simpl. case_decide as Hd.
    + split; [done|]. intros u Hu. by rewrite Hc12.
    + split; [done|]. intros u Hu. rewrite Hc12 by done.
      destruct (Hc1 u k Hu) as [?|[[_ ?]|(v'&Hin&E)]]; [by left|by right|].
      destruct Hno. apply list_elem_of_fmap. by exists (k, v').
Qed.

(** A transaction that sets one local key, in the store and the cache. *)
Lemma Txn_Commit_one e tx key x w (s : InMemoryStore T) :
  warp_ok w -> env_ok e -> t1 e = t0 e -> w_store w = Some s ->
  tx_sets tx = {[key := x]} -> local_key w key -> accepted e tx key w ->
  exists w' l g ttl, Txn_Commit DeepEqual Background e tx [key] [] w = (w', None) /\
    w_stored w' = <[key := Data (tx_value e key x w)]> (w_stored w) /\
    lookupReg key w = Some (l, g) /\ (rg_ttlStrategy g = None -> ttl = rg_ttl g) /\
    lookupReg key w' = Some (l, set_access (ttl +₆₄ grace g) (t0 e) g) /\
    (forall u, t0 e <= u -> cached w' u key =
       if decide (served (expiry (t0 e) (ttl +₆₄ grace g)) u) then Some (tx_value e key x w) else None).
Proof.
  intros H He Het Hs Hsets Hl Ha.
  destruct (commit_set_local e tx key x w (mkBatch ∅ []) H He Het Hl Ha) as (w1&l&g&ttl&E&F&Hl0&Ht&Hl1&Hv).
  unfold Txn_Commit. rewrite Hs. simpl. change (Some (existT _ (mkBatch ∅ []))) with (a_batch (mkBatch ∅ [])).
  unfold commit_ops, sets_in. simpl. rewrite Hsets, lookup_singleton_eq. simpl.
  change (after 0 (after 1 Background)) with Background. rewrite E. simpl.
  rewrite (cf_store _ _ _ _ F), Hs. simpl. eexists _, l, g, ttl.
  split_and!; [done| |done|done|exact Hl1|exact Hv].
  unfold w_stored. simpl. rewrite Hs. simpl. rewrite fold_insert_union. by rewrite <- insert_union_l, (left_id_L ∅ (∪)).
Qed.

(** A transaction whose only key does not hold the expected value. *)
Lemma Txn_Commit_mismatch e tx key x old w (s : InMemoryStore T) :
  warp_ok w -> env_ok e -> w_store w = Some s -> tx_sets tx = {[key := x]} ->
  tx_cas tx !! key = Some old -> local_key w key ->
  match cached w (t0 e) key with Some v => DeepEqual (Data v) old | None => false end = false ->
  exists w', Txn_Commit DeepEqual Background e tx [key] [] w = (w', Some ErrCASMismatch) /\
    unchanged (t0 e) w w'.
Proof.
  intros H [Ht0 Ht1] Hs Hsets Hcas Hl Em. unfold Txn_Commit. rewrite Hs. simpl.
  unfold commit_ops, sets_in. simpl. rewrite Hsets, lookup_singleton_eq. simpl.
  destruct (local_key_lookup w key H Hl) as (l&g&Hlk&Hm). unfold commit_set. rewrite Hlk.
  change (after 0 (after 0 (after 1 Background))) with Background.
  destruct (stratRecord_frame g (t0 e) key w) as [st ->].
  pose proof (unchanged_strats (t0 e) st w H) as U.
  destruct (cacheGet_live (t0 e) key _ (un_ok _ _ _ U) Ht0) as (c&->&H2&Hsv).
  change (wc_view (w_cache (set_strats w st)) (t0 e) key) with (cached w (t0 e) key).
  assert (commit_value DeepEqual tx key (cached w (t0 e) key) (value_of x (t0 e))
    (set_cache (set_strats w st) c) = Err ErrCASMismatch) as ->.
  { unfold commit_value. rewrite Hcas. destruct (cached w (t0 e) key); [|done]. by rewrite Em. }
  eexists. split; [done|]. destruct U. by split.
Qed.

(** C33. Compare-and-swap compares first. For a transaction of one
    compare-and-swap, of a key in local mode, over the in-memory store, with a
    live context and within one instant: with a cached value that differs from the
    expected one, or none, [Commit] reports [ErrCASMismatch] and nothing changes;
    with the expected value it succeeds, and the new value merged with the cached
    one is in the store and served by the cache until its TTL runs out. That is
    the new value itself for a key without a custom merge function, under the
    default strategy, when the cached value is older than the commit (one written
    at the same instant is kept instead, and the swap still succeeds). *)
Theorem Txn_CompareAndSwap_correct e key (old new : T) w (s : InMemoryStore T) :
  warp_ok w -> env_ok e -> t1 e = t0 e -> w_store w = Some s -> local_key w key ->
  let '(w', r) := Txn_Commit DeepEqual Background e (Txn_CompareAndSwap key old new NewTxn) [key] [] w in
  match cached w (t0 e) key with
  | Some v =>
      if DeepEqual (Data v) old then
        let nv := set_merged key (Some v) (value_of new (t0 e)) w in
        r = None /\ w_stored w' = <[key := Data nv]> (w_stored w) /\
        (plain_key (t0 e) w key -> nv = value_of new (t0 e)) /\
        exists ttl, forall u, t0 e <= u ->
          cached w' u key = if decide (served (expiry (t0 e) ttl) u) then Some nv else None
      else r = Some ErrCASMismatch /\ unchanged (t0 e) w w'
  | None => r = Some ErrCASMismatch /\ unchanged (t0 e) w w'
  end.
Proof.
  intros H He Het Hs Hl. set (tx := Txn_CompareAndSwap key old new NewTxn).
  assert (tx_cas tx !! key = Some old) as Hcas by (simpl; by rewrite lookup_insert_eq).
  pose proof (fun Em => Txn_Commit_mismatch e tx key new old w s H He Hs eq_refl Hcas Hl Em) as Hmis.
  destruct (cached w (t0 e) key) as [v|] eqn:Ev; [destruct (DeepEqual (Data v) old) eqn:Em|].
  - destruct (Txn_Commit_one e tx key new w s H He Het Hs) as (w'&l&g&ttl&->&Hst&_&_&_&Hv); [done|done| |].
    { unfold accepted. by rewrite Hcas, Ev. }
    pose proof (tx_value_plain e key new w) as Hp. unfold tx_value in *. rewrite Ev in *.
    split_and!; [done|done|done|]. by exists (ttl +₆₄ grace g).
  - by destruct (Hmis eq_refl) as (w'&->&U).
  - by destruct (Hmis eq_refl) as (w'&->&U).
Qed.

(** [Commit] is not atomic: when the transaction also sets a key that is
    not registered and its map happens to be iterated in that order, the
    commit fails, the store is untouched, and the cache serves the value of
    the transaction that failed. *)
Theorem Txn_Commit_not_atomic e key bad (x y : T) w (s : InMemoryStore T) :
  warp_ok w -> env_ok e -> t1 e = t0 e -> w_store w = Some s ->
  local_key w key -> plain_key (t0 e) w key -> reg_view (w_reg w) bad = None ->
  let tx := Txn_Set bad y (Txn_Set key x NewTxn) in
  let '(w', r) := Txn_Commit DeepEqual Background e tx [key; bad] [] w in
  r = Some ErrUnregistered /\ w_stored w' = w_stored w /\
  exists ttl, forall u, t0 e <= u -> served (expiry (t0 e) ttl) u ->
    cached w' u key = Some (value_of x (t0 e)).
Proof.
  intros H He Het Hs Hl Hp Hbad tx.
  assert (bad <> key) as Hne by (intros ->; destruct Hl as (g&Hg&_); congruence).
  destruct (commit_set_local e tx key x w (mkBatch ∅ []) H He Het Hl) as (w1&l&g&ttl&E&F&Hl0&_&Hl1&Hv).
  { unfold accepted. replace (tx_cas tx) with (∅ : gmap string T) by (simpl; by rewrite !delete_empty).
    by rewrite lookup_empty. }
  rewrite (tx_value_plain e key x w Hp) in *.
  unfold Txn_Commit. rewrite Hs. simpl. change (Some (existT _ (mkBatch ∅ []))) with (a_batch (mkBatch ∅ [])).
  unfold commit_ops, sets_in. cbn [omap list_omap]. simpl tx_sets.
  rewrite lookup_insert_ne, lookup_insert_eq, lookup_insert_eq by done. cbn [fmap option_fmap option_map].
  cbn [commit_loop fst snd].
  change (after 0 (after 1 Background)) with Background. rewrite E. cbn [app].
  assert (lookupReg bad w1 = None) as Hb1.
  { pose proof (cf_unreg _ _ _ _ F bad Hbad) as Hb.
    rewrite <- (lookupReg_view bad w1 (cf_ok _ _ _ _ F)) in Hb. by destruct (lookupReg bad w1). }
  unfold commit_set. rewrite Hb1. split_and!; [done| |].
  - unfold w_stored. by rewrite (cf_store _ _ _ _ F).
  - exists (ttl +₆₄ grace g). intros u Hu Hsv. rewrite Hv, decide_True; done.
Qed.

(** A committed write of a key with a grace period records the TTL plus
    the grace period as the key's current TTL, where [Set] records the TTL
    alone: so a value committed by a transaction becomes stale one grace
    period later than the same value written by [Set]. *)
Theorem Txn_Commit_records_physical_ttl e key (x : T) w (s : InMemoryStore T) (g : registration) :
  warp_ok w -> env_ok e -> t1 e = t0 e -> w_store w = Some s ->
  reg_view (w_reg w) key = Some g -> rg_mode g = ModeStrongLocal -> rg_ttlStrategy g = None ->
  plain_key (t0 e) w key ->
  reg_view (w_reg (fst (Txn_Commit DeepEqual Background e (Txn_Set key x NewTxn) [key] [] w))) key =
    Some (set_access (rg_ttl g +₆₄ grace g) (t0 e) g) /\
  reg_view (w_reg (fst (Warp_Set Background e key x w))) key = Some (set_access (rg_ttl g) (t0 e) g).
Proof.
  intros H He Het Hs Hg Hm Hst Hp. set (tx := Txn_Set key x NewTxn).
  assert (local_key w key) as Hl by (by exists g).
  destruct (Txn_Commit_one e tx key x w s H He Het Hs) as (w'&l&g'&ttl&->&_&Hl0&Ht&Hl1&_); [done|done| |].
  { unfold accepted. replace (tx_cas tx) with (∅ : gmap string T) by (simpl; by rewrite delete_empty).
    by rewrite lookup_empty. }
  apply lookupReg_Some in Hl0 as [? Hg']. rewrite Hg in Hg'. injection Hg' as <-.
  apply lookupReg_Some in Hl1 as [_ Hr]. split; [by rewrite <- (Ht Hst)|].
  destruct (local_key_lookup w key H Hl) as (l2&g2&Hl2&_).
  pose proof Hl2 as [_ Hg2]%lookupReg_Some. rewrite Hg in Hg2. injection Hg2 as <-.
  destruct (Set_succeeds e key x w l2 g H He Hl2 Hm (proj1 Hp)) as [w2 E2]; [done|].
  destruct (Set_effect e e key x w w2 g H He He Hg E2) as (_&ttl2&Ht2&Hr2&_).
  rewrite E2. simpl. by rewrite Hr2, (Ht2 Hst).
Qed.

End TxnProps.
