(* ===== verification/Lease.v ===== *)
(** * Lease: leases and their revocation

    Models [LeaseManager] of [src/core/lease.go]: [Grant], [Attach], [Revoke]
    and the goroutines of a lease (the expiry timer, its periodic renewal and
    the subscription to revocations). The manager's map is the field
    [w_leases] of the [Warp] whose cache and bus it uses; identifiers come from
    the uuid library and are an argument of [Grant]. *)

From S2P Require Import Prelude Merge TTL CacheIface Store SyncBus Registry Warp WarpCache WarpInv WarpProps.

Section Lease.
Context {T C S B St : Type}.
Context `{!Cache C (Value T), !Bus B}.
Abbreviation W := (Warp T C S B St).
Implicit Types w : W.

(** [bus.SubscribeLease], when there is a bus; an error leaves the lease
    without a subscription. *)
Definition subscribe_lease (cx : ctx) (id : string) w : W * option nat :=
  match w_bus w with
  | None => (w, None)
  | Some b =>
      let '(b, r) := bus_SubscribeLease cx id b in
      (set_bus w (Some b), match r with Ok ch => Some ch | Err _ => None end)
  end.

(** [uuid] is what the identifier generator answers. The timer is armed with
    the TTL; [renewal_interval] is the period of its renewal. *)
Definition renewal_interval (ttl : duration) : duration :=
  let interval := ttl ÷ 2 in if interval <=? 0 then ttl else interval.

Definition Grant (cx : ctx) (uuid : res string) (ttl : duration) w : W * res string :=
  if ttl <=? 0 then (w, Err ErrInvalidLeaseTTL)
  else
    match uuid with
    | Err er => (w, Err er)
    | Ok id =>
        let '(w, sub) := subscribe_lease cx id w in
        (set_leases w (<[id := mkLease ∅ (Some ttl) sub]> (w_leases w)), Ok id)
    end.

Definition Attach (id key : string) w : W :=
  let '(w, l) :=
    match w_leases w !! id with
    | Some l => (w, l)
    | None =>
        let '(w, sub) := subscribe_lease Background id w in (w, mkLease ∅ None sub)
    end in
  set_leases w (<[id := mkLease (l_keys l ∪ {[key]}) (l_timer l) (l_sub l)]> (w_leases w)).

(** [for key := range l.keys { _ = lm.w.cache.Invalidate(ctx, key) }], in
    the order of the argument. *)
Fixpoint invalidate_keys (cx : ctx) (keys : list string) w : W :=
  match keys with
  | [] => w
  | k :: ks => invalidate_keys (after 1 cx) ks (fst (cacheInvalidate (after 0 cx) k w))
  end.

(** [order] enumerates the keys of the lease. *)
Definition revoke (cx : ctx) (id : string) (publish : bool) (order : gset string -> list string) w : W :=
  match w_leases w !! id with
  | None => w
  | Some l =>
      let w := set_leases w (delete id (w_leases w)) in
      let w := match w_bus w, l_sub l with
               | Some b, Some ch =>
                   set_bus w (Some (fst (bus_UnsubscribeLease Background id ch b)))
               | _, _ => w
               end in
      let w := invalidate_keys (after 0 cx) (order (l_keys l)) w in
      match w_bus w with
      | Some b => if publish then set_bus w (Some (fst (bus_RevokeLease (after 1 cx) id b))) else w
      | None => w
      end
  end.

Definition Revoke (cx : ctx) (id : string) (order : gset string -> list string) w : W :=
  revoke cx id true order w.

(** The expiry timer of a granted lease fires. *)
Definition lease_timer_fires (id : string) (order : gset string -> list string) w : W :=
  revoke Background id true order w.

(** The goroutine waiting on the subscription: an event, or the closing of the
    channel, revokes without publishing again. *)
Definition lease_listener_turn (id : string) (order : gset string -> list string) w : W :=
  match w_leases w !! id, w_bus w with
  | Some l, Some b =>
      match l_sub l with
      | None => w
      | Some ch =>
          let '(b, r) := bus_recv ch b in
          let w := set_bus w (Some b) in
          match r with
          | RecvBlocks => w
          | _ => revoke Background id false order w
          end
      end
  | _, _ => w
  end.

(** The methods of [Warp]. *)
Definition Warp_GrantLease (cx : ctx) (uuid : res string) (ttl : duration) w : W * res string :=
  Grant cx uuid ttl w.
Definition Warp_RevokeLease (cx : ctx) (id : string) (order : gset string -> list string) w : W :=
  Revoke cx id order w.
Definition Warp_AttachKey (id key : string) w : W := Attach id key w.

End Lease.

Section LeaseProps.
Context {T C S B St : Type}.
Context `{HCa : !Cache C (Value T), HC : !LawfulCache C (Value T), !Bus B}.
Abbreviation W := (Warp T C S B St).
Implicit Types w : W.

(** [order] is an enumeration of a map's keys. *)
Definition enumerates (order : gset string -> list string) : Prop :=
  forall s k, k ∈ order s <-> k ∈ s.

Lemma invalidate_keys_live ks w :
  warp_ok w -> let w' := invalidate_keys Background ks w in
  warp_ok w' /\ w_leases w' = w_leases w /\ w_bus w' = w_bus w /\
  forall t k, cached w' t k = if decide (k ∈ ks) then None else cached w t k.
Proof.
  revert w. induction ks as [|key ks IH]; intros w H; [done|]. cbn [invalidate_keys].
  change (after 0 Background) with Background. change (after 1 Background) with Background.
  destruct (cacheInvalidate_live key w H) as (c&->&H1&Hn&Ho). simpl fst.
  destruct (IH _ H1) as (H2&E1&E2&Hc). split_and!; [done|done|done|].
  intros t k. rewrite Hc. unfold cached. simpl. destruct (decide (k ∈ ks)).
  - by rewrite decide_True by set_solver.
  - destruct (decide (k = key)) as [->|].
    + by rewrite decide_True by set_solver.
    + rewrite decide_False by set_solver. by apply Ho.
Qed.

(** The keys attached to a lease; none when there is no such lease. *)
Definition lease_keys w (id : string) : gset string :=
  match w_leases w !! id with Some l => l_keys l | None => ∅ end.

Lemma revoke_live id publish order w :
  warp_ok w -> enumerates order ->
  let w' := revoke Background id publish order w in
  warp_ok w' /\ w_leases w' = delete id (w_leases w) /\
  forall t k, cached w' t k = if decide (k ∈ lease_keys w id) then None else cached w t k.
Proof.
  intros H Ho. unfold revoke, lease_keys. destruct (w_leases w !! id) as [l|] eqn:El.
  2:{ split_and!; [done|by rewrite delete_id|]. intros t k. by rewrite decide_False by set_solver. }
  match goal with |- context [invalidate_keys _ _ ?x] => set (w1 := x) end.
  assert (warp_ok w1 /\ w_cache w1 = w_cache w /\ w_leases w1 = delete id (w_leases w)) as (H1&Ec&El1).
  { assert (warp_ok (set_leases w (delete id (w_leases w)))) as H0 by (by eapply warp_ok_ext; [..|exact H]).
    unfold w1. repeat case_match; split_and!; try done. by apply set_bus_ok. }
  change (after 0 Background) with Background. change (after 1 Background) with Background.
  destruct (invalidate_keys_live (order (l_keys l)) w1 H1) as (H2&E2&_&Hc).
  set (w2 := invalidate_keys Background (order (l_keys l)) w1) in *.
  assert (forall t k, cached w2 t k = if decide (k ∈ l_keys l) then None else cached w t k) as Hc'.
  { intros t k. rewrite Hc. unfold cached. rewrite Ec. apply decide_ext, Ho. }
  destruct (w_bus w2) as [b|] eqn:Eb; [destruct publish|]; split_and!; try done; try congruence.
  - by apply set_bus_ok.
  - simpl. congruence.
Qed.

(** Revoking a lease, by a call, by its timer or by an event of the bus,
    ends it and drops every key attached to it from the cache, and no other
    key; revoking it again changes nothing. *)
Theorem revoke_correct id publish order w :
  warp_ok w -> enumerates order ->
  let w' := revoke Background id publish order w in
  warp_ok w' /\ w_leases w' = delete id (w_leases w) /\
  (forall t k, k ∈ lease_keys w id -> cached w' t k = None) /\
  (forall t k, k ∉ lease_keys w id -> cached w' t k = cached w t k) /\
  revoke Background id publish order w' = w'.
Proof.
  intros H Ho w'. destruct (revoke_live id publish order w H Ho) as (H'&El&Hc). fold w' in H', El, Hc.
  split_and!; [done|done| | |].
  - intros t k Hk. by rewrite Hc, decide_True.
  - intros t k Hn. by rewrite Hc, decide_False.
  - unfold revoke at 1. by rewrite El, lookup_delete_eq.
Qed.

Lemma subscribe_lease_ok cx id w :
  warp_ok w -> exists w1 sub, subscribe_lease cx id w = (w1, sub) /\ warp_ok w1 /\
    w_cache w1 = w_cache w /\ w_leases w1 = w_leases w.
Proof.
  intros H. unfold subscribe_lease. destruct (w_bus w) as [b|] eqn:E; [|by eexists _, _].
  destruct (bus_SubscribeLease cx id b) as [b' r]. eexists _, _. split_and!; [done| |done|done].
  by apply set_bus_ok.
Qed.

(** Attaching keys to an existing lease collects them. *)
Lemma Attach_existing id keys l w :
  warp_ok w -> w_leases w !! id = Some l ->
  let w' := foldl (fun w k => Attach id k w) w keys in
  warp_ok w' /\ w_cache w' = w_cache w /\
  w_leases w' !! id = Some (mkLease (l_keys l ∪ list_to_set keys) (l_timer l) (l_sub l)).
Proof.
  revert l w. induction keys as [|key keys IH]; intros l w H Hl; simpl.
  { split_and!; [done|done|]. rewrite Hl, (right_id_L ∅ (∪)). by destruct l. }
  unfold Attach at 2 4 6. rewrite Hl.
  destruct (IH (mkLease (l_keys l ∪ {[key]}) (l_timer l) (l_sub l))
    (set_leases w (<[id := mkLease (l_keys l ∪ {[key]}) (l_timer l) (l_sub l)]> (w_leases w))))
    as (H'&Ec&El); [by eapply warp_ok_ext; [..|exact H]|simpl; by rewrite lookup_insert_eq|].
  split_and!; [done|done|]. rewrite El. simpl. by rewrite (assoc_L (∪)).
Qed.

(** A lease protects what is attached to it: granting needs a positive TTL
    and makes an empty lease with an armed timer; attaching keys collects them
    and leaves the cache alone; and a later revocation drops exactly the keys
    that were attached. *)
Theorem Grant_Attach_Revoke (cx : ctx) (id : string) (ttl : duration) (keys : list string) order w :
  warp_ok w -> enumerates order -> w_leases w !! id = None ->
  let '(w1, r) := Grant cx (Ok id) ttl w in
  (ttl <= 0 -> r = Err ErrInvalidLeaseTTL /\ w1 = w) /\
  (0 < ttl -> r = Ok id /\
     let w2 := foldl (fun w k => Attach id k w) w1 keys in
     (exists sub, w_leases w2 !! id = Some (mkLease (list_to_set keys) (Some ttl) sub)) /\
     (forall t k, cached w2 t k = cached w t k) /\
     (forall t k, cached (Revoke Background id order w2) t k =
        if decide (k ∈ keys) then None else cached w t k)).
Proof.
  intros H Ho Hid. unfold Grant. destruct (ttl <=? 0) eqn:Et; bool_to_prop; [split; [done|lia]|].
  destruct (subscribe_lease_ok cx id w H) as (w1&sub&->&H1&Ec&El). split; [lia|]. intros _. split; [done|].
  set (w2 := set_leases w1 _).
  destruct (Attach_existing id keys (mkLease ∅ (Some ttl) sub) w2) as (H3&Ec3&El3).
  { by eapply warp_ok_ext; [..|exact H1]. }
  { simpl. by rewrite lookup_insert_eq. }
  set (w3 := foldl _ w2 keys) in *. simpl in El3. rewrite (left_id_L ∅ (∪)) in El3.
  assert (forall t k, cached w3 t k = cached w t k) as Hc by (unfold cached; rewrite Ec3; simpl; by rewrite Ec).
  split_and!; [by exists sub|done|]. intros t k.
  destruct (revoke_live id true order w3 H3 Ho) as (_&_&Hr). unfold Revoke. rewrite Hr, Hc.
  unfold lease_keys. rewrite El3. simpl. apply decide_ext. apply elem_of_list_to_set.
Qed.

End LeaseProps.
