(* ===== verification/Lock.v ===== *)
(** * Lock: the in-memory locker

    Models [src/lock/lock.go] and [src/lock/memory.go]: a locker keeps the
    locks its node knows of and tells the other nodes about its own over any
    bus. The state of a locker and the bus are separate, since several lockers
    share one bus.

    A critical section is one function; a publication follows its section as a
    step of its own. A timer of [time.AfterFunc] is a heap cell: armed, fired
    (its goroutine is about to call [Release]), run, or stopped. *)

From S2P Require Import Prelude SyncBus.

Record lockState := mkLockState {
  st_timer : option nat;
  st_notify : nat;
}.

Inductive timerState := TimerArmed | TimerFired | TimerRun | TimerStopped.

#[export] Instance timerState_eq_dec : EqDecision timerState.
Proof. solve_decision. Defined.

Record lockTimer := mkLockTimer {
  tm_key : string;
  tm_at : time;
  tm_state : timerState;
}.

(** A goroutine of [ensureSubscriptions]. *)
Record listener := mkListener {
  ln_lock : bool;
  ln_key : string;
  ln_ch : nat;
}.

#[export] Instance listener_eq_dec : EqDecision listener.
Proof. solve_decision. Defined.

(** [l_notify]: whether a notification channel is closed; [l_next] numbers
    notification channels and timers; [l_panicked] is set by a second close. *)
Record InMemoryLock := mkLocker {
  l_locks : gmap string lockState;
  l_subs : gset string;
  l_pending : gmap string Z;
  l_timers : gmap nat lockTimer;
  l_notify : gmap nat bool;
  l_next : nat;
  l_listeners : list listener;
  l_panicked : bool;
}.

Definition NewInMemoryLock : InMemoryLock := mkLocker ∅ ∅ ∅ ∅ ∅ 0 [] false.

Definition lock_topic (key : string) : string := ("lock:" ++ key)%string.
Definition unlock_topic (key : string) : string := ("unlock:" ++ key)%string.

Implicit Types l : InMemoryLock.

Definition set_locks l locks : InMemoryLock :=
  mkLocker locks (l_subs l) (l_pending l) (l_timers l) (l_notify l) (l_next l) (l_listeners l) (l_panicked l).
Definition set_lsubs l subs ls : InMemoryLock :=
  mkLocker (l_locks l) subs (l_pending l) (l_timers l) (l_notify l) (l_next l) ls (l_panicked l).
Definition set_lpending l p : InMemoryLock :=
  mkLocker (l_locks l) (l_subs l) p (l_timers l) (l_notify l) (l_next l) (l_listeners l) (l_panicked l).
Definition set_timers l t : InMemoryLock :=
  mkLocker (l_locks l) (l_subs l) (l_pending l) t (l_notify l) (l_next l) (l_listeners l) (l_panicked l).
Definition set_notify l n p : InMemoryLock :=
  mkLocker (l_locks l) (l_subs l) (l_pending l) (l_timers l) n (l_next l) (l_listeners l) p.

(** The map of counters yields 0 for a missing topic. *)
Definition pending_at (topic : string) l : Z := default 0 (l_pending l !! topic).
Definition add_pending (topic : string) (d : Z) l : InMemoryLock :=
  set_lpending l (<[topic := pending_at topic l +₆₄ d]> (l_pending l)).

Definition held (key : string) l : bool :=
  match l_locks l !! key with Some _ => true | None => false end.

(** [timer.Stop()]: a timer that has fired is not stopped. *)
Definition stop_timer (timer : option nat) l : InMemoryLock :=
  match timer with
  | None => l
  | Some t =>
      match l_timers l !! t with
      | Some tm =>
          if decide (tm_state tm = TimerArmed)
          then set_timers l (<[t := mkLockTimer (tm_key tm) (tm_at tm) TimerStopped]> (l_timers l))
          else l
      | None => l
      end
  end.

(** [close(st.notify)] *)
Definition close_notify (n : nat) l : InMemoryLock :=
  match l_notify l !! n with
  | Some true => set_notify l (l_notify l) true
  | _ => set_notify l (<[n := true]> (l_notify l)) (l_panicked l)
  end.

(** A new entry of [locks], with its notification channel. *)
Definition add_lock (key : string) (timer : option nat) l : InMemoryLock :=
  mkLocker (<[key := mkLockState timer (l_next l)]> (l_locks l)) (l_subs l) (l_pending l) (l_timers l)
    (<[l_next l := false]> (l_notify l)) (S (l_next l)) (l_listeners l) (l_panicked l).

(** Stop the timer, close the channel, forget the lock. *)
Definition drop_lock (key : string) (st : lockState) l : InMemoryLock :=
  let l := close_notify (st_notify st) (stop_timer (st_timer st) l) in
  set_locks l (delete key (l_locks l)).

(** The critical section of [TryLock]. *)
Definition try_section (now : time) (key : string) (ttl : duration) l : InMemoryLock * bool :=
  match l_locks l !! key with
  | Some _ => (l, false)
  | None =>
      let '(timer, l) :=
        if 0 <? ttl
        then (Some (l_next l),
              set_timers l (<[l_next l := mkLockTimer key (time_Add now ttl) TimerArmed]> (l_timers l)))
        else (None, l) in
      (add_pending (lock_topic key) 1 (add_lock key timer l), true)
  end.

(** The critical section of [Release]: whether there was a lock. *)
Definition release_section (key : string) l : InMemoryLock * bool :=
  match l_locks l !! key with
  | None => (l, false)
  | Some st => (add_pending (unlock_topic key) 1 (drop_lock key st l), true)
  end.

(** The critical sections of the two listeners. *)
Definition lock_event (key : string) l : InMemoryLock :=
  if 0 <? pending_at (lock_topic key) l then add_pending (lock_topic key) (-1) l
  else match l_locks l !! key with
       | Some _ => l
       | None => add_lock key None l
       end.

Definition unlock_event (key : string) l : InMemoryLock :=
  if 0 <? pending_at (unlock_topic key) l then add_pending (unlock_topic key) (-1) l
  else match l_locks l !! key with
       | Some st => drop_lock key st l
       | None => l
       end.

(** The first section of [ensureSubscriptions]: whether the key is subscribed
    already. *)
Definition ensure_mark (key : string) l : InMemoryLock * bool :=
  if decide (key ∈ l_subs l) then (l, true) else (set_lsubs l ({[key]} ∪ l_subs l) (l_listeners l), false).

Definition ensure_cleanup (key : string) l : InMemoryLock :=
  set_lsubs l (l_subs l ∖ {[key]}) (l_listeners l).

Section Locker.
Context {B : Type} `{!Bus B}.
Implicit Types (b : B) (s : InMemoryLock * B).

Definition ensureSubscriptions (key : string) s : (InMemoryLock * B) * option error :=
  let '(l, b) := s in
  let '(l, known) := ensure_mark key l in
  if known then ((l, b), None)
  else
    let '(b, r) := bus_Subscribe Background (lock_topic key) b in
    match r with
    | Err e => ((ensure_cleanup key l, b), Some e)
    | Ok lockCh =>
        let '(b, r) := bus_Subscribe Background (unlock_topic key) b in
        match r with
        | Err e =>
            let '(b, _) := bus_Unsubscribe Background (lock_topic key) lockCh b in
            ((ensure_cleanup key l, b), Some e)
        | Ok unlockCh =>
            ((set_lsubs l (l_subs l)
                (mkListener true key lockCh :: mkListener false key unlockCh :: l_listeners l), b), None)
        end
    end.

Definition TryLock (cx : ctx) (now : time) (key : string) (ttl : duration) s
    : (InMemoryLock * B) * res bool :=
  let '((l, b), err) := ensureSubscriptions key s in
  match err with
  | Some e => ((l, b), Err e)
  | None =>
      let '(l, ok) := try_section now key ttl l in
      if ok then
        let '(b, _) := bus_Publish (after 0 cx) (lock_topic key) [] b in ((l, b), Ok true)
      else ((l, b), Ok false)
  end.

Definition Release (cx : ctx) (key : string) s : InMemoryLock * B :=
  let '(l, b) := s in
  let '(l, ok) := release_section key l in
  if ok then let '(b, _) := bus_Publish (after 0 cx) (unlock_topic key) [] b in (l, b) else (l, b).

(** ** Acquire

    One iteration of the loop up to the select ([acquire_try]), and the select
    ([acquire_wait]): [pick] decides when both cases are ready. *)
Inductive acq :=
| AcqDone (err : option error)
| AcqWaiting (ch : nat)
| AcqRetry.

Definition acquire_try (cx : ctx) (now : time) (key : string) (ttl : duration) s
    : (InMemoryLock * B) * acq :=
  let '(l, b) := s in
  let '(b, r) := bus_Subscribe (after 0 cx) (unlock_topic key) b in
  match r with
  | Err e => ((l, b), AcqDone (Some e))
  | Ok ch =>
      let '((l, b), r) := TryLock (after 1 cx) now key ttl (l, b) in
      match r with
      | Err e =>
          let '(b, _) := bus_Unsubscribe Background (unlock_topic key) ch b in
          ((l, b), AcqDone (Some e))
      | Ok true =>
          let '(b, _) := bus_Unsubscribe Background (unlock_topic key) ch b in
          ((l, b), AcqDone None)
      | Ok false => ((l, b), AcqWaiting ch)
      end
  end.

(** A receive on a closed channel also ends the wait. *)
Definition acquire_wait (cx : ctx) (pick : bool) (key : string) (ch : nat) s
    : (InMemoryLock * B) * acq :=
  let '(l, b) := s in
  let unsubscribe b := fst (bus_Unsubscribe Background (unlock_topic key) ch b) in
  let '(b', r) := bus_recv ch b in
  let ready := match r with RecvBlocks => false | _ => true end in
  match ready, cx 0%nat with
  | true, None => ((l, unsubscribe b'), AcqRetry)
  | true, Some e =>
      if pick then ((l, unsubscribe b'), AcqRetry) else ((l, unsubscribe b), AcqDone (Some e))
  | false, Some e => ((l, unsubscribe b), AcqDone (Some e))
  | false, None => ((l, b), AcqWaiting ch)
  end.

(** ** Goroutines *)

(** One iteration of a listener; it ends when its channel is closed. *)
Definition listener_step (ln : listener) s : InMemoryLock * B :=
  let '(l, b) := s in
  let '(b, r) := bus_recv (ln_ch ln) b in
  match r with
  | Received _ => ((if ln_lock ln then lock_event else unlock_event) (ln_key ln) l, b)
  | RecvClosed => (set_lsubs l (l_subs l) (filter (fun x => x <> ln) (l_listeners l)), b)
  | RecvBlocks => (l, b)
  end.

(** The timer's goroutine starts once its time has come. *)
Definition timer_fire (now : time) (t : nat) l : InMemoryLock :=
  match l_timers l !! t with
  | Some tm =>
      if decide (tm_state tm = TimerArmed /\ tm_at tm <= now)
      then set_timers l (<[t := mkLockTimer (tm_key tm) (tm_at tm) TimerFired]> (l_timers l))
      else l
  | None => l
  end.

(** It calls [Release] for its key. *)
Definition timer_run (t : nat) s : InMemoryLock * B :=
  match l_timers (fst s) !! t with
  | Some tm =>
      if decide (tm_state tm = TimerFired) then
        Release Background (tm_key tm)
          (set_timers (fst s) (<[t := mkLockTimer (tm_key tm) (tm_at tm) TimerRun]> (l_timers (fst s))), snd s)
      else s
  | None => s
  end.

End Locker.
