(* ===== verification/LockProps.v ===== *)
(** * LockProps: what the in-memory locker promises

    The invariant of a locker under every interleaving of its operations,
    listeners and timers; expiry; exclusion between callers of a node and, once
    its events are handled, between nodes on one bus; no lost wake-up in
    [Acquire]. Two theorems show where the locker falls short: a timer that has
    fired releases whoever holds the lock by then, and a coalesced event leaves
    a counter behind that makes a node ignore another node's lock. *)

From S2P Require Import Prelude SyncBus Lock.

Implicit Types (l : InMemoryLock).

(** ** Invariant *)

Definition timer_live (ts : timerState) : bool :=
  match ts with TimerArmed | TimerFired => true | _ => false end.

(** A held lock has an open channel of its own; its timer, if any, is armed or
    has fired, and is the timer of its key. An armed timer belongs to the lock
    held for its key. *)
Record lock_inv l : Prop := {
  li_notify : forall key st, l_locks l !! key = Some st -> l_notify l !! st_notify st = Some false;
  li_owner : forall k k' st st', l_locks l !! k = Some st -> l_locks l !! k' = Some st' ->
    st_notify st = st_notify st' -> k = k';
  li_timer : forall key st t, l_locks l !! key = Some st -> st_timer st = Some t ->
    t = st_notify st /\ exists tm, l_timers l !! t = Some tm /\ tm_key tm = key /\ timer_live (tm_state tm) = true;
  li_armed : forall t tm, l_timers l !! t = Some tm -> tm_state tm = TimerArmed ->
    exists st, l_locks l !! tm_key tm = Some st /\ st_timer st = Some t;
  li_fresh : forall n, (l_next l <= n)%nat -> l_notify l !! n = None /\ l_timers l !! n = None;
  li_panic : l_panicked l = false;
}.

(** The parts of the state the invariant reads. *)
Lemma lock_inv_ext l l' :
  l_locks l' = l_locks l -> l_timers l' = l_timers l -> l_notify l' = l_notify l ->
  l_next l' = l_next l -> l_panicked l' = l_panicked l -> lock_inv l -> lock_inv l'.
Proof. intros E1 E2 E3 E4 E5 []. split; rewrite ?E1, ?E2, ?E3, ?E4, ?E5; done. Qed.

Lemma add_pending_inv topic d l : lock_inv l -> lock_inv (add_pending topic d l).
Proof. by apply lock_inv_ext. Qed.

Lemma li_fresh_lock l key st : lock_inv l -> l_locks l !! key = Some st -> (st_notify st < l_next l)%nat.
Proof.
  intros H Hk. destruct (decide (l_next l <= st_notify st)%nat) as [Hle|]; [|lia].
  pose proof (li_notify _ H _ _ Hk) as Hn. destruct (li_fresh _ H _ Hle) as [Hf _]. congruence.
Qed.

(** A lock added with a timer at an instant, or without one. *)
Definition with_timer (key : string) (at_ : option time) l : InMemoryLock :=
  match at_ with
  | Some t => set_timers l (<[l_next l := mkLockTimer key t TimerArmed]> (l_timers l))
  | None => l
  end.

Lemma with_timer_static key at_ l :
  l_locks (with_timer key at_ l) = l_locks l /\ l_notify (with_timer key at_ l) = l_notify l /\
  l_next (with_timer key at_ l) = l_next l /\ l_panicked (with_timer key at_ l) = l_panicked l.
Proof. by destruct at_. Qed.

Lemma with_timer_ne key at_ l t :
  t <> l_next l -> l_timers (with_timer key at_ l) !! t = l_timers l !! t.
Proof. intros. destruct at_; simpl; [by rewrite lookup_insert_ne|done]. Qed.

Lemma add_lock_inv key (at_ : option time) l :
  lock_inv l -> l_locks l !! key = None ->
  lock_inv (add_lock key ((fun _ => l_next l) <$> at_) (with_timer key at_ l)).
Proof.
  intros H Hk. pose proof (fun k st => li_fresh_lock l k st H) as Hlt. pose proof H as [H1 H2 H3 H4 H5 H6].
  destruct (with_timer_static key at_ l) as (E1&E2&E3&E4). split; simpl; rewrite ?E1, ?E2, ?E3, ?E4.
  - intros k st [[<- <-]|[Hne Hs]]%lookup_insert_Some; simpl; [by rewrite ?E3, lookup_insert_eq|].
    rewrite lookup_insert_ne; [by eapply H1|]. specialize (Hlt _ _ Hs). lia.
  - intros k k' st st' [[<- <-]|[Hne Hs]]%lookup_insert_Some [[<- <-]|[Hne' Hs']]%lookup_insert_Some;
      simpl; rewrite ?E3; intros E; try done.
    + specialize (Hlt _ _ Hs'). lia.
    + specialize (Hlt _ _ Hs). lia.
    + by eapply H2.
  - intros k st t [[<- <-]|[Hne Hs]]%lookup_insert_Some; simpl; rewrite ?E3.
    + destruct at_ as [a|]; [|done]. intros [= <-]. split; [done|]. simpl.
      rewrite lookup_insert_eq. by eexists.
    + intros Et. destruct (H3 k st t Hs Et) as [-> Htm]. split; [done|].
      rewrite with_timer_ne; [done|]. specialize (Hlt _ _ Hs). lia.
  - intros t tm Ht Ha. destruct (decide (t = l_next l)) as [->|Hne].
    + destruct at_ as [a|]; simpl in Ht.
      * rewrite lookup_insert_eq in Ht. simplify_eq/=. rewrite lookup_insert_eq. by eexists.
      * destruct (H5 (l_next l)) as [_ Hf]; [lia|]. congruence.
    + rewrite with_timer_ne in Ht by done. destruct (H4 t tm Ht Ha) as (st & Hs & Hst). exists st.
      by rewrite lookup_insert_ne by congruence.
  - intros n Hn. rewrite lookup_insert_ne, with_timer_ne by lia. apply H5. lia.
  - done.
Qed.

Lemma try_section_inv now key ttl l : lock_inv l -> lock_inv (fst (try_section now key ttl l)).
Proof.
  intros H. unfold try_section. destruct (l_locks l !! key) as [st|] eqn:Hk; [done|].
  destruct (0 <? ttl); simpl; apply add_pending_inv.
  - by apply (add_lock_inv key (Some (time_Add now ttl))).
  - by apply (add_lock_inv key None).
Qed.

(** Stopping a timer only changes the state of an armed one. *)
Lemma stop_timer_spec timer l :
  l_locks (stop_timer timer l) = l_locks l /\ l_notify (stop_timer timer l) = l_notify l /\
  l_next (stop_timer timer l) = l_next l /\ l_panicked (stop_timer timer l) = l_panicked l /\
  l_pending (stop_timer timer l) = l_pending l /\
  forall t, l_timers (stop_timer timer l) !! t =
    (fun tm => if decide (Some t = timer /\ tm_state tm = TimerArmed)
               then mkLockTimer (tm_key tm) (tm_at tm) TimerStopped else tm) <$> l_timers l !! t.
Proof.
  assert (forall t, (forall tm, l_timers l !! t = Some tm -> ~ (Some t = timer /\ tm_state tm = TimerArmed)) ->
    l_timers l !! t = (fun tm => if decide (Some t = timer /\ tm_state tm = TimerArmed)
      then mkLockTimer (tm_key tm) (tm_at tm) TimerStopped else tm) <$> l_timers l !! t) as Hid.
  { intros t Ht. destruct (l_timers l !! t) as [tm|]; [|done]. simpl. by rewrite decide_False by auto. }
  unfold stop_timer. destruct timer as [n|]; [|split_and!; try done; intros t; apply Hid; by intros ? ? []].
  destruct (l_timers l !! n) as [tm|] eqn:En; [case_decide as Ha|].
  - split_and!; try done. intros t. simpl. destruct (decide (t = n)) as [->|].
    + by rewrite lookup_insert_eq, En; simpl; rewrite decide_True.
    + rewrite lookup_insert_ne by done. apply Hid. intros ? ? [? _]. congruence.
  - split_and!; try done. intros t. apply Hid. intros tm' Ht [[= ->] ?]. congruence.
  - split_and!; try done. intros t. apply Hid. intros tm' Ht [[= ->] ?]. congruence.
Qed.

Lemma drop_lock_inv key st l :
  lock_inv l -> l_locks l !! key = Some st -> lock_inv (drop_lock key st l).
Proof.
  intros H Hk. unfold drop_lock. destruct (stop_timer_spec (st_timer st) l) as (E1&E2&E3&E4&_&E5).
  set (l1 := stop_timer (st_timer st) l) in *. unfold close_notify. rewrite E2, (li_notify _ H _ _ Hk).
  assert (forall k st', delete key (l_locks l) !! k = Some st' ->
    l_locks l !! k = Some st' /\ st_notify st' <> st_notify st) as Hd.
  { intros k st' [Hne Hs]%lookup_delete_Some. split; [done|]. intros E. by apply Hne, (li_owner _ H _ _ _ _ Hk Hs). }
  assert (forall t, is_Some (l_timers l !! t) <-> is_Some (l_timers l1 !! t)) as Hsome.
  { intros t. rewrite E5, fmap_is_Some. done. }
  split; simpl; rewrite ?E1, ?E3, ?E4.
  - intros k st' [Hs Hne]%Hd. rewrite lookup_insert_ne by congruence. by apply (li_notify _ H k).
  - intros k k' st1 st2 [H1 _]%Hd [H2 _]%Hd. by apply (li_owner _ H).
  - intros k st' t [Hs Hne]%Hd Ht. destruct (li_timer _ H k st' t Hs Ht) as (-> & tm & Htm & Htk & Htl).
    split; [done|]. exists tm. rewrite E5, Htm. simpl. rewrite decide_False; [done|]. intros [E _].
    destruct (li_timer _ H key st _ Hk (eq_sym E)) as [? _]. congruence.
  - intros t tm Ht Ha. rewrite E5 in Ht. destruct (l_timers l !! t) as [tm0|] eqn:Et; [|done].
    simpl in Ht. case_decide as Hc; simplify_eq/=. destruct (li_armed _ H t tm Et Ha) as (st' & Hs & Hst).
    exists st'. split; [|done]. rewrite lookup_delete_ne; [done|]. intros Ek. apply Hc. split; [|done]. rewrite <- Ek, Hk in Hs. congruence.
  - intros n Hn. destruct (li_fresh _ H n Hn) as [Hf1 Hf2]. split.
    + rewrite lookup_insert_ne; [done|]. pose proof (li_fresh_lock l key st H Hk). lia.
    + by rewrite E5, Hf2.
  - apply H.
Qed.

Lemma release_section_inv key l : lock_inv l -> lock_inv (fst (release_section key l)).
Proof.
  intros H. unfold release_section. destruct (l_locks l !! key) as [st|] eqn:Hk; [|done].
  by apply add_pending_inv, drop_lock_inv.
Qed.

Lemma lock_event_inv key l : lock_inv l -> lock_inv (lock_event key l).
Proof.
  intros H. unfold lock_event. destruct (_ <? _); [by apply add_pending_inv|].
  destruct (l_locks l !! key) eqn:E; [done|by apply (add_lock_inv key None)].
Qed.

Lemma unlock_event_inv key l : lock_inv l -> lock_inv (unlock_event key l).
Proof.
  intros H. unfold unlock_event. destruct (_ <? _); [by apply add_pending_inv|].
  destruct (l_locks l !! key) eqn:E; [by apply drop_lock_inv|done].
Qed.

(** A change of one timer of a live or dead lock that keeps an owned timer live
    and arms none. *)
Lemma set_timer_inv t tm ts l :
  lock_inv l -> l_timers l !! t = Some tm -> ts <> TimerArmed ->
  (forall st, l_locks l !! tm_key tm = Some st -> st_timer st = Some t -> timer_live ts = true) ->
  lock_inv (set_timers l (<[t := mkLockTimer (tm_key tm) (tm_at tm) ts]> (l_timers l))).
Proof.
  intros [H1 H2 H3 H4 H5 H6] Ht Hts Hown. split; simpl; try done.
  - intros k st u Hs Hu. destruct (H3 k st u Hs Hu) as (-> & tm' & Htm & Hk & Hl). split; [done|].
    destruct (decide (t = st_notify st)) as [->|].
    + rewrite lookup_insert_eq. rewrite Ht in Htm. simplify_eq. eexists. split_and!; [done|done|].
      simpl. by eapply Hown.
    + rewrite lookup_insert_ne by done. by exists tm'.
  - intros u tm' [[<- <-]|[Hne Hu]]%lookup_insert_Some Ha; [done|]. by eapply H4.
  - intros n Hn. destruct (H5 n Hn) as [? Hf]. split; [done|]. rewrite lookup_insert_ne; [done|]. congruence.
Qed.

Lemma timer_fire_inv now t l : lock_inv l -> lock_inv (timer_fire now t l).
Proof.
  intros H. unfold timer_fire. destruct (l_timers l !! t) as [tm|] eqn:Ht; [|done].
  destruct (decide (_ /\ _)); [|done]. by apply set_timer_inv.
Qed.

(** The part of [timer_run] that runs in the locker: [Release] and the mark on
    the timer commute, as the timer has fired and is not stopped. *)
Definition timer_section (t : nat) (tm : lockTimer) l : InMemoryLock :=
  fst (release_section (tm_key tm)
    (set_timers l (<[t := mkLockTimer (tm_key tm) (tm_at tm) TimerRun]> (l_timers l)))).

(** The state in which a timer has run and its lock is gone. *)
Lemma timer_section_inv t tm l :
  lock_inv l -> l_timers l !! t = Some tm -> tm_state tm = TimerFired ->
  lock_inv (timer_section t tm l).
Proof.
  intros H Ht Hf. unfold timer_section, release_section. simpl.
  destruct (l_locks l !! tm_key tm) as [st|] eqn:Hk; simpl.
  2:{ apply set_timer_inv; [done..|]. intros st. by rewrite Hk. }
  apply add_pending_inv. destruct (decide (st_timer st = Some t)) as [Est|Est].
  2:{ apply drop_lock_inv; [|done]. apply set_timer_inv; [done..|]. intros st'. rewrite Hk. by intros [= <-]. }
  (* the lock's own timer: drop the lock first, then mark the timer *)
  pose proof (drop_lock_inv _ _ _ H Hk) as Hd. unfold drop_lock in *.
  destruct (stop_timer_spec (st_timer st) l) as (E1&E2&E3&E4&E6&E5).
  assert (stop_timer (st_timer st) l = l) as Hstop.
  { unfold stop_timer. by rewrite Est, Ht, decide_False by congruence. }
  assert (stop_timer (st_timer st) (set_timers l (<[t := mkLockTimer (tm_key tm) (tm_at tm) TimerRun]> (l_timers l)))
    = set_timers l (<[t := mkLockTimer (tm_key tm) (tm_at tm) TimerRun]> (l_timers l))) as ->.
  { unfold stop_timer. rewrite Est. simpl. by rewrite lookup_insert_eq. }
  rewrite Hstop in Hd. unfold close_notify in *. simpl. rewrite (li_notify _ H _ _ Hk) in *.
  apply (set_timer_inv t tm TimerRun _ Hd Ht); [done|]. simpl. intros st'. by rewrite lookup_delete_eq.
Qed.

(** ** Steps

    The steps of a locker: its critical sections, its timers, and any change of
    the bus. A step is labelled with the key whose lock it may drop. *)
Section Steps.
Context {B : Type} `{!Bus B}.
Implicit Types (b : B) (s : InMemoryLock * B).

Inductive lock_step : option string -> InMemoryLock * B -> InMemoryLock * B -> Prop :=
| ls_bus l b b' : lock_step None (l, b) (l, b')
| ls_mark key l b : lock_step None (l, b) (fst (ensure_mark key l), b)
| ls_cleanup key l b : lock_step None (l, b) (ensure_cleanup key l, b)
| ls_listeners ls l b : lock_step None (l, b) (set_lsubs l (l_subs l) ls, b)
| ls_try now key ttl l b : lock_step None (l, b) (fst (try_section now key ttl l), b)
| ls_release key l b : lock_step (Some key) (l, b) (fst (release_section key l), b)
| ls_lock_event key l b : lock_step None (l, b) (lock_event key l, b)
| ls_unlock_event key l b : lock_step (Some key) (l, b) (unlock_event key l, b)
| ls_fire now t l b : lock_step None (l, b) (timer_fire now t l, b)
| ls_timer t tm l b : l_timers l !! t = Some tm -> tm_state tm = TimerFired ->
    lock_step (Some (tm_key tm)) (l, b) (timer_section t tm l, b).

Definition any_step s s' : Prop := exists o, lock_step o s s'.
(** A step that does not drop the lock of the key. *)
Definition other_step (key : string) s s' : Prop := exists o, o <> Some key /\ lock_step o s s'.

Lemma lock_step_inv o s s' : lock_step o s s' -> lock_inv (fst s) -> lock_inv (fst s').
Proof.
  destruct 1; simpl; intros Hi; try (eapply lock_inv_ext; [..|exact Hi]; done).
  - unfold ensure_mark. case_decide; [done|]. by eapply lock_inv_ext; [..|exact Hi].
  - by apply try_section_inv.
  - by apply release_section_inv.
  - by apply lock_event_inv.
  - by apply unlock_event_inv.
  - by apply timer_fire_inv.
  - by apply timer_section_inv.
Qed.

Lemma NewInMemoryLock_inv : lock_inv NewInMemoryLock.
Proof. by split. Qed.

Lemma any_steps_inv s s' : rtc any_step s s' -> lock_inv (fst s) -> lock_inv (fst s').
Proof. induction 1 as [|x y z [o Hs] _ IH]; [done|]. intros Hx. by eapply IH, lock_step_inv. Qed.

(** ** The operations are sequences of steps *)

Lemma other_step_once key o s s' : o <> Some key -> lock_step o s s' -> rtc (other_step key) s s'.
Proof. intros Ho Hs. apply rtc_once. by exists o. Qed.

Lemma ensureSubscriptions_steps k key s :
  rtc (other_step k) s (fst (ensureSubscriptions key s)).
Proof.
  destruct s as [l b]. unfold ensureSubscriptions.
  destruct (ensure_mark key l) as [l1 known] eqn:E1.
  assert (rtc (other_step k) (l, b) (l1, b)) as Hm.
  { change l1 with (l1, known).1. rewrite <- E1. by eapply other_step_once; [|apply ls_mark]. }
  destruct known; [done|]. destruct (bus_Subscribe _ _ b) as [b1 [c1|e]].
  - destruct (bus_Subscribe _ _ b1) as [b2 [c2|e]]; simpl.
    + etrans; [exact Hm|]. etrans; [by eapply other_step_once; [|apply (ls_bus _ _ b2)]|].
      by eapply other_step_once; [|apply ls_listeners].
    + destruct (bus_Unsubscribe _ _ _ b2) as [b3 ?]. simpl. etrans; [exact Hm|].
      etrans; [by eapply other_step_once; [|apply (ls_bus _ _ b3)]|].
      by eapply other_step_once; [|apply ls_cleanup].
  - simpl. etrans; [exact Hm|]. etrans; [by eapply other_step_once; [|apply (ls_bus _ _ b1)]|].
    by eapply other_step_once; [|apply ls_cleanup].
Qed.

Lemma TryLock_steps k cx now key ttl s : rtc (other_step k) s (fst (TryLock cx now key ttl s)).
Proof.
  unfold TryLock. pose proof (ensureSubscriptions_steps k key s) as He.
  destruct (ensureSubscriptions key s) as [[l b] [e|]]; [done|]. simpl in He.
  destruct (try_section now key ttl l) as [l1 ok] eqn:E.
  assert (rtc (other_step k) s (l1, b)) as H1.
  { etrans; [exact He|]. change l1 with (l1, ok).1. rewrite <- E. by eapply other_step_once; [|apply ls_try]. }
  destruct ok; [|done]. destruct (bus_Publish _ _ _ b) as [b1 ?]. etrans; [exact H1|].
  by eapply other_step_once; [|apply ls_bus].
Qed.

Lemma Release_steps cx key s : rtc any_step s (Release cx key s).
Proof.
  destruct s as [l b]. unfold Release. destruct (release_section key l) as [l1 ok] eqn:E.
  assert (rtc any_step (l, b) (l1, b)) as H1.
  { apply rtc_once. exists (Some key). change l1 with (l1, ok).1. rewrite <- E. apply ls_release. }
  destruct ok; [|done]. destruct (bus_Publish _ _ _ b) as [b1 ?]. etrans; [exact H1|].
  apply rtc_once. eexists. apply ls_bus.
Qed.

Lemma timer_run_steps t s : rtc any_step s (timer_run t s).
Proof.
  destruct s as [l b]. unfold timer_run. simpl. destruct (l_timers l !! t) as [tm|] eqn:Ht; [|done].
  case_decide as Hf; [|done]. unfold Release.
  assert (rtc any_step (l, b) (timer_section t tm l, b)) as H1
    by (apply rtc_once; eexists; by apply ls_timer).
  unfold timer_section in H1. destruct (release_section _ _) as [l1 ok]. destruct ok; [|done].
  destruct (bus_Publish _ _ _ b) as [b1 ?]. etrans; [exact H1|]. apply rtc_once. eexists. apply ls_bus.
Qed.

Lemma listener_steps ln s : rtc any_step s (listener_step ln s).
Proof.
  destruct s as [l b]. unfold listener_step. destruct (bus_recv (ln_ch ln) b) as [b1 r].
  transitivity (l, b1); [apply rtc_once; eexists; apply ls_bus|].
  destruct r; [|apply rtc_once; eexists; apply ls_listeners|done].
  destruct (ln_lock ln); apply rtc_once; eexists; [apply ls_lock_event|apply ls_unlock_event].
Qed.

(** ** Exclusion and expiry *)

Lemma drop_lock_other key k st l :
  k <> key -> l_locks (drop_lock key st l) !! k = l_locks l !! k.
Proof.
  intros. unfold drop_lock, close_notify. destruct (stop_timer_spec (st_timer st) l) as (E&_).
  case_match; simpl; rewrite lookup_delete_ne by done; [case_match|]; simpl; by rewrite E.
Qed.

Lemma drop_lock_timers key st l t :
  l_timers (drop_lock key st l) !! t = l_timers (stop_timer (st_timer st) l) !! t.
Proof. unfold drop_lock, close_notify. by repeat case_match. Qed.

Lemma release_section_other key k l :
  k <> key -> l_locks (fst (release_section key l)) !! k = l_locks l !! k.
Proof. intros. unfold release_section. case_match; [|done]. by apply drop_lock_other. Qed.

Lemma release_section_frees key l : held key (fst (release_section key l)) = false.
Proof.
  unfold release_section, held. destruct (l_locks l !! key) as [st|] eqn:E; simpl; [|by rewrite E].
  unfold drop_lock. simpl. by rewrite lookup_delete_eq.
Qed.

(** Only a step labelled with its key drops a lock. *)
Lemma other_step_keeps key st s s' :
  other_step key s s' -> l_locks (fst s) !! key = Some st -> l_locks (fst s') !! key = Some st.
Proof.
  intros (o & Ho & Hs). destruct Hs as [l b b'|k l b|k l b|ls l b|now k ttl l b|k l b|k l b|k l b|now t l b|t tm l b Ht Hf];
    simpl; intros Hk; try done.
  - unfold ensure_mark. by case_decide.
  - unfold try_section. destruct (l_locks l !! k) eqn:E; [done|].
    destruct (0 <? ttl); simpl; rewrite lookup_insert_ne by congruence; done.
  - rewrite release_section_other by congruence. done.
  - unfold lock_event. case_match; [done|]. destruct (l_locks l !! k) eqn:E; [done|].
    simpl. by rewrite lookup_insert_ne by congruence.
  - unfold unlock_event. case_match; [done|]. destruct (l_locks l !! k) eqn:E; [|done].
    rewrite drop_lock_other by congruence. done.
  - unfold timer_fire. destruct (l_timers l !! t); [|done]. by destruct (decide (_ /\ _)).
  - unfold timer_section. rewrite release_section_other by congruence. done.
Qed.

(** A timer keeps its key and its instant. *)
Lemma lock_step_timer o s s' t tm :
  lock_step o s s' -> lock_inv (fst s) -> l_timers (fst s) !! t = Some tm ->
  exists tm', l_timers (fst s') !! t = Some tm' /\ tm_key tm' = tm_key tm /\ tm_at tm' = tm_at tm.
Proof.
  assert (forall l key st tm, l_timers l !! t = Some tm -> exists tm',
    l_timers (drop_lock key st l) !! t = Some tm' /\ tm_key tm' = tm_key tm /\ tm_at tm' = tm_at tm) as Hdrop.
  { intros l key st tm0 Ht. rewrite drop_lock_timers.
    destruct (stop_timer_spec (st_timer st) l) as (_&_&_&_&_&E). rewrite E, Ht. simpl.
    eexists. split; [done|]. by destruct (decide (_ /\ _)). }
  intros Hs. destruct Hs as [l b b'|k l b|k l b|ls l b|now k ttl l b|k l b|k l b|k l b|now u l b|u tm0 l b Hu Hf];
    simpl; intros Hi Ht; try by exists tm.
  - unfold ensure_mark. case_decide; by exists tm.
  - unfold try_section. destruct (l_locks l !! k); [by exists tm|]. destruct (0 <? ttl); simpl; [|by exists tm].
    exists tm. rewrite lookup_insert_ne; [done|]. intros <-. destruct (li_fresh _ Hi (l_next l)) as [_ ?]; [lia|].
    congruence.
  - unfold release_section. case_match; [|by exists tm]. by apply Hdrop.
  - unfold lock_event. repeat case_match; by exists tm.
  - unfold unlock_event. repeat case_match; try by exists tm. by apply Hdrop.
  - unfold timer_fire. destruct (l_timers l !! u) as [tm0|] eqn:Hu; [|by exists tm].
    destruct (decide (_ /\ _)); [|by exists tm]. simpl. destruct (decide (u = t)) as [->|].
    + rewrite lookup_insert_eq. rewrite Ht in Hu. simplify_eq. by eexists.
    + rewrite lookup_insert_ne by done. by exists tm.
  - unfold timer_section, release_section. simpl.
    set (l1 := set_timers l _).
    assert (exists tm', l_timers l1 !! t = Some tm' /\ tm_key tm' = tm_key tm /\ tm_at tm' = tm_at tm) as (tm1&H1&E1&E2).
    { unfold l1. simpl. destruct (decide (u = t)) as [->|]; [rewrite lookup_insert_eq|rewrite lookup_insert_ne by done].
      - rewrite Ht in Hu. simplify_eq. by eexists.
      - by exists tm. }
    case_match; simpl; [|by exists tm1]. destruct (Hdrop l1 (tm_key tm0) l0 tm1 H1) as (tm2&?&?&?).
    exists tm2. split_and!; [done|congruence|congruence].
Qed.

Lemma ensureSubscriptions_locks key s :
  l_locks (fst (fst (ensureSubscriptions key s))) = l_locks (fst s) /\
  l_pending (fst (fst (ensureSubscriptions key s))) = l_pending (fst s).
Proof. destruct s as [l b]. unfold ensureSubscriptions, ensure_mark. by repeat case_match; simplify_eq/=. Qed.

(** What a successful [TryLock] leaves. *)
Lemma TryLock_true cx now key ttl s s' :
  lock_inv (fst s) -> TryLock cx now key ttl s = (s', Ok true) ->
  held key (fst s) = false /\ exists st, l_locks (fst s') !! key = Some st /\
    (0 < ttl -> exists t, st_timer st = Some t /\
       l_timers (fst s') !! t = Some (mkLockTimer key (now + ttl) TimerArmed)).
Proof.
  intros Hi. unfold TryLock. destruct (ensureSubscriptions_locks key s) as [El _].
  destruct (ensureSubscriptions key s) as [[l b] [e|]]; [done|]. simpl in El.
  unfold try_section, held. rewrite El. destruct (l_locks (fst s) !! key) eqn:Ek; [done|].
  destruct (0 <? ttl) eqn:Et; bool_to_prop.
  - destruct (bus_Publish _ _ _ b). intros [= <-]. split; [done|]. simpl. rewrite lookup_insert_eq.
    eexists. split; [done|]. intros _. eexists. split; [done|]. by rewrite lookup_insert_eq.
  - destruct (bus_Publish _ _ _ b). intros [= <-]. split; [done|]. simpl. rewrite lookup_insert_eq.
    eexists. split; [done|]. lia.
Qed.

Lemma TryLock_held cx now key ttl s :
  held key (fst s) = true -> snd (TryLock cx now key ttl s) <> Ok true.
Proof.
  intros Hh. unfold TryLock. destruct (ensureSubscriptions_locks key s) as [El _].
  destruct (ensureSubscriptions key s) as [[l b] [e|]]; [done|]. simpl in El.
  unfold try_section. unfold held in Hh. rewrite El. by destruct (l_locks (fst s) !! key).
Qed.

Lemma other_steps_keep key st s s' :
  rtc (other_step key) s s' -> l_locks (fst s) !! key = Some st -> l_locks (fst s') !! key = Some st.
Proof. induction 1; eauto using other_step_keeps. Qed.

Lemma other_steps_timer key t tm s s' :
  rtc (other_step key) s s' -> lock_inv (fst s) -> l_timers (fst s) !! t = Some tm ->
  lock_inv (fst s') /\ exists tm', l_timers (fst s') !! t = Some tm' /\ tm_key tm' = tm_key tm /\ tm_at tm' = tm_at tm.
Proof.
  intros H. revert tm. induction H as [s|x y z (o & _ & Hs) _ IH]; intros tm Hi Ht; [by split; [|exists tm]|].
  destruct (lock_step_timer _ _ _ _ _ Hs Hi Ht) as (tm1 & H1 & E1 & E2).
  destruct (IH tm1 (lock_step_inv _ _ _ Hs Hi) H1) as (Hz & tm2 & H2 & E3 & E4).
  split; [done|]. exists tm2. split_and!; [done|congruence|congruence].
Qed.

Lemma other_any key s s' : rtc (other_step key) s s' -> rtc any_step s s'.
Proof. induction 1 as [|x y z (o & _ & Hs) _ IH]; [done|]. eapply rtc_l; [by exists o|done]. Qed.

(** C14. Whatever interleaving of lock attempts, releases, events of other
    nodes, timers and bus traffic a locker goes through, every lock it holds
    has an open notification channel of its own and, if a timer was recorded
    with it, that timer is live and is its key's (a [TryLock] with a TTL records
    one: [TryLock_true]); a timer that is still armed belongs to the lock held
    for its key; and no notification channel is ever closed twice. *)
Theorem InMemoryLock_reachable_inv b s : rtc any_step (NewInMemoryLock, b) s -> lock_inv (fst s).
Proof. intros H. apply (any_steps_inv _ _ H), NewInMemoryLock_inv. Qed.

(** C13. Mutual exclusion on a node. When [TryLock] succeeds the key was free,
    and from then on, through any interleaving of other operations, listeners
    and timers that does not release this key, no [TryLock] of the key
    succeeds, whatever its context and TTL, on any bus. *)
Theorem TryLock_exclusive cx now key ttl b0 s s1 :
  rtc any_step (NewInMemoryLock, b0) s -> TryLock cx now key ttl s = (s1, Ok true) ->
  held key (fst s) = false /\
  forall s2 cx' now' ttl', rtc (other_step key) s1 s2 -> snd (TryLock cx' now' key ttl' s2) <> Ok true.
Proof.
  intros Hr E. pose proof (any_steps_inv _ _ Hr NewInMemoryLock_inv) as Hi.
  destruct (TryLock_true _ _ _ _ _ _ Hi E) as (Hf & st & Hst & _). split; [done|].
  intros s2 cx' now' ttl' H2. apply TryLock_held. unfold held.
  by rewrite (other_steps_keep _ _ _ _ H2 Hst).
Qed.

(** A lock taken with a TTL expires. After a successful [TryLock] with a
    positive TTL, through any interleaving that does not release the key, the
    lock's timer is live, and once the TTL has passed, its firing and running
    free the lock. *)
Theorem TryLock_expires cx now key ttl b0 s s1 :
  rtc any_step (NewInMemoryLock, b0) s -> TryLock cx now key ttl s = (s1, Ok true) -> 0 < ttl ->
  exists t, forall s2 now', rtc (other_step key) s1 s2 -> now + ttl <= now' ->
    held key (fst s2) = true /\
    held key (fst (timer_run t (timer_fire now' t (fst s2), snd s2))) = false.
Proof.
  intros Hr E Httl. pose proof (any_steps_inv _ _ Hr NewInMemoryLock_inv) as Hi.
  destruct (TryLock_true _ _ _ _ _ _ Hi E) as (_ & st & Hst & Ht).
  destruct (Ht Httl) as (t & Est & Htm). exists t. intros s2 now' H2 Hnow.
  assert (lock_inv (fst s1)) as Hi1.
  { pose proof (other_any _ _ _ (TryLock_steps key cx now key ttl s)) as Hs. rewrite E in Hs.
    by apply (any_steps_inv _ _ Hs). }
  pose proof (other_steps_keep _ _ _ _ H2 Hst) as Hst2.
  destruct (other_steps_timer _ _ _ _ _ H2 Hi1 Htm) as (Hi2 & tm & Htm2 & Ek & Ea). simpl in *.
  split; [unfold held; by rewrite Hst2|].
  destruct (li_timer _ Hi2 _ _ _ Hst2 Est) as (_ & tm' & Htm' & _ & Hlive).
  rewrite Htm2 in Htm'. simplify_eq. destruct s2 as [l2 b2]. simpl in *.
  set (l3 := timer_fire now' t l2).
  assert (exists tm, l_timers l3 !! t = Some tm /\ tm_key tm = tm_key tm' /\ tm_state tm = TimerFired)
    as (tm3 & Htm3 & Ek3 & Hf3).
  { unfold l3, timer_fire. rewrite Htm2. destruct (decide (_ /\ _)) as [|Hn]; simpl.
    - rewrite lookup_insert_eq. by eexists.
    - exists tm'. split_and!; [done|done|]. destruct (tm_state tm') eqn:Es; try done.
      destruct Hn. split; [done|lia]. }
  unfold timer_run. simpl. rewrite Htm3, decide_True by done. rewrite Ek3.
  unfold Release. set (l4 := set_timers l3 _).
  pose proof (release_section_frees (tm_key tm') l4) as Hfree.
  destruct (release_section (tm_key tm') l4) as [l5 ok]. simpl in Hfree.
  destruct ok; [|done]. by destruct (bus_Publish _ _ _ b2).
Qed.

End Steps.

(** ** Lockers on one in-memory bus *)

Section Nodes.
Context {M : Type -> Type} `{!SafeMap M, !LawfulSafeMap M}.
Implicit Types (b : InMemoryBus M).

(** No publication of the topic is in flight. *)
Definition quiet (topic : string) b : Prop := sm_Get topic (pending b) = None.

Lemma Subscribe_grows key b k ch :
  ch ∈ subscribed b k -> ch ∈ subscribed (fst (InMemoryBus_Subscribe Background key b)) k.
Proof.
  intros H. unfold subscribed in *. simpl. rewrite sm_Get_Compute. case_decide; [subst|done].
  simpl. apply elem_of_app. by left.
Qed.

Lemma ensureSubscriptions_bus key l b :
  bus_inv b -> exists l' b', ensureSubscriptions key (l, b) = ((l', b'), None) /\ bus_inv b' /\
    pending b' = pending b /\ (forall k ch, ch ∈ subscribed b k -> ch ∈ subscribed b' k) /\
    l_locks l' = l_locks l /\ l_pending l' = l_pending l.
Proof.
  intros H. destruct (ensureSubscriptions_locks key (l, b)) as [E1 E2]. unfold ensureSubscriptions, ensure_mark in *.
  case_decide; [by exists l, b|]. simpl in *. eexists _, _. split; [done|]. split_and!; try done.
  - exact (Subscribe_inv Background (unlock_topic key) _ (Subscribe_inv Background (lock_topic key) _ H)).
  - intros k ch Hc.
    exact (Subscribe_grows (unlock_topic key) _ k ch (Subscribe_grows (lock_topic key) b k ch Hc)).
Qed.

(** What a publication of a topic leaves for a subscribed channel. *)
Lemma publish_then_recv topic b ch :
  bus_inv b -> quiet topic b -> ch ∈ subscribed b topic ->
  exists b', InMemoryBus_Publish Background topic [] b = (b', None) /\ bus_inv b' /\ subs b' = subs b /\
    (forall k, sm_Get k (pending b') = sm_Get k (pending b)) /\
    exists e b'', chan_recv ch b' = (b'', Received e) /\ bus_inv b'' /\ subs b'' = subs b /\
      (forall k, sm_Get k (pending b'') = sm_Get k (pending b)).
Proof.
  intros H Hq Hc. destruct (Publish_reaches_all topic [] b H Hq) as (b' & E & Hall & _ & Hp).
  destruct (Publish_static Background topic [] b H) as [Hi Hs]. rewrite E in Hi, Hs. simpl in *.
  exists b'. split_and!; try done. destruct (Hall ch Hc) as (e & He & _).
  exists e. unfold chan_recv. rewrite He. eexists. split; [done|]. split_and!; [|done|done].
  pose proof (recv_inv ch b' Hi) as Hr. unfold chan_recv in Hr. by rewrite He in Hr.
Qed.

(** [TryLock] of a free key, and of a held one. *)
Lemma TryLock_free now key ttl l b :
  bus_inv b -> quiet (lock_topic key) b -> held key l = false ->
  exists l' b', TryLock Background now key ttl (l, b) = ((l', b'), Ok true) /\
    held key l' = true /\ bus_inv b' /\ (forall k, sm_Get k (pending b') = sm_Get k (pending b)) /\
    (forall k ch, ch ∈ subscribed b k -> ch ∈ subscribed b' k) /\
    (forall ch, ch ∈ subscribed b (lock_topic key) -> exists e b'', chan_recv ch b' = (b'', Received e) /\
       bus_inv b'' /\ subs b'' = subs b' /\ forall k, sm_Get k (pending b'') = sm_Get k (pending b)).
Proof.
  intros H Hq Hf. destruct (ensureSubscriptions_bus key l b H) as (l1 & b1 & E & H1 & Hp1 & Hs1 & El & _).
  unfold TryLock. rewrite E. unfold try_section, held in *. rewrite El.
  destruct (l_locks l !! key) eqn:Ek; [done|].
  assert (quiet (lock_topic key) b1) as Hq1 by (unfold quiet; by rewrite Hp1).
  destruct (Publish_reaches_all (lock_topic key) [] b1 H1 Hq1) as (b2 & E2 & _ & _ & Hp2).
  destruct (Publish_static Background (lock_topic key) [] b1 H1) as [H2 Hs2]. rewrite E2 in H2, Hs2. simpl in H2, Hs2.
  assert (forall ch, ch ∈ subscribed b (lock_topic key) -> exists e b'', chan_recv ch b2 = (b'', Received e) /\
       bus_inv b'' /\ subs b'' = subs b2 /\ forall k, sm_Get k (pending b'') = sm_Get k (pending b)) as Hrecv.
  { intros ch Hc. destruct (publish_then_recv _ b1 ch H1 Hq1 (Hs1 _ _ Hc)) as (b2' & E2' & _ & _ & _ & e & b3 & E3 & H3 & Hs3 & Hp3).
    rewrite E2 in E2'. simplify_eq. exists e, b3. split_and!; [done|done|congruence|]. intros k. by rewrite Hp3, Hp1. }
  assert (bus_Publish (after 0 Background) (lock_topic key) [] b1 = (b2, None)) as E2' by exact E2.
  rewrite E2'. destruct (0 <? ttl); simpl; eexists _, b2; (split; [done|]); simpl; rewrite lookup_insert_eq;
    (split_and!; [done|done|intros k; by rewrite Hp2, Hp1|intros k ch Hc; unfold subscribed; rewrite Hs2; by apply Hs1|done]).
Qed.

Lemma TryLock_held_bus now key ttl l b :
  bus_inv b -> held key l = true -> snd (TryLock Background now key ttl (l, b)) = Ok false.
Proof.
  intros H Hh. destruct (ensureSubscriptions_bus key l b H) as (l1 & b1 & E & _ & _ & _ & El & _).
  unfold TryLock. rewrite E. unfold try_section, held in *. rewrite El. by destruct (l_locks l !! key).
Qed.

(** [Release] of a held key. *)
Lemma Release_held key l b ch :
  bus_inv b -> quiet (unlock_topic key) b -> held key l = true -> ch ∈ subscribed b (unlock_topic key) ->
  exists l' b', Release Background key (l, b) = (l', b') /\ held key l' = false /\ bus_inv b' /\ subs b' = subs b /\
    (forall k, sm_Get k (pending b') = sm_Get k (pending b)) /\
    exists e b'', chan_recv ch b' = (b'', Received e) /\ bus_inv b'' /\ subs b'' = subs b /\
      (forall k, sm_Get k (pending b'') = sm_Get k (pending b)).
Proof.
  intros H Hq Hh Hc. destruct (publish_then_recv _ b ch H Hq Hc) as (b1 & E1 & H1 & Hs1 & Hp1 & Hr).
  unfold Release. pose proof (release_section_frees key l) as Hfree. unfold release_section in *.
  unfold held in Hh. destruct (l_locks l !! key) as [st|]; [|done]. simpl in Hfree.
  assert (bus_Publish (after 0 Background) (unlock_topic key) [] b = (b1, None)) as E1' by exact E1.
  rewrite E1'. eexists _, b1. split; [done|]. by split_and!.
Qed.

Lemma listener_recv ln l b b' e :
  chan_recv (ln_ch ln) b = (b', Received e) ->
  listener_step ln (l, b) = ((if ln_lock ln then lock_event else unlock_event) (ln_key ln) l, b').
Proof. intros E. unfold listener_step. simpl. by rewrite E. Qed.

Lemma lock_event_remote key l :
  pending_at (lock_topic key) l = 0 ->
  held key (lock_event key l) = true /\ l_pending (lock_event key l) = l_pending l.
Proof.
  intros Hp. unfold lock_event, held. rewrite Hp. simpl.
  destruct (l_locks l !! key) eqn:E; [by rewrite E|]. simpl. by rewrite lookup_insert_eq.
Qed.

Lemma unlock_event_remote key l :
  pending_at (unlock_topic key) l = 0 -> held key (unlock_event key l) = false.
Proof.
  intros Hp. unfold unlock_event, held. rewrite Hp. simpl.
  destruct (l_locks l !! key) eqn:E; [|by rewrite E]. unfold drop_lock. simpl. by rewrite lookup_delete_eq.
Qed.

(** Two nodes on one bus coordinate. When a node takes a free lock and
    another node that awaits no event of its own has handled the announcement,
    the other node's [TryLock] fails; when the first node releases the lock
    and the other has handled that, its [TryLock] succeeds. *)
Theorem lock_handover now key ttl lA lB b cl cu :
  bus_inv b -> quiet (lock_topic key) b -> quiet (unlock_topic key) b ->
  held key lA = false ->
  cl ∈ subscribed b (lock_topic key) -> cu ∈ subscribed b (unlock_topic key) ->
  pending_at (lock_topic key) lB = 0 -> pending_at (unlock_topic key) lB = 0 ->
  exists lA1 b1, TryLock Background now key ttl (lA, b) = ((lA1, b1), Ok true) /\
    let '(lB1, b2) := listener_step (mkListener true key cl) (lB, b1) in
    snd (TryLock Background now key ttl (lB1, b2)) = Ok false /\
    let '(lA2, b3) := Release Background key (lA1, b2) in
    let '(lB2, b4) := listener_step (mkListener false key cu) (lB1, b3) in
    snd (TryLock Background now key ttl (lB2, b4)) = Ok true.
Proof.
  intros Hb Hql Hqu HA Hcl Hcu Hpl Hpu.
  destruct (TryLock_free now key ttl lA b Hb Hql HA) as (lA1 & b1 & E1 & HA1 & Hb1 & Hp1 & Hs1 & Hr1).
  exists lA1, b1. split; [done|]. destruct (Hr1 cl Hcl) as (e & b2 & E2 & Hb2 & Hs2 & Hp2).
  rewrite (listener_recv (mkListener true key cl) lB b1 b2 e E2). cbn [ln_lock ln_key].
  destruct (lock_event_remote key lB Hpl) as [HB1 HpB]. split; [by apply TryLock_held_bus|].
  assert (cu ∈ subscribed b2 (unlock_topic key)) as Hcu2 by (unfold subscribed; rewrite Hs2; by apply Hs1).
  destruct (Release_held key lA1 b2 cu Hb2) as (lA2 & b3 & E3 & _ & _ & _ & _ & e' & b4 & E4 & Hb4 & _ & Hp4);
    [unfold quiet; by rewrite Hp2|done|done|].
  rewrite E3, (listener_recv (mkListener false key cu) _ b3 b4 e' E4). cbn [ln_lock ln_key].
  destruct (TryLock_free now key ttl (unlock_event key (lock_event key lB)) b4 Hb4) as (l' & b' & E5 & _).
  - unfold quiet. by rewrite Hp4, Hp2.
  - apply unlock_event_remote. unfold pending_at. by rewrite HpB.
  - by rewrite E5.
Qed.

Lemma Unsubscribe_pending cx key ch b :
  pending (fst (InMemoryBus_Unsubscribe cx key ch b)) = pending b.
Proof. unfold InMemoryBus_Unsubscribe, close_chan. by repeat case_match. Qed.

Lemma acquire_try_held now key ttl l b :
  bus_inv b -> held key l = true ->
  exists l' b' ch, acquire_try Background now key ttl (l, b) = ((l', b'), AcqWaiting ch) /\
    bus_inv b' /\ held key l' = true /\ pending b' = pending b /\ ch ∈ subscribed b' (unlock_topic key).
Proof.
  intros Hb Hh. unfold acquire_try.
  set (b1 := fst (InMemoryBus_Subscribe Background (unlock_topic key) b)).
  assert (bus_Subscribe (after 0 Background) (unlock_topic key) b = (b1, Ok (next_chan b))) as -> by done.
  assert (bus_inv b1) as Hb1 by (by apply Subscribe_inv).
  assert (next_chan b ∈ subscribed b1 (unlock_topic key)) as Hc.
  { unfold subscribed. simpl. rewrite sm_Get_Compute, decide_True by done. simpl. set_solver. }
  destruct (ensureSubscriptions_bus key l b1 Hb1) as (l2 & b2 & E & Hb2 & Hp2 & Hs2 & El & _).
  unfold TryLock. rewrite E. unfold try_section, held in *. rewrite El.
  destruct (l_locks l !! key) as [st|] eqn:Ek; [|done].
  exists l2, b2, (next_chan b). rewrite El, Ek. split_and!; try done. by apply Hs2.
Qed.

Lemma acquire_try_free now key ttl l b :
  bus_inv b -> quiet (lock_topic key) b -> held key l = false ->
  exists s, acquire_try Background now key ttl (l, b) = (s, AcqDone None) /\ held key (fst s) = true.
Proof.
  intros Hb Hq Hf. unfold acquire_try.
  set (b1 := fst (InMemoryBus_Subscribe Background (unlock_topic key) b)).
  assert (bus_Subscribe (after 0 Background) (unlock_topic key) b = (b1, Ok (next_chan b))) as -> by done.
  destruct (TryLock_free now key ttl l b1) as (l2 & b2 & E & Hh & _); [by apply Subscribe_inv|done|done|].
  change (after 1 Background) with Background. rewrite E.
  destruct (bus_Unsubscribe _ _ _ b2) as [b3 ?]. by eexists.
Qed.

Lemma acquire_wait_recv pick key ch l b b' e :
  chan_recv ch b = (b', Received e) ->
  acquire_wait Background pick key ch (l, b) =
    ((l, fst (InMemoryBus_Unsubscribe Background (unlock_topic key) ch b')), AcqRetry).
Proof. intros E. unfold acquire_wait. simpl. by rewrite E. Qed.

(** [Acquire] misses no release of its own node: while the lock is held
    its attempt ends in a wait, and a [Release] during the wait (whatever is
    waiting in the channels of other subscribers) wakes it up; the next attempt
    takes the lock. *)
Theorem Acquire_wakes now now' pick key ttl l b :
  bus_inv b -> quiet (lock_topic key) b -> quiet (unlock_topic key) b -> held key l = true ->
  exists s1 ch s2 s3,
    acquire_try Background now key ttl (l, b) = (s1, AcqWaiting ch) /\
    acquire_wait Background pick key ch (Release Background key s1) = (s2, AcqRetry) /\
    acquire_try Background now' key ttl s2 = (s3, AcqDone None) /\ held key (fst s3) = true.
Proof.
  intros Hb Hql Hqu Hh.
  destruct (acquire_try_held now key ttl l b Hb Hh) as (l1 & b1 & ch & E1 & Hb1 & Hh1 & Hp1 & Hc).
  destruct (Release_held key l1 b1 ch Hb1) as (l2 & b2 & E2 & Hf2 & _ & _ & _ & e & b3 & E3 & Hb3 & _ & Hp3);
    [unfold quiet; by rewrite Hp1|done|done|].
  set (b4 := fst (InMemoryBus_Unsubscribe Background (unlock_topic key) ch b3)).
  destruct (acquire_try_free now' key ttl l2 b4) as (s3 & E4 & Hh3); [by apply Unsubscribe_inv| |done|].
  { unfold quiet, b4. by rewrite Unsubscribe_pending, Hp3, Hp1. }
  exists (l1, b1), ch, (l2, b4), s3. split_and!; try done. rewrite E2. by eapply acquire_wait_recv.
Qed.

End Nodes.

(** ** Runs *)

Definition demo_bus : InMemoryBus (gmap string) := NewInMemoryBus.

(** Handle the events of both listeners of a node. *)
Definition drain (s : InMemoryLock * InMemoryBus (gmap string)) : InMemoryLock * InMemoryBus (gmap string) :=
  foldl (fun s ln => listener_step ln s) s (l_listeners (fst s)).

(** A release on another node can be missed: the waiting [Acquire] is
    woken before the listener of its own node has handled the release, so its
    next attempt still finds the lock and waits on a fresh channel; then the
    listener frees the lock, and [Acquire] goes on waiting for a free lock. *)
Theorem Acquire_misses_remote_release :
  let '(lB, b, _) := ensureSubscriptions "k" (NewInMemoryLock, demo_bus) in
  let '(lA, b, okA) := TryLock Background 0 "k" 0 (NewInMemoryLock, b) in
  let '(lB, b) := drain (lB, b) in
  let '(lB, b, a1) := acquire_try Background 0 "k" 0 (lB, b) in
  let '(lA, b) := Release Background "k" (lA, b) in
  okA = Ok true /\ held "k" lA = false /\
  match a1 with
  | AcqWaiting ch =>
      let '(s1, a2) := acquire_wait Background true "k" ch (lB, b) in
      let '(s2, a3) := acquire_try Background 0 "k" 0 s1 in
      a2 = AcqRetry /\
      match a3 with
      | AcqWaiting ch' =>
          held "k" (fst (drain s2)) = false /\
          snd (acquire_wait Background true "k" ch' (drain s2)) = AcqWaiting ch'
      | _ => False
      end
  | _ => False
  end.
Proof. vm_compute. split_and!; reflexivity. Qed.

(** Exclusion between nodes is lost when events coalesce: a node that
    locks and unlocks twice before its listeners run counts two events of its
    own and receives one, so it takes the next announcement of another node
    for its own, and both nodes hold the lock with every event handled. *)
Theorem lock_not_exclusive_between_nodes :
  let try s := TryLock Background 0 "k" 0 s in
  let '(lA, b, ok1) := try (NewInMemoryLock, demo_bus) in
  let '(lA, b) := Release Background "k" (lA, b) in
  let '(lA, b, ok2) := try (lA, b) in
  let '(lA, b) := Release Background "k" (lA, b) in
  let '(lA, b) := drain (lA, b) in
  let '(lB, b, okB) := try (NewInMemoryLock, b) in
  let '(lB, b) := drain (lB, b) in
  let '(lA, b) := drain (lA, b) in
  let '(lA, b, okA) := try (lA, b) in
  okB = Ok true /\ okA = Ok true /\ held "k" lA = true /\ held "k" lB = true.
Proof. vm_compute. split_and!; reflexivity. Qed.

(** A timer is not bound to the lock it was armed for: once it has fired,
    a release by its holder does not stop it, and it then releases the lock of
    whoever took it in between, here one with a much longer TTL. *)
Theorem timer_releases_next_holder :
  let '(l, b, ok1) := TryLock Background 0 "k" 10 (NewInMemoryLock, demo_bus) in
  let l := timer_fire 10 0 l in
  let '(l, b) := Release Background "k" (l, b) in
  let '(l, b, ok2) := TryLock Background 10 "k" 1000000 (l, b) in
  ok1 = Ok true /\ ok2 = Ok true /\ held "k" l = true /\ held "k" (fst (timer_run 0 (l, b))) = false.
Proof. vm_compute. split_and!; reflexivity. Qed.

(** ** Witnesses *)

Definition lock_demo : (InMemoryLock * InMemoryBus (gmap string)) * res bool :=
  TryLock Background 0 "k" 10 (NewInMemoryLock, demo_bus).

Lemma lock_demo_steps : rtc any_step (NewInMemoryLock, demo_bus) (fst lock_demo).
Proof. eapply other_any, (TryLock_steps "k"). Qed.

Lemma InMemoryLock_reachable_inv_witness : l_panicked (fst (fst lock_demo)) = false.
Proof. exact (li_panic _ (InMemoryLock_reachable_inv _ _ lock_demo_steps)). Defined.

Lemma TryLock_exclusive_witness :
  snd (TryLock Background 5 "k" 0 (fst lock_demo)) <> Ok true.
Proof.
  destruct (TryLock_exclusive Background 0 "k" 10 demo_bus (NewInMemoryLock, demo_bus) (fst lock_demo))
    as [_ H]; [apply rtc_refl|reflexivity|]. apply H. apply rtc_refl.
Defined.

Lemma TryLock_expires_witness :
  exists t, held "k" (fst (timer_run t (timer_fire 10 t (fst (fst lock_demo)), snd (fst lock_demo)))) = false.
Proof.
  destruct (TryLock_expires Background 0 "k" 10 demo_bus (NewInMemoryLock, demo_bus) (fst lock_demo))
    as [t H]; [apply rtc_refl|reflexivity|lia|]. exists t. apply H; [apply rtc_refl|lia].
Defined.

Lemma demo_bus_inv : bus_inv (snd (fst lock_demo)).
Proof.
  destruct (TryLock_free 0 "k" 10 NewInMemoryLock demo_bus) as (l' & b' & E & _ & H & _);
    [apply NewInMemoryBus_inv|reflexivity|reflexivity|].
  unfold lock_demo. rewrite E. exact H.
Qed.

Lemma lock_handover_witness :
  exists lA1 b1, TryLock Background 0 "k" 0 (NewInMemoryLock, snd (fst lock_demo)) = ((lA1, b1), Ok true).
Proof.
  destruct (lock_handover 0 "k" 0 NewInMemoryLock NewInMemoryLock (snd (fst lock_demo)) 0 1)
    as (lA1 & b1 & E & _);
    [apply demo_bus_inv|reflexivity|reflexivity|reflexivity|decide_closed|decide_closed|reflexivity|reflexivity|].
  exists lA1, b1. exact E.
Defined.

Lemma Acquire_wakes_witness :
  exists s1 ch, acquire_try Background 0 "k" 0 (fst lock_demo) = (s1, AcqWaiting ch).
Proof.
  destruct (Acquire_wakes 0 0 true "k" 0 (fst (fst lock_demo)) (snd (fst lock_demo)))
    as (s1 & ch & s2 & s3 & E & _); [apply demo_bus_inv|reflexivity|reflexivity|reflexivity|].
  exists s1, ch. exact E.
Defined.
