(* ===== verification/RedisLock.v ===== *)
(** * RedisLock: the redis locker

    Models [src/lock/redis.go] over any redis server ([RedisKV]) that holds
    strings, where a value may expire as time passes. The release script is translated from its Lua source. A call may fail after the server
    has executed it ([NetLost]). Several lockers share one server. *)

From S2P Require Import Prelude Remote RedisServer Lock.

(** ** The locker *)

Record redisLockEntry := mkEntry {
  re_token : string;
  re_timer : option nat;
}.

Record redisTimer := mkRTimer {
  rt_key : string;
  rt_token : string;
  rt_at : time;
  rt_state : timerState;
}.

Record RedisLock := mkRLock {
  rl_entries : gmap string redisLockEntry;
  rl_timers : gmap nat redisTimer;
  rl_next : nat;
}.

Definition NewRedis : RedisLock := mkRLock ∅ ∅ 0.

Section RedisLock.
Context {R : Type} `{!RedisKV R string}.
Implicit Types (l : RedisLock) (r : R).

(** The Lua script: delete the key if its value is the token. *)
Definition redisDelScript (now : time) (key token : string) r : R :=
  if decide (rk_Get now key r = Some token) then rk_Del now key r else r.

Definition cleanupLocal (key token : string) l : RedisLock :=
  match rl_entries l !! key with
  | Some e => if decide (re_token e = token)
              then mkRLock (delete key (rl_entries l)) (rl_timers l) (rl_next l) else l
  | None => l
  end.

(** An answer [redis.Nil] is not an error. *)
Definition releaseWithToken (now : time) (n : net) (key token : string) (st : RedisLock * R)
    : (RedisLock * R) * option error :=
  let '(l, r) := st in
  let r := if net_applied n then redisDelScript now key token r else r in
  match net_error n with
  | None => ((cleanupLocal key token l, r), None)
  | Some e => ((l, r), Some e)
  end.

(** [token] is the fresh UUID. *)
Definition Redis_TryLock (now : time) (n : net) (token key : string) (ttl : duration)
    (st : RedisLock * R) : (RedisLock * R) * res bool :=
  let '(l, r) := st in
  let '(r', ok) := rk_SetNX now key token ttl r in
  let r := if net_applied n then r' else r in
  match net_error n with
  | Some e => ((l, r), Err e)
  | None =>
      if ok then
        let t := rl_next l in
        let '(timer, timers) :=
          if 0 <? ttl then (Some t, <[t := mkRTimer key token (time_Add now ttl) TimerArmed]> (rl_timers l))
          else (None, rl_timers l) in
        ((mkRLock (<[key := mkEntry token timer]> (rl_entries l)) timers (S t), r), Ok true)
      else ((l, r), Ok false)
  end.

Definition set_rtimer (t : nat) (tm : redisTimer) (ts : timerState) l : RedisLock :=
  mkRLock (rl_entries l) (<[t := mkRTimer (rt_key tm) (rt_token tm) (rt_at tm) ts]> (rl_timers l)) (rl_next l).

Definition stop_rtimer (timer : option nat) l : RedisLock :=
  match timer with
  | None => l
  | Some t => match rl_timers l !! t with
              | Some tm => if decide (rt_state tm = TimerArmed) then set_rtimer t tm TimerStopped l else l
              | None => l
              end
  end.

Definition Redis_Release (now : time) (n : net) (key : string) (st : RedisLock * R)
    : (RedisLock * R) * option error :=
  let '(l, r) := st in
  match rl_entries l !! key with
  | None => ((l, r), None)
  | Some e => releaseWithToken now n key (re_token e) (stop_rtimer (re_timer e) l, r)
  end.

(** The timer's goroutine: started once its time has come, then the release of
    the token it captured. *)
Definition rtimer_fire (now : time) (t : nat) l : RedisLock :=
  match rl_timers l !! t with
  | Some tm => if decide (rt_state tm = TimerArmed /\ rt_at tm <= now) then set_rtimer t tm TimerFired l else l
  | None => l
  end.

Definition rtimer_run (now : time) (n : net) (t : nat) (st : RedisLock * R) : RedisLock * R :=
  match rl_timers (fst st) !! t with
  | Some tm =>
      if decide (rt_state tm = TimerFired) then
        fst (releaseWithToken now n (rt_key tm) (rt_token tm) (set_rtimer t tm TimerRun (fst st), snd st))
      else st
  | None => st
  end.

End RedisLock.

(** ** Acquire

    The wait after a failed attempt: what the select sees, and whether it goes
    on waiting, tries again or returns. The interval is the variable of the
    function. *)
Definition baseInterval : duration := 5 * Millisecond.
Definition maxInterval : duration := 500 * Millisecond.

Inductive wait_event := WMessage (payload : string) | WChannelClosed | WTimer | WDone (e : error).
Inductive wait_result := WaitMore | WaitRetry | WaitReturn (e : error).

Definition redis_wait (key : string) (interval : duration) (ev : wait_event) : duration * wait_result :=
  match ev with
  | WMessage payload => if decide (payload = key) then (baseInterval, WaitRetry) else (interval, WaitMore)
  | WChannelClosed => (interval, WaitRetry)
  | WTimer => ((if interval <? maxInterval then interval *  2 else interval), WaitRetry)
  | WDone e => (interval, WaitReturn e)
  end.

(** The inner loop: [WaitMore] when it is still waiting after the events. *)
Fixpoint redis_wait_loop (key : string) (interval : duration) (evs : list wait_event)
    : duration * wait_result :=
  match evs with
  | [] => (interval, WaitMore)
  | ev :: evs =>
      match redis_wait key interval ev with
      | (interval, WaitMore) => redis_wait_loop key interval evs
      | out => out
      end
  end.

Section Acquire.
Context {R : Type} `{!RedisKV R string}.

(** One iteration of the outer loop: what others did to the locker and the
    server before it, the instant, the outcome and the token of the attempt, and
    what the wait sees. *)
Record round := mkRound {
  ro_others : RedisLock * R -> RedisLock * R;
  ro_now : time;
  ro_net : net;
  ro_token : string;
  ro_events : list wait_event;
}.

(** [TryLock] of one iteration. *)
Definition redis_attempt (key : string) (ttl : duration) (ro : round) (st : RedisLock * R)
    : (RedisLock * R) * res bool :=
  Redis_TryLock (ro_now ro) (ro_net ro) (ro_token ro) key ttl (ro_others ro st).

(** [None]: still trying or waiting after the rounds. *)
Fixpoint redis_acquire_loop (key : string) (ttl interval : duration) (rounds : list round)
    (st : RedisLock * R) : (RedisLock * R) * option (option error) :=
  match rounds with
  | [] => (st, None)
  | ro :: rounds =>
      let '(st, ok) := redis_attempt key ttl ro st in
      match ok with
      | Err e => (st, Some (Some e))
      | Ok true => (st, Some None)
      | Ok false =>
          match redis_wait_loop key interval (ro_events ro) with
          | (_, WaitMore) => (st, None)
          | (interval, WaitRetry) => redis_acquire_loop key ttl interval rounds st
          | (_, WaitReturn e) => (st, Some (Some e))
          end
      end
  end.

Definition Redis_Acquire (key : string) (ttl : duration) (rounds : list round) (st : RedisLock * R)
    : (RedisLock * R) * option (option error) :=
  redis_acquire_loop key ttl baseInterval rounds st.

End Acquire.

(** ** Exclusion *)

Section Laws.
Context {R : Type} `{!RedisKV R string, !LawfulRedisKV R string}.
Implicit Types (l : RedisLock) (r : R).

(** The script deletes nothing but its own token. *)
Lemma redisDelScript_get now now' key token k r :
  now <= now' ->
  rk_Get now' k (redisDelScript now key token r) =
    if decide (k = key /\ rk_Get now key r = Some token) then None else rk_Get now' k r.
Proof.
  intros Hle. unfold redisDelScript. destruct (decide (rk_Get now key r = Some token)) as [E|E].
  - destruct (decide (k = key)) as [->|].
    + rewrite decide_True by done. by apply rk_Del_get.
    + rewrite decide_False by naive_solver. by apply rk_Del_other.
  - by rewrite decide_False by naive_solver.
Qed.

(** What another client does to the server: an attempt or a release with a
    token of its own, at an instant. *)
Inductive rop :=
| RTry (now : time) (token key : string) (ttl : duration)
| RDel (now : time) (token key : string).

Definition rop_time (o : rop) : time := match o with RTry now _ _ _ | RDel now _ _ => now end.
Definition rop_token (o : rop) : string := match o with RTry _ token _ _ | RDel _ token _ => token end.

Definition rop_run r (o : rop) : R :=
  match o with
  | RTry now token key ttl => fst (rk_SetNX now key token ttl r)
  | RDel now token key => redisDelScript now key token r
  end.

(** Operations with other tokens keep a value until it expires. *)
Lemma rop_keeps key token deadline now r o :
  (forall t, now <= t < deadline -> rk_Get t key r = Some token) ->
  now <= rop_time o < deadline -> rop_token o <> token ->
  forall t, rop_time o <= t < deadline -> rk_Get t key (rop_run r o) = Some token.
Proof.
  intros Hg Ho Htok t Ht. assert (rk_Get (rop_time o) key r = Some token) as Ho' by (apply Hg; lia).
  destruct o as [n tok k ttl|n tok k]; simpl in *.
  - destruct (decide (k = key)) as [->|].
    + rewrite rk_SetNX_taken by congruence. apply Hg. lia.
    + rewrite rk_SetNX_other by (done || lia). apply Hg. lia.
  - rewrite redisDelScript_get by lia. rewrite decide_False; [apply Hg; lia|]. intros [<- E]. congruence.
Qed.

(** The instants of the operations follow each other. *)
Fixpoint in_order (from : time) (os : list rop) (until : time) : Prop :=
  match os with
  | [] => from <= until
  | o :: os => from <= rop_time o /\ in_order (rop_time o) os until
  end.

Lemma in_order_le from os until : in_order from os until -> from <= until.
Proof. revert from. induction os as [|o os IH]; intros from; simpl; [done|]. intros [H ?%IH]. lia. Qed.

Lemma rops_keep key token deadline os now r until :
  (forall t, now <= t < deadline -> rk_Get t key r = Some token) ->
  in_order now os until -> until < deadline -> Forall (fun o => rop_token o <> token) os ->
  rk_Get until key (foldl rop_run r os) = Some token.
Proof.
  revert now r. induction os as [|o os IH]; intros now r Hg Hord Hd Hf; simpl in *.
  - apply Hg. lia.
  - destruct Hord as [Ho Hord]. apply Forall_cons in Hf as [Hto Hf].
    pose proof (in_order_le _ _ _ Hord). apply (IH (rop_time o)); [|done|done|done].
    apply (rop_keeps key token deadline now r o); [done|lia|done].
Qed.

(** C27. The lock of the redis locker is exclusive between all clients of the server
    until it is released or expires: after a [TryLock] of one locker succeeded
    with a fresh token, whatever the other clients do in the meantime (attempts,
    releases, expired timers, with tokens of their own), every [TryLock] of the
    key by any locker fails before the TTL (in the milliseconds redis is given) has
    passed, and a release with
    another token has no effect. *)
Theorem Redis_TryLock_exclusive now token key ttl l l1 r r1 os until l' token' ttl' n' :
  Redis_TryLock now NetOk token key ttl (l, r) = ((l1, r1), Ok true) ->
  Forall (fun o => rop_token o <> token) os -> in_order now os until -> (0 < ttl -> until < now + rk_ttl ttl) ->
  snd (Redis_TryLock until n' token' key ttl' (l', foldl rop_run r1 os)) <> Ok true /\
  rk_Get until key (foldl rop_run r1 os) = Some token.
Proof.
  intros E Hf Hord Hu.
  assert (forall d, (0 < ttl -> d <= now + rk_ttl ttl) -> forall t, now <= t < d -> rk_Get t key r1 = Some token) as Hg.
  { unfold Redis_TryLock in E. pose proof (rk_SetNX_ok now key token ttl r) as Hok.
    pose proof (fun t => rk_SetNX_get now t key token ttl r) as Hget.
    destruct (rk_SetNX now key token ttl r) as [r' ok]. simpl in *. destruct ok; [|done].
    assert (rk_Get now key r = None) as Hn by (symmetry in Hok; by apply bool_decide_eq_true in Hok).
    destruct (0 <? ttl); simplify_eq; intros d Hd t Ht; rewrite Hget by (done || lia);
      (rewrite decide_False; [done|lia]). }
  assert (rk_Get until key (foldl rop_run r1 os) = Some token) as Hkeep.
  { apply (rops_keep key token (until + 1) os now); [|done|lia|done]. apply Hg. lia. }
  split; [|done]. unfold Redis_TryLock. pose proof (rk_SetNX_ok until key token' ttl' (foldl rop_run r1 os)) as Hok.
  destruct (rk_SetNX until key token' ttl' (foldl rop_run r1 os)) as [r2 ok]. simpl in Hok.
  rewrite Hkeep in Hok. simpl in Hok. subst ok. by destruct n'.
Qed.

(** A holder's release frees its lock; a release that comes after the lock has
    passed to another token leaves it alone. Both forget the local entry. *)
Theorem Redis_Release_correct now key e l r :
  rl_entries l !! key = Some e ->
  let '((l', r'), err) := Redis_Release now NetOk key (l, r) in
  err = None /\ rl_entries l' !! key = None /\
  (forall now' k, now <= now' -> rk_Get now' k r' =
     if decide (k = key /\ rk_Get now key r = Some (re_token e)) then None else rk_Get now' k r).
Proof.
  intros He. unfold Redis_Release. rewrite He. unfold releaseWithToken. simpl.
  split; [done|]. split.
  - unfold cleanupLocal.
    assert (rl_entries (stop_rtimer (re_timer e) l) = rl_entries l) as -> by (unfold stop_rtimer; by repeat case_match).
    rewrite He, decide_True by done. simpl. by rewrite lookup_delete_eq.
  - intros now' k Hle. by apply redisDelScript_get.
Qed.

(** A timer that runs late does not touch the lock of another token, on the
    server or in the locker. *)
Theorem rtimer_run_spares now n t tm l r :
  rl_timers l !! t = Some tm -> rt_state tm = TimerFired ->
  rk_Get now (rt_key tm) r <> Some (rt_token tm) ->
  (forall e, rl_entries l !! rt_key tm = Some e -> re_token e <> rt_token tm) ->
  snd (rtimer_run now n t (l, r)) = r /\ rl_entries (fst (rtimer_run now n t (l, r))) = rl_entries l.
Proof.
  intros Ht Hs Hr Hl. unfold rtimer_run. simpl. rewrite Ht, decide_True by done. unfold releaseWithToken.
  assert (redisDelScript now (rt_key tm) (rt_token tm) r = r) as Hd by (unfold redisDelScript; by rewrite decide_False).
  rewrite Hd. assert (cleanupLocal (rt_key tm) (rt_token tm) (set_rtimer t tm TimerRun l) = set_rtimer t tm TimerRun l) as Hc.
  { unfold cleanupLocal. simpl. destruct (rl_entries l !! rt_key tm) as [e|] eqn:E; [|done].
    rewrite decide_False; [done|]. by apply Hl. }
  destruct n as [|[] er]; simpl; by rewrite ?Hc.
Qed.

End Laws.

(** ** The back-off *)

(** Whatever the wait sees, the interval is 5 ms doubled at most seven times. *)
Lemma redis_backoff_bounds key evs :
  exists k, 0 <= k <= 7 /\ foldl (fun i ev => fst (redis_wait key i ev)) baseInterval evs = baseInterval * 2 ^ k.
Proof.
  assert (forall i, (exists k, 0 <= k <= 7 /\ i = baseInterval * 2 ^ k) ->
    exists k, 0 <= k <= 7 /\ foldl (fun i ev => fst (redis_wait key i ev)) i evs = baseInterval * 2 ^ k) as H.
  { induction evs as [|ev evs IH]; intros i Hi; [done|]. cbn [foldl]. apply IH. destruct Hi as (k & Hk & ->).
    destruct ev as [p| | |e]; simpl; try by exists k.
    - case_decide; [exists 0|exists k]; split; done || lia.
    - case_match; bool_to_prop; [|by exists k]. exists (k + 1).
      assert (k <> 7) by (intros ->; unfold baseInterval, maxInterval, Millisecond in *; lia).
      split; [lia|]. rewrite Z.pow_add_r by lia. lia. }
  apply H. exists 0. split; [lia|done].
Qed.

(** Doubling goes past the maximum of 500 ms the function names. *)
Theorem redis_backoff_exceeds_max :
  foldl (fun i ev => fst (redis_wait "k" i ev)) baseInterval (replicate 7 WTimer) = 640 * Millisecond /\
  maxInterval < 640 * Millisecond.
Proof. split; reflexivity. Qed.

(** ** Acquire *)

Section AcquireProps.
Context {R : Type} `{!RedisKV R string, !LawfulRedisKV R string}.

Lemma redis_wait_loop_return key interval evs i e :
  redis_wait_loop key interval evs = (i, WaitReturn e) -> WDone e ∈ evs.
Proof.
  revert interval. induction evs as [|ev evs IH]; intros interval; [done|]. simpl.
  destruct ev as [p| | |e']; simpl; try done.
  - case_decide; [done|]. intros Hw%IH. by right.
  - intros [= _ ->]. left.
Qed.

(** What an attempt found. *)
Lemma redis_attempt_cases key ttl ro (st st' : RedisLock * R) ok :
  redis_attempt key ttl ro st = (st', ok) ->
  match ok with
  | Err e => net_error (ro_net ro) = Some e
  | Ok true => rk_Get (ro_now ro) key (snd (ro_others ro st)) = None /\
      rk_Get (ro_now ro) key (snd st') = Some (ro_token ro) /\
      exists timer, rl_entries (fst st') !! key = Some (mkEntry (ro_token ro) timer)
  | Ok false => rk_Get (ro_now ro) key (snd (ro_others ro st)) <> None
  end.
Proof.
  unfold redis_attempt, Redis_TryLock. destruct (ro_others ro st) as [l r]. simpl.
  pose proof (rk_SetNX_ok (ro_now ro) key (ro_token ro) ttl r) as Hok.
  pose proof (rk_SetNX_get (ro_now ro) (ro_now ro) key (ro_token ro) ttl r) as Hget.
  destruct (rk_SetNX (ro_now ro) key (ro_token ro) ttl r) as [r' b]. simpl in *.
  destruct (ro_net ro) as [|a e]; simpl; [|by intros [= <- <-]]. destruct b; symmetry in Hok.
  - apply bool_decide_eq_true in Hok. intros E.
    assert (snd st' = r' /\ ok = Ok true /\
      exists timer, rl_entries (fst st') !! key = Some (mkEntry (ro_token ro) timer)) as (Es & -> & He).
    { destruct (0 <? ttl); injection E as <- <-; simpl; split_and!; try done;
        rewrite lookup_insert_eq; by eexists. }
    split_and!; [done| |done]. rewrite Es, Hget by (done || lia).
    rewrite decide_False; [done|]. intros [H1 H2]. pose proof (rk_ttl_pos (V := string) ttl H1). lia.
  - apply bool_decide_eq_false in Hok. by intros [= <- <-].
Qed.

(** [Acquire] of the redis locker: it returns nil only with the lock, entered
    locally and held on the server by the token of an attempt that had found the
    key free; an error is that of
    a call or of the context; and while it is still trying, its last attempt had
    found the key taken. *)
Theorem Redis_Acquire_correct key ttl rounds (st st' : RedisLock * R) out :
  Redis_Acquire key ttl rounds st = (st', out) ->
  match out with
  | Some None => exists ro st0, ro ∈ rounds /\ redis_attempt key ttl ro st0 = (st', Ok true) /\
      rk_Get (ro_now ro) key (snd (ro_others ro st0)) = None /\
      rk_Get (ro_now ro) key (snd st') = Some (ro_token ro) /\
      exists timer, rl_entries (fst st') !! key = Some (mkEntry (ro_token ro) timer)
  | Some (Some e) => exists ro, ro ∈ rounds /\ (net_error (ro_net ro) = Some e \/ WDone e ∈ ro_events ro)
  | None => rounds = [] \/ exists ro st0, ro ∈ rounds /\ redis_attempt key ttl ro st0 = (st', Ok false) /\
      rk_Get (ro_now ro) key (snd (ro_others ro st0)) <> None
  end.
Proof.
  unfold Redis_Acquire. generalize baseInterval. revert st.
  induction rounds as [|ro rounds IH]; intros st interval; simpl; [intros [= <- <-]; by left|].
  destruct (redis_attempt key ttl ro st) as [st1 ok] eqn:Ea. pose proof (redis_attempt_cases _ _ _ _ _ _ Ea) as Hc.
  destruct ok as [[]|e].
  - intros [= <- <-]. exists ro, st. destruct Hc as (?&?&?). split_and!; [left|done..].
  - destruct (redis_wait_loop key interval (ro_events ro)) as [i [| |e]] eqn:Ew.
    + intros [= <- <-]. right. exists ro, st. split_and!; [left|done..].
    + intros E. specialize (IH _ _ E). destruct out as [[e|]|].
      * destruct IH as (ro' & Hin & Hx). exists ro'. split; [by right|done].
      * destruct IH as (ro' & st0 & Hin & Hx). exists ro', st0. split; [by right|done].
      * right. destruct IH as [->|(ro' & st0 & Hin & Hx)]; [|exists ro', st0; split; [by right|done]].
        simpl in E. injection E as <-. exists ro, st. split_and!; [left|done..].
    + intros [= <- <-]. exists ro. split; [left|]. right. by eapply redis_wait_loop_return.
  - intros [= <- <-]. exists ro. split; [left|by left].
Qed.

End AcquireProps.

(** ** Witness *)

Lemma Redis_TryLock_exclusive_witness :
  let '((l1, r1), _) := Redis_TryLock 0 NetOk "a" "k" 10 (NewRedis, mkRedisMap 0 ∅ : redis_map string) in
  snd (Redis_TryLock 9 NetOk "c" "k" 10 (NewRedis, foldl rop_run r1 [RTry 3 "b" "k" 5; RDel 4 "b" "k"])) <> Ok true.
Proof.
  simpl.
  destruct (Redis_TryLock_exclusive (R := redis_map string) 0 "a" "k" 10 NewRedis
    (fst (fst (Redis_TryLock 0 NetOk "a" "k" 10 (NewRedis, mkRedisMap 0 ∅ : redis_map string)))) (mkRedisMap 0 ∅)
    (snd (fst (Redis_TryLock 0 NetOk "a" "k" 10 (NewRedis, mkRedisMap 0 ∅ : redis_map string))))
    [RTry 3 "b" "k" 5; RDel 4 "b" "k"] 9 NewRedis "c" 10 NetOk) as [H _].
  - reflexivity.
  - repeat constructor; discriminate.
  - simpl. lia.
  - vm_compute. reflexivity.
  - exact H.
Defined.
