(* ===== verification/NatsLock.v ===== *)
(** * NatsLock: the locker over NATS JetStream

    Models [src/lock/nats.go]. The key-value store of JetStream is a parameter:
    [JetKV] has the three calls the locker makes, and [LawfulJetKV] their
    documented behaviour: revisions are never used twice, and a delete with a
    last revision takes effect only if the entry still has it. A call may fail
    after the server has executed it ([NetLost]). Several lockers share one
    server; a release is two calls, between which anything may happen. *)

From S2P Require Import Prelude Remote Lock.

(** ** The server *)

(** [kv_Create] answers false for [ErrKeyExists], [kv_Delete] for a wrong last
    sequence; [kv_Get] answers [None] for [ErrKeyNotFound]. *)
Class JetKV (N : Type) := {
  kv_Get : string -> N -> option (string * Z);
  kv_Create : string -> string -> N -> N * bool;
  kv_Delete : string -> Z -> N -> N * bool;
}.

(** [kv_last] is the last revision the server gave out. *)
Class LawfulJetKV (N : Type) `{JetKV N} := {
  kv_last : N -> Z;
  kv_Get_last : forall k v r (n : N), kv_Get k n = Some (v, r) -> r <= kv_last n;
  kv_Create_ok : forall k v (n : N), snd (kv_Create k v n) = bool_decide (kv_Get k n = None);
  kv_Create_taken : forall k v (n : N), kv_Get k n <> None -> fst (kv_Create k v n) = n;
  kv_Create_get : forall k v (n : N), kv_Get k n = None ->
    exists r, kv_Get k (fst (kv_Create k v n)) = Some (v, r) /\ kv_last n < r;
  kv_Create_other : forall k k' v (n : N), k <> k' -> kv_Get k' (fst (kv_Create k v n)) = kv_Get k' n;
  kv_Create_last : forall k v (n : N), kv_last n <= kv_last (fst (kv_Create k v n));
  kv_Delete_get : forall k v r (n : N), kv_Get k n = Some (v, r) ->
    kv_Get k (fst (kv_Delete k r n)) = None /\ snd (kv_Delete k r n) = true;
  kv_Delete_changed : forall k r (n : N), (forall v, kv_Get k n <> Some (v, r)) ->
    (forall k', kv_Get k' (fst (kv_Delete k r n)) = kv_Get k' n) /\
    (kv_Get k n <> None -> snd (kv_Delete k r n) = false);
  kv_Delete_other : forall k k' r (n : N), k <> k' -> kv_Get k' (fst (kv_Delete k r n)) = kv_Get k' n;
  kv_Delete_last : forall k r (n : N), kv_last n <= kv_last (fst (kv_Delete k r n));
}.

(** ** The locker *)

Record lockEntry := mkLockEntry { le_token : string; le_timer : option nat }.

Record natsTimer := mkNTimer {
  nt_key : string;
  nt_token : string;
  nt_at : time;
  nt_state : timerState;
}.

(** [nl_kv]: [kvOnce] has run, with the error [kvErr]. *)
Record NATS := mkNATS {
  nl_locks : gmap string lockEntry;
  nl_timers : gmap nat natsTimer;
  nl_next : nat;
  nl_kv : option (option error);
}.

Definition NewNATS : NATS := mkNATS ∅ ∅ 0 None.

Definition ErrStreamNameAlreadyInUse : error := ErrNew "nats: API error: code=400 err_code=10058 description=stream name already in use".

(** What making the bucket meets: the error of [CreateKeyValue], and of
    [KeyValue] if the bucket exists. *)
Record kv_io := mkKvIO { kio_create : option error; kio_open : option error }.

Definition getKV (io : kv_io) (l : NATS) : NATS * option error :=
  match nl_kv l with
  | Some err => (l, err)
  | None =>
      let err := match kio_create io with
                 | None => None
                 | Some e => if errors_Is e ErrStreamNameAlreadyInUse then kio_open io else Some e
                 end in
      (mkNATS (nl_locks l) (nl_timers l) (nl_next l) (Some err), err)
  end.

Section NatsLock.
Context {N : Type} `{!JetKV N}.
Implicit Types (l : NATS) (n : N).

Definition set_ntimer (t : nat) (tm : natsTimer) (ts : timerState) l : NATS :=
  mkNATS (nl_locks l) (<[t := mkNTimer (nt_key tm) (nt_token tm) (nt_at tm) ts]> (nl_timers l)) (nl_next l) (nl_kv l).

(** [e.timer.Stop()] *)
Definition stop_ntimer (timer : option nat) l : NATS :=
  match timer ≫= fun t => pair t <$> nl_timers l !! t with
  | Some (t, tm) => if decide (nt_state tm = TimerArmed) then set_ntimer t tm TimerStopped l else l
  | None => l
  end.

Definition nats_cleanupLocal (key token : string) l : NATS :=
  match nl_locks l !! key with
  | Some e =>
      if decide (le_token e = token) then
        let l := stop_ntimer (le_timer e) l in
        mkNATS (delete key (nl_locks l)) (nl_timers l) (nl_next l) (nl_kv l)
      else l
  | None => l
  end.

(** The first call of [TryLock], with the fresh UUID [token]. *)
Definition nats_try_create (io : kv_io) (o : net) (token key : string) (st : NATS * N) : (NATS * N) * res bool :=
  let '(l, n) := st in
  let '(l, err) := getKV io l in
  match err with
  | Some e => ((l, n), Err e)
  | None =>
      let '(n', ok) := kv_Create key token n in
      ((l, if net_applied o then n' else n),
       match net_error o with Some e => Err e | None => Ok ok end)
  end.

(** The timer is started before the lock is entered. *)
Definition nats_try_timer (now : time) (token key : string) (ttl : duration) l : NATS * option nat :=
  if 0 <? ttl then
    (mkNATS (nl_locks l) (<[nl_next l := mkNTimer key token (time_Add now ttl) TimerArmed]> (nl_timers l))
       (S (nl_next l)) (nl_kv l), Some (nl_next l))
  else (l, None).

Definition nats_try_enter (token key : string) (timer : option nat) l : NATS :=
  mkNATS (<[key := mkLockEntry token timer]> (nl_locks l)) (nl_timers l) (nl_next l) (nl_kv l).

Definition NATS_TryLock (io : kv_io) (now : time) (o : net) (token key : string) (ttl : duration) (st : NATS * N)
    : (NATS * N) * res bool :=
  let '((l, n), r) := nats_try_create io o token key st in
  match r with
  | Ok true => let '(l, timer) := nats_try_timer now token key ttl l in ((nats_try_enter token key timer l, n), Ok true)
  | r => ((l, n), r)
  end.

(** [releaseWithToken]: after [kv.Get] it has returned, or it deletes the
    revision. *)
Inductive release := Released (err : option error) | Deleting (revision : Z).

Definition nats_release_get (io : kv_io) (o : net) (key token : string) (st : NATS * N) : (NATS * N) * release :=
  let '(l, n) := st in
  let '(l, err) := getKV io l in
  match err, net_error o with
  | Some e, _ => ((l, n), Released (Some e))
  | None, Some e => ((l, n), Released (Some e))
  | None, None =>
      match kv_Get key n with
      | None => ((nats_cleanupLocal key token l, n), Released None)
      | Some (v, rev) => if decide (v = token) then ((l, n), Deleting rev) else ((l, n), Released None)
      end
  end.

Definition nats_release_delete (o : net) (key token : string) (rev : Z) (st : NATS * N) : (NATS * N) * option error :=
  let '(l, n) := st in
  let '(n', ok) := kv_Delete key rev n in
  let n := if net_applied o then n' else n in
  match net_error o with
  | Some e => ((l, n), Some e)
  | None => ((if ok then nats_cleanupLocal key token l else l, n), None)
  end.

Definition nats_releaseWithToken (io : kv_io) (o1 o2 : net) (key token : string) (st : NATS * N)
    : (NATS * N) * option error :=
  let '(st, r) := nats_release_get io o1 key token st in
  match r with
  | Released err => (st, err)
  | Deleting rev => nats_release_delete o2 key token rev st
  end.

Definition NATS_Release (io : kv_io) (o1 o2 : net) (key : string) (st : NATS * N) : (NATS * N) * option error :=
  match nl_locks (fst st) !! key with
  | None => (st, None)
  | Some e => nats_releaseWithToken io o1 o2 key (le_token e) st
  end.

(** The timer's goroutine: started once its time has come, then the release of
    the token it captured. *)
Definition ntimer_fire (now : time) (t : nat) l : NATS :=
  match nl_timers l !! t with
  | Some tm => if decide (nt_state tm = TimerArmed /\ nt_at tm <= now) then set_ntimer t tm TimerFired l else l
  | None => l
  end.

Definition ntimer_run (io : kv_io) (o1 o2 : net) (t : nat) (st : NATS * N) : NATS * N :=
  match nl_timers (fst st) !! t with
  | Some tm =>
      if decide (nt_state tm = TimerFired) then
        fst (nats_releaseWithToken io o1 o2 (nt_key tm) (nt_token tm) (set_ntimer t tm TimerRun (fst st), snd st))
      else st
  | None => st
  end.

End NatsLock.

(** ** Acquire

    Between two attempts: the watcher is started, and sees the updates of the
    key from then on ([jetstream.UpdatesOnly]). *)

(** [KPut], [KDelete], [KPurge]: [entry.Operation()]. *)
Inductive kv_update := KPut | KDelete | KPurge.

Inductive acquire_event := AUpdate (entry : option kv_update) | AClosed | ADone (e : error).
Inductive acquire_wait := AcqMore | AcqRetry | AcqReturn (e : error).

Definition nats_wait (ev : acquire_event) : acquire_wait :=
  match ev with
  | AClosed => AcqRetry
  | AUpdate None => AcqMore
  | AUpdate (Some KDelete) => AcqRetry
  | AUpdate (Some _) => AcqMore
  | ADone e => AcqReturn e
  end.

(** Where a call of [Acquire] stands; while it waits, the updates its watcher
    has not handed over. *)
Inductive acquire_state := AcqTry | AcqWatch | AcqWaiting (updates : list kv_update) | AcqDone (err : option error).

Section Acquire.
Context {N : Type} `{!JetKV N}.

Definition nats_acquire_try (io : kv_io) (now : time) (o : net) (token key : string) (ttl : duration) (st : NATS * N)
    : (NATS * N) * acquire_state :=
  let '(st, r) := NATS_TryLock io now o token key ttl st in
  (st, match r with Err e => AcqDone (Some e) | Ok true => AcqDone None | Ok false => AcqWatch end).

(** [kv.Watch], with its error. *)
Definition nats_acquire_watch (watch_err : option error) : acquire_state :=
  match watch_err with Some e => AcqDone (Some e) | None => AcqWaiting [] end.

(** A watcher hears of an update of its key. *)
Definition watcher_hears (u : kv_update) (s : acquire_state) : acquire_state :=
  match s with AcqWaiting us => AcqWaiting (us ++ [u]) | s => s end.

(** One iteration of the inner loop: the next update, if there is one. *)
Definition nats_acquire_wait (s : acquire_state) : acquire_state :=
  match s with
  | AcqWaiting (u :: us) =>
      match nats_wait (AUpdate (Some u)) with
      | AcqMore => AcqWaiting us
      | AcqRetry => AcqTry
      | AcqReturn e => AcqDone (Some e)
      end
  | s => s
  end.

(** [case <-ctx.Done()] *)
Definition nats_acquire_done (e : error) (s : acquire_state) : acquire_state :=
  match s with AcqWaiting _ => AcqDone (Some e) | s => s end.

End Acquire.

(** ** Exclusion *)

Section Laws.
Context {N : Type} `{!JetKV N, !LawfulJetKV N}.
Implicit Types (l : NATS) (n : N).

(** What the lockers of other tokens do to the server, while [token] holds its
    lock: the server, and the deletes they are about to send, each with the
    token, the key and the revision its first call has seen. *)
Inductive jet_step (token : string) : N * list (string * string * Z) -> N * list (string * string * Z) -> Prop :=
| jet_step_create io o tok key l n p :
    tok <> token -> jet_step token (n, p) (snd (fst (nats_try_create io o tok key (l, n))), p)
| jet_step_get io o tok key l n p rev :
    snd (nats_release_get io o key tok (l, n)) = Deleting rev -> jet_step token (n, p) (n, (tok, key, rev) :: p)
| jet_step_delete o tok key rev l n p :
    (tok, key, rev) ∈ p -> tok <> token ->
    jet_step token (n, p) (snd (fst (nats_release_delete o key tok rev (l, n))), p).

(** A delete in flight removes its own token's entry or nothing. *)
Definition delete_ok n (d : string * string * Z) : Prop :=
  let '(tok, key, rev) := d in rev <= kv_last n /\ forall v, kv_Get key n = Some (v, rev) -> v = tok.

Lemma try_create_server io o tok key l n :
  snd (fst (nats_try_create io o tok key (l, n))) = n \/
  snd (fst (nats_try_create io o tok key (l, n))) = fst (kv_Create key tok n).
Proof.
  unfold nats_try_create. destruct (getKV io l) as [l' [e|]]; [by left|].
  destruct (kv_Create key tok n). destruct o as [|[] e]; simpl; tauto.
Qed.

Lemma release_delete_server o tok key rev l n :
  snd (fst (nats_release_delete o key tok rev (l, n))) = n \/
  snd (fst (nats_release_delete o key tok rev (l, n))) = fst (kv_Delete key rev n).
Proof.
  unfold nats_release_delete. destruct (kv_Delete key rev n). destruct o as [|[] e]; simpl; tauto.
Qed.

Lemma release_get_rev io o tok key l n rev :
  snd (nats_release_get io o key tok (l, n)) = Deleting rev -> kv_Get key n = Some (tok, rev).
Proof.
  unfold nats_release_get. destruct (getKV io l) as [l' [e|]]; [done|]. destruct (net_error o); [done|].
  destruct (kv_Get key n) as [[v r]|]; [|done]. destruct (decide (v = tok)) as [->|]; [|done]. by intros [= ->].
Qed.

Lemma delete_ok_create n d key tok : delete_ok n d -> delete_ok (fst (kv_Create key tok n)) d.
Proof.
  destruct d as [[t k] r]. intros [Hl Hv]. split; [pose proof (kv_Create_last key tok n); lia|].
  destruct (decide (key = k)) as [->|]; [|by rewrite kv_Create_other].
  destruct (kv_Get k n) as [[w s]|] eqn:E; [by rewrite kv_Create_taken, E by congruence|].
  destruct (kv_Create_get k tok n E) as (s & -> & Hs). intros v [= _ ->]. lia.
Qed.

Lemma delete_ok_delete n d key rev : delete_ok n d -> delete_ok (fst (kv_Delete key rev n)) d.
Proof.
  destruct d as [[t k] r]. intros [Hl Hv]. split; [pose proof (kv_Delete_last key rev n); lia|].
  destruct (decide (key = k)) as [->|]; [|by rewrite kv_Delete_other].
  destruct (kv_Get k n) as [[w s]|] eqn:E.
  - destruct (decide (s = rev)) as [->|Hs]; [by rewrite (proj1 (kv_Delete_get _ _ _ _ E))|].
    assert (forall v, kv_Get k n <> Some (v, rev)) as Hn by (rewrite E; intros v [= _ ?]; done).
    by rewrite (proj1 (kv_Delete_changed k rev n Hn)), E.
  - assert (forall v, kv_Get k n <> Some (v, rev)) as Hn by (by rewrite E).
    by rewrite (proj1 (kv_Delete_changed k rev n Hn)), E.
Qed.

Lemma jet_step_holds token key st st' :
  jet_step token st st' ->
  (exists r, kv_Get key (fst st) = Some (token, r)) -> Forall (delete_ok (fst st)) (snd st) ->
  (exists r, kv_Get key (fst st') = Some (token, r)) /\ Forall (delete_ok (fst st')) (snd st').
Proof.
  intros Hs [r Hr] Hp. destruct Hs as [io o tok k l n p Hne|io o tok k l n p rev Hg|o tok k rev l n p Hin Hne]; cbn [fst snd] in *.
  - destruct (try_create_server io o tok k l n) as [->| ->]; [eauto|]. split.
    + exists r. destruct (decide (k = key)) as [->|]; [|by rewrite kv_Create_other].
      by rewrite kv_Create_taken by congruence.
    + eapply Forall_impl; [done|]. intros d. apply delete_ok_create.
  - split; [eauto|]. apply Forall_cons. split; [|done]. apply release_get_rev in Hg.
    split; [by eapply kv_Get_last|congruence].
  - destruct (release_delete_server o tok k rev l n) as [->| ->]; [eauto|]. split.
    + exists r. destruct (decide (k = key)) as [->|]; [|by rewrite kv_Delete_other].
      assert (forall v, kv_Get key n <> Some (v, rev)) as Hn.
      { intros v E. rewrite Forall_forall in Hp. destruct (Hp _ Hin) as [_ Hv]. apply Hne.
        rewrite Hr in E. injection E as -> ->. symmetry. by apply Hv. }
      by rewrite (proj1 (kv_Delete_changed key rev n Hn)).
    + eapply Forall_impl; [done|]. intros d. apply delete_ok_delete.
Qed.

Lemma jet_steps_hold token key st st' :
  rtc (jet_step token) st st' ->
  (exists r, kv_Get key (fst st) = Some (token, r)) -> Forall (delete_ok (fst st)) (snd st) ->
  exists r, kv_Get key (fst st') = Some (token, r).
Proof.
  induction 1 as [|st1 st2 st3 Hs _ IH]; [done|]. intros Hr Hp.
  destruct (jet_step_holds token key _ _ Hs Hr Hp). by apply IH.
Qed.

Lemma NATS_TryLock_true io now o token key ttl l n l1 n1 :
  NATS_TryLock io now o token key ttl (l, n) = ((l1, n1), Ok true) ->
  kv_Get key n = None /\ n1 = fst (kv_Create key token n).
Proof.
  unfold NATS_TryLock, nats_try_create. destruct (getKV io l) as [l' [e|]]; [done|].
  pose proof (kv_Create_ok key token n) as Hok. destruct (kv_Create key token n) as [n' ok]. simpl in Hok.
  destruct o as [|[] e]; simpl; [|done..]. destruct ok; [|done]. destruct (nats_try_timer _ _ _ _ _).
  intros [= <- <-]. split; [|done]. symmetry in Hok. by apply bool_decide_eq_true in Hok.
Qed.

(** C17. The lock of the NATS locker is exclusive although a release is two
    calls. After a [TryLock] with a fresh token has succeeded, whatever lockers
    with other tokens do in the meantime (attempts, the reads and the deletes of
    their releases, deletes whose read came long before, calls that fail with or
    without effect), the entry of the holder stays, and every [TryLock] of the
    key fails. *)
Theorem NATS_TryLock_exclusive io now o token key ttl l l1 n n1 p n2 p2 io' now' o' token' ttl' l' :
  NATS_TryLock io now o token key ttl (l, n) = ((l1, n1), Ok true) ->
  Forall (delete_ok n) p -> rtc (jet_step token) (n1, p) (n2, p2) ->
  (exists r, kv_Get key n2 = Some (token, r)) /\
  snd (NATS_TryLock io' now' o' token' key ttl' (l', n2)) <> Ok true.
Proof.
  intros E Hp Hs. apply NATS_TryLock_true in E as [Hn ->].
  destruct (kv_Create_get key token n Hn) as (r0 & Hr0 & _).
  destruct (jet_steps_hold token key _ _ Hs) as [r Hr]; simpl; [by exists r0| |].
  { eapply Forall_impl; [exact Hp|]. intros d. apply delete_ok_create. }
  simpl in Hr. split; [by exists r|].
  destruct (NATS_TryLock io' now' o' token' key ttl' (l', n2)) as [[l3 n3] res] eqn:E'. simpl. intros ->.
  apply NATS_TryLock_true in E' as [Hn' _]. congruence.
Qed.

(** A release by the holder frees the lock, on the server and locally, and stops
    the timer. *)
Theorem NATS_Release_frees io key e r l n :
  nl_kv l = Some None -> nl_locks l !! key = Some e -> kv_Get key n = Some (le_token e, r) ->
  let '((l', n'), err) := NATS_Release io NetOk NetOk key (l, n) in
  err = None /\ kv_Get key n' = None /\ nl_locks l' !! key = None /\
  (forall t tm, le_timer e = Some t -> nl_timers l !! t = Some tm -> nt_state tm = TimerArmed ->
     exists tm', nl_timers l' !! t = Some tm' /\ nt_state tm' = TimerStopped).
Proof.
  intros Hkv He Hg. unfold NATS_Release, nats_releaseWithToken, nats_release_get. simpl. rewrite He.
  unfold getKV. rewrite Hkv. simpl. rewrite Hg, decide_True by done. unfold nats_release_delete.
  destruct (kv_Delete_get key _ _ n Hg) as [H1 H2]. destruct (kv_Delete key r n) as [n' ok]. simpl in *. subst ok.
  unfold nats_cleanupLocal. rewrite He, decide_True by done. split_and!; try done; simpl; [by rewrite lookup_delete_eq|].
  intros t tm -> Ht Hs. unfold stop_ntimer. simpl. rewrite Ht. simpl. rewrite decide_True by done. simpl.
  rewrite lookup_insert_eq. eexists. split; [done|done].
Qed.

(** The timer of a lock with a TTL releases it, if its holder still has it. *)
Theorem ntimer_expires io t tm r now l n :
  nl_kv l = Some None -> nl_timers l !! t = Some tm -> nt_state tm = TimerArmed -> nt_at tm <= now ->
  kv_Get (nt_key tm) n = Some (nt_token tm, r) ->
  kv_Get (nt_key tm) (snd (ntimer_run io NetOk NetOk t (ntimer_fire now t l, n))) = None.
Proof.
  intros Hkv Ht Hs Hn Hg. unfold ntimer_fire. rewrite Ht, decide_True by done. unfold ntimer_run. simpl.
  rewrite lookup_insert_eq. simpl. unfold nats_releaseWithToken, nats_release_get, getKV. simpl. rewrite Hkv. simpl.
  rewrite Hg, decide_True by done. unfold nats_release_delete.
  destruct (kv_Delete_get _ _ _ n Hg) as [H1 H2]. by destruct (kv_Delete (nt_key tm) r n).
Qed.

(** A lock attempt whose answer is lost leaves a lock nobody holds: the caller
    gets an error, the locker has no entry and no timer for it, so that a
    [Release] does nothing, and the server has no expiry for it. *)
Theorem TryLock_answer_lost io io' now e token key ttl l n o1 o2 :
  nl_kv l = Some None -> nl_locks l !! key = None -> kv_Get key n = None ->
  let '((l', n'), r) := NATS_TryLock io now (NetLost true e) token key ttl (l, n) in
  r = Err e /\ (exists rev, kv_Get key n' = Some (token, rev)) /\ l' = l /\
  NATS_Release io' o1 o2 key (l', n') = ((l', n'), None).
Proof.
  intros Hkv Hl Hn. unfold NATS_TryLock, nats_try_create, getKV. rewrite Hkv. simpl.
  destruct (kv_Create_get key token n Hn) as (rev & Hr & _). destruct (kv_Create key token n) as [n' ok]. simpl in *.
  split_and!; eauto. unfold NATS_Release. simpl. by rewrite Hl.
Qed.

(** An error of the first use of the bucket is answered for ever. *)
Theorem getKV_sticky io io' l l' e : getKV io l = (l', Some e) -> getKV io' l' = (l', Some e).
Proof. unfold getKV. destruct (nl_kv l) as [err|] eqn:E; intros [= <- <-]; simpl; by rewrite ?E. Qed.

End Laws.

(** ** An instance *)

(** No entry is newer than the last revision. *)
Record jet_map := mkJetMap {
  jm_entries : gmap string (string * Z);
  jm_last : Z;
  jm_ok : map_Forall (fun _ e => snd e <= jm_last) jm_entries;
}.

Lemma jm_insert_ok k v m last : map_Forall (fun _ e => snd e <= last) m ->
  map_Forall (fun _ e => snd e <= last + 1) (<[k := (v, last + 1)]> m : gmap string (string * Z)).
Proof.
  intros H k' e. destruct (decide (k' = k)) as [->|]; [rewrite lookup_insert_eq; intros [= <-]; simpl; lia|].
  rewrite lookup_insert_ne by done. intros Hk. specialize (H k' e Hk). simpl in H. lia.
Qed.

Lemma jm_delete_ok k (m : gmap string (string * Z)) last : map_Forall (fun _ e => snd e <= last) m ->
  map_Forall (fun _ e => snd e <= last + 1) (delete k m).
Proof. intros H k' e [_ Hk]%lookup_delete_Some. specialize (H k' e Hk). simpl in H. lia. Qed.

Definition jm_Create (k v : string) (n : jet_map) : jet_map * bool :=
  match jm_entries n !! k with
  | Some _ => (n, false)
  | None => (mkJetMap _ _ (jm_insert_ok k v _ _ (jm_ok n)), true)
  end.

Definition jm_Delete (k : string) (r : Z) (n : jet_map) : jet_map * bool :=
  match jm_entries n !! k with
  | Some e => if decide (snd e = r) then (mkJetMap _ _ (jm_delete_ok k _ _ (jm_ok n)), true) else (n, false)
  | None => (n, false)
  end.

#[export] Instance jet_map_KV : JetKV jet_map := {
  kv_Get := fun k n => jm_entries n !! k;
  kv_Create := jm_Create;
  kv_Delete := jm_Delete;
}.

#[export] Instance jet_map_lawful : LawfulJetKV jet_map.
Proof.
  refine {| kv_last := jm_last |}; simpl; unfold jm_Create, jm_Delete.
  - intros k v r n Hk. exact (jm_ok n k (v, r) Hk).
  - intros k v n. by destruct (jm_entries n !! k).
  - intros k v n. by destruct (jm_entries n !! k).
  - intros k v n ->. simpl. exists (jm_last n + 1). rewrite lookup_insert_eq. split; [done|lia].
  - intros k k' v n Hne. destruct (jm_entries n !! k); simpl; [done|]. by rewrite lookup_insert_ne.
  - intros k v n. destruct (jm_entries n !! k); simpl; lia.
  - intros k v r n ->. simpl. rewrite decide_True by done. simpl. by rewrite lookup_delete_eq.
  - intros k r n Hn. destruct (jm_entries n !! k) as [[v s]|] eqn:E; simpl; [|done].
    rewrite decide_False by (intros ->; by eapply Hn). done.
  - intros k k' r n Hne. destruct (jm_entries n !! k) as [e|]; [|done]. destruct (decide _); simpl; [|done].
    by rewrite lookup_delete_ne.
  - intros k r n. destruct (jm_entries n !! k) as [e|]; [|simpl; lia]. destruct (decide _); simpl; lia.
Defined.

(** ** Witnesses *)

Definition jet_empty : jet_map := mkJetMap ∅ 0 (map_Forall_empty _).
Definition kv_io_ok : kv_io := mkKvIO None None.
Definition jet_held : (NATS * jet_map) * res bool := NATS_TryLock kv_io_ok 0 NetOk "a" "k" 10 (NewNATS, jet_empty).

Lemma NATS_TryLock_exclusive_witness :
  snd (NATS_TryLock kv_io_ok 0 NetOk "c" "k" 10
    (NewNATS, snd (fst (nats_try_create kv_io_ok NetOk "b" "k" (NewNATS, snd (fst jet_held)))))) <> Ok true.
Proof.
  apply (NATS_TryLock_exclusive kv_io_ok 0 NetOk "a" "k" 10 NewNATS (fst (fst jet_held)) jet_empty (snd (fst jet_held))
    [] (snd (fst (nats_try_create kv_io_ok NetOk "b" "k" (NewNATS, snd (fst jet_held))))) []).
  - reflexivity.
  - constructor.
  - eapply rtc_l; [|apply rtc_refl]. by apply (jet_step_create "a" kv_io_ok NetOk "b" "k" NewNATS).
Defined.

(** [Acquire] can wait for ever on a free lock: the release comes after its
    attempt has failed and before its watcher has started, and the watcher hears
    of later updates only. *)
Theorem NATS_Acquire_misses_release :
  let '((la, n1), _) := jet_held in
  let '((lb, n2), waiter) := nats_acquire_try kv_io_ok 1 NetOk "b" "k" 10 (NewNATS, n1) in
  let '((_, n3), released) := NATS_Release kv_io_ok NetOk NetOk "k" (la, n2) in
  let waiter' := match waiter with AcqWatch => nats_acquire_watch None | s => s end in
  waiter = AcqWatch /\ released = None /\ kv_Get "k" n3 = None /\
  waiter' = AcqWaiting [] /\ nats_acquire_wait waiter' = waiter'.
Proof. vm_compute. repeat split; reflexivity. Qed.
