(* ===== verification/Validator.v ===== *)
(** * Validator: comparing the cache with the store

    Models [src/validator/validator.go]: the validator with its mode, its
    mismatch counter and its digester, the [scan] with the healing write, the
    loop [Run] around it, and [JSONDigester]. JSON encoding of the values and
    the SHA-256 function are parameters of the digester. *)

From S2P Require Import Prelude Bytes CacheIface Store.

Inductive VMode := ModeNoop | ModeAlert | ModeAutoHeal.

#[export] Instance VMode_eq_dec : EqDecision VMode.
Proof. solve_decision. Defined.

Record Validator (T : Type) := mkValidator {
  v_mode : VMode;
  v_interval : duration;
  v_mismatches : Z;
  v_digest : T -> res string;
}.
Arguments mkValidator {T} _ _ _ _.
Arguments v_mode {T} _.
Arguments v_interval {T} _.
Arguments v_mismatches {T} _.
Arguments v_digest {T} _.

Section Validator.
Context {T C S : Type} `{!Cache C T, !Store S T}.
Implicit Types v : Validator T.

Definition NewValidator (digest : T -> res string) (mode : VMode) (interval : duration)
    : Validator T := mkValidator mode interval 0 digest.

(** [None] is a nil digester. *)
Definition SetDigester (d : option (T -> res string)) v : Validator T :=
  match d with
  | None => v
  | Some d => mkValidator (v_mode v) (v_interval v) (v_mismatches v) d
  end.

Definition count_mismatch v : Validator T :=
  mkValidator (v_mode v) (v_interval v) (u64 (v_mismatches v + 1)) (v_digest v).

(** The body of the loop over the store's keys, after the poll of the context:
    [continue] and the end of the body both answer the new state. *)
Definition scan_key (cx : ctx) (now : time) (k : string) v (c : C) (s : S) : Validator T * C * S :=
  let '(c, r) := cache_Get (after 0 cx) now k c in
  match r with
  | Ok (Some cv) =>
      let '(s, r) := store_Get (after 1 cx) k s in
      match r with
      | Ok (Some sv) =>
          match v_digest v cv, v_digest v sv with
          | Ok cvDigest, Ok svDigest =>
              if bool_decide (cvDigest = svDigest) then (v, c, s)
              else
                let v := count_mismatch v in
                if bool_decide (v_mode v = ModeAutoHeal)
                then (v, fst (cache_Set (after 2 cx) now k sv 0 c), s)
                else (v, c, s)
          | _, _ => (v, c, s)
          end
      | _ => (v, c, s)
      end
  | _ => (v, c, s)
  end.

Fixpoint scan_keys (cx : ctx) (now : time) (ks : list string) v (c : C) (s : S)
    : Validator T * C * S :=
  match ks with
  | [] => (v, c, s)
  | k :: ks =>
      match cx 0%nat with
      | Some _ => (v, c, s)
      | None =>
          let '(v, c, s) := scan_key (after 0 cx) now k v c s in
          scan_keys (after 1 cx) now ks v c s
      end
  end.

Definition scan (cx : ctx) (now : time) v (c : C) (s : S) : Validator T * C * S :=
  let '(s, r) := store_Keys (after 0 cx) s in
  match r with
  | Err _ => (v, c, s)
  | Ok ks => scan_keys (after 1 cx) now ks v c s
  end.

Definition Validator_Metrics v : Z := v_mismatches v.

(** What the loop of [Run] meets, in order: a tick, the end of the context,
    and between them what the rest of the program does to cache and store. *)
Inductive run_event :=
| RTick (cx : ctx) (now : time)
| RDone
| ROther (f : C -> S -> C * S).

Inductive run_outcome := RunReturned | RunPanicked | RunWaiting.

Fixpoint run_loop (evs : list run_event) v (c : C) (s : S) : run_outcome * (Validator T * C * S) :=
  match evs with
  | [] => (RunWaiting, (v, c, s))
  | RDone :: _ => (RunReturned, (v, c, s))
  | RTick cx now :: evs => let '(v, c, s) := scan cx now v c s in run_loop evs v c s
  | ROther f :: evs => let '(c, s) := f c s in run_loop evs v c s
  end.

(** [time.NewTicker] panics on an interval that is not positive. *)
Definition Validator_Run (evs : list run_event) v (c : C) (s : option S)
    : run_outcome * (Validator T * C * option S) :=
  match s with
  | None => (RunReturned, (v, c, None))
  | Some s =>
      if v_interval v <=? 0 then (RunPanicked, (v, c, Some s))
      else let '(o, (v, c, s)) := run_loop evs v c s in (o, (v, c, Some s))
  end.

End Validator.

(** ** The default digester *)

(** [hex.EncodeToString] *)
Definition hex_digit (n : Z) : Byte.byte := byte_of_Z (if n <? 10 then 48 + n else 87 + n).
Definition hex_byte (b : Byte.byte) : list Byte.byte :=
  [hex_digit (Z.shiftr (byte_to_Z b) 4); hex_digit (Z.land (byte_to_Z b) 15)].
Definition EncodeToString (bs : list Byte.byte) : string := bytes_string (flat_map hex_byte bs).

Definition JSONDigester_Digest {T} (Marshal : T -> res (list Byte.byte))
    (Sum256 : list Byte.byte -> list Byte.byte) (v : T) : res string :=
  match Marshal v with
  | Err e => Err e
  | Ok b => Ok (EncodeToString (Sum256 b))
  end.

Definition hex_value (d : Byte.byte) : Z :=
  let z := byte_to_Z d in if z <? 58 then z - 48 else z - 87.
Definition unhex_byte (ds : list Byte.byte) : Byte.byte :=
  match ds with
  | [h; l] => byte_of_Z (16 * hex_value h + hex_value l)
  | _ => Byte.x00
  end.

Lemma hex_byte_unhex b : unhex_byte (hex_byte b) = b.
Proof. by destruct b. Qed.

Lemma hex_byte_inj a b : hex_byte a = hex_byte b -> a = b.
Proof. intros E%(f_equal unhex_byte). by rewrite !hex_byte_unhex in E. Qed.

Lemma EncodeToString_inj x y : EncodeToString x = EncodeToString y -> x = y.
Proof.
  intros E%(f_equal string_bytes). unfold EncodeToString in E. rewrite !string_bytes_string in E.
  revert y E. induction x as [|a x IH]; intros [|b y] E; try done. simpl in E.
  injection E as E1 E2 E3. rewrite (IH y E3). f_equal. apply hex_byte_inj. unfold hex_byte. congruence.
Qed.

(** Two values have one digest exactly when their encodings have one hash:
    the hexadecimal text loses nothing. *)
Lemma JSONDigester_Digest_eq {T} Marshal Sum256 (x y : T) bx b_y :
  Marshal x = Ok bx -> Marshal y = Ok b_y ->
  JSONDigester_Digest Marshal Sum256 x = JSONDigester_Digest Marshal Sum256 y <-> Sum256 bx = Sum256 b_y.
Proof.
  intros Hx Hy. unfold JSONDigester_Digest. rewrite Hx, Hy. split; [|congruence].
  intros [= E]. by apply EncodeToString_inj.
Qed.

(** ** What a scan relies on

    A read reports what the cache holds, and a healing write is held right
    after; nothing is asked of how long it is held. *)
Class ValidatedCache (C V : Type) `{Cache C V} := {
  vc_ok : C -> Prop;
  vc_view : C -> time -> string -> option V;
  vc_Get_law : forall cx now k c c' r,
    vc_ok c -> 0 < now -> cache_Get cx now k c = (c', r) ->
    vc_ok c' /\
    (cx = Background -> r = Ok (vc_view c now k) /\ forall k', vc_view c' now k' = vc_view c now k');
  vc_Set_law : forall cx now k v c c' r,
    vc_ok c -> 0 < now -> cache_Set cx now k v 0 c = (c', r) ->
    vc_ok c' /\
    (cx = Background -> vc_view c' now k = Some v /\
       forall k', k' <> k -> vc_view c' now k' = vc_view c now k' \/ vc_view c' now k' = None);
}.

#[export] Instance LawfulCache_Validated {C V} `{HCa : !Cache C V, HC : !LawfulCache C V} : ValidatedCache C V.
Proof.
  refine {| vc_ok := cache_ok; vc_view := cache_view |}.
  - intros cx now k c c' r Hc Hn E. destruct (cache_Get_law _ _ _ _ _ _ Hc Hn E) as (H1 & H2 & H3 & H4).
    split; [done|]. intros ->. destruct (H4 eq_refl) as [o ->]. split; [by rewrite (H3 o)|].
    intros k'. apply H2. lia.
  - intros cx now k v c c' r Hc Hn E.
    assert (is_i64 0) as Hz by (unfold is_i64; lia).
    destruct (cache_Set_law _ _ _ _ _ _ _ _ Hc Hn Hz E) as (H1 & H2 & H3 & _ & H5).
    split; [done|]. intros ->. split; [by rewrite (H2 (H5 eq_refl) now (Z.le_refl _)), decide_True|].
    intros k' Hne. apply H3; [done|lia].
Defined.

Section ValidatorProps.
Context {T C S : Type} `{HCa : !Cache C T, HC : !ValidatedCache C T, HSa : !Store S T, HS : !LawfulStore S T}.
Implicit Types v : Validator T.

(** Cache and store agree on a key, as far as the digester can tell. *)
Definition agree v (now : time) (c : C) (m : gmap string T) (k : string) : Prop :=
  forall x y d d', vc_view c now k = Some x -> m !! k = Some y ->
    v_digest v x = Ok d -> v_digest v y = Ok d' -> d = d'.

(** What a scan of one key guarantees of the state it leaves. *)
Record scanned (now : time) (k : string) v (c : C) (s : S) v' (c' : C) (s' : S) : Prop := {
  sc_ok : vc_ok c';
  sc_store : store_view s' = store_view s;
  sc_digest : v_digest v' = v_digest v;
  sc_mode : v_mode v' = v_mode v;
  sc_others : forall k', k' <> k ->
    vc_view c' now k' = vc_view c now k' \/ vc_view c' now k' = None;
  sc_same : v_mode v <> ModeAutoHeal -> forall k', vc_view c' now k' = vc_view c now k';
  sc_heal : v_mode v = ModeAutoHeal -> (forall er, snd (store_Get Background k s) <> Err er) ->
    agree v now c' (store_view s) k;
}.

(** A scan that leaves what the cache serves. *)
Lemma scanned_same now k v c s v' c' s' :
  vc_ok c' -> store_view s' = store_view s -> v_digest v' = v_digest v -> v_mode v' = v_mode v ->
  (forall k', vc_view c' now k' = vc_view c now k') ->
  (v_mode v = ModeAutoHeal -> (forall er, snd (store_Get Background k s) <> Err er) ->
    agree v now c (store_view s) k) ->
  scanned now k v c s v' c' s'.
Proof.
  intros H1 H2 H3 H4 H5 H6. split; try done; [by left; rewrite H5|].
  intros Hm He x y d d'. rewrite H5. by apply H6.
Qed.

Lemma scan_key_live now k v c s :
  vc_ok c -> 0 < now ->
  let '(v', c', s') := scan_key Background now k v c s in scanned now k v c s v' c' s'.
Proof.
  intros Hc Hn. unfold scan_key.
  change (after 0 Background) with Background. change (after 1 Background) with Background.
  change (after 2 Background) with Background.
  destruct (cache_Get Background now k c) as [c1 r] eqn:Ec.
  destruct (vc_Get_law _ _ _ _ _ _ Hc Hn Ec) as [Hc1 Hl]. destruct (Hl eq_refl) as [-> Hv'].
  destruct (vc_view c now k) as [cv|] eqn:Hr; symmetry in Hr.
  2:{ apply scanned_same; try done. intros _ _ x y d d'. by rewrite <- Hr. }
  destruct (store_Get Background k s) as [s1 rs] eqn:Es.
  destruct (store_Get_law _ _ _ _ _ Es) as [Hs1 Hrs].
  destruct rs as [[sv|]|er].
  2:{ apply scanned_same; try done. intros _ _ x y d d' _. by rewrite <- (Hrs None eq_refl). }
  2:{ apply scanned_same; try done. rewrite Es. intros _ Hne. by destruct (Hne er). }
  specialize (Hrs _ eq_refl).
  destruct (v_digest v cv) as [d1|] eqn:E1; [destruct (v_digest v sv) as [d2|] eqn:E2|].
  2,3: apply scanned_same; try done; intros _ _ x y d d'; rewrite <- Hr, <- Hrs;
    intros [= <-] [= <-]; congruence.
  case_bool_decide as Ed.
  { apply scanned_same; try done. intros _ _ x y d d'. rewrite <- Hr, <- Hrs. intros [= <-] [= <-]. congruence. }
  case_bool_decide as Em; simpl in Em; [|by apply scanned_same].
  destruct (cache_Set Background now k sv 0 c1) as [c2 e2] eqn:Eset.
  destruct (vc_Set_law _ _ _ _ _ _ _ Hc1 Hn Eset) as [Hc2 Hl2]. destruct (Hl2 eq_refl) as [Hk Hot].
  split; try done.
  - intros k' Hne. rewrite <- Hv'. by apply Hot.
  - intros _ _ x y d d' Hx Hy. simpl in Hx. rewrite Hk in Hx. rewrite <- Hrs in Hy. congruence.
Qed.

(** The loop of a scan: the keys in [dn] were scanned before. *)
Lemma scan_keys_live now m ks : forall dn v c s,
  0 < now -> vc_ok c -> store_view s = m ->
  (forall k s', store_view s' = m -> forall er, snd (store_Get Background k s') <> Err er) ->
  (v_mode v = ModeAutoHeal -> forall k, k ∈ dn -> agree v now c m k) ->
  let '(v', c', s') := scan_keys Background now ks v c s in
  vc_ok c' /\ store_view s' = m /\
  (v_mode v = ModeAutoHeal -> forall k, k ∈ dn ++ ks -> agree v now c' m k) /\
  (v_mode v <> ModeAutoHeal -> forall k, vc_view c' now k = vc_view c now k).
Proof.
  induction ks as [|k ks IH]; intros dn v c s Hn Hc Hs Hst Hag; simpl.
  { by rewrite app_nil_r. }
  change (after 0 Background) with Background. change (after 1 Background) with Background.
  pose proof (scan_key_live now k v c s Hc Hn) as F.
  destruct (scan_key Background now k v c s) as [[v' c'] s']. destruct F as [F1 F2 F3 F4 F5 F6 F7].
  specialize (IH (dn ++ [k]) v' c' s' Hn F1 ltac:(congruence) Hst). unfold agree in *.
  rewrite F3, F4 in IH. destruct (scan_keys Background now ks v' c' s') as [[v2 c2] s3].
  destruct IH as (I1&I2&I3&I4).
  { intros Hmode k' Hk' x y d d' Hx Hy. destruct (decide (k' = k)) as [->|Hne].
    - eapply F7; [done|by apply Hst|exact Hx|by rewrite Hs].
    - destruct (F5 k' Hne) as [E|E]; rewrite E in Hx; [|done].
      eapply (Hag Hmode k'); [set_solver|exact Hx|exact Hy]. }
  rewrite <- app_assoc in I3. split_and!; [done|done|exact I3|].
  intros Hmode k'. rewrite I4 by done. by apply F6.
Qed.

(** A healing scan leaves no mismatch: when the store answers, after a scan
    in [ModeAutoHeal] every key of the store that is still cached has the
    store's digest; in the other modes a scan changes nothing the cache
    serves. The store is never written. *)
Theorem scan_heals now v (c : C) (s : S) (ks : list string) :
  vc_ok c -> 0 < now ->
  (forall k s', store_view s' = store_view s -> forall er, snd (store_Get Background k s') <> Err er) ->
  snd (store_Keys Background s) = Ok ks ->
  let '(v', c', s') := scan Background now v c s in
  vc_ok c' /\ store_view s' = store_view s /\
  (v_mode v = ModeAutoHeal -> forall k, agree v now c' (store_view s) k) /\
  (v_mode v <> ModeAutoHeal -> forall k, vc_view c' now k = vc_view c now k).
Proof.
  intros Hc Hn Hst Hks. unfold scan. change (after 0 Background) with Background.
  change (after 1 Background) with Background.
  destruct (store_Keys Background s) as [s1 r] eqn:Ek. simpl in Hks. subst r.
  destruct (store_Keys_law _ _ _ _ Ek) as [Hv1 Hin]. pose proof (fun k => Hin ks k eq_refl) as Hin'.
  pose proof (scan_keys_live now (store_view s) ks [] v c s1 Hn Hc Hv1 Hst ltac:(set_solver)) as Hloop.
  destruct (scan_keys Background now ks v c s1) as [[v' c'] s'].
  destruct Hloop as (I1&I2&I3&I4). split_and!; [done|done| |done].
  intros Hmode k x y d d' Hx Hy. eapply (I3 Hmode k); [|exact Hx|exact Hy]. apply Hin'. by eexists.
Qed.

(** The loop keeps the cache well formed and the configuration, whatever the
    contexts of its ticks. *)
Lemma scan_key_frame cx now k v (c : C) (s : S) :
  vc_ok c -> 0 < now ->
  let '(v', c', _) := scan_key cx now k v c s in
  vc_ok c' /\ v_digest v' = v_digest v /\ v_mode v' = v_mode v.
Proof.
  intros Hc Hn. unfold scan_key. destruct (cache_Get (after 0 cx) now k c) as [c1 r] eqn:Ec.
  destruct (vc_Get_law _ _ _ _ _ _ Hc Hn Ec) as [Hc1 _].
  destruct r as [[cv|]|]; try done. destruct (store_Get (after 1 cx) k s) as [s1 [[sv|]|]]; try done.
  destruct (v_digest v cv); [|done]. destruct (v_digest v sv); [|done].
  case_bool_decide; [done|]. case_bool_decide; [|done].
  destruct (cache_Set (after 2 cx) now k sv 0 c1) as [c2 e2] eqn:Eset.
  split; [|done]. by eapply vc_Set_law.
Qed.

Lemma scan_frame cx now v (c : C) (s : S) :
  vc_ok c -> 0 < now ->
  let '(v', c', _) := scan cx now v c s in
  vc_ok c' /\ v_digest v' = v_digest v /\ v_mode v' = v_mode v.
Proof.
  intros Hc Hn. unfold scan. destruct (store_Keys (after 0 cx) s) as [s1 [ks|]]; [|done].
  generalize (after 1 cx) s1. clear s1. revert v c Hc.
  induction ks as [|k ks IH]; intros v c Hc cx' s1; simpl; [done|]. destruct (cx' 0%nat); [done|].
  pose proof (scan_key_frame (after 0 cx') now k v c s1 Hc Hn) as F.
  destruct (scan_key _ _ _ _ _ _) as [[v1 c1] s2]. destruct F as (F1&F2&F3).
  specialize (IH v1 c1 F1 (after 1 cx') s2).
  destruct (scan_keys _ _ _ _ _ _) as [[v2 c2] s3]. destruct IH as (I1&I2&I3). split_and!; congruence || done.
Qed.

(** The rest of the program leaves the cache well formed. *)
Definition event_ok (ev : @run_event C S) : Prop :=
  match ev with
  | RTick _ now => 0 < now
  | RDone => True
  | ROther f => forall c s, vc_ok c -> vc_ok (fst (f c s))
  end.

Lemma run_loop_app (evs evs' : list (@run_event C S)) v (c : C) (s : S) :
  RDone ∉ evs ->
  run_loop (evs ++ evs') v c s =
    let '(v1, c1, s1) := snd (run_loop evs v c s) in run_loop evs' v1 c1 s1.
Proof.
  revert v c s. induction evs as [|ev evs IH]; intros v c s Hd; simpl; [done|].
  apply not_elem_of_cons in Hd as [Hne Hd]. destruct ev as [cx now| |f]; [|done|].
  - destruct (scan cx now v c s) as [[v1 c1] s1]. by apply IH.
  - destruct (f c s) as [c1 s1]. by apply IH.
Qed.

Lemma run_loop_frame (evs : list (@run_event C S)) v (c : C) (s : S) :
  Forall event_ok evs -> vc_ok c ->
  let '(o, (v', c', _)) := run_loop evs v c s in
  vc_ok c' /\ v_digest v' = v_digest v /\ v_mode v' = v_mode v /\ o <> RunPanicked /\
  (o = RunReturned <-> RDone ∈ evs).
Proof.
  revert v c s. induction evs as [|ev evs IH]; intros v c s Hf Hc; simpl.
  { split_and!; [done..|]. split; [done|by intros ?%elem_of_nil]. }
  apply Forall_cons in Hf as [He Hf]. destruct ev as [cx now| |f].
  - pose proof (scan_frame cx now v c s Hc He) as F. destruct (scan cx now v c s) as [[v1 c1] s1].
    destruct F as (F1&F2&F3). specialize (IH v1 c1 s1 Hf F1).
    destruct (run_loop evs v1 c1 s1) as [o [[v2 c2] s2]]. destruct IH as (I1&I2&I3&I4&I5).
    split_and!; [done|congruence|congruence|done|]. rewrite I5, elem_of_cons. naive_solver.
  - split_and!; [done..|]. split; [intros _; by left|done].
  - pose proof (He c s Hc) as Hc1. destruct (f c s) as [c1 s1]. simpl in Hc1.
    specialize (IH v c1 s1 Hf Hc1).
    destruct (run_loop evs v c1 s1) as [o [[v2 c2] s2]]. destruct IH as (I1&I2&I3&I4&I5).
    split_and!; [done..|]. rewrite I5, elem_of_cons. naive_solver.
Qed.

(** The loop of [Run], whatever the rest of the program does to the cache
    and the store between its ticks: it returns exactly when its context ends,
    never before; and right after each tick of a healing validator on a store
    that answers, no key is cached with a value that differs from the store's,
    as far as the digester can tell, however far they had drifted apart. *)
Theorem Validator_Run_heals (evs : list (@run_event C S)) now v (c : C) (s : S) :
  0 < v_interval v -> vc_ok c -> Forall event_ok evs -> 0 < now ->
  (forall k s' er, snd (store_Get Background k s') <> Err er) ->
  (forall s' er, snd (store_Keys Background s') <> Err er) ->
  (fst (Validator_Run evs v c (Some s)) = RunReturned <-> RDone ∈ evs) /\
  (RDone ∉ evs -> v_mode v = ModeAutoHeal ->
   exists v' c' s', Validator_Run (evs ++ [RTick Background now]) v c (Some s) =
     (RunWaiting, (v', c', Some s')) /\ forall k, agree v now c' (store_view s') k).
Proof.
  intros Hi Hc Hf Hn Hget Hkeys. unfold Validator_Run.
  assert ((v_interval v <=? 0) = false) as -> by (apply Z.leb_gt; lia).
  pose proof (run_loop_frame evs v c s Hf Hc) as F. split.
  { destruct (run_loop evs v c s) as [o [[v1 c1] s1]]. apply F. }
  intros Hd Hm. rewrite run_loop_app by done.
  destruct (run_loop evs v c s) as [o [[v1 c1] s1]]. destruct F as (F1&F2&F3&_). simpl.
  destruct (store_Keys Background s1) as [s0 [ks|er]] eqn:Ek; [|by destruct (Hkeys s1 er); rewrite Ek].
  pose proof (scan_heals now v1 c1 s1 ks F1 Hn) as Hs.
  destruct (scan Background now v1 c1 s1) as [[v2 c2] s2].
  destruct Hs as (S1&S2&S3&_); [by intros; apply Hget|by rewrite Ek|].
  eexists _, _, _. split; [done|]. intros k. rewrite S2. unfold agree. rewrite <- F2. apply S3. congruence.
Qed.

End ValidatorProps.
