(* ===== verification/WarpValidator.v ===== *)
(** * WarpValidator: the validator of a Warp

    Models [Warp.Validator] of [src/core/core.go]: the validator of [Validator]
    over the [validatorCache] adapter and the store of the same Warp. A healing
    write of the adapter takes its TTL from the registration, not from the
    validator, so the adapter is no [LawfulCache]; it is a [ValidatedCache],
    which is all a scan relies on. *)

From S2P Require Import Prelude Merge TTL CacheIface Store SyncBus Registry Warp WarpCache WarpInv Validator.

(** A strategy whose answers are durations. *)
Class BoundedStrategy (St : Type) `{TTLStrategy St} := {
  strategy_ok : St -> Prop;
  strategy_Record_ok : forall t key st, strategy_ok st -> strategy_ok (strategy_Record t key st);
  strategy_TTL_ok : forall t key st, strategy_ok st ->
    strategy_ok (fst (strategy_TTL t key st)) /\ is_i64 (snd (strategy_TTL t key st));
}.

#[export] Instance SlidingWindow_Bounded : BoundedStrategy SlidingWindow.
Proof.
  refine {| strategy_ok := fun s => is_i64 (ColdTTL s) /\ is_i64 (HotTTL s) |}; simpl.
  - by intros t key st.
  - intros t key st [H1 H2]. unfold SlidingWindow_TTL. repeat case_match; simpl; done.
Defined.

Section WarpValidator.
Context {T C S B St : Type}.
Context `{HCa : !Cache C (Value T), HC : !LawfulCache C (Value T)}.
Context `{HSa : !Store S T, HS : !LawfulStore S T, !Bus B, HTa : !TTLStrategy St, HT : !BoundedStrategy St}.
Abbreviation W := (Warp T C S B St).
Implicit Types w : W.

(** [Warp.Validator] *)
Definition Warp_Validator (digest : T -> res string) (mode : VMode) (interval : duration) w : Validator T :=
  NewValidator digest mode interval.

(** Cache and store of the validator belong to one Warp. What the rest of the
    program does to that Warp between two ticks: *)
Definition on_warp (f : W -> W) w (s : S) : W * S :=
  let w := f (set_store w (Some s)) in (w, default s (w_store w)).

Inductive warp_event :=
| WTick (cx : ctx) (now : time)
| WDone
| WOther (f : W -> W).

Definition run_event_of (ev : warp_event) : @run_event W S :=
  match ev with
  | WTick cx now => RTick cx now
  | WDone => RDone
  | WOther f => ROther (on_warp f)
  end.

(** [Run] of the validator of a Warp. *)
Definition Warp_Validator_Run (evs : list warp_event) (v : Validator T) w : run_outcome * (Validator T * W) :=
  let '(o, (v, w, s)) := Validator_Run (run_event_of <$> evs) v w (w_store w) in (o, (v, set_store w s)).

(** ** The adapter *)

(** The TTLs the Warp can give are durations. *)
Record healed_ok w : Prop := {
  ho_warp : warp_ok w;
  ho_ttls : forall l g, reg_heap (w_reg w) !! l = Some g -> is_i64 (rg_ttl g);
  ho_strats : forall i st, w_strats w !! i = Some st -> strategy_ok st;
}.

(** What the adapter shows of the cache. *)
Definition data_view w (now : time) (k : string) : option T := Data <$> wc_view (w_cache w) now k.

Lemma stratRecord_healed g t key w : healed_ok w -> healed_ok (stratRecord g t key w).
Proof.
  intros [H1 H2 H3]. split; [by apply stratRecord_ok|..]; unfold stratRecord; destruct (rg_ttlStrategy g) as [i|];
    simpl; try done.
  intros j st. rewrite lookup_alter_Some. intros [(<- & st0 & Hst & ->)|[_ Hst]]; [|by eapply H3].
  by eapply strategy_Record_ok, H3.
Qed.

Lemma stratTTL_healed g d t key w :
  healed_ok w -> is_i64 d ->
  healed_ok (fst (stratTTL g d t key w)) /\ is_i64 (snd (stratTTL g d t key w)).
Proof.
  intros [H1 H2 H3] Hd. pose proof (stratTTL_ok g d t key w H1) as Hw. unfold stratTTL in *.
  destruct (rg_ttlStrategy g) as [i|]; [|done]. destruct (w_strats w !! i) as [st|] eqn:E; [|done].
  destruct (strategy_TTL_ok t key st (H3 i st E)) as [Hs Hi]. destruct (strategy_TTL t key st) as [st' ttl].
  split; [|done]. split; [done|done|]. intros j st''. simpl. rewrite lookup_insert_Some.
  intros [[_ <-]|[_ Hj]]; [done|by eapply H3].
Qed.

Lemma updateReg_healed l f w :
  (forall g, rg_ttl (f g) = rg_ttl g) -> healed_ok w -> healed_ok (updateReg l f w).
Proof.
  intros Hf [H1 H2 H3]. split; [by apply updateReg_ok| |done]. intros l' g'. simpl.
  rewrite lookup_alter_Some. intros [(<- & g0 & Hg & ->)|[_ Hg]]; [rewrite Hf|]; by eapply H2.
Qed.

(** The state a healing write leaves before it reaches the cache. *)
Definition heal_prepare (now : time) (key : string) w : W * duration :=
  match lookupReg key w with
  | None => (w, 0)
  | Some (l, g) =>
      let w := stratRecord g now key w in
      let '(w, ttl) := stratTTL g (rg_ttl g) now key w in
      (updateReg l (set_access ttl now) w, ttl)
  end.

Lemma lookupReg_heap key w l g : lookupReg key w = Some (l, g) -> reg_heap (w_reg w) !! l = Some g.
Proof.
  unfold lookupReg. destruct (getReg key (w_reg w)) as [l'|]; [|done]. simpl.
  destruct (reg_heap (w_reg w) !! l') eqn:E; simpl; [|done]. by intros [= -> ->].
Qed.

Lemma heal_prepare_ok now key w :
  healed_ok w ->
  healed_ok (fst (heal_prepare now key w)) /\ w_cache (fst (heal_prepare now key w)) = w_cache w /\
  is_i64 (snd (heal_prepare now key w)).
Proof.
  intros Hh. unfold heal_prepare. destruct (lookupReg key w) as [[l g]|] eqn:E; [|by split_and!].
  apply lookupReg_heap in E. pose proof (stratRecord_healed g now key w Hh) as H1.
  destruct (stratRecord_frame g now key w) as [st1 E1]. rewrite E1 in *.
  destruct (stratTTL_healed g (rg_ttl g) now key _ H1 (ho_ttls _ Hh l g E)) as [H2 H3].
  destruct (stratTTL_frame g (rg_ttl g) now key (set_strats w st1)) as (st2 & ttl & E2). rewrite E2 in *.
  simpl in *. split_and!; [by apply updateReg_healed|done|done].
Qed.

Lemma validatorCache_Set_eq cx now key value ttl w :
  validatorCache_Set cx now key value ttl w =
    let '(w, ttl) := heal_prepare now key w in cacheSet cx now key (value_of value now) ttl w.
Proof. done. Qed.

#[export] Instance validatorCache_Validated : ValidatedCache W T.
Proof.
  refine {| vc_ok := healed_ok; vc_view := data_view |}.
  - intros cx now k w w' r Hh Hn. pose proof Hh as [Hw Ht Hst]. simpl. unfold validatorCache_Get.
    pose proof (cacheGet_ok cx now k w Hw Hn) as Hok. destruct (cacheGet cx now k w) as [w1 r1] eqn:E.
    intros [= <- <-]. split.
    + unfold cacheGet in E. destruct (WCache_Get cx now k (w_cache w)). by injection E as <- <-.
    + intros ->. destruct (cacheGet_live now k w Hw Hn) as (c & E' & _ & Hv). rewrite E' in E. injection E as <- <-.
      split; [done|]. intros k'. unfold data_view. simpl. by rewrite Hv by lia.
  - intros cx now k v w w' r Hh Hn. change (cache_Set cx now k v 0 w) with (validatorCache_Set cx now k v 0 w).
    rewrite validatorCache_Set_eq. destruct (heal_prepare_ok now k w Hh) as ([Hw1 Ht1 Hst1] & Ec & Hi).
    destruct (heal_prepare now k w) as [w1 ttl]. simpl in *. intros E. split.
    + pose proof (cacheSet_ok cx now k (value_of v now) ttl w1 Hw1 Hn Hi) as Hok. rewrite E in Hok.
      unfold cacheSet in E. destruct (WCache_Set _ _ _ _ _ _). by injection E as <- <-.
    + intros ->. destruct (cacheSet_live now k (value_of v now) ttl w1 Hw1 Hn Hi) as (c & E' & _ & Hv1 & Hv2).
      rewrite E' in E. injection E as <- <-. unfold data_view. simpl. rewrite <- Ec. split.
      * rewrite Hv1 by lia. rewrite decide_True; [done|]. unfold expiry. case_match eqn:El; simpl; [|done].
        apply Z.ltb_lt in El. lia.
      * intros k' Hne. destruct (Hv2 now k' Hne) as [-> | ->]; [lia|by left|by right].
Defined.

(** ** A Warp heals *)

(** The rest of the program keeps the Warp well formed, as its operations do. *)
Definition warp_event_ok (ev : warp_event) : Prop :=
  match ev with
  | WTick _ now => 0 < now
  | WDone => True
  | WOther f => forall w, healed_ok w -> healed_ok (f w)
  end.

Lemma set_store_healed w s : healed_ok w -> healed_ok (set_store w s).
Proof. intros [H1 H2 H3]. split; [by eapply warp_ok_ext; [..|exact H1]|done|done]. Qed.

Lemma run_events_ok evs : Forall warp_event_ok evs -> Forall event_ok (run_event_of <$> evs).
Proof.
  intros H. apply Forall_fmap. eapply Forall_impl; [exact H|]. intros [cx now| |f]; simpl; [done|done|].
  intros Hf w s Hw. by apply Hf, set_store_healed.
Qed.

Lemma WDone_events (evs : list warp_event) : RDone ∈ run_event_of <$> evs <-> WDone ∈ evs.
Proof.
  rewrite list_elem_of_fmap. split.
  - intros ([cx now| |f] & E & Hin); done.
  - intros Hin. by exists WDone.
Qed.

(** C21. The validator of a Warp heals that Warp. Whatever else is done to the
    Warp between the ticks of its validator, as long as it stays well formed:
    [Run] returns exactly when its context ends; and right after each tick of a
    healing validator, when the store answers, no key is cached with data that
    differ from the data in the store of the same Warp, as far as the digester
    can tell, although the healing writes take their TTLs from the
    registrations and their strategies. *)
Theorem Warp_Validator_heals digest interval evs now w s :
  w_store w = Some s -> 0 < interval -> healed_ok w -> Forall warp_event_ok evs -> 0 < now ->
  (forall k s' er, snd (store_Get Background k s') <> Err er) ->
  (forall s' er, snd (store_Keys Background s') <> Err er) ->
  let v := Warp_Validator digest ModeAutoHeal interval w in
  (fst (Warp_Validator_Run evs v w) = RunReturned <-> WDone ∈ evs) /\
  (WDone ∉ evs ->
   exists v' w', Warp_Validator_Run (evs ++ [WTick Background now]) v w = (RunWaiting, (v', w')) /\
     forall k x y d d', data_view w' now k = Some x -> w_stored w' !! k = Some y ->
       digest x = Ok d -> digest y = Ok d' -> d = d').
Proof.
  intros Es Hi Hw Hf Hn Hget Hkeys v. unfold Warp_Validator_Run. rewrite Es, fmap_app.
  destruct (Validator_Run_heals (HC := validatorCache_Validated) (run_event_of <$> evs) now v w s Hi Hw (run_events_ok evs Hf) Hn Hget Hkeys)
    as [Hret Hheal].
  rewrite WDone_events in Hret. split.
  - destruct (Validator_Run _ v w (Some s)) as [o [[v' w'] s']]. exact Hret.
  - intros Hd. destruct Hheal as (v' & w' & s' & E & Ha); [by rewrite WDone_events|done|].
    change (run_event_of <$> [WTick Background now]) with [@RTick W S Background now]. rewrite E.
    eexists _, _. split; [done|]. unfold w_stored, data_view. simpl. exact Ha.
Qed.

End WarpValidator.
