(* ===== verification/WarpDemo.v ===== *)
(** * WarpDemo: the theorems about [Warp] at concrete instances

    A Warp of strings over the in-memory cache, store and bus and the
    sliding-window strategy; each witness applies a theorem of the library to
    it and discharges its hypotheses by evaluation. *)

From S2P Require Import Prelude Merge TTL CacheIface InMemoryCache Store SyncBus Registry Warp WarpCache WarpInv WarpProps Propagation Txn TxnProps Lease Validator WarpValidator.

#[export] Instance value_dynamic {T} : Dynamic (Value T) := fun _ => GoOther 56.

Definition demoWarp : Type :=
  Warp string (InMemoryCache (Value string)) (InMemoryStore string) (InMemoryBus (gmap string))
    SlidingWindow.

Definition dcache : InMemoryCache (Value string) := NewInMemory [WithSweepInterval 0].
Definition dstore : InMemoryStore string := mkStore {["a" := "stored"; "b" := "other"]}.
Definition dbus : InMemoryBus (gmap string) := NewInMemoryBus.

Lemma dcache_ok : cache_ok dcache.
Proof.
  split; [|by vm_compute]. apply NewInMemory_inv. intros o c Ho.
  apply list_elem_of_singleton in Ho as ->. done.
Qed.

(** Keys "a" (local, with a grace period), "e" and "s" (distributed), "d"
    (dynamic TTL). *)
Definition dw_new : demoWarp := New dcache (Some dstore) (Some dbus) None ∅ [].
Definition dw_a : demoWarp := fst (Warp_Register "a" ModeStrongLocal 100 [WithFailSafe 50] dw_new).
Definition dw : demoWarp := fst (Warp_Register "s" ModeStrongDistributed 100 [] dw_a).

Lemma dw_new_ok : warp_ok dw_new.
Proof. apply New_ok; [apply dcache_ok|]. intros o Ho. by apply elem_of_nil in Ho. Qed.
Lemma dw_ok : warp_ok dw.
Proof. do 2 apply Warp_Register_ok. apply dw_new_ok. Qed.

(** A call whose state is named and whose answer is evaluated. *)
Lemma answer_eq {A B} (p : A * B) (b : B) : snd p = b -> p = (fst p, b).
Proof. intros <-. by destruct p. Qed.

Definition de (t : time) : env string := mkEnv t t None false.

Lemma de_ok t : 0 < t -> env_ok (de t).
Proof. by split. Qed.

Definition reg_a : registration :=
  mkReg 100 None (apply_TTLOptions [WithFailSafe 50]) ModeStrongLocal 100 0 1.

Lemma Warp_reachable_ok_witness : warp_ok dw_a.
Proof.
  apply (Warp_reachable_ok dcache (Some dstore) (Some dbus) None ∅ []).
  - apply dcache_ok.
  - intros o Ho. by apply elem_of_nil in Ho.
  - eapply rtc_l; [apply (ws_register "a" ModeStrongLocal 100 [WithFailSafe 50])|]. apply rtc_refl.
Defined.

Lemma Warp_Get_answers_witness :
  snd (Warp_Get Background (de 10) "a" dw) = Ok "stored" /\
  snd (Warp_Get Background (de 10) "zz" dw) = Err ErrUnregistered.
Proof.
  split.
  - rewrite (Warp_Get_answers (de 10) "a" dw dw_ok (de_ok 10 ltac:(lia))). vm_compute. reflexivity.
  - rewrite (Warp_Get_answers (de 10) "zz" dw dw_ok (de_ok 10 ltac:(lia))). vm_compute. reflexivity.
Defined.

(** The Warp after a write of "a" at instant 10. *)
Definition dw_set : demoWarp := fst (Warp_Set Background (de 10) "a" "new" dw).
Lemma dw_set_ok : warp_ok dw_set.
Proof. apply Warp_Set_ok; [apply dw_ok|by apply de_ok]. Qed.

Lemma Warp_Get_fills_witness :
  let '(w1, r1) := Warp_Get Background (de 10) "a" dw in
  r1 = Ok "stored" /\ exists ttl, reg_view (w_reg w1) "a" = Some (set_access ttl 10 reg_a).
Proof.
  pose proof (Warp_Get_fills (de 10) (de 20) "a" dw reg_a "stored" dw_ok (de_ok 10 ltac:(lia))
    (de_ok 20 ltac:(lia)) eq_refl ltac:(vm_compute; reflexivity) ltac:(vm_compute; reflexivity)
    ltac:(vm_compute; reflexivity)) as H.
  destruct (Warp_Get Background (de 10) "a" dw) as [w1 r1]. destruct H as (E&ttl&_&Hr&_).
  split; [exact E|]. exists ttl. exact Hr.
Defined.

Lemma Warp_Set_correct_witness :
  w_stored dw_set = {["a" := "new"; "b" := "other"]} /\
  exists ttl, reg_view (w_reg dw_set) "a" = Some (set_access ttl 10 reg_a).
Proof.
  destruct (Warp_Set_correct (de 10) (de 20) "a" "new" dw dw_set reg_a) as (Hs&ttl&_&Hr&_).
  - apply dw_ok.
  - apply de_ok. lia.
  - apply de_ok. lia.
  - vm_compute. reflexivity.
  - unfold dw_set. apply answer_eq. vm_compute. reflexivity.
  - split; [rewrite Hs; vm_compute; reflexivity|]. exists ttl. exact Hr.
Defined.

Lemma Warp_strong_all_or_nothing_witness :
  snd (Warp_Set Background (de 10) "s" "v" dw) <> None.
Proof.
  pose proof (Warp_strong_all_or_nothing (de 10) "s" "v" dw
    (mkReg 100 None (apply_TTLOptions []) ModeStrongDistributed 100 0 1) dw_ok (de_ok 10 ltac:(lia))
    ltac:(vm_compute; reflexivity) eq_refl) as H.
  destruct (Warp_Set Background (de 10) "s" "v" dw) as [w1 r1].
  destruct (Warp_Invalidate Background "s" dw) as [w2 r2].
  apply H. intros b Hb. assert (w_bus dw = Some dbus) as E by (vm_compute; reflexivity).
  rewrite E in Hb. injection Hb as <-. split; [reflexivity|]. vm_compute. discriminate.
Defined.

Lemma Warp_Invalidate_correct_witness :
  snd (Warp_Get Background (de 20) "a" (fst (Warp_Invalidate Background "a" dw_set))) = Ok "new".
Proof.
  destruct (Warp_Invalidate_correct (de 20) "a" dw_set (fst (Warp_Invalidate Background "a" dw_set)))
    as (_&_&_&E).
  - apply dw_set_ok.
  - apply de_ok. lia.
  - apply answer_eq. vm_compute. reflexivity.
  - rewrite E. vm_compute. reflexivity.
Defined.

Lemma Warp_GetOrSet_correct_witness :
  let '(w', r) := Warp_GetOrSet Background (de 10) "fresh" (fun _ => Ok "loaded") dw in
  r = Ok "loaded" /\ w_stored w' = <["fresh" := "loaded"]> (w_stored dw).
Proof.
  pose proof (Warp_GetOrSet_correct (de 10) "fresh" (fun _ => Ok "loaded") dw
    dw_ok (de_ok 10 ltac:(lia))) as H. cbn zeta in H.
  assert (cached dw (t0 (de 10)) "fresh" = None) as Hc by (vm_compute; reflexivity).
  assert (default default_registration (reg_view (w_reg dw) "fresh") = default_registration) as Hg
    by (vm_compute; reflexivity).
  destruct (Warp_GetOrSet Background (de 10) "fresh" (fun _ => Ok "loaded") dw) as [w' r].
  rewrite Hc, Hg in H. destruct H as (H1 & _ & H2). split; [exact H1|].
  destruct (H2 eq_refl eq_refl) as [_ H3].
  apply (H3 "loaded" eq_refl eq_refl ltac:(vm_compute; reflexivity) ltac:(intros; reflexivity) ltac:(simpl; lia) Hc).
  vm_compute. reflexivity.
Defined.

(** "d": a dynamic TTL alone, on a Warp without a store. *)
Definition dw_dyn : demoWarp :=
  fst (Warp_Set Background (de 10) "d" "v"
    (fst (Warp_Register "d" ModeStrongLocal 100 [WithDynamicTTL 5 10 10 1 1000]
      (New dcache None None None ∅ [])))).

Lemma dw_dyn_ok : warp_ok dw_dyn.
Proof.
  apply Warp_Set_ok; [|by apply de_ok]. apply Warp_Register_ok, New_ok; [apply dcache_ok|].
  intros o Ho. by apply elem_of_nil in Ho.
Qed.

Lemma Warp_Get_hot_path_keeps_ttl_witness :
  w_reg (fst (Warp_Get Background (de 12) "d" dw_dyn)) = w_reg dw_dyn.
Proof.
  pose proof (Warp_Get_hot_path_keeps_ttl (de 12) "d" dw_dyn 5 10 10 1 1000 100 ModeStrongLocal 10 1
    (value_of "v" 10) dw_dyn_ok (de_ok 12 ltac:(lia)) eq_refl eq_refl ltac:(vm_compute; reflexivity)
    ltac:(vm_compute; reflexivity)) as H.
  destruct (Warp_Get Background (de 12) "d" dw_dyn) as [w' r]. exact (proj1 (proj2 H)).
Defined.

Lemma Warp_Warmup_correct_witness :
  exists w', Warp_Warmup Background 10 ["a"; "s"] dw = Some w' /\ w_stored w' = w_stored dw.
Proof.
  destruct (Warp_Warmup_correct 10 ["a"; "s"] dw dw_ok ltac:(lia)) as (w'&E&_&Hs&_).
  - intros k Hk. apply elem_of_cons in Hk as [->|Hk]; [vm_compute; eauto|].
    apply list_elem_of_singleton in Hk as ->. vm_compute. eauto.
  - exists w'. exact (conj E Hs).
Defined.

Lemma Warp_Warmup_unregistered_witness :
  Warp_Warmup Background 10 ["a"] (Warp_Unregister "a" dw) = None.
Proof.
  apply (Warp_Warmup_unregistered 10 "a" [] "stored" (Warp_Unregister "a" dw)).
  - apply (warp_step_ok dw); [constructor|apply dw_ok].
  - vm_compute. reflexivity.
  - vm_compute. reflexivity.
Defined.

(** ** Two nodes on one bus *)

(** A node without a store that listens to "e", as [Register] starts it. *)
Definition dn : demoWarp :=
  run_next Background (de 5)
    (fst (Warp_Register "e" ModeEventualDistributed 100 []
      (New dcache None (Some dbus) None ∅ []))).

Lemma dn_ok : warp_ok dn.
Proof.
  apply run_next_ok; [|by apply de_ok]. apply Warp_Register_ok, New_ok; [apply dcache_ok|].
  intros o Ho. by apply elem_of_nil in Ho.
Qed.

Definition dn_bus : InMemoryBus (gmap string) := fst (InMemoryBus_Subscribe Background "e" dbus).
Lemma dn_bus_inv : bus_inv dn_bus.
Proof. apply Subscribe_inv, NewInMemoryBus_inv. Qed.

Definition reg_e : registration := mkReg 100 None (apply_TTLOptions []) ModeEventualDistributed 100 0 1.
Definition dn_set : demoWarp := fst (Warp_Set Background (de 10) "e" "v" dn).

(** A second node, with a store of its own, that listens to "e" on the same bus
    and has cached its stored value. *)
Definition dm : demoWarp :=
  fst (Warp_Get Background (de 6) "e"
    (run_next Background (de 5)
      (fst (Warp_Register "e" ModeEventualDistributed 100 []
        (New dcache (Some (mkStore {["e" := "old"]})) (w_bus dn) None ∅ []))))).
(** The first node once the second listens too. *)
Definition dn2 : demoWarp := set_bus dn (w_bus dm).
Definition dn2_set : demoWarp := fst (Warp_Set Background (de 10) "e" "v" dn2).
Definition dm_bus : InMemoryBus (gmap string) := fst (InMemoryBus_Subscribe Background "e" dn_bus).

Lemma dm_ok : warp_ok dm.
Proof.
  apply Warp_Get_ok; [|by apply de_ok]. apply run_next_ok; [|by apply de_ok].
  apply Warp_Register_ok, New_ok; [apply dcache_ok|]. intros o Ho. by apply elem_of_nil in Ho.
Qed.
Lemma dm_bus_inv : bus_inv dm_bus.
Proof. apply Subscribe_inv, dn_bus_inv. Qed.

Lemma eventual_Set_invalidates_peers_witness :
  cached dm 12 "e" = Some (value_of "old" 6) /\
  cached (listener_turn 1%nat (set_bus dm (w_bus (run_next Background (de 11) dn2_set)))) 12 "e" = None.
Proof.
  split; [vm_compute; reflexivity|].
  destruct (eventual_Set_invalidates_peers (de 10) (de 11) "e" "v" dn2 dn2_set dm reg_e dm_bus 1%nat)
    as [H _].
  - apply set_bus_ok, dn_ok.
  - apply dm_ok.
  - apply de_ok. lia.
  - vm_compute. reflexivity.
  - vm_compute. reflexivity.
  - vm_compute. reflexivity.
  - vm_compute. reflexivity.
  - apply dm_bus_inv.
  - vm_compute. reflexivity.
  - decide_closed.
  - unfold dn2_set. apply answer_eq. vm_compute. reflexivity.
  - exact (H 12).
Defined.

Lemma eventual_Set_self_invalidates_witness :
  snd (Warp_Set Background (de 10) "e" "v" dn) = None /\
  snd (Warp_Get Background (de 12) "e" (listener_turn 0%nat (run_next Background (de 11) dn_set))) =
    Err ErrNotFound.
Proof.
  split; [vm_compute; reflexivity|].
  apply (eventual_Set_self_invalidates (de 10) (de 11) (de 12) "e" "v" dn dn_set reg_e dn_bus 0%nat).
  - apply dn_ok.
  - apply de_ok. lia.
  - apply de_ok. lia.
  - apply de_ok. lia.
  - vm_compute. reflexivity.
  - vm_compute. reflexivity.
  - vm_compute. reflexivity.
  - vm_compute. reflexivity.
  - vm_compute. reflexivity.
  - apply dn_bus_inv.
  - vm_compute. reflexivity.
  - decide_closed.
  - unfold dn_set. apply answer_eq. vm_compute. reflexivity.
Defined.

(** ** Transactions *)

(** "a" and "b" in local mode. *)
Definition dt : demoWarp := fst (Warp_Register "b" ModeStrongLocal 100 [] dw).
Lemma dt_ok : warp_ok dt.
Proof. apply Warp_Register_ok, dw_ok. Qed.

Definition str_eq (x y : string) : bool := bool_decide (x = y).

Lemma dt_local k : k = "a" \/ k = "b" -> local_key dt k /\ plain_key 10 dt k.
Proof.
  intros [->| ->]; (split; [eexists; split; [vm_compute; reflexivity|reflexivity]|]);
    (split; [vm_compute; reflexivity|]); (split; [reflexivity|]); intros v;
    by vm_compute.
Qed.

Definition dtx : Txn string := Txn_Delete "b" (Txn_Set "a" "new" NewTxn).

Lemma Txn_Commit_applies_witness :
  snd (Txn_Commit str_eq Background (de 10) dtx ["a"] ["b"] dt) = None /\
  w_stored (fst (Txn_Commit str_eq Background (de 10) dtx ["a"] ["b"] dt)) !! "b" = None /\
  w_stored (fst (Txn_Commit str_eq Background (de 10) dtx ["a"] ["b"] dt)) !! "a" = Some "new".
Proof.
  pose proof (Txn_Commit_applies str_eq (de 10) dtx ["a"] ["b"] dt dstore dt_ok (de_ok 10 ltac:(lia))
    eq_refl ltac:(vm_compute; reflexivity)) as H.
  destruct (Txn_Commit str_eq Background (de 10) dtx ["a"] ["b"] dt) as [w' r]. cbn [fst snd].
  destruct H as (E&Hs).
  - split; intros k; unfold dtx; simpl.
    + intros [v Hv]. rewrite lookup_delete_ne in Hv; [|intros <-; by rewrite lookup_delete_eq in Hv].
      destruct (decide (k = "a")) as [->|Hne]; [set_solver|].
      by rewrite lookup_insert_ne, lookup_empty in Hv.
    + rewrite !delete_empty, lookup_empty. by intros [? ?].
  - vm_compute. reflexivity.
  - apply NoDup_singleton.
  - intros k. rewrite list_elem_of_singleton. unfold dtx. simpl. split.
    + intros ->. by eexists.
    + intros [v Hv]. destruct (decide (k = "a")) as [->|Hne]; [done|].
      destruct (decide ("b" = k)) as [<-|Hne']; [by rewrite lookup_delete_eq in Hv|].
      by rewrite lookup_delete_ne, lookup_insert_ne, lookup_empty in Hv.
  - intros k. rewrite list_elem_of_singleton. unfold dtx. simpl. set_solver.
  - intros k Hk. apply (fun H => proj1 (dt_local k H)). destruct (decide (k = "a")) as [->|Ha]; [by left|].
    destruct (decide (k = "b")) as [->|Hb]; [by right|]. exfalso. revert Hk. unfold txn_plan, dtx. simpl.
    rewrite lookup_delete_ne, lookup_insert_ne, lookup_empty, decide_False by set_solver.
    by intros [? ?].
  - split; [exact E|]. split; [exact (proj1 (Hs "b"))|].
    destruct (Hs "a") as (nv&_&Hp&Ha&_). rewrite Ha, Hp; [reflexivity|]. exact (proj2 (dt_local "a" (or_introl eq_refl))).
Defined.

(** "a" holds "x" since instant 5. *)
Definition dt_x : demoWarp := fst (Warp_Set Background (de 5) "a" "x" dt).
Lemma dt_x_ok : warp_ok dt_x.
Proof. apply Warp_Set_ok; [apply dt_ok|by apply de_ok]. Qed.

Lemma Txn_CompareAndSwap_correct_witness :
  snd (Txn_Commit str_eq Background (de 10) (Txn_CompareAndSwap "a" "z" "y" NewTxn) ["a"] [] dt_x) =
    Some ErrCASMismatch /\
  let '(w', r) := Txn_Commit str_eq Background (de 10) (Txn_CompareAndSwap "a" "x" "y" NewTxn) ["a"] [] dt_x in
  r = None /\ w_stored w' = <["a" := "y"]> (w_stored dt_x).
Proof.
  assert (local_key dt_x "a") as Hl by (eexists; split; [vm_compute; reflexivity|reflexivity]).
  assert (cached dt_x (t0 (de 10)) "a" = Some (value_of "x" 5)) as Hc by (vm_compute; reflexivity).
  pose proof (fun old => Txn_CompareAndSwap_correct str_eq (de 10) "a" old "y" dt_x
    (default dstore (w_store dt_x)) dt_x_ok (de_ok 10 ltac:(lia)) eq_refl ltac:(vm_compute; reflexivity) Hl) as H.
  rewrite Hc in H. split.
  - specialize (H "z"). destruct (Txn_Commit str_eq Background (de 10) (Txn_CompareAndSwap "a" "z" "y" NewTxn)
      ["a"] [] dt_x) as [w' r]. exact (proj1 H).
  - specialize (H "x"). destruct (Txn_Commit str_eq Background (de 10) (Txn_CompareAndSwap "a" "x" "y" NewTxn)
      ["a"] [] dt_x) as [w' r]. exact (conj (proj1 H) (proj1 (proj2 H))).
Defined.

Lemma Txn_Commit_not_atomic_witness :
  exists w', Txn_Commit str_eq Background (de 10)
    (Txn_Set "zz" "y" (Txn_Set "a" "x" NewTxn)) ["a"; "zz"] [] dt = (w', Some ErrUnregistered) /\
    w_stored w' = w_stored dt.
Proof.
  pose proof (Txn_Commit_not_atomic str_eq (de 10) "a" "zz" "x" "y" dt dstore dt_ok
    (de_ok 10 ltac:(lia)) eq_refl ltac:(vm_compute; reflexivity)
    (proj1 (dt_local "a" (or_introl eq_refl))) (proj2 (dt_local "a" (or_introl eq_refl)))
    ltac:(vm_compute; reflexivity)) as H. cbn zeta in H.
  destruct (Txn_Commit str_eq Background (de 10) (Txn_Set "zz" "y" (Txn_Set "a" "x" NewTxn))
    ["a"; "zz"] [] dt) as [w' r]. destruct H as (->&Hs&_). exists w'. exact (conj eq_refl Hs).
Defined.

Lemma Txn_Commit_records_physical_ttl_witness :
  rg_currentTTL <$> reg_view (w_reg (fst (Txn_Commit str_eq Background (de 10)
    (Txn_Set "a" "x" NewTxn) ["a"] [] dt))) "a" = Some 150.
Proof.
  destruct (Txn_Commit_records_physical_ttl str_eq (de 10) "a" "x" dt dstore reg_a) as [E _].
  - apply dt_ok.
  - apply de_ok. lia.
  - reflexivity.
  - vm_compute. reflexivity.
  - vm_compute. reflexivity.
  - reflexivity.
  - reflexivity.
  - exact (proj2 (dt_local "a" (or_introl eq_refl))).
  - rewrite E. vm_compute. reflexivity.
Defined.

(** ** Leases *)

Lemma elements_enumerates : enumerates elements.
Proof. intros s k. apply elem_of_elements. Qed.

Lemma revoke_correct_witness : cached (Revoke Background "L" elements (Attach "L" "a" dw_set)) 20 "a" = None.
Proof.
  destruct (revoke_correct "L" true elements (Attach "L" "a" dw_set)) as (_&_&H&_).
  - unfold Attach. destruct (w_leases dw_set !! "L"); [by eapply warp_ok_ext; [..|exact dw_set_ok]|].
    destruct (subscribe_lease_ok Background "L" dw_set dw_set_ok) as (w1&sub&->&H1&_).
    by eapply warp_ok_ext; [..|exact H1].
  - exact elements_enumerates.
  - apply H. vm_compute. reflexivity.
Defined.

Lemma Grant_Attach_Revoke_witness :
  snd (Grant Background (Ok "L") 60 dw_set) = Ok "L".
Proof.
  pose proof (Grant_Attach_Revoke Background "L" 60 ["a"; "b"] elements dw_set dw_set_ok
    elements_enumerates ltac:(vm_compute; reflexivity)) as H.
  destruct (Grant Background (Ok "L") 60 dw_set) as [w1 r]. destruct H as [_ H].
  exact (proj1 (H ltac:(lia))).
Defined.

(** ** Validator *)

Definition vcache : InMemoryCache string :=
  fst (InMemoryCache_Set Background 5 "a" "drifted" 0 (NewInMemory [WithSweepInterval 0])).

Lemma vcache_ok : cache_ok vcache.
Proof.
  split; [|by vm_compute]. apply Set_inv, NewInMemory_inv. intros o c Ho.
  apply list_elem_of_singleton in Ho as ->. done.
Qed.

Lemma scan_heals_witness :
  let v := NewValidator (fun x => Ok x) ModeAutoHeal 10 in
  let '(v', c', _) := scan Background 10 v vcache dstore in
  agree v 10 c' (store_view dstore) "a".
Proof.
  cbn zeta.
  pose proof (scan_heals 10 (NewValidator (fun x => Ok x) ModeAutoHeal 10) vcache dstore ["a"; "b"]
    vcache_ok ltac:(lia)) as H.
  destruct (scan Background 10 _ vcache dstore) as [[v' c'] s'].
  destruct H as (_&_&H&_).
  - intros k s2 _ er. simpl. unfold InMemoryStore_Get. by case_match.
  - vm_compute. reflexivity.
  - exact (H eq_refl "a").
Defined.

(** Between the ticks another node overwrites the store. *)
Lemma Validator_Run_heals_witness :
  exists v' c' s',
    Validator_Run ([RTick Background 7; ROther (fun c s => (c, fst (InMemoryStore_Set Background "a" "newer" s)))] ++
      [RTick Background 10]) (NewValidator (fun x => Ok x) ModeAutoHeal 10) vcache (Some dstore) =
    (RunWaiting, (v', c', Some s')) /\
    forall k, agree (NewValidator (fun x => Ok x) ModeAutoHeal 10) 10 c' (store_view s') k.
Proof.
  apply (Validator_Run_heals [RTick Background 7;
    ROther (fun c s => (c, fst (InMemoryStore_Set Background "a" "newer" s)))] 10
    (NewValidator (fun x => Ok x) ModeAutoHeal 10) vcache dstore).
  - simpl. lia.
  - apply vcache_ok.
  - apply Forall_cons; split; [simpl; lia|]. apply Forall_cons; split; [|apply Forall_nil; done].
    intros c s Hc. exact Hc.
  - lia.
  - intros k s2 er. simpl. unfold InMemoryStore_Get. by case_match.
  - intros s2 er. simpl. done.
  - rewrite !elem_of_cons, elem_of_nil. naive_solver.
  - reflexivity.
Defined.

(** The Warp has "new" cached for "a" when another node stores "newer". *)
Lemma dw_set_healed : healed_ok dw_set.
Proof.
  split; [apply dw_set_ok| |].
  - apply (bool_decide_eq_true_1 (map_Forall (fun _ g => - 2 ^ 63 <= rg_ttl g < 2 ^ 63) (reg_heap (w_reg dw_set)))).
    vm_compute. reflexivity.
  - intros i st Hi. assert (w_strats dw_set = ∅) as E by (vm_compute; reflexivity). by rewrite E in Hi.
Qed.

Lemma Warp_Validator_heals_witness :
  exists v' w', Warp_Validator_Run ([WOther (fun w : demoWarp => set_store w (Some (mkStore {["a" := "newer"]})))]
      ++ [WTick Background 20]) (Warp_Validator (fun x => Ok x) ModeAutoHeal 10 dw_set) dw_set =
    (RunWaiting, (v', w')) /\
    forall k x y d d', data_view w' 20 k = Some x -> w_stored w' !! k = Some y ->
      Ok (A := string) x = Ok d -> Ok (A := string) y = Ok d' -> d = d'.
Proof.
  apply (Warp_Validator_heals (fun x => Ok x) 10
    [WOther (fun w : demoWarp => set_store w (Some (mkStore {["a" := "newer"]})))] 20 dw_set
    (mkStore {["a" := "new"; "b" := "other"]})).
  - vm_compute. reflexivity.
  - lia.
  - apply dw_set_healed.
  - apply Forall_singleton. intros w Hw. by apply set_store_healed.
  - lia.
  - intros k s2 er. simpl. unfold InMemoryStore_Get. by case_match.
  - intros s2 er. simpl. done.
  - rewrite list_elem_of_singleton. discriminate.
Defined.
