(* ===== verification/Proxy.v ===== *)
(** * Proxy: a Warp behind the Redis protocol

    Models [src/cmd/warp-proxy/main.go]: the Warp [main] builds (a bounded
    in-memory cache, the in-memory bus, no store), the two connection
    callbacks with their gauge, and [handler], every command of it. The server
    library (redcon) parses the commands and writes the replies: a command is
    the list of its arguments, a reply the list of the calls [handler] makes on
    the connection. The two instants of a command are those of its first and
    its second call of the Warp.

    The theorems: one command on a proxy in use ([handler_get],
    [handler_set]), and a whole session against the map a client has in mind
    ([proxy_session]). *)

From S2P Require Import Prelude Bytes Utf8 Merge TTL CacheIface InMemoryCache Store SyncBus Registry Warp WarpCache WarpInv WarpProps WarpDemo.

(** ** [strings.ToUpper], as far as a comparison with an ASCII word sees it

    The runes whose upper case is an ASCII letter, by the tables of [unicode]:
    the ASCII ones, the dotless i and the long s. Every other rune has an upper
    case outside ASCII and stands for itself: the result equals an ASCII word
    exactly when that of [strings.ToUpper] does. *)
Definition unicode_ToUpper (r : Z) : Z :=
  if between 97 122 r then r - 32
  else if r =? 0x131 then 73
  else if r =? 0x17F then 83
  else r.

Definition ToUpper (s : string) : string :=
  bytes_string (flat_map (fun r => encode_rune (unicode_ToUpper r)) (runes s)).

(** ** The connection *)

Inductive conn_call :=
| WriteNull
| WriteBulk (b : bytes)
| WriteBulkString (s : string)
| WriteString (s : string)
| WriteError (msg : string)
| CloseConn.

Definition crlf : string := bytes_string [Byte.x0d; Byte.x0a].

Definition info_text : string :=
  "# Server" +:+ crlf +:+ "redis_version:6.0.0" +:+ crlf +:+ "warp_version:1.0.0" +:+ crlf.

Section Proxy.
Context {C St : Type} {S : Type} {B : Type}.
Context `{HCa : !Cache C (Value bytes), HC : !LawfulCache C (Value bytes)}.
Context `{HSa : !Store S bytes, HS : !LawfulStore S bytes, !Bus B, !TTLStrategy St}.
Abbreviation W := (Warp bytes C S B St).

(** [err.Error()] *)
Variable error_text : error -> string.

(** The server, with the two metrics the package declares. *)
Record server := mkServer {
  sv_warp : W;
  opsProcessed : Z;
  activeConns : Z;
}.
Implicit Types s : server.

(** [core.New] of [main], for the cache and the bus it creates. *)
Definition proxy_new (c : C) (bus : B) : server := mkServer (New c None (Some bus) None ∅ []) 0 0.

(** The callbacks given to [ListenAndServe]. *)
Definition accept s : server * bool :=
  (mkServer (sv_warp s) (opsProcessed s) (activeConns s + 1), true).
Definition closed s : server := mkServer (sv_warp s) (opsProcessed s) (activeConns s - 1).

Definition proxy_ttl : duration := 5 * Minute.

(** [case "GET"], for the key. *)
Definition handle_get (e1 e2 : env bytes) (key : string) (w : W) : W * list conn_call :=
  let '(w, r) := Warp_Get Background e1 key w in
  match r with
  | Ok val => (w, [WriteBulk val])
  | Err err =>
      if bool_decide (err = ErrNotFound) then (w, [WriteNull])
      else if bool_decide (err = ErrUnregistered) then
        let '(w, ok) := Warp_Register key ModeStrongLocal proxy_ttl [] w in
        if ok then
          let '(w, r) := Warp_Get Background e2 key w in
          match r with
          | Ok val => (w, [WriteBulk val])
          | Err _ => (w, [WriteNull])
          end
        else (w, [WriteError (error_text err)])
      else (w, [WriteError (error_text err)])
  end.

(** The registration check of [case "SET"]. *)
Definition check_registration (e1 : env bytes) (key : string) (w : W) : W :=
  let '(w, r) := Warp_Get Background e1 key w in
  match r with
  | Err err =>
      if bool_decide (err = ErrUnregistered)
      then fst (Warp_Register key ModeStrongLocal proxy_ttl [] w) else w
  | Ok _ => w
  end.

(** [case "SET"], for the key and the value. *)
Definition handle_set (e1 e2 : env bytes) (key : string) (val : bytes) (w : W)
    : W * list conn_call :=
  let w := check_registration e1 key w in
  let '(w, err) := Warp_Set Background e2 key val w in
  match err with
  | Some er => (w, [WriteError (error_text er)])
  | None => (w, [WriteString "OK"])
  end.

Definition with_warp s (out : W * list conn_call) : server * list conn_call :=
  (mkServer (fst out) (opsProcessed s) (activeConns s), snd out).

Definition handler (e1 e2 : env bytes) (Args : list bytes) s : server * list conn_call :=
  match Args with
  | [] => (s, [])
  | name :: args =>
      let s := mkServer (sv_warp s) (opsProcessed s + 1) (activeConns s) in
      let cmd := ToUpper (bytes_string name) in
      if bool_decide (cmd = "GET") then
        match args with
        | [key] => with_warp s (handle_get e1 e2 (bytes_string key) (sv_warp s))
        | _ => (s, [WriteError "ERR wrong number of arguments for 'get' command"])
        end
      else if bool_decide (cmd = "SET") then
        match args with
        | [key; val] => with_warp s (handle_set e1 e2 (bytes_string key) val (sv_warp s))
        | _ => (s, [WriteError "ERR wrong number of arguments for 'set' command"])
        end
      else if bool_decide (cmd = "PING") then
        match args with
        | arg :: _ => (s, [WriteBulk arg])
        | [] => (s, [WriteString "PONG"])
        end
      else if bool_decide (cmd = "INFO") then (s, [WriteBulkString info_text])
      else if bool_decide (cmd ∈ ["COMMAND"; "CLIENT"; "AUTH"; "SELECT"])
      then (s, [WriteString "OK"])
      else if bool_decide (cmd = "QUIT") then (s, [WriteString "OK"; CloseConn])
      else (s, [WriteError ("ERR unknown command '" +:+ bytes_string name +:+ "'")])
  end.

(** Commands served one after the other, each with its instants. *)
Fixpoint session (cmds : list (env bytes * env bytes * list bytes)) s
    : server * list (list conn_call) :=
  match cmds with
  | [] => (s, [])
  | (e1, e2, args) :: cmds =>
      let '(s, out) := handler e1 e2 args s in
      let '(s, outs) := session cmds s in (s, out :: outs)
  end.

(** ** What the proxy keeps

    [m] is the map a client has in mind: per key, the instant at which its last
    SET read the clock and the values set at that instant, usually one (the
    merge cannot order values of one instant). The cache holds nothing else,
    registrations are those of the proxy, and no value is from after [now]. *)

Abbreviation client := (gmap string (time * list bytes)).

(** A SET of the value at an instant. *)
Definition client_set (k : string) (t : time) (v : bytes) (m : client) : client :=
  <[k := match m !! k with
         | Some (t', vs) => if bool_decide (t' = t) then (t, v :: vs) else (t, [v])
         | None => (t, [v])
         end]> m.

Definition proxy_reg (g : registration) : Prop :=
  rg_mode g = ModeStrongLocal /\ rg_ttl g = proxy_ttl /\ rg_ttlStrategy g = None /\
  rg_ttlOpts g = zero_TTLOptions.

Record proxy_inv (now : time) (m : client) (w : W) : Prop := {
  pi_ok : warp_ok w;
  pi_store : w_store w = None;
  pi_merges : w_merges w = NewEngine;
  pi_trace : w_trace w = false;
  pi_metrics : w_metrics w = false;
  pi_reg : forall k g, reg_view (w_reg w) k = Some g -> proxy_reg g;
  pi_cached : forall t k v, now <= t -> cached w t k = Some v ->
    (exists vs, m !! k = Some (Timestamp v, vs) /\ Data v ∈ vs) /\ Vector v = None /\ Timestamp v <= now;
}.

(** The instants of one call, not before [now]. *)
Definition call_at (now : time) (e : env bytes) : Prop := 0 < t0 e /\ now <= t0 e /\ t0 e <= t1 e.

Lemma call_at_ok now e : call_at now e -> env_ok e.
Proof. unfold call_at. split; lia. Qed.
Hint Resolve call_at_ok : core.

Lemma proxy_inv_later now now' m w : now <= now' -> proxy_inv now m w -> proxy_inv now' m w.
Proof.
  intros Hle []. split; try done. intros t k v Ht Hv. destruct (pi_cached0 t k v) as (?&?&?); [lia|done|].
  split_and!; [done|done|lia].
Qed.

(** A state whose cache was only read. *)
Lemma proxy_inv_read now m w c t :
  proxy_inv now m w -> warp_ok (set_cache w c) -> same_view t (w_cache w) c -> now <= t ->
  proxy_inv t m (set_cache w c).
Proof.
  intros [] Hok Hv Ht. split; try done. intros t' k v Ht' Hc.
  unfold cached in Hc. simpl in Hc. rewrite Hv in Hc by done.
  destruct (pi_cached0 t' k v) as (?&?&?); [lia|done|]. split_and!; [done|done|lia].
Qed.

Lemma proxy_fast g (w : W) : proxy_reg g -> w_trace w = false -> w_metrics w = false -> fast_path g w = true.
Proof. intros (_&_&Hs&Ho) Ht Hm. unfold fast_path, grace. by rewrite Hs, Ho, Ht, Hm. Qed.

(** A read of the Warp: it answers from the cache and changes nothing. *)
Lemma proxy_Get now m w e k :
  proxy_inv now m w -> call_at now e ->
  exists c, Warp_Get Background e k w =
    (match reg_view (w_reg w) k with None => w | Some _ => set_cache w c end,
     match reg_view (w_reg w) k with
     | None => Err ErrUnregistered
     | Some _ => match cached w (t0 e) k with Some v => Ok (Data v) | None => Err ErrNotFound end
     end) /\
    proxy_inv (t0 e) m (set_cache w c) /\ same_view (t0 e) (w_cache w) c.
Proof.
  intros H Hat. pose proof (call_at_ok _ _ Hat) as [Ht0 _]. destruct Hat as (_&Hlt&_).
  pose proof (pi_ok _ _ _ H) as Hok.
  destruct (cacheGet_live (t0 e) k w Hok Ht0) as (c&Ec&Hokc&Hsv). exists c.
  split; [|split; [|done]]; [|eapply proxy_inv_read; [done|done|done|lia]].
  rewrite <- (lookupReg_view k w Hok). unfold Warp_Get.
  destruct (lookupReg k w) as [[l g]|] eqn:El; [|done].
  change (after 0 Background) with Background. rewrite Ec. unfold cached.
  apply lookupReg_Some in El as [_ Hg].
  pose proof (proxy_fast g (set_cache w c) (pi_reg _ _ _ H k g Hg) (pi_trace _ _ _ H) (pi_metrics _ _ _ H)) as Hf.
  assert (inc_hits (set_cache w c) = set_cache w c /\ inc_misses (set_cache w c) = set_cache w c) as [Eh Em].
  { unfold inc_hits, inc_misses. simpl. by rewrite (pi_metrics _ _ _ H). }
  simpl. destruct (wc_view (w_cache w) (t0 e) k) as [v|].
  - by rewrite Hf, Eh.
  - unfold get_miss. rewrite Em. simpl. by rewrite (pi_store _ _ _ H).
Qed.

Lemma proxy_Register now m w k :
  proxy_inv now m w -> reg_view (w_reg w) k = None ->
  exists r, Warp_Register k ModeStrongLocal proxy_ttl [] w = (set_reg w r, true) /\
    proxy_inv now m (set_reg w r) /\ is_Some (reg_view r k) /\
    forall k', is_Some (reg_view (w_reg w) k') -> is_Some (reg_view r k').
Proof.
  intros H Hn. pose proof (pi_ok _ _ _ H) as Hok. pose proof (wo_reg _ Hok) as Hr.
  unfold Warp_Register, registry_Register.
  destruct (getReg k (w_reg w)) as [l|] eqn:E.
  { destruct (proj2 (reg_view_is_Some _ k Hr)) as [? ?]; [by eexists|congruence]. }
  simpl. eexists. split; [done|]. split_and!; [|rewrite reg_view_put, decide_True by done; by eexists|].
  2:{ intros k' Hk. rewrite reg_view_put by done. case_decide; [by eexists|done]. }
  destruct H. split; try done; [by apply warp_ok_reg, put_reg_inv|].
  intros k' g. simpl. rewrite reg_view_put by done. case_decide; [intros [= <-]; done|apply pi_reg0].
Qed.

(** The newer of two plain values wins, the older one of equals. *)
Lemma proxy_merged now m w e k v :
  proxy_inv now m w -> call_at now e ->
  exists nv, merged_value e k v w = nv /\ Vector nv = None /\ Timestamp nv = t0 e /\
    exists vs, client_set k (t0 e) v m !! k = Some (t0 e, vs) /\ Data nv ∈ vs.
Proof.
  intros H (_&Hlt&_). unfold merged_value, effective_old, has_store. rewrite (pi_store _ _ _ H). simpl.
  unfold client_set. rewrite lookup_insert_eq.
  destruct (cached w (t0 e) k) as [o|] eqn:Eo; cycle 1.
  { exists (value_of v (t0 e)). split_and!; [done..|]. destruct (m !! k) as [[t' vs]|]; [case_bool_decide|];
      eexists; (split; [done|by left]). }
  destruct (pi_cached _ _ _ H (t0 e) k o) as ((vs&Hm&Hin)&Hvec&Ht); [lia|done|].
  simpl. rewrite (pi_merges _ _ _ H), Engine_Merge_default by done. simpl.
  rewrite LastWriteWins_no_vector by done. unfold time_After. simpl. rewrite Hm.
  destruct (Z.ltb_spec (Timestamp o) (t0 e)).
  - exists (value_of v (t0 e)). split_and!; [done..|]. rewrite bool_decide_eq_false_2 by lia.
    eexists. split; [done|by left].
  - exists o. split_and!; [done|done|lia|]. rewrite bool_decide_eq_true_2 by lia. eexists. split; [done|by right].
Qed.

(** The value is served for five minutes. *)
Definition live_until (t : time) : option time := expiry t proxy_ttl.

Lemma proxy_Set now m w e k v :
  proxy_inv now m w -> call_at now e -> is_Some (reg_view (w_reg w) k) ->
  exists w' nv, Warp_Set Background e k v w = (w', None) /\ proxy_inv (t1 e) (client_set k (t0 e) v m) w' /\
    is_Some (reg_view (w_reg w') k) /\
    (exists vs, client_set k (t0 e) v m !! k = Some (t0 e, vs) /\ Data nv ∈ vs) /\
    forall t, t1 e <= t -> cached w' t k =
      if decide (served (live_until (t1 e)) t) then Some nv else None.
Proof.
  intros H Hat [g Hg]. pose proof (call_at_ok _ _ Hat) as He. pose proof He as [Ht0 Ht1].
  pose proof (pi_ok _ _ _ H) as Hok.
  destruct (pi_reg _ _ _ H k g Hg) as (Hmode&Httl&Hst&Hop).
  rewrite <- (lookupReg_view k w Hok) in Hg. destruct (lookupReg k w) as [[l g']|] eqn:El; simplify_eq/=.
  destruct (proxy_merged now m w e k v H Hat) as (nv&Hmv&Hvec&Hts&Hcand).
  destruct (Set_prepare e k v w l g Hok He El) as (w1&U&Hs&[[Hc _]|(ttl&Ht&E)]).
  { by rewrite (pi_merges _ _ _ H) in Hc. }
  rewrite E, Hmv, (Ht Hst), Httl. unfold distribute. rewrite Hmode. unfold set_local.
  change (after 3 Background) with Background. change (after 4 Background) with Background.
  assert (proxy_ttl +₆₄ grace g = proxy_ttl) as -> by (unfold grace; by rewrite Hop).
  assert (is_i64 proxy_ttl) as Hi by (unfold is_i64, proxy_ttl, Minute, Second; lia).
  destruct (cacheSet_live (t1 e) k nv proxy_ttl w1 (un_ok _ _ _ U) Ht1 Hi) as (c&->&Hokc&Hv&Ho).
  unfold storeSet. simpl. rewrite Hs by (by rewrite (pi_merges _ _ _ H)). rewrite (pi_store _ _ _ H).
  assert (lookupReg k (set_cache w1 c) = Some (l, g)) as El1.
  { rewrite <- El. apply lookupReg_ext. simpl. apply U. }
  pose proof (lookupReg_Some _ _ _ _ El1) as [Hgl Hgv]. simpl in Hgl, Hgv.
  destruct Hat as (_&Hlt&Hle).
  assert (forall k', reg_view (w_reg (updateReg l (set_access proxy_ttl (t0 e)) (set_cache w1 c))) k' =
    if decide (k = k') then Some (set_access proxy_ttl (t0 e) g) else reg_view (w_reg w) k') as Hreg.
  { intros k'. simpl. rewrite (reg_view_update k) by (done || apply (wo_reg _ Hokc)).
    case_decide; [by rewrite Hgv|]. by rewrite (un_reg _ _ _ U). }
  eexists _, nv. split; [done|].
  split_and!; [|rewrite Hreg, decide_True by done; by eexists|exact Hcand|exact Hv].
  split; simpl.
  - by apply updateReg_ok.
  - rewrite Hs by (by rewrite (pi_merges _ _ _ H)). apply H.
  - rewrite (un_merges _ _ _ U). apply H.
  - rewrite (un_trace _ _ _ U). apply H.
  - rewrite (un_metrics _ _ _ U). apply H.
  - intros k' g'. rewrite Hreg. case_decide; [by intros [= <-]|]. apply H.
  - intros t k' v' Htt. unfold cached. simpl. destruct (decide (k' = k)) as [->|Hne].
    + rewrite Hv by done. case_decide; [|done]. intros [= <-]. rewrite Hts. split_and!; [done|done|lia].
    + destruct (Ho t k' Hne Htt) as [-> | ->]; [|done]. rewrite (un_view _ _ _ U) by lia. intros Hc.
      destruct (pi_cached _ _ _ H t k' v') as (?&?&?); [lia|done|].
      unfold client_set. rewrite lookup_insert_ne by done. split_and!; [done|done|lia].
Qed.

(** ** The commands *)

(** The key of a well-formed GET, the key and value of a well-formed SET. *)
Definition get_key (Args : list bytes) : option string :=
  match Args with
  | [name; key] => if bool_decide (ToUpper (bytes_string name) = "GET") then Some (bytes_string key) else None
  | _ => None
  end.
Definition set_kv (Args : list bytes) : option (string * bytes) :=
  match Args with
  | [name; key; val] =>
      if bool_decide (ToUpper (bytes_string name) = "SET") then Some (bytes_string key, val) else None
  | _ => None
  end.

(** The map a client has in mind: a SET has its instant from its second call. *)
Definition client_map (m : client) (c : env bytes * env bytes * list bytes) : client :=
  match set_kv (snd c) with Some (k, v) => client_set k (t0 (snd (fst c))) v m | None => m end.

(** [v] is what the proxy serves for [k] until [exp]. *)
Definition holds (now : time) (k : string) (v : bytes) (exp : option time) (w : W) : Prop :=
  is_Some (reg_view (w_reg w) k) /\
  forall t, now <= t -> served exp t -> exists x, cached w t k = Some x /\ Data x = v.

(** A GET answers null or the last value set, and the value held. *)
Lemma handle_get_correct now m w e1 e2 k :
  proxy_inv now m w -> call_at now e1 -> call_at (t1 e1) e2 ->
  let '(w', out) := handle_get e1 e2 k w in
  proxy_inv (t1 e2) m w' /\
  (out = [WriteNull] \/ exists t vs v, m !! k = Some (t, vs) /\ v ∈ vs /\ out = [WriteBulk v]) /\
  (forall v exp, holds now k v exp w -> served exp (t0 e1) -> out = [WriteBulk v]) /\
  (forall k' v exp, holds now k' v exp w -> holds (t1 e2) k' v exp w').
Proof.
  intros H H1 H2. pose proof H1 as (_&L1&L1'). pose proof H2 as (_&L2&L2').
  destruct (proxy_Get now m w e1 k H H1) as (c&E&Hi&Hsv). unfold handle_get. rewrite E.
  destruct (reg_view (w_reg w) k) as [g|] eqn:Eg.
  - assert (forall k' v exp, holds now k' v exp w -> holds (t1 e2) k' v exp (set_cache w c)) as Hk.
    { intros k' v exp [Hr Hc]. split; [done|]. intros t Ht Hs. unfold cached. simpl.
      rewrite Hsv by lia. apply Hc; [lia|done]. }
    assert (forall v exp, holds now k v exp w -> served exp (t0 e1) ->
      exists x, cached w (t0 e1) k = Some x /\ Data x = v) as Hh.
    { intros v exp [_ Hc] Hs. apply (Hc (t0 e1)); [lia|done]. }
    destruct (cached w (t0 e1) k) as [x|] eqn:Ex.
    + split_and!; [eapply proxy_inv_later; [|done]; lia| | |done].
      * right. destruct (pi_cached _ _ _ H (t0 e1) k x) as ((vs&Hm&Hin)&_); [lia|done|]. by exists (Timestamp x), vs, (Data x).
      * intros v exp Hv Hs. by destruct (Hh v exp Hv Hs) as (?&[= <-]&<-).
    + rewrite bool_decide_eq_true_2 by done.
      split_and!; [eapply proxy_inv_later; [|done]; lia|by left| |done].
      intros v exp Hv Hs. by destruct (Hh v exp Hv Hs) as (?&?&_).
  - rewrite (bool_decide_eq_false_2 (_ = ErrNotFound)), bool_decide_eq_true_2 by done.
    destruct (proxy_Register now m w k H Eg) as (r&->&Hi'&[g Hr]&Hmono).
    destruct (proxy_Get now m (set_reg w r) e2 k Hi') as (c2&->&Hi2&Hsv2); [unfold call_at in *; lia|].
    simpl. rewrite Hr. change (cached (set_reg w r) (t0 e2) k) with (cached w (t0 e2) k).
    assert (forall k' v exp, holds now k' v exp w -> holds (t1 e2) k' v exp (set_cache (set_reg w r) c2)) as Hk.
    { intros k' v exp [Hr' Hc]. split; [by apply Hmono|]. intros t Ht Hs. unfold cached. simpl.
      rewrite Hsv2 by lia. apply Hc; [lia|done]. }
    assert (forall v exp, ~ holds now k v exp w) as Hno.
    { intros v exp [Hr' _]. rewrite Eg in Hr'. by destruct Hr'. }
    destruct (cached w (t0 e2) k) as [x|] eqn:Ex.
    + split_and!; [eapply proxy_inv_later; [|done]; lia| |by intros v exp Hv%Hno|done].
      right. destruct (pi_cached _ _ _ H (t0 e2) k x) as ((vs&Hm&Hin)&_); [lia|done|]. by exists (Timestamp x), vs, (Data x).
    + split_and!; [eapply proxy_inv_later; [|done]; lia|by left|by intros v exp Hv%Hno|done].
Qed.

Lemma check_registration_correct now m w e1 k :
  proxy_inv now m w -> call_at now e1 ->
  proxy_inv (t0 e1) m (check_registration e1 k w) /\
  is_Some (reg_view (w_reg (check_registration e1 k w)) k).
Proof.
  intros H H1. pose proof H1 as (L0&L1&L1'). unfold check_registration.
  destruct (proxy_Get now m w e1 k H H1) as (c&->&Hi&Hsv).
  destruct (reg_view (w_reg w) k) as [g|] eqn:Eg.
  - by destruct (cached w (t0 e1) k).
  - rewrite bool_decide_eq_true_2 by done. destruct (proxy_Register now m w k H Eg) as (r&->&Hi'&Hr&_).
    split; [eapply proxy_inv_later; [|done]; lia|done].
Qed.

(** A SET is always acknowledged, and a value of its instant served from then on. *)
Lemma handle_set_correct now m w e1 e2 k v :
  proxy_inv now m w -> call_at now e1 -> call_at (t1 e1) e2 ->
  let '(w', out) := handle_set e1 e2 k v w in
  out = [WriteString "OK"] /\ proxy_inv (t1 e2) (client_set k (t0 e2) v m) w' /\
  exists vs v', client_set k (t0 e2) v m !! k = Some (t0 e2, vs) /\ v' ∈ vs /\
    holds (t1 e2) k v' (live_until (t1 e2)) w'.
Proof.
  intros H H1 H2. destruct (check_registration_correct now m w e1 k H H1) as [Hi Hr].
  unfold handle_set.
  destruct (proxy_Set (t0 e1) m _ e2 k v Hi) as (w'&nv&->&Hi2&Hr2&(vs&Hm&Hin)&Hc); [unfold call_at in *; lia|done|].
  split_and!; [done|done|]. exists vs, (Data nv). split_and!; [done|done|]. split; [done|].
  intros t Ht Hs. rewrite Hc, decide_True by done. by eexists.
Qed.

(** One command: what it answers and what the proxy keeps. *)
Definition answers (m : client) (Args : list bytes) (out : list conn_call) : Prop :=
  (is_Some (set_kv Args) -> out = [WriteString "OK"]) /\
  (forall k, get_key Args = Some k ->
     out = [WriteNull] \/ exists t vs v, m !! k = Some (t, vs) /\ v ∈ vs /\ out = [WriteBulk v]).

(** What a SET at the command makes the proxy hold. *)
Definition set_holds (m : client) (c : env bytes * env bytes * list bytes) (w : W) : Prop :=
  forall k v, set_kv (snd c) = Some (k, v) ->
    exists vs v', client_map m c !! k = Some (t0 (snd (fst c)), vs) /\ v' ∈ vs /\
      holds (t1 (snd (fst c))) k v' (live_until (t1 (snd (fst c)))) w.

Lemma handler_step now m s e1 e2 Args :
  proxy_inv now m (sv_warp s) -> call_at now e1 -> call_at (t1 e1) e2 ->
  let '(s', out) := handler e1 e2 Args s in
  proxy_inv (t1 e2) (client_map m (e1, e2, Args)) (sv_warp s') /\ answers m Args out /\
  set_holds m (e1, e2, Args) (sv_warp s') /\
  (forall k v exp, holds now k v exp (sv_warp s) ->
     (get_key Args = Some k -> served exp (t0 e1) -> out = [WriteBulk v]) /\
     (set_kv Args = None -> holds (t1 e2) k v exp (sv_warp s'))).
Proof.
  intros H H1 H2. pose proof H1 as (L0&L1&L1'). pose proof H2 as (_&L2&L2').
  assert (forall s' out, sv_warp s' = sv_warp s -> set_kv Args = None -> get_key Args = None ->
    proxy_inv (t1 e2) (client_map m (e1, e2, Args)) (sv_warp s') /\ answers m Args out /\
    set_holds m (e1, e2, Args) (sv_warp s') /\
    (forall k v exp, holds now k v exp (sv_warp s) ->
       (get_key Args = Some k -> served exp (t0 e1) -> out = [WriteBulk v]) /\
       (set_kv Args = None -> holds (t1 e2) k v exp (sv_warp s')))) as Hskip.
  { intros s' out -> Es Eg. unfold set_holds, client_map, answers. cbn [fst snd]. rewrite Es, Eg.
    split_and!; [eapply proxy_inv_later; [|done]; lia|by intros []|done|done|].
    intros k v exp [Hr Hc]. split; [done|]. split; [done|]. intros t Ht. apply Hc. lia. }
  destruct Args as [|name args]; [by apply Hskip|]. unfold handler.
  set (s1 := mkServer _ _ _). set (cmd := ToUpper (bytes_string name)).
  assert (sv_warp s1 = sv_warp s) as E1 by done.
  destruct (bool_decide (cmd = "GET")) eqn:Eget.
  { assert (cmd <> "SET") as Hns by (apply bool_decide_eq_true in Eget; congruence).
    destruct args as [|key [|val rest]]; [by apply Hskip| |].
    2:{ destruct rest; [|by apply Hskip]. apply Hskip; [done| |done]. simpl.
        by rewrite bool_decide_eq_false_2. }
    pose proof (handle_get_correct now m (sv_warp s) e1 e2 (bytes_string key) H H1 H2) as Hg.
    unfold with_warp. rewrite E1. destruct (handle_get _ _ _ _) as [w' out]. destruct Hg as (Hi&Ho&Hh&Hk).
    unfold set_holds, client_map, answers, get_key. simpl. fold cmd. rewrite Eget.
    split_and!; [done|by intros []|by intros k [= <-]|done|]. intros k v exp Hv.
    split; [|by intros _; apply Hk]. intros [= <-]. by apply Hh. }
  assert (get_key (name :: args) = None) as Hng.
  { simpl. destruct args as [|? [|? ?]]; try done. fold cmd. by rewrite Eget. }
  destruct (bool_decide (cmd = "SET")) eqn:Eset.
  { destruct args as [|key [|val [|? ?]]]; try by apply Hskip.
    pose proof (handle_set_correct now m (sv_warp s) e1 e2 (bytes_string key) val H H1 H2) as Hg.
    unfold with_warp. rewrite E1. destruct (handle_set _ _ _ _ _) as [w' out]. destruct Hg as (Ho&Hi&Hh).
    unfold set_holds, client_map, answers. simpl. fold cmd. rewrite Eset.
    split_and!; [done|done|done|by intros k v [= <- <-]|done]. }
  assert (set_kv (name :: args) = None) as Hns.
  { simpl. destruct args as [|? [|? [|? ?]]]; try done. fold cmd. by rewrite Eset. }
  destruct (bool_decide (cmd = "PING")); [by destruct args; apply Hskip|].
  destruct (bool_decide (cmd = "INFO")); [by apply Hskip|].
  destruct (bool_decide (cmd ∈ _)); [by apply Hskip|].
  destruct (bool_decide (cmd = "QUIT")); by apply Hskip.
Qed.

(** ** Sessions *)

(** The clock of a session: it never goes back, but may read an instant again. *)
Fixpoint clock_ok (now : time) (cmds : list (env bytes * env bytes * list bytes)) : Prop :=
  match cmds with
  | [] => True
  | (e1, e2, _) :: cmds => call_at now e1 /\ call_at (t1 e1) e2 /\ clock_ok (t1 e2) cmds
  end.

Definition client_maps (m : client) (cmds : list (env bytes * env bytes * list bytes)) : client :=
  foldl client_map m cmds.

Lemma session_cons c cmds s :
  session (c :: cmds) s =
    (fst (session cmds (fst (handler (fst (fst c)) (snd (fst c)) (snd c) s))),
     snd (handler (fst (fst c)) (snd (fst c)) (snd c) s) ::
       snd (session cmds (fst (handler (fst (fst c)) (snd (fst c)) (snd c) s)))).
Proof. destruct c as [[e1 e2] args]. simpl. destruct (handler _ _ _ s) as [s1 out]. simpl. by destruct (session cmds s1). Qed.

(** A value held is what a GET answers, as long as nothing is set before it. *)
Lemma session_holds now m s cmds k v exp j e1 e2 Args :
  proxy_inv now m (sv_warp s) -> clock_ok now cmds -> holds now k v exp (sv_warp s) ->
  cmds !! j = Some (e1, e2, Args) -> get_key Args = Some k -> served exp (t0 e1) ->
  Forall (fun c => set_kv (snd c) = None) (take j cmds) ->
  snd (session cmds s) !! j = Some [WriteBulk v].
Proof.
  revert now m s j. induction cmds as [|[[a1 a2] args] cmds IH]; intros now m s j H Hc Hh Hj Hk Hs Hf; [done|].
  destruct Hc as (C1&C2&C3). pose proof (handler_step now m s a1 a2 args H C1 C2) as Hst.
  rewrite session_cons. simpl. destruct (handler a1 a2 args s) as [s1 out]. destruct Hst as (Hi&_&_&Hkeep).
  destruct (Hkeep k v exp Hh) as [Hget Hset]. destruct j as [|j]; simpl in *.
  - injection Hj as -> -> ->. by rewrite Hget.
  - apply Forall_cons in Hf as [Hn Hf]. by eapply IH; [exact Hi|..]; eauto.
Qed.

Lemma session_answers now m s cmds i e1 e2 Args out :
  proxy_inv now m (sv_warp s) -> clock_ok now cmds ->
  cmds !! i = Some (e1, e2, Args) -> snd (session cmds s) !! i = Some out ->
  answers (client_maps m (take i cmds)) Args out /\
  (forall k v, set_kv Args = Some (k, v) -> exists vs v',
     client_maps m (take (Datatypes.S i) cmds) !! k = Some (t0 e2, vs) /\ v' ∈ vs /\
     forall j d1 d2 Get, (i < j)%nat ->
       cmds !! j = Some (d1, d2, Get) -> get_key Get = Some k -> served (live_until (t1 e2)) (t0 d1) ->
       Forall (fun c => set_kv (snd c) = None) (drop (Datatypes.S i) (take j cmds)) ->
       snd (session cmds s) !! j = Some [WriteBulk v']).
Proof.
  revert now m s i. induction cmds as [|[[a1 a2] args] cmds IH]; intros now m s i H Hc Hi Ho; [done|].
  destruct Hc as (C1&C2&C3). pose proof (handler_step now m s a1 a2 args H C1 C2) as Hst.
  rewrite session_cons in *. simpl in *. destruct (handler a1 a2 args s) as [s1 o1].
  destruct Hst as (Hinv&Hans&Hset&_). destruct i as [|i]; simpl in *.
  - injection Hi as -> -> ->. injection Ho as ->. split; [done|].
    intros k v Hkv. destruct (Hset k v Hkv) as (vs&v'&Hm&Hin&Hh). exists vs, v'.
    split; [destruct cmds; exact Hm|]. split; [done|].
    intros j d1 d2 Get Hj Hg Hk Hs Hf. destruct j as [|j]; [lia|]. simpl in *. rewrite drop_0 in Hf.
    by eapply session_holds; eauto.
  - destruct (IH _ _ s1 i Hinv C3 Hi Ho) as [Ha Hb]. split; [done|].
    intros k v Hkv. destruct (Hb k v Hkv) as (vs&v'&Hm&Hin&Hj'). exists vs, v'. split; [exact Hm|]. split; [done|].
    intros j d1 d2 Get Hj Hg Hk Hs Hf. destruct j as [|j]; [lia|]. simpl in *.
    eapply Hj'; eauto. lia.
Qed.

(** The values of one instant are those of the SETs that read it. *)
Lemma client_maps_snoc m cmds c : client_maps m (cmds ++ [c]) = client_map (client_maps m cmds) c.
Proof. unfold client_maps. by rewrite foldl_snoc. Qed.

Lemma client_maps_alone m cmds i e1 e2 Args k v vs :
  cmds !! i = Some (e1, e2, Args) -> set_kv Args = Some (k, v) ->
  (forall t vs, client_maps m (take i cmds) !! k = Some (t, vs) -> t <> t0 e2) ->
  client_maps m (take (Datatypes.S i) cmds) !! k = Some (t0 e2, vs) -> vs = [v].
Proof.
  intros Hi Hkv Hne. rewrite (take_S_r _ _ _ Hi), client_maps_snoc. unfold client_map, client_set. simpl.
  rewrite Hkv, lookup_insert_eq. destruct (client_maps m (take i cmds) !! k) as [[t' vs']|]; [|congruence].
  rewrite bool_decide_eq_false_2 by (by eapply Hne). congruence.
Qed.

Lemma proxy_new_inv c bus now :
  cache_ok c -> (forall t k, cache_view c t k = None) -> proxy_inv now ∅ (sv_warp (proxy_new c bus)).
Proof.
  intros Hc He. split; try done.
  - apply New_ok; [done|]. intros o Ho. by apply elem_of_nil in Ho.
  - intros k g. simpl. by rewrite reg_view_new.
  - intros t k v _ Hv. unfold cached, wc_view in Hv. simpl in Hv. by rewrite He in Hv.
Qed.

(** C15. The proxy refines the map its clients have in mind. In a session of
    any commands on a proxy that starts with an empty cache, whatever the
    cache evicts, on a clock that never goes back: every SET is acknowledged;
    every GET answers null or a value of the last instant at which its key was
    SET, never an older or another key's value, and never an error; and the GETs
    of the key within five minutes of a SET, with no other SET served in between,
    all answer one such value. That value is the one of this very SET when the
    SETs of the key before it read an earlier instant; among SETs of the same key
    that read the same instant it may be any of them (see
    [proxy_same_instant_lost]). *)
Theorem proxy_session (c : C) (bus : B) (now : time)
    (cmds : list (env bytes * env bytes * list bytes)) i e1 e2 Args out :
  cache_ok c -> (forall t k, cache_view c t k = None) -> clock_ok now cmds ->
  cmds !! i = Some (e1, e2, Args) -> snd (session cmds (proxy_new c bus)) !! i = Some out ->
  answers (client_maps ∅ (take i cmds)) Args out /\
  (forall k v, set_kv Args = Some (k, v) -> exists vs v',
     client_maps ∅ (take (Datatypes.S i) cmds) !! k = Some (t0 e2, vs) /\ v' ∈ vs /\
     ((forall t vs, client_maps ∅ (take i cmds) !! k = Some (t, vs) -> t <> t0 e2) -> v' = v) /\
     forall j d1 d2 Get, (i < j)%nat ->
       cmds !! j = Some (d1, d2, Get) -> get_key Get = Some k -> served (live_until (t1 e2)) (t0 d1) ->
       Forall (fun c => set_kv (snd c) = None) (drop (Datatypes.S i) (take j cmds)) ->
       snd (session cmds (proxy_new c bus)) !! j = Some [WriteBulk v']).
Proof.
  intros Hc He Hclk Hi Ho.
  destruct (session_answers now ∅ (proxy_new c bus) cmds i e1 e2 Args out) as [H1 H2];
    [by apply proxy_new_inv|done..|]. split; [done|].
  intros k v Hkv. destruct (H2 k v Hkv) as (vs & v' & Hm & Hin & Hj). exists vs, v'. split_and!; [done|done| |done].
  intros Hne. rewrite (client_maps_alone ∅ cmds i e1 e2 Args k v vs Hi Hkv Hne Hm) in Hin.
  by apply list_elem_of_singleton in Hin.
Qed.

End Proxy.

(** ** The proxy of [main] *)

Definition proxy_main {St S : Type} : @server (InMemoryCache (Value bytes)) St S (InMemoryBus (gmap string)) :=
  proxy_new (NewInMemory [WithMaxEntries 10000]) NewInMemoryBus.

Definition demo_call (t : time) : env bytes := mkEnv t (t + 1) None false.
Definition demo_args (words : list string) : list bytes := string_bytes <$> words.

(** A client that sets a key, pings, and reads it with a lower-case command. *)
Definition demo_session : list (env bytes * env bytes * list bytes) :=
  [(demo_call 10, demo_call 20, demo_args ["SET"; "greeting"; "hello"]);
   (demo_call 30, demo_call 40, demo_args ["PING"]);
   (demo_call 50, demo_call 60, demo_args ["get"; "greeting"]);
   (demo_call 70, demo_call 80, demo_args ["GET"; "other"])].

Definition demo_proxy : @server (InMemoryCache (Value bytes)) SlidingWindow (InMemoryStore bytes)
    (InMemoryBus (gmap string)) := proxy_main.

Lemma demo_cache_ok : cache_ok (NewInMemory [WithMaxEntries 10000] : InMemoryCache (Value bytes)).
Proof.
  split; [|by vm_compute]. apply NewInMemory_inv. intros o c Ho.
  apply list_elem_of_singleton in Ho as ->. done.
Qed.

Lemma proxy_session_witness :
  snd (session (fun _ => "") demo_session demo_proxy) !! 2%nat = Some [WriteBulk (string_bytes "hello")].
Proof.
  destruct (proxy_session (fun _ => "") (NewInMemory [WithMaxEntries 10000]) NewInMemoryBus 0 demo_session 0
    (demo_call 10) (demo_call 20) (demo_args ["SET"; "greeting"; "hello"]) [WriteString "OK"]) as [_ H].
  - exact demo_cache_ok.
  - intros t k. unfold cache_view. simpl. unfold lru_view. simpl. by rewrite lookup_empty.
  - unfold demo_session, demo_call. simpl. unfold call_at. simpl. lia.
  - reflexivity.
  - vm_compute. reflexivity.
  - destruct (H "greeting" (string_bytes "hello")) as (vs & v' & _ & _ & Hv & Hj); [vm_compute; reflexivity|].
    rewrite <- Hv by (intros t us; simpl; by rewrite lookup_empty).
    apply (Hj 2%nat (demo_call 50) (demo_call 60) (demo_args ["get"; "greeting"])).
    + lia.
    + reflexivity.
    + vm_compute. reflexivity.
    + unfold served, live_until, expiry, proxy_ttl, Minute, Second. simpl. lia.
    + constructor; [reflexivity|constructor].
Defined.

(** A command is recognised by its upper case, which is not only that of ASCII. *)
Example ToUpper_words :
  ToUpper "sElEcT" = "SELECT" /\ ToUpper (bytes_string [Byte.xc5; Byte.xbf; Byte.x65; Byte.x74]) = "SET".
Proof. vm_compute. done. Qed.

(** Two SETs that read the same instant: the second is acknowledged and lost,
    since the merge keeps the old value on equal timestamps. *)
Definition tied_session : list (env bytes * env bytes * list bytes) :=
  [(demo_call 10, demo_call 20, demo_args ["SET"; "k"; "first"]);
   (demo_call 20, demo_call 20, demo_args ["SET"; "k"; "second"]);
   (demo_call 30, demo_call 40, demo_args ["GET"; "k"])].

Theorem proxy_same_instant_lost :
  snd (session (fun _ => "") tied_session demo_proxy) =
    [[WriteString "OK"]; [WriteString "OK"]; [WriteBulk (string_bytes "first")]].
Proof. vm_compute. reflexivity. Qed.
