(* ===== verification/WatchBus.v ===== *)
(** * WatchBus: the watch bus

    Models [src/watchbus/watchbus.go] (the interface), the in-memory
    implementation [src/watchbus/inmemory_watchbus.go] with its trie of runes,
    and [WatchPrefix] of [src/core/watch.go]. A channel is its identity; the
    channels are a heap of buffered channels. The client owns both ends of a
    channel and may close it. The order in which Go iterates over the set of
    targets is an argument. *)

From S2P Require Import Prelude Bytes Utf8.

(** ** The interface *)

Inductive wrecv :=
| WReceived (data : list Byte.byte)
| WClosed
| WBlocks.

Class WatchBus (B : Type) := {
  wb_Publish : ctx -> string -> list Byte.byte -> B -> B * option error;
  wb_PublishPrefix : ctx -> string -> list Byte.byte -> B -> B * option error;
  wb_Watch : ctx -> string -> B -> B * res nat;
  wb_SubscribePrefix : ctx -> string -> B -> B * res nat;
  wb_Unwatch : ctx -> string -> nat -> B -> B * option error;
  wb_recv : nat -> B -> B * wrecv;
}.

(** ** The trie *)

Inductive watchNode := WNode {
  wn_subs : list nat;
  wn_watchers : gset nat;
  wn_children : gmap Z watchNode;
}.

Definition newWatchNode : watchNode := WNode [] ∅ ∅.

(** The node a path leads to. *)
Fixpoint walk (path : list Z) (n : watchNode) : option watchNode :=
  match path with
  | [] => Some n
  | r :: path => wn_children n !! r ≫= walk path
  end.

(** The walk of [Publish]: the subscribers of every node it enters. *)
Fixpoint match_subs (path : list Z) (n : watchNode) : gset nat :=
  match path with
  | [] => ∅
  | r :: path =>
      match wn_children n !! r with
      | None => ∅
      | Some next => list_to_set (wn_subs next) ∪ match_subs path next
      end
  end.

Definition add_watcher (ch : nat) (n : watchNode) : watchNode :=
  WNode (wn_subs n) ({[ch]} ∪ wn_watchers n) (wn_children n).
Definition del_watcher (ch : nat) (n : watchNode) : watchNode :=
  WNode (wn_subs n) (wn_watchers n ∖ {[ch]}) (wn_children n).
Definition set_child (r : Z) (child n : watchNode) : watchNode :=
  WNode (wn_subs n) (wn_watchers n) (<[r := child]> (wn_children n)).

(** The walk of [Watch]: creates the missing nodes and enters the channel in
    every node below the root. *)
Fixpoint watch_insert (path : list Z) (ch : nat) (n : watchNode) : watchNode :=
  match path with
  | [] => n
  | r :: path =>
      let next := add_watcher ch (default newWatchNode (wn_children n !! r)) in
      set_child r (watch_insert path ch next) n
  end.

(** The walk of [SubscribePrefix]. *)
Fixpoint prefix_insert (path : list Z) (ch : nat) (n : watchNode) : watchNode :=
  match path with
  | [] => WNode (wn_subs n ++ [ch]) (wn_watchers n) (wn_children n)
  | r :: path =>
      let next := default newWatchNode (wn_children n !! r) in
      set_child r (prefix_insert path ch next) n
  end.

(** The walk of [Unwatch] for a watcher of a key. *)
Fixpoint watch_remove (path : list Z) (ch : nat) (n : watchNode) : watchNode :=
  match path with
  | [] => n
  | r :: path =>
      match wn_children n !! r with
      | None => n
      | Some next => set_child r (watch_remove path ch (del_watcher ch next)) n
      end
  end.

Definition remove_sub (ch : nat) (subs : list nat) : list nat :=
  match index_of ch subs with Some i => swap_remove i subs | None => subs end.

(** The walk of [Unwatch] for a subscriber of a prefix. *)
Fixpoint prefix_remove (path : list Z) (ch : nat) (n : watchNode) : watchNode :=
  match path with
  | [] => WNode (remove_sub ch (wn_subs n)) (wn_watchers n) (wn_children n)
  | r :: path =>
      match wn_children n !! r with
      | None => n
      | Some next => set_child r (prefix_remove path ch next) n
      end
  end.

(** ** The bus *)

Record wchan := mkWChan { wc_buffer : list (list Byte.byte); wc_closed : bool }.

(** [w_waiting]: the goroutines that wait for the context of a subscription. *)
Record InMemoryWatchBus := mkWatchBus {
  w_subs : gmap string (list nat);
  w_root : watchNode;
  w_chans : gmap nat wchan;
  w_next : nat;
  w_waiting : list (string * nat);
}.

Definition NewInMemoryWatchBus : InMemoryWatchBus := mkWatchBus ∅ newWatchNode ∅ 0 [].

Section InMemoryWatchBus.
Variable order : gset nat -> list nat.
Implicit Types b : InMemoryWatchBus.

Definition set_wchans b c : InMemoryWatchBus :=
  mkWatchBus (w_subs b) (w_root b) c (w_next b) (w_waiting b).
Definition set_windex b subs root : InMemoryWatchBus :=
  mkWatchBus subs root (w_chans b) (w_next b) (w_waiting b).

(** A non-blocking send; the panic of a send on a closed channel is recovered
    and the message dropped. *)
Definition safeSend (ch : nat) (data : list Byte.byte) b : InMemoryWatchBus :=
  match w_chans b !! ch with
  | None => b
  | Some c =>
      if wc_closed c then b
      else if (length (wc_buffer c) <? 1)%nat then
        set_wchans b (<[ch := mkWChan (wc_buffer c ++ [data]) false]> (w_chans b))
      else b
  end.

(** The loop over the targets; poll [i] of the context guards the next one. *)
Fixpoint send_all (cx : ctx) (i : nat) (data : list Byte.byte) (chs : list nat) b
    : InMemoryWatchBus * option error :=
  match chs with
  | [] => (b, None)
  | ch :: chs =>
      match cx i with
      | Some e => (b, Some e)
      | None => send_all cx (S i) data chs (safeSend ch data b)
      end
  end.

Definition publish_targets (key : string) b : gset nat :=
  list_to_set (default [] (w_subs b !! key)) ∪ match_subs (runes key) (w_root b).

Definition InMemoryWatchBus_Publish (cx : ctx) (key : string) (data : list Byte.byte) b
    : InMemoryWatchBus * option error :=
  match cx 0%nat with
  | Some e => (b, Some e)
  | None => send_all cx 1 data (order (publish_targets key b)) b
  end.

Definition prefix_targets (prefix : string) b : gset nat :=
  match walk (runes prefix) (w_root b) with
  | None => ∅
  | Some node => wn_watchers node ∪ list_to_set (wn_subs node)
  end.

Definition InMemoryWatchBus_PublishPrefix (cx : ctx) (prefix : string) (data : list Byte.byte) b
    : InMemoryWatchBus * option error :=
  match cx 0%nat with
  | Some e => (b, Some e)
  | None => send_all cx 1 data (order (prefix_targets prefix b)) b
  end.

(** [make(chan []byte, 1)] and the goroutine that waits for the context. *)
Definition new_wchan (key : string) b : InMemoryWatchBus :=
  mkWatchBus (w_subs b) (w_root b) (<[w_next b := mkWChan [] false]> (w_chans b)) (S (w_next b))
    ((key, w_next b) :: w_waiting b).

Definition InMemoryWatchBus_Watch (cx : ctx) (key : string) b : InMemoryWatchBus * res nat :=
  match cx 0%nat with
  | Some e => (b, Err e)
  | None =>
      let ch := w_next b in
      (set_windex (new_wchan key b) (<[key := default [] (w_subs b !! key) ++ [ch]]> (w_subs b))
         (watch_insert (runes key) ch (w_root b)), Ok ch)
  end.

Definition InMemoryWatchBus_SubscribePrefix (cx : ctx) (prefix : string) b
    : InMemoryWatchBus * res nat :=
  match cx 0%nat with
  | Some e => (b, Err e)
  | None =>
      let ch := w_next b in
      (set_windex (new_wchan prefix b) (w_subs b) (prefix_insert (runes prefix) ch (w_root b)), Ok ch)
  end.

Definition InMemoryWatchBus_Unwatch (cx : ctx) (key : string) (ch : nat) b
    : InMemoryWatchBus * option error :=
  match cx 0%nat with
  | Some e => (b, Some e)
  | None =>
      let subs := default [] (w_subs b !! key) in
      match index_of ch subs with
      | Some i =>
          let subs := swap_remove i subs in
          (set_windex b
             (if decide (subs = []) then delete key (w_subs b) else <[key := subs]> (w_subs b))
             (watch_remove (runes key) ch (w_root b)), None)
      | None => (set_windex b (w_subs b) (prefix_remove (runes key) ch (w_root b)), None)
      end
  end.

(** The goroutine of a subscription whose context is done. *)
Definition watch_expired (key : string) (ch : nat) b : InMemoryWatchBus :=
  fst (InMemoryWatchBus_Unwatch Background key ch
    (mkWatchBus (w_subs b) (w_root b) (w_chans b) (w_next b)
       (filter (fun w => w <> (key, ch)) (w_waiting b)))).

Definition wchan_recv (ch : nat) b : InMemoryWatchBus * wrecv :=
  match w_chans b !! ch with
  | None => (b, WBlocks)
  | Some c =>
      match wc_buffer c with
      | d :: q => (set_wchans b (<[ch := mkWChan q (wc_closed c)]> (w_chans b)), WReceived d)
      | [] => (b, if wc_closed c then WClosed else WBlocks)
      end
  end.

(** The client closes its channel. *)
Definition wchan_close (ch : nat) b : InMemoryWatchBus :=
  match w_chans b !! ch with
  | None => b
  | Some c => set_wchans b (<[ch := mkWChan (wc_buffer c) true]> (w_chans b))
  end.

Definition InMemoryWatchBus_WatchBus : WatchBus InMemoryWatchBus := {|
  wb_Publish := InMemoryWatchBus_Publish;
  wb_PublishPrefix := InMemoryWatchBus_PublishPrefix;
  wb_Watch := InMemoryWatchBus_Watch;
  wb_SubscribePrefix := InMemoryWatchBus_SubscribePrefix;
  wb_Unwatch := InMemoryWatchBus_Unwatch;
  wb_recv := wchan_recv;
|}.

End InMemoryWatchBus.

(** [WatchPrefix]: the value of the watcher gauge, and the goroutines that will
    decrement it. *)
Section WatchPrefix.
Context {B : Type} `{!WatchBus B}.

Definition WatchPrefix (cx : ctx) (prefix : string) (st : B * Z) : (B * Z) * res nat :=
  let '(bus, gauge) := st in
  let '(bus, r) := wb_SubscribePrefix cx prefix bus in
  match r with
  | Err e => ((bus, gauge), Err e)
  | Ok ch => ((bus, gauge + 1), Ok ch)
  end.

(** [<-ctx.Done()] *)
Definition WatchPrefix_done (st : B * Z) : B * Z := (fst st, snd st - 1).

End WatchPrefix.
