(* ===== verification/WatchProps.v ===== *)
(** * WatchProps: what the in-memory watch bus promises

    The abstract bus ([wspec]) is two finite maps, from a channel to the key it
    watches and from a channel to the runes of the prefix it subscribes to.
    Every operation of [InMemoryWatchBus], whose state is a map of slices and a
    trie with a copy of the watchers at every node of their key, simulates the
    operation on these maps ([watch_rel]), and a publication sends to exactly
    the channels they select. *)

From S2P Require Import Prelude Bytes Utf8 WatchBus.

(** ** The trie, seen at one path *)

Definition watchers_at (path : list Z) (n : watchNode) : gset nat :=
  match walk path n with Some m => wn_watchers m | None => ∅ end.

Definition subs_at (path : list Z) (n : watchNode) : list nat :=
  match walk path n with Some m => wn_subs m | None => [] end.

Lemma watchers_at_cons r q n :
  watchers_at (r :: q) n = match wn_children n !! r with Some m => watchers_at q m | None => ∅ end.
Proof. unfold watchers_at. simpl. by destruct (wn_children n !! r). Qed.

Lemma subs_at_cons r q n :
  subs_at (r :: q) n = match wn_children n !! r with Some m => subs_at q m | None => [] end.
Proof. unfold subs_at. simpl. by destruct (wn_children n !! r). Qed.

Lemma at_newWatchNode q : watchers_at q newWatchNode = ∅ /\ subs_at q newWatchNode = [].
Proof. destruct q; split; reflexivity. Qed.

Lemma watchers_at_set_child q r s child n :
  watchers_at (r :: q) (set_child s child n) =
    if decide (r = s) then watchers_at q child else watchers_at (r :: q) n.
Proof.
  rewrite !watchers_at_cons. simpl. case_decide as H; [subst|].
  - by rewrite lookup_insert_eq.
  - by rewrite lookup_insert_ne by done.
Qed.

Lemma subs_at_set_child q r s child n :
  subs_at (r :: q) (set_child s child n) =
    if decide (r = s) then subs_at q child else subs_at (r :: q) n.
Proof.
  rewrite !subs_at_cons. simpl. case_decide as H; [subst|].
  - by rewrite lookup_insert_eq.
  - by rewrite lookup_insert_ne by done.
Qed.

(** Below the root, on the way to the end of a path. *)
Definition on_path (q p : list Z) : Prop := q <> [] /\ q `prefix_of` p.

Lemma on_path_cons r q s p : on_path (r :: q) (s :: p) <-> r = s /\ (q = [] \/ on_path q p).
Proof.
  unfold on_path. split.
  - intros [_ H]. split; [by eapply prefix_cons_inv_1|]. apply prefix_cons_inv_2 in H.
    destruct q; [by left|right; done].
  - intros [-> [->|[_ H]]]; (split; [done|]); apply prefix_cons; [apply prefix_nil|done].
Qed.

Lemma on_path_nil p : ~ on_path [] p.
Proof. by intros [? _]. Qed.

Lemma on_path_of_nil q : ~ on_path q [].
Proof. intros [Hq H]. by apply prefix_nil_inv in H. Qed.

Lemma watchers_at_insert q p ch x n :
  x ∈ watchers_at q (watch_insert p ch n) <->
  x ∈ watchers_at q n \/ (x = ch /\ on_path q p).
Proof.
  revert q n. induction p as [|s p IH]; intros q n; simpl.
  { split; [by left|]. intros [?|[_ []%on_path_of_nil]]; done. }
  destruct q as [|r q]; [split; [by left|intros [?|[_ []%on_path_nil]]; done]|].
  rewrite watchers_at_set_child, on_path_cons. case_decide as Hr; [subst|naive_solver].
  rewrite IH, watchers_at_cons. destruct q as [|r' q].
  - destruct (wn_children n !! s) as [m|]; unfold watchers_at; simpl;
      rewrite elem_of_union, elem_of_singleton; pose proof (on_path_nil p); naive_solver.
  - destruct (wn_children n !! s) as [m|]; simpl.
    + change (watchers_at (r' :: q) (add_watcher ch m)) with (watchers_at (r' :: q) m). naive_solver.
    + change (watchers_at (r' :: q) (add_watcher ch newWatchNode)) with (∅ : gset nat). naive_solver.
Qed.

Lemma subs_at_watch_insert q p ch n : subs_at q (watch_insert p ch n) = subs_at q n.
Proof.
  revert q n. induction p as [|s p IH]; intros q n; simpl; [done|].
  destruct q as [|r q]; [done|]. rewrite subs_at_set_child. case_decide as Hr; [subst|done].
  rewrite IH, subs_at_cons. destruct (wn_children n !! s) as [m|]; [by destruct q|].
  destruct q; reflexivity.
Qed.

Lemma subs_at_insert q p ch n :
  subs_at q (prefix_insert p ch n) = if decide (q = p) then subs_at q n ++ [ch] else subs_at q n.
Proof.
  revert q n. induction p as [|s p IH]; intros q n; simpl.
  - destruct q as [|r q]; [done|]. by rewrite decide_False.
  - destruct q as [|r q]; [by rewrite decide_False|]. rewrite subs_at_set_child.
    case_decide as Hr; [subst|by rewrite decide_False by congruence].
    rewrite IH, subs_at_cons. assert (subs_at q (default newWatchNode (wn_children n !! s)) =
      match wn_children n !! s with Some m => subs_at q m | None => [] end) as ->.
    { destruct (wn_children n !! s); [done|]. apply at_newWatchNode. }
    repeat case_decide; congruence.
Qed.

Lemma watchers_at_prefix_insert q p ch n : watchers_at q (prefix_insert p ch n) = watchers_at q n.
Proof.
  revert q n. induction p as [|s p IH]; intros q n; simpl; [by destruct q|].
  destruct q as [|r q]; [done|]. rewrite watchers_at_set_child. case_decide as Hr; [subst|done].
  rewrite IH, watchers_at_cons. destruct (wn_children n !! s) as [m|]; [done|]. apply at_newWatchNode.
Qed.

Lemma watchers_at_remove q p ch x n :
  x ∈ watchers_at q (watch_remove p ch n) <->
  x ∈ watchers_at q n /\ ~ (x = ch /\ on_path q p).
Proof.
  revert q n. induction p as [|s p IH]; intros q n; simpl.
  { pose proof (on_path_of_nil q). naive_solver. }
  destruct (wn_children n !! s) as [m|] eqn:E.
  - destruct q as [|r q]; [pose proof (on_path_nil (s :: p)); naive_solver|].
    rewrite watchers_at_set_child, on_path_cons. case_decide as Hr; [subst|naive_solver].
    rewrite IH, watchers_at_cons, E. destruct q as [|r' q].
    + unfold watchers_at. simpl. pose proof (on_path_nil p). set_solver.
    + change (watchers_at (r' :: q) (del_watcher ch m)) with (watchers_at (r' :: q) m). naive_solver.
  - destruct q as [|r q]; [pose proof (on_path_nil (s :: p)); naive_solver|].
    rewrite watchers_at_cons, on_path_cons. destruct (decide (r = s)) as [->|]; [|naive_solver].
    rewrite E. set_solver.
Qed.

Lemma subs_at_watch_remove q p ch n : subs_at q (watch_remove p ch n) = subs_at q n.
Proof.
  revert q n. induction p as [|s p IH]; intros q n; simpl; [done|].
  destruct (wn_children n !! s) as [m|] eqn:E; [|done].
  destruct q as [|r q]; [done|]. rewrite subs_at_set_child. case_decide as Hr; [subst|done].
  rewrite IH, subs_at_cons, E. by destruct q.
Qed.

Lemma subs_at_remove q p ch n :
  subs_at q (prefix_remove p ch n) = if decide (q = p) then remove_sub ch (subs_at q n) else subs_at q n.
Proof.
  revert q n. induction p as [|s p IH]; intros q n; simpl.
  { destruct q as [|r q]; [done|]. by rewrite decide_False. }
  destruct (wn_children n !! s) as [m|] eqn:E; (destruct q as [|r q]; [by rewrite decide_False|]).
  - rewrite subs_at_set_child. case_decide as Hr; [subst|by rewrite decide_False by congruence].
    rewrite IH, subs_at_cons, E. repeat case_decide; congruence.
  - case_decide; [simplify_eq|done]. by rewrite subs_at_cons, E.
Qed.

Lemma watchers_at_prefix_remove q p ch n : watchers_at q (prefix_remove p ch n) = watchers_at q n.
Proof.
  revert q n. induction p as [|s p IH]; intros q n; simpl; [by destruct q|].
  destruct (wn_children n !! s) as [m|] eqn:E; [|done]. destruct q as [|r q]; [done|].
  rewrite watchers_at_set_child. case_decide as Hr; [subst|done]. by rewrite IH, watchers_at_cons, E.
Qed.

Lemma match_subs_spec p n x :
  x ∈ match_subs p n <-> exists q, on_path q p /\ x ∈ subs_at q n.
Proof.
  revert n. induction p as [|s p IH]; intros n; simpl.
  { split; [set_solver|]. by intros (q & []%on_path_of_nil & _). }
  destruct (wn_children n !! s) as [m|] eqn:E.
  - rewrite elem_of_union, elem_of_list_to_set, IH. split.
    + intros [H|(q & Hq & H)].
      * exists [s]. rewrite on_path_cons, subs_at_cons, E. naive_solver.
      * exists (s :: q). rewrite on_path_cons, subs_at_cons, E. naive_solver.
    + intros ([|r q] & Hq & H); [by apply on_path_nil in Hq|].
      apply on_path_cons in Hq as [-> [->|Hq]]; rewrite subs_at_cons, E in H; naive_solver.
  - split; [set_solver|]. intros ([|r q] & Hq & H); [by apply on_path_nil in Hq|].
    apply on_path_cons in Hq as [-> _]. rewrite subs_at_cons, E in H. by apply elem_of_nil in H.
Qed.

#[export] Hint Rewrite watchers_at_insert subs_at_watch_insert subs_at_insert watchers_at_prefix_insert
  watchers_at_remove subs_at_watch_remove subs_at_remove watchers_at_prefix_remove : warp.

(** ** The abstract bus *)

Record wspec := mkWSpec {
  ws_keys : gmap nat string;
  ws_prefixes : gmap nat (list Z);
  ws_next : nat;
}.

Inductive wop :=
| OpPublish (cx : ctx) (key : string) (data : list Byte.byte)
| OpPublishPrefix (cx : ctx) (prefix : string) (data : list Byte.byte)
| OpWatch (cx : ctx) (key : string)
| OpSubscribePrefix (cx : ctx) (prefix : string)
| OpUnwatch (cx : ctx) (key : string) (ch : nat)
| OpExpired (key : string) (ch : nat)
| OpRecv (ch : nat)
| OpClose (ch : nat).

Definition spec_unwatch (key : string) (ch : nat) (s : wspec) : wspec :=
  if decide (ws_keys s !! ch = Some key)
  then mkWSpec (delete ch (ws_keys s)) (ws_prefixes s) (ws_next s)
  else if decide (ws_prefixes s !! ch = Some (runes key))
  then mkWSpec (ws_keys s) (delete ch (ws_prefixes s)) (ws_next s)
  else s.

Definition spec_run (s : wspec) (op : wop) : wspec :=
  match op with
  | OpWatch cx key =>
      if cx 0%nat is Some _ then s
      else mkWSpec (<[ws_next s := key]> (ws_keys s)) (ws_prefixes s) (S (ws_next s))
  | OpSubscribePrefix cx prefix =>
      if cx 0%nat is Some _ then s
      else mkWSpec (ws_keys s) (<[ws_next s := runes prefix]> (ws_prefixes s)) (S (ws_next s))
  | OpUnwatch cx key ch => if cx 0%nat is Some _ then s else spec_unwatch key ch s
  | OpExpired key ch => spec_unwatch key ch s
  | OpPublish _ _ _ | OpPublishPrefix _ _ _ | OpRecv _ | OpClose _ => s
  end.

(** The channel watches the key, or subscribes to a non-empty prefix of it. *)
Definition wants (s : wspec) (key : string) (ch : nat) : Prop :=
  ws_keys s !! ch = Some key \/
  exists p, ws_prefixes s !! ch = Some p /\ on_path p (runes key).

(** The channel watches a key that has the non-empty prefix, or subscribes to
    this very prefix. *)
Definition wants_prefix (s : wspec) (prefix : string) (ch : nat) : Prop :=
  (exists k, ws_keys s !! ch = Some k /\ on_path (runes prefix) (runes k)) \/
  ws_prefixes s !! ch = Some (runes prefix).

(** ** Refinement *)

Definition watch_subs b (key : string) : list nat := default [] (w_subs b !! key).

Record watch_rel (b : InMemoryWatchBus) (s : wspec) : Prop := {
  wr_keys : forall k ch, ch ∈ watch_subs b k <-> ws_keys s !! ch = Some k;
  wr_keys_nodup : forall k, NoDup (watch_subs b k);
  wr_keys_nonempty : forall k, w_subs b !! k <> Some [];
  wr_watchers : forall p ch, ch ∈ watchers_at p (w_root b) <->
    exists k, ws_keys s !! ch = Some k /\ on_path p (runes k);
  wr_prefixes : forall p ch, ch ∈ subs_at p (w_root b) <-> ws_prefixes s !! ch = Some p;
  wr_prefixes_nodup : forall p, NoDup (subs_at p (w_root b));
  wr_next : w_next b = ws_next s;
  wr_fresh : forall ch, (ws_next s <= ch)%nat -> ws_keys s !! ch = None /\ ws_prefixes s !! ch = None;
}.

(** The parts of the state the relation reads. *)
Lemma watch_rel_ext b b' s :
  w_subs b' = w_subs b -> w_root b' = w_root b -> w_next b' = w_next b ->
  watch_rel b s -> watch_rel b' s.
Proof. intros Hs Hr Hn []. split; unfold watch_subs in *; rewrite ?Hs, ?Hr, ?Hn; done. Qed.

Lemma safeSend_static ch data b :
  w_subs (safeSend ch data b) = w_subs b /\ w_root (safeSend ch data b) = w_root b /\
  w_next (safeSend ch data b) = w_next b.
Proof. unfold safeSend. by repeat case_match. Qed.

Lemma send_all_rel cx i data chs b s :
  watch_rel b s -> watch_rel (fst (send_all cx i data chs b)) s.
Proof.
  revert i b. induction chs as [|ch chs IH]; intros i b H; simpl; [done|].
  destruct (cx i); [done|]. destruct (safeSend_static ch data b) as (?&?&?).
  by apply IH, (watch_rel_ext b).
Qed.

(** A fresh channel at the end of a slice without it. *)
Lemma NoDup_snoc (l : list nat) ch : NoDup l -> ch ∉ l -> NoDup (l ++ [ch]).
Proof.
  intros Hl Hc. apply NoDup_app. split_and!; [done| |apply NoDup_singleton].
  intros x Hx Hs%list_elem_of_singleton. by subst.
Qed.

Lemma remove_sub_spec ch l : NoDup l ->
  NoDup (remove_sub ch l) /\ forall x, x ∈ remove_sub ch l <-> x ∈ l /\ x <> ch.
Proof.
  intros Hl. unfold remove_sub. destruct (index_of ch l) as [i|] eqn:E.
  - apply index_of_Some in E. pose proof (swap_remove_perm _ _ _ E) as Hp.
    pose proof Hl as Hnd. rewrite <- Hp in Hnd. apply NoDup_cons in Hnd as [Hni Hnd].
    split; [done|]. intros x.
    assert (x ∈ l <-> x ∈ ch :: swap_remove i l) as -> by (by rewrite Hp).
    rewrite elem_of_cons. split; [intros Hx; split; [by right|by intros ->]|tauto].
  - apply index_of_None in E. split; [done|]. set_solver.
Qed.

Lemma Watch_rel cx key b s :
  watch_rel b s ->
  watch_rel (fst (InMemoryWatchBus_Watch cx key b)) (spec_run s (OpWatch cx key)).
Proof.
  intros H. unfold InMemoryWatchBus_Watch. simpl. destruct (cx 0%nat); [done|].
  destruct H as [Hk Hkn Hke Hw Hp Hpn Hn Hf]. simpl. rewrite <- Hn in *.
  destruct (Hf (w_next b)) as [Hf1 Hf2]; [lia|].
  assert (forall k ch, ws_keys s !! ch = Some k -> ch <> w_next b) as Hne by congruence.
  split; simpl; unfold watch_subs in *; simpl.
  - intros k ch. destruct (decide (k = key)) as [->|].
    + rewrite lookup_insert_eq. simpl. rewrite elem_of_app, list_elem_of_singleton, Hk.
      rewrite lookup_insert_Some. naive_solver.
    + rewrite lookup_insert_ne, Hk, lookup_insert_Some by done. naive_solver.
  - intros k. destruct (decide (k = key)) as [->|]; [|by rewrite lookup_insert_ne].
    rewrite lookup_insert_eq. apply NoDup_snoc; [done|]. rewrite Hk. congruence.
  - intros k. rewrite lookup_insert_Some. intros [[_ E]|[_ E]]; [|by eapply Hke].
    by destruct (default [] _).
  - intros p ch. autorewrite with warp. rewrite Hw. setoid_rewrite lookup_insert_Some. naive_solver.
  - intros p ch. autorewrite with warp. apply Hp.
  - intros p. autorewrite with warp. apply Hpn.
  - done.
  - intros ch Hch. rewrite lookup_insert_ne by lia. apply Hf. lia.
Qed.

Lemma SubscribePrefix_rel cx prefix b s :
  watch_rel b s ->
  watch_rel (fst (InMemoryWatchBus_SubscribePrefix cx prefix b)) (spec_run s (OpSubscribePrefix cx prefix)).
Proof.
  intros H. unfold InMemoryWatchBus_SubscribePrefix. simpl. destruct (cx 0%nat); [done|].
  destruct H as [Hk Hkn Hke Hw Hp Hpn Hn Hf]. simpl. rewrite <- Hn in *.
  destruct (Hf (w_next b)) as [Hf1 Hf2]; [lia|].
  split; simpl; try done.
  - intros p ch. autorewrite with warp. apply Hw.
  - intros p ch. autorewrite with warp. rewrite lookup_insert_Some. case_decide as Hd; subst.
    + rewrite elem_of_app, list_elem_of_singleton, Hp. naive_solver congruence.
    + rewrite Hp. naive_solver congruence.
  - intros p. autorewrite with warp. case_decide; [|done]. apply NoDup_snoc; [done|]. rewrite Hp. congruence.
  - intros ch Hch. rewrite lookup_insert_ne by lia. apply Hf. lia.
Qed.

(** [Unwatch] of a channel that watches the key. *)
Lemma Unwatch_key_rel key ch i b s :
  watch_rel b s -> index_of ch (watch_subs b key) = Some i ->
  let subs := swap_remove i (watch_subs b key) in
  watch_rel
    (set_windex b (if decide (subs = []) then delete key (w_subs b) else <[key := subs]> (w_subs b))
       (watch_remove (runes key) ch (w_root b)))
    (spec_unwatch key ch s).
Proof.
  intros [Hk Hkn Hke Hw Hp Hpn Hn Hf] E. simpl.
  pose proof (remove_sub_spec ch (watch_subs b key) (Hkn key)) as [Hnd Hin].
  unfold remove_sub in *. rewrite E in *.
  assert (ws_keys s !! ch = Some key) as Hch
    by (apply Hk; eapply list_elem_of_lookup_2; by apply index_of_Some).
  unfold spec_unwatch. rewrite (decide_True (P := ws_keys s !! ch = Some key)) by done. set (subs' := if decide (_ = []) then _ else _).
  assert (forall k, default [] (subs' !! k) =
    if decide (k = key) then swap_remove i (watch_subs b key) else watch_subs b k) as Hs.
  { intros k. unfold subs'. destruct (decide (k = key)) as [->|], (decide (_ = [])) as [Hz|].
    - by rewrite Hz, lookup_delete_eq.
    - by rewrite lookup_insert_eq.
    - unfold watch_subs; by rewrite lookup_delete_ne.
    - unfold watch_subs; by rewrite lookup_insert_ne. }
  split; simpl; try done; unfold watch_subs; simpl.
  - intros k x. rewrite Hs, lookup_delete_Some. case_decide; subst; [rewrite Hin|]; rewrite Hk; naive_solver.
  - intros k. rewrite Hs. by case_decide.
  - intros k. unfold subs'. case_decide; rewrite ?lookup_delete_Some, ?lookup_insert_Some; naive_solver.
  - intros p x. autorewrite with warp. rewrite Hw. setoid_rewrite lookup_delete_Some. naive_solver.
  - intros p x. autorewrite with warp. apply Hp.
  - intros p. autorewrite with warp. apply Hpn.
  - intros x Hx. rewrite lookup_delete_None. naive_solver.
Qed.

(** [Unwatch] of any other channel. *)
Lemma Unwatch_prefix_rel key ch b s :
  watch_rel b s -> ch ∉ watch_subs b key ->
  watch_rel (set_windex b (w_subs b) (prefix_remove (runes key) ch (w_root b))) (spec_unwatch key ch s).
Proof.
  intros [Hk Hkn Hke Hw Hp Hpn Hn Hf] Hni. rewrite Hk in Hni.
  pose proof (remove_sub_spec ch (subs_at (runes key) (w_root b)) (Hpn _)) as [Hnd Hin].
  assert (ws_keys (spec_unwatch key ch s) = ws_keys s /\ ws_next (spec_unwatch key ch s) = ws_next s /\
    forall x, ws_prefixes (spec_unwatch key ch s) !! x =
      if decide (x = ch /\ ws_prefixes s !! ch = Some (runes key)) then None else ws_prefixes s !! x)
    as (E1 & E2 & E3).
  { unfold spec_unwatch. rewrite decide_False by done. case_decide; split_and!; try done; intros x; simpl.
    - destruct (decide (x = ch)) as [->|]; [by rewrite lookup_delete_eq, decide_True|].
      rewrite lookup_delete_ne, decide_False by naive_solver. done.
    - by rewrite decide_False by naive_solver. }
  split; simpl; rewrite ?E1, ?E2; try done.
  - intros p x. autorewrite with warp. apply Hw.
  - intros p x. autorewrite with warp. rewrite E3. destruct (decide (p = runes key)) as [->|].
    + rewrite Hin, Hp. destruct (decide (x = ch /\ _)) as [[-> _]|Hd].
      * split; [by intros [_ ?]|done].
      * split; [by intros [? _]|]. intros Hx. split; [done|]. intros ->. by apply Hd.
    + rewrite Hp. destruct (decide (x = ch /\ _)) as [[-> Hd]|]; [|done]. rewrite Hd. split; [|done]. congruence.
  - intros p. autorewrite with warp. by destruct (decide (p = runes key)) as [->|].
  - intros x Hx. rewrite E3. split; [by apply Hf|].
    destruct (decide (x = ch /\ _)); [done|by apply Hf].
Qed.

Lemma Unwatch_rel cx key ch b s :
  watch_rel b s ->
  watch_rel (fst (InMemoryWatchBus_Unwatch cx key ch b)) (spec_run s (OpUnwatch cx key ch)).
Proof.
  intros H. unfold InMemoryWatchBus_Unwatch. simpl. destruct (cx 0%nat); [done|].
  change (default [] (w_subs b !! key)) with (watch_subs b key).
  destruct (index_of ch (watch_subs b key)) as [i|] eqn:E; simpl.
  - by apply Unwatch_key_rel.
  - apply Unwatch_prefix_rel; [done|]. by apply index_of_None.
Qed.

(** ** Publications *)

Lemma publish_targets_spec b s key ch :
  watch_rel b s -> ch ∈ publish_targets key b <-> wants s key ch.
Proof.
  intros H. unfold publish_targets, wants. rewrite elem_of_union, elem_of_list_to_set, match_subs_spec.
  change (default [] (w_subs b !! key)) with (watch_subs b key). rewrite (wr_keys _ _ H).
  setoid_rewrite (wr_prefixes _ _ H). naive_solver.
Qed.

Lemma prefix_targets_spec b s prefix ch :
  watch_rel b s -> ch ∈ prefix_targets prefix b <-> wants_prefix s prefix ch.
Proof.
  intros H. unfold wants_prefix. rewrite <- (wr_watchers _ _ H), <- (wr_prefixes _ _ H).
  unfold prefix_targets, watchers_at, subs_at. destruct (walk _ _); set_solver.
Qed.

(** What a publication leaves in a channel: an open channel without a message
    to receive gets this one. *)
Definition delivered_to (data : list Byte.byte) (c : wchan) : wchan :=
  if wc_closed c then c else if decide (wc_buffer c = []) then mkWChan [data] false else c.

Lemma safeSend_chan ch data b x :
  w_chans (safeSend ch data b) !! x =
    if decide (x = ch) then delivered_to data <$> w_chans b !! x else w_chans b !! x.
Proof.
  unfold safeSend, delivered_to. case_decide as Hx; [subst|].
  - destruct (w_chans b !! ch) as [[q cl]|] eqn:E; simpl; [|by rewrite E].
    destruct cl; [by rewrite E|]. destruct q; simpl; [by rewrite lookup_insert_eq|by rewrite E].
  - repeat case_match; simpl; try done. by rewrite lookup_insert_ne.
Qed.

Lemma send_all_live i data chs b :
  NoDup chs -> exists b', send_all Background i data chs b = (b', None) /\
    forall x, w_chans b' !! x =
      if decide (x ∈ chs) then delivered_to data <$> w_chans b !! x else w_chans b !! x.
Proof.
  revert i b. induction chs as [|ch chs IH]; intros i b Hnd; simpl.
  { by exists b. }
  apply NoDup_cons in Hnd as [Hni Hnd]. destruct (IH (S i) (safeSend ch data b) Hnd) as (b'&E&H).
  exists b'. split; [done|]. intros x. rewrite H, safeSend_chan.
  destruct (decide (x = ch)) as [->|Hne].
  - rewrite (decide_False (P := ch ∈ chs)), decide_True; [done|by left|done].
  - destruct (decide (x ∈ chs)); [rewrite decide_True by (by right)|rewrite decide_False by set_solver]; done.
Qed.

Lemma watch_rel_new : watch_rel NewInMemoryWatchBus (mkWSpec ∅ ∅ 0).
Proof.
  split; try done; unfold watch_subs; simpl.
  - intros k ch. rewrite !lookup_empty. simpl. split; [|done]. by intros ?%elem_of_nil.
  - intros k. rewrite lookup_empty. constructor.
  - intros p ch. rewrite (proj1 (at_newWatchNode p)). split; [set_solver|].
    intros (k & Hk & _). by rewrite lookup_empty in Hk.
  - intros p ch. rewrite (proj2 (at_newWatchNode p)), lookup_empty. split; [|done]. by intros ?%elem_of_nil.
  - intros p. rewrite (proj2 (at_newWatchNode p)). constructor.
Qed.

Section Order.
Context (order : gset nat -> list nat) (Horder : forall X, order X ≡ₚ elements X).

Definition wrun (b : InMemoryWatchBus) (op : wop) : InMemoryWatchBus :=
  match op with
  | OpPublish cx key data => fst (InMemoryWatchBus_Publish order cx key data b)
  | OpPublishPrefix cx prefix data => fst (InMemoryWatchBus_PublishPrefix order cx prefix data b)
  | OpWatch cx key => fst (InMemoryWatchBus_Watch cx key b)
  | OpSubscribePrefix cx prefix => fst (InMemoryWatchBus_SubscribePrefix cx prefix b)
  | OpUnwatch cx key ch => fst (InMemoryWatchBus_Unwatch cx key ch b)
  | OpExpired key ch => watch_expired key ch b
  | OpRecv ch => fst (wchan_recv ch b)
  | OpClose ch => wchan_close ch b
  end.

Lemma wrun_rel op b s : watch_rel b s -> watch_rel (wrun b op) (spec_run s op).
Proof.
  intros H. destruct op; simpl.
  - unfold InMemoryWatchBus_Publish. destruct (cx 0%nat); [done|]. by apply send_all_rel.
  - unfold InMemoryWatchBus_PublishPrefix. destruct (cx 0%nat); [done|]. by apply send_all_rel.
  - by apply Watch_rel.
  - by apply SubscribePrefix_rel.
  - by apply Unwatch_rel.
  - apply (Unwatch_rel Background). by eapply watch_rel_ext; [..|exact H].
  - unfold wchan_recv. repeat case_match; try done. by eapply watch_rel_ext; [..|exact H].
  - unfold wchan_close. repeat case_match; try done. by eapply watch_rel_ext; [..|exact H].
Qed.

Lemma runs_rel ops b s : watch_rel b s -> watch_rel (foldl wrun b ops) (foldl spec_run s ops).
Proof. revert b s. induction ops as [|op ops IH]; intros b s H; simpl; [done|]. by apply IH, wrun_rel. Qed.

Lemma order_nodup X : NoDup (order X).
Proof. rewrite Horder. apply NoDup_elements. Qed.

Lemma elem_of_order X x : x ∈ order X <-> x ∈ X.
Proof. rewrite Horder. apply elem_of_elements. Qed.

(** C28. The bus refines two finite maps. After any sequence of operations
    (watches, prefix subscriptions, cancellations by the client or by a
    context, publications, receives and closes by clients, each under any
    context) the slices of the index hold each watching channel once and under
    its key only, no key has an empty slice, every node of the trie lists
    exactly the watchers of the keys below it, and its subscribers are exactly
    those of its prefix. *)
Theorem WatchBus_refines ops :
  watch_rel (foldl wrun NewInMemoryWatchBus ops) (foldl spec_run (mkWSpec ∅ ∅ 0) ops).
Proof. apply runs_rel, watch_rel_new. Qed.

Lemma Publish_exact key data b s :
  watch_rel b s -> exists b', InMemoryWatchBus_Publish order Background key data b = (b', None) /\
    forall x, (wants s key x -> w_chans b' !! x = delivered_to data <$> w_chans b !! x) /\
              (~ wants s key x -> w_chans b' !! x = w_chans b !! x).
Proof.
  intros H. unfold InMemoryWatchBus_Publish. simpl.
  destruct (send_all_live 1 data (order (publish_targets key b)) b) as (b'&E&Hb); [apply order_nodup|].
  exists b'. split; [exact E|]. intros x. rewrite Hb, <- publish_targets_spec, <- elem_of_order by done.
  split; intros Hx; [by rewrite decide_True|by rewrite decide_False].
Qed.

Lemma PublishPrefix_exact prefix data b s :
  watch_rel b s -> exists b', InMemoryWatchBus_PublishPrefix order Background prefix data b = (b', None) /\
    forall x, (wants_prefix s prefix x -> w_chans b' !! x = delivered_to data <$> w_chans b !! x) /\
              (~ wants_prefix s prefix x -> w_chans b' !! x = w_chans b !! x).
Proof.
  intros H. unfold InMemoryWatchBus_PublishPrefix. simpl.
  destruct (send_all_live 1 data (order (prefix_targets prefix b)) b) as (b'&E&Hb); [apply order_nodup|].
  exists b'. split; [exact E|]. intros x. rewrite Hb, <- prefix_targets_spec, <- elem_of_order by done.
  split; intros Hx; [by rewrite decide_True|by rewrite decide_False].
Qed.

(** Publications reach exactly their audience. After any sequence of
    operations, [Publish] under a live context succeeds and offers the message
    to the watchers of the key and the subscribers of its non-empty prefixes,
    once each, and to no other channel; [PublishPrefix] does so for the
    watchers of keys with the (non-empty) prefix and the subscribers of this
    very prefix. A channel that is closed or still holds a message is left as
    it is. *)
Theorem WatchBus_publications_exact ops key prefix data :
  let b := foldl wrun NewInMemoryWatchBus ops in
  let s := foldl spec_run (mkWSpec ∅ ∅ 0) ops in
  (exists b', InMemoryWatchBus_Publish order Background key data b = (b', None) /\
     forall x, (wants s key x -> w_chans b' !! x = delivered_to data <$> w_chans b !! x) /\
               (~ wants s key x -> w_chans b' !! x = w_chans b !! x)) /\
  (exists b', InMemoryWatchBus_PublishPrefix order Background prefix data b = (b', None) /\
     forall x, (wants_prefix s prefix x -> w_chans b' !! x = delivered_to data <$> w_chans b !! x) /\
               (~ wants_prefix s prefix x -> w_chans b' !! x = w_chans b !! x)).
Proof.
  pose proof (runs_rel ops _ _ watch_rel_new) as H. split.
  - by apply Publish_exact.
  - by apply PublishPrefix_exact.
Qed.

(** A prefix subscription receives what is published under the prefix,
    byte for byte: for a prefix and a key in UTF-8, a channel obtained from
    [SubscribePrefix] after any history receives a message published for the
    key if and only if the prefix is not empty and is a prefix of the key's
    bytes. A subscription to the empty prefix receives nothing. *)
Theorem SubscribePrefix_receives ops prefix key data :
  ValidString prefix = true -> ValidString key = true ->
  exists b1 b2 ch,
    InMemoryWatchBus_SubscribePrefix Background prefix (foldl wrun NewInMemoryWatchBus ops) = (b1, Ok ch) /\
    InMemoryWatchBus_Publish order Background key data b1 = (b2, None) /\
    snd (wchan_recv ch b2) =
      if decide (prefix <> "" /\ string_bytes prefix `prefix_of` string_bytes key)
      then WReceived data else WBlocks.
Proof.
  intros Hp Hk. pose proof (runs_rel ops _ _ watch_rel_new) as H.
  set (b := foldl wrun _ _) in *. set (s := foldl spec_run _ _) in *.
  pose proof (SubscribePrefix_rel Background prefix b s H) as H1. simpl in H1.
  destruct (Publish_exact key data _ _ H1) as (b2 & E2 & Hb2). eexists _, b2, (w_next b).
  split; [done|]. split; [exact E2|]. destruct (Hb2 (w_next b)) as [Hin Hout]. unfold wchan_recv.
  unfold wants in *. simpl in *. rewrite (wr_next _ _ H), !lookup_insert_eq in Hin, Hout. simpl in *.
  rewrite (wr_next _ _ H). destruct (wr_fresh _ _ H (ws_next s)) as [Hf _]; [lia|]. rewrite Hf in Hin, Hout.
  destruct (decide (prefix <> "" /\ _)) as [[Hne Hpre]|Hd].
  - rewrite Hin; [done|]. right. exists (runes prefix). split; [done|].
    split; [by rewrite runes_nil|]. by apply runes_prefix.
  - rewrite Hout; [done|]. intros [?|(p & [= <-] & Hne & Hpre)]; [done|]. apply Hd.
    rewrite runes_nil in Hne. split; [done|]. by apply runes_prefix.
Qed.

End Order.

(** ** Witnesses *)

Definition watch_demo : list wop :=
  [OpWatch Background "user:1"; OpSubscribePrefix Background "user:"; OpSubscribePrefix Background "";
   OpWatch Background "user:2"; OpUnwatch Background "user:2" 3].

Lemma elements_order (X : gset nat) : elements X ≡ₚ elements X.
Proof. done. Qed.

Lemma WatchBus_publications_exact_witness :
  let b := foldl (wrun elements) NewInMemoryWatchBus watch_demo in
  exists b', InMemoryWatchBus_Publish elements Background "user:1" [Byte.x01] b = (b', None) /\
    w_chans b' !! 1%nat = Some (mkWChan [[Byte.x01]] false) /\ w_chans b' !! 2%nat = Some (mkWChan [] false).
Proof.
  destruct (WatchBus_publications_exact elements elements_order watch_demo "user:1" "user:" [Byte.x01])
    as [(b' & E & Hb) _]. exists b'. split; [exact E|]. split.
  - rewrite (proj1 (Hb 1%nat)); [reflexivity|]. right. exists (runes "user:"). split; [reflexivity|].
    split; [discriminate|]. decide_closed.
  - rewrite (proj2 (Hb 2%nat)); [reflexivity|]. intros [E2|(p & E2 & Hp & _)]; [discriminate E2|].
    apply Hp. symmetry. by injection E2.
Defined.

Lemma SubscribePrefix_receives_witness :
  exists b1 b2 ch,
    InMemoryWatchBus_SubscribePrefix Background "" (foldl (wrun elements) NewInMemoryWatchBus watch_demo)
      = (b1, Ok ch) /\
    InMemoryWatchBus_Publish elements Background "user:1" [Byte.x01] b1 = (b2, None) /\
    snd (wchan_recv ch b2) = WBlocks.
Proof.
  destruct (SubscribePrefix_receives elements elements_order watch_demo "" "user:1" [Byte.x01])
    as (b1 & b2 & ch & E1 & E2 & E3); [reflexivity..|].
  exists b1, b2, ch. split; [exact E1|]. split; [exact E2|]. rewrite E3.
  rewrite decide_False; [reflexivity|]. by intros [[] _].
Defined.
