(* ===== verification/WatchHttp.v ===== *)
(** * WatchHttp: the HTTP handlers of the watch bus

    Models [SSEHandler] and [WebSocketHandler] of [src/watchbus/http.go] over
    any watch bus: the checks before the stream, and one iteration of the loop
    that forwards messages. The response is the list of what was written; the
    errors of writes and of the upgrade, and whether the writer can flush, are
    arguments. *)

From S2P Require Import Prelude Bytes Utf8 WatchBus WatchProps.

(** The handler has returned, with a status if it refused the request; or it
    streams from a channel. *)
Inductive http_state := HttpDone (status : option Z) | HttpStreaming (ch : nat).

Section Handlers.
Context {B : Type} (WB : WatchBus B).
Implicit Types bus : B.

(** [defer func() { cancel(); _ = bus.Unwatch(...) }()] *)
Definition handler_exit (key : string) (ch : nat) bus : B := fst (wb_Unwatch Background key ch bus).

Definition SSEHandler_start (cx : ctx) (key : string) (flusher : bool) bus : B * http_state :=
  if decide (key = "") then (bus, HttpDone (Some 400))
  else
    let '(bus, r) := wb_Watch cx key bus in
    match r with
    | Err _ => (bus, HttpDone (Some 500))
    | Ok ch => if flusher then (bus, HttpStreaming ch) else (handler_exit key ch bus, HttpDone (Some 500))
    end.

Definition WebSocketHandler_start (cx : ctx) (key : string) (upgrade : option error) bus : B * http_state :=
  if decide (key = "") then (bus, HttpDone (Some 400))
  else match upgrade with
  | Some _ => (bus, HttpDone None)
  | None =>
      let '(bus, r) := wb_Watch cx key bus in
      match r with
      | Err _ => (bus, HttpDone None)
      | Ok ch => (bus, HttpStreaming ch)
      end
  end.

(** One iteration of the loop: [render] makes the bytes of a message; [pick]
    decides the select when both cases are ready; [werr] is the error of the
    write. *)
Definition stream_turn (render : list Byte.byte -> list Byte.byte) (cx : ctx) (pick : bool)
    (werr : option error) (key : string) (ch : nat) (st : B * list (list Byte.byte))
    : (B * list (list Byte.byte)) * http_state :=
  let '(bus, out) := st in
  let '(bus', r) := wb_recv ch bus in
  let receive :=
    match r with
    | WReceived msg =>
        match werr with
        | Some _ => ((handler_exit key ch bus', out), HttpDone None)
        | None => ((bus', out ++ [render msg]), HttpStreaming ch)
        end
    | WClosed => ((handler_exit key ch bus', out), HttpDone None)
    | WBlocks => ((bus, out), HttpStreaming ch)
    end in
  let done := ((handler_exit key ch bus, out), HttpDone None) in
  match cx 0%nat, r with
  | None, _ => receive
  | Some _, WBlocks => done
  | Some _, _ => if pick then receive else done
  end.

(** [fmt.Fprintf(w, "data: %s\n\n", msg)] *)
Definition sse_chunk (msg : list Byte.byte) : list Byte.byte :=
  string_bytes "data: " ++ msg ++ [Byte.x0a; Byte.x0a].

Definition SSEHandler_turn := stream_turn sse_chunk.
Definition WebSocketHandler_turn := stream_turn (fun msg => msg).

End Handlers.

(** ** The handlers release their watch *)

Section Release.
Variable order : gset nat -> list nat.
Let WB := InMemoryWatchBus_WatchBus order.

(** The channel watches the key, or nothing, and is no prefix subscription. *)
Definition watches_only (s : wspec) (ch : nat) (key : string) : Prop :=
  (ws_keys s !! ch = Some key \/ ws_keys s !! ch = None) /\ ws_prefixes s !! ch = None.

Lemma handler_exit_unwatches key ch b s :
  watch_rel b s -> watches_only s ch key ->
  exists s', watch_rel (handler_exit WB key ch b) s' /\ ws_keys s' !! ch = None /\ ws_prefixes s' !! ch = None.
Proof.
  intros H [Hk Hp]. exists (spec_run s (OpUnwatch Background key ch)).
  split; [by apply (Unwatch_rel Background)|]. simpl. unfold spec_unwatch. destruct Hk as [Hk|Hk].
  - rewrite decide_True by done. simpl. by rewrite lookup_delete_eq.
  - rewrite !decide_False by congruence. done.
Qed.

Lemma wchan_recv_rel ch b s : watch_rel b s -> watch_rel (fst (wchan_recv ch b)) s.
Proof. intros H. exact (wrun_rel order (OpRecv ch) b s H). Qed.

(** However a streaming handler ends (a closed channel, a failed write, a
    context that is done), its channel no longer watches; as long as it goes
    on, every message it took from the channel was written, in order. *)
Theorem stream_turn_correct render cx pick werr key ch b out s :
  watch_rel b s -> watches_only s ch key ->
  let '((b', out'), st) := stream_turn WB render cx pick werr key ch (b, out) in
  match st with
  | HttpDone _ => out' = out /\ exists s', watch_rel b' s' /\ ws_keys s' !! ch = None /\ ws_prefixes s' !! ch = None
  | HttpStreaming ch' => ch' = ch /\ watch_rel b' s /\
      match snd (wchan_recv ch b) with
      | WReceived msg => b' = fst (wchan_recv ch b) /\ out' = out ++ [render msg]
      | _ => b' = b /\ out' = out
      end
  end.
Proof.
  intros H Hw. pose proof (wchan_recv_rel ch b s H) as Hr.
  pose proof (handler_exit_unwatches key ch b s H Hw) as He.
  pose proof (handler_exit_unwatches key ch _ s Hr Hw) as He'.
  unfold stream_turn. simpl. destruct (wchan_recv ch b) as [b1 r] eqn:E. simpl in *.
  assert (r = WBlocks -> b1 = b) as Hb.
  { intros ->. unfold wchan_recv in E. repeat case_match; by simplify_eq. }
  destruct (cx 0%nat), r; [destruct pick|destruct pick| | | |]; try (destruct werr); split_and!; done || auto.
Qed.

(** A handler whose response cannot be flushed gives its watch back. *)
Theorem SSEHandler_start_correct cx key flusher b s :
  watch_rel b s ->
  match SSEHandler_start WB cx key flusher b with
  | (b', HttpStreaming ch) => key <> "" /\ flusher = true /\
      exists s', watch_rel b' s' /\ ws_keys s' = <[ch := key]> (ws_keys s)
  | (b', HttpDone status) => exists s', watch_rel b' s' /\ ws_keys s' = ws_keys s /\
      status = Some (if decide (key = "") then 400 else 500)
  end.
Proof.
  intros H. pose proof (Watch_rel cx key b s H) as Hw. pose proof (wr_fresh _ _ H (ws_next s)) as Hf.
  unfold SSEHandler_start. case_decide as Hkey; [by exists s|].
  change (wb_Watch cx key b) with (InMemoryWatchBus_Watch cx key b). unfold InMemoryWatchBus_Watch in *.
  simpl in Hw. destruct (cx 0%nat); [by exists s|]. simpl in *. rewrite (wr_next _ _ H) in *.
  destruct (Hf ltac:(lia)) as [Hf1 Hf2]. destruct flusher.
  - split_and!; try done. by eexists.
  - eexists. split; [exact (Unwatch_rel Background key (ws_next s) _ _ Hw)|]. simpl. unfold spec_unwatch.
    rewrite decide_True by (simpl; by rewrite lookup_insert_eq). simpl. by rewrite delete_insert_id.
Qed.

End Release.
