(* ===== verification/NatsWatch.v ===== *)
(** * NatsWatch: the watch bus over NATS

    Models [src/watchbus/nats_watchbus.go]. The NATS client is outside the
    model: [matches] says which subjects a subscription covers, the errors its
    calls meet are arguments, the messages it accepted are results, and
    [nw_live] are the subscriptions it delivers for, one per channel. The order
    in which Go iterates over a map is an argument. [Unwatch] closes its channel
    and ends the subscription after its critical section, in two steps. *)

From S2P Require Import Prelude WatchBus.

(** [nw_waiting]: the goroutines that wait for the context of a subscription;
    [nw_ending]: the calls of [Unwatch] past their critical section, with whether
    they have closed the channel; [nw_panicked] is set by a send on or a close of
    a closed channel. *)
Record NATSWatchBus := mkNW {
  nw_watches : gmap string (gset nat);
  nw_prefixWatches : gmap string (gset nat);
  nw_live : gmap nat string;
  nw_chans : gmap nat wchan;
  nw_next : nat;
  nw_waiting : list (string * nat);
  nw_ending : gmap nat bool;
  nw_panicked : bool;
}.

Definition NewNATSWatchBus : NATSWatchBus := mkNW ∅ ∅ ∅ ∅ 0 [] ∅ false.

Definition nats_msg : Type := string * list Byte.byte.

Section NatsWatch.
Variable matches : string -> string -> bool.
Implicit Types b : NATSWatchBus.

Definition NATSWatchBus_Publish (cx : ctx) (pub_err : option error) (key : string) (data : list Byte.byte)
    : option error * list nats_msg :=
  match cx 0%nat with
  | Some e => (Some e, [])
  | None => (pub_err, match pub_err with None => [(key, data)] | Some _ => [] end)
  end.

(** The loop over the keys; [i] numbers the polls of the context, [pub_err] the
    errors of the publications. *)
Fixpoint nw_publish_keys (cx : ctx) (pub_err : nat -> option error) (i : nat) (data : list Byte.byte) (keys : list string)
    : option error * list nats_msg :=
  match keys with
  | [] => (None, [])
  | k :: keys =>
      match cx i with
      | Some e => (Some e, [])
      | None =>
          match pub_err i with
          | Some e => (Some e, [])
          | None => let '(err, sent) := nw_publish_keys cx pub_err (S i) data keys in (err, (k, data) :: sent)
          end
      end
  end.

Definition nw_prefix_keys (order : gmap string (gset nat) -> list string) (prefix : string) b : list string :=
  filter (fun k => String.prefix prefix k = true) (order (nw_watches b)).

Definition NATSWatchBus_PublishPrefix (order : gmap string (gset nat) -> list string) (cx : ctx)
    (pub_err : nat -> option error) (prefix : string) (data : list Byte.byte) b : option error * list nats_msg :=
  match cx 0%nat with
  | Some e => (Some e, [])
  | None => nw_publish_keys cx pub_err 1 data (nw_prefix_keys order prefix b)
  end.

(** [make(chan []byte, 1)], [conn.Subscribe] and the goroutine that waits for the
    context. *)
Definition nw_open (key subject : string) b : NATSWatchBus :=
  mkNW (nw_watches b) (nw_prefixWatches b) (<[nw_next b := subject]> (nw_live b))
    (<[nw_next b := mkWChan [] false]> (nw_chans b)) (S (nw_next b)) ((key, nw_next b) :: nw_waiting b) (nw_ending b)
    (nw_panicked b).

Definition set_nw_maps b w p : NATSWatchBus :=
  mkNW w p (nw_live b) (nw_chans b) (nw_next b) (nw_waiting b) (nw_ending b) (nw_panicked b).

Definition add_chan (key : string) (ch : nat) (m : gmap string (gset nat)) : gmap string (gset nat) :=
  <[key := {[ch]} ∪ default ∅ (m !! key)]> m.

Definition NATSWatchBus_Watch (cx : ctx) (sub_err : option error) (key : string) b : NATSWatchBus * res nat :=
  match cx 0%nat with
  | Some e => (b, Err e)
  | None =>
      match sub_err with
      | Some e => (b, Err e)
      | None =>
          let ch := nw_next b in
          (set_nw_maps (nw_open key key b) (add_chan key ch (nw_watches b)) (nw_prefixWatches b), Ok ch)
      end
  end.

Definition NATSWatchBus_SubscribePrefix (cx : ctx) (sub_err : option error) (prefix : string) b
    : NATSWatchBus * res nat :=
  match cx 0%nat with
  | Some e => (b, Err e)
  | None =>
      match sub_err with
      | Some e => (b, Err e)
      | None =>
          let ch := nw_next b in
          (set_nw_maps (nw_open prefix (prefix ++ ".>")%string b) (nw_watches b) (add_chan prefix ch (nw_prefixWatches b)),
           Ok ch)
      end
  end.

(** [delete(m, ch); if len(m) == 0 { delete(b.watches, key) }] *)
Definition del_chan (key : string) (ch : nat) (m : gmap string (gset nat)) : gmap string (gset nat) :=
  let chs := default ∅ (m !! key) ∖ {[ch]} in
  if decide (chs = ∅) then delete key m else <[key := chs]> m.

Definition watched (key : string) (ch : nat) (m : gmap string (gset nat)) : Prop := ch ∈ default ∅ (m !! key).
#[export] Instance watched_dec key ch m : Decision (watched key ch m) := ltac:(unfold watched; apply _).

Definition nw_end (ch : nat) (closed : bool) b : NATSWatchBus :=
  mkNW (nw_watches b) (nw_prefixWatches b) (nw_live b) (nw_chans b) (nw_next b) (nw_waiting b)
    (<[ch := closed]> (nw_ending b)) (nw_panicked b).

(** The critical section of [Unwatch]: whether the rest follows. *)
Definition nw_unwatch_begin (key : string) (ch : nat) b : NATSWatchBus * bool :=
  if decide (watched key ch (nw_watches b)) then
    (nw_end ch false (set_nw_maps b (del_chan key ch (nw_watches b)) (nw_prefixWatches b)), true)
  else if decide (watched key ch (nw_prefixWatches b)) then
    (nw_end ch false (set_nw_maps b (nw_watches b) (del_chan key ch (nw_prefixWatches b))), true)
  else (b, false).

Definition set_nw_chan b (ch : nat) (c : wchan) : NATSWatchBus :=
  mkNW (nw_watches b) (nw_prefixWatches b) (nw_live b) (<[ch := c]> (nw_chans b)) (nw_next b) (nw_waiting b)
    (nw_ending b) (nw_panicked b).
Definition nw_panic b : NATSWatchBus :=
  mkNW (nw_watches b) (nw_prefixWatches b) (nw_live b) (nw_chans b) (nw_next b) (nw_waiting b) (nw_ending b) true.

(** [close(ch)] *)
Definition nw_unwatch_close (ch : nat) b : NATSWatchBus :=
  match nw_chans b !! ch with
  | None => b
  | Some c => if wc_closed c then nw_panic b else nw_end ch true (set_nw_chan b ch (mkWChan (wc_buffer c) true))
  end.

(** [sub.Unsubscribe()] *)
Definition nw_unwatch_end (ch : nat) b : NATSWatchBus :=
  mkNW (nw_watches b) (nw_prefixWatches b) (delete ch (nw_live b)) (nw_chans b) (nw_next b) (nw_waiting b)
    (delete ch (nw_ending b)) (nw_panicked b).

Definition NATSWatchBus_Unwatch (cx : ctx) (unsub_err : option error) (key : string) (ch : nat) b
    : NATSWatchBus * option error :=
  match cx 0%nat with
  | Some e => (b, Some e)
  | None =>
      let '(b, found) := nw_unwatch_begin key ch b in
      if found then (nw_unwatch_end ch (nw_unwatch_close ch b), unsub_err) else (b, None)
  end.

(** The handler of a subscription: a non-blocking send. *)
Definition nw_handler (ch : nat) (data : list Byte.byte) b : NATSWatchBus :=
  match nw_chans b !! ch with
  | None => b
  | Some c =>
      if wc_closed c then nw_panic b
      else if (length (wc_buffer c) <? 1)%nat then set_nw_chan b ch (mkWChan (wc_buffer c ++ [data]) false)
      else b
  end.

(** The handlers a message calls. *)
Definition nw_message (subject : string) (data : list Byte.byte) b : NATSWatchBus :=
  foldl (fun b ch => nw_handler ch data b) b
    (filter (fun ch => from_option (fun p => matches p subject) false (nw_live b !! ch) = true)
       (map_to_list (nw_live b)).*1).

Definition nw_recv (ch : nat) b : NATSWatchBus * wrecv :=
  match nw_chans b !! ch with
  | None => (b, WBlocks)
  | Some c =>
      match wc_buffer c with
      | d :: q => (set_nw_chan b ch (mkWChan q (wc_closed c)), WReceived d)
      | [] => (b, if wc_closed c then WClosed else WBlocks)
      end
  end.

(** ** Interleavings *)

Inductive nw_step : NATSWatchBus -> NATSWatchBus -> Prop :=
| nw_step_watch cx e key b : nw_step b (fst (NATSWatchBus_Watch cx e key b))
| nw_step_prefix cx e prefix b : nw_step b (fst (NATSWatchBus_SubscribePrefix cx e prefix b))
| nw_step_unwatch key ch b : nw_step b (fst (nw_unwatch_begin key ch b))
| nw_step_close ch b : nw_ending b !! ch = Some false -> nw_step b (nw_unwatch_close ch b)
| nw_step_end ch b : nw_ending b !! ch = Some true -> nw_step b (nw_unwatch_end ch b)
| nw_step_message subject data b : nw_step b (nw_message subject data b)
| nw_step_recv ch b : nw_step b (fst (nw_recv ch b)).

End NatsWatch.

(** ** Handlers *)

Section Handlers.
Implicit Types b : NATSWatchBus.

(** What a handler makes of a channel. *)
Definition offered (data : list Byte.byte) (c : wchan) : wchan :=
  if wc_closed c then c else if decide (wc_buffer c = []) then mkWChan [data] false else c.

Record handled (data : list Byte.byte) (chs : list nat) b b' : Prop := {
  hd_watches : nw_watches b' = nw_watches b;
  hd_prefix : nw_prefixWatches b' = nw_prefixWatches b;
  hd_live : nw_live b' = nw_live b;
  hd_next : nw_next b' = nw_next b;
  hd_ending : nw_ending b' = nw_ending b;
  hd_chans : forall ch,
    nw_chans b' !! ch = if decide (ch ∈ chs) then offered data <$> nw_chans b !! ch else nw_chans b !! ch;
  hd_panicked : nw_panicked b' = true <-> nw_panicked b = true \/
    exists ch c, ch ∈ chs /\ nw_chans b !! ch = Some c /\ wc_closed c = true;
}.

Lemma nw_handler_handled data ch b : handled data [ch] b (nw_handler ch data b).
Proof.
  assert (forall ch', ch' ∈ [ch] -> ch' = ch) as Hs by set_solver.
  assert (forall c, nw_chans b !! ch = c -> forall ch',
    (if decide (ch' ∈ [ch]) then offered data <$> nw_chans b !! ch' else nw_chans b !! ch') =
    if decide (ch' = ch) then offered data <$> c else nw_chans b !! ch') as Hc.
  { intros c E ch'. destruct (decide (ch' ∈ [ch])) as [->%Hs|Hin]; [by rewrite decide_True, E|].
    by rewrite decide_False by set_solver. }
  unfold nw_handler. destruct (nw_chans b !! ch) as [c|] eqn:E.
  2: { split; try done; [intros ch'; rewrite (Hc _ eq_refl); by case_decide; subst|].
       split; [by left|]. intros [?|(ch' & c & ->%Hs & ? & _)]; congruence. }
  assert (wc_closed c = false -> forall P : Prop, (P <-> P \/
    exists ch' c', ch' ∈ [ch] /\ nw_chans b !! ch' = Some c' /\ wc_closed c' = true)) as Hp.
  { intros Hf P. split; [tauto|]. intros [?|(ch' & c' & ->%Hs & ? & ?)]; [done|]. congruence. }
  specialize (Hc _ eq_refl). unfold offered in Hc. simpl in Hc. destruct (wc_closed c) eqn:Ecl.
  - split; try done; [intros ch'; rewrite Hc; by case_decide; subst|].
    simpl. split; [intros _; right; exists ch, c; set_solver|done].
  - destruct c as [[|d q] cl]; simpl in *; split; try done; try exact (Hp eq_refl _); intros ch'; rewrite Hc.
    + simpl. case_decide; subst; [by rewrite lookup_insert_eq|by rewrite lookup_insert_ne].
    + by case_decide; subst.
Qed.

Lemma nw_handlers_handled data chs b : NoDup chs -> handled data chs b (foldl (fun b ch => nw_handler ch data b) b chs).
Proof.
  revert b. induction chs as [|ch chs IH]; intros b Hnd.
  { split; try done. split; [by left|]. intros [?|(ch & c & []%elem_of_nil & _)]. done. }
  apply NoDup_cons in Hnd as [Hn Hnd]. cbn [foldl].
  destruct (nw_handler_handled data ch b) as [W P L X E C F].
  destruct (IH (nw_handler ch data b) Hnd) as [W' P' L' X' E' C' F'].
  split; try congruence.
  - intros c. rewrite C', C.
    destruct (decide (c ∈ chs)), (decide (c ∈ [ch])), (decide (c ∈ ch :: chs)); done || set_solver.
  - rewrite F', F. split.
    + intros [[?|(c & x & Hc & H1 & H2)]|(c & x & Hc & H1 & H2)]; [by left| |]; right; exists c, x.
      * set_solver.
      * rewrite C in H1. rewrite decide_False in H1 by set_solver. set_solver.
    + intros [?|(c & x & [->|Hc]%elem_of_cons & H1 & H2)]; [by left; left|left; right; exists ch, x; set_solver|].
      right. exists c, x. rewrite C, decide_False by set_solver. done.
Qed.

End Handlers.

(** ** Invariant *)

Section Invariant.
Variable matches : string -> string -> bool.
Implicit Types b : NATSWatchBus.

(** The subject a channel was subscribed with, from the map that has it. *)
Definition nw_has b (ch : nat) (subject : string) : Prop :=
  (exists key, watched key ch (nw_watches b) /\ subject = key) \/
  (exists prefix, watched prefix ch (nw_prefixWatches b) /\ subject = (prefix ++ ".>")%string).

Record nw_inv b : Prop := {
  ni_has : forall ch s, nw_has b ch s -> nw_live b !! ch = Some s /\ nw_ending b !! ch = None;
  ni_one : forall ch k k', watched k ch (nw_watches b) -> watched k' ch (nw_prefixWatches b) -> False;
  ni_key : forall ch k k', watched k ch (nw_watches b) -> watched k' ch (nw_watches b) -> k = k';
  ni_pre : forall ch k k', watched k ch (nw_prefixWatches b) -> watched k' ch (nw_prefixWatches b) -> k = k';
  ni_live : forall ch s, nw_live b !! ch = Some s ->
    exists c, nw_chans b !! ch = Some c /\ (wc_closed c = true <-> nw_ending b !! ch = Some true);
  ni_ending : forall ch x, nw_ending b !! ch = Some x -> is_Some (nw_live b !! ch);
  ni_fresh : forall ch, is_Some (nw_chans b !! ch) -> (ch < nw_next b)%nat;
}.

Lemma watched_add key ch m k c : watched k c (add_chan key ch m) <-> watched k c m \/ (k = key /\ c = ch).
Proof.
  unfold watched, add_chan. destruct (decide (k = key)) as [->|]; [rewrite lookup_insert_eq; set_solver|].
  rewrite lookup_insert_ne by done. naive_solver.
Qed.

Lemma watched_del key ch m k c : watched k c (del_chan key ch m) <-> watched k c m /\ ~ (k = key /\ c = ch).
Proof.
  unfold watched, del_chan. destruct (decide _) as [E|E].
  - destruct (decide (k = key)) as [->|]; [rewrite lookup_delete_eq|rewrite lookup_delete_ne by done; naive_solver].
    simpl. split; [set_solver|]. intros [Hc Hn]. assert (c <> ch) by naive_solver. set_solver.
  - destruct (decide (k = key)) as [->|]; [rewrite lookup_insert_eq; set_solver|].
    rewrite lookup_insert_ne by done. naive_solver.
Qed.

Lemma nw_live_below b ch s : nw_inv b -> nw_live b !! ch = Some s -> (ch < nw_next b)%nat.
Proof. intros H Hl. destruct (ni_live b H ch s Hl) as (c & Hc & _). apply H. by eexists. Qed.

Lemma nw_has_below b ch s : nw_inv b -> nw_has b ch s -> (ch < nw_next b)%nat.
Proof. intros H Hh. destruct (ni_has b H ch s Hh). by eapply nw_live_below. Qed.

(** A new channel, entered in one of the maps. *)
Lemma nw_open_inv b w p key subject :
  nw_inv b -> (w, p) = (add_chan key (nw_next b) (nw_watches b), nw_prefixWatches b) /\ subject = key \/
    (w, p) = (nw_watches b, add_chan key (nw_next b) (nw_prefixWatches b)) /\ subject = (key ++ ".>")%string ->
  nw_inv (set_nw_maps (nw_open key subject b) w p).
Proof.
  intros H Hm. assert (forall k c, watched k c (nw_watches b) -> (c < nw_next b)%nat) as Hw.
  { intros k c Hc. apply (nw_has_below b c k H). left. by exists k. }
  assert (forall k c, watched k c (nw_prefixWatches b) -> (c < nw_next b)%nat) as Hp.
  { intros k c Hc. apply (nw_has_below b c (k ++ ".>")%string H). right. by exists k. }
  assert (nw_ending b !! nw_next b = None) as He.
  { destruct (nw_ending b !! nw_next b) eqn:E; [|done]. apply H in E as [s E]. apply (nw_live_below b) in E; [lia|done]. }
  assert (forall ch s, nw_has (set_nw_maps (nw_open key subject b) w p) ch s -> nw_has b ch s \/ (ch = nw_next b /\ s = subject)) as Hh.
  { intros ch s. unfold nw_has. simpl. destruct Hm as [[[= -> ->] ->]|[[= -> ->] ->]];
      intros [(k & Hk & ->)|(k & Hk & ->)]; rewrite ?watched_add in Hk; destruct_or?; naive_solver. }
  split; simpl.
  - intros ch s [Hc|[-> ->]]%Hh; [|by rewrite lookup_insert_eq]. pose proof (nw_has_below b ch s H Hc).
    rewrite lookup_insert_ne by lia. by apply H.
  - intros ch k k'. destruct Hm as [[[= -> ->] _]|[[= -> ->] _]]; rewrite watched_add; intros Ha Hb.
    + destruct Ha as [Ha|[-> ->]]; [by eapply H|]. apply Hp in Hb. lia.
    + destruct Hb as [Hb|[-> ->]]; [by eapply H|]. apply Hw in Ha. lia.
  - intros ch k k'. destruct Hm as [[[= -> ->] _]|[[= -> ->] _]]; [rewrite !watched_add|by apply H].
    intros [Ha|[-> ->]] [Hb|[-> E]]; [by eapply H| | |done]; [subst; apply Hw in Ha|apply Hw in Hb]; lia.
  - intros ch k k'. destruct Hm as [[[= -> ->] _]|[[= -> ->] _]]; [by apply (ni_pre b H)|rewrite !watched_add].
    intros [Ha|[-> ->]] [Hb|[-> E]]; [by eapply (ni_pre b H)| | |done]; [subst; apply Hp in Ha|apply Hp in Hb]; lia.
  - intros ch s. destruct (decide (ch = nw_next b)) as [->|].
    + rewrite !lookup_insert_eq. intros _. eexists. split; [done|]. simpl. rewrite He. by split.
    + rewrite !lookup_insert_ne by done. by apply H.
  - intros ch x Hx. destruct (decide (ch = nw_next b)) as [->|]; [congruence|]. rewrite lookup_insert_ne by done. by eapply H.
  - intros ch. destruct (decide (ch = nw_next b)) as [->|]; [lia|]. rewrite lookup_insert_ne by done. intros Hc%H. lia.
Qed.

(** A channel leaves the maps. *)
Lemma nw_leave_inv b w p ch s :
  nw_inv b -> nw_has b ch s ->
  (forall k c, watched k c w -> watched k c (nw_watches b) /\ c <> ch) ->
  (forall k c, watched k c p -> watched k c (nw_prefixWatches b) /\ c <> ch) ->
  nw_inv (nw_end ch false (set_nw_maps b w p)).
Proof.
  intros H Hh Hw Hp. destruct (ni_has b H ch s Hh) as [Hl He]. split; simpl.
  - intros c s' Hc. assert (nw_has b c s' /\ c <> ch) as [Hc' Hne].
    { destruct Hc as [(k & [Hk ?]%Hw & ->)|(k & [Hk ?]%Hp & ->)]; (split; [|done]); [left|right]; by exists k. }
    rewrite lookup_insert_ne by done. by apply H.
  - intros c k k' [Ha _]%Hw [Hb _]%Hp. by eapply (ni_one b H).
  - intros c k k' [Ha _]%Hw [Hb _]%Hw. by eapply (ni_key b H).
  - intros c k k' [Ha _]%Hp [Hb _]%Hp. by eapply (ni_pre b H).
  - intros c s' Hc. destruct (ni_live b H c s' Hc) as (x & Hx & Hcl). exists x. split; [done|].
    destruct (decide (c = ch)) as [->|]; [|by rewrite lookup_insert_ne]. rewrite lookup_insert_eq, Hcl, He. by split.
  - intros c x. destruct (decide (c = ch)) as [->|]; [intros _; by eexists|].
    rewrite lookup_insert_ne by done. apply (ni_ending b H).
  - apply H.
Qed.

Lemma nw_unwatch_begin_inv key ch b : nw_inv b -> nw_inv (fst (nw_unwatch_begin key ch b)).
Proof.
  intros H. unfold nw_unwatch_begin. destruct (decide (watched key ch (nw_watches b))) as [Hw|Hw].
  - apply (nw_leave_inv b _ _ ch key); [done|left; by exists key|..].
    + intros k c [Hk Hn]%watched_del. split; [done|]. intros ->. apply Hn. split; [|done]. by eapply (ni_key b H).
    + intros k c Hk. split; [done|]. intros ->. by eapply (ni_one b H).
  - destruct (decide (watched key ch (nw_prefixWatches b))) as [Hp|]; [|done].
    apply (nw_leave_inv b _ _ ch (key ++ ".>")%string); [done|right; by exists key|..].
    + intros k c Hk. split; [done|]. intros ->. by eapply (ni_one b H).
    + intros k c [Hk Hn]%watched_del. split; [done|]. intros ->. apply Hn. split; [|done]. by eapply (ni_pre b H).
Qed.

Lemma nw_unwatch_close_inv ch b : nw_ending b !! ch = Some false -> nw_inv b ->
  nw_inv (nw_unwatch_close ch b) /\ nw_panicked (nw_unwatch_close ch b) = nw_panicked b.
Proof.
  intros He H. destruct (ni_ending b H ch false He) as [s Hl]. destruct (ni_live b H ch s Hl) as (c & Hc & Hcl).
  unfold nw_unwatch_close. rewrite Hc.
  assert (wc_closed c = false) as -> by (destruct (wc_closed c); [destruct Hcl as [Hcl _]; specialize (Hcl eq_refl); congruence|done]).
  split; [|done]. split; simpl; try apply H.
  - intros c' s' Hh. destruct (ni_has b H c' s' Hh) as [Hl' He']. split; [done|].
    rewrite lookup_insert_ne; [done|]. intros <-. congruence.
  - intros c' s' Hl'. destruct (decide (c' = ch)) as [->|].
    + rewrite !lookup_insert_eq. eexists. split; [done|]. by split.
    + rewrite !lookup_insert_ne by done. by eapply H.
  - intros c' x. destruct (decide (c' = ch)) as [->|]; [intros _; by eexists|].
    rewrite lookup_insert_ne by done. apply (ni_ending b H).
  - intros c'. destruct (decide (c' = ch)) as [->|]; [intros _; apply H; by eexists|].
    rewrite lookup_insert_ne by done. apply H.
Qed.

Lemma nw_unwatch_end_inv ch x b : nw_ending b !! ch = Some x -> nw_inv b -> nw_inv (nw_unwatch_end ch b).
Proof.
  intros He H. split; simpl; try apply H.
  - intros c s Hh. destruct (ni_has b H c s Hh) as [Hl He']. assert (ch <> c) by congruence.
    by rewrite !lookup_delete_ne.
  - intros c s [Hne Hl]%lookup_delete_Some. rewrite lookup_delete_ne by done. by eapply H.
  - intros c y [Hne Hy]%lookup_delete_Some. rewrite lookup_delete_ne by done. by eapply (ni_ending b H).
Qed.

Lemma nw_chans_inv b b' : nw_inv b ->
  nw_watches b' = nw_watches b -> nw_prefixWatches b' = nw_prefixWatches b -> nw_live b' = nw_live b ->
  nw_next b' = nw_next b -> nw_ending b' = nw_ending b ->
  (forall ch, wc_closed <$> nw_chans b' !! ch = wc_closed <$> nw_chans b !! ch) -> nw_inv b'.
Proof.
  intros H W P L X E C. split; rewrite ?W, ?P, ?L, ?X, ?E; try apply H.
  - intros ch s Hh. apply H. unfold nw_has in *. by rewrite <- W, <- P.
  - intros ch s Hl. destruct (ni_live b H ch s Hl) as (c & Hc & Hcl). specialize (C ch). rewrite Hc in C.
    destruct (nw_chans b' !! ch) as [c'|]; [|done]. injection C as C. exists c'. split; [done|]. by rewrite C.
  - intros ch [c Hc]. apply H. specialize (C ch). rewrite Hc in C. by destruct (nw_chans b !! ch).
Qed.

Lemma offered_closed data c : wc_closed (offered data c) = wc_closed c.
Proof. unfold offered. by destruct c as [[|] []]. Qed.

Lemma nw_message_handled subject data b :
  handled data (filter (fun ch => from_option (fun p => matches p subject) false (nw_live b !! ch) = true)
    (map_to_list (nw_live b)).*1) b (nw_message matches subject data b).
Proof. apply nw_handlers_handled, NoDup_filter, NoDup_fst_map_to_list. Qed.

Lemma nw_message_inv subject data b : nw_inv b -> nw_inv (nw_message matches subject data b).
Proof.
  intros H. destruct (nw_message_handled subject data b) as [W P L X E C _].
  eapply nw_chans_inv; try done. intros ch. rewrite C. case_decide; [|done].
  destruct (nw_chans b !! ch); [|done]. simpl. by rewrite offered_closed.
Qed.

Lemma nw_recv_inv ch b : nw_inv b -> nw_inv (fst (nw_recv ch b)).
Proof.
  intros H. unfold nw_recv. destruct (nw_chans b !! ch) as [c|] eqn:E; [|done]. destruct (wc_buffer c); [done|].
  eapply nw_chans_inv; try done. intros ch'. simpl. destruct (decide (ch' = ch)) as [->|]; [|by rewrite lookup_insert_ne].
  by rewrite lookup_insert_eq, E.
Qed.

Lemma nw_step_inv b b' : nw_step matches b b' -> nw_inv b -> nw_inv b'.
Proof.
  destruct 1; intros Hi.
  - unfold NATSWatchBus_Watch. destruct (cx 0%nat); [done|]. destruct e; [done|]. apply nw_open_inv; [done|]. by left.
  - unfold NATSWatchBus_SubscribePrefix. destruct (cx 0%nat); [done|]. destruct e; [done|]. apply nw_open_inv; [done|]. by right.
  - by apply nw_unwatch_begin_inv.
  - by apply nw_unwatch_close_inv.
  - by eapply nw_unwatch_end_inv.
  - by apply nw_message_inv.
  - by apply nw_recv_inv.
Qed.

Lemma nw_reachable_inv b : rtc (nw_step matches) NewNATSWatchBus b -> nw_inv b.
Proof.
  intros Hr. assert (nw_inv NewNATSWatchBus) as H0.
  { split; unfold nw_has, watched; simpl; try done; try (intros; set_solver). intros ch [c Hc]. done. }
  revert H0. induction Hr as [|b1 b2 b3 Hs _ IH]; [done|]. intros H. apply IH. by eapply nw_step_inv.
Qed.

(** A NATS message reaches exactly its audience, or the process panics. In
    every state of the watch bus, whatever interleaving leads to it: a message is
    offered to exactly the channels whose subscription matches its subject (an
    empty one receives it, the others do not change), every watched channel is
    among the live subscriptions with its key or its prefix as the subject, and
    the message makes the process panic exactly if it comes for a channel that an
    [Unwatch] has closed and not yet unsubscribed. *)
Theorem nats_watch_message b subject data :
  rtc (nw_step matches) NewNATSWatchBus b -> nw_panicked b = false ->
  let b' := nw_message matches subject data b in
  (forall ch s, nw_has b ch s -> nw_live b !! ch = Some s) /\
  (forall ch s, nw_live b !! ch = Some s -> exists c, nw_chans b !! ch = Some c /\
     nw_chans b' !! ch = Some (if matches s subject then offered data c else c)) /\
  (forall ch, nw_live b !! ch = None -> nw_chans b' !! ch = nw_chans b !! ch) /\
  (nw_panicked b' = true <->
     exists ch s, nw_live b !! ch = Some s /\ matches s subject = true /\ nw_ending b !! ch = Some true).
Proof.
  intros Hr Hp. apply nw_reachable_inv in Hr. destruct (nw_message_handled subject data b) as [_ _ _ _ _ C F].
  assert (forall ch, ch ∈ filter (fun ch => from_option (fun p => matches p subject) false (nw_live b !! ch) = true)
    (map_to_list (nw_live b)).*1 <-> exists s, nw_live b !! ch = Some s /\ matches s subject = true) as Hin.
  { intros ch. rewrite list_elem_of_filter, list_elem_of_fmap. split.
    - intros (Hm & [c s] & -> & Hc%elem_of_map_to_list). simpl in *. rewrite Hc in Hm. by exists s.
    - intros (s & Hs & Hm). rewrite Hs. split; [done|]. exists (ch, s). split; [done|]. by apply elem_of_map_to_list. }
  cbn zeta. split; [|split; [|split]].
  - intros ch s Hh. by apply Hr.
  - intros ch s Hs. destruct (ni_live b Hr ch s Hs) as (c & Hc & _). exists c. split; [done|]. rewrite C, Hc.
    destruct (decide _) as [Hi|Hi]; rewrite Hin in Hi.
    + destruct Hi as (s' & Hs' & Hm). simplify_eq. by rewrite Hm.
    + destruct (matches s subject) eqn:Hm; [|done]. destruct Hi. by exists s.
  - intros ch Hn. rewrite C, decide_False; [done|]. rewrite Hin. intros (s & ? & _). congruence.
  - rewrite F, Hp. split.
    + intros [?|(ch & c & (s & Hs & Hm)%Hin & Hc & Hcl)]; [done|]. exists ch, s. split_and!; try done.
      destruct (ni_live b Hr ch s Hs) as (c' & Hc' & Hi). simplify_eq. by apply Hi.
    + intros (ch & s & Hs & Hm & He). right. destruct (ni_live b Hr ch s Hs) as (c & Hc & Hi). exists ch, c.
      rewrite Hin. split_and!; eauto. by apply Hi.
Qed.

End Invariant.

(** ** Prefix publication *)

(** A prefix publication sends one message to every key watched on this node
    that has the prefix, and none to any other. *)
Lemma nw_publish_prefix_exact order prefix data b :
  let keys := nw_prefix_keys order prefix b in
  NATSWatchBus_PublishPrefix order Background (fun _ => None) prefix data b = (None, (fun k => (k, data)) <$> keys).
Proof.
  cbn zeta. unfold NATSWatchBus_PublishPrefix. simpl. generalize 1%nat.
  induction (nw_prefix_keys order prefix b) as [|k ks IH]; intros i; [done|]. simpl. by rewrite IH.
Qed.

(** ** Witnesses *)

(** The subjects without wildcards cover themselves. *)
Definition matches_eq (p s : string) : bool := bool_decide (p = s).

Definition nw_demo : NATSWatchBus := fst (NATSWatchBus_Watch Background None "k" NewNATSWatchBus).
Definition nw_closing : NATSWatchBus := nw_unwatch_close 0 (fst (nw_unwatch_begin "k" 0 nw_demo)).

Lemma nats_watch_message_witness :
  nw_chans (nw_message matches_eq "k" [Byte.x01] nw_demo) !! 0%nat = Some (mkWChan [[Byte.x01]] false).
Proof.
  destruct (nats_watch_message matches_eq nw_demo "k" [Byte.x01]) as (_ & H & _).
  - eapply rtc_l; [apply (nw_step_watch _ Background None "k")|apply rtc_refl].
  - reflexivity.
  - destruct (H 0%nat "k" eq_refl) as (c & Hc & E). injection Hc as <-. exact E.
Defined.

(** A message between the two steps of [Unwatch] is sent on a closed channel. *)
Theorem nats_watch_panics :
  rtc (nw_step matches_eq) NewNATSWatchBus nw_closing /\
  nw_panicked (nw_message matches_eq "k" [Byte.x01] nw_closing) = true.
Proof.
  split; [|vm_compute; reflexivity].
  eapply rtc_l; [apply (nw_step_watch _ Background None "k")|].
  eapply rtc_l; [apply (nw_step_unwatch _ "k" 0)|].
  eapply rtc_l; [apply (nw_step_close _ 0); vm_compute; reflexivity|apply rtc_refl].
Qed.
