(* ===== verification/RedisWatch.v ===== *)
(** * RedisWatch: the watch bus over redis

    Models [src/watchbus/redis_watchbus.go]. What redis answers is an argument
    of the function that asks it; what was sent is a result. The set
    [watchbus:index] is shared by all nodes: it is a parameter with the two
    commands that change it ([RedisSet], [LawfulRedisSet]). A goroutine that
    reads a stream or a subscription and forwards it to a channel is a [reader]:
    the messages it has read and not sent, and the id it goes on from. *)

From S2P Require Import Prelude WatchBus.

Class RedisSet (I : Type) := {
  si_SAdd : string -> I -> I;
  si_SRem : string -> I -> I;
}.

Class LawfulRedisSet (I : Type) `{RedisSet I} := {
  si_members : I -> gset string;
  si_SAdd_law : forall k i, si_members (si_SAdd k i) = {[k]} ∪ si_members i;
  si_SRem_law : forall k i, si_members (si_SRem k i) = si_members i ∖ {[k]};
}.

(** A message of a stream: its id, and the field [data] if it is a string. *)
Record stream_msg := mkSMsg { sm_ID : string; sm_data : option (list Byte.byte) }.

(** [rd_last = None] is the id [$]: whatever is added after the call. *)
Record reader := mkReader { rd_last : option string; rd_queue : list stream_msg; rd_cancelled : bool }.

(** [rw_readers]: the goroutines, by their channel. *)
Record RedisWatchBus := mkRW {
  rw_cancels : gmap string (gset nat);
  rw_prefixCancels : gmap string (gset nat);
  rw_chans : gmap nat wchan;
  rw_readers : gmap nat reader;
  rw_next : nat;
}.

Definition NewRedisWatchBus : RedisWatchBus := mkRW ∅ ∅ ∅ ∅ 0.

(** ** Publishing *)

Inductive rw_cmd := CXAdd (key : string) (data : list Byte.byte) | CPublish (channel : string) (data : list Byte.byte).

(** The errors of the two calls. *)
Definition RedisWatchBus_Publish (xadd pub : option error) (key : string) (data : list Byte.byte)
    : option error * list rw_cmd :=
  match xadd with
  | Some e => (Some e, [])
  | None => (pub, CXAdd key data :: match pub with None => [CPublish key data] | Some _ => [] end)
  end.

Fixpoint rw_publish_keys (errs : string -> option error * option error) (keys : list string) (data : list Byte.byte)
    : option error * list rw_cmd :=
  match keys with
  | [] => (None, [])
  | k :: keys =>
      let '(err, sent) := RedisWatchBus_Publish (fst (errs k)) (snd (errs k)) k data in
      match err with
      | Some e => (Some e, sent)
      | None => let '(err, sent') := rw_publish_keys errs keys data in (err, sent ++ sent')
      end
  end.

(** The loop over the pages that [SSCAN] answers, each with the next cursor.
    [None]: the scan is not over. *)
Fixpoint rw_scan (errs : string -> option error * option error) (pages : list (res (list string * Z)))
    (data : list Byte.byte) : option (option error * list rw_cmd) :=
  match pages with
  | [] => None
  | Err e :: _ => Some (Some e, [])
  | Ok (keys, next) :: pages =>
      let '(err, sent) := rw_publish_keys errs keys data in
      match err with
      | Some e => Some (Some e, sent)
      | None =>
          if next =? 0 then Some (None, sent)
          else '(err, sent') ← rw_scan errs pages data; Some (err, sent ++ sent')
      end
  end.

Definition RedisWatchBus_PublishPrefix (errs : string -> option error * option error)
    (pages : list (res (list string * Z))) (pub : option error) (prefix : string) (data : list Byte.byte)
    : option (option error * list rw_cmd) :=
  '(err, sent) ← rw_scan errs pages data;
  Some (match err with
        | Some e => (Some e, sent)
        | None => (pub, sent ++ match pub with None => [CPublish prefix data] | Some _ => [] end)
        end).

(** ** Watching *)

Section Watch.
Context {I : Type} `{!RedisSet I}.
Implicit Types b : RedisWatchBus.

Definition rw_enter (key : string) (ch : nat) (m : gmap string (gset nat)) : gmap string (gset nat) :=
  <[key := {[ch]} ∪ default ∅ (m !! key)]> m.

(** [make(chan []byte, 1)] and [go func() { ... }] *)
Definition rw_start b : RedisWatchBus :=
  mkRW (rw_cancels b) (rw_prefixCancels b) (<[rw_next b := mkWChan [] false]> (rw_chans b))
    (<[rw_next b := mkReader None [] false]> (rw_readers b)) (S (rw_next b)).

(** [added]: whether [SADD] reached the server; its error is dropped. *)
Definition RedisWatchBus_Watch (added : bool) (key : string) (st : RedisWatchBus * I)
    : (RedisWatchBus * I) * res nat :=
  let '(b, i) := st in
  let ch := rw_next b in
  let m := {[ch]} ∪ default ∅ (rw_cancels b !! key) in
  let b' := rw_start b in
  ((mkRW (<[key := m]> (rw_cancels b')) (rw_prefixCancels b') (rw_chans b') (rw_readers b') (rw_next b'),
    if decide (size m = 1%nat) then if added then si_SAdd key i else i else i), Ok ch).

Definition RedisWatchBus_SubscribePrefix (prefix : string) b : RedisWatchBus * res nat :=
  let ch := rw_next b in
  let b' := rw_start b in
  (mkRW (rw_cancels b') (rw_enter prefix ch (rw_prefixCancels b')) (rw_chans b') (rw_readers b') (rw_next b'), Ok ch).

(** [cancel()] *)
Definition rw_cancel (ch : nat) b : RedisWatchBus :=
  mkRW (rw_cancels b) (rw_prefixCancels b) (rw_chans b)
    (alter (fun r => mkReader (rd_last r) (rd_queue r) true) ch (rw_readers b)) (rw_next b).

(** [removed]: whether [SREM] reached the server; its error is dropped. *)
Definition RedisWatchBus_Unwatch (removed : bool) (key : string) (ch : nat) (st : RedisWatchBus * I)
    : (RedisWatchBus * I) * option error :=
  let '(b, i) := st in
  if decide (ch ∈ default ∅ (rw_cancels b !! key)) then
    let m := default ∅ (rw_cancels b !! key) ∖ {[ch]} in
    let '(cancels, i) :=
      if decide (m = ∅) then (delete key (rw_cancels b), if removed then si_SRem key i else i)
      else (<[key := m]> (rw_cancels b), i) in
    ((rw_cancel ch (mkRW cancels (rw_prefixCancels b) (rw_chans b) (rw_readers b) (rw_next b)), i), None)
  else if decide (ch ∈ default ∅ (rw_prefixCancels b !! key)) then
    let m := default ∅ (rw_prefixCancels b !! key) ∖ {[ch]} in
    let prefixes := if decide (m = ∅) then delete key (rw_prefixCancels b) else <[key := m]> (rw_prefixCancels b) in
    ((rw_cancel ch (mkRW (rw_cancels b) prefixes (rw_chans b) (rw_readers b) (rw_next b)), i), None)
  else ((b, i), None).

(** ** The goroutines *)

Definition set_reader (ch : nat) (c : wchan) (r : option reader) b : RedisWatchBus :=
  mkRW (rw_cancels b) (rw_prefixCancels b) (<[ch := c]> (rw_chans b)) (partial_alter (fun _ => r) ch (rw_readers b))
    (rw_next b).

(** [XREAD] answers, or the subscription hands over a message; an error while the
    context is live is retried. *)
Definition reader_fetch (res : res (list stream_msg)) (r : reader) : reader :=
  match rd_queue r, res with
  | [], Ok msgs => mkReader (rd_last r) msgs (rd_cancelled r)
  | _, _ => r
  end.

(** The next message: its id is remembered, its data sent as soon as the channel
    has room. *)
Definition reader_forward (c : wchan) (r : reader) : wchan * reader :=
  match rd_queue r with
  | [] => (c, r)
  | m :: q =>
      match sm_data m with
      | None => (c, mkReader (Some (sm_ID m)) q (rd_cancelled r))
      | Some data =>
          if (length (wc_buffer c) <? 1)%nat
          then (mkWChan (wc_buffer c ++ [data]) (wc_closed c), mkReader (Some (sm_ID m)) q (rd_cancelled r))
          else (c, r)
      end
  end.

(** The goroutine returns: [defer close(ch)]. *)
Definition reader_exit (ch : nat) b : RedisWatchBus :=
  match rw_chans b !! ch with
  | Some c => set_reader ch (mkWChan (wc_buffer c) true) None b
  | None => b
  end.

Definition reader_step (ch : nat) (f : wchan -> reader -> wchan * reader) b : RedisWatchBus :=
  match rw_chans b !! ch, rw_readers b !! ch with
  | Some c, Some r => let '(c, r) := f c r in set_reader ch c (Some r) b
  | _, _ => b
  end.

Definition rw_recv (ch : nat) b : RedisWatchBus * wrecv :=
  match rw_chans b !! ch with
  | None => (b, WBlocks)
  | Some c =>
      match wc_buffer c with
      | d :: q =>
          (mkRW (rw_cancels b) (rw_prefixCancels b) (<[ch := mkWChan q (wc_closed c)]> (rw_chans b)) (rw_readers b)
             (rw_next b), WReceived d)
      | [] => (b, if wc_closed c then WClosed else WBlocks)
      end
  end.

End Watch.

(** ** Properties *)

(** What a list of messages delivers. *)
Definition payloads (ms : list stream_msg) : list (list Byte.byte) := omap sm_data ms.

(** Forwarding moves a payload from the queue to the end of the channel: none is
    lost, doubled or reordered, and as long as the consumer takes what is there
    the goroutine gets on. *)
Lemma reader_forward_lossless c r :
  let '(c', r') := reader_forward c r in
  wc_buffer c' ++ payloads (rd_queue r') = wc_buffer c ++ payloads (rd_queue r) /\ wc_closed c' = wc_closed c /\
  (rd_queue r <> [] -> wc_buffer c = [] -> length (rd_queue r) = S (length (rd_queue r'))).
Proof.
  unfold reader_forward. destruct (rd_queue r) as [|m q] eqn:E; [by rewrite E|].
  unfold payloads. simpl. destruct (sm_data m) as [d|] eqn:Ed; simpl; [|done].
  destruct (Nat.ltb_spec (length (wc_buffer c)) 1); simpl; [|rewrite E; simpl; rewrite Ed; split_and!; try done].
  - rewrite <- app_assoc. done.
  - intros _ Hb. rewrite Hb in *. simpl in *. lia.
Qed.

(** The consumer of a channel with a goroutine that takes turns with it: what it
    has received, and what remains. *)
Definition drain_turn (st : list (list Byte.byte) * (wchan * reader)) : list (list Byte.byte) * (wchan * reader) :=
  let '(got, (c, r)) := st in
  let '(c, r) := reader_forward c r in
  match wc_buffer c with
  | [] => (got, (c, r))
  | d :: q => (got ++ [d], (mkWChan q (wc_closed c), r))
  end.

(** A watcher over redis receives what its stream delivers: after as many
    turns as the goroutine has messages, a consumer of an empty channel has
    received their payloads, all of them, once and in order. *)
Theorem reader_drains c r got :
  wc_buffer c = [] ->
  exists c' r', Nat.iter (length (rd_queue r)) drain_turn (got, (c, r)) = (got ++ payloads (rd_queue r), (c', r')) /\
    rd_queue r' = [] /\ wc_buffer c' = [].
Proof.
  remember (rd_queue r) as q eqn:Eq. revert c r got Eq. induction q as [|m q IH]; intros c r got Eq Hb.
  { exists c, r. by rewrite app_nil_r. }
  simpl length. rewrite Nat.iter_succ_r. unfold drain_turn at 2, reader_forward. rewrite <- Eq.
  unfold payloads. simpl. destruct (sm_data m) as [d|]; simpl.
  - rewrite Hb. simpl. destruct (IH (mkWChan [] (wc_closed c)) (mkReader (Some (sm_ID m)) q (rd_cancelled r)) (got ++ [d]))
      as (c' & r' & -> & ?); [done|done|]. exists c', r'. by rewrite <- app_assoc.
  - rewrite Hb. by destruct (IH c (mkReader (Some (sm_ID m)) q (rd_cancelled r)) got) as (c' & r' & -> & ?); [done|done|exists c', r'].
Qed.

(** A prefix publication without failures sends every key of the index once, as
    the scan answers it, and then the prefix itself. *)
Lemma rw_publish_keys_ok keys data :
  rw_publish_keys (fun _ => (None, None)) keys data = (None, keys ≫= fun k => [CXAdd k data; CPublish k data]).
Proof. induction keys as [|k keys IH]; simpl; [done|]. by rewrite IH. Qed.

Theorem PublishPrefix_sends (pages : list (list string * Z)) last prefix data :
  Forall (fun page => snd page <> 0) pages ->
  RedisWatchBus_PublishPrefix (fun _ => (None, None)) ((Ok <$> pages) ++ [Ok (last, 0)]) None prefix data =
  Some (None, ((concat pages.*1 ++ last) ≫= fun k => [CXAdd k data; CPublish k data]) ++ [CPublish prefix data]).
Proof.
  intros Hp. unfold RedisWatchBus_PublishPrefix.
  assert (rw_scan (fun _ => (None, None)) ((Ok <$> pages) ++ [Ok (last, 0)]) data =
    Some (None, (concat pages.*1 ++ last) ≫= fun k => [CXAdd k data; CPublish k data])) as ->; [|done].
  induction Hp as [|[ks next] pages Hn _ IH].
  - cbn [fmap list_fmap app rw_scan]. by rewrite rw_publish_keys_ok.
  - rewrite fmap_cons. cbn [app rw_scan]. rewrite rw_publish_keys_ok, IH, (proj2 (Z.eqb_neq next 0) Hn).
    replace (concat ((ks, next) :: pages).*1 ++ last) with (ks ++ concat pages.*1 ++ last) by (simpl; by rewrite app_assoc).
    by rewrite !bind_app.
Qed.

Section Index.
Context {I : Type} `{!RedisSet I, !LawfulRedisSet I}.
Implicit Types (b : RedisWatchBus) (i : I).

(** The keys with watchers are those of the map, and in the index. *)
Record rw_inv (st : RedisWatchBus * I) : Prop := {
  rwi_some : forall k m, rw_cancels (fst st) !! k = Some m -> m <> ∅;
  rwi_index : si_members (snd st) = dom (rw_cancels (fst st));
  rwi_fresh : forall k ch, ch ∈ default ∅ (rw_cancels (fst st) !! k) -> (ch < rw_next (fst st))%nat;
}.

Lemma Watch_inv key st : rw_inv st -> rw_inv (fst (RedisWatchBus_Watch true key st)).
Proof.
  destruct st as [b i]. intros [H1 H2 H3]. simpl in *. split; simpl.
  - intros k m. destruct (decide (k = key)) as [->|]; [rewrite lookup_insert_eq; intros [= <-]; set_solver|].
    rewrite lookup_insert_ne by done. apply H1.
  - rewrite dom_insert_L, <- H2. destruct (decide _) as [Hs|Hs]; [apply si_SAdd_law|].
    destruct (rw_cancels b !! key) as [m|] eqn:E; [|destruct Hs; cbn [default]; rewrite (right_id_L ∅ (∪)); apply size_singleton].
    apply (elem_of_dom_2 (D := gset string)) in E. rewrite <- H2 in E. set_solver.
  - intros k ch. destruct (decide (k = key)) as [->|]; [|rewrite lookup_insert_ne by done; intros ?%H3; lia].
    rewrite lookup_insert_eq. simpl. intros [->%elem_of_singleton|?%H3]%elem_of_union; lia.
Qed.

Lemma Unwatch_inv key ch st : rw_inv st -> rw_inv (fst (RedisWatchBus_Unwatch true key ch st)).
Proof.
  destruct st as [b i]. intros [H1 H2 H3]. simpl in *.
  destruct (decide (ch ∈ default ∅ (rw_cancels b !! key))) as [Hin|Hin].
  2: { destruct (decide (ch ∈ default ∅ (rw_prefixCancels b !! key))); by split. }
  destruct (rw_cancels b !! key) as [m|] eqn:E; [|simpl in Hin; set_solver]. simpl in *.
  destruct (decide (m ∖ {[ch]} = ∅)) as [Hm|Hm]; split; simpl.
  - intros k m' [_ Hk]%lookup_delete_Some. by eapply H1.
  - rewrite dom_delete_L, <- H2. apply si_SRem_law.
  - intros k c. destruct (decide (k = key)) as [->|]; [rewrite lookup_delete_eq; set_solver|].
    rewrite lookup_delete_ne by done. apply H3.
  - intros k m'. destruct (decide (k = key)) as [->|]; [rewrite lookup_insert_eq; by intros [= <-]|].
    rewrite lookup_insert_ne by done. apply H1.
  - rewrite dom_insert_L, <- H2. apply (elem_of_dom_2 (D := gset string)) in E. rewrite <- H2 in E. set_solver.
  - intros k c. destruct (decide (k = key)) as [->|]; [|rewrite lookup_insert_ne by done; apply H3].
    rewrite lookup_insert_eq. simpl. intros [Hc _]%elem_of_difference. apply (H3 key). by rewrite E.
Qed.

(** On one node, and as long as redis can be reached, the index is the set of
    the keys that are watched: a prefix publication misses no watcher. *)
Theorem rw_index_exact ops st :
  rw_inv st ->
  let st' := foldl (fun st (o : string + string * nat) =>
    match o with
    | inl key => fst (RedisWatchBus_Watch true key st)
    | inr (key, ch) => fst (RedisWatchBus_Unwatch true key ch st)
    end) st ops in
  forall k, k ∈ si_members (snd st') <-> default ∅ (rw_cancels (fst st') !! k) <> ∅.
Proof.
  intros H. assert (forall ops st, rw_inv st -> rw_inv (foldl (fun st (o : string + string * nat) =>
    match o with
    | inl key => fst (RedisWatchBus_Watch true key st)
    | inr (key, ch) => fst (RedisWatchBus_Unwatch true key ch st)
    end) st ops)) as Hops.
  { clear. induction ops as [|[key|[key ch]] ops IH]; intros st H; [done|..]; apply IH;
      [by apply Watch_inv|by apply Unwatch_inv]. }
  cbn zeta. destruct (Hops ops st H) as [H1 H2 _]. intros k. rewrite H2, elem_of_dom. split.
  - intros [m Hm]. rewrite Hm. by eapply H1.
  - intros Hn. destruct (rw_cancels _ !! k); [done|]. by destruct Hn.
Qed.

(** The index is shared, and nobody counts: when the last watcher of a key on one
    node leaves, the key leaves the index, whoever watches it on other nodes; a
    prefix publication then sends nothing to them. *)
Theorem rw_index_lost b b' i key ch ch' :
  rw_cancels b !! key = Some {[ch]} -> ch' ∈ default ∅ (rw_cancels b' !! key) ->
  let '((_, i'), err) := RedisWatchBus_Unwatch true key ch (b, i) in
  err = None /\ (key ∉ si_members i') /\ ch' ∈ default ∅ (rw_cancels b' !! key).
Proof.
  intros Hb Hb'. simpl. rewrite Hb. simpl. rewrite decide_True by set_solver. rewrite decide_True by set_solver.
  split_and!; [done| |done]. rewrite si_SRem_law. set_solver.
Qed.

(** A context that ends without [Unwatch] leaves its watcher in the map and its
    key in the index: the goroutine closes the channel and changes nothing
    else. *)
Theorem rw_context_leaks b i ch c :
  rw_chans b !! ch = Some c ->
  rw_cancels (reader_exit ch b) = rw_cancels b /\
  rw_chans (reader_exit ch b) !! ch = Some (mkWChan (wc_buffer c) true).
Proof. intros Hc. unfold reader_exit. rewrite Hc. simpl. by rewrite lookup_insert_eq. Qed.

End Index.

(** ** Witnesses *)

#[export] Instance gset_RedisSet : RedisSet (gset string) := {
  si_SAdd := fun k i => {[k]} ∪ i;
  si_SRem := fun k i => i ∖ {[k]};
}.
#[export] Instance gset_lawful : LawfulRedisSet (gset string).
Proof. refine {| si_members := fun i => i |}; done. Defined.

Lemma reader_drains_witness : exists c' r',
  Nat.iter 2 drain_turn ([], (mkWChan [] false, mkReader None [mkSMsg "1" (Some [Byte.x01]); mkSMsg "2" None] false)) =
    ([[Byte.x01]], (c', r')) /\ rd_queue r' = [] /\ wc_buffer c' = [].
Proof. apply (reader_drains (mkWChan [] false) (mkReader None [mkSMsg "1" (Some [Byte.x01]); mkSMsg "2" None] false) []). reflexivity. Defined.
