(* ===== verification/StreamTypes.v ===== *)
(** * StreamTypes: the data of the stream bus

    Models [src/streambus/types.go]: frames, subscription options and the
    configuration with its normalisation. The enumerations are [uint8] in Go
    and integers here, since the wire format and the queues meet values
    outside the named ones. *)

From S2P Require Import Prelude Bytes.

Definition Reliable : Z := 0.
Definition Unreliable : Z := 1.

Definition PriorityBulk : Z := 0.
Definition PriorityNormal : Z := 1.
Definition PriorityInteractive : Z := 2.
Definition PriorityCritical : Z := 3.

Definition Block : Z := 0.
Definition DropNewest : Z := 1.
Definition DropOldest : Z := 2.
Definition LatestOnly : Z := 3.

Record Frame := mkFrame {
  Sequence : Z;
  fr_Timestamp : time;
  Topic : string;
  Payload : list Byte.byte;
  fr_Reliability : Z;
  fr_Priority : Z;
}.

(** [Frame{}] *)
Definition zero_Frame : Frame := mkFrame 0 0 "" [] 0 0.

#[export] Instance Frame_eq_dec : EqDecision Frame.
Proof. solve_decision. Defined.

Record SubscribeOptions := mkSubOpts {
  so_Topic : string;
  so_Prefix : bool;
  so_Buffer : Z;
  so_Overflow : Z;
  so_Replay : Z;
  so_Since : Z;
}.

Record Config := mkConfig {
  DefaultBuffer : Z;
  MaxBuffer : Z;
  ReplayCapacity : Z;
  MaxPayloadBytes : Z;
  CopyPayload : bool;
}.

Definition Config_normalized (c : Config) : Config :=
  let def := if DefaultBuffer c <=? 0 then 64 else DefaultBuffer c in
  let max := if MaxBuffer c <=? 0 then 4096 else MaxBuffer c in
  let def := if max <? def then max else def in
  let payload := if MaxPayloadBytes c <=? 0 then Z.shiftl 16 20 else MaxPayloadBytes c in
  mkConfig def max (ReplayCapacity c) payload (CopyPayload c).

(** A normalized configuration accepts its own default buffer. *)
Lemma Config_normalized_ok c :
  let n := Config_normalized c in
  1 <= DefaultBuffer n <= MaxBuffer n /\ 1 <= MaxPayloadBytes n /\ ReplayCapacity n = ReplayCapacity c.
Proof.
  unfold Config_normalized. simpl.
  destruct (DefaultBuffer c <=? 0) eqn:E1, (MaxBuffer c <=? 0) eqn:E2; bool_to_prop;
    (destruct (_ <? _) eqn:E3 in |- *; bool_to_prop; destruct (MaxPayloadBytes c <=? 0) eqn:E4; bool_to_prop);
    split_and!; try done; change (Z.shiftl 16 20) with 16777216; lia.
Qed.
