(* ===== verification/Wire.v ===== *)
(** * Wire: the binary protocol of the stream bus

    Models [src/streambus/wire.go]: [EncodeMessage], [DecodeMessage],
    [WriteMessage] and [ReadMessage] on byte strings, with the errors of every
    malformed input. *)

From S2P Require Import Prelude Bytes StreamTypes.

Definition WireVersion : Z := 1.

Definition MessageData : Z := 1.
Definition MessageSubscribe : Z := 3.
Definition MessagePong : Z := 9.

Record Message := mkMessage {
  Kind : Z;
  msg_ID : Z;
  SubscriptionID : Z;
  Ack : Z;
  msg_Frame : Frame;
  msg_Options : SubscribeOptions;
  msg_Error : string;
}.

(** The instant [time.Unix(0, 0)]. *)
Definition unix_epoch : time := 62135596800 * Second.

Definition UnixNano (t : time) : Z := i64 (t - unix_epoch).
Definition time_Unix (ns : Z) : time := unix_epoch + ns.

(** ** Encoding *)

Definition putBytes (data : list Byte.byte) : list Byte.byte :=
  PutUvarint (u64 (Z.of_nat (length data))) ++ data.

(** The topic on the wire. *)
Definition wire_topic (m : Message) : string :=
  let topic := Topic (msg_Frame m) in
  if (Kind m =? MessageSubscribe) && bool_decide (topic = "") then so_Topic (msg_Options m) else topic.

Definition wire_timestamp (m : Message) : Z :=
  if time_IsZero (fr_Timestamp (msg_Frame m)) then 0 else UnixNano (fr_Timestamp (msg_Frame m)).

Definition maxTopic : Z := Z.shiftl 1 20.
Definition maxPayload : Z := Z.shiftl 64 20.

Definition EncodeMessage (m : Message) : res (list Byte.byte) :=
  let f := msg_Frame m in
  let o := msg_Options m in
  let topic := string_bytes (wire_topic m) in
  let text := string_bytes (msg_Error m) in
  if (maxTopic <? Z.of_nat (length topic)) || (maxPayload <? Z.of_nat (length (Payload f))) ||
     (maxTopic <? Z.of_nat (length text))
  then Err ErrInvalidWireMessage
  else Ok (
    [byte_of_Z WireVersion] ++ [byte_of_Z (Kind m)] ++
    PutUvarint (msg_ID m) ++ PutUvarint (SubscriptionID m) ++ PutUvarint (Ack m) ++
    PutUvarint (Sequence f) ++ PutVarint (wire_timestamp m) ++
    [byte_of_Z (fr_Reliability f)] ++ [byte_of_Z (fr_Priority f)] ++
    putBytes topic ++ putBytes (Payload f) ++
    [byte_of_Z (if so_Prefix o then 1 else 0)] ++
    PutUvarint (u64 (so_Buffer o)) ++ [byte_of_Z (so_Overflow o)] ++
    PutUvarint (u64 (so_Replay o)) ++ PutUvarint (so_Since o) ++ putBytes text).

(** ** Decoding *)

Definition bad : error := ErrInvalidWireMessage.

Definition readByte : parser Z := or_error bad (b ← ReadByte; mret (byte_to_Z b)).
Definition readUvarint : parser Z := or_error bad ReadUvarint.
Definition readVarint : parser Z := or_error bad ReadVarint.

Definition check (b : bool) (e : error) : parser unit := if b then mret tt else fail e.

Definition readBytes (maximum : Z) : parser (list Byte.byte) := fun bs =>
  match ReadUvarint bs with
  | Err _ => Err bad
  | Ok (size, bs) =>
      if (maximum <? size) || (Z.of_nat (length bs) <? size) then Err bad
      else if size =? 0 then Ok ([], bs)
      else or_error bad (ReadFull (Z.to_nat size)) bs
  end.

(** The largest [int]. *)
Definition maxInt : Z := 2 ^ 63 - 1.

Definition decode : parser Message :=
  version ← readByte;
  _ ← check (version =? WireVersion) ErrInvalidWireVersion;
  kind ← readByte;
  _ ← check ((MessageData <=? kind) && (kind <=? MessagePong)) bad;
  id ← readUvarint;
  sub ← readUvarint;
  ack ← readUvarint;
  seq ← readUvarint;
  timestamp ← readVarint;
  reliability ← readByte;
  _ ← check (reliability <=? Unreliable) bad;
  priority ← readByte;
  _ ← check (priority <=? PriorityCritical) bad;
  topic ← readBytes maxTopic;
  payload ← readBytes maxPayload;
  prefix ← readByte;
  buffer ← readUvarint;
  _ ← check (buffer <=? maxInt) bad;
  overflow ← readByte;
  _ ← check (overflow <=? LatestOnly) bad;
  replay ← readUvarint;
  _ ← check (replay <=? maxInt) bad;
  since ← readUvarint;
  text ← readBytes maxTopic;
  mret (mkMessage kind id sub ack
    (mkFrame seq (if timestamp =? 0 then 0 else time_Unix timestamp) (bytes_string topic) payload
       reliability priority)
    (mkSubOpts (if kind =? MessageSubscribe then bytes_string topic else "") (prefix =? 1)
       buffer overflow replay since)
    (bytes_string text)).

Definition DecodeMessage (data : list Byte.byte) : res Message :=
  match decode data with
  | Err e => Err e
  | Ok (m, []) => Ok m
  | Ok (_, _) => Err bad
  end.

(** ** Framing *)

(** [io.Writer]: how many bytes the call took, and its error. *)
Class Writer (W : Type) := Write : W -> list Byte.byte -> W * (Z * option error).

(** [for len(data) > 0 { ... }]: an iteration that goes on takes at least one
    byte, so as many iterations as bytes are enough. *)
Fixpoint write_loop {W} `{Writer W} (fuel : nat) (w : W) (data : list Byte.byte) : W * option error :=
  match fuel, data with
  | _, [] => (w, None)
  | O, _ => (w, None)
  | S fuel, _ =>
      match Write w data with
      | (w, (_, Some e)) => (w, Some e)
      | (w, (n, None)) =>
          if n <=? 0 then (w, Some ErrShortWrite)
          else write_loop fuel w (drop (Z.to_nat n) data)
      end
  end.

Definition writeAll {W} `{Writer W} (w : W) (data : list Byte.byte) : W * option error :=
  write_loop (length data) w data.

Definition WriteMessage {W} `{Writer W} (w : W) (m : Message) : W * option error :=
  match EncodeMessage m with
  | Err e => (w, Some e)
  | Ok data =>
      match writeAll w (PutUvarint (u64 (Z.of_nat (length data)))) with
      | (w, Some e) => (w, Some e)
      | (w, None) => writeAll w data
      end
  end.

Definition NewReader (maximum : Z) : Z := if maximum <=? 0 then Z.shiftl 64 20 else maximum.

Definition ReadMessage (max : Z) : parser Message := fun bs =>
  match ReadUvarint bs with
  | Err e => Err e
  | Ok (size, bs) =>
      if max <? size then Err (ErrWrap "frame length exceeds the maximum" ErrInvalidWireMessage)
      else
        match ReadFull (Z.to_nat size) bs with
        | Err e => Err e
        | Ok (data, bs) =>
            match DecodeMessage data with
            | Err e => Err e
            | Ok m => Ok (m, bs)
            end
        end
  end.

(** ** Round trip *)

(** A message every field of which fits the protocol. *)
Record wire_ok (m : Message) : Prop := {
  wk_kind : MessageData <= Kind m <= MessagePong;
  wk_id : is_u64 (msg_ID m);
  wk_sub : is_u64 (SubscriptionID m);
  wk_ack : is_u64 (Ack m);
  wk_seq : is_u64 (Sequence (msg_Frame m));
  wk_time : fr_Timestamp (msg_Frame m) = 0 \/
    (is_i64 (fr_Timestamp (msg_Frame m) - unix_epoch) /\ fr_Timestamp (msg_Frame m) <> unix_epoch);
  wk_rel : Reliable <= fr_Reliability (msg_Frame m) <= Unreliable;
  wk_prio : PriorityBulk <= fr_Priority (msg_Frame m) <= PriorityCritical;
  wk_buffer : 0 <= so_Buffer (msg_Options m) < 2 ^ 63;
  wk_overflow : Block <= so_Overflow (msg_Options m) <= LatestOnly;
  wk_replay : 0 <= so_Replay (msg_Options m) < 2 ^ 63;
  wk_since : is_u64 (so_Since (msg_Options m));
}.

(** What the protocol carries of a message: one topic for the frame and, in a
    subscription, for the options. *)
Definition wire_norm (m : Message) : Message :=
  let f := msg_Frame m in
  let o := msg_Options m in
  mkMessage (Kind m) (msg_ID m) (SubscriptionID m) (Ack m)
    (mkFrame (Sequence f) (fr_Timestamp f) (wire_topic m) (Payload f) (fr_Reliability f) (fr_Priority f))
    (mkSubOpts (if Kind m =? MessageSubscribe then wire_topic m else "") (so_Prefix o)
       (so_Buffer o) (so_Overflow o) (so_Replay o) (so_Since o))
    (msg_Error m).

Lemma reads_readByte z : 0 <= z < 256 -> reads readByte [byte_of_Z z] z.
Proof.
  intros Hz rest. unfold readByte, or_error. simpl. unfold mbind, parser_bind. simpl.
  unfold mret, parser_ret. by rewrite byte_to_of_Z, Z.mod_small.
Qed.

Lemma reads_readUvarint v : is_u64 v -> reads readUvarint (PutUvarint v) v.
Proof. intros H. by apply reads_or_error, reads_uvarint. Qed.

Lemma reads_readVarint v : is_i64 v -> reads readVarint (PutVarint v) v.
Proof. intros H. by apply reads_or_error, reads_varint. Qed.

Lemma reads_check b e {A} (p : parser A) enc a :
  b = true -> reads p enc a -> reads (check b e ≫= fun _ => p) enc a.
Proof. intros -> H. exact H. Qed.

Lemma reads_readBytes max data :
  Z.of_nat (length data) <= max -> max < 2 ^ 64 -> reads (readBytes max) (putBytes data) data.
Proof.
  intros Hlen Hmax rest. unfold readBytes, putBytes. rewrite <- app_assoc.
  rewrite u64_id by (unfold is_u64; lia). rewrite reads_uvarint by (unfold is_u64; lia).
  rewrite length_app.
  destruct (max <? _) eqn:E1; bool_to_prop; [lia|].
  destruct (_ <? Z.of_nat (length data)) eqn:E2; bool_to_prop; [lia|]. simpl.
  destruct (_ =? 0) eqn:E3; bool_to_prop.
  - destruct data; [done|simpl in *; lia].
  - unfold or_error. by rewrite Nat2Z.id, reads_full.
Qed.

Lemma wire_timestamp_ok m :
  wire_ok m -> is_i64 (wire_timestamp m) /\
  (if wire_timestamp m =? 0 then 0 else time_Unix (wire_timestamp m)) = fr_Timestamp (msg_Frame m).
Proof.
  intros H. unfold wire_timestamp, time_IsZero, UnixNano, time_Unix.
  destruct (wk_time _ H) as [->|[H1 H2]]; [done|]. case_match eqn:E; bool_to_prop; [done|].
  rewrite i64_id by done. split; [done|].
  destruct (_ =? 0) eqn:E2; bool_to_prop; lia.
Qed.

Lemma Ok_inj {A} (a b : A) : Ok a = Ok b -> a = b.
Proof. by intros [= ->]. Qed.

(** The encoding of a message and its decoding, piece by piece. *)
Lemma reads_decode m data :
  wire_ok m -> EncodeMessage m = Ok data -> reads decode data (wire_norm m).
Proof.
  intros H. unfold EncodeMessage. case_match eqn:E; [done|]. intros <-%Ok_inj. bool_to_prop.
  destruct (wire_timestamp_ok m H) as [Ht Ets].
  destruct H as [[K1 K2] Hid Hsub Hack Hseq _ [R1 R2] [P1 P2] Hbuf [O1 O2] Hrep Hsince].
  unfold MessageData, MessagePong, Reliable, Unreliable, PriorityBulk, PriorityCritical, Block, LatestOnly in *.
  unfold decode. change maxTopic with 1048576 in *. change maxPayload with 67108864 in *.
  apply reads_bind with WireVersion; [by apply reads_readByte|]. apply reads_check; [done|].
  apply reads_bind with (Kind m); [apply reads_readByte; lia|].
  apply reads_check; [apply andb_true_iff; rewrite !Z.leb_le; unfold MessageData, MessagePong; lia|].
  do 4 (eapply reads_bind; [by apply reads_readUvarint|]).
  eapply reads_bind; [by apply reads_readVarint|].
  eapply reads_bind; [apply reads_readByte; lia|].
  apply reads_check; [apply Z.leb_le; unfold Unreliable; lia|].
  eapply reads_bind; [apply reads_readByte; lia|].
  apply reads_check; [apply Z.leb_le; unfold PriorityCritical; lia|].
  do 2 (eapply reads_bind; [apply reads_readBytes; [lia|done]|]).
  eapply reads_bind; [apply reads_readByte; destruct (so_Prefix _); lia|].
  eapply reads_bind; [apply reads_readUvarint, u64_range|].
  rewrite !(u64_id (so_Buffer _)) by (unfold is_u64; lia).
  apply reads_check; [apply Z.leb_le; unfold maxInt; lia|].
  eapply reads_bind; [apply reads_readByte; lia|].
  apply reads_check; [apply Z.leb_le; unfold LatestOnly; lia|].
  eapply reads_bind; [apply reads_readUvarint, u64_range|].
  rewrite !(u64_id (so_Replay _)) by (unfold is_u64; lia).
  apply reads_check; [apply Z.leb_le; unfold maxInt; lia|].
  eapply reads_bind; [by apply reads_readUvarint|].
  intros rest. unfold mbind, parser_bind. rewrite reads_readBytes by (lia || done).
  unfold mret, parser_ret. rewrite Ets, !bytes_string_bytes. unfold wire_norm.
  by destruct (so_Prefix (msg_Options m)).
Qed.

Lemma Decode_Encode m data :
  wire_ok m -> EncodeMessage m = Ok data -> DecodeMessage data = Ok (wire_norm m).
Proof.
  intros H E. pose proof (reads_decode m data H E []) as Hd. rewrite app_nil_r in Hd.
  unfold DecodeMessage. by rewrite Hd.
Qed.

(** Decoding an encoded message gives the message back, with its one topic
    in the frame and, for a subscription, in the options: nothing else is lost
    or altered by the wire format. *)
Theorem DecodeMessage_EncodeMessage (m : Message) (data : list Byte.byte) :
  wire_ok m -> EncodeMessage m = Ok data -> DecodeMessage data = Ok (wire_norm m).
Proof. apply Decode_Encode. Qed.

Section Framing.
Context {W : Type} `{Writer W}.

(** What a writer has been given so far. *)
Variable written : W -> list Byte.byte.

(** The contract of [io.Writer] for a writer that does not fail but may take
    fewer bytes than it is offered. *)
Hypothesis Write_law : forall w data, data <> [] ->
  exists w' n, Write w data = (w', (n, None)) /\ 0 < n <= Z.of_nat (length data) /\
    written w' = written w ++ take (Z.to_nat n) data.

Lemma writeAll_all w data :
  exists w', writeAll w data = (w', None) /\ written w' = written w ++ data.
Proof.
  unfold writeAll.
  assert (forall fuel w data, (length data <= fuel)%nat ->
    exists w', write_loop fuel w data = (w', None) /\ written w' = written w ++ data) as Hall; [|by apply Hall].
  induction fuel as [|fuel IH]; intros v [|b bs] Hf; simpl in Hf; try lia; try (exists v; by rewrite app_nil_r).
  destruct (Write_law v (b :: bs)) as (v' & n & E & Hn & Hw); [done|].
  cbn [write_loop]. rewrite E. destruct (n <=? 0) eqn:En; bool_to_prop; [lia|].
  destruct (IH v' (drop (Z.to_nat n) (b :: bs))) as (v'' & E' & Hw').
  { rewrite length_drop. simpl length. lia. }
  exists v''. split; [done|]. by rewrite Hw', Hw, <- app_assoc, take_drop.
Qed.

(** The messages written one after the other, until one fails. *)
Fixpoint write_messages (w : W) (ms : list Message) : W * option error :=
  match ms with
  | [] => (w, None)
  | m :: ms =>
      match WriteMessage w m with
      | (w, Some e) => (w, Some e)
      | (w, None) => write_messages w ms
      end
  end.

(** A message that fits the protocol and a reader's limit. *)
Definition sendable (max : Z) (m : Message) : Prop :=
  wire_ok m /\ exists data, EncodeMessage m = Ok data /\ Z.of_nat (length data) <= max.

Lemma WriteMessage_reads w m max :
  0 <= max < 2 ^ 63 -> sendable max m ->
  exists w' bs, WriteMessage w m = (w', None) /\ written w' = written w ++ bs /\
    reads (ReadMessage max) bs (wire_norm m).
Proof.
  intros Hmax (Hm & data & Ed & Hlen). unfold WriteMessage. rewrite Ed.
  destruct (writeAll_all w (PutUvarint (u64 (Z.of_nat (length data))))) as (w1 & -> & Hw1).
  destruct (writeAll_all w1 data) as (w2 & -> & Hw2).
  exists w2, (PutUvarint (u64 (Z.of_nat (length data))) ++ data).
  split; [done|]. split; [by rewrite Hw2, Hw1, <- app_assoc|].
  rewrite u64_id by (unfold is_u64; lia). intros rest. unfold ReadMessage.
  rewrite <- app_assoc, reads_uvarint by (unfold is_u64; lia).
  destruct (max <? _) eqn:E1; bool_to_prop; [lia|]. rewrite Nat2Z.id, reads_full.
  by rewrite (Decode_Encode m data).
Qed.

(** Read [n] messages. *)
Fixpoint read_messages (n : nat) (max : Z) : parser (list Message) :=
  match n with
  | O => mret []
  | S n => m ← ReadMessage max; ms ← read_messages n max; mret (m :: ms)
  end.

Lemma write_messages_reads (max : Z) (w : W) (ms : list Message) :
  0 <= max < 2 ^ 63 -> Forall (sendable max) ms ->
  exists w' bs, write_messages w ms = (w', None) /\ written w' = written w ++ bs /\
    reads (read_messages (length ms) max) bs (wire_norm <$> ms).
Proof.
  intros Hmax Hms. revert w. induction Hms as [|m ms Hm Hms IH]; intros w.
  { exists w, []. by rewrite app_nil_r. }
  destruct (WriteMessage_reads w m max Hmax Hm) as (w1 & bs1 & E1 & Hw1 & Hr1).
  destruct (IH w1) as (w2 & bs2 & E2 & Hw2 & Hr2). exists w2, (bs1 ++ bs2).
  simpl. rewrite E1. split; [done|]. split; [by rewrite Hw2, Hw1, app_assoc|].
  apply reads_bind with (wire_norm m); [done|].
  rewrite <- (app_nil_r bs2). by eapply reads_bind; [exact Hr2|].
Qed.

(** C38. The framed stream is self-delimiting, over any writer that keeps the
    contract of [io.Writer] without failing, however few bytes it takes per
    call: writing messages whose fields fit the protocol ([wire_ok]; a timestamp
    is zero, or in the range of [UnixNano] and not the Unix epoch itself), which
    the encoder accepts and the limit of the reader admits, succeeds, and the
    reader reads the messages back in order, up to what the protocol carries
    ([wire_norm]: one topic for the frame and, in a subscription, for the
    options), and leaves what follows. *)
Theorem write_messages_read_back (max : Z) (w : W) (ms : list Message) :
  0 <= max < 2 ^ 63 -> Forall (sendable max) ms ->
  exists w' bs, write_messages w ms = (w', None) /\ written w' = written w ++ bs /\
    reads (read_messages (length ms) max) bs (wire_norm <$> ms).
Proof. apply write_messages_reads. Qed.
End Framing.

(** ** What the decoder accepts *)

(** Every value the parser can return satisfies [P]. *)
Definition yields {A} (p : parser A) (P : A -> Prop) : Prop :=
  forall bs a rest, p bs = Ok (a, rest) -> P a.

Lemma yields_bind {A B} (p : parser A) (f : A -> parser B) P Q :
  yields p P -> (forall a, P a -> yields (f a) Q) -> yields (p ≫= f) Q.
Proof.
  intros Hp Hf bs b rest. unfold mbind, parser_bind.
  destruct (p bs) as [[a bs']|] eqn:E; [|done]. apply (Hf a). by eapply Hp.
Qed.

Lemma yields_check {A} b e (p : parser A) Q :
  (b = true -> yields p Q) -> yields (check b e ≫= fun _ => p) Q.
Proof. intros H. destruct b; [by apply H|]. intros bs a rest. by unfold mbind, parser_bind, check, fail. Qed.

Lemma yields_or_error {A} e (p : parser A) P : yields p P -> yields (or_error e p) P.
Proof. intros H bs a rest. unfold or_error. case_match eqn:E; [|done]. intros [= ->]. by eapply H. Qed.

Lemma yields_readByte : yields readByte (fun z => 0 <= z < 256).
Proof.
  apply yields_or_error. intros bs a rest. unfold mbind, parser_bind, ReadByte.
  destruct bs as [|b bs]; [done|]. intros [= <- _]. apply byte_to_Z_range.
Qed.

Lemma is_u64_lor x y : is_u64 x -> is_u64 y -> is_u64 (Z.lor x y).
Proof.
  intros [Hx1 Hx2] [Hy1 Hy2]. split; [by apply Z.lor_nonneg|].
  destruct (decide (Z.lor x y = 0)) as [->|]; [done|].
  assert (0 <= Z.lor x y) by (by apply Z.lor_nonneg).
  apply Z.log2_lt_pow2; [lia|]. rewrite Z.log2_lor by done.
  apply Z.max_lub_lt;
    [destruct (decide (x = 0)) as [->|]|destruct (decide (y = 0)) as [->|]]; try done;
    apply Z.log2_lt_pow2; lia.
Qed.

Lemma yields_read_uvarint fuel i x s : is_u64 x -> yields (read_uvarint fuel i x s) is_u64.
Proof.
  revert i x s. induction fuel as [|fuel IH]; intros i x s Hx bs a rest; simpl; [done|].
  destruct bs as [|b bs]; [done|].
  assert (forall y, is_u64 (Z.lor x (u64 y))) by (intros; apply is_u64_lor, u64_range; done).
  repeat case_match; try done; [by intros [= <- _]..|]. by apply IH.
Qed.

Lemma yields_readUvarint : yields readUvarint is_u64.
Proof. by apply yields_or_error, yields_read_uvarint. Qed.

Lemma yields_readVarint : yields readVarint is_i64.
Proof.
  apply yields_or_error. intros bs a rest. unfold ReadVarint.
  destruct (ReadUvarint bs) as [[ux bs']|] eqn:E; [|done]. intros [= <- _].
  apply yields_read_uvarint in E as [E1 E2]; [|done].
  rewrite Z.shiftr_div_pow2 by lia. change (2 ^ 1) with 2.
  assert (0 <= ux / 2 < 2 ^ 63) by (split; [apply Z.div_pos; lia|apply Z.div_lt_upper_bound; lia]).
  rewrite i64_id by (unfold is_i64; lia). unfold is_i64, Z.lnot. case_match; lia.
Qed.

Lemma yields_readBytes max :
  0 <= max -> yields (readBytes max) (fun data => Z.of_nat (length data) <= max).
Proof.
  intros Hmax bs a rest. unfold readBytes.
  destruct (ReadUvarint bs) as [[size bs']|] eqn:E; [|done].
  case_match eqn:E1; [done|]. bool_to_prop. case_match eqn:E2; [by intros [= <- _]|].
  unfold or_error, ReadFull. case_decide; [|done]. intros [= <- _]. rewrite length_take. lia.
Qed.

(** A message with its sizes within the limits of the encoder. *)
Definition wire_fits (m : Message) : Prop :=
  Z.of_nat (String.length (Topic (msg_Frame m))) <= maxTopic /\
  Z.of_nat (length (Payload (msg_Frame m))) <= maxPayload /\
  Z.of_nat (String.length (msg_Error m)) <= maxTopic.

Lemma length_bytes_string b : String.length (bytes_string b) = length b.
Proof. by rewrite <- length_string_bytes, string_bytes_string. Qed.

Lemma yields_decode : yields decode (fun m => wire_ok m /\ wire_norm m = m /\ wire_fits m).
Proof.
  unfold decode.
  eapply yields_bind; [apply yields_readByte|intros version _]. apply yields_check; intros _.
  eapply yields_bind; [apply yields_readByte|intros kind Hk]. apply yields_check; intros Ek.
  eapply yields_bind; [apply yields_readUvarint|intros id Hid].
  eapply yields_bind; [apply yields_readUvarint|intros sub Hsub].
  eapply yields_bind; [apply yields_readUvarint|intros ack Hack].
  eapply yields_bind; [apply yields_readUvarint|intros seq Hseq].
  eapply yields_bind; [apply yields_readVarint|intros ts Hts].
  eapply yields_bind; [apply yields_readByte|intros rel Hrel]. apply yields_check; intros Erel.
  eapply yields_bind; [apply yields_readByte|intros prio Hprio]. apply yields_check; intros Eprio.
  eapply yields_bind; [by apply yields_readBytes|intros topic Htopic].
  eapply yields_bind; [by apply yields_readBytes|intros payload Hpayload].
  eapply yields_bind; [apply yields_readByte|intros prefix _].
  eapply yields_bind; [apply yields_readUvarint|intros buffer Hbuf]. apply yields_check; intros Ebuf.
  eapply yields_bind; [apply yields_readByte|intros ov Hov]. apply yields_check; intros Eov.
  eapply yields_bind; [apply yields_readUvarint|intros replay Hrep]. apply yields_check; intros Erep.
  eapply yields_bind; [apply yields_readUvarint|intros since Hsince].
  eapply yields_bind; [by apply yields_readBytes|intros text Htext].
  intros bs m rest [= <- _]. bool_to_prop. unfold maxInt, is_u64, is_i64 in *.
  split_and!.
  - split; simpl; unfold Reliable, PriorityBulk, Block; try (lia || done).
    case_match eqn:E; [by left|right]. bool_to_prop. unfold time_Unix, is_i64. lia.
  - unfold wire_norm, wire_topic. simpl. f_equal; [f_equal|f_equal];
      destruct (kind =? MessageSubscribe); simpl; try done; case_bool_decide; done.
  - unfold wire_fits. simpl. by rewrite !length_bytes_string.
Qed.

Lemma EncodeMessage_fits m :
  wire_fits m -> wire_norm m = m -> exists data, EncodeMessage m = Ok data.
Proof.
  intros (H1 & H2 & H3) Hn. unfold EncodeMessage. rewrite !length_string_bytes.
  assert (wire_topic m = Topic (msg_Frame m)) as -> by exact (f_equal (fun m => Topic (msg_Frame m)) Hn).
  repeat match goal with |- context [?a <? ?b] => destruct (Z.ltb_spec a b); [lia|] end.
  simpl. eauto.
Qed.

(** C30. Whatever bytes arrive, a message the decoder accepts is within the
    protocol (known kind, reliability, priority and overflow policy, sizes
    within the limits), and it can be forwarded: it encodes, and the encoding
    decodes to the same message. *)
Theorem DecodeMessage_forwards (data : list Byte.byte) (m : Message) :
  DecodeMessage data = Ok m ->
  wire_ok m /\ wire_fits m /\
  exists data', EncodeMessage m = Ok data' /\ DecodeMessage data' = Ok m.
Proof.
  unfold DecodeMessage at 1. intros H. destruct (decode data) as [[m1 [|]]|] eqn:E; [|done..].
  apply Ok_inj in H as ->. destruct (yields_decode _ _ _ E) as (H1 & Hn & H2).
  destruct (EncodeMessage_fits m H2 Hn) as [data' Hd]. split; [done|]. split; [done|].
  exists data'. split; [done|].
  pose proof (Decode_Encode m data' H1 Hd) as D. by rewrite Hn in D.
Qed.

(** ** Witnesses *)

Definition demo_message : Message :=
  mkMessage MessageSubscribe 7 300 0
    (mkFrame 12 (unix_epoch + 5) "" [Byte.x01; Byte.xff] Unreliable PriorityCritical)
    (mkSubOpts "news/" true 64 DropOldest 16 (2 ^ 63)) "".

Definition demo_data : list Byte.byte :=
  match EncodeMessage demo_message with Ok data => data | Err _ => [] end.

Lemma demo_message_ok : wire_ok demo_message.
Proof. split; simpl; unfold is_u64, is_i64; (lia || done). Qed.

Lemma DecodeMessage_EncodeMessage_witness :
  wire_ok demo_message /\ DecodeMessage demo_data = Ok (wire_norm demo_message).
Proof.
  split; [exact demo_message_ok|].
  apply (DecodeMessage_EncodeMessage demo_message demo_data demo_message_ok). vm_compute. reflexivity.
Defined.

Lemma DecodeMessage_forwards_witness :
  wire_ok (wire_norm demo_message) /\ wire_fits (wire_norm demo_message) /\
  exists data', EncodeMessage (wire_norm demo_message) = Ok data' /\
    DecodeMessage data' = Ok (wire_norm demo_message).
Proof. apply (DecodeMessage_forwards demo_data). vm_compute. reflexivity. Defined.

(** A writer that takes at most three bytes per call. *)
#[local] Instance short_writer : Writer (list Byte.byte) := fun w data =>
  (w ++ take 3 data, (Z.of_nat (length (take 3 data)), None)).

Lemma short_writer_law (w data : list Byte.byte) : data <> [] ->
  exists w' n, Write w data = (w', (n, None)) /\ 0 < n <= Z.of_nat (length data) /\
    w' = w ++ take (Z.to_nat n) data.
Proof.
  intros Hd. eexists _, _. split; [reflexivity|]. rewrite length_take.
  split; [destruct data; [done|simpl length; lia]|].
  rewrite Nat2Z.id. f_equal. by destruct data as [|? [|? [|? ?]]].
Qed.

Lemma demo_sendable : sendable 100 demo_message.
Proof.
  split; [exact demo_message_ok|]. exists demo_data. split; [by vm_compute|]. by vm_compute.
Qed.

Lemma write_messages_read_back_witness :
  exists w' bs, write_messages [] [demo_message; demo_message] = (w', None) /\ w' = [] ++ bs /\
    reads (read_messages 2 100) bs [wire_norm demo_message; wire_norm demo_message].
Proof.
  apply (write_messages_read_back id short_writer_law 100 [] [demo_message; demo_message]); [lia|].
  constructor; [exact demo_sendable|]. constructor; [exact demo_sendable|]. constructor.
Defined.
