(* ===== verification/WebTransport.v ===== *)
(** * WebTransport: sessions over the stream bus

    Models [src/streambus/webtransport/handler.go]: the messages of a session
    on its control stream and in datagrams, its subscriptions, and the pump
    that forwards the frames of a subscription. The sessions of the WebTransport
    library are outside the model: what its calls return is an argument, the
    streams are writers of the wire protocol, the datagrams sent are a list. The
    bus is any implementation of the interface [streambus.Bus]; a subscription
    is its identity. *)

From stdpp Require Import pretty.
From S2P Require Import Prelude Bytes StreamTypes Wire.

Definition MessagePublish : Z := 2.
Definition MessageUnsubscribe : Z := 4.
Definition MessageAck : Z := 5.
Definition MessageError : Z := 6.
Definition MessageStreamOpen : Z := 7.
Definition MessagePing : Z := 8.

Definition zero_options : SubscribeOptions := mkSubOpts "" false 0 0 0 0.

(** A [Message] with the fields that are set; the others are zero. *)
Definition message (kind id sub ack : Z) (frame : Frame) (text : string) : Message :=
  mkMessage kind id sub ack frame zero_options text.

(** [streambus.Bus], with [Close] of a subscription. *)
Class FrameBus (B : Type) := {
  fb_Publish : ctx -> Frame -> B -> B * res Z;
  fb_Subscribe : ctx -> SubscribeOptions -> B -> B * res Z;
  fb_CloseSub : Z -> B -> B * option error;
}.

Record Handler := mkHandler {
  h_MaxMessageBytes : Z;
  h_MaxDatagramBytes : Z;
}.

Definition maximum (h : Handler) : Z :=
  if h_MaxMessageBytes h <=? 0 then Z.shiftl 64 20 else h_MaxMessageBytes h.
Definition maximumDatagram (h : Handler) : Z :=
  if h_MaxDatagramBytes h <=? 0 then 1200 else h_MaxDatagramBytes h.

(** [ServeHTTP] up to the session: the status of a refused request. *)
Inductive http_outcome := HttpError (code : Z) | Reported (e : error) | Serve.

Definition ServeHTTP (configured : bool) (auth upgrade : option error) : http_outcome :=
  if negb configured then HttpError 503
  else match auth with
       | Some _ => HttpError 401
       | None => match upgrade with Some e => Reported e | None => Serve end
       end.

(** [se_pumps]: the goroutines that forward the frames of a subscription. *)
Record session (B W : Type) := mkSession {
  se_bus : B;
  se_control : W;
  se_datagrams : list (list Byte.byte);
  se_subscriptions : gmap Z Z;
  se_acks : gmap Z Z;
  se_pumps : list (Z * Z);
}.
Arguments mkSession {B W} _ _ _ _ _ _.
Arguments se_bus {B W} _.
Arguments se_control {B W} _.
Arguments se_datagrams {B W} _.
Arguments se_subscriptions {B W} _.
Arguments se_acks {B W} _.
Arguments se_pumps {B W} _.

Section Session.
Context {B W : Type} `{!FrameBus B, !Writer W}.
(** [err.Error()] *)
Variable error_text : error -> string.
Implicit Types s : session B W.

Definition set_sbus s (b : B) : session B W :=
  mkSession b (se_control s) (se_datagrams s) (se_subscriptions s) (se_acks s) (se_pumps s).
Definition set_table s subs acks : session B W :=
  mkSession (se_bus s) (se_control s) (se_datagrams s) subs acks (se_pumps s).

Definition writeControl (m : Message) s : session B W * option error :=
  let '(w, err) := WriteMessage (se_control s) m in
  (mkSession (se_bus s) w (se_datagrams s) (se_subscriptions s) (se_acks s) (se_pumps s), err).

Definition session_subscribe (cx : ctx) (m : Message) s : session B W * option error :=
  if SubscriptionID m =? 0 then (s, Some (ErrNew "subscription id is required"))
  else match se_subscriptions s !! SubscriptionID m with
  | Some _ => (s, Some (ErrNew "subscription id already exists"))
  | None =>
      let o := msg_Options m in
      let o := if decide (so_Topic o = "")
               then mkSubOpts (Topic (msg_Frame m)) (so_Prefix o) (so_Buffer o) (so_Overflow o) (so_Replay o) (so_Since o)
               else o in
      let '(b, r) := fb_Subscribe cx o (se_bus s) in
      let s := set_sbus s b in
      match r with
      | Err e => (s, Some e)
      | Ok sub =>
          let id := SubscriptionID m in
          let s := mkSession (se_bus s) (se_control s) (se_datagrams s) (<[id := sub]> (se_subscriptions s))
                     (<[id := so_Since (msg_Options m)]> (se_acks s)) ((id, sub) :: se_pumps s) in
          writeControl (message MessageAck (msg_ID m) id 0 zero_Frame "") s
      end
  end.

Definition session_unsubscribe (id : Z) s : session B W * option error :=
  let sub := se_subscriptions s !! id in
  let s := set_table s (delete id (se_subscriptions s)) (delete id (se_acks s)) in
  match sub with
  | None => (s, Some (ErrNew "unknown subscription"))
  | Some sub => let '(b, err) := fb_CloseSub sub (se_bus s) in (set_sbus s b, err)
  end.

(** [send]: the error of [SendDatagram]. *)
Definition sendDatagram (send : option error) (data : list Byte.byte) s : session B W * option error :=
  match send with
  | Some e => (s, Some e)
  | None => (mkSession (se_bus s) (se_control s) (se_datagrams s ++ [data]) (se_subscriptions s) (se_acks s)
               (se_pumps s), None)
  end.

Definition handleMessage (cx : ctx) (send : option error) (m : Message) (datagram : bool) s
    : session B W * option error :=
  if Kind m =? MessageSubscribe then
    if datagram then (s, Some (ErrNew "subscribe requires the reliable control stream"))
    else session_subscribe cx m s
  else if Kind m =? MessageUnsubscribe then
    if datagram then (s, Some (ErrNew "unsubscribe requires the reliable control stream"))
    else session_unsubscribe (SubscriptionID m) s
  else if Kind m =? MessagePublish then
    let f := msg_Frame m in
    let f := if datagram
             then mkFrame (Sequence f) (fr_Timestamp f) (Topic f) (Payload f) Unreliable (fr_Priority f) else f in
    let '(b, r) := fb_Publish cx f (se_bus s) in
    let s := set_sbus s b in
    match r with
    | Err e => (s, Some e)
    | Ok sequence =>
        if datagram then (s, None)
        else writeControl (message MessageAck (msg_ID m) 0 sequence zero_Frame "") s
    end
  else if Kind m =? MessageAck then
    if datagram then (s, Some (ErrNew "ack requires the reliable control stream"))
    else match se_subscriptions s !! SubscriptionID m with
         | Some _ => (set_table s (se_subscriptions s) (<[SubscriptionID m := Ack m]> (se_acks s)), None)
         | None => (s, None)
         end
  else if Kind m =? MessagePing then
    let pong := message MessagePong (msg_ID m) 0 0 zero_Frame "" in
    if datagram then
      match EncodeMessage pong with
      | Err e => (s, Some e)
      | Ok data => sendDatagram send data s
      end
    else writeControl pong s
  else (s, Some (ErrNew ("unsupported message kind " ++ pretty (Kind m))%string)).

(** One message of [readControl]: an error is written back; the loop ends when
    that fails. *)
Definition readControl_step (cx : ctx) (m : Message) s : session B W * option error :=
  let '(s, err) := handleMessage cx None m false s in
  match err with
  | None => (s, None)
  | Some e => writeControl (message MessageError (msg_ID m) 0 0 zero_Frame (error_text e)) s
  end.

(** One datagram of [readDatagrams]: what is reported. *)
Definition readDatagrams_step (cx : ctx) (h : Handler) (send : option error) (data : list Byte.byte) s
    : session B W * option error :=
  if maximum h <? Z.of_nat (length data) then (s, None)
  else match DecodeMessage data with
       | Err _ => (s, None)
       | Ok m => handleMessage cx send m true s
       end.

(** The deferred function of [pump]. *)
Definition pump_exit (id sub : Z) s : session B W :=
  let s := set_table s (delete id (se_subscriptions s)) (delete id (se_acks s)) in
  let '(b, _) := fb_CloseSub sub (se_bus s) in
  mkSession b (se_control s) (se_datagrams s) (se_subscriptions s) (se_acks s)
    (filter (fun p => p <> (id, sub)) (se_pumps s)).

(** [order]: the subscriptions in the order Go visits them. *)
Definition closeSubscriptions (order : gmap Z Z -> list Z) s : session B W :=
  let subs := order (se_subscriptions s) in
  let s := set_table s ∅ ∅ in
  set_sbus s (foldl (fun b sub => fst (fb_CloseSub sub b)) (se_bus s) subs).

End Session.

(** ** The pump *)

Section Pump.
Context {W : Type} `{!Writer W}.

(** The reliable stream, once it is open, and the datagrams sent. *)
Record pump := mkPump {
  pu_stream : option W;
  pu_datagrams : list (list Byte.byte);
}.

(** What the calls for one frame meet: datagram support on both sides, the
    error of [SendDatagram], the stream or the error of [OpenUniStreamSync]. *)
Record pump_io := mkPumpIO {
  pio_supports : bool;
  pio_send : option error;
  pio_open : res W;
}.

Definition data_message (id : Z) (f : Frame) : Message := message MessageData 0 id 0 f "".
Definition open_message (id : Z) : Message := message MessageStreamOpen 0 id 0 zero_Frame "".

(** The reliable path. *)
Definition pump_reliable (io : pump_io) (id : Z) (f : Frame) (p : pump) : pump * option error :=
  let opened :=
    match pu_stream p with
    | Some w => Ok (w, None)
    | None =>
        match pio_open io with
        | Err e => Err e
        | Ok w => Ok (WriteMessage w (open_message id))
        end
    end in
  match opened with
  | Err e => (p, Some e)
  | Ok (w, Some e) => (mkPump (Some w) (pu_datagrams p), Some e)
  | Ok (w, None) =>
      let '(w, err) := WriteMessage w (data_message id f) in (mkPump (Some w) (pu_datagrams p), err)
  end.

(** One frame; an error ends the pump. *)
Definition pump_frame (h : Handler) (io : pump_io) (id : Z) (f : Frame) (p : pump) : pump * option error :=
  if fr_Reliability f =? Unreliable then
    match EncodeMessage (data_message id f) with
    | Err e => (p, Some e)
    | Ok data =>
        if (Z.of_nat (length data) <=? maximumDatagram h) && pio_supports io
           && bool_decide (pio_send io = None)
        then (mkPump (pu_stream p) (pu_datagrams p ++ [data]), None)
        else pump_reliable io id f p
    end
  else pump_reliable io id f p.

Fixpoint pump_frames (h : Handler) (id : Z) (fs : list (pump_io * Frame)) (p : pump) : pump * option error :=
  match fs with
  | [] => (p, None)
  | (io, f) :: fs =>
      match pump_frame h io id f p with
      | (p, None) => pump_frames h id fs p
      | (p, Some e) => (p, Some e)
      end
  end.

(** What the [select] of [pump] takes: the end of its context, the end of the
    subscription's channel, or a frame with what its calls meet. *)
Inductive pump_choice :=
| PumpCancelled (err : error)
| PumpEnded
| PumpFrame (io : pump_io) (f : Frame).

(** One turn of the loop of [pump]; with a result, it was the last. *)
Definition pump_turn (h : Handler) (id : Z) (c : pump_choice) (p : pump) : pump * option (option error) :=
  match c with
  | PumpCancelled err => (p, Some (Some err))
  | PumpEnded => (p, Some None)
  | PumpFrame io f =>
      match pump_frame h io id f p with
      | (p, None) => (p, None)
      | (p, Some e) => (p, Some (Some e))
      end
  end.

(** A stream that was closed, and the calls of a session that was closed: no
    datagram is sent, no stream opens, no stream is written. *)
Definition stream_closed (w : W) : Prop := forall data, exists w' n e, Write w data = (w', (n, Some e)).
Definition pump_closed (c : pump_choice) (p : pump) : Prop :=
  match c with
  | PumpFrame io _ =>
      pio_send io <> None /\ (exists e, pio_open io = Err e) /\
      match pu_stream p with Some w => stream_closed w | None => True end
  | _ => True
  end.

Lemma WriteMessage_closed w m : stream_closed w -> exists w' e, WriteMessage w m = (w', Some e).
Proof.
  intros Hw. unfold WriteMessage. destruct (EncodeMessage m) as [data|e]; [|by eexists _, _].
  pose proof (PutUvarint_nonempty (u64 (Z.of_nat (length data)))) as Hne.
  unfold writeAll at 1. destruct (PutUvarint _) as [|x l]; [done|].
  destruct (Hw (x :: l)) as (w' & n & e & E). simpl. rewrite E. by eexists _, _.
Qed.

(** In a closed session every turn of a pump is its last. *)
Lemma pump_turn_closed h id c p : pump_closed c p -> exists p' r, pump_turn h id c p = (p', Some r).
Proof.
  destruct c as [err| |io f]; simpl; [by eexists _, _..|]. intros (Hsend & (e & Hopen) & Hw).
  assert (exists p' e, pump_frame h io id f p = (p', Some e)) as (p' & e' & ->); [|by eexists _, _].
  assert (exists p' e, pump_reliable io id f p = (p', Some e)) as Hrel.
  { unfold pump_reliable. rewrite Hopen. destruct (pu_stream p) as [w|]; [|by eexists _, _].
    destruct (WriteMessage_closed w (data_message id f) Hw) as (w' & e' & ->). by eexists _, _. }
  unfold pump_frame. destruct (_ =? Unreliable); [|done]. destruct (EncodeMessage _) as [data|]; [|by eexists _, _].
  rewrite (bool_decide_false (pio_send io = None)) by done. by rewrite andb_false_r.
Qed.

End Pump.
Arguments pump W : clear implicits.
Arguments pump_io W : clear implicits.
Arguments pump_choice W : clear implicits.

(** ** The table of a session *)

Section Laws.
Context {B W : Type} `{!FrameBus B, !Writer W}.
Variable error_text : error -> string.
Implicit Types s : session B W.

(** Subscriptions and acknowledgements have the same identifiers, none of them
    zero, and every subscription has its pump. *)
Record session_inv s : Prop := {
  sv_dom : dom (se_acks s) = dom (se_subscriptions s);
  sv_zero : se_subscriptions s !! 0 = None;
  sv_pump : forall id sub, se_subscriptions s !! id = Some sub -> (id, sub) ∈ se_pumps s;
}.

Lemma session_inv_ext s s' :
  se_subscriptions s' = se_subscriptions s -> se_acks s' = se_acks s -> se_pumps s' = se_pumps s ->
  session_inv s -> session_inv s'.
Proof. intros E1 E2 E3 []. split; rewrite ?E1, ?E2, ?E3; done. Qed.

Lemma writeControl_table m s :
  se_subscriptions (fst (writeControl m s)) = se_subscriptions s /\
  se_acks (fst (writeControl m s)) = se_acks s /\ se_pumps (fst (writeControl m s)) = se_pumps s.
Proof. unfold writeControl. by destruct (WriteMessage _ _). Qed.

Lemma writeControl_inv m s : session_inv s -> session_inv (fst (writeControl m s)).
Proof. destruct (writeControl_table m s) as (?&?&?). by apply session_inv_ext. Qed.

Lemma delete_inv s id :
  session_inv s -> session_inv (set_table s (delete id (se_subscriptions s)) (delete id (se_acks s))).
Proof.
  intros [H1 H2 H3]. split; simpl.
  - by rewrite !dom_delete_L, H1.
  - apply lookup_delete_None. by right.
  - intros id' sub [_ ?]%lookup_delete_Some. by apply H3.
Qed.

Lemma handleMessage_inv cx send m datagram s :
  session_inv s -> session_inv (fst (handleMessage cx send m datagram s)).
Proof.
  intros H. unfold handleMessage. destruct (Kind m =? MessageSubscribe).
  { destruct datagram; [done|]. unfold session_subscribe. destruct (SubscriptionID m =? 0) eqn:E0; [done|].
    bool_to_prop. destruct (se_subscriptions s !! SubscriptionID m) eqn:Es; [done|].
    destruct (fb_Subscribe _ _ _) as [b [sub|e]]; [|by eapply session_inv_ext; [..|exact H]].
    apply writeControl_inv. destruct H as [H1 H2 H3]. split; simpl.
    - by rewrite !dom_insert_L, H1.
    - by rewrite lookup_insert_ne by congruence.
    - intros id' sub' [[<- <-]|[_ ?]]%lookup_insert_Some; [by left|right; by apply H3]. }
  destruct (Kind m =? MessageUnsubscribe).
  { destruct datagram; [done|]. unfold session_unsubscribe. pose proof (delete_inv s (SubscriptionID m) H) as Hd.
    destruct (se_subscriptions s !! SubscriptionID m); [|done].
    destruct (fb_CloseSub _ _). by eapply session_inv_ext; [..|exact Hd]. }
  destruct (Kind m =? MessagePublish).
  { destruct (fb_Publish _ _ _) as [b [q|e]]; [|by eapply session_inv_ext; [..|exact H]].
    destruct datagram; [|apply writeControl_inv]; by eapply session_inv_ext; [..|exact H]. }
  destruct (Kind m =? MessageAck).
  { destruct datagram; [done|]. destruct (se_subscriptions s !! SubscriptionID m) eqn:E; [|done].
    destruct H as [H1 H2 H3]. split; simpl; try done. rewrite dom_insert_L, H1.
    assert (SubscriptionID m ∈ dom (se_subscriptions s)) by (apply elem_of_dom; by eexists). set_solver. }
  destruct (Kind m =? MessagePing); [|done].
  destruct datagram; [|by apply writeControl_inv]. destruct (EncodeMessage _); [|done].
  unfold sendDatagram. destruct send; [done|]. by eapply session_inv_ext; [..|exact H].
Qed.

(** The steps of a session. A pump ends when its subscription is closed, its
    context is done or a write fails. *)
Inductive session_step : session B W -> session B W -> Prop :=
| ses_control cx m s : session_step s (fst (readControl_step error_text cx m s))
| ses_datagram cx h send data s : session_step s (fst (readDatagrams_step cx h send data s))
| ses_pump id sub s : (id, sub) ∈ se_pumps s -> session_step s (pump_exit id sub s)
| ses_close order s : session_step s (closeSubscriptions order s).

Lemma session_step_inv s s' : session_step s s' -> session_inv s -> session_inv s'.
Proof.
  destruct 1 as [cx m s|cx h send data s|id sub s Hp|order s]; intros H.
  - pose proof (handleMessage_inv cx None m false s H) as Hm. unfold readControl_step.
    destruct (handleMessage _ _ _ _ _) as [s1 [e|]]; [by apply writeControl_inv|done].
  - unfold readDatagrams_step. case_match; [done|]. destruct (DecodeMessage data); [|done].
    by apply handleMessage_inv.
  - unfold pump_exit. destruct (fb_CloseSub _ _) as [b ?]. pose proof (delete_inv s id H) as [H1 H2 H3].
    split; simpl in *; try done. intros id' sub' Hs. apply list_elem_of_filter. split; [|by apply H3].
    intros [= -> ->]. by rewrite lookup_delete_eq in Hs.
  - split; simpl; [by rewrite !dom_empty_L|done|]. intros id sub Hs. by rewrite lookup_empty in Hs.
Qed.

(** A session opens with an empty table; whatever messages, datagrams and ends
    of pumps follow, the table stays well formed. *)
Theorem session_reachable_inv b w s :
  rtc session_step (mkSession b w [] ∅ ∅ []) s -> session_inv s.
Proof.
  intros H. assert (forall a, rtc session_step a s -> session_inv a -> session_inv s) as Hr.
  { induction 1; eauto using session_step_inv. }
  apply (Hr _ H). split; simpl; [by rewrite !dom_empty_L|done|]. intros id sub Hs. by rewrite lookup_empty in Hs.
Qed.

(** The end of a pump forgets whatever subscription has its identifier: when a
    client unsubscribes and subscribes again under the same identifier before
    the old pump has ended, the new subscription is lost from the table. Its
    pump still runs, but the client's next unsubscribe is refused and leaves
    the subscription open. *)
Theorem stale_pump_forgets_subscription cx m s sub1 sub2 b :
  let id := SubscriptionID m in
  let s1 := fst (session_unsubscribe id s) in
  id <> 0 -> se_subscriptions s !! id = Some sub1 -> sub1 <> sub2 ->
  (forall o, fb_Subscribe cx o (se_bus s1) = (b, Ok sub2)) ->
  let s3 := pump_exit id sub1 (fst (session_subscribe cx m s1)) in
  (id, sub2) ∈ se_pumps s3 /\ se_subscriptions s3 !! id = None /\
  snd (session_unsubscribe id s3) = Some (ErrNew "unknown subscription") /\
  se_bus (fst (session_unsubscribe id s3)) = se_bus s3.
Proof.
  intros id s1 Hid Hs Hne Hb s3. subst s3.
  assert (se_subscriptions s1 !! id = None) as Hn.
  { subst s1. unfold session_unsubscribe. rewrite Hs. destruct (fb_CloseSub _ _). simpl. by rewrite lookup_delete_eq. }
  assert (exists s2, fst (session_subscribe cx m s1) = s2 /\ (id, sub2) ∈ se_pumps s2) as (s2 & -> & Hp).
  { unfold session_subscribe. fold id. rewrite (proj2 (Z.eqb_neq id 0) Hid), Hn, Hb.
    eexists. split; [done|]. destruct (writeControl_table (message MessageAck (msg_ID m) id 0 zero_Frame "")
      (mkSession b (se_control s1) (se_datagrams s1) (<[id := sub2]> (se_subscriptions s1))
        (<[id := so_Since (msg_Options m)]> (se_acks s1)) ((id, sub2) :: se_pumps s1))) as (_ & _ & E).
    simpl in *. rewrite E. by left. }
  unfold pump_exit. destruct (fb_CloseSub sub1 _) as [b' ?]. simpl. rewrite lookup_delete_eq.
  unfold session_unsubscribe. simpl. rewrite lookup_delete_eq. split_and!; try done.
  apply list_elem_of_filter. split; [congruence|done].
Qed.

End Laws.

(** ** What a pump delivers *)

Section Delivery.
Context {W : Type} `{!Writer W}.
Variable written : W -> list Byte.byte.

(** The contract of a stream that does not fail. *)
Hypothesis Write_law : forall w data, data <> [] ->
  exists w' n, Write w data = (w', (n, None)) /\ 0 < n <= Z.of_nat (length data) /\
    written w' = written w ++ take (Z.to_nat n) data.

(** The bytes are a sequence of framed messages. *)
Definition framed (max : Z) (bs : list Byte.byte) (ms : list Message) : Prop :=
  exists bss, bs = concat bss /\ Forall2 (fun b m => reads (ReadMessage max) b m) bss ms.

Lemma framed_snoc max bs ms b m :
  framed max bs ms -> reads (ReadMessage max) b m -> framed max (bs ++ b) (ms ++ [m]).
Proof.
  intros (bss & -> & H) Hb. exists (bss ++ [b]). split; [by rewrite concat_app, concat_cons, app_nil_r|].
  apply Forall2_app; [done|]. by repeat constructor.
Qed.

Lemma framed_reads max bs ms : framed max bs ms -> reads (read_messages (length ms) max) bs ms.
Proof.
  intros (bss & -> & H). induction H as [|b m bss ms Hb H IH]; simpl; [done|].
  apply reads_bind with m; [done|]. rewrite <- (app_nil_r (concat bss)). by eapply reads_bind; [exact IH|].
Qed.

Definition frame_sendable (max id : Z) (f : Frame) : Prop := sendable max (data_message id f).

(** What a pump has sent: the frames [dg] in datagrams, and on the reliable
    stream, which is open if there are any, the frames [rel]. *)
Record pump_sent (max id : Z) (p : pump W) (dg rel : list Frame) : Prop := {
  ps_datagrams : DecodeMessage <$> pu_datagrams p = (fun f => Ok (wire_norm (data_message id f))) <$> dg;
  ps_stream : match pu_stream p with
              | None => rel = []
              | Some w => framed max (written w) (wire_norm <$> open_message id :: (data_message id <$> rel))
              end;
}.

Lemma pump_reliable_sent io id f p max dg rel w0 :
  0 <= max < 2 ^ 63 -> sendable max (open_message id) -> frame_sendable max id f ->
  pio_open io = Ok w0 -> written w0 = [] -> pump_sent max id p dg rel ->
  exists p', pump_reliable io id f p = (p', None) /\ pump_sent max id p' dg (rel ++ [f]).
Proof.
  intros Hmax Ho Hf Hio Hw0 [Hd Hs]. unfold pump_reliable.
  assert (exists w, (match pu_stream p with
    | Some w => Ok (w, None)
    | None => match pio_open io with Err e => Err e | Ok w => Ok (WriteMessage w (open_message id)) end
    end) = Ok (w, None) /\ framed max (written w) (wire_norm <$> open_message id :: (data_message id <$> rel)))
    as (w & -> & Hw).
  { destruct (pu_stream p) as [w|]; [by exists w|]. subst rel. rewrite Hio.
    destruct (WriteMessage_reads written Write_law w0 _ max Hmax Ho) as (w1 & bs & -> & E & Hr).
    exists w1. split; [done|]. rewrite E, Hw0. by apply (framed_snoc max [] []); [exists []|]. }
  destruct (WriteMessage_reads written Write_law w _ max Hmax Hf) as (w2 & bs & -> & E & Hr).
  eexists. split; [done|]. split; [done|]. simpl. rewrite E, fmap_app, fmap_app.
  exact (framed_snoc max (written w) (wire_norm <$> open_message id :: (data_message id <$> rel)) _ _ Hw Hr).
Qed.

(** Frames, each with what its calls meet, where streams can be opened. *)
Definition stream_opens (iof : pump_io W * Frame) : Prop :=
  exists w, pio_open iof.1 = Ok w /\ written w = [].

(** Which frames are to go as datagrams: the unreliable ones whose data message
    fits, when both sides support datagrams and [SendDatagram] succeeds. *)
Definition by_datagram (h : Handler) (id : Z) (iof : pump_io W * Frame) : bool :=
  bool_decide (fr_Reliability iof.2 = Unreliable) && pio_supports iof.1 && bool_decide (pio_send iof.1 = None) &&
  match EncodeMessage (data_message id iof.2) with
  | Ok data => Z.of_nat (length data) <=? maximumDatagram h
  | Err _ => false
  end.

Definition datagram_frames (h : Handler) (id : Z) (fs : list (pump_io W * Frame)) : list Frame :=
  (filter (fun iof => by_datagram h id iof = true) fs).*2.
Definition stream_frames (h : Handler) (id : Z) (fs : list (pump_io W * Frame)) : list Frame :=
  (filter (fun iof => by_datagram h id iof = false) fs).*2.

Lemma pump_frame_sent h io id f p max dg rel w0 :
  0 <= max < 2 ^ 63 -> sendable max (open_message id) -> frame_sendable max id f ->
  pio_open io = Ok w0 -> written w0 = [] -> pump_sent max id p dg rel ->
  exists p', pump_frame h io id f p = (p', None) /\
    pump_sent max id p' (dg ++ datagram_frames h id [(io, f)]) (rel ++ stream_frames h id [(io, f)]).
Proof.
  intros Hmax Ho Hf Hio Hw0 Hp.
  destruct (pump_reliable_sent io id f p max dg rel w0 Hmax Ho Hf Hio Hw0 Hp) as (p1 & E1 & H1).
  unfold pump_frame, datagram_frames, stream_frames. rewrite !filter_cons, !filter_nil. unfold by_datagram.
  cbn [fst snd]. destruct Hf as (Hok & data & Ed & _). rewrite Ed.
  destruct (Z.eqb_spec (fr_Reliability f) Unreliable) as [Er|Er];
    [rewrite (bool_decide_true _ Er)|rewrite (bool_decide_false _ Er)]; simpl;
    [|exists p1; rewrite app_nil_r; by split].
  destruct (pio_supports io), (bool_decide (pio_send io = None)), (Z.of_nat (length data) <=? maximumDatagram h);
    simpl; rewrite ?app_nil_r; try (by exists p1; split).
  eexists. split; [done|]. destruct Hp as [Hd Hst]. split; [|done]. simpl. rewrite !fmap_app, Hd. simpl.
  by rewrite (Decode_Encode _ _ Hok Ed).
Qed.

Lemma pump_frames_sent h id max fs p dg rel :
  0 <= max < 2 ^ 63 -> sendable max (open_message id) -> Forall (fun iof => frame_sendable max id iof.2) fs ->
  Forall stream_opens fs -> pump_sent max id p dg rel ->
  exists p', pump_frames h id fs p = (p', None) /\
    pump_sent max id p' (dg ++ datagram_frames h id fs) (rel ++ stream_frames h id fs).
Proof.
  intros Hmax Ho Hf Hs. revert p dg rel. induction fs as [|[io f] fs IH]; intros p dg rel Hp; simpl.
  { exists p. by rewrite !app_nil_r. }
  apply Forall_cons in Hf as [Hf Hfs]. apply Forall_cons in Hs as [(w0 & Hio & Hw0) Hs].
  destruct (pump_frame_sent h io id f p max dg rel w0 Hmax Ho Hf Hio Hw0 Hp) as (p1 & -> & Hp1).
  destruct (IH Hfs Hs _ _ _ Hp1) as (p' & E & Hsent). exists p'. split; [done|].
  assert (forall P : pump_io W * Frame -> Prop, forall `{forall x, Decision (P x)},
    (filter P ((io, f) :: fs)).*2 = (filter P [(io, f)]).*2 ++ (filter P fs).*2) as Hcons.
  { intros P HP. change ((io, f) :: fs) with ([(io, f)] ++ fs). by rewrite filter_app, fmap_app. }
  unfold datagram_frames, stream_frames in *. rewrite !Hcons, !app_assoc. exact Hsent.
Qed.

(** C26. A pump loses no frame and sends each one on the way it should go. When
    streams can be opened and written: the frames that go as datagrams are
    exactly the unreliable ones whose data message fits a datagram, while both
    sides support datagrams, and whose [SendDatagram] succeeds; the datagrams
    sent decode to their data messages, one each, in order. All other frames
    (reliable, too large, without support, or whose datagram failed) are on the
    reliable stream in order, and on no datagram: a reader of that stream reads
    the opening message and then exactly their data messages. *)
Theorem pump_delivers h id max fs :
  0 <= max < 2 ^ 63 -> sendable max (open_message id) -> Forall (fun iof => frame_sendable max id iof.2) fs ->
  Forall stream_opens fs ->
  exists p, pump_frames h id fs (mkPump None []) = (p, None) /\
    DecodeMessage <$> pu_datagrams p =
      (fun f => Ok (wire_norm (data_message id f))) <$> datagram_frames h id fs /\
    match pu_stream p with
    | None => stream_frames h id fs = []
    | Some w => reads (read_messages (S (length (stream_frames h id fs))) max) (written w)
                  (wire_norm <$> open_message id :: (data_message id <$> stream_frames h id fs))
    end.
Proof.
  intros Hmax Ho Hf Hs.
  destruct (pump_frames_sent h id max fs (mkPump None []) [] [] Hmax Ho Hf Hs) as (p & E & [Hd Hst]); [by split|].
  exists p. split; [done|]. split; [done|].
  destruct (pu_stream p) as [w|]; [|done]. apply framed_reads in Hst.
  by rewrite length_fmap, length_cons, length_fmap in Hst.
Qed.

End Delivery.

(** ** Witnesses *)

#[local] Instance list_writer : Writer (list Byte.byte) := fun w data =>
  (w ++ data, (Z.of_nat (length data), None)).

Lemma list_writer_law (w data : list Byte.byte) : data <> [] ->
  exists w' n, Write w data = (w', (n, None)) /\ 0 < n <= Z.of_nat (length data) /\
    id w' = id w ++ take (Z.to_nat n) data.
Proof.
  intros Hd. eexists _, _. split; [reflexivity|]. split; [destruct data; [done|simpl length; lia]|].
  rewrite Nat2Z.id. by rewrite firstn_all.
Qed.

Definition wt_frame (rel : Z) : Frame := mkFrame 1 0 "t" [Byte.x01] rel 0.
Definition wt_io : pump_io (list Byte.byte) := mkPumpIO true None (Ok []).
Definition wt_io_fails : pump_io (list Byte.byte) := mkPumpIO true (Some ErrEOF) (Ok []).
Definition wt_frames : list (pump_io (list Byte.byte) * Frame) :=
  [(wt_io, wt_frame 1); (wt_io_fails, wt_frame 1); (wt_io, wt_frame 0)].

Lemma wt_sendable rel : 0 <= rel <= 1 -> frame_sendable 100 7 (wt_frame rel).
Proof.
  intros Hr. split.
  - split; simpl; unfold is_u64, is_i64, Reliable, Unreliable, MessageData, MessagePong, PriorityBulk, PriorityCritical,
      Block, LatestOnly; lia.
  - assert (rel = 0 \/ rel = 1) as [->| ->] by lia; (eexists; split; [by vm_compute|by vm_compute]).
Qed.

Lemma pump_delivers_witness :
  exists p, pump_frames (mkHandler 0 0) 7 wt_frames (mkPump None []) = (p, None) /\
    length (pu_datagrams p) = 1%nat /\ length (stream_frames (mkHandler 0 0) 7 wt_frames) = 2%nat.
Proof.
  destruct (pump_delivers id list_writer_law (mkHandler 0 0) 7 100 wt_frames) as (p & E & Hd & _).
  - lia.
  - split; [split; simpl; unfold is_u64, is_i64; (lia || done)|]. eexists. split; [by vm_compute|by vm_compute].
  - repeat (constructor; [by apply wt_sendable|]). constructor.
  - repeat (constructor; [by exists []|]). constructor.
  - exists p. split; [exact E|]. split; [|by vm_compute]. apply (f_equal length) in Hd.
    rewrite !length_fmap in Hd. rewrite Hd. by vm_compute.
Defined.
