(* ===== verification/MeshPacket.v ===== *)
(** * MeshPacket: the datagrams of the mesh bus

    Models [src/syncbus/mesh/packet.go]: [packet.marshal] into a caller's
    buffer and [packet.unmarshal] from a datagram, offset by offset as the
    code does it. *)

From S2P Require Import Prelude Bytes.
From Stdlib Require Import Strings.Byte.

Definition magicByte : Byte.byte := x57.
Definition typeInvalidate : Byte.byte := x01.
Definition typeHeartbeat : Byte.byte := x02.
Definition typeBatch : Byte.byte := x03.

(** The length of the pooled buffers. *)
Definition bufferLen : nat := 2048.

Record packet := mkPacket {
  p_Magic : Byte.byte;
  p_Type : Byte.byte;
  p_NodeID : list Byte.byte;
  p_KeyHash : Z;
  p_KeyLen : Z;
  p_Key : list Byte.byte;
  p_Keys : list string;
}.

(** [var p packet] *)
Definition zero_packet : packet := mkPacket x00 x00 (replicate 16 x00) 0 0 [] [].

(** [copy(b[off:], data)] *)
Definition copy_at (off : nat) (data b : list Byte.byte) : list Byte.byte :=
  take off b ++ take (length b - off) data ++ drop (off + length data) b.

(** [b[i:j]] *)
Definition slice (i j : nat) (b : list Byte.byte) : list Byte.byte := take (j - i) (drop i b).

Definition keyed (t : Byte.byte) : bool := bool_decide (t = typeInvalidate \/ t = typeHeartbeat).

(** The loop over the keys of a batch. *)
Fixpoint marshal_keys (keys : list string) (curr : nat) (b : list Byte.byte)
    : list Byte.byte * (nat * option error) :=
  match keys with
  | [] => (b, (curr, None))
  | k :: keys =>
      let kLen := String.length k in
      if (length b <? curr + 2 + kLen)%nat then (b, (curr, Some ErrShortBuffer))
      else
        let b := copy_at curr (put_be 2 (u16 (Z.of_nat kLen))) b in
        let b := copy_at (curr + 2) (string_bytes k) b in
        marshal_keys keys (curr + (2 + kLen)) b
  end.

(** The buffer afterwards, the length and the error returned. *)
Definition marshal (p : packet) (b : list Byte.byte) : list Byte.byte * (nat * option error) :=
  if (length b <? 18)%nat then (b, (0%nat, Some ErrShortBuffer))
  else
    let b := copy_at 0 [p_Magic p] b in
    let b := copy_at 1 [p_Type p] b in
    let b := copy_at 2 (p_NodeID p) b in
    if keyed (p_Type p) then
      if (length b <? 28 + length (p_Key p))%nat then (b, (0%nat, Some ErrShortBuffer))
      else
        let b := copy_at 18 (put_be 8 (p_KeyHash p)) b in
        let b := copy_at 26 (put_be 2 (p_KeyLen p)) b in
        let b := copy_at 28 (p_Key p) b in
        (b, ((28 + Z.to_nat (p_KeyLen p))%nat, None))
    else if decide (p_Type p = typeBatch) then
      if (length b <? 20)%nat then (b, (0%nat, Some ErrShortBuffer))
      else
        let b := copy_at 18 (put_be 2 (u16 (Z.of_nat (length (p_Keys p))))) b in
        marshal_keys (p_Keys p) 20 b
    else (b, (18%nat, None)).

(** The loop over the keys of a batch: the keys read, and the error. *)
Fixpoint unmarshal_keys (count curr : nat) (b : list Byte.byte) (keys : list string)
    : list string * option error :=
  match count with
  | O => (keys, None)
  | S count =>
      if (length b <? curr + 2)%nat then (keys, Some ErrShortBuffer)
      else
        let kLen := Z.to_nat (get_be (slice curr (curr + 2) b)) in
        if (length b <? curr + 2 + kLen)%nat then (keys, Some ErrShortBuffer)
        else
          unmarshal_keys count (curr + (2 + kLen)) b
            (keys ++ [bytes_string (slice (curr + 2) (curr + 2 + kLen) b)])
  end.

(** The packet afterwards, written as far as the code got, and the error. *)
Definition unmarshal (p : packet) (b : list Byte.byte) : packet * option error :=
  if (length b <? 18)%nat then (p, Some ErrShortBuffer)
  else
    let magic := default x00 (b !! 0%nat) in
    if decide (magic <> magicByte) then
      (mkPacket magic (p_Type p) (p_NodeID p) (p_KeyHash p) (p_KeyLen p) (p_Key p) (p_Keys p),
       Some ErrInvalidMagic)
    else
      let type := default x00 (b !! 1%nat) in
      let node := slice 2 18 b in
      let p := mkPacket magic type node (p_KeyHash p) (p_KeyLen p) (p_Key p) (p_Keys p) in
      if keyed type then
        if (length b <? 28)%nat then (p, Some ErrShortBuffer)
        else
          let p := mkPacket magic type node (get_be (slice 18 26 b)) (get_be (slice 26 28 b))
                     (p_Key p) (p_Keys p) in
          let n := Z.to_nat (p_KeyLen p) in
          if (length b <? 28 + n)%nat then (p, Some ErrShortBuffer)
          else if 0 <? p_KeyLen p then
            (mkPacket magic type node (p_KeyHash p) (p_KeyLen p) (slice 28 (28 + n) b) (p_Keys p), None)
          else (p, None)
      else if decide (type = typeBatch) then
        if (length b <? 20)%nat then (p, Some ErrShortBuffer)
        else
          let count := Z.to_nat (get_be (slice 18 20 b)) in
          let '(keys, err) := unmarshal_keys count 20 b [] in
          (mkPacket magic type node (p_KeyHash p) (p_KeyLen p) (p_Key p) keys, err)
      else (p, None).

(** ** The encoding as one byte string *)

Definition key_bytes (k : string) : list Byte.byte :=
  put_be 2 (Z.of_nat (String.length k)) ++ string_bytes k.

Definition head_bytes (p : packet) : list Byte.byte := [p_Magic p; p_Type p] ++ p_NodeID p.

Definition packet_bytes (p : packet) : list Byte.byte :=
  head_bytes p ++
  if keyed (p_Type p) then put_be 8 (p_KeyHash p) ++ put_be 2 (p_KeyLen p) ++ p_Key p
  else if decide (p_Type p = typeBatch) then
    put_be 2 (Z.of_nat (length (p_Keys p))) ++ concat (key_bytes <$> p_Keys p)
  else [].

(** A packet whose fields fit their encoding. *)
Record packet_ok (p : packet) : Prop := {
  pk_magic : p_Magic p = magicByte;
  pk_node : length (p_NodeID p) = 16%nat;
  pk_hash : 0 <= p_KeyHash p < 2 ^ 64;
  pk_len : p_KeyLen p = Z.of_nat (length (p_Key p));
  pk_short : Z.of_nat (length (p_Key p)) < 2 ^ 16;
  pk_count : Z.of_nat (length (p_Keys p)) < 2 ^ 16;
  pk_keys : Forall (fun k => Z.of_nat (String.length k) < 2 ^ 16) (p_Keys p);
}.

(** What a packet of its type carries. *)
Definition packet_norm (p : packet) : packet :=
  if keyed (p_Type p) then mkPacket (p_Magic p) (p_Type p) (p_NodeID p) (p_KeyHash p) (p_KeyLen p) (p_Key p) []
  else if decide (p_Type p = typeBatch) then mkPacket (p_Magic p) (p_Type p) (p_NodeID p) 0 0 [] (p_Keys p)
  else mkPacket (p_Magic p) (p_Type p) (p_NodeID p) 0 0 [] [].

(** Equality of structures up to arithmetic on lengths. *)
Ltac eq_lia := repeat first [reflexivity | lia | f_equal].

(** Writing after what is already written. *)
Lemma copy_at_app pre data rest off :
  off = length pre -> (length data <= length rest)%nat ->
  copy_at off data (pre ++ rest) = pre ++ data ++ drop (length data) rest.
Proof.
  intros -> H. unfold copy_at. rewrite length_app, take_app_length.
  rewrite take_ge by lia. by rewrite drop_app_add.
Qed.

Lemma length_copy_at off data b :
  (off + length data <= length b)%nat -> length (copy_at off data b) = length b.
Proof. intros H. unfold copy_at. rewrite !length_app, !length_take, length_drop. lia. Qed.

Lemma slice_app pre data rest i j :
  i = length pre -> j = (i + length data)%nat -> slice i j (pre ++ data ++ rest) = data.
Proof.
  intros -> ->. unfold slice. rewrite drop_app_length.
  replace (length pre + length data - length pre)%nat with (length data) by lia.
  apply take_app_length.
Qed.

Lemma length_key_bytes k : length (key_bytes k) = (2 + String.length k)%nat.
Proof. unfold key_bytes. by rewrite length_app, length_put_be, length_string_bytes. Qed.

Lemma marshal_keys_ok keys pre rest :
  Forall (fun k => Z.of_nat (String.length k) < 2 ^ 16) keys ->
  (length (concat (key_bytes <$> keys)) <= length rest)%nat ->
  marshal_keys keys (length pre) (pre ++ rest) =
    (pre ++ concat (key_bytes <$> keys) ++ drop (length (concat (key_bytes <$> keys))) rest,
     ((length pre + length (concat (key_bytes <$> keys)))%nat, None)).
Proof.
  intros Hk. revert pre rest. induction Hk as [|k keys Hk _ IH]; intros pre rest Hlen.
  { simpl. by rewrite drop_0, Nat.add_0_r. }
  rewrite fmap_cons in Hlen |- *. cbn [marshal_keys concat] in Hlen |- *.
  rewrite length_app, length_key_bytes in Hlen.
  rewrite length_app. destruct (Nat.ltb_spec (length pre + length rest) (length pre + 2 + String.length k)); [lia|].
  unfold u16. rewrite Z.mod_small by lia.
  rewrite copy_at_app; [|done|rewrite length_put_be; lia].
  rewrite app_assoc, copy_at_app;
    [|rewrite length_app, length_put_be; lia|rewrite length_drop, length_put_be, length_string_bytes; lia].
  rewrite drop_drop, length_put_be, length_string_bytes.
  rewrite app_assoc, <- (app_assoc pre). fold (key_bytes k).
  replace (length pre + (2 + String.length k))%nat with (length (pre ++ key_bytes k))
    by (by rewrite length_app, length_key_bytes).
  rewrite IH by (rewrite length_drop; lia).
  rewrite !length_app, length_key_bytes, drop_drop, <- !app_assoc. eq_lia.
Qed.

Lemma length_head p : packet_ok p -> length (head_bytes p) = 18%nat.
Proof. intros H. unfold head_bytes. rewrite length_app, (pk_node _ H). done. Qed.

(** The head as the three writes make it. *)
Lemma marshal_head p b :
  packet_ok p -> (18 <= length b)%nat ->
  copy_at 2 (p_NodeID p) (copy_at 1 [p_Type p] (copy_at 0 [p_Magic p] b)) = head_bytes p ++ drop 18 b.
Proof.
  intros H Hb. destruct b as [|b0 [|b1 b]]; simpl in Hb; [lia|lia|].
  change (copy_at 0 [p_Magic p] (b0 :: b1 :: b)) with ([p_Magic p] ++ (b1 :: b)).
  rewrite copy_at_app by (simpl; lia). rewrite app_assoc, copy_at_app; [|simpl; lia|]. 2: { simpl. rewrite (pk_node _ H), drop_0. lia. }
  rewrite (pk_node _ H). unfold head_bytes. rewrite <- !app_assoc. done.
Qed.

Lemma marshal_bytes p b :
  packet_ok p -> (length (packet_bytes p) <= length b)%nat ->
  marshal p b = (packet_bytes p ++ drop (length (packet_bytes p)) b, (length (packet_bytes p), None)).
Proof.
  intros H Hlen. pose proof (length_head p H) as Hh. unfold packet_bytes in *.
  rewrite length_app in *. unfold marshal.
  destruct (Nat.ltb_spec (length b) 18) as [|Hb]; [lia|]. rewrite marshal_head by done.
  destruct (keyed (p_Type p)) eqn:Ek; [|case_decide as Et].
  - rewrite !length_app, !length_put_be in *. rewrite length_drop, Hh.
    destruct (Nat.ltb_spec (18 + (length b - 18)) (28 + length (p_Key p))); [lia|].
    rewrite copy_at_app by (rewrite ?length_put_be, ?length_drop; lia).
    rewrite app_assoc, copy_at_app by (rewrite ?length_app, ?length_put_be, ?length_drop, ?length_put_be; lia).
    rewrite app_assoc, copy_at_app by (rewrite ?length_app, ?length_put_be, ?length_drop, ?length_put_be; lia).
    rewrite !length_put_be, !drop_drop, <- !app_assoc, (pk_len _ H), Nat2Z.id. eq_lia.
  - rewrite !length_app, !length_put_be in *. rewrite length_drop, Hh.
    destruct (Nat.ltb_spec (18 + (length b - 18)) 20); [lia|].
    unfold u16. rewrite Z.mod_small by (pose proof (pk_count _ H); lia).
    rewrite copy_at_app by (rewrite ?length_put_be, ?length_drop; lia).
    rewrite length_put_be, drop_drop, app_assoc.
    replace 20%nat with (length (head_bytes p ++ put_be 2 (Z.of_nat (length (p_Keys p)))))
      at 1 by (rewrite length_app, length_put_be, Hh; done).
    rewrite marshal_keys_ok; [|apply (pk_keys _ H)|rewrite length_drop; lia].
    rewrite length_app, length_put_be, Hh, drop_drop, <- !app_assoc. eq_lia.
  - by rewrite app_nil_r, Hh.
Qed.

(** ** Reading *)

Lemma unmarshal_keys_ok keys pre rest acc :
  Forall (fun k => Z.of_nat (String.length k) < 2 ^ 16) keys ->
  unmarshal_keys (length keys) (length pre) (pre ++ concat (key_bytes <$> keys) ++ rest) acc =
    (acc ++ keys, None).
Proof.
  intros Hk. revert pre acc. induction Hk as [|k keys Hk _ IH]; intros pre acc.
  { simpl. by rewrite app_nil_r. }
  rewrite fmap_cons. cbn [length unmarshal_keys concat].
  set (tail := concat (key_bytes <$> keys) ++ rest) in *.
  assert (pre ++ (key_bytes k ++ concat (key_bytes <$> keys)) ++ rest = pre ++ key_bytes k ++ tail) as ->
    by (unfold tail; by rewrite <- !app_assoc).
  rewrite !length_app, length_key_bytes.
  destruct (Nat.ltb_spec (length pre + (2 + String.length k + length tail)) (length pre + 2)); [lia|].
  assert (slice (length pre) (length pre + 2) (pre ++ key_bytes k ++ tail) =
    put_be 2 (Z.of_nat (String.length k))) as ->.
  { unfold key_bytes. rewrite <- app_assoc. by apply slice_app; rewrite ?length_put_be. }
  rewrite get_put_be by (simpl; lia). rewrite Nat2Z.id.
  destruct (Nat.ltb_spec (length pre + (2 + String.length k + length tail)) (length pre + 2 + String.length k)); [lia|].
  assert (slice (length pre + 2) (length pre + 2 + String.length k) (pre ++ key_bytes k ++ tail) =
    string_bytes k) as ->.
  { unfold key_bytes. rewrite <- app_assoc, app_assoc.
    apply slice_app; rewrite ?length_app, ?length_put_be, ?length_string_bytes; lia. }
  rewrite bytes_string_bytes, app_assoc.
  replace (length pre + (2 + String.length k))%nat with (length (pre ++ key_bytes k))
    by (by rewrite length_app, length_key_bytes).
  rewrite IH. by rewrite <- app_assoc.
Qed.

Lemma head_lookup p rest :
  (head_bytes p ++ rest) !! 0%nat = Some (p_Magic p) /\ (head_bytes p ++ rest) !! 1%nat = Some (p_Type p).
Proof. done. Qed.

Lemma head_slice p rest : packet_ok p -> slice 2 18 (head_bytes p ++ rest) = p_NodeID p.
Proof.
  intros H. unfold head_bytes. rewrite <- app_assoc.
  apply slice_app; [done|]. by rewrite (pk_node _ H).
Qed.

Lemma unmarshal_bytes p : packet_ok p -> unmarshal zero_packet (packet_bytes p) = (packet_norm p, None).
Proof.
  intros H. pose proof (length_head p H) as Hh. unfold packet_bytes, unmarshal, packet_norm.
  set (body := if keyed (p_Type p) then _ else _).
  destruct (head_lookup p body) as [-> ->]. rewrite (head_slice p body H), length_app, Hh.
  destruct (Nat.ltb_spec (18 + length body) 18); [lia|]. simpl default.
  rewrite decide_False by (rewrite (pk_magic _ H); auto). unfold body.
  destruct (keyed (p_Type p)) eqn:Ek; [|case_decide as Et; [|done]].
  - rewrite !length_app, !length_put_be. cbn [p_Key p_Keys p_KeyLen p_KeyHash].
    pose proof (pk_len _ H) as El. pose proof (pk_short _ H).
    assert (slice 18 26 (head_bytes p ++ put_be 8 (p_KeyHash p) ++ put_be 2 (p_KeyLen p) ++ p_Key p) =
      put_be 8 (p_KeyHash p)) as -> by (by apply slice_app; rewrite ?Hh, ?length_put_be).
    assert (slice 26 28 (head_bytes p ++ put_be 8 (p_KeyHash p) ++ put_be 2 (p_KeyLen p) ++ p_Key p) =
      put_be 2 (p_KeyLen p)) as ->.
    { rewrite app_assoc. by apply slice_app; rewrite ?length_app, ?Hh, ?length_put_be. }
    rewrite !get_put_be by (simpl; pose proof (pk_hash _ H); lia).
    destruct (Nat.ltb_spec (18 + (8 + (2 + length (p_Key p)))) 28); [lia|].
    destruct (Nat.ltb_spec (18 + (8 + (2 + length (p_Key p)))) (28 + Z.to_nat (p_KeyLen p))); [lia|].
    destruct (0 <? p_KeyLen p) eqn:E0; bool_to_prop.
    + do 2 f_equal. rewrite <- (app_nil_r (p_Key p)) at 1. rewrite !app_assoc, <- app_assoc.
      apply slice_app; rewrite ?length_app, ?length_put_be, ?Hh; lia.
    + destruct (p_Key p); [done|simpl in *; lia].
  - rewrite !length_app, length_put_be. pose proof (pk_count _ H). cbn [p_KeyHash p_KeyLen p_Key].
    destruct (Nat.ltb_spec (18 + (2 + length (concat (key_bytes <$> p_Keys p)))) 20); [lia|].
    rewrite slice_app by (rewrite ?Hh, ?length_put_be; done).
    rewrite get_put_be by (simpl; lia). rewrite Nat2Z.id, app_assoc.
    replace 20%nat with (length (head_bytes p ++ put_be 2 (Z.of_nat (length (p_Keys p)))))
      by (rewrite length_app, length_put_be, Hh; done).
    rewrite <- (app_nil_r (concat _)), unmarshal_keys_ok by apply (pk_keys _ H). done.
Qed.

(** ** Too short a buffer *)

Lemma marshal_keys_short keys curr b :
  (curr <= length b)%nat -> (length b < curr + length (concat (key_bytes <$> keys)))%nat ->
  snd (snd (marshal_keys keys curr b)) = Some ErrShortBuffer.
Proof.
  revert curr b. induction keys as [|k keys IH]; intros curr b Hc Hlen; [simpl in Hlen; lia|].
  rewrite fmap_cons in Hlen. cbn [concat marshal_keys] in Hlen |- *.
  rewrite length_app, length_key_bytes in Hlen.
  destruct (Nat.ltb_spec (length b) (curr + 2 + String.length k)); [done|].
  assert (forall off d c, (off + length d <= length c)%nat -> length (copy_at off d c) = length c)
    as Hc' by (intros; by apply length_copy_at).
  apply IH; rewrite !Hc'; rewrite ?length_put_be, ?length_string_bytes, ?Hc', ?length_put_be; try lia;
    rewrite ?length_put_be; lia.
Qed.

Lemma marshal_short p b :
  packet_ok p -> (length b < length (packet_bytes p))%nat ->
  snd (snd (marshal p b)) = Some ErrShortBuffer.
Proof.
  intros H Hlen. pose proof (length_head p H) as Hh. unfold packet_bytes in Hlen.
  rewrite length_app, Hh in Hlen. unfold marshal.
  destruct (Nat.ltb_spec (length b) 18) as [|Hb]; [done|]. rewrite marshal_head by done.
  destruct (keyed (p_Type p)) eqn:Ek; [|case_decide as Et].
  - rewrite !length_app, !length_put_be in Hlen. rewrite length_app, length_drop, Hh.
    by destruct (Nat.ltb_spec (18 + (length b - 18)) (28 + length (p_Key p))); [|lia].
  - rewrite !length_app, !length_put_be in Hlen. rewrite length_app, length_drop, Hh.
    destruct (Nat.ltb_spec (18 + (length b - 18)) 20); [done|].
    assert (length (copy_at 18 (put_be 2 (u16 (Z.of_nat (length (p_Keys p))))) (head_bytes p ++ drop 18 b)) =
      length b) as E by (rewrite length_copy_at; rewrite ?length_put_be, length_app, length_drop, Hh; lia).
    apply marshal_keys_short; lia.
  - simpl in Hlen. lia.
Qed.

(** C40. Datagrams round-trip through any buffer, whatever it held before:
    marshalling a packet whose lengths fit their 16-bit fields succeeds exactly
    when its encoding fits the buffer, keeps the buffer's length, and
    unmarshalling the bytes it reports gives back what a packet of its type
    carries. *)
Theorem packet_roundtrip (p : packet) (b : list Byte.byte) :
  packet_ok p ->
  let '(b', (n, err)) := marshal p b in
  ((length (packet_bytes p) <= length b)%nat ->
     err = None /\ n = length (packet_bytes p) /\ length b' = length b /\
     unmarshal zero_packet (take n b') = (packet_norm p, None)) /\
  ((length b < length (packet_bytes p))%nat -> err = Some ErrShortBuffer).
Proof.
  intros H. destruct (marshal p b) as [b' [n err]] eqn:E. split; intros Hlen.
  - rewrite marshal_bytes in E by done.
    assert (b' = packet_bytes p ++ drop (length (packet_bytes p)) b /\ n = length (packet_bytes p) /\
      err = None) as (-> & -> & ->) by (split_and!; congruence).
    split_and!; [done..|rewrite (length_app (packet_bytes p)), length_drop; lia|].
    rewrite take_app_length. by apply unmarshal_bytes.
  - pose proof (marshal_short p b H Hlen) as Hs. by rewrite E in Hs.
Qed.

Definition demo_packet : packet :=
  mkPacket magicByte typeBatch (replicate 16 xab) 0 0 [] ["user:1"; ""; "user:22"].

Lemma demo_packet_ok : packet_ok demo_packet.
Proof. split; simpl; try lia; try done. repeat constructor; simpl; lia. Qed.

Lemma packet_roundtrip_witness :
  let '(b', (n, err)) := marshal demo_packet (replicate 64 xee) in
  err = None /\ unmarshal zero_packet (take n b') = (packet_norm demo_packet, None).
Proof.
  pose proof (packet_roundtrip demo_packet (replicate 64 xee) demo_packet_ok) as H.
  destruct (marshal _ _) as [b' [n err]]. destruct H as [H _].
  destruct H as (H1 & _ & _ & H2); [vm_compute; lia|]. by split.
Defined.

(** ** Whatever datagram arrives *)

Lemma slice_drop i j (b : list Byte.byte) : (i <= j)%nat -> drop i b = slice i j b ++ drop j b.
Proof.
  intros H. unfold slice. rewrite <- (take_drop (j - i) (drop i b)) at 1. by rewrite drop_drop, Nat.add_comm, Nat.sub_add.
Qed.

Lemma length_slice i j (b : list Byte.byte) : (i <= j <= length b)%nat -> length (slice i j b) = (j - i)%nat.
Proof. intros H. unfold slice. rewrite length_take, length_drop. lia. Qed.

Lemma get_be_16 (b : list Byte.byte) : length b = 2%nat -> 0 <= get_be b < 2 ^ 16.
Proof. intros E. pose proof (get_be_range b) as H. by rewrite E in H. Qed.

(** The keys the loop accepts are in the datagram, each behind its length. *)
Lemma unmarshal_keys_sound count curr b acc keys :
  unmarshal_keys count curr b acc = (keys, None) ->
  exists ks rest, keys = acc ++ ks /\ length ks = count /\
    Forall (fun k => Z.of_nat (String.length k) < 2 ^ 16) ks /\
    drop curr b = concat (key_bytes <$> ks) ++ rest.
Proof.
  revert curr acc. induction count as [|count IH]; intros curr acc; simpl.
  { intros [= <-]. exists [], (drop curr b). by rewrite app_nil_r. }
  destruct (Nat.ltb_spec (length b) (curr + 2)) as [|H2]; [done|].
  pose proof (length_slice curr (curr + 2) b ltac:(lia)) as Hl. rewrite Nat.add_comm, Nat.add_sub in Hl.
  rewrite (Nat.add_comm 2 curr) in Hl. pose proof (get_be_16 _ Hl) as Hr.
  set (len := slice curr (curr + 2) b) in *. set (kLen := Z.to_nat (get_be len)).
  destruct (Nat.ltb_spec (length b) (curr + 2 + kLen)) as [|H3]; [done|]. intros E%IH.
  destruct E as (ks & rest & -> & <- & Hks & Hd).
  set (k := slice (curr + 2) (curr + 2 + kLen) b) in *.
  assert (length k = kLen) as Hk by (unfold k; rewrite length_slice; lia).
  assert (String.length (bytes_string k) = kLen) as Hsl by (by rewrite <- length_string_bytes, string_bytes_string).
  exists (bytes_string k :: ks), rest. split_and!; [by rewrite <- app_assoc|done| |].
  - apply Forall_cons. split; [rewrite Hsl; unfold kLen; lia|done].
  - rewrite (slice_drop curr (curr + 2)), (slice_drop (curr + 2) (curr + 2 + kLen)) by lia. fold len. fold k.
    replace (curr + 2 + kLen)%nat with (curr + S (S kLen))%nat by lia. rewrite Hd, fmap_cons. cbn [concat].
    assert (key_bytes (bytes_string k) = len ++ k) as ->; [|by rewrite <- !app_assoc].
    unfold key_bytes. rewrite Hsl, string_bytes_string. unfold kLen. rewrite Z2Nat.id by lia. by rewrite put_get_be.
Qed.

Lemma head_split b :
  (18 <= length b)%nat ->
  b = [default x00 (b !! 0%nat); default x00 (b !! 1%nat)] ++ slice 2 18 b ++ drop 18 b /\
  length (slice 2 18 b) = 16%nat.
Proof.
  intros H. destruct b as [|b0 [|b1 b]]; simpl in H; [lia|lia|]. split; [|rewrite length_slice; simpl; lia].
  change (b0 :: b1 :: b = [b0; b1] ++ slice 2 18 (b0 :: b1 :: b) ++ drop 18 (b0 :: b1 :: b)).
  by rewrite <- (slice_drop 2 18 (b0 :: b1 :: b)) by lia.
Qed.

(** C22. The decoder of the mesh accepts only well-typed packets. Whatever
    datagram arrives, when [unmarshal] accepts it every field of the packet is
    within its machine width, [KeyLen] is the length of the key, at most 65535
    keys of at most 65535 bytes each are there, nothing else is set, and the
    datagram begins with exactly the encoding of that packet: no length it
    announces was trusted beyond the bytes received. *)
Theorem unmarshal_typed (b : list Byte.byte) (p : packet) :
  unmarshal zero_packet b = (p, None) ->
  packet_ok p /\ packet_norm p = p /\ exists rest, b = packet_bytes p ++ rest.
Proof.
  unfold unmarshal. destruct (Nat.ltb_spec (length b) 18) as [|H18]; [done|].
  destruct (head_split b H18) as [Eb Hn].
  set (magic := default x00 (b !! 0%nat)) in *. set (type := default x00 (b !! 1%nat)) in *.
  set (nodeID := slice 2 18 b) in *. case_decide as Em; [done|].
  destruct (keyed type) eqn:Ek; [|case_decide as Et].
  - destruct (Nat.ltb_spec (length b) 28) as [|H28]; [done|].
    pose proof (length_slice 18 26 b ltac:(lia)) as L1. pose proof (length_slice 26 28 b ltac:(lia)) as L2.
    set (hash := slice 18 26 b) in *. set (len := slice 26 28 b) in *. cbn [p_KeyLen p_KeyHash p_Keys p_Key].
    pose proof (get_be_16 len L2) as Hr. pose proof (get_be_range hash) as Hh. rewrite L1 in Hh.
    set (n := Z.to_nat (get_be len)). destruct (Nat.ltb_spec (length b) (28 + n)) as [|Hle]; [done|].
    assert (drop 18 b = put_be 8 (get_be hash) ++ put_be 2 (get_be len) ++ slice 28 (28 + n) b ++ drop (28 + n) b) as Hd.
    { rewrite !put_get_be by done. unfold hash, len. rewrite (slice_drop 18 26), (slice_drop 26 28) by lia.
      by rewrite (slice_drop 28 (28 + n)) by lia. }
    assert (length (slice 28 (28 + n) b) = n) as L3 by (rewrite length_slice; lia).
    intros E. assert (p = mkPacket magic type nodeID (get_be hash) (get_be len) (slice 28 (28 + n) b) []) as ->.
    { destruct (Z.ltb_spec 0 (get_be len)); injection E as <-; [done|].
      destruct (slice 28 (28 + n) b); [done|]. simpl in L3. unfold n in L3. lia. }
    split; [|split].
    + split; cbn [p_Magic p_NodeID p_KeyHash p_KeyLen p_Key p_Keys]; rewrite ?L3; unfold n; done || lia || constructor.
    + unfold packet_norm. simpl. by rewrite Ek.
    + exists (drop (28 + n) b). rewrite Eb at 1. unfold packet_bytes, head_bytes.
      cbn [p_Magic p_Type p_NodeID p_KeyHash p_KeyLen p_Key p_Keys]. rewrite Ek, Hd.
      by rewrite <- !app_assoc.
  - destruct (Nat.ltb_spec (length b) 20) as [|H20]; [done|].
    pose proof (length_slice 18 20 b ltac:(lia)) as L1. set (cnt := slice 18 20 b) in *.
    pose proof (get_be_16 cnt L1) as Hr.
    destruct (unmarshal_keys _ 20 b []) as [keys err] eqn:Eu. intros [= <- ->].
    apply unmarshal_keys_sound in Eu as (ks & rest & -> & Hc & Hks & Hd).
    change ([] ++ ks) with ks. cbn [p_KeyHash p_KeyLen p_Key zero_packet].
    assert (get_be cnt = Z.of_nat (length ks)) as Hcnt by lia.
    split; [|split].
    + split; simpl; try done; lia.
    + unfold packet_norm. simpl. by rewrite Ek, decide_True.
    + exists rest. rewrite Eb at 1. unfold packet_bytes, head_bytes.
      cbn [p_Magic p_Type p_NodeID p_KeyHash p_KeyLen p_Key p_Keys]. rewrite Ek, decide_True by done.
      rewrite (slice_drop 18 20) by lia. fold cnt. rewrite Hd, <- Hcnt, put_get_be by done. by rewrite <- !app_assoc.
  - intros [= <-]. split; [|split].
    + split; simpl; try done; lia || constructor.
    + unfold packet_norm. simpl. by rewrite Ek, decide_False.
    + exists (drop 18 b). rewrite Eb at 1. unfold packet_bytes, head_bytes.
      cbn [p_Magic p_Type p_NodeID p_KeyHash p_KeyLen p_Key p_Keys]. rewrite Ek, decide_False by done. by rewrite app_nil_r.
Qed.

Lemma unmarshal_typed_witness :
  packet_ok (packet_norm demo_packet) /\
  exists rest, packet_bytes demo_packet ++ [x00; x01] = packet_bytes (packet_norm demo_packet) ++ rest.
Proof.
  destruct (unmarshal_typed (packet_bytes demo_packet ++ [x00; x01]) (packet_norm demo_packet)) as (H1 & _ & H2).
  - vm_compute. reflexivity.
  - split; [exact H1|exact H2].
Defined.

(** ** A truncated batch *)

(** A prefix that ends before the encoded keys do cannot be read. *)
Lemma unmarshal_keys_truncated keys pre n acc :
  Forall (fun k => Z.of_nat (String.length k) < 2 ^ 16) keys ->
  (length pre <= n)%nat -> (n < length pre + length (concat (key_bytes <$> keys)))%nat ->
  snd (unmarshal_keys (length keys) (length pre) (take n (pre ++ concat (key_bytes <$> keys))) acc) =
    Some ErrShortBuffer.
Proof.
  intros Hk. revert pre acc. induction Hk as [|k keys Hk _ IH]; intros pre acc Hp Hn; [simpl in Hn; lia|].
  rewrite fmap_cons in Hn |- *. cbn [concat length unmarshal_keys] in Hn |- *.
  rewrite length_app, length_key_bytes in Hn.
  set (tail := concat (key_bytes <$> keys)) in *.
  rewrite length_take, !length_app, length_key_bytes.
  destruct (Nat.ltb_spec (n `min` (length pre + (2 + String.length k + length tail)))%nat (length pre + 2)); [done|].
  assert (slice (length pre) (length pre + 2) (take n (pre ++ key_bytes k ++ tail)) =
    put_be 2 (Z.of_nat (String.length k))) as ->.
  { unfold slice. rewrite skipn_firstn_comm, drop_app_length, take_take.
    unfold key_bytes. rewrite <- app_assoc, take_app_le by (rewrite length_put_be; lia).
    rewrite take_ge; [done|]. rewrite length_put_be. lia. }
  rewrite get_put_be by (simpl; lia). rewrite Nat2Z.id.
  destruct (Nat.ltb_spec (n `min` (length pre + (2 + String.length k + length tail)))%nat
    (length pre + 2 + String.length k)); [done|].
  rewrite app_assoc.
  replace (length pre + (2 + String.length k))%nat with (length (pre ++ key_bytes k))
    by (by rewrite length_app, length_key_bytes).
  apply IH; rewrite length_app, length_key_bytes; lia.
Qed.

Lemma unmarshal_truncated p n :
  packet_ok p -> p_Type p = typeBatch -> (n < length (packet_bytes p))%nat ->
  exists e, snd (unmarshal zero_packet (take n (packet_bytes p))) = Some e.
Proof.
  intros H Et Hn. pose proof (length_head p H) as Hh.
  assert (packet_bytes p = head_bytes p ++ put_be 2 (Z.of_nat (length (p_Keys p))) ++
    concat (key_bytes <$> p_Keys p)) as E.
  { unfold packet_bytes. rewrite Et. reflexivity. }
  rewrite E in Hn |- *. rewrite !length_app, length_put_be in Hn. unfold unmarshal.
  rewrite length_take, !length_app, length_put_be, Hh.
  set (total := (18 + (2 + length (concat (key_bytes <$> p_Keys p))))%nat) in *.
  destruct (Nat.ltb_spec (n `min` total)%nat 18); [by eexists|].
  rewrite !lookup_take_lt by lia.
  destruct (head_lookup p (put_be 2 (Z.of_nat (length (p_Keys p))) ++ concat (key_bytes <$> p_Keys p)))
    as [-> ->]. simpl default.
  rewrite decide_False by (rewrite (pk_magic _ H); auto). rewrite Et.
  change (keyed typeBatch) with false. rewrite decide_True by done.
  destruct (Nat.ltb_spec (n `min` total)%nat 20); [by eexists|].
  assert (slice 18 20 (take n (head_bytes p ++ put_be 2 (Z.of_nat (length (p_Keys p))) ++
    concat (key_bytes <$> p_Keys p))) = put_be 2 (Z.of_nat (length (p_Keys p)))) as ->.
  { unfold slice. rewrite skipn_firstn_comm, <- Hh, drop_app_length, take_take.
    rewrite take_app_le by (rewrite length_put_be; lia). rewrite take_ge; [done|]. rewrite length_put_be. lia. }
  pose proof (pk_count _ H). rewrite get_put_be by (simpl; lia). rewrite Nat2Z.id, app_assoc.
  pose proof (unmarshal_keys_truncated (p_Keys p)
    (head_bytes p ++ put_be 2 (Z.of_nat (length (p_Keys p)))) n [] (pk_keys _ H)) as Hu.
  rewrite length_app, length_put_be, Hh in Hu. specialize (Hu ltac:(lia) ltac:(lia)).
  change (18 + 2)%nat with 20%nat in Hu. destruct (unmarshal_keys _ _ _ _) as [ks err].
  simpl in *. subst err. by eexists.
Qed.
