(* ===== verification/Mesh.v ===== *)
(** * Mesh: the UDP mesh bus

    Models [src/syncbus/mesh/mesh.go]: publication with its pending set and
    bounded queue, the batcher, broadcast, the datagram listener, heartbeats
    and peer expiry, subscriptions.

    The goroutines' loops are functions that perform one iteration. Outside
    the model are the socket (a parameter says whether a write to an address
    fails; the datagrams written are results) and name resolution (a
    parameter). *)

From S2P Require Import Prelude Bytes MeshPacket SyncBus.

(** [BatchSize] is the field of the options after [NewMeshBus]. *)
Record MeshOptions := mkMeshOpts {
  mo_Peers : list string;
  mo_AdvertiseAddr : string;
  mo_BatchSize : Z;
}.

(** [m_waiting]: the keys of publishers between the pending set and the queue;
    [m_batch]: the variable [batch] of the batcher. *)
Record MeshBus := mkMesh {
  m_opts : MeshOptions;
  m_nodeID : list Byte.byte;
  m_group : string;
  m_subs : gmap string (list nat);
  m_chans : gmap nat chan;
  m_next : nat;
  m_knownPeers : gmap string time;
  m_resolvedAddr : gmap string string;
  m_publishCh : list string;
  m_pending : gset string;
  m_waiting : gset string;
  m_batch : list string;
  m_published : Z;
  m_received : Z;
  m_panicked : bool;
}.

Definition publishCap : nat := 1000.
Definition subCap : nat := 32.
Definition listenBuf : nat := 1500.

Abbreviation datagram := (string * list Byte.byte)%type.

Section Mesh.
(** [net.ResolveUDPAddr], and the error of a write to an address. *)
Variable resolve : string -> option string.
Variable write_err : string -> option error.
Implicit Types b : MeshBus.

Definition set_queue b pub pend wait batch : MeshBus :=
  mkMesh (m_opts b) (m_nodeID b) (m_group b) (m_subs b) (m_chans b) (m_next b) (m_knownPeers b)
    (m_resolvedAddr b) pub pend wait batch (m_published b) (m_received b) (m_panicked b).
Definition set_peers b known addrs : MeshBus :=
  mkMesh (m_opts b) (m_nodeID b) (m_group b) (m_subs b) (m_chans b) (m_next b) known addrs
    (m_publishCh b) (m_pending b) (m_waiting b) (m_batch b) (m_published b) (m_received b) (m_panicked b).
Definition set_msubs b s c n : MeshBus :=
  mkMesh (m_opts b) (m_nodeID b) (m_group b) s c n (m_knownPeers b) (m_resolvedAddr b)
    (m_publishCh b) (m_pending b) (m_waiting b) (m_batch b) (m_published b) (m_received b) (m_panicked b).
Definition set_mcounts b pub rec : MeshBus :=
  mkMesh (m_opts b) (m_nodeID b) (m_group b) (m_subs b) (m_chans b) (m_next b) (m_knownPeers b)
    (m_resolvedAddr b) (m_publishCh b) (m_pending b) (m_waiting b) (m_batch b) pub rec (m_panicked b).
Definition mpanic b : MeshBus :=
  mkMesh (m_opts b) (m_nodeID b) (m_group b) (m_subs b) (m_chans b) (m_next b) (m_knownPeers b)
    (m_resolvedAddr b) (m_publishCh b) (m_pending b) (m_waiting b) (m_batch b) (m_published b)
    (m_received b) true.

(** The part of [NewMeshBus] that builds the bus: defaults and empty tables. *)
Definition NewMeshBus (peers : list string) (advertise : string) (batchSize : Z)
    (nodeID : list Byte.byte) (group : string) : MeshBus :=
  let batchSize := if batchSize =? 0 then 20 else batchSize in
  mkMesh (mkMeshOpts peers advertise batchSize) nodeID group ∅ ∅ 0 ∅ ∅ [] ∅ ∅ [] 0 0 false.

(** ** Publishing *)

(** The locked first part of [Publish]: whether the key was already pending. *)
Definition publish_begin (key : string) b : MeshBus * bool :=
  if decide (key ∈ m_pending b) then (b, true)
  else (set_queue b (m_publishCh b) ({[key]} ∪ m_pending b) ({[key]} ∪ m_waiting b) (m_batch b), false).

(** [case b.publishCh <- key] *)
Definition publish_send (key : string) b : MeshBus :=
  set_queue b (m_publishCh b ++ [key]) (m_pending b) (m_waiting b ∖ {[key]}) (m_batch b).

(** [case <-ctx.Done()] *)
Definition publish_cancel (key : string) b : MeshBus :=
  set_queue b (m_publishCh b) (m_pending b ∖ {[key]}) (m_waiting b ∖ {[key]}) (m_batch b).

Definition has_room b : bool := (length (m_publishCh b) <? publishCap)%nat.

Inductive outcome :=
| Returned (err : option error)
| Blocked.

(** [pick] decides the select when both cases are ready. A blocked publisher
    stays among the waiting ones. *)
Definition MeshBus_Publish (cx : ctx) (pick : bool) (key : string) b : MeshBus * outcome :=
  let '(b, dup) := publish_begin key b in
  if dup then (b, Returned None)
  else
    match has_room b, cx 0%nat with
    | true, None => (publish_send key b, Returned None)
    | true, Some e =>
        if pick then (publish_send key b, Returned None)
        else (publish_cancel key b, Returned (Some e))
    | false, Some e => (publish_cancel key b, Returned (Some e))
    | false, None => (b, Blocked)
    end.

Definition MeshBus_PublishAndAwait (cx : ctx) (pick : bool) (key : string) (replicas : Z) b
    : MeshBus * outcome :=
  if 0 <? replicas then (b, Returned (Some ErrQuorumUnsupported)) else MeshBus_Publish cx pick key b.

Definition MeshBus_PublishAndAwaitTopology (cx : ctx) (key : string) (minZones : Z) b
    : MeshBus * outcome := (b, Returned (Some ErrQuorumUnsupported)).

(** The datagrams of a payload: to the group, to the resolved peers, and to the
    seeds that are not resolved yet. *)
Definition seed_addrs b : list string :=
  omap (fun peer => match m_resolvedAddr b !! peer with Some _ => None | None => resolve peer end)
    (mo_Peers (m_opts b)).

Definition broadcast (payload : list Byte.byte) b : MeshBus * list datagram * option error :=
  let err := write_err (m_group b) in
  let b := match err with
           | None => set_mcounts b (u64 (m_published b + 1)) (m_received b)
           | Some _ => b
           end in
  let addrs := m_group b :: (map_to_list (m_resolvedAddr b)).*2 ++ seed_addrs b in
  (b, (fun a => (a, payload)) <$> filter (fun a => write_err a = None) addrs, err).

(** ** The batcher *)

Definition batch_packet b : packet :=
  mkPacket magicByte typeBatch (m_nodeID b) 0 0 [] (m_batch b).

(** Marshal a packet into a pooled buffer, whose content is arbitrary, and
    broadcast it; a packet that does not fit is dropped. *)
Definition send_packet (p : packet) (buf : list Byte.byte) b : MeshBus * list datagram :=
  let '(buf, (n, err)) := marshal p buf in
  match err with
  | Some _ => (b, [])
  | None => let '(b, sent, _) := broadcast (take n buf) b in (b, sent)
  end.

Definition flush_cleanup b : MeshBus :=
  set_queue b (m_publishCh b) (m_pending b ∖ list_to_set (m_batch b)) (m_waiting b) [].

Definition flush (buf : list Byte.byte) b : MeshBus * list datagram :=
  match m_batch b with
  | [] => (b, [])
  | _ => let '(b, sent) := send_packet (batch_packet b) buf b in (flush_cleanup b, sent)
  end.

(** [case key := <-b.publishCh] *)
Definition batcher_take b : MeshBus :=
  match m_publishCh b with
  | [] => b
  | key :: q => set_queue b q (m_pending b) (m_waiting b) (m_batch b ++ [key])
  end.

Definition batcher_key (buf : list Byte.byte) b : MeshBus * list datagram :=
  match m_publishCh b with
  | [] => (b, [])
  | _ =>
      let b := batcher_take b in
      if mo_BatchSize (m_opts b) <=? Z.of_nat (length (m_batch b)) then flush buf b else (b, [])
  end.

(** [case <-ticker.C] *)
Definition batcher_tick (buf : list Byte.byte) b : MeshBus * list datagram := flush buf b.

(** ** Listening *)

(** A non-blocking send on a subscriber's channel. *)
Definition mesh_send (evt : Event) b (ch : nat) : MeshBus :=
  match m_chans b !! ch with
  | None => b
  | Some c =>
      if closed c then mpanic b
      else if (length (buffer c) <? subCap)%nat then
        set_msubs b (m_subs b) (<[ch := mkChan (buffer c ++ [evt]) false]> (m_chans b)) (m_next b)
      else b
  end.

Definition handleInvalidate b (key : string) : MeshBus :=
  foldl (mesh_send (mkEvent key "" None ScopeLocal)) b (default [] (m_subs b !! key)).

(** The heartbeat of a peer. *)
Definition heard_from (now : time) (addr : string) b : MeshBus :=
  set_peers b (<[addr := now]> (m_knownPeers b))
    (match m_resolvedAddr b !! addr with
     | Some _ => m_resolvedAddr b
     | None => match resolve addr with
               | Some r => <[addr := r]> (m_resolvedAddr b)
               | None => m_resolvedAddr b
               end
     end).

(** One datagram in the loop of [listen]: the buffer keeps its first bytes. *)
Definition listen_datagram (now : time) (data : list Byte.byte) b : MeshBus :=
  let '(p, err) := unmarshal zero_packet (take listenBuf data) in
  match err with
  | Some _ => b
  | None =>
      if decide (p_NodeID p = m_nodeID b) then b
      else
        let b := set_mcounts b (m_published b) (u64 (m_received b + 1)) in
        if decide (p_Type p = typeHeartbeat) then heard_from now (bytes_string (p_Key p)) b
        else if decide (p_Type p = typeInvalidate) then handleInvalidate b (bytes_string (p_Key p))
        else if decide (p_Type p = typeBatch) then foldl handleInvalidate b (p_Keys p)
        else b
  end.

(** ** Heartbeats and peers *)

Definition heartbeat_tick (local : string) (buf : list Byte.byte) b : MeshBus * list datagram :=
  let addr := if decide (mo_AdvertiseAddr (m_opts b) = "") then local else mo_AdvertiseAddr (m_opts b) in
  let p := mkPacket magicByte typeHeartbeat (m_nodeID b) 0 (u16 (Z.of_nat (String.length addr)))
             (string_bytes addr) [] in
  send_packet p buf b.

Definition expired (now : time) (last : time) : bool := 60 * Second <? time_Sub now last.

Definition cleanup_tick (now : time) b : MeshBus :=
  let gone := filter (fun kv => expired now kv.2 = true) (m_knownPeers b) in
  set_peers b (m_knownPeers b ∖ gone)
    (filter (fun kv => gone !! kv.1 = None) (m_resolvedAddr b)).

Definition MeshBus_Peers b : list string := (map_to_list (m_knownPeers b)).*1.
Definition MeshBus_Metrics b : Z * Z := (m_published b, m_received b).

(** ** Subscriptions *)

Definition MeshBus_Subscribe (key : string) b : MeshBus * nat :=
  let ch := m_next b in
  (set_msubs b (<[key := default [] (m_subs b !! key) ++ [ch]]> (m_subs b))
     (<[ch := mkChan [] false]> (m_chans b)) (S ch), ch).

Definition mesh_close (ch : nat) b : MeshBus :=
  match m_chans b !! ch with
  | None => b
  | Some c => if closed c then mpanic b
              else set_msubs b (m_subs b) (<[ch := mkChan (buffer c) true]> (m_chans b)) (m_next b)
  end.

Definition MeshBus_Unsubscribe (key : string) (ch : nat) b : MeshBus :=
  match m_subs b !! key with
  | None => b
  | Some l =>
      let b := match index_of ch l with
               | None => b
               | Some i => mesh_close ch (set_msubs b (<[key := delete i l]> (m_subs b)) (m_chans b) (m_next b))
               end in
      match default [] (m_subs b !! key) with
      | [] => set_msubs b (delete key (m_subs b)) (m_chans b) (m_next b)
      | _ => b
      end
  end.

Definition mesh_recv (ch : nat) b : MeshBus * recv :=
  match m_chans b !! ch with
  | None => (b, RecvBlocks)
  | Some c =>
      match buffer c with
      | e :: q => (set_msubs b (m_subs b) (<[ch := mkChan q (closed c)]> (m_chans b)) (m_next b), Received e)
      | [] => (b, if closed c then RecvClosed else RecvBlocks)
      end
  end.

Definition MeshBus_RevokeLease (cx : ctx) (pick : bool) (id : string) b : MeshBus * outcome :=
  MeshBus_Publish cx pick (lease_key id) b.
Definition MeshBus_SubscribeLease (id : string) b : MeshBus * nat := MeshBus_Subscribe (lease_key id) b.
Definition MeshBus_UnsubscribeLease (id : string) (ch : nat) b : MeshBus :=
  MeshBus_Unsubscribe (lease_key id) ch b.

End Mesh.
