(* ===== verification/MeshProps.v ===== *)
(** * MeshProps: the mesh bus is safe and delivers

    Invariants of [Mesh.v] over every interleaving of publishers, the batcher,
    the listener, subscribers and peer expiry; delivery of a batch from one
    node to another; and two ways in which a publication is lost. *)

From S2P Require Import Prelude Bytes MeshPacket SyncBus Mesh.

Section MeshInv.
Implicit Types b : MeshBus.

(** Each pending key is in exactly one place on its way out. *)
Record queue_inv b : Prop := {
  qi_nodup : NoDup (m_batch b ++ m_publishCh b);
  qi_pending : forall k, k ∈ m_pending b <-> k ∈ m_waiting b \/ k ∈ m_batch b ++ m_publishCh b;
  qi_waiting : forall k, k ∈ m_waiting b -> k ∉ m_batch b ++ m_publishCh b;
  qi_cap : (length (m_publishCh b) <= publishCap)%nat;
}.

(** Only known peers have a resolved address. *)
Definition peers_inv b : Prop :=
  forall a r, m_resolvedAddr b !! a = Some r -> is_Some (m_knownPeers b !! a).

Record subs_inv b : Prop := {
  si_nodup : forall k l, m_subs b !! k = Some l -> l <> [] /\ NoDup l;
  si_owner : forall k k' l l' ch, m_subs b !! k = Some l -> m_subs b !! k' = Some l' ->
    ch ∈ l -> ch ∈ l' -> k = k';
  si_open : forall k l ch, m_subs b !! k = Some l -> ch ∈ l ->
    exists c, m_chans b !! ch = Some c /\ closed c = false /\ (length (buffer c) <= subCap)%nat;
  si_fresh : forall ch c, m_chans b !! ch = Some c -> (ch < m_next b)%nat;
  si_safe : m_panicked b = false;
}.

Definition mesh_inv b : Prop := queue_inv b /\ peers_inv b /\ subs_inv b.

(** *** Each invariant depends on its own fields *)

Lemma queue_inv_ext b b' :
  m_batch b' = m_batch b -> m_publishCh b' = m_publishCh b -> m_pending b' = m_pending b ->
  m_waiting b' = m_waiting b -> queue_inv b -> queue_inv b'.
Proof. intros E1 E2 E3 E4 [H1 H2 H3 H4]. split; rewrite ?E1, ?E2, ?E3, ?E4; done. Qed.

Lemma peers_inv_ext b b' :
  m_resolvedAddr b' = m_resolvedAddr b -> m_knownPeers b' = m_knownPeers b -> peers_inv b -> peers_inv b'.
Proof. intros E1 E2 H. unfold peers_inv. by rewrite E1, E2. Qed.

Lemma subs_inv_ext b b' :
  m_subs b' = m_subs b -> m_chans b' = m_chans b -> m_next b' = m_next b ->
  m_panicked b' = m_panicked b -> subs_inv b -> subs_inv b'.
Proof. intros E1 E2 E3 E4 [H1 H2 H3 H4 H5]. split; rewrite ?E1, ?E2, ?E3, ?E4; done. Qed.

Ltac ext := first [eapply queue_inv_ext | eapply peers_inv_ext | eapply subs_inv_ext];
  [..|eassumption]; first [assumption | reflexivity].

(** *** The queue *)

Lemma publish_begin_inv key b : queue_inv b -> queue_inv (fst (publish_begin key b)).
Proof.
  intros [H1 H2 H3 H4]. unfold publish_begin. case_decide as Hp; [done|]. simpl.
  split; simpl; [done| | |done].
  - intros k. rewrite elem_of_union, H2, elem_of_union. set_solver.
  - intros k [->%elem_of_singleton|Hk]%elem_of_union; [|by apply H3].
    intros Hk. apply Hp, H2. by right.
Qed.

Lemma publish_send_inv key b :
  key ∈ m_waiting b -> has_room b = true -> queue_inv b -> queue_inv (publish_send key b).
Proof.
  intros Hw Hr [H1 H2 H3 H4]. unfold has_room in Hr. apply Nat.ltb_lt in Hr.
  split; simpl.
  - rewrite app_assoc. apply NoDup_app. split; [done|]. split; [|apply NoDup_singleton].
    intros k Hk ->%list_elem_of_singleton. by apply (H3 key).
  - intros k. rewrite H2, app_assoc, (elem_of_app _ [key]), list_elem_of_singleton, elem_of_difference, elem_of_singleton.
    destruct (decide (k = key)); naive_solver.
  - intros k [Hk Hne]%elem_of_difference. rewrite app_assoc, (elem_of_app _ [key]), list_elem_of_singleton.
    intros [?|?]; [by apply (H3 k)|]. set_solver.
  - rewrite length_app. simpl. lia.
Qed.

Lemma publish_cancel_inv key b : key ∈ m_waiting b -> queue_inv b -> queue_inv (publish_cancel key b).
Proof.
  intros Hw [H1 H2 H3 H4]. split; simpl; [done| | |done].
  - intros k. rewrite !elem_of_difference, elem_of_singleton, H2. split; [naive_solver|].
    intros [[??]|?]; [naive_solver|]. split; [by right|]. intros ->. by apply (H3 key).
  - intros k [Hk _]%elem_of_difference. by apply H3.
Qed.

Lemma batcher_take_inv b : queue_inv b -> queue_inv (batcher_take b).
Proof.
  intros [H1 H2 H3 H4]. unfold batcher_take. destruct (m_publishCh b) as [|key q] eqn:E; [by split; rewrite ?E|].
  split; simpl.
  - by rewrite <- app_assoc.
  - intros k. by rewrite H2, <- app_assoc.
  - intros k. rewrite <- app_assoc. apply H3.
  - simpl in H4. lia.
Qed.

Lemma flush_cleanup_inv b : queue_inv b -> queue_inv (flush_cleanup b).
Proof.
  intros [H1 H2 H3 H4]. apply NoDup_app in H1 as (H1 & Hd & H1'). split; simpl; [done| | |done].
  - intros k. rewrite elem_of_difference, elem_of_list_to_set, H2, elem_of_app. split; [naive_solver|].
    intros [Hk|Hk]; (split; [by auto|]).
    + specialize (H3 k Hk). rewrite elem_of_app in H3. naive_solver.
    + intros Hb. by apply (Hd k).
  - intros k Hk. specialize (H3 k Hk). rewrite elem_of_app in H3. naive_solver.
Qed.

(** *** Peers *)

Lemma cleanup_tick_inv now b : peers_inv b -> peers_inv (cleanup_tick now b).
Proof.
  unfold peers_inv, cleanup_tick. simpl. intros H a r [Hr Hg]%map_lookup_filter_Some. simpl in Hg.
  destruct (H _ _ Hr) as [t Ht]. exists t. by apply lookup_difference_Some.
Qed.

(** *** Subscriptions *)

Lemma mesh_send_inv evt b ch :
  (exists k l, m_subs b !! k = Some l /\ ch ∈ l) -> subs_inv b -> subs_inv (mesh_send evt b ch).
Proof.
  intros (k & l & Hl & Hch) Hi. pose proof Hi as [H1 H2 H3 H4 H5]. unfold mesh_send.
  destruct (H3 k l ch Hl Hch) as (c & -> & Hc & Hb). rewrite Hc.
  destruct (Nat.ltb_spec (length (buffer c)) subCap) as [Hlt|]; [|done].
  split; simpl; [done|done| | |done].
  - intros k' l' ch' Hl' Hch'. destruct (decide (ch = ch')) as [->|Hne].
    + rewrite lookup_insert_eq. eexists. split; [done|]. split; [done|]. simpl. rewrite length_app. simpl. lia.
    + rewrite lookup_insert_ne by done. by eapply H3.
  - intros ch' c'. destruct (decide (ch = ch')) as [->|Hne].
    + intros _. destruct (H3 k l ch' Hl Hch) as (c0 & Hc0 & _). by eapply H4.
    + rewrite lookup_insert_ne by done. apply H4.
Qed.

Lemma mesh_send_subs evt b ch : m_subs (mesh_send evt b ch) = m_subs b.
Proof. unfold mesh_send. by repeat case_match. Qed.

Lemma handleInvalidate_inv b key : subs_inv b -> subs_inv (handleInvalidate b key).
Proof.
  unfold handleInvalidate. intros Hi. destruct (m_subs b !! key) as [l|] eqn:El; [|done]. simpl.
  assert (forall chs b, m_subs b !! key = Some l -> (forall ch, ch ∈ chs -> ch ∈ l) -> subs_inv b ->
    subs_inv (foldl (mesh_send (mkEvent key "" None ScopeLocal)) b chs)) as Hall; [|by eapply Hall].
  clear. induction chs as [|ch chs IH]; intros b El Hsub Hi; simpl; [done|].
  apply IH.
  - by rewrite mesh_send_subs.
  - intros c Hc. apply Hsub. by right.
  - apply mesh_send_inv; [|done]. exists key, l. split; [done|]. apply Hsub. by left.
Qed.

Lemma Subscribe_mesh_inv key b : subs_inv b -> subs_inv (fst (MeshBus_Subscribe key b)).
Proof.
  intros [H1 H2 H3 H4 H5]. unfold MeshBus_Subscribe. simpl.
  assert (forall k l ch, m_subs b !! k = Some l -> ch ∈ l -> ch <> m_next b) as Hold.
  { intros k l ch Hl Hch ->. destruct (H3 _ _ _ Hl Hch) as (c & Hc & _). specialize (H4 _ _ Hc). lia. }
  assert (forall k l, <[key := default [] (m_subs b !! key) ++ [m_next b]]> (m_subs b) !! k = Some l ->
    (k <> key /\ m_subs b !! k = Some l) \/ (k = key /\ l = default [] (m_subs b !! key) ++ [m_next b])) as Hins.
  { intros k l [[<- <-]|[Hne Hl]]%lookup_insert_Some; [by right|by left]. }
  assert (forall ch, ch ∈ default [] (m_subs b !! key) -> exists l, m_subs b !! key = Some l /\ ch ∈ l) as Hdef.
  { intros ch. destruct (m_subs b !! key) as [l|]; simpl; [by eauto|]. by intros ?%elem_of_nil. }
  split; simpl.
  - intros k l [[Hne Hl]|[-> ->]]%Hins; [by eapply H1|]. split; [by destruct (default _ _)|].
    apply NoDup_app. split; [|split; [|apply NoDup_singleton]].
    + destruct (m_subs b !! key) as [l|] eqn:El; simpl; [by eapply H1|constructor].
    + intros ch (l & Hl & Hch)%Hdef ->%list_elem_of_singleton. by eapply Hold.
  - intros k k' l l' ch Hk Hk' Hc Hc'. apply Hins in Hk as [[Hne Hl]|[-> ->]], Hk' as [[Hne' Hl']|[-> ->]].
    + by eapply H2.
    + apply elem_of_app in Hc' as [(l' & Hl' & Hc')%Hdef| ->%list_elem_of_singleton]; [by eapply H2|].
      by edestruct Hold.
    + apply elem_of_app in Hc as [(l & Hl & Hc)%Hdef| ->%list_elem_of_singleton]; [by eapply H2|].
      by edestruct Hold.
    + done.
  - intros k l ch Hk Hc.
    assert (ch = m_next b \/ exists k l, m_subs b !! k = Some l /\ ch ∈ l) as [->|(k' & l' & Hl & Hch)].
    { apply Hins in Hk as [[Hne Hl]|[-> ->]]; [by eauto|].
      apply elem_of_app in Hc as [(l' & Hl & Hc)%Hdef| ->%list_elem_of_singleton]; by eauto. }
    + rewrite lookup_insert_eq. eexists. split; [done|]. split; [done|]. simpl. unfold subCap. lia.
    + rewrite lookup_insert_ne by (intros E; by eapply Hold). by eapply H3.
  - intros ch c [[<- _]|[_ Hc]]%lookup_insert_Some; [lia|]. specialize (H4 _ _ Hc). lia.
  - done.
Qed.

(** Dropping channels from the lists and closing or draining a channel that is
    no longer listed. *)
Lemma subs_inv_shrink b s' ch c' :
  subs_inv b ->
  (forall k l', s' !! k = Some l' -> l' <> [] /\ NoDup l' /\
     exists l, m_subs b !! k = Some l /\ forall c, c ∈ l' -> c ∈ l /\ c <> ch) ->
  is_Some (m_chans b !! ch) ->
  subs_inv (set_msubs b s' (<[ch := c']> (m_chans b)) (m_next b)).
Proof.
  intros [H1 H2 H3 H4 H5] Hs [c Hc]. split; simpl.
  - intros k l' Hl. by destruct (Hs _ _ Hl) as (? & ? & _).
  - intros k k' l l' x Hl Hl' Hx Hx'. destruct (Hs _ _ Hl) as (_ & _ & l1 & Hl1 & Hin1).
    destruct (Hs _ _ Hl') as (_ & _ & l2 & Hl2 & Hin2).
    destruct (Hin1 _ Hx), (Hin2 _ Hx'). by eapply H2.
  - intros k l x Hl Hx. destruct (Hs _ _ Hl) as (_ & _ & l1 & Hl1 & Hin). destruct (Hin _ Hx) as [Hx1 Hne].
    rewrite lookup_insert_ne by congruence. by eapply H3.
  - intros x cx [[<- _]|[_ Hx]]%lookup_insert_Some; by eapply H4.
  - done.
Qed.

Lemma Unsubscribe_mesh_inv key ch b : subs_inv b -> subs_inv (MeshBus_Unsubscribe key ch b).
Proof.
  intros Hi. pose proof Hi as [H1 H2 H3 H4 H5]. unfold MeshBus_Unsubscribe.
  destruct (m_subs b !! key) as [l|] eqn:El; [|done]. destruct (H1 _ _ El) as [Hne Hnd].
  destruct (index_of ch l) as [i|] eqn:Ei; [|rewrite El; simpl; by destruct l].
  apply index_of_Some in Ei. pose proof (delete_Permutation _ _ _ Ei) as Hp.
  assert (ch ∈ l) as Hch by (by eapply list_elem_of_lookup_2).
  destruct (H3 _ _ _ El Hch) as (c & Hc & Ho & Hb).
  unfold mesh_close. simpl. rewrite Hc, Ho. simpl. rewrite lookup_insert_eq. simpl.
  rewrite Hp in Hnd. apply NoDup_cons in Hnd as [Hnin Hnd].
  assert (forall k l', k <> key -> m_subs b !! k = Some l' ->
    l' <> [] /\ NoDup l' /\ exists l, m_subs b !! k = Some l /\ forall c, c ∈ l' -> c ∈ l /\ c <> ch) as Hother.
  { intros k l' Hk Hl'. destruct (H1 _ _ Hl') as [? ?]. split_and!; [done..|]. exists l'. split; [done|].
    intros x Hx. split; [done|]. intros ->. by apply Hk, (H2 _ _ _ _ _ Hl' El Hx Hch). }
  destruct (delete i l) as [|x q] eqn:Ed; (apply (subs_inv_shrink b); [done| |by eexists]); intros k l'.
  - intros [Hk [[??]|[_ Hl']]%lookup_insert_Some]%lookup_delete_Some; [done|]. by apply Hother.
  - intros [[<- <-]|[Hk Hl']]%lookup_insert_Some; [|by apply Hother].
    split; [done|]. split; [done|]. exists l. split; [done|]. intros y Hy.
    split; [rewrite Hp; by right|]. by intros ->.
Qed.

Lemma mesh_recv_inv ch b : subs_inv b -> subs_inv (fst (mesh_recv ch b)).
Proof.
  intros Hi. pose proof Hi as [H1 H2 H3 H4 H5]. unfold mesh_recv.
  destruct (m_chans b !! ch) as [c|] eqn:Ec; [|done]. destruct (buffer c) as [|e q] eqn:Eb; [done|].
  split; simpl; [done|done| | |done].
  - intros k l x Hl Hx. destruct (H3 _ _ _ Hl Hx) as (cx & Hcx & Ho & Hlen).
    destruct (decide (ch = x)) as [<-|Hne]; [|rewrite lookup_insert_ne by done; by eauto].
    rewrite lookup_insert_eq. simplify_eq. eexists. split; [done|]. rewrite Eb in Hlen. simpl in *.
    split; [done|lia].
  - intros x cx [[<- _]|[_ Hx]]%lookup_insert_Some; by eapply H4.
Qed.

(** *** Whole steps *)

Lemma cleanup_flush_inv b : mesh_inv b -> mesh_inv (flush_cleanup b).
Proof. intros (H1 & H2 & H3). split_and!; [by apply flush_cleanup_inv|ext..]. Qed.

Lemma handleInvalidate_frame b key :
  let b' := handleInvalidate b key in
  m_batch b' = m_batch b /\ m_publishCh b' = m_publishCh b /\ m_pending b' = m_pending b /\
  m_waiting b' = m_waiting b /\ m_resolvedAddr b' = m_resolvedAddr b /\ m_knownPeers b' = m_knownPeers b.
Proof.
  unfold handleInvalidate. generalize (default [] (m_subs b !! key)). intros chs.
  revert b. induction chs as [|ch chs IH]; intros b; [done|]. simpl.
  destruct (IH (mesh_send (mkEvent key "" None ScopeLocal) b ch)) as (->&->&->&->&->&->).
  unfold mesh_send. by repeat case_match.
Qed.

Lemma handle_inv b key : mesh_inv b -> mesh_inv (handleInvalidate b key).
Proof.
  destruct (handleInvalidate_frame b key) as (?&?&?&?&?&?).
  intros (Hq & Hp & Hs). split_and!; [ext|ext|by apply handleInvalidate_inv].
Qed.

Lemma publish_frames b :
  (forall key, let b' := fst (publish_begin key b) in
    m_resolvedAddr b' = m_resolvedAddr b /\ m_knownPeers b' = m_knownPeers b /\
    m_subs b' = m_subs b /\ m_chans b' = m_chans b /\ m_next b' = m_next b /\ m_panicked b' = m_panicked b) /\
  let b' := batcher_take b in
    m_resolvedAddr b' = m_resolvedAddr b /\ m_knownPeers b' = m_knownPeers b /\
    m_subs b' = m_subs b /\ m_chans b' = m_chans b /\ m_next b' = m_next b /\ m_panicked b' = m_panicked b.
Proof.
  split; [intros key; unfold publish_begin|unfold batcher_take]; by repeat case_match.
Qed.

Lemma subscription_frames b :
  (forall key ch, let b' := MeshBus_Unsubscribe key ch b in
    m_batch b' = m_batch b /\ m_publishCh b' = m_publishCh b /\ m_pending b' = m_pending b /\
    m_waiting b' = m_waiting b /\ m_resolvedAddr b' = m_resolvedAddr b /\ m_knownPeers b' = m_knownPeers b) /\
  (forall ch, let b' := fst (mesh_recv ch b) in
    m_batch b' = m_batch b /\ m_publishCh b' = m_publishCh b /\ m_pending b' = m_pending b /\
    m_waiting b' = m_waiting b /\ m_resolvedAddr b' = m_resolvedAddr b /\ m_knownPeers b' = m_knownPeers b).
Proof.
  split; [intros key ch; unfold MeshBus_Unsubscribe, mesh_close|intros ch; unfold mesh_recv];
    by repeat case_match.
Qed.

Lemma NewMeshBus_inv peers adv n id group : mesh_inv (NewMeshBus peers adv n id group).
Proof.
  split_and!.
  - split; simpl; [constructor|set_solver|set_solver|lia].
  - intros a r. simpl. by rewrite lookup_empty.
  - split; simpl; try done; intros *; rewrite lookup_empty; done.
Qed.

Variable resolve : string -> option string.
Variable write_err : string -> option error.

Lemma heard_from_inv now a b : peers_inv b -> peers_inv (heard_from resolve now a b).
Proof.
  unfold peers_inv, heard_from. simpl. intros H a' r Hr.
  destruct (decide (a = a')) as [->|Hne]; [rewrite lookup_insert_eq; by eexists|].
  rewrite lookup_insert_ne by done. case_match; [by eapply H|]. case_match; [|by eapply H].
  rewrite lookup_insert_ne in Hr by done. by eapply H.
Qed.

Lemma send_packet_frame p buf b :
  let b' := fst (send_packet resolve write_err p buf b) in
  m_batch b' = m_batch b /\ m_publishCh b' = m_publishCh b /\ m_pending b' = m_pending b /\
  m_waiting b' = m_waiting b /\ m_resolvedAddr b' = m_resolvedAddr b /\ m_knownPeers b' = m_knownPeers b /\
  m_subs b' = m_subs b /\ m_chans b' = m_chans b /\ m_next b' = m_next b /\ m_panicked b' = m_panicked b.
Proof.
  unfold send_packet. destruct (marshal _ _) as [buf' [n [e|]]]; [done|]. unfold broadcast.
  by destruct (write_err (m_group b)).
Qed.

Lemma send_packet_inv p buf b : mesh_inv b -> mesh_inv (fst (send_packet resolve write_err p buf b)).
Proof.
  destruct (send_packet_frame p buf b) as (?&?&?&?&?&?&?&?&?&?).
  intros (Hq & Hp & Hs). split_and!; ext.
Qed.

Lemma flush_inv buf b : mesh_inv b -> mesh_inv (fst (flush resolve write_err buf b)).
Proof.
  intros Hi. unfold flush. destruct (m_batch b) eqn:E; [done|].
  pose proof (send_packet_inv (batch_packet b) buf b Hi) as Hs.
  destruct (send_packet _ _ _ _ _) as [b' sent]. by apply cleanup_flush_inv.
Qed.

Lemma listen_inv now data b : mesh_inv b -> mesh_inv (listen_datagram resolve now data b).
Proof.
  intros Hi. unfold listen_datagram. destruct (unmarshal _ _) as [p [e|]]; [done|].
  case_decide; [done|].
  assert (mesh_inv (set_mcounts b (m_published b) (u64 (m_received b + 1)))) as Hc.
  { destruct Hi as (H1 & H2 & H3). split_and!; ext. }
  revert Hc. generalize (set_mcounts b (m_published b) (u64 (m_received b + 1))). intros b0 Hc.
  case_decide; [|case_decide; [by apply handle_inv|case_decide; [|done]]].
  - destruct Hc as (H1 & H2 & H3). split_and!; [ext|by apply heard_from_inv|ext].
  - revert b0 Hc. induction (p_Keys p) as [|k ks IH]; intros b0 Hc; [done|]. simpl.
    by apply IH, handle_inv.
Qed.

(** The steps of a mesh bus: those of publishers, of the batcher (sending and
    clearing the pending set are separate, as other goroutines run between
    them), of the listener, of the tickers and of subscribers. *)
Inductive mesh_step : MeshBus -> MeshBus -> Prop :=
| ms_begin key b : mesh_step b (fst (publish_begin key b))
| ms_send key b : key ∈ m_waiting b -> has_room b = true -> mesh_step b (publish_send key b)
| ms_cancel key b : key ∈ m_waiting b -> mesh_step b (publish_cancel key b)
| ms_take b : mesh_step b (batcher_take b)
| ms_packet p buf b : mesh_step b (fst (send_packet resolve write_err p buf b))
| ms_cleanup b : mesh_step b (flush_cleanup b)
| ms_flush buf b : mesh_step b (fst (flush resolve write_err buf b))
| ms_datagram now data b : mesh_step b (listen_datagram resolve now data b)
| ms_peers now b : mesh_step b (cleanup_tick now b)
| ms_subscribe key b : mesh_step b (fst (MeshBus_Subscribe key b))
| ms_unsubscribe key ch b : mesh_step b (MeshBus_Unsubscribe key ch b)
| ms_recv ch b : mesh_step b (fst (mesh_recv ch b)).

Lemma mesh_step_inv b b' : mesh_step b b' -> mesh_inv b -> mesh_inv b'.
Proof.
  destruct 1 as [key b|key b ?? |key b ?|b|p buf b|b|buf b|now data b|now b|key b|key ch b|ch b];
    intros Hi; pose proof Hi as (H1 & H2 & H3).
  - destruct (publish_frames b) as [Hf _]. destruct (Hf key) as (?&?&?&?&?&?).
    split_and!; [by apply publish_begin_inv|ext..].
  - split_and!; [by apply publish_send_inv|ext..].
  - split_and!; [by apply publish_cancel_inv|ext..].
  - destruct (publish_frames b) as [_ (?&?&?&?&?&?)]. split_and!; [by apply batcher_take_inv|ext..].
  - by apply send_packet_inv.
  - by apply cleanup_flush_inv.
  - by apply flush_inv.
  - by apply listen_inv.
  - split_and!; [ext|by apply cleanup_tick_inv|ext].
  - split_and!; [ext|ext|by apply Subscribe_mesh_inv].
  - destruct (subscription_frames b) as [Hf _]. destruct (Hf key ch) as (?&?&?&?&?&?).
    split_and!; [ext|ext|by apply Unsubscribe_mesh_inv].
  - destruct (subscription_frames b) as [_ Hf]. destruct (Hf ch) as (?&?&?&?&?&?).
    split_and!; [ext|ext|by apply mesh_recv_inv].
Qed.

Lemma mesh_steps_inv a b : rtc mesh_step a b -> mesh_inv a -> mesh_inv b.
Proof. induction 1; eauto using mesh_step_inv. Qed.

(** The turns of [runBatcher] that are not its end. *)
Inductive batcher_turn : MeshBus -> MeshBus -> Prop :=
| bt_key buf b : m_publishCh b <> [] -> batcher_turn b (fst (batcher_key resolve write_err buf b))
| bt_tick buf b : batcher_turn b (fst (batcher_tick resolve write_err buf b)).

Lemma flush_frame buf b :
  let b' := fst (flush resolve write_err buf b) in
  m_batch b' = [] /\ m_publishCh b' = m_publishCh b /\ m_waiting b' = m_waiting b.
Proof.
  unfold flush. destruct (m_batch b) eqn:E; [done|].
  destruct (send_packet_frame (batch_packet b) buf b) as (_ & H2 & _ & H4 & _).
  destruct (send_packet _ _ _ _ _) as [b' sent]. done.
Qed.

(** The batcher, as long as it runs, empties the queue and the batch. *)
Lemma batcher_drains b : mesh_inv b -> exists b', rtc batcher_turn b b' /\
  m_publishCh b' = [] /\ m_batch b' = [] /\ m_waiting b' = m_waiting b /\ m_pending b' = m_waiting b.
Proof.
  remember (m_publishCh b) as q eqn:Hq. revert b Hq. induction q as [|key q IH]; intros b Hq Hi.
  - exists (fst (flush resolve write_err [] b)). destruct (flush_frame [] b) as (H1 & H2 & H3).
    split; [apply rtc_once, bt_tick|]. rewrite H1, H2, H3, <- Hq. do 3 (split; [done|]).
    pose proof (flush_inv [] _ Hi) as (Hf & _). apply set_eq. intros k.
    rewrite (qi_pending _ Hf), H1, H2, H3, <- Hq. simpl. split; [|by left]. by intros [?|?%elem_of_nil].
  - set (b1 := fst (batcher_key resolve write_err [] b)).
    assert (mesh_inv b1 /\ m_publishCh b1 = q /\ m_waiting b1 = m_waiting b) as (Hi1 & Eq1 & Ew1).
    { assert (mesh_inv (batcher_take b)) as Ht by (exact (mesh_step_inv _ _ (ms_take b) Hi)).
      assert (m_publishCh (batcher_take b) = q /\ m_waiting (batcher_take b) = m_waiting b) as [E1 E2]
        by (unfold batcher_take; by rewrite <- Hq).
      unfold b1, batcher_key. rewrite <- Hq. case_match; [|done].
      destruct (flush_frame [] (batcher_take b)) as (_ & H2 & H3). rewrite H2, H3.
      split; [by apply flush_inv|done]. }
    destruct (IH b1) as (b' & Hr & H1 & H2 & H3 & H4); [done|done|].
    exists b'. rewrite <- Ew1. split; [|done]. eapply rtc_l; [apply (bt_key []); by rewrite <- Hq|exact Hr].
Qed.

(** Where a broadcast goes. *)
Lemma broadcast_addressees payload b a data :
  peers_inv b -> (a, data) ∈ snd (fst (broadcast resolve write_err payload b)) ->
  data = payload /\
  (a = m_group b \/
   (exists peer t, m_knownPeers b !! peer = Some t /\ m_resolvedAddr b !! peer = Some a) \/
   exists peer, peer ∈ mo_Peers (m_opts b) /\ resolve peer = Some a).
Proof.
  intros Hp Hin. unfold broadcast in Hin. simpl in Hin.
  apply list_elem_of_fmap in Hin as (x & [= -> ->] & [_ Hx]%list_elem_of_filter). split; [done|].
  assert (x = m_group b \/ x ∈ (map_to_list (m_resolvedAddr b)).*2 \/ x ∈ seed_addrs resolve b) as Hcases.
  { destruct (write_err (m_group b)); simpl in Hx; rewrite elem_of_cons, elem_of_app in Hx; exact Hx. }
  destruct Hcases as [->|[Hr|Hs]]; [by left|right; left|right; right].
  - apply list_elem_of_fmap in Hr as ([peer r] & -> & Hr%elem_of_map_to_list). destruct (Hp _ _ Hr) as [t Ht].
    by exists peer, t.
  - apply list_elem_of_omap in Hs as (peer & Hpeer & Hr). exists peer. split; [done|].
    by destruct (m_resolvedAddr b !! peer).
Qed.

(** C39. Whatever interleaving of publishers, batcher, listener, peer expiry and
    subscribers reaches a mesh bus that is not closed: every pending key is in
    exactly one place on its way out (a waiting publisher, the queue or the
    batch) and in none twice; the batcher, as long as it runs, can always empty
    the queue and the batch by its own turns, after which the only pending keys
    are those of publishers still waiting to enter the queue, so that no key need
    stay in the pending set (a node whose batcher has ended with [Close] keeps its
    pending keys: [closed_node_silent]); the queue stays within its capacity;
    resolved addresses are kept for known peers only, and what the bus broadcasts
    goes to the group, to the address of a known peer or to a configured seed, and
    to nobody else; no operation has sent on a closed channel or closed one twice;
    and every subscribed channel is open and belongs to one key. *)
Theorem MeshBus_reachable_inv (peers : list string) (adv group : string) (n : Z)
    (id : list Byte.byte) (b : MeshBus) :
  rtc mesh_step (NewMeshBus peers adv n id group) b ->
  mesh_inv b /\
  (exists b', rtc batcher_turn b b' /\ m_publishCh b' = [] /\ m_batch b' = [] /\ m_pending b' = m_waiting b) /\
  forall payload a data, (a, data) ∈ snd (fst (broadcast resolve write_err payload b)) ->
    data = payload /\
    (a = m_group b \/
     (exists peer t, m_knownPeers b !! peer = Some t /\ m_resolvedAddr b !! peer = Some a) \/
     exists peer, peer ∈ mo_Peers (m_opts b) /\ resolve peer = Some a).
Proof.
  intros H. assert (mesh_inv b) as Hi by (eapply mesh_steps_inv; [exact H|apply NewMeshBus_inv]).
  split; [done|]. split.
  - destruct (batcher_drains b Hi) as (b' & H1 & H2 & H3 & _ & H4). by exists b'.
  - intros payload a data. apply broadcast_addressees. by destruct Hi as (_ & Hp & _).
Qed.

End MeshInv.

(** ** Delivery *)

Section Delivery.
Variable resolve : string -> option string.
Variable write_err : string -> option error.
Implicit Types b : MeshBus.

Definition mesh_event (key : string) : Event := mkEvent key "" None ScopeLocal.

(** What a non-blocking send makes of an open channel. *)
Definition offer (evt : Event) (c : chan) : chan :=
  if (length (buffer c) <? subCap)%nat then mkChan (buffer c ++ [evt]) false else c.

Lemma foldl_mesh_send evt chs b :
  NoDup chs ->
  (forall ch, ch ∈ chs -> exists c, m_chans b !! ch = Some c /\ closed c = false) ->
  forall ch, m_chans (foldl (mesh_send evt) b chs) !! ch =
    if decide (ch ∈ chs) then offer evt <$> m_chans b !! ch else m_chans b !! ch.
Proof.
  revert b. induction chs as [|x chs IH]; intros b Hnd Hopen ch; [by rewrite decide_False by set_solver|].
  apply NoDup_cons in Hnd as [Hx Hnd]. destruct (Hopen x) as (c & Hc & Ho); [by left|].
  assert (m_chans (mesh_send evt b x) = <[x := offer evt c]> (m_chans b)) as Hs.
  { unfold mesh_send, offer. rewrite Hc, Ho. case_match; [done|]. by rewrite insert_id. }
  cbn [foldl]. rewrite IH; [|done|].
  2: { intros y Hy. rewrite Hs, lookup_insert_ne by (intros ->; done). apply Hopen. by right. }
  rewrite Hs. destruct (decide (ch = x)) as [->|Hne].
  - rewrite (decide_False (P := x ∈ chs)) by done. rewrite lookup_insert_eq, decide_True by (by left).
    by rewrite Hc.
  - rewrite lookup_insert_ne by done. destruct (decide (ch ∈ chs)).
    + by rewrite decide_True by (by right).
    + rewrite decide_False; [done|]. rewrite elem_of_cons. naive_solver.
Qed.

Lemma handleInvalidate_chans key b :
  subs_inv b ->
  forall ch, m_chans (handleInvalidate b key) !! ch =
    if decide (ch ∈ default [] (m_subs b !! key)) then offer (mesh_event key) <$> m_chans b !! ch
    else m_chans b !! ch.
Proof.
  intros Hi. destruct (m_subs b !! key) as [l|] eqn:El.
  - unfold handleInvalidate. rewrite El. cbn [default]. apply foldl_mesh_send; [by eapply si_nodup|].
    intros ch Hch. destruct (si_open _ Hi _ _ _ El Hch) as (c & Hc & Ho & _). by exists c.
  - intros ch. unfold handleInvalidate. rewrite El. cbn [default foldl].
    rewrite decide_False; [done|]. apply not_elem_of_nil.
Qed.

Lemma handleInvalidate_subs key b : m_subs (handleInvalidate b key) = m_subs b.
Proof.
  unfold handleInvalidate. generalize (default [] (m_subs b !! key)). intros chs. revert b.
  induction chs as [|ch chs IH]; intros b; [done|]. cbn [foldl]. by rewrite IH, mesh_send_subs.
Qed.

(** A batch offers one event to each subscriber of its keys. *)
Lemma foldl_handleInvalidate keys b k l ch c :
  NoDup keys -> subs_inv b -> m_subs b !! k = Some l -> ch ∈ l -> m_chans b !! ch = Some c ->
  m_chans (foldl handleInvalidate b keys) !! ch =
    Some (if decide (k ∈ keys) then offer (mesh_event k) c else c).
Proof.
  intros Hnd. revert b c. induction Hnd as [|key keys Hkey _ IH]; intros b c Hi Hl Hch Hc; [done|].
  cbn [foldl].
  assert (m_chans (handleInvalidate b key) !! ch =
    Some (if decide (k = key) then offer (mesh_event k) c else c)) as Hk.
  { rewrite handleInvalidate_chans by done. destruct (decide (k = key)) as [->|Hne].
    - rewrite Hl. simpl. by rewrite decide_True, Hc by done.
    - rewrite decide_False; [done|]. destruct (m_subs b !! key) as [l'|] eqn:El'; [|set_solver].
      intros Hch'. by apply Hne, (si_owner _ Hi _ _ _ _ _ Hl El' Hch). }
  rewrite (IH _ _ (handleInvalidate_inv _ _ Hi) ltac:(by rewrite handleInvalidate_subs) Hch Hk).
  destruct (decide (k = key)) as [->|Hne].
  - rewrite decide_False by done. by rewrite decide_True by (by left).
  - destruct (decide (k ∈ keys)).
    + by rewrite decide_True by (by right).
    + rewrite decide_False; [done|]. rewrite elem_of_cons. naive_solver.
Qed.

(** *** Sizes *)

Lemma concat_key_bytes_size keys :
  (2 * length keys <= length (concat (key_bytes <$> keys)))%nat /\
  Forall (fun k => (String.length k <= length (concat (key_bytes <$> keys)))%nat) keys.
Proof.
  induction keys as [|k keys [IH1 IH2]]; [by split; [simpl; lia|constructor]|].
  rewrite fmap_cons. cbn [concat length]. rewrite length_app, length_key_bytes. split; [lia|].
  constructor; [lia|]. eapply Forall_impl; [exact IH2|]. simpl. lia.
Qed.

Lemma batch_packet_bytes b :
  packet_bytes (batch_packet b) =
    head_bytes (batch_packet b) ++ put_be 2 (Z.of_nat (length (m_batch b))) ++
    concat (key_bytes <$> m_batch b).
Proof. done. Qed.

(** A batch whose encoding fits a pooled buffer also fits the 16-bit fields. *)
Lemma batch_packet_ok b :
  length (m_nodeID b) = 16%nat -> (length (packet_bytes (batch_packet b)) <= bufferLen)%nat ->
  packet_ok (batch_packet b).
Proof.
  intros Hid Hlen. rewrite batch_packet_bytes, !length_app, length_put_be in Hlen. unfold bufferLen in Hlen.
  destruct (concat_key_bytes_size (m_batch b)) as [H1 H2].
  split; simpl; try done; [lia|]. eapply Forall_impl; [exact H2|]. simpl. intros. lia.
Qed.

(** What flushing a batch that fits the buffer sends to the group. *)
Lemma flush_sends buf b :
  length (m_nodeID b) = 16%nat -> m_batch b <> [] -> length buf = bufferLen ->
  (length (packet_bytes (batch_packet b)) <= bufferLen)%nat -> write_err (m_group b) = None ->
  (m_group b, packet_bytes (batch_packet b)) ∈ snd (flush resolve write_err buf b).
Proof.
  intros Hid Hne Hbuf Hlen Hw. unfold flush. destruct (m_batch b) as [|k0 ks] eqn:Eb; [done|].
  unfold send_packet. rewrite marshal_bytes; [|by apply batch_packet_ok|lia].
  rewrite take_app_length. unfold broadcast. rewrite Hw. simpl.
  rewrite filter_cons_True by done. by left.
Qed.

Lemma listen_batch now a b :
  packet_ok (batch_packet a) -> (length (packet_bytes (batch_packet a)) <= listenBuf)%nat ->
  listen_datagram resolve now (packet_bytes (batch_packet a)) b =
    if decide (m_nodeID a = m_nodeID b) then b
    else foldl handleInvalidate (set_mcounts b (m_published b) (u64 (m_received b + 1))) (m_batch a).
Proof.
  intros Hok Hlen. unfold listen_datagram. rewrite take_ge by done. rewrite unmarshal_bytes by done.
  unfold packet_norm. change (keyed (p_Type (batch_packet a))) with false.
  rewrite (decide_True (P := p_Type (batch_packet a) = typeBatch)) by done.
  cbn [p_NodeID p_Type p_Key p_Keys batch_packet]. by case_decide.
Qed.

(** C10. A flushed batch reaches the subscribers of every other node: when the
    batch fits a datagram of 1500 bytes and the group can be written to, the
    flush sends one datagram to the group; a node that receives it offers each
    of its subscribed channels an event of its key exactly when that key is in
    the batch, so a channel with room gains the event at its end and no other
    channel changes; and the sending node ignores its own datagram. *)
Theorem Mesh_batch_delivered (a b : MeshBus) (buf : list Byte.byte) (now : time) :
  mesh_inv a -> mesh_inv b -> m_batch a <> [] -> length (m_nodeID a) = 16%nat ->
  m_nodeID a <> m_nodeID b -> length buf = bufferLen -> write_err (m_group a) = None ->
  (length (packet_bytes (batch_packet a)) <= listenBuf)%nat ->
  exists data, (m_group a, data) ∈ snd (flush resolve write_err buf a) /\
    listen_datagram resolve now data a = a /\
    forall k l ch c, m_subs b !! k = Some l -> ch ∈ l -> m_chans b !! ch = Some c ->
      m_chans (listen_datagram resolve now data b) !! ch =
        Some (if decide (k ∈ m_batch a) then offer (mesh_event k) c else c).
Proof.
  intros (Hqa & _ & _) (_ & _ & Hsb) Hne Hid Hdiff Hbuf Hw Hlen.
  assert (length (packet_bytes (batch_packet a)) <= bufferLen)%nat as Hlen'
    by (unfold listenBuf, bufferLen in *; lia).
  pose proof (batch_packet_ok a Hid Hlen') as Hok.
  exists (packet_bytes (batch_packet a)). split; [by apply flush_sends|].
  split; [by rewrite listen_batch, decide_True|].
  intros k l ch c Hl Hch Hc. rewrite listen_batch by done. rewrite decide_False by done.
  apply (foldl_handleInvalidate _ _ k l); [|by eapply subs_inv_ext; [..|exact Hsb]|done..].
  pose proof (qi_nodup _ Hqa) as Hnd. by apply NoDup_app in Hnd as [? _].
Qed.

(** The length of the datagram a flush would send. *)
Definition batch_size b : nat := length (packet_bytes (batch_packet b)).

(** A batch of more than 1500 encoded bytes is lost without an error: past
    2048 bytes nothing is sent, and up to there every receiver rejects the
    datagram its 1500-byte buffer truncates; in both cases the batch and its
    keys leave the pending set as if they had been delivered. *)
Theorem Mesh_large_batch_lost (a b : MeshBus) (buf : list Byte.byte) (now : time) (addr : string)
    (data : list Byte.byte) :
  length (m_nodeID a) = 16%nat -> length buf = bufferLen ->
  Z.of_nat (length (m_batch a)) < 2 ^ 16 -> Forall (fun k => Z.of_nat (String.length k) < 2 ^ 16) (m_batch a) ->
  (listenBuf < batch_size a)%nat ->
  let '(a', sent) := flush resolve write_err buf a in
  m_batch a' = [] /\ (forall k, k ∈ m_batch a -> k ∉ m_pending a') /\
  ((bufferLen < batch_size a)%nat -> sent = []) /\
  ((addr, data) ∈ sent -> listen_datagram resolve now data b = b).
Proof.
  unfold batch_size. intros Hid Hbuf Hcount Hkeys Hlen.
  assert (packet_ok (batch_packet a)) as Hok by (split; simpl; (done || lia)).
  unfold flush. destruct (m_batch a) as [|k0 ks] eqn:Eb.
  { rewrite batch_packet_bytes, Eb, (length_app (head_bytes _)), (length_head _ Hok) in Hlen.
    unfold listenBuf in Hlen. vm_compute in Hlen. lia. }
  rewrite <- Eb in *.
  destruct (send_packet resolve write_err (batch_packet a) buf a) as [a' sent] eqn:Es.
  pose proof (send_packet_frame resolve write_err (batch_packet a) buf a) as Hf. rewrite Es in Hf. simpl in Hf.
  destruct Hf as (Hb & _ & Hp & _). split; [done|].
  split; [intros k Hk; simpl; rewrite Hb; set_solver|]. unfold send_packet in Es.
  destruct (decide (length (packet_bytes (batch_packet a)) <= bufferLen)%nat) as [Hle|Hgt].
  - split; [lia|]. intros Hin. rewrite marshal_bytes in Es by (done || lia).
    rewrite take_app_length in Es. unfold broadcast in Es. injection Es as <- <-.
    apply list_elem_of_fmap in Hin as (? & [= -> ->] & _). unfold listen_datagram.
    destruct (unmarshal_truncated (batch_packet a) listenBuf Hok eq_refl Hlen) as [e He].
    destruct (unmarshal _ _) as [p err]. simpl in He. by subst err.
  - pose proof (marshal_short (batch_packet a) buf Hok ltac:(lia)) as Hm.
    destruct (marshal _ _) as [buf' [n err]]. simpl in Hm. subst err. injection Es as <- <-.
    split; [done|]. by intros ?%elem_of_nil.
Qed.

(** A publication can be swallowed by a flush that is already past it:
    while the batcher is between sending a batch and clearing the pending set,
    publishing a key of the batch again reports success and does nothing, and
    once the flush ends the key is neither pending nor queued: no datagram of
    the second publication is ever sent. *)
Theorem Mesh_publish_lost_in_flush (buf : list Byte.byte) (cx : ctx) (pick : bool) (key : string)
    (b : MeshBus) :
  mesh_inv b -> key ∈ m_batch b ->
  let sent := fst (send_packet resolve write_err (batch_packet b) buf b) in
  let '(b', r) := MeshBus_Publish cx pick key sent in
  b' = sent /\ r = Returned None /\
  let b'' := flush_cleanup b' in
  (key ∉ m_pending b'') /\ (key ∉ m_waiting b'') /\ (key ∉ m_batch b'' ++ m_publishCh b'').
Proof.
  intros Hi Hk. pose proof (send_packet_inv resolve write_err (batch_packet b) buf b Hi) as Hs.
  destruct (send_packet_frame resolve write_err (batch_packet b) buf b) as (Hb & _ & Hp & _).
  destruct Hi as (Hq & _). simpl in *.
  set (sent := fst (send_packet resolve write_err (batch_packet b) buf b)) in *.
  unfold MeshBus_Publish, publish_begin.
  rewrite decide_True by (rewrite Hp; apply (qi_pending _ Hq); right; apply elem_of_app; by left).
  split; [done|]. split; [done|].
  pose proof (cleanup_flush_inv _ Hs) as (Hc & _).
  assert (key ∉ m_pending (flush_cleanup sent)) as Hnp by (simpl; rewrite Hb; set_solver).
  split; [done|]. rewrite (qi_pending _ Hc) in Hnp. tauto.
Qed.

End Delivery.

(** ** Witnesses *)

Definition no_resolve : string -> option string := fun _ => None.
Definition no_errors : string -> option error := fun _ => None.

Definition mesh_new (id : Byte.byte) : MeshBus := NewMeshBus [] "" 0 (replicate 16 id) "239.0.0.1".

(** A node with one key in its batch, and a node that subscribes to the key. *)
Definition mesh_a : MeshBus :=
  batcher_take (publish_send "user:1" (fst (publish_begin "user:1" (mesh_new Byte.x01)))).
Definition mesh_b : MeshBus := fst (MeshBus_Subscribe "user:1" (mesh_new Byte.x02)).
Definition mesh_buf : list Byte.byte := replicate bufferLen Byte.x00.

Lemma mesh_a_reachable : rtc (mesh_step no_resolve no_errors) (mesh_new Byte.x01) mesh_a.
Proof.
  eapply rtc_l; [apply (ms_begin no_resolve no_errors "user:1")|].
  eapply rtc_l; [apply (ms_send no_resolve no_errors "user:1"); [decide_closed|by vm_compute]|].
  eapply rtc_l; [apply ms_take|]. apply rtc_refl.
Qed.

Lemma mesh_a_inv : mesh_inv mesh_a.
Proof. eapply mesh_steps_inv; [exact mesh_a_reachable|apply NewMeshBus_inv]. Qed.

Lemma mesh_b_inv : mesh_inv mesh_b.
Proof. eapply mesh_step_inv; [apply (ms_subscribe no_resolve no_errors "user:1")|apply NewMeshBus_inv]. Qed.

Lemma MeshBus_reachable_inv_witness : mesh_inv mesh_a /\ m_batch mesh_a = ["user:1"].
Proof.
  split; [|by vm_compute].
  apply (MeshBus_reachable_inv no_resolve no_errors [] "" "239.0.0.1" 0 (replicate 16 Byte.x01)).
  exact mesh_a_reachable.
Defined.

Lemma Mesh_batch_delivered_witness :
  exists data, ("239.0.0.1", data) ∈ snd (flush no_resolve no_errors mesh_buf mesh_a) /\
    listen_datagram no_resolve 0 data mesh_a = mesh_a /\
    m_chans (listen_datagram no_resolve 0 data mesh_b) !! 0%nat =
      Some (mkChan [mesh_event "user:1"] false).
Proof.
  destruct (Mesh_batch_delivered no_resolve no_errors mesh_a mesh_b mesh_buf 0) as (data & H1 & H2 & H3);
    [exact mesh_a_inv|exact mesh_b_inv|by vm_compute|by vm_compute|by vm_compute|by vm_compute|
     by vm_compute|vm_compute; lia|].
  exists data. split; [exact H1|]. split; [exact H2|].
  rewrite (H3 "user:1" [0%nat] 0%nat (mkChan [] false)); [by vm_compute|by vm_compute|by left|by vm_compute].
Defined.

(** Twenty keys of eighty bytes: a full batch by default. *)
Definition long_key (i : nat) : string :=
  bytes_string (replicate 79 Byte.x61 ++ [byte_of_Z (65 + Z.of_nat i)]).
Definition mesh_full : MeshBus :=
  set_queue (mesh_new Byte.x01) [] (list_to_set (long_key <$> seq 0 20)) ∅ (long_key <$> seq 0 20).

Lemma Mesh_large_batch_lost_witness :
  let '(a', sent) := flush no_resolve no_errors mesh_buf mesh_full in
  m_batch a' = [] /\ length sent = 1%nat /\
  (forall data, ("239.0.0.1", data) ∈ sent -> listen_datagram no_resolve 0 data mesh_b = mesh_b).
Proof.
  pose proof (fun data => Mesh_large_batch_lost no_resolve no_errors mesh_full mesh_b mesh_buf 0 "239.0.0.1" data
    ltac:(by vm_compute) ltac:(by vm_compute) ltac:(by vm_compute)
    ltac:(decide_closed) ltac:(apply Nat.ltb_lt; by vm_compute)) as H.
  assert (length (snd (flush no_resolve no_errors mesh_buf mesh_full)) = 1%nat) as Hl by (by vm_compute).
  destruct (flush no_resolve no_errors mesh_buf mesh_full) as [a' sent].
  split; [exact (proj1 (H []))|]. split; [exact Hl|].
  intros data Hd. exact (proj2 (proj2 (proj2 (H data))) Hd).
Defined.

Lemma Mesh_publish_lost_in_flush_witness :
  let sent := fst (send_packet no_resolve no_errors (batch_packet mesh_a) mesh_buf mesh_a) in
  let '(b', r) := MeshBus_Publish Background true "user:1" sent in
  r = Returned None /\ m_pending (flush_cleanup b') = ∅.
Proof.
  pose proof (Mesh_publish_lost_in_flush no_resolve no_errors mesh_buf Background true "user:1" mesh_a
    mesh_a_inv ltac:(decide_closed)) as H. simpl in H |- *.
  destruct (MeshBus_Publish _ _ _ _) as [b' r]. destruct H as (-> & -> & _). split; [reflexivity|].
  by vm_compute.
Defined.
