(* ===== verification/MeshLife.v ===== *)
(** * MeshLife: the life of a mesh node

    Models the rest of [src/syncbus/mesh/mesh.go]: [NewMeshBus] with every
    error it can meet and what it does to the socket, the four goroutines it
    starts with their select loops, [Close] and [IsHealthy]. What the goroutines
    do in one iteration is in [Mesh]. The operating system is an argument: the
    errors of the socket calls, and which case a select takes.

    The theorems: a failed construction leaves no socket open and reports the
    first error ([MeshBus_open_correct]); after [Close] every goroutine can
    only end, nothing is sent or received any more, and a publication that was
    accepted and not sent is lost ([closed_node_silent]). *)

From stdpp Require Import pretty.
From S2P Require Import Prelude Bytes SyncBus MeshPacket Mesh.

(** ** Construction *)

(** The options as the caller gives them. *)
Record meshSetup := mkSetup {
  su_Port : Z;
  su_Interface : string;
  su_Group : string;
  su_Peers : list string;
  su_AdvertiseAddr : string;
  su_Heartbeat : duration;
  su_BatchInterval : duration;
  su_BatchSize : Z;
}.

(** The answers of the calls: the address of the group, and the errors of
    listening, of looking up the interface, of joining the group and of
    choosing the interface. *)
Record open_io := mkOpenIO {
  oi_resolve : string -> res string;
  oi_listen : option error;
  oi_iface : option error;
  oi_join : option error;
  oi_setiface : option error;
}.

(** The goroutines. *)
Inductive loop := LListen | LHeartbeat | LCleanup | LBatcher.

#[export] Instance loop_eq_dec : EqDecision loop.
Proof. solve_decision. Defined.

(** [mn_conn]: the field [conn], with whether the socket is open;
    [mn_cancelled]: [cancel] was called; [mn_loops]: the goroutines running. *)
Record mesh_node := mkNode {
  mn_bus : MeshBus;
  mn_heartbeat : duration;
  mn_batchInterval : duration;
  mn_conn : option bool;
  mn_cancelled : bool;
  mn_loops : list loop;
}.

Definition set_bus_of n b : mesh_node :=
  mkNode b (mn_heartbeat n) (mn_batchInterval n) (mn_conn n) (mn_cancelled n) (mn_loops n).
Definition set_loops n ls : mesh_node :=
  mkNode (mn_bus n) (mn_heartbeat n) (mn_batchInterval n) (mn_conn n) (mn_cancelled n) ls.

Definition setup_port (o : meshSetup) : Z := if su_Port o =? 0 then 7946 else su_Port o.
Definition setup_group (o : meshSetup) : string :=
  if decide (su_Group o = "") then "239.0.0.1" else su_Group o.

(** The node after the socket calls. *)
Definition mesh_start (o : meshSetup) (addr : string) (nodeID : list Byte.byte) : mesh_node :=
  mkNode (NewMeshBus (su_Peers o) (su_AdvertiseAddr o) (su_BatchSize o) nodeID addr)
    (su_Heartbeat o)
    (if su_BatchInterval o =? 0 then 100 * 1000000 else su_BatchInterval o)
    (Some true) false [LListen; LHeartbeat; LCleanup; LBatcher].

(** [NewMeshBus]; the second component is whether a socket is left open. *)
Definition MeshBus_open (io : open_io) (nodeID : list Byte.byte) (o : meshSetup) : res mesh_node * bool :=
  match oi_resolve io (setup_group o +:+ ":" +:+ pretty (setup_port o)) with
  | Err e => (Err (ErrWrap "mesh: failed to resolve multicast address" e), false)
  | Ok addr =>
      match oi_listen io with
      | Some e => (Err (ErrWrap ("mesh: failed to listen on port " +:+ pretty (setup_port o)) e), false)
      | None =>
          let iface := bool_decide (su_Interface o <> "") in
          match (if iface then oi_iface io else None) with
          | Some e => (Err (ErrWrap ("mesh: failed to find interface " +:+ su_Interface o) e), false)
          | None =>
              match oi_join io with
              | Some e => (Err (ErrWrap ("mesh: failed to join group " +:+ setup_group o) e), false)
              | None =>
                  match (if iface then oi_setiface io else None) with
                  | Some e => (Err (ErrWrap "mesh: failed to set multicast interface" e), false)
                  | None => (Ok (mesh_start o addr nodeID), true)
                  end
              end
          end
      end
  end.

(** The intervals of the tickers; [None]: [time.NewTicker] panics. *)
Definition new_ticker (d : duration) : option duration := if d <=? 0 then None else Some d.
Definition heartbeat_ticker n : option duration :=
  new_ticker (if mn_heartbeat n =? 0 then 5 * Second else mn_heartbeat n).
Definition batcher_ticker n : option duration := new_ticker (mn_batchInterval n).
Definition cleanup_ticker (n : mesh_node) : option duration := new_ticker (30 * Second).

(** ** Close and health *)

Definition MeshBus_Close (close_err : option error) n : mesh_node * option error :=
  match mn_conn n with
  | None => (mkNode (mn_bus n) (mn_heartbeat n) (mn_batchInterval n) None true (mn_loops n), None)
  | Some _ =>
      (mkNode (mn_bus n) (mn_heartbeat n) (mn_batchInterval n) (Some false) true (mn_loops n), close_err)
  end.

Definition MeshBus_IsHealthy n : bool := match mn_conn n with Some _ => true | None => false end.

(** ** The goroutines *)

Section Loops.
Variable resolve : string -> option string.
Variable write_err : string -> option error.
Variable local : string.

Definition ErrNetClosed : error := ErrNew "use of closed network connection".

(** A write on the socket: none succeeds once it is closed. *)
Definition conn_write_err n (addr : string) : option error :=
  match mn_conn n with Some true => write_err addr | _ => Some ErrNetClosed end.

(** What a goroutine does next: its context is done, or the iteration [f]. *)
Inductive turn := TDone | TRun (f : MeshBus -> MeshBus * list datagram).

(** One iteration of the loop of a goroutine, [None] if the case it would take
    is not ready. *)
Definition loop_iter (lp : loop) (t : turn) n : option (mesh_node * list datagram) :=
  if decide (lp ∈ mn_loops n) then
    match t with
    | TDone =>
        if mn_cancelled n then Some (set_loops n (filter (fun l => l <> lp) (mn_loops n)), []) else None
    | TRun f => let '(b, sent) := f (mn_bus n) in Some (set_bus_of n b, sent)
    end
  else None.

(** The cases of the loops. [listen] polls its context before it reads, and a
    read of a closed socket fails: the loop continues to its poll. *)
Definition heartbeatLoop_tick (buf : list Byte.byte) n : turn :=
  TRun (heartbeat_tick resolve (conn_write_err n) local buf).
Definition cleanupPeers_tick (now : time) : turn := TRun (fun b => (cleanup_tick now b, [])).
Definition runBatcher_key (buf : list Byte.byte) n : turn :=
  TRun (batcher_key resolve (conn_write_err n) buf).
Definition runBatcher_tick (buf : list Byte.byte) n : turn :=
  TRun (batcher_tick resolve (conn_write_err n) buf).
Definition listen_turn (now : time) (read : res (list Byte.byte)) n : turn :=
  TRun (fun b =>
    match mn_conn n, read with
    | Some true, Ok data => (listen_datagram resolve now data b, [])
    | _, _ => (b, [])
    end).

(** A step of the node: a goroutine, a caller, or [Close]; with the datagrams
    it puts on the network. *)
Inductive node_step : mesh_node -> list datagram -> mesh_node -> Prop :=
| nst_exit lp n n' sent : loop_iter lp TDone n = Some (n', sent) -> node_step n sent n'
| nst_heartbeat buf n n' sent :
    loop_iter LHeartbeat (heartbeatLoop_tick buf n) n = Some (n', sent) -> node_step n sent n'
| nst_cleanup now n n' sent :
    loop_iter LCleanup (cleanupPeers_tick now) n = Some (n', sent) -> node_step n sent n'
| nst_key buf n n' sent :
    loop_iter LBatcher (runBatcher_key buf n) n = Some (n', sent) -> node_step n sent n'
| nst_tick buf n n' sent :
    loop_iter LBatcher (runBatcher_tick buf n) n = Some (n', sent) -> node_step n sent n'
| nst_listen now read n n' sent :
    loop_iter LListen (listen_turn now read n) n = Some (n', sent) -> node_step n sent n'
| nst_publish cx pick key n :
    node_step n [] (set_bus_of n (fst (MeshBus_Publish cx pick key (mn_bus n))))
| nst_subscribe key n : node_step n [] (set_bus_of n (fst (MeshBus_Subscribe key (mn_bus n))))
| nst_unsubscribe key ch n : node_step n [] (set_bus_of n (MeshBus_Unsubscribe key ch (mn_bus n)))
| nst_recv ch n : node_step n [] (set_bus_of n (fst (mesh_recv ch (mn_bus n))))
| nst_close err n : node_step n [] (fst (MeshBus_Close err n)).

(** A run, with everything it puts on the network. *)
Inductive node_run : mesh_node -> list datagram -> mesh_node -> Prop :=
| nrun_nil n : node_run n [] n
| nrun_cons n1 n2 n3 s1 s2 : node_step n1 s1 n2 -> node_run n2 s2 n3 -> node_run n1 (s1 ++ s2) n3.

End Loops.

(** ** Construction *)

Lemma mesh_start_ok o addr nodeID :
  let n := mesh_start o addr nodeID in
  mn_loops n = [LListen; LHeartbeat; LCleanup; LBatcher] /\ MeshBus_IsHealthy n = true /\
  mo_BatchSize (m_opts (mn_bus n)) <> 0 /\ is_Some (cleanup_ticker n) /\
  (0 <= su_Heartbeat o -> is_Some (heartbeat_ticker n)) /\
  (0 <= su_BatchInterval o -> is_Some (batcher_ticker n)).
Proof.
  unfold heartbeat_ticker, batcher_ticker, new_ticker. simpl. split_and!; [done|done| |by eexists|..].
  - destruct (su_BatchSize o =? 0) eqn:E; bool_to_prop; lia.
  - intros H. destruct (su_Heartbeat o =? 0) eqn:E; [by eexists|]. apply Z.eqb_neq in E.
    assert ((su_Heartbeat o <=? 0) = false) as -> by (apply Z.leb_gt; lia). by eexists.
  - intros H. destruct (su_BatchInterval o =? 0) eqn:E; [by eexists|]. apply Z.eqb_neq in E.
    assert ((su_BatchInterval o <=? 0) = false) as -> by (apply Z.leb_gt; lia). by eexists.
Qed.

(** Construction succeeds exactly when no call fails, and a socket is left open
    exactly then. A node that was made has its four goroutines, a batch size,
    and reports itself healthy; its tickers start unless an interval is
    negative. *)
Theorem MeshBus_open_correct io nodeID o :
  let '(r, socket) := MeshBus_open io nodeID o in
  socket = is_ok r /\
  (is_ok r = true <->
     is_ok (oi_resolve io (setup_group o +:+ ":" +:+ pretty (setup_port o))) = true /\
     oi_listen io = None /\ oi_join io = None /\
     (su_Interface o <> "" -> oi_iface io = None /\ oi_setiface io = None)) /\
  (forall n, r = Ok n ->
     mn_loops n = [LListen; LHeartbeat; LCleanup; LBatcher] /\ MeshBus_IsHealthy n = true /\
     mo_BatchSize (m_opts (mn_bus n)) <> 0 /\ is_Some (cleanup_ticker n) /\
     (0 <= su_Heartbeat o -> is_Some (heartbeat_ticker n)) /\
     (0 <= su_BatchInterval o -> is_Some (batcher_ticker n))).
Proof.
  unfold MeshBus_open. destruct (oi_resolve io _) as [addr|e]; [|split; [done|naive_solver]].
  destruct (oi_listen io); [split; [done|naive_solver]|].
  destruct (oi_join io) as [ej|].
  { destruct (if bool_decide (su_Interface o <> "") then oi_iface io else None); (split; [done|naive_solver]). }
  case_bool_decide as Hi; simpl.
  - destruct (oi_iface io); [split; [done|naive_solver]|].
    destruct (oi_setiface io); [split; [done|naive_solver]|]. split; [done|]. split; [naive_solver|].
    intros n [= <-]. apply mesh_start_ok.
  - split; [done|]. split; [naive_solver|]. intros n [= <-]. apply mesh_start_ok.
Qed.

(** ** After Close *)

Section Closed.
Context (resolve : string -> option string) (write_err : string -> option error) (local : string).
Abbreviation step := (node_step resolve write_err local).
Abbreviation run := (node_run resolve write_err local).

Definition is_closed n : Prop := mn_conn n = Some false /\ mn_cancelled n = true.

(** Nothing observable from the network differs. *)
Definition quiet (b b' : MeshBus) : Prop :=
  m_published b' = m_published b /\ m_received b' = m_received b.

Lemma quiet_trans b1 b2 b3 : quiet b1 b2 -> quiet b2 b3 -> quiet b1 b3.
Proof. unfold quiet. intuition congruence. Qed.

Lemma broadcast_closed werr payload b :
  (forall a, werr a <> None) -> broadcast resolve werr payload b = (b, [], werr (m_group b)).
Proof.
  intros Hw. unfold broadcast. pose proof (Hw (m_group b)) as Hg.
  destruct (werr (m_group b)) eqn:E; [|done].
  assert (forall l, filter (fun a => werr a = None) l = []) as ->.
  { intros l. induction l as [|a l IH]; [done|]. rewrite filter_cons, decide_False by apply Hw. done. }
  done.
Qed.

Lemma send_packet_closed werr p buf b :
  (forall a, werr a <> None) -> send_packet resolve werr p buf b = (b, []).
Proof.
  intros Hw. unfold send_packet. destruct (marshal p buf) as [buf' [n [e|]]]; [done|].
  by rewrite broadcast_closed.
Qed.

Lemma flush_closed werr buf b :
  (forall a, werr a <> None) ->
  exists b', flush resolve werr buf b = (b', []) /\ quiet b b'.
Proof.
  intros Hw. unfold flush. destruct (m_batch b); [by exists b|].
  rewrite send_packet_closed by done. by eexists.
Qed.

Lemma batcher_key_closed werr buf b :
  (forall a, werr a <> None) ->
  exists b', batcher_key resolve werr buf b = (b', []) /\ quiet b b'.
Proof.
  intros Hw. unfold batcher_key. destruct (m_publishCh b) as [|key q] eqn:E; [by exists b|].
  assert (quiet b (batcher_take b)) as Hq by (unfold batcher_take; by rewrite E).
  case_match; [|by exists (batcher_take b)].
  destruct (flush_closed werr buf (batcher_take b) Hw) as (b' & -> & Hq'). exists b'.
  split; [done|]. by eapply quiet_trans.
Qed.

Lemma conn_write_closed n a : mn_conn n = Some false -> conn_write_err write_err n a <> None.
Proof. unfold conn_write_err. by intros ->. Qed.

(** What one iteration of a goroutine does to a closed node. *)
Lemma loop_iter_closed lp t n n' sent :
  loop_iter lp t n = Some (n', sent) ->
  (forall f, t = TRun f -> exists b', f (mn_bus n) = (b', []) /\ quiet (mn_bus n) b') ->
  sent = [] /\ mn_conn n' = mn_conn n /\ mn_cancelled n' = mn_cancelled n /\
  mn_loops n' ⊆ mn_loops n /\ quiet (mn_bus n) (mn_bus n').
Proof.
  unfold loop_iter. intros E Hf. destruct (decide (lp ∈ mn_loops n)); [|done]. destruct t as [|f].
  - destruct (mn_cancelled n) eqn:Ec; [|done]. injection E as <- <-. simpl. split_and!; try done.
    intros l Hl. by apply list_elem_of_filter in Hl as [_ Hl].
  - destruct (Hf f eq_refl) as (b' & Eb & Hq). rewrite Eb in E. injection E as <- <-. done.
Qed.

(** The callers change no counter. *)
Lemma Publish_quiet cx pick key b : quiet b (fst (MeshBus_Publish cx pick key b)).
Proof. unfold MeshBus_Publish, publish_begin. repeat case_match; simplify_eq; done. Qed.

Lemma Unsubscribe_quiet key ch b : quiet b (MeshBus_Unsubscribe key ch b).
Proof. unfold MeshBus_Unsubscribe, mesh_close. by repeat case_match. Qed.

Lemma recv_quiet ch b : quiet b (fst (mesh_recv ch b)).
Proof. unfold mesh_recv. by repeat case_match. Qed.

Lemma node_step_closed n sent n' :
  step n sent n' -> is_closed n ->
  sent = [] /\ is_closed n' /\ mn_loops n' ⊆ mn_loops n /\ quiet (mn_bus n) (mn_bus n').
Proof.
  intros Hs [Hc Hd]. pose proof (fun a => conn_write_closed n a Hc) as Hw. unfold is_closed.
  assert (forall lp t n0 s, loop_iter lp t n = Some (n0, s) ->
    (forall f, t = TRun f -> exists b', f (mn_bus n) = (b', []) /\ quiet (mn_bus n) b') ->
    s = [] /\ (mn_conn n0 = Some false /\ mn_cancelled n0 = true) /\ mn_loops n0 ⊆ mn_loops n /\
    quiet (mn_bus n) (mn_bus n0)) as Hit.
  { intros lp t n0 s E Hf. destruct (loop_iter_closed _ _ _ _ _ E Hf) as (?&?&?&?&?).
    split_and!; [done|congruence|congruence|done|done]. }
  destruct Hs as [lp n n' sent E|buf n n' sent E|now n n' sent E|buf n n' sent E|buf n n' sent E
    |now read n n' sent E|cx pick key n|key n|key ch n|ch n|err n].
  - eapply Hit; [exact E|done].
  - eapply Hit; [exact E|]. intros f [= <-]. unfold heartbeat_tick. rewrite send_packet_closed by done. by eexists.
  - eapply Hit; [exact E|]. intros f [= <-]. by eexists.
  - eapply Hit; [exact E|]. intros f [= <-]. by apply batcher_key_closed.
  - eapply Hit; [exact E|]. intros f [= <-]. by apply flush_closed.
  - eapply Hit; [exact E|]. intros f [= <-]. rewrite Hc. by eexists.
  - split_and!; try done; apply Publish_quiet.
  - by split_and!.
  - split_and!; try done; apply Unsubscribe_quiet.
  - split_and!; try done; apply recv_quiet.
  - unfold MeshBus_Close. rewrite Hc. by split_and!.
Qed.

(** The goroutines of a closed node end, in any order. *)
Lemma closed_loops_end ls n : is_closed n -> mn_loops n ⊆ ls ->
  exists n', run n [] n' /\ mn_loops n' = [] /\ mn_bus n' = mn_bus n.
Proof.
  revert n. induction ls as [|lp ls IH]; intros n Hc Hl.
  { exists n. split; [constructor|]. split; [|done]. destruct (mn_loops n) as [|l ?]; [done|].
    specialize (Hl l ltac:(left)). by apply elem_of_nil in Hl. }
  destruct (decide (lp ∈ mn_loops n)) as [Hin|Hin].
  - set (n1 := set_loops n (filter (fun l => l <> lp) (mn_loops n))).
    destruct (IH n1) as (n' & Hr & He & Hb); [exact Hc| |].
    { intros l. simpl. rewrite list_elem_of_filter. intros [Hne Hl1]. apply Hl, elem_of_cons in Hl1. naive_solver. }
    exists n'. split; [|done]. apply (nrun_cons _ _ _ n n1 n' [] []); [|done].
    apply (nst_exit _ _ _ lp). unfold loop_iter. rewrite decide_True by done. by rewrite (proj2 Hc).
  - apply IH; [done|]. intros l Hl1. pose proof (Hl l Hl1) as Hcons. apply elem_of_cons in Hcons. naive_solver.
Qed.

(** A closed node is silent. Whatever its goroutines and its users still do:
    nothing is put on the network, nothing is received, no goroutine starts, and
    all of them can end from wherever the run has led. So a publication that was
    accepted and had not left the node by then is lost, and so is one that is
    accepted afterwards, although the node still reports itself healthy. *)
Theorem closed_node_silent n err sent n' :
  mn_conn n <> None -> run (fst (MeshBus_Close err n)) sent n' ->
  sent = [] /\ mn_loops n' ⊆ mn_loops n /\ quiet (mn_bus n) (mn_bus n') /\ MeshBus_IsHealthy n' = true /\
  exists n2, run n' [] n2 /\ mn_loops n2 = [] /\ mn_bus n2 = mn_bus n'.
Proof.
  intros Hn Hr. assert (is_closed (fst (MeshBus_Close err n))) as Hc.
  { unfold MeshBus_Close. by destruct (mn_conn n). }
  assert (mn_loops (fst (MeshBus_Close err n)) = mn_loops n /\ mn_bus (fst (MeshBus_Close err n)) = mn_bus n) as [El Eb].
  { unfold MeshBus_Close. by destruct (mn_conn n). }
  assert (sent = [] /\ is_closed n' /\ mn_loops n' ⊆ mn_loops n /\ quiet (mn_bus n) (mn_bus n')) as (-> & Hc' & Hl & Hq).
  { rewrite <- El, <- Eb. clear El Eb Hn.
    induction Hr as [n0|n1 n2 n3 s1 s2 Hs _ IH]; [by split_and!|].
    destruct (node_step_closed _ _ _ Hs Hc) as (-> & Hc2 & Hl2 & Hq2).
    destruct (IH Hc2) as (-> & Hc3 & Hl3 & Hq3). split; [done|]. split; [done|].
    split; [by etrans|]. by eapply quiet_trans. }
  split; [done|]. split; [done|]. split; [done|]. split; [|by eapply closed_loops_end].
  unfold MeshBus_IsHealthy. by rewrite (proj1 Hc').
Qed.

End Closed.

(** ** A run *)

Definition mesh_all_ok : open_io := mkOpenIO (fun a => Ok a) None None None None.
Definition mesh_demo : res mesh_node :=
  fst (MeshBus_open mesh_all_ok (replicate 16 Byte.x01) (mkSetup 0 "" "" [] "" 0 0 0)).

(** The defaults of an empty configuration. *)
Example mesh_demo_defaults :
  exists n, mesh_demo = Ok n /\ m_group (mn_bus n) = "239.0.0.1:7946" /\
    heartbeat_ticker n = Some (5 * Second) /\ mo_BatchSize (m_opts (mn_bus n)) = 20.
Proof. eexists. split; [reflexivity|]. vm_compute. done. Qed.

(** A key published and acknowledged before [Close] is still in the queue and
    pending when the goroutines have ended. *)
Example mesh_close_loses :
  exists n, mesh_demo = Ok n /\
  let '(b, out) := MeshBus_Publish Background true "k" (mn_bus n) in
  out = Returned None /\ m_publishCh b = ["k"] /\ "k" ∈ m_pending b.
Proof. eexists. split; [reflexivity|]. vm_compute. split_and!; try done. Qed.
