(* ===== verification/Presets.v ===== *)
(** * Presets: ready-made Warps

    Models [src/presets/presets.go]: the six constructors, each the composition
    of a cache, a store and a bus that [core.New] receives. The clients of
    Redis and NATS are the connections the options name; a bus is the state its
    constructor creates. [NewMeshBus] opens a socket and can fail: its result
    is an argument of [NewMeshEventual]. *)

From S2P Require Import Prelude Remote RedisServer Codec Merge TTL CacheIface InMemoryCache Store RedisStore SyncBus NatsBus RedisBus Registry Warp WarpCache WarpInv WarpProps Mesh WarpDemo.

Section Presets.
Context {T St : Type}.

(** The first lines of every preset. *)
Abbreviation l1 := (NewInMemory [] : InMemoryCache (Value T)).

Definition NewRedisEventual {R} (gob : Codec T) (client : conn R)
    : Warp T (InMemoryCache (Value T)) (RedisStore R T (rso_codec (redis_store_options gob []))) RedisBus St :=
  New l1 (Some (NewRedisStore gob client [])) (Some NewRedisBus) (Some NewEngine) ∅ [].

Definition NewRedisStrong {R} (gob : Codec T) (client : conn R) := NewRedisEventual gob client.

(** A nil pointer to a bus in an interface is not a nil interface: [bus] is set
    also when the constructor failed, to [None]. *)
Definition NewMeshEventual (bus : res MeshBus)
    : Warp T (InMemoryCache (Value T)) (InMemoryStore T) (option MeshBus) St :=
  New l1 (Some NewInMemoryStore) (Some (match bus with Ok b => Some b | Err _ => None end))
    (Some NewEngine) ∅ [].

Definition NewInMemoryStandalone
    : Warp T (InMemoryCache (Value T)) (InMemoryStore T) (InMemoryBus (gmap string)) St :=
  New l1 (Some NewInMemoryStore) (Some NewInMemoryBus) (Some NewEngine) ∅ [].

Definition NewNATSEventual : Warp T (InMemoryCache (Value T)) (InMemoryStore T) NATSBus St :=
  New l1 (Some NewInMemoryStore) (Some NewNATSBus) (Some NewEngine) ∅ [].

Definition NewNATSStrong := NewNATSEventual.

(** ** What every preset starts from *)

(** A preset is a well-formed Warp with an empty cache, a store and a bus, no
    key registered, no goroutine and no merge function of a key. *)
Definition fresh_preset {S B} (w : Warp T (InMemoryCache (Value T)) S B St) : Prop :=
  warp_ok w /\ (forall t k, cached w t k = None) /\ (forall k, reg_view (w_reg w) k = None) /\
  is_Some (w_store w) /\ is_Some (w_bus w) /\ w_tasks w = [] /\ w_listeners w = [] /\
  forall k, Engine_HasCustom k (w_merges w) = false.

Lemma preset_fresh {S B} (s : S) (b : B) :
  fresh_preset (New l1 (Some s) (Some b) (Some NewEngine) ∅ []).
Proof.
  assert (cache_ok l1) as Hc.
  { split; [|by vm_compute]. apply NewInMemory_inv. intros o c Ho. by apply elem_of_nil in Ho. }
  split; [apply New_ok; [exact Hc|]; intros o Ho; by apply elem_of_nil in Ho|].
  split; [|split; [|by split_and!; eauto]].
  - intros t k. unfold cached, wc_view. simpl. unfold lru_view. simpl. by rewrite lookup_empty.
  - intros k. apply reg_view_new.
Qed.

Theorem presets_fresh {R} (gob : Codec T) (client : conn R) (bus : res MeshBus) :
  fresh_preset (NewRedisEventual gob client) /\ fresh_preset (NewRedisStrong gob client) /\
  fresh_preset (NewMeshEventual bus) /\ fresh_preset NewInMemoryStandalone /\
  fresh_preset NewNATSEventual /\ fresh_preset NewNATSStrong.
Proof. split_and!; apply preset_fresh. Qed.

(** The bus of a mesh preset whose socket could not be opened is set, to a nil
    bus: the Warp does not see that it has none. *)
Theorem NewMeshEventual_nil_bus (err : error) :
  w_bus (NewMeshEventual (Err err)) = Some None.
Proof. done. Qed.

End Presets.
