(* ===== verification/StreamQueue.v ===== *)
(** * StreamQueue: the queues of the stream bus

    Models [src/streambus/queue.go] (the ring buffers and the priority queue
    of a subscription) and the [replayBuffer] of
    [src/streambus/inmemory.go], and relates them to lists of frames. Indices
    are natural numbers; the slices are as long as their capacity. *)

From stdpp Require Import sorting.
From S2P Require Import Prelude Bytes StreamTypes.

#[export] Instance Frame_inhabited : Inhabited Frame := populate zero_Frame.

Open Scope nat_scope.

(** ** ringQueue *)

Record ringQueue := mkRing { rq_items : list Frame; rq_head : nat; rq_len : nat }.

Definition newRingQueue (capacity : nat) : ringQueue := mkRing (replicate capacity zero_Frame) 0 0.

Definition ring_push (f : Frame) (q : ringQueue) : ringQueue :=
  let idx := (rq_head q + rq_len q) mod length (rq_items q) in
  mkRing (<[idx := f]> (rq_items q)) (rq_head q) (rq_len q + 1).

Definition ring_peek (q : ringQueue) : option Frame :=
  if rq_len q =? 0 then None else Some (rq_items q !!! rq_head q).

Definition ring_pop (q : ringQueue) : ringQueue * option Frame :=
  if rq_len q =? 0 then (q, None)
  else
    let frame := rq_items q !!! rq_head q in
    (mkRing (<[rq_head q := zero_Frame]> (rq_items q)) ((rq_head q + 1) mod length (rq_items q))
       (rq_len q - 1), Some frame).

(** The frames of a ring, oldest first. *)
Definition ring_list (q : ringQueue) : list Frame :=
  (fun i => rq_items q !!! ((rq_head q + i) mod length (rq_items q))) <$> seq 0 (rq_len q).

Record ring_inv (cap : nat) (q : ringQueue) : Prop := {
  ri_cap : 0 < cap;
  ri_items : length (rq_items q) = cap;
  ri_head : rq_head q < cap;
  ri_len : rq_len q <= cap;
}.

Lemma length_ring_list q : length (ring_list q) = rq_len q.
Proof. unfold ring_list. by rewrite length_fmap, length_seq. Qed.

Lemma newRing_inv cap : 0 < cap -> ring_inv cap (newRingQueue cap) /\ ring_list (newRingQueue cap) = [].
Proof. intros H. split; [|done]. split; simpl; [done|by rewrite length_replicate|done|lia]. Qed.

(** Different offsets below the capacity are different slots. *)
Lemma ring_slot_ne h i j cap :
  h < cap -> i < cap -> j < cap -> i <> j -> (h + i) mod cap <> (h + j) mod cap.
Proof.
  intros Hh Hi Hj Hne E.
  assert (forall k, k < cap -> (h + k) mod cap = if h + k <? cap then h + k else h + k - cap) as Hm.
  { intros k Hk. destruct (Nat.ltb_spec (h + k) cap).
    - by apply Nat.mod_small.
    - symmetry. apply (Nat.mod_unique _ _ 1); lia. }
  rewrite !Hm in E by done.
  destruct (Nat.ltb_spec (h + i) cap), (Nat.ltb_spec (h + j) cap); lia.
Qed.

Lemma ring_push_ok cap f q :
  ring_inv cap q -> rq_len q < cap ->
  ring_inv cap (ring_push f q) /\ ring_list (ring_push f q) = ring_list q ++ [f].
Proof.
  intros [H1 H2 H3 H4] Hl. split.
  - split; simpl; [done|by rewrite length_insert|done|lia].
  - unfold ring_list, ring_push. simpl. rewrite Nat.add_comm. simpl.
    change (S (rq_len q)) with (1 + rq_len q). rewrite Nat.add_comm, seq_app, fmap_app. simpl.
    rewrite length_insert, H2. f_equal.
    + apply list_fmap_ext. intros i x Hx%lookup_seq. destruct Hx as [-> Hi]. simpl.
      rewrite list_lookup_total_insert_ne; [done|]. apply ring_slot_ne; lia.
    + f_equal. apply list_lookup_total_insert_eq. rewrite H2. apply Nat.mod_upper_bound. lia.
Qed.

Lemma ring_cons cap q :
  ring_inv cap q -> rq_len q <> 0 ->
  ring_list q = (rq_items q !!! rq_head q) :: ring_list (fst (ring_pop q)).
Proof.
  intros [H1 H2 H3 H4] Hl. unfold ring_list, ring_pop.
  destruct (Nat.eqb_spec (rq_len q) 0); [done|]. simpl. rewrite length_insert, H2.
  destruct (rq_len q) as [|m] eqn:En; [done|]. simpl. rewrite Nat.add_0_r, Nat.mod_small by done.
  f_equal. rewrite <- seq_shift, <- list_fmap_compose, Nat.sub_0_r. apply list_fmap_ext.
  intros i x Hx%lookup_seq. destruct Hx as [-> Hi]. simpl.
  rewrite Nat.Div0.add_mod_idemp_l. replace (rq_head q + 1 + i) with (rq_head q + S i) by lia.
  rewrite list_lookup_total_insert_ne; [done|].
  rewrite <- (Nat.add_0_r (rq_head q)) at 1. rewrite <- (Nat.mod_small (rq_head q + 0) cap) at 1 by lia.
  apply ring_slot_ne; lia.
Qed.

Lemma ring_pop_ok cap q :
  ring_inv cap q ->
  match ring_list q with
  | [] => ring_pop q = (q, None) /\ ring_peek q = None
  | f :: l => exists q', ring_pop q = (q', Some f) /\ ring_peek q = Some f /\
      ring_inv cap q' /\ ring_list q' = l
  end.
Proof.
  intros Hi. pose proof Hi as [H1 H2 H3 H4].
  destruct (decide (rq_len q = 0)) as [E|E].
  - assert (ring_list q = []) as -> by (by unfold ring_list; rewrite E).
    unfold ring_pop, ring_peek. by rewrite E.
  - rewrite (ring_cons cap q Hi E). unfold ring_pop, ring_peek.
    destruct (Nat.eqb_spec (rq_len q) 0); [done|]. simpl.
    eexists. split; [done|]. split; [done|]. split; [|done].
    split; simpl; [done|by rewrite length_insert|rewrite H2; apply Nat.mod_upper_bound; lia|lia].
Qed.

(** ** frameQueue *)

Record frameQueue := mkFQ { fq_queues : list ringQueue; fq_capacity : nat; fq_len : nat }.

Definition newFrameQueue (capacity : nat) : frameQueue :=
  mkFQ (replicate 4 (newRingQueue capacity)) capacity 0.

(** The index of a frame's class. *)
Definition class_of (f : Frame) : nat :=
  if (fr_Priority f <? PriorityBulk)%Z || (PriorityCritical <? fr_Priority f)%Z
  then Z.to_nat PriorityNormal else Z.to_nat (fr_Priority f).

Definition fq_push (f : Frame) (q : frameQueue) : frameQueue * bool :=
  if fq_len q =? fq_capacity q then (q, false)
  else (mkFQ (alter (ring_push f) (class_of f) (fq_queues q)) (fq_capacity q) (fq_len q + 1), true).

(** The loop of [pop] over the classes in [ps]. *)
Fixpoint pop_first (ps : list nat) (qs : list ringQueue) : list ringQueue * option Frame :=
  match ps with
  | [] => (qs, None)
  | p :: ps =>
      match qs !! p with
      | None => pop_first ps qs
      | Some r =>
          match ring_pop r with
          | (r, Some f) => (<[p := r]> qs, Some f)
          | (_, None) => pop_first ps qs
          end
      end
  end.

Definition fq_pop (q : frameQueue) : frameQueue * option Frame :=
  match pop_first [3; 2; 1; 0] (fq_queues q) with
  | (qs, Some f) => (mkFQ qs (fq_capacity q) (fq_len q - 1), Some f)
  | (_, None) => (q, None)
  end.

(** The loop of [popOldest]: the class selected so far and its first frame. *)
Fixpoint select_oldest (ps : list nat) (qs : list ringQueue) (sel : option (nat * Frame))
    : option (nat * Frame) :=
  match ps with
  | [] => sel
  | p :: ps =>
      select_oldest ps qs
        match (qs !! p) ≫= ring_peek, sel with
        | None, _ => sel
        | Some f, None => Some (p, f)
        | Some f, Some (_, oldest) => if (Sequence f <? Sequence oldest)%Z then Some (p, f) else sel
        end
  end.

Definition fq_popOldest (q : frameQueue) : frameQueue * option Frame :=
  match select_oldest [0; 1; 2; 3] (fq_queues q) None with
  | None => (q, None)
  | Some (p, _) =>
      match fq_queues q !! p with
      | None => (q, None)
      | Some r =>
          let '(r, f) := ring_pop r in
          (mkFQ (<[p := r]> (fq_queues q)) (fq_capacity q) (fq_len q - 1), f)
      end
  end.

(** [for q.queues[priority].len > 0 { pop }] *)
Fixpoint ring_drain (fuel : nat) (q : ringQueue) : ringQueue :=
  match fuel with
  | O => q
  | S fuel => if 0 <? rq_len q then ring_drain fuel (fst (ring_pop q)) else q
  end.

Definition fq_clear (q : frameQueue) : frameQueue * nat :=
  (mkFQ ((fun r => ring_drain (rq_len r) r) <$> fq_queues q) (fq_capacity q) 0, fq_len q).

(** ** The queue as a list

    What a frame queue promises, on the frames in their order of arrival. *)

Definition in_class (p : nat) (l : list Frame) : list Frame := filter (fun f => class_of f = p) l.

Definition first_of (p : nat) (l : list Frame) : option Frame := head (in_class p l).

Fixpoint remove_first (p : nat) (l : list Frame) : list Frame :=
  match l with
  | [] => []
  | f :: l => if class_of f =? p then l else f :: remove_first p l
  end.

Definition spec_push (cap : nat) (f : Frame) (l : list Frame) : list Frame * bool :=
  if length l =? cap then (l, false) else (l ++ [f], true).

(** The first frame of the highest class that has one. *)
Fixpoint spec_pop_from (ps : list nat) (l : list Frame) : list Frame * option Frame :=
  match ps with
  | [] => (l, None)
  | p :: ps =>
      match first_of p l with
      | Some f => (remove_first p l, Some f)
      | None => spec_pop_from ps l
      end
  end.

Definition spec_pop (l : list Frame) : list Frame * option Frame := spec_pop_from [3; 2; 1; 0] l.

(** The frame with the smallest sequence among the first ones of each class. *)
Definition older (l : list Frame) (sel : option (nat * Frame)) (p : nat) : option (nat * Frame) :=
  match first_of p l, sel with
  | None, _ => sel
  | Some f, None => Some (p, f)
  | Some f, Some (_, oldest) => if (Sequence f <? Sequence oldest)%Z then Some (p, f) else sel
  end.

Definition spec_oldest (l : list Frame) : option (nat * Frame) := foldl (older l) None [0; 1; 2; 3].

Definition spec_popOldest (l : list Frame) : list Frame * option Frame :=
  match spec_oldest l with
  | None => (l, None)
  | Some (p, f) => (remove_first p l, Some f)
  end.

(** The queue holds the list, class by class. *)
Record fq_rel (cap : nat) (q : frameQueue) (l : list Frame) : Prop := {
  fr_pos : 0 < cap;
  fr_cap : fq_capacity q = cap;
  fr_len : fq_len q = length l;
  fr_bound : length l <= cap;
  fr_four : length (fq_queues q) = 4;
  fr_rings : forall p r, fq_queues q !! p = Some r -> ring_inv cap r /\ ring_list r = in_class p l;
}.

Lemma four_classes p : p < 4 <-> p ∈ [0; 1; 2; 3].
Proof. rewrite !elem_of_cons, elem_of_nil. lia. Qed.

Lemma class_of_lt f : class_of f < 4.
Proof.
  unfold class_of, PriorityBulk, PriorityCritical, PriorityNormal. case_match eqn:E; [simpl; lia|].
  bool_to_prop. lia.
Qed.

Lemma length_in_class p l : length (in_class p l) <= length l.
Proof. apply length_filter. Qed.

Lemma in_class_app p l f :
  in_class p (l ++ [f]) = in_class p l ++ if decide (class_of f = p) then [f] else [].
Proof. unfold in_class. by rewrite filter_app. Qed.

Lemma in_class_remove p p' l :
  in_class p' (remove_first p l) = if decide (p = p') then tail (in_class p' l) else in_class p' l.
Proof.
  induction l as [|f l IH]; [by case_decide|]. simpl.
  destruct (Nat.eqb_spec (class_of f) p) as [E|E].
  - unfold in_class. rewrite filter_cons.
    destruct (decide (class_of f = p')), (decide (p = p')); simplify_eq; done.
  - unfold in_class in *. rewrite !filter_cons, IH.
    destruct (decide (class_of f = p')), (decide (p = p')); simplify_eq; done.
Qed.

Lemma length_remove p l f : first_of p l = Some f -> S (length (remove_first p l)) = length l.
Proof.
  unfold first_of. induction l as [|g l IH]; [done|]. unfold in_class. rewrite filter_cons. simpl.
  destruct (Nat.eqb_spec (class_of g) p); case_decide; try done; intros Hg. simpl. by rewrite IH.
Qed.

Lemma newFrameQueue_rel cap : 0 < cap -> fq_rel cap (newFrameQueue cap) [].
Proof.
  intros H. destruct (newRing_inv cap H) as [H1 H2].
  split; simpl; try done; [lia|]. intros p r Hr.
  destruct p as [|[|[|[|p]]]]; simpl in Hr; simplify_eq; done.
Qed.

Lemma fq_push_rel cap f q l :
  fq_rel cap q l ->
  snd (fq_push f q) = snd (spec_push cap f l) /\ fq_rel cap (fst (fq_push f q)) (fst (spec_push cap f l)).
Proof.
  intros Hr. pose proof Hr as [H1 H2 H3 H4 H5 H6]. unfold fq_push, spec_push. rewrite H2, H3.
  destruct (Nat.eqb_spec (length l) cap); [done|]. split; [done|]. simpl.
  split; simpl; [done|done|by rewrite length_app|rewrite length_app; simpl; lia|by rewrite length_alter|].
  intros p r. rewrite in_class_app. destruct (decide (class_of f = p)) as [<-|Hne].
  - rewrite list_lookup_alter_eq. intros (r0 & Hr0 & ->)%fmap_Some_1.
    destruct (H6 _ _ Hr0) as [Hi0 Hl0]. rewrite <- Hl0. apply ring_push_ok; [done|].
    rewrite <- length_ring_list, Hl0. pose proof (length_in_class (class_of f) l). lia.
  - rewrite list_lookup_alter_ne, app_nil_r by done. apply H6.
Qed.

(** Popping a class that has a frame. *)
Lemma fq_take_rel cap q l p r r' f :
  fq_rel cap q l -> fq_queues q !! p = Some r -> ring_pop r = (r', Some f) ->
  first_of p l = Some f /\
  fq_rel cap (mkFQ (<[p := r']> (fq_queues q)) (fq_capacity q) (fq_len q - 1)) (remove_first p l).
Proof.
  intros [H1 H2 H3 H4 H5 H6] Hr Hp. destruct (H6 _ _ Hr) as [Hi Hl].
  pose proof (ring_pop_ok cap r Hi) as Hok. rewrite Hp, Hl in Hok.
  destruct (in_class p l) as [|f' tl] eqn:Ec; [by destruct Hok|].
  destruct Hok as (q' & [= <- <-] & _ & Hi' & Hl').
  assert (first_of p l = Some f) as Hf by (unfold first_of; by rewrite Ec).
  pose proof (length_remove _ _ _ Hf). split; [done|].
  split; simpl; [done|done|lia|lia|by rewrite length_insert|].
  intros p' r0. rewrite in_class_remove. destruct (decide (p = p')) as [<-|Hne].
  - rewrite list_lookup_insert_eq by (by eapply lookup_lt_Some). intros [= <-]. by rewrite Ec.
  - rewrite list_lookup_insert_ne by done. apply H6.
Qed.

Lemma fq_none_rel cap q l p r r' :
  fq_rel cap q l -> fq_queues q !! p = Some r -> ring_pop r = (r', None) -> first_of p l = None.
Proof.
  intros [H1 H2 H3 H4 H5 H6] Hr Hp. destruct (H6 _ _ Hr) as [Hi Hl].
  pose proof (ring_pop_ok cap r Hi) as Hok. rewrite Hp, Hl in Hok. unfold first_of.
  destruct (in_class p l); [done|]. by destruct Hok as (? & ? & _).
Qed.

Lemma pop_first_rel cap q l ps :
  fq_rel cap q l -> Forall (fun p => p < 4) ps ->
  match pop_first ps (fq_queues q) with
  | (qs, Some f) => spec_pop_from ps l = (fst (spec_pop_from ps l), Some f) /\
      fq_rel cap (mkFQ qs (fq_capacity q) (fq_len q - 1)) (fst (spec_pop_from ps l))
  | (_, None) => spec_pop_from ps l = (l, None)
  end.
Proof.
  intros Hr. induction ps as [|p ps IH]; [done|]. intros [Hp Hps]%Forall_cons. simpl.
  destruct (lookup_lt_is_Some_2 (fq_queues q) p) as [r Er]; [by rewrite (fr_four _ _ _ Hr)|]. rewrite Er.
  destruct (ring_pop r) as [r' [f|]] eqn:Ep.
  - destruct (fq_take_rel _ _ _ _ _ _ _ Hr Er Ep) as [-> Hrel]. done.
  - rewrite (fq_none_rel _ _ _ _ _ _ Hr Er Ep). by apply IH.
Qed.

Lemma fq_pop_rel cap q l :
  fq_rel cap q l ->
  snd (fq_pop q) = snd (spec_pop l) /\ fq_rel cap (fst (fq_pop q)) (fst (spec_pop l)).
Proof.
  intros Hr. pose proof (pop_first_rel cap q l [3; 2; 1; 0] Hr ltac:(repeat constructor; lia)) as H.
  unfold fq_pop, spec_pop. destruct (pop_first _ _) as [qs [f|]].
  - destruct H as [-> H]. done.
  - by rewrite H.
Qed.

Lemma select_oldest_rel cap q l ps sel :
  fq_rel cap q l -> Forall (fun p => p < 4) ps ->
  select_oldest ps (fq_queues q) sel = foldl (older l) sel ps.
Proof.
  intros Hr. revert sel. induction ps as [|p ps IH]; intros sel; [done|]. intros [Hp Hps]%Forall_cons. simpl.
  rewrite IH by done. f_equal. unfold older.
  destruct (lookup_lt_is_Some_2 (fq_queues q) p) as [r Er]; [by rewrite (fr_four _ _ _ Hr)|]. rewrite Er. simpl.
  destruct (fr_rings _ _ _ Hr _ _ Er) as [Hi Hl]. pose proof (ring_pop_ok cap r Hi) as Hok. rewrite Hl in Hok.
  unfold first_of. destruct (in_class p l); simpl.
  - by destruct Hok as [_ ->].
  - by destruct Hok as (? & _ & -> & _).
Qed.

Lemma older_first l ps sel p f :
  foldl (older l) sel ps = Some (p, f) -> sel = Some (p, f) \/ (p ∈ ps /\ first_of p l = Some f).
Proof.
  revert sel. induction ps as [|p0 ps IH]; intros sel; simpl; [by left|].
  intros [H|[H1 H2]]%IH; [|right; split; [by right|done]]. unfold older in H.
  destruct (first_of p0 l) as [g|] eqn:Eg; [|by left].
  destruct sel as [[p' o]|]; [case_match|]; simplify_eq; try (by left); right; (split; [by left|done]).
Qed.

Lemma fq_popOldest_rel cap q l :
  fq_rel cap q l ->
  snd (fq_popOldest q) = snd (spec_popOldest l) /\ fq_rel cap (fst (fq_popOldest q)) (fst (spec_popOldest l)).
Proof.
  intros Hr. unfold fq_popOldest, spec_popOldest.
  rewrite (select_oldest_rel cap q l) by first [done | (repeat constructor; lia)]. fold (spec_oldest l).
  destruct (spec_oldest l) as [[p f]|] eqn:Eo; [|done].
  apply older_first in Eo as [?|[Hp Hf]]; [done|].
  assert (p < 4) as Hlt by (by apply four_classes).
  destruct (lookup_lt_is_Some_2 (fq_queues q) p) as [r Er]; [by rewrite (fr_four _ _ _ Hr)|]. rewrite Er.
  destruct (ring_pop r) as [r' [g|]] eqn:Ep.
  - destruct (fq_take_rel _ _ _ _ _ _ _ Hr Er Ep) as [Hg Hrel]. simpl. by simplify_eq.
  - pose proof (fq_none_rel _ _ _ _ _ _ Hr Er Ep). congruence.
Qed.

Lemma ring_drain_ok cap q fuel :
  ring_inv cap q -> rq_len q <= fuel -> ring_inv cap (ring_drain fuel q) /\ ring_list (ring_drain fuel q) = [].
Proof.
  revert q. induction fuel as [|fuel IH]; intros q Hi Hf; simpl.
  { split; [done|]. unfold ring_list. by replace (rq_len q) with 0 by lia. }
  destruct (Nat.ltb_spec 0 (rq_len q)) as [Hlt|].
  - pose proof (ring_pop_ok cap q Hi) as Hok. pose proof (length_ring_list q) as Hlen.
    destruct (ring_list q) as [|f l] eqn:El; simpl in Hlen; [lia|].
    destruct Hok as (q' & -> & _ & Hi' & Hl'). simpl. apply IH; [done|].
    rewrite <- length_ring_list, Hl'. lia.
  - split; [done|]. unfold ring_list. by replace (rq_len q) with 0 by lia.
Qed.

Lemma fq_clear_rel cap q l :
  fq_rel cap q l -> snd (fq_clear q) = length l /\ fq_rel cap (fst (fq_clear q)) [].
Proof.
  intros [H1 H2 H3 H4 H5 H6]. split; [done|]. split; simpl; [done|done|done|lia|by rewrite length_fmap|].
  intros p r. rewrite list_lookup_fmap. intros (r0 & Hr0 & ->)%fmap_Some_1.
  destruct (H6 _ _ Hr0) as [Hi _]. by apply ring_drain_ok.
Qed.

(** ** Sequences of operations *)

Inductive fq_op :=
| QPush (f : Frame)
| QPop
| QPopOldest
| QClear.

Inductive fq_answer :=
| APushed (ok : bool)
| AFrame (f : option Frame)
| ADropped (n : nat).

Definition fq_step (q : frameQueue) (o : fq_op) : frameQueue * fq_answer :=
  match o with
  | QPush f => let '(q, ok) := fq_push f q in (q, APushed ok)
  | QPop => let '(q, f) := fq_pop q in (q, AFrame f)
  | QPopOldest => let '(q, f) := fq_popOldest q in (q, AFrame f)
  | QClear => let '(q, n) := fq_clear q in (q, ADropped n)
  end.

Definition spec_step (cap : nat) (l : list Frame) (o : fq_op) : list Frame * fq_answer :=
  match o with
  | QPush f => let '(l, ok) := spec_push cap f l in (l, APushed ok)
  | QPop => let '(l, f) := spec_pop l in (l, AFrame f)
  | QPopOldest => let '(l, f) := spec_popOldest l in (l, AFrame f)
  | QClear => ([], ADropped (length l))
  end.

Fixpoint answers {S} (step : S -> fq_op -> S * fq_answer) (s : S) (ops : list fq_op) : list fq_answer :=
  match ops with
  | [] => []
  | o :: ops => let '(s, a) := step s o in a :: answers step s ops
  end.

Lemma fq_step_rel cap q l o :
  fq_rel cap q l ->
  snd (fq_step q o) = snd (spec_step cap l o) /\ fq_rel cap (fst (fq_step q o)) (fst (spec_step cap l o)).
Proof.
  intros Hr. destruct o; unfold fq_step, spec_step.
  - destruct (fq_push_rel cap f q l Hr) as [E H]. destruct (fq_push f q), (spec_push cap f l). simpl in *. by subst.
  - destruct (fq_pop_rel cap q l Hr) as [E H]. destruct (fq_pop q), (spec_pop l). simpl in *. by subst.
  - destruct (fq_popOldest_rel cap q l Hr) as [E H]. destruct (fq_popOldest q), (spec_popOldest l).
    simpl in *. by subst.
  - destruct (fq_clear_rel cap q l Hr) as [E H]. destruct (fq_clear q). simpl in *. by subst.
Qed.

(** C37. The subscription queue, four ring buffers over fixed slices, behaves as
    one bounded list of frames in their order of arrival, over every sequence
    of operations: a push is refused exactly when the list is at its capacity;
    a pop takes the earliest frame of the highest priority present; dropping
    the oldest takes, among the earliest frames of the priorities, the one
    with the smallest sequence; and clearing reports how many were dropped. *)
Theorem frameQueue_refines (cap : nat) (ops : list fq_op) :
  0 < cap -> answers fq_step (newFrameQueue cap) ops = answers (spec_step cap) [] ops.
Proof.
  intros Hc. assert (forall q l, fq_rel cap q l -> answers fq_step q ops = answers (spec_step cap) l ops) as Hall;
    [|by apply Hall, newFrameQueue_rel].
  induction ops as [|o ops IH]; intros q l Hr; [done|]. cbn [answers].
  destruct (fq_step_rel cap q l o Hr) as [E H]. destruct (fq_step q o), (spec_step cap l o).
  simpl in *. subst. f_equal. by apply IH.
Qed.

Definition by_sequence (f g : Frame) : Prop := (Sequence f < Sequence g)%Z.

Lemma older_sorted f l ps sel :
  Forall (by_sequence f) l ->
  sel = Some (class_of f, f) \/
    (class_of f ∈ ps /\ (sel = None \/ exists p g, sel = Some (p, g) /\ by_sequence f g)) ->
  foldl (older (f :: l)) sel ps = Some (class_of f, f).
Proof.
  intros Hl. revert sel. induction ps as [|p ps IH]; intros sel Hsel.
  { destruct Hsel as [?|[?%elem_of_nil _]]; done. }
  assert (first_of (class_of f) (f :: l) = Some f) as Hf
    by (unfold first_of, in_class; by rewrite filter_cons_True).
  assert (forall q g, first_of q (f :: l) = Some g -> q <> class_of f -> by_sequence f g) as Hg.
  { intros q g. unfold first_of, in_class. intros Hh Hq.
    rewrite filter_cons_False in Hh by congruence. apply head_Some_elem_of in Hh.
    apply list_elem_of_filter in Hh as [_ Hin]. by eapply Forall_forall in Hl. }
  simpl. apply IH. unfold older. unfold by_sequence in *.
  destruct (decide (p = class_of f)) as [->|Hp].
  - left. rewrite Hf. destruct Hsel as [->|[_ [->|(p' & g & -> & Hlt)]]]; [|done|].
    + by rewrite Z.ltb_irrefl.
    + destruct (Z.ltb_spec (Sequence f) (Sequence g)); [done|lia].
  - destruct (first_of p (f :: l)) as [g|] eqn:Eg.
    + specialize (Hg _ _ Eg Hp). destruct Hsel as [->|[Hin Hs]].
      * left. destruct (Z.ltb_spec (Sequence g) (Sequence f)); [lia|done].
      * right. split; [by apply elem_of_cons in Hin as [?|?]|]. right.
        destruct Hs as [->|(p' & g' & -> & Hlt)]; [by eauto|]. case_match; by eauto.
    + destruct Hsel as [?|[Hin Hs]]; [by left|]. right. split; [by apply elem_of_cons in Hin as [?|?]|done].
Qed.

(** Frames that arrive in the order of their sequences leave [popOldest] in that
    order, whatever their priorities. *)
Lemma popOldest_sorted cap q f l :
  fq_rel cap q (f :: l) -> StronglySorted by_sequence (f :: l) ->
  snd (fq_popOldest q) = Some f /\ fq_rel cap (fst (fq_popOldest q)) l.
Proof.
  intros Hr [Hs Hl]%StronglySorted_inv. destruct (fq_popOldest_rel cap q _ Hr) as [E1 E2].
  assert (spec_oldest (f :: l) = Some (class_of f, f)) as Ho.
  { apply older_sorted; [done|]. right. split; [|by left]. apply four_classes, class_of_lt. }
  unfold spec_popOldest in E1, E2. rewrite Ho in E1, E2. simpl in E1, E2. by rewrite Nat.eqb_refl in E2.
Qed.

(** ** replayBuffer *)

Record replayBuffer := mkReplay { rb_frames : list Frame; rb_next : nat; rb_len : nat }.

Definition newReplayBuffer (capacity : nat) : replayBuffer := mkReplay (replicate capacity zero_Frame) 0 0.

Definition replay_add (f : Frame) (r : replayBuffer) : replayBuffer :=
  if length (rb_frames r) =? 0 then r
  else mkReplay (<[rb_next r := f]> (rb_frames r)) ((rb_next r + 1) mod length (rb_frames r))
         (if rb_len r <? length (rb_frames r) then rb_len r + 1 else rb_len r).

(** [frames[(start+i) % len(frames)]] for [i] below [count] *)
Definition replay_slots (start count : nat) (r : replayBuffer) : list Frame :=
  (fun i => rb_frames r !!! ((start + i) mod length (rb_frames r))) <$> seq 0 count.

Definition replay_last (count : nat) (r : replayBuffer) : list Frame :=
  let count := if rb_len r <? count then rb_len r else count in
  let start := (rb_next r + length (rb_frames r) - count) mod length (rb_frames r) in
  replay_slots start count r.

(** The frames after a sequence, and whether some are known to be missing. *)
Definition replay_after (sequence : Z) (r : replayBuffer) : list Frame * bool :=
  if rb_len r =? 0 then ([], false)
  else
    let start := (rb_next r + length (rb_frames r) - rb_len r) mod length (rb_frames r) in
    let oldest := Sequence (rb_frames r !!! start) in
    if (rb_len r =? length (rb_frames r)) && negb (sequence =? 0)%Z && (sequence <? oldest)%Z
    then ([], true)
    else (filter (fun f => (sequence < Sequence f)%Z) (replay_slots start (rb_len r) r), false).

(** The buffer after the frames [fs] were added: it keeps the last ones. *)
Record rb_rel (cap : nat) (r : replayBuffer) (fs : list Frame) : Prop := {
  rr_pos : 0 < cap;
  rr_frames : length (rb_frames r) = cap;
  rr_next : rb_next r = length fs mod cap;
  rr_len : rb_len r = cap `min` length fs;
  rr_slots : forall j, length fs - rb_len r <= j < length fs -> rb_frames r !!! (j mod cap) = fs !!! j;
}.

Lemma newReplay_rel cap : 0 < cap -> rb_rel cap (newReplayBuffer cap) [].
Proof.
  intros H. split; simpl; [done|by rewrite length_replicate|by rewrite Nat.Div0.mod_0_l|lia|lia].
Qed.

(** Two positions less than the capacity apart have different slots. *)
Lemma mod_slot_ne i j cap : i < j -> j < i + cap -> i mod cap <> j mod cap.
Proof.
  intros H1 H2 E. pose proof (Nat.div_mod_eq i cap) as Ei. pose proof (Nat.div_mod_eq j cap) as Ej.
  rewrite <- E in Ej. assert (cap * (i / cap) < cap * (j / cap)) by lia.
  assert (i / cap < j / cap) by nia. nia.
Qed.

Lemma replay_add_rel cap f r fs : rb_rel cap r fs -> rb_rel cap (replay_add f r) (fs ++ [f]).
Proof.
  intros [H1 H2 H3 H4 H5]. unfold replay_add. rewrite H2.
  destruct (Nat.eqb_spec cap 0); [lia|]. split; simpl.
  - done.
  - by rewrite length_insert.
  - rewrite H3, length_app. simpl. by rewrite Nat.Div0.add_mod_idemp_l.
  - rewrite length_app. simpl. destruct (Nat.ltb_spec (rb_len r) cap); lia.
  - rewrite length_app. simpl. intros j Hj.
    destruct (decide (j = length fs)) as [->|Hne].
    + rewrite H3, list_lookup_total_insert_eq by (rewrite H2; apply Nat.mod_upper_bound; lia).
      symmetry. apply list_lookup_total_middle. done.
    + assert (length fs - rb_len r <= j < length fs) as Hj'
        by (destruct (Nat.ltb_spec (rb_len r) cap); lia).
      rewrite H3, list_lookup_total_insert_ne.
      * rewrite (H5 j) by done. by rewrite lookup_total_app_l by lia.
      * apply not_eq_sym, mod_slot_ne; [lia|]. destruct (Nat.ltb_spec (rb_len r) cap); lia.
Qed.

Lemma start_mod cap n count :
  0 < cap -> count <= cap -> count <= n -> (n mod cap + cap - count) mod cap = (n - count) mod cap.
Proof.
  intros H1 H2 H3. pose proof (Nat.div_mod_eq n cap) as E. pose proof (Nat.mod_upper_bound n cap ltac:(lia)).
  destruct (n / cap) as [|q].
  - replace (n mod cap + cap - count) with ((n - count) + 1 * cap) by lia. apply Nat.Div0.mod_add.
  - replace (n - count) with ((n mod cap + cap - count) + q * cap) by nia. by rewrite Nat.Div0.mod_add.
Qed.

Lemma replay_slots_ok cap r fs count :
  rb_rel cap r fs -> count <= rb_len r ->
  replay_slots ((rb_next r + length (rb_frames r) - count) mod length (rb_frames r)) count r =
    drop (length fs - count) fs.
Proof.
  intros [H1 H2 H3 H4 H5] Hc. unfold replay_slots. rewrite H2, H3.
  rewrite start_mod by lia. apply list_eq_same_length with count;
    rewrite ?length_fmap, ?length_seq, ?length_drop; [lia|lia|].
  intros i x y Hi. rewrite list_lookup_fmap, lookup_seq_lt, lookup_drop by done. simpl.
  rewrite Nat.Div0.add_mod_idemp_l, H5 by lia. intros [= <-] Hy.
  by apply list_lookup_total_correct.
Qed.

Lemma replay_last_ok cap r fs count :
  rb_rel cap r fs -> replay_last count r = drop (length fs - (count `min` rb_len r)) fs.
Proof.
  intros Hr. unfold replay_last.
  assert ((if rb_len r <? count then rb_len r else count) = count `min` rb_len r) as ->
    by (destruct (Nat.ltb_spec (rb_len r) count); lia).
  apply (replay_slots_ok cap); [done|lia].
Qed.

(** The frames a journal keeps of those added to it. *)
Definition kept (cap : nat) (fs : list Frame) : list Frame := drop (length fs - cap) fs.

(** The journal is full and the oldest frame it keeps is past the sequence. *)
Definition has_gap (cap : nat) (sequence : Z) (fs : list Frame) : bool :=
  (cap <=? length fs) &&
  match head (kept cap fs) with Some g => (sequence <? Sequence g)%Z | None => false end.

(** What [after] answers, in whatever order the frames were added: the gap, or
    the frames it keeps with a larger sequence. *)
Lemma replay_after_kept cap r fs sequence :
  rb_rel cap r fs -> (0 < sequence)%Z ->
  replay_after sequence r =
    if has_gap cap sequence fs then ([], true)
    else (filter (fun f => (sequence < Sequence f)%Z) (kept cap fs), false).
Proof.
  intros Hr Hpos. unfold replay_after, has_gap. pose proof Hr as [H1 H2 H3 H4 H5].
  assert (kept cap fs = drop (length fs - rb_len r) fs) as Hk by (unfold kept; f_equal; lia).
  destruct (Nat.eqb_spec (rb_len r) 0) as [E|E].
  { destruct fs; [|simpl in *; lia]. simpl. by destruct (Nat.leb_spec cap 0); [lia|]. }
  set (start := (rb_next r + length (rb_frames r) - rb_len r) mod length (rb_frames r)).
  assert (rb_frames r !!! start = fs !!! (length fs - rb_len r)) as Hold.
  { unfold start. rewrite H2, H3, start_mod by lia. apply H5. lia. }
  assert (head (kept cap fs) = Some (fs !!! (length fs - rb_len r))) as Hhead.
  { rewrite Hk, head_lookup, lookup_drop, Nat.add_0_r. apply list_lookup_lookup_total_lt. lia. }
  rewrite Hold, Hhead, H2. unfold start. rewrite (replay_slots_ok cap r fs) by (done || lia). rewrite <- Hk.
  destruct (Z.eqb_spec sequence 0); [lia|]. simpl. rewrite andb_true_r.
  by destruct (Nat.eqb_spec (rb_len r) cap), (Nat.leb_spec cap (length fs)); try lia.
Qed.

(** When the frames were added in the order of their sequences, a journal that
    reports no gap has dropped none with a larger sequence. *)
Lemma kept_in_order cap fs sequence :
  0 < cap -> StronglySorted by_sequence fs -> has_gap cap sequence fs = false ->
  filter (fun f => (sequence < Sequence f)%Z) (kept cap fs) = filter (fun f => (sequence < Sequence f)%Z) fs.
Proof.
  intros Hc Hs Hn. unfold has_gap, kept in *. pose proof (take_drop (length fs - cap) fs) as Et.
  rewrite <- Et at 3. rewrite filter_app.
  assert (filter (fun f => (sequence < Sequence f)%Z) (take (length fs - cap) fs) = []) as ->; [|done].
  destruct (filter _ _) as [|g gs] eqn:Ef; [done|].
  assert (g ∈ filter (fun f => (sequence < Sequence f)%Z) (take (length fs - cap) fs)) as Hin
    by (rewrite Ef; by left).
  apply list_elem_of_filter in Hin as [Hlt Hin].
  destruct (Nat.leb_spec cap (length fs)) as [Hle|Hle];
    [|replace (length fs - cap) with 0 in Hin by lia; by apply elem_of_nil in Hin].
  destruct (drop (length fs - cap) fs) as [|h hs] eqn:Ed.
  { apply (f_equal length) in Ed. rewrite length_drop in Ed. simpl in Ed. lia. }
  simpl in Hn. bool_to_prop. rewrite <- Et in Hs. assert (by_sequence g h) as Hgh
    by (eapply StronglySorted_app_1_elem_of; [exact Hs|done|by left]).
  unfold by_sequence in Hgh. lia.
Qed.

(** The replay journal keeps the last frames: after any frames were added
    to a journal of a positive capacity, asking for the last [n] gives the last
    [n] of them, or as many as it keeps; and when the sequences increase,
    resuming after a sequence either reports a gap or gives every frame with a
    larger sequence that was ever added, none missing. *)
Theorem replayBuffer_correct (cap : nat) (fs : list Frame) (n : nat) (sequence : Z) :
  0 < cap ->
  let r := foldl (fun r f => replay_add f r) (newReplayBuffer cap) fs in
  replay_last n r = drop (length fs - (n `min` (cap `min` length fs))) fs /\
  (StronglySorted by_sequence fs -> (0 < sequence)%Z ->
   snd (replay_after sequence r) = true \/
   replay_after sequence r = (filter (fun f => (sequence < Sequence f)%Z) fs, false)).
Proof.
  intros Hc r. assert (rb_rel cap r fs) as Hr.
  { unfold r. induction fs as [|f fs IH] using rev_ind; [by apply newReplay_rel|].
    rewrite foldl_snoc. by apply replay_add_rel. }
  split; [by rewrite (replay_last_ok cap r fs), (rr_len _ _ _ Hr)|].
  intros Hs Hpos. rewrite (replay_after_kept cap r fs sequence Hr Hpos).
  destruct (has_gap cap sequence fs) eqn:Eg; [by left|right]. by rewrite kept_in_order.
Qed.

(** ** Witnesses *)

Definition demo_frame (seq prio : Z) : Frame := mkFrame seq 0 "t" [] Reliable prio.

Lemma frameQueue_refines_witness :
  answers fq_step (newFrameQueue 2)
    [QPush (demo_frame 1 0); QPush (demo_frame 2 3); QPush (demo_frame 3 1); QPopOldest; QPop; QPop] =
  [APushed true; APushed true; APushed false; AFrame (Some (demo_frame 1 0));
   AFrame (Some (demo_frame 2 3)); AFrame None].
Proof.
  rewrite (frameQueue_refines 2 [QPush (demo_frame 1 0); QPush (demo_frame 2 3); QPush (demo_frame 3 1);
    QPopOldest; QPop; QPop]); [vm_compute; reflexivity|lia].
Defined.

Lemma replayBuffer_correct_witness :
  let fs := [demo_frame 4 1; demo_frame 5 1; demo_frame 9 1] in
  let r := foldl (fun r f => replay_add f r) (newReplayBuffer 2) fs in
  replay_last 5 r = [demo_frame 5 1; demo_frame 9 1] /\
  (snd (replay_after 5 r) = true \/ replay_after 5 r = ([demo_frame 9 1], false)).
Proof.
  destruct (replayBuffer_correct 2 [demo_frame 4 1; demo_frame 5 1; demo_frame 9 1] 5 5) as [H1 H2]; [lia|].
  split; [exact H1|]. apply H2; [|lia].
  repeat constructor; unfold by_sequence; simpl; lia.
Defined.
