(* ===== verification/StreamSub.v ===== *)
(** * StreamSub: a subscription of the stream bus

    Models [src/streambus/subscription.go]: the bounded queue of a
    subscription, [enqueue] with its four overflow policies, [preload],
    [Close], and the goroutine [run] that hands frames to the consumer, one
    transition per function. A critical section and the signal that follows it
    are one step. *)

From S2P Require Import Prelude Bytes StreamTypes StreamQueue.
Open Scope Z_scope.

(** Where the goroutine [run] is: waiting on [done] and [notify], in its inner
    loop before the next [pop], offering a popped frame to the consumer, or
    returned, with the delivery channel closed. *)
Inductive runner :=
| RIdle
| RActive
| RSending (f : Frame)
| RStopped.

Record Subscription := mkSub {
  s_id : Z;
  s_options : SubscribeOptions;
  s_queue : frameQueue;
  s_closed : bool;
  s_notify : bool;
  s_space : bool;
  s_runner : runner;
  s_enqueued : Z;
  s_delivered : Z;
  s_dropped : Z;
}.

Definition set_squeue s q : Subscription :=
  mkSub (s_id s) (s_options s) q (s_closed s) (s_notify s) (s_space s) (s_runner s)
    (s_enqueued s) (s_delivered s) (s_dropped s).
Definition set_signals s notify space : Subscription :=
  mkSub (s_id s) (s_options s) (s_queue s) (s_closed s) notify space (s_runner s)
    (s_enqueued s) (s_delivered s) (s_dropped s).
Definition set_runner s r : Subscription :=
  mkSub (s_id s) (s_options s) (s_queue s) (s_closed s) (s_notify s) (s_space s) r
    (s_enqueued s) (s_delivered s) (s_dropped s).
Definition add_counts s e d x : Subscription :=
  mkSub (s_id s) (s_options s) (s_queue s) (s_closed s) (s_notify s) (s_space s) (s_runner s)
    (u64 (s_enqueued s + e)) (u64 (s_delivered s + d)) (u64 (s_dropped s + x)).

Definition newSubscription (id : Z) (options : SubscribeOptions) : Subscription :=
  mkSub id options (newFrameQueue (Z.to_nat (so_Buffer options))) false false false RIdle 0 0 0.

(** [s.signal(s.notify)]: a token in a channel of capacity one. *)
Definition signal_notify s : Subscription := set_signals s true (s_space s).
Definition signal_space s : Subscription := set_signals s (s_notify s) true.

Definition Subscription_Stats s : Z * Z * Z * nat :=
  (s_enqueued s, s_delivered s, s_dropped s, fq_len (s_queue s)).

(** [Close], without the call of [unregister]. *)
Definition Subscription_Close s : Subscription :=
  mkSub (s_id s) (s_options s) (s_queue s) true (s_notify s) (s_space s) (s_runner s)
    (s_enqueued s) (s_delivered s) (s_dropped s).

(** One frame of [preload]. *)
Definition preload_frame s (f : Frame) : Subscription :=
  let '(q, ok) := fq_push f (s_queue s) in
  if ok then add_counts (set_squeue s q) 1 0 0
  else
    let '(q, _) := fq_popOldest q in
    let '(q, _) := fq_push f q in
    add_counts (set_squeue s q) 1 0 1.

Definition preload (frames : list Frame) s : Subscription :=
  let s := foldl preload_frame s frames in
  if (0 <? fq_len (s_queue s))%nat then signal_notify s else s.

(** One iteration of [enqueue] up to its [select]: what it returns, or [None]
    when it has to wait for space. *)
Definition enqueue_try (f : Frame) s : Subscription * option (option error) :=
  if s_closed s then (s, Some (Some ErrSubscriptionDone))
  else
    let '(q, ok) := fq_push f (s_queue s) in
    if ok then (signal_notify (add_counts (set_squeue s q) 1 0 0), Some None)
    else if so_Overflow (s_options s) =? DropNewest then (add_counts s 0 0 1, Some None)
    else if so_Overflow (s_options s) =? DropOldest then
      let '(q, _) := fq_popOldest q in
      let '(q, _) := fq_push f q in
      (signal_notify (add_counts (set_squeue s q) 1 0 1), Some None)
    else if so_Overflow (s_options s) =? LatestOnly then
      let '(q, dropped) := fq_clear q in
      let '(q, _) := fq_push f q in
      (signal_notify (add_counts (set_squeue s q) 1 0 (Z.of_nat dropped)), Some None)
    else (s, None).

(** [enqueue] as far as it gets without another goroutine: its answer, or
    [None] when it blocks. The context is polled when the queue is full. *)
Definition enqueue (cx : ctx) (f : Frame) s : Subscription * option (option error) :=
  match enqueue_try f s with
  | (s, Some r) => (s, Some r)
  | (s, None) => match cx 0%nat with Some e => (s, Some (Some e)) | None => (s, None) end
  end.

(** *** The goroutine [run] *)

(** [case <-s.notify] *)
Definition run_wake s : Subscription := set_runner (set_signals s false (s_space s)) RActive.

(** One round of the inner loop up to its [select]. *)
Definition run_pop s : Subscription :=
  match fq_pop (s_queue s) with
  | (q, Some f) => set_runner (signal_space (set_squeue s q)) (RSending f)
  | (q, None) => set_runner (set_squeue s q) RIdle
  end.

(** [case s.frames <- frame] *)
Definition run_send s : Subscription := set_runner (add_counts s 0 1 0) RActive.

(** [case <-s.done] *)
Definition run_stop s : Subscription := set_runner s RStopped.

(** A blocked publisher takes the token of [space]. *)
Definition take_space s : Subscription := set_signals s (s_notify s) false.

Inductive sub_step : Subscription -> Subscription -> Prop :=
| ss_enqueue f s : sub_step s (fst (enqueue_try f s))
| ss_preload fs s : sub_step s (preload fs s)
| ss_close s : sub_step s (Subscription_Close s)
| ss_space s : s_space s = true -> sub_step s (take_space s)
| ss_wake s : s_runner s = RIdle -> s_notify s = true -> sub_step s (run_wake s)
| ss_pop s : s_runner s = RActive -> sub_step s (run_pop s)
| ss_send f s : s_runner s = RSending f -> sub_step s (run_send s)
| ss_stop s : s_closed s = true -> s_runner s <> RActive -> sub_step s (run_stop s).

(** ** Invariant *)

Definition in_hand (r : runner) : nat := match r with RSending _ => 1 | _ => 0 end.

(** [l]: the queued frames; [lost]: those in the hand of a goroutine that
    stopped; [evicted] and [refused]: the frames dropped from the queue and
    before it. *)
Record sub_ok s (l : list Frame) (evicted refused lost : nat) : Prop := {
  so_queue : fq_rel (Z.to_nat (so_Buffer (s_options s))) (s_queue s) l;
  so_enq : s_enqueued s =
    u64 (s_delivered s + Z.of_nat (length l + in_hand (s_runner s) + lost + evicted));
  so_drop : s_dropped s = u64 (Z.of_nat (evicted + refused));
  so_refused : so_Overflow (s_options s) <> DropNewest -> refused = 0%nat;
  so_wake : l <> [] -> s_runner s = RIdle -> s_notify s = true;
  so_open : s_closed s = false -> s_runner s <> RStopped /\ lost = 0%nat;
}.

Definition sub_inv s : Prop := exists l e r x, sub_ok s l e r x.

Lemma u64_add_l a b : u64 (u64 a + b) = u64 (a + b).
Proof. unfold u64. apply Zplus_mod_idemp_l. Qed.

Lemma u64_add_r a b : u64 (a + u64 b) = u64 (a + b).
Proof. unfold u64. apply Zplus_mod_idemp_r. Qed.

Lemma newSubscription_ok id o : 1 <= so_Buffer o -> sub_ok (newSubscription id o) [] 0 0 0.
Proof. intros H. split; simpl; try done. apply newFrameQueue_rel. lia. Qed.

(** A push into a queue with room, and one that replaces the oldest frame. *)
Lemma push_room cap q l f :
  fq_rel cap q l -> snd (fq_push f q) = true ->
  fq_rel cap (fst (fq_push f q)) (l ++ [f]) /\ (length l < cap)%nat.
Proof.
  intros Hr Hp. destruct (fq_push_rel cap f q l Hr) as [E H]. rewrite Hp in E. unfold spec_push in *.
  destruct (Nat.eqb_spec (length l) cap); [done|]. split; [done|]. pose proof (fr_bound _ _ _ Hr). lia.
Qed.

Lemma push_full cap q l f :
  fq_rel cap q l -> snd (fq_push f q) = false -> fst (fq_push f q) = q /\ length l = cap.
Proof.
  intros Hr Hp. destruct (fq_push_rel cap f q l Hr) as [E _]. rewrite Hp in E. unfold spec_push, fq_push in *.
  rewrite (fr_cap _ _ _ Hr), (fr_len _ _ _ Hr) in *. by destruct (Nat.eqb_spec (length l) cap).
Qed.

Lemma pop_push cap q l f :
  fq_rel cap q l -> length l = cap ->
  exists l', fq_rel cap (fst (fq_push f (fst (fq_popOldest q)))) (l' ++ [f]) /\ S (length l') = length l.
Proof.
  intros Hr Hl. destruct (fq_popOldest_rel cap q l Hr) as [_ H]. unfold spec_popOldest in H.
  pose proof (fr_pos _ _ _ Hr).
  destruct (spec_oldest l) as [[p g]|] eqn:Eo.
  - apply older_first in Eo as [?|[_ Hf]]; [done|]. pose proof (length_remove _ _ _ Hf) as Hrem.
    exists (remove_first p l). split; [|done]. simpl in H.
    destruct (fq_push_rel cap f _ _ H) as [_ H']. unfold spec_push in H'.
    destruct (Nat.eqb_spec (length (remove_first p l)) cap); [lia|done].
  - exfalso. destruct l as [|g l']; [simpl in Hl; lia|].
    assert (forall ps sel, (sel <> None \/ class_of g ∈ ps) -> foldl (older (g :: l')) sel ps <> None) as Hsome.
    { induction ps as [|p ps IH]; intros sel Hs; simpl; [by destruct Hs as [?|?%elem_of_nil]|].
      apply IH. unfold older. destruct Hs as [Hs|Hs].
      - left. destruct (first_of _ _), sel as [[??]|]; try case_match; done.
      - destruct (decide (p = class_of g)) as [->|Hne].
        + left. unfold first_of, in_class. rewrite filter_cons_True by done. simpl.
          destruct sel as [[??]|]; [case_match|]; done.
        + right. by apply elem_of_cons in Hs as [?|?]. }
    apply (Hsome [0; 1; 2; 3]%nat None); [|exact Eo]. right. apply four_classes, class_of_lt.
Qed.

Lemma clear_push cap q l f :
  fq_rel cap q l -> fq_rel cap (fst (fq_push f (fst (fq_clear q)))) [f] /\ snd (fq_clear q) = length l.
Proof.
  intros Hr. destruct (fq_clear_rel cap q l Hr) as [E H]. split; [|done].
  destruct (fq_push_rel cap f _ _ H) as [_ H']. unfold spec_push in H'. pose proof (fr_pos _ _ _ Hr).
  simpl in H'. destruct cap; [lia|done].
Qed.

(** Counters up to wrap-around. *)
Ltac count :=
  simpl;
  repeat match goal with
  | H : s_enqueued _ = _ |- _ => rewrite H; clear H
  | H : s_dropped _ = _ |- _ => rewrite H; clear H
  end;
  rewrite ?u64_add_l; f_equal; rewrite ?length_app; simpl; lia.

Lemma preload_frame_ok s f l e r x :
  sub_ok s l e r x -> exists l' e', sub_ok (signal_notify (preload_frame s f)) l' e' r x /\ l' <> [] /\
    fq_len (s_queue (preload_frame s f)) <> 0%nat /\ s_closed (preload_frame s f) = s_closed s.
Proof.
  intros [H1 H2 H3 H4 H5 H6]. unfold preload_frame. destruct (fq_push f (s_queue s)) as [q ok] eqn:Ep.
  pose proof (f_equal fst Ep) as Eq. pose proof (f_equal snd Ep) as Eok. simpl in Eq, Eok. destruct ok.
  - destruct (push_room _ _ _ f H1 Eok) as [Hr _]. rewrite Eq in Hr. exists (l ++ [f]), e.
    split; [split; [assumption|count|count|done|done|done]|]. split; [by destruct l|]. split; [|done].
    simpl. rewrite (fr_len _ _ _ Hr), length_app. simpl. lia.
  - destruct (push_full _ _ _ f H1 Eok) as [E Hl]. assert (q = s_queue s) as -> by congruence.
    destruct (pop_push _ _ _ f H1 Hl) as (l' & Hr & Hlen).
    destruct (fq_popOldest (s_queue s)) as [q1 g] eqn:E1. simpl in Hr.
    destruct (fq_push f q1) as [q2 b] eqn:E2. simpl in Hr. exists (l' ++ [f]), (S e).
    split; [split; [assumption|count|count|done|done|done]|]. split; [by destruct l'|]. split; [|done].
    simpl. rewrite (fr_len _ _ _ Hr), length_app. simpl. lia.
Qed.

(** The notification can wait until the end of [preload]. *)
Lemma preload_frame_signal s f :
  preload_frame (signal_notify s) f = signal_notify (preload_frame s f).
Proof.
  unfold preload_frame. simpl. destruct (fq_push f (s_queue s)) as [q []]; [done|].
  destruct (fq_popOldest q) as [q1 g]. by destruct (fq_push f q1).
Qed.

Lemma preload_signal fs s :
  foldl preload_frame (signal_notify s) fs = signal_notify (foldl preload_frame s fs).
Proof.
  revert s. induction fs as [|f fs IH]; intros s; [done|]. simpl. by rewrite preload_frame_signal, IH.
Qed.

Lemma preload_inv fs s : sub_inv s -> sub_inv (preload fs s).
Proof.
  assert (forall fs s, sub_inv s -> fs <> [] -> sub_inv (signal_notify (foldl preload_frame s fs)) /\
    (0 < fq_len (s_queue (foldl preload_frame s fs)))%nat) as Hall.
  { clear. induction fs as [|f fs IH]; intros s (l & e & r & x & Hs) Hne; [done|]. simpl.
    destruct (preload_frame_ok s f l e r x Hs) as (l' & e' & Hs' & Hl' & Hlen & _).
    rewrite <- preload_signal. destruct fs as [|g fs].
    - simpl. split; [by exists l', e', r, x|lia].
    - destruct (IH (signal_notify (preload_frame s f))) as [H1 H2]; [by exists l', e', r, x|done|].
      rewrite preload_signal in H1, H2. rewrite preload_signal. done. }
  intros Hs. unfold preload. destruct fs as [|f fs].
  - simpl. destruct Hs as (l & e & r & x & [H1 H2 H3 H4 H5 H6]). case_match; exists l, e, r, x; by split.
  - destruct (Hall (f :: fs) s Hs ltac:(done)) as [H1 H2].
    by destruct (Nat.ltb_spec 0 (fq_len (s_queue (foldl preload_frame s (f :: fs))))); [|lia].
Qed.

Lemma enqueue_try_ok f s l e r x :
  sub_ok s l e r x -> exists l' e' r', sub_ok (fst (enqueue_try f s)) l' e' r' x.
Proof.
  intros Hs. pose proof Hs as [H1 H2 H3 H4 H5 H6]. unfold enqueue_try.
  destruct (s_closed s) eqn:Ec; [by exists l, e, r|].
  destruct (fq_push f (s_queue s)) as [q ok] eqn:Ep.
  pose proof (f_equal fst Ep) as Eq. pose proof (f_equal snd Ep) as Eok. simpl in Eq, Eok. destruct ok.
  { destruct (push_room _ _ _ f H1 Eok) as [Hr _]. rewrite Eq in Hr.
    exists (l ++ [f]), e, r. split; [assumption|count|count|done|done|intros _; by apply H6]. }
  destruct (push_full _ _ _ f H1 Eok) as [E Hl]. assert (q = s_queue s) as -> by congruence.
  destruct (so_Overflow (s_options s) =? DropNewest) eqn:O1; bool_to_prop.
  { exists l, e, (S r). split; [assumption|count|count|by intros []|done|intros _; by apply H6]. }
  destruct (so_Overflow (s_options s) =? DropOldest) eqn:O2.
  { destruct (pop_push _ _ _ f H1 Hl) as (l' & Hr & Hlen).
    destruct (fq_popOldest (s_queue s)) as [q1 g] eqn:E1. simpl in Hr.
    destruct (fq_push f q1) as [q2 b] eqn:E2. simpl in Hr.
    exists (l' ++ [f]), (S e), r. split; [assumption|count|count|done|done|intros _; by apply H6]. }
  destruct (so_Overflow (s_options s) =? LatestOnly) eqn:O3; [|by exists l, e, r].
  destruct (clear_push _ _ _ f H1) as [Hr Hlen].
  destruct (fq_clear (s_queue s)) as [q1 n] eqn:E1. simpl in Hr, Hlen. subst n.
  destruct (fq_push f q1) as [q2 b] eqn:E2. simpl in Hr.
  exists [f], (length l + e)%nat, r. split; [assumption|count|count|done|done|intros _; by apply H6].
Qed.

Lemma spec_pop_from_Some ps l l' f : spec_pop_from ps l = (l', Some f) -> S (length l') = length l.
Proof.
  induction ps as [|p ps IH]; simpl; [done|]. destruct (first_of p l) as [g|] eqn:Eg; [|done].
  intros [= <- _]. by eapply length_remove.
Qed.

Lemma spec_pop_from_None ps l l' :
  spec_pop_from ps l = (l', None) -> l' = l /\ forall p, p ∈ ps -> first_of p l = None.
Proof.
  induction ps as [|p ps IH]; simpl.
  - intros [= <-]. split; [done|]. by intros p ?%elem_of_nil.
  - destruct (first_of p l) as [g|] eqn:Eg; [done|]. intros [-> H]%IH. split; [done|].
    intros p' [->|Hp]%elem_of_cons; [done|by apply H].
Qed.

Lemma spec_pop_None l l' : spec_pop l = (l', None) -> l = [] /\ l' = [].
Proof.
  intros [-> H]%spec_pop_from_None. destruct l as [|f l]; [done|].
  assert (class_of f ∈ [3; 2; 1; 0]%nat) as Hc.
  { pose proof (class_of_lt f) as Hf. rewrite !elem_of_cons, elem_of_nil. lia. }
  specialize (H _ Hc). unfold first_of, in_class in H. by rewrite filter_cons_True in H.
Qed.

Lemma run_pop_ok s l l' o e r x :
  s_runner s = RActive -> sub_ok s l e r x -> spec_pop l = (l', o) ->
  sub_ok (run_pop s) l' e r x /\
  s_runner (run_pop s) = match o with Some f => RSending f | None => RIdle end.
Proof.
  intros Hrun [H1 H2 H3 H4 H5 H6] Ep. unfold run_pop. destruct (fq_pop_rel _ _ _ H1) as [E Hr].
  rewrite Ep in E, Hr. destruct (fq_pop (s_queue s)) as [q o']. simpl in E, Hr. subst o'.
  rewrite Hrun in H2. simpl in H2. destruct o as [g|].
  - pose proof (spec_pop_from_Some _ _ _ _ Ep). split; [|done].
    split; [assumption|count|count|done|done|]. simpl. intros Hc. by destruct (H6 Hc) as [_ Hx].
  - destruct (spec_pop_None _ _ Ep) as [-> ->]. split; [|done].
    split; [assumption|count|count|done|done|]. simpl. intros Hc. by destruct (H6 Hc) as [_ Hx].
Qed.

Lemma sub_step_inv s s' : sub_step s s' -> sub_inv s -> sub_inv s'.
Proof.
  destruct 1 as [f s|fs s|s|s ?|s Hr Hn|s Hr|f s Hr|s Hc Hr]; intros Hi.
  - destruct Hi as (l & e & r & x & Hs). destruct (enqueue_try_ok f s l e r x Hs) as (l' & e' & r' & Hs').
    by exists l', e', r', x.
  - by apply preload_inv.
  - destruct Hi as (l & e & r & x & [H1 H2 H3 H4 H5 H6]). exists l, e, r, x. by split.
  - destruct Hi as (l & e & r & x & [H1 H2 H3 H4 H5 H6]). exists l, e, r, x. by split.
  - destruct Hi as (l & e & r & x & [H1 H2 H3 H4 H5 H6]). exists l, e, r, x.
    rewrite Hr in H2. split; try done. simpl. intros Hc. by destruct (H6 Hc).
  - destruct Hi as (l & e & r & x & Hs). destruct (spec_pop l) as [l' o] eqn:Ep.
    exists l', e, r, x. by apply (run_pop_ok s l l' o).
  - destruct Hi as (l & e & r & x & [H1 H2 H3 H4 H5 H6]). exists l, e, r, x.
    rewrite Hr in H2. simpl in H2. split; [assumption|count|count|done|done|].
    simpl. intros Hc. by destruct (H6 Hc).
  - destruct Hi as (l & e & r & x & [H1 H2 H3 H4 H5 H6]).
    exists l, e, r, (x + in_hand (s_runner s))%nat.
    split; [assumption|count|count|done|done|]. simpl. congruence.
Qed.

Lemma sub_steps_inv s s' : rtc sub_step s s' -> sub_inv s -> sub_inv s'.
Proof. induction 1; eauto using sub_step_inv. Qed.

(** What an observer sees of a subscription that satisfies its invariant. *)
Definition sub_bounded s : Prop :=
  (fq_len (s_queue s) <= Z.to_nat (so_Buffer (s_options s)))%nat /\
  (s_closed s = false -> so_Overflow (s_options s) <> DropNewest ->
   s_enqueued s = u64 (s_delivered s + Z.of_nat (fq_len (s_queue s) + in_hand (s_runner s)) + s_dropped s)) /\
  (s_closed s = false -> (0 < fq_len (s_queue s))%nat ->
   s_notify s = true \/ s_runner s = RActive \/ exists f, s_runner s = RSending f).

Lemma sub_inv_bounded s : sub_inv s -> sub_bounded s.
Proof.
  intros (l & e & r & x & [H1 H2 H3 H4 H5 H6]). pose proof (fr_len _ _ _ H1) as Hlen. split_and!.
  - rewrite Hlen. apply (fr_bound _ _ _ H1).
  - intros Hc Ho. destruct (H6 Hc) as [_ ->]. specialize (H4 Ho). subst r.
    rewrite H2, H3, u64_add_r, Hlen. f_equal. lia.
  - intros Hc Hl. destruct (H6 Hc) as [Hs _]. destruct (s_runner s) as [| |f|] eqn:Er; try done; [|by auto|by eauto].
    left. apply H5; [|done]. intros ->. simpl in Hlen. lia.
Qed.

(** C36. In every state a subscription reaches, whatever interleaving of
    publishers, replay, its goroutine, its consumer and [Close]: the queue
    never holds more than its buffer size; while it is open, unless it drops
    the newest frames, every frame counted as enqueued is delivered, queued, in
    the hand of the goroutine or counted as dropped; and a queued frame never
    waits for a wake-up that was lost: the goroutine is notified or already at
    work. *)
Theorem Subscription_reachable_inv (id : Z) (o : SubscribeOptions) (s : Subscription) :
  1 <= so_Buffer o -> rtc sub_step (newSubscription id o) s -> sub_bounded s.
Proof.
  intros Ho H. apply sub_inv_bounded. eapply sub_steps_inv; [exact H|].
  exists [], 0%nat, 0%nat, 0%nat. by apply newSubscription_ok.
Qed.

(** ** Draining *)

(** Rounds of the inner loop of [run] with a consumer that is ready: the frames
    handed over, until the loop ends. *)
Fixpoint run_rounds (fuel : nat) s : Subscription * list Frame :=
  match fuel with
  | O => (s, [])
  | S fuel =>
      let s := run_pop s in
      match s_runner s with
      | RSending f => let '(s, fs) := run_rounds fuel (run_send s) in (s, f :: fs)
      | _ => (s, [])
      end
  end.

(** Highest priority first, in order of arrival within a priority. *)
Definition by_priority (l : list Frame) : list Frame :=
  in_class 3 l ++ in_class 2 l ++ in_class 1 l ++ in_class 0 l.

Lemma first_of_cons p l f :
  first_of p l = Some f -> in_class p l = f :: in_class p (remove_first p l).
Proof.
  unfold first_of. rewrite in_class_remove, decide_True by done. by destruct (in_class p l); intros [= ->].
Qed.

Lemma first_of_nil p l : first_of p l = None -> in_class p l = [].
Proof. unfold first_of. by destruct (in_class p l). Qed.

Lemma spec_pop_priority l l' f : spec_pop l = (l', Some f) -> by_priority l = f :: by_priority l'.
Proof.
  unfold spec_pop, by_priority. simpl.
  destruct (first_of 3 l) as [g|] eqn:E3.
  { intros [= <- ->]. rewrite (first_of_cons 3 l f E3), !in_class_remove. done. }
  rewrite (first_of_nil 3 l E3). destruct (first_of 2 l) as [g|] eqn:E2.
  { intros [= <- ->]. rewrite (first_of_cons 2 l f E2), !in_class_remove. simpl.
    by rewrite (first_of_nil 3 l E3). }
  rewrite (first_of_nil 2 l E2). destruct (first_of 1 l) as [g|] eqn:E1.
  { intros [= <- ->]. rewrite (first_of_cons 1 l f E1), !in_class_remove. simpl.
    by rewrite (first_of_nil 3 l E3), (first_of_nil 2 l E2). }
  rewrite (first_of_nil 1 l E1). destruct (first_of 0 l) as [g|] eqn:E0; [|done].
  intros [= <- ->]. rewrite (first_of_cons 0 l f E0), !in_class_remove. simpl.
  by rewrite (first_of_nil 3 l E3), (first_of_nil 2 l E2), (first_of_nil 1 l E1).
Qed.

Lemma remove_first_perm p l f : first_of p l = Some f -> l ≡ₚ f :: remove_first p l.
Proof.
  unfold first_of, in_class. induction l as [|g l IH]; [done|]. rewrite filter_cons. simpl.
  destruct (Nat.eqb_spec (class_of g) p); case_decide; try done; [by intros [= ->]|].
  intros Hf. rewrite (IH Hf) at 1. apply Permutation_swap.
Qed.

Lemma spec_pop_from_perm ps l l' f : spec_pop_from ps l = (l', Some f) -> l ≡ₚ f :: l'.
Proof.
  induction ps as [|p ps IH]; simpl; [done|]. destruct (first_of p l) as [g|] eqn:Eg; [|done].
  intros [= <- ->]. by apply remove_first_perm.
Qed.

Lemma by_priority_perm l : by_priority l ≡ₚ l.
Proof.
  remember (length l) as n eqn:Hn. revert l Hn. induction n as [|n IH]; intros l Hn.
  { by destruct l. }
  destruct (spec_pop l) as [l' [f|]] eqn:Ep.
  - rewrite (spec_pop_priority _ _ _ Ep), (spec_pop_from_perm _ _ _ _ Ep). f_equiv. apply IH.
    pose proof (spec_pop_from_Some _ _ _ _ Ep). lia.
  - destruct (spec_pop_None _ _ Ep) as [-> _]. done.
Qed.

Lemma run_rounds_drains fuel s l :
  s_runner s = RActive -> fq_rel (Z.to_nat (so_Buffer (s_options s))) (s_queue s) l ->
  (length l < fuel)%nat ->
  exists s', run_rounds fuel s = (s', by_priority l) /\ s_runner s' = RIdle /\
    fq_rel (Z.to_nat (so_Buffer (s_options s))) (s_queue s') [].
Proof.
  revert s l. induction fuel as [|fuel IH]; intros s l Hrun Hq Hf; [lia|]. cbn [run_rounds].
  destruct (fq_pop_rel _ _ _ Hq) as [E Hr]. unfold run_pop.
  destruct (fq_pop (s_queue s)) as [q o]. destruct (spec_pop l) as [l' o'] eqn:Ep. simpl in E, Hr. subst o'.
  destruct o as [f|].
  - pose proof (spec_pop_from_Some _ _ _ _ Ep). simpl.
    set (s1 := run_send _). destruct (IH s1 l') as (s' & -> & H1 & H2); [done|exact Hr|lia|].
    exists s'. split; [by rewrite (spec_pop_priority _ _ _ Ep)|]. done.
  - destruct (spec_pop_None _ _ Ep) as [-> ->]. simpl. eexists. split; [done|]. done.
Qed.

(** Nothing queued is left behind: once the goroutine of a subscription is
    in its delivery loop and its consumer keeps receiving, the loop ends after
    as many rounds as there are frames, with the queue empty, and hands over
    exactly the queued frames, highest priority first and in order of arrival
    within a priority. *)
Theorem Subscription_drains (s : Subscription) (l : list Frame) :
  s_runner s = RActive -> fq_rel (Z.to_nat (so_Buffer (s_options s))) (s_queue s) l ->
  exists s', run_rounds (S (length l)) s = (s', by_priority l) /\ s_runner s' = RIdle /\
    fq_len (s_queue s') = 0%nat /\ by_priority l ≡ₚ l.
Proof.
  intros Hrun Hq. destruct (run_rounds_drains (S (length l)) s l Hrun Hq ltac:(lia)) as (s' & H1 & H2 & H3).
  exists s'. split; [done|]. split; [done|]. split; [apply (fr_len _ _ _ H3)|]. apply by_priority_perm.
Qed.

(** ** Witnesses *)

Definition demo_options : SubscribeOptions := mkSubOpts "t" false 2 DropOldest 0 0.

(** Three frames into a buffer of two, and the goroutine woken. *)
Definition demo_sub0 : Subscription := newSubscription 1 demo_options.
Definition demo_sub1 : Subscription := fst (enqueue_try (demo_frame 1 1) demo_sub0).
Definition demo_sub2 : Subscription := fst (enqueue_try (demo_frame 2 3) demo_sub1).
Definition demo_sub3 : Subscription := fst (enqueue_try (demo_frame 3 0) demo_sub2).
Definition demo_sub : Subscription := run_wake demo_sub3.

Lemma Subscription_reachable_inv_witness :
  sub_bounded demo_sub /\ s_dropped demo_sub = 1 /\ s_enqueued demo_sub = 3.
Proof.
  split; [|by vm_compute]. apply (Subscription_reachable_inv 1 demo_options); [simpl; lia|].
  apply (rtc_l _ _ demo_sub1); [exact (ss_enqueue (demo_frame 1 1) demo_sub0)|].
  apply (rtc_l _ _ demo_sub2); [exact (ss_enqueue (demo_frame 2 3) demo_sub1)|].
  apply (rtc_l _ _ demo_sub3); [exact (ss_enqueue (demo_frame 3 0) demo_sub2)|].
  apply rtc_once, ss_wake; by vm_compute.
Defined.

Lemma demo_queue : fq_rel 2 (s_queue demo_sub) [demo_frame 2 3; demo_frame 3 0].
Proof.
  pose proof (newFrameQueue_rel 2 ltac:(lia)) as H.
  apply (fq_push_rel 2 (demo_frame 1 1)), proj2 in H. apply (fq_push_rel 2 (demo_frame 2 3)), proj2 in H.
  apply (fq_popOldest_rel 2), proj2 in H. apply (fq_push_rel 2 (demo_frame 3 0)), proj2 in H.
  exact H.
Qed.

Lemma Subscription_drains_witness :
  exists s', run_rounds 3 demo_sub = (s', [demo_frame 2 3; demo_frame 3 0]) /\ s_runner s' = RIdle /\
    fq_len (s_queue s') = 0%nat.
Proof.
  destruct (Subscription_drains demo_sub [demo_frame 2 3; demo_frame 3 0]) as (s' & H1 & H2 & H3 & _);
    [by vm_compute|exact demo_queue|exists s'; split; [exact H1|split; [exact H2|exact H3]]].
Defined.
