(* ===== verification/StreamBus.v ===== *)
(** * StreamBus: the in-memory stream bus

    Models [InMemory] of [src/streambus/inmemory.go]: the prefix trie, the
    exact-topic index, replay journals, [Publish], [Subscribe], [remove] and
    [Close]. Subscriptions live in a heap indexed by their ids, which the
    indices refer to. The order in which Go iterates over the target map is
    an argument. *)

From stdpp Require Import sorting.
From S2P Require Import Prelude Bytes StreamTypes StreamQueue StreamSub.
Open Scope Z_scope.

#[export] Instance byte_countable : Countable Byte.byte.
Proof. refine (inj_countable Byte.to_N Byte.of_N _). intros x. apply Byte.of_to_N. Defined.

(** ** The prefix trie *)

Inductive prefixNode := Node {
  pn_subs : gset Z;
  pn_children : gmap Byte.byte prefixNode;
}.

Definition newPrefixNode : prefixNode := Node ∅ ∅.

(** The walk of [Subscribe], creating the missing nodes. *)
Fixpoint trie_insert (path : list Byte.byte) (id : Z) (n : prefixNode) : prefixNode :=
  match path with
  | [] => Node ({[id]} ∪ pn_subs n) (pn_children n)
  | c :: path =>
      let child := default newPrefixNode (pn_children n !! c) in
      Node (pn_subs n) (<[c := trie_insert path id child]> (pn_children n))
  end.

(** The walk of [remove]; it ends at a missing node. *)
Fixpoint trie_remove (path : list Byte.byte) (id : Z) (n : prefixNode) : prefixNode :=
  match path with
  | [] => Node (pn_subs n ∖ {[id]}) (pn_children n)
  | c :: path =>
      match pn_children n !! c with
      | None => n
      | Some child => Node (pn_subs n) (<[c := trie_remove path id child]> (pn_children n))
      end
  end.

(** The walk of [Publish]: the subscriptions of every node below the root it
    reaches. *)
Fixpoint trie_match (path : list Byte.byte) (n : prefixNode) : gset Z :=
  match path with
  | [] => ∅
  | c :: path =>
      match pn_children n !! c with
      | None => ∅
      | Some child => pn_subs child ∪ trie_match path child
      end
  end.

Fixpoint collectPrefixSubscriptions (n : prefixNode) : gset Z :=
  map_fold (fun _ child acc => collectPrefixSubscriptions child ∪ acc) (pn_subs n) (pn_children n).

(** ** The bus *)

Record InMemory := mkStream {
  b_config : Config;
  b_exact : gmap string (gset Z);
  b_prefix : prefixNode;
  b_replay : gmap string replayBuffer;
  b_seq : Z;
  b_subSeq : Z;
  b_closed : bool;
  b_subs : gmap Z Subscription;
}.

Definition stream_New (config : Config) : InMemory :=
  mkStream (Config_normalized config) ∅ newPrefixNode ∅ 0 0 false ∅.

Definition set_index b exact prefix : InMemory :=
  mkStream (b_config b) exact prefix (b_replay b) (b_seq b) (b_subSeq b) (b_closed b) (b_subs b).
Definition set_heap b subs : InMemory :=
  mkStream (b_config b) (b_exact b) (b_prefix b) (b_replay b) (b_seq b) (b_subSeq b) (b_closed b) subs.
Definition set_seq b seq : InMemory :=
  mkStream (b_config b) (b_exact b) (b_prefix b) (b_replay b) seq (b_subSeq b) (b_closed b) (b_subs b).
Definition set_subSeq b subSeq : InMemory :=
  mkStream (b_config b) (b_exact b) (b_prefix b) (b_replay b) (b_seq b) subSeq (b_closed b) (b_subs b).
Definition set_replay b replay : InMemory :=
  mkStream (b_config b) (b_exact b) (b_prefix b) replay (b_seq b) (b_subSeq b) (b_closed b) (b_subs b).
Definition set_bclosed b : InMemory :=
  mkStream (b_config b) (b_exact b) (b_prefix b) (b_replay b) (b_seq b) (b_subSeq b) true (b_subs b).

(** The targets [Publish] collects under the lock. *)
Definition targets (topic : string) b : gset Z :=
  default ∅ (b_exact b !! topic) ∪ trie_match (string_bytes topic) (b_prefix b).

Definition journal_add (f : Frame) b : InMemory :=
  if 0 <? ReplayCapacity (b_config b) then
    let journal := default (newReplayBuffer (Z.to_nat (ReplayCapacity (b_config b))))
                     (b_replay b !! Topic f) in
    set_replay b (<[Topic f := replay_add f journal]> (b_replay b))
  else b.

(** The frame as the bus stamps it. *)
Definition stamp (now : time) (seq : Z) (f : Frame) : Frame :=
  mkFrame seq (if time_IsZero (fr_Timestamp f) then now else fr_Timestamp f) (Topic f) (Payload f)
    (fr_Reliability f) (fr_Priority f).

(** A publication that returns, or that waits in [enqueue] for the first of the
    remaining targets. *)
Inductive pub_result :=
| PubDone (seq : Z) (err : option error)
| PubBlocked (seq : Z) (rest : list Z).

Fixpoint fan_out (cx : ctx) (i : nat) (f : Frame) (ids : list Z) b : InMemory * pub_result :=
  match ids with
  | [] => (b, PubDone (Sequence f) None)
  | id :: rest =>
      match b_subs b !! id with
      | None => fan_out cx (S i) f rest b
      | Some s =>
          let '(s, r) := enqueue (after i cx) f s in
          let b := set_heap b (<[id := s]> (b_subs b)) in
          match r with
          | None => (b, PubBlocked (Sequence f) ids)
          | Some None => fan_out cx (S i) f rest b
          | Some (Some e) =>
              if decide (e = ErrSubscriptionDone) then fan_out cx (S i) f rest b
              else (b, PubDone (Sequence f) (Some e))
          end
      end
  end.

(** [Publish] up to [b.mu.Lock]: the checks, and the sequence number and the
    timestamp, which are taken outside the lock. *)
Definition publish_begin (cx : ctx) (now : time) (f : Frame) b : InMemory * res Frame :=
  if decide (Topic f = "") then (b, Err ErrInvalidTopic)
  else if MaxPayloadBytes (b_config b) <? Z.of_nat (length (Payload f))
  then (b, Err ErrPayloadTooLarge)
  else
    match cx 0%nat with
    | Some e => (b, Err e)
    | None =>
        let seq := u64 (b_seq b + 1) in
        (set_seq b seq, Ok (stamp now seq f))
    end.

(** The critical section of [Publish]: it collects the targets and appends the
    frame to the journal of its topic. *)
Definition publish_locked (f : Frame) b : InMemory * res (gset Z) :=
  if b_closed b then (b, Err ErrClosed)
  else (journal_add f b, Ok (targets (Topic f) b)).

(** [Publish] when nothing runs between its parts; other goroutines may run
    between them, as [stream_step] of StreamProps.v lets them. *)
Definition stream_Publish (cx : ctx) (now : time) (order : gset Z -> list Z) (f : Frame) b
    : InMemory * pub_result :=
  match publish_begin cx now f b with
  | (b, Err e) => (b, PubDone 0 (Some e))
  | (b, Ok f) =>
      match publish_locked f b with
      | (b, Err e) => (b, PubDone 0 (Some e))
      | (b, Ok ids) => fan_out cx 1 f (order ids) b
      end
  end.

(** [remove], the callback of [Close]. *)
Definition remove (s : Subscription) b : InMemory :=
  let o := s_options s in
  if so_Prefix o then
    set_index b (b_exact b) (trie_remove (string_bytes (so_Topic o)) (s_id s) (b_prefix b))
  else
    match b_exact b !! so_Topic o with
    | None => b
    | Some ids =>
        let ids := ids ∖ {[s_id s]} in
        if decide (ids = ∅) then set_index b (delete (so_Topic o) (b_exact b)) (b_prefix b)
        else set_index b (<[so_Topic o := ids]> (b_exact b)) (b_prefix b)
    end.

(** [sub.Close()], by its owner or when its context is done. *)
Definition close_sub (id : Z) b : InMemory :=
  match b_subs b !! id with
  | None => b
  | Some s =>
      if s_closed s then b
      else remove s (set_heap b (<[id := Subscription_Close s]> (b_subs b)))
  end.

(** The options as [Subscribe] adjusts them, or its error. *)
Definition subscribe_options (o : SubscribeOptions) (c : Config) : res SubscribeOptions :=
  if decide (so_Topic o = "") then Err ErrInvalidTopic
  else
    let buffer := if so_Buffer o =? 0 then DefaultBuffer c else so_Buffer o in
    if (buffer <? 1) || (MaxBuffer c <? buffer) then Err ErrInvalidBuffer
    else
      let replay := if so_Replay o <? 0 then 0 else so_Replay o in
      Ok (mkSubOpts (so_Topic o) (so_Prefix o) buffer (so_Overflow o)
            (if so_Prefix o then 0 else replay) (if so_Prefix o then 0 else so_Since o)).

(** The frames to replay, or [ErrReplayUnavailable]. *)
Definition replay_for (o : SubscribeOptions) b : res (list Frame) :=
  match b_replay b !! so_Topic o with
  | Some journal =>
      if 0 <? so_Since o then
        let '(replay, gap) := replay_after (so_Since o) journal in
        if gap || (so_Buffer o <? Z.of_nat (length replay)) then Err ErrReplayUnavailable
        else Ok replay
      else if 0 <? so_Replay o then Ok (replay_last (Z.to_nat (so_Replay o)) journal)
      else Ok []
  | None =>
      if (0 <? so_Since o) && (ReplayCapacity (b_config b) =? 0) then Err ErrReplayUnavailable
      else Ok []
  end.

(** Enter a subscription into the index of its kind. *)
Definition register (id : Z) (o : SubscribeOptions) b : InMemory :=
  if so_Prefix o then
    set_index b (b_exact b) (trie_insert (string_bytes (so_Topic o)) id (b_prefix b))
  else
    set_index b (<[so_Topic o := {[id]} ∪ default ∅ (b_exact b !! so_Topic o)]> (b_exact b)) (b_prefix b).

Definition stream_Subscribe (cx : ctx) (o : SubscribeOptions) b : InMemory * res Z :=
  match subscribe_options o (b_config b) with
  | Err e => (b, Err e)
  | Ok o =>
      match cx 0%nat with
      | Some e => (b, Err e)
      | None =>
          let id := u64 (b_subSeq b + 1) in
          let b := set_subSeq b id in
          if b_closed b then (b, Err ErrClosed)
          else
            match replay_for o b with
            | Err e => (b, Err e)
            | Ok replay =>
                let sub := newSubscription id o in
                let sub := match replay with [] => sub | _ => preload replay sub end in
                (register id o (set_heap b (<[id := sub]> (b_subs b))), Ok id)
            end
      end
  end.

(** All subscriptions of both indices. *)
Definition all_subs b : gset Z :=
  map_fold (fun _ ids acc => ids ∪ acc) ∅ (b_exact b) ∪ collectPrefixSubscriptions (b_prefix b).

Definition stream_Close (order : gset Z -> list Z) b : InMemory :=
  if b_closed b then b
  else
    let ids := order (all_subs b) in
    foldl (fun b id => close_sub id b) (set_index (set_bclosed b) ∅ newPrefixNode) ids.

(** The subscription's goroutine or consumer moves. *)
Definition sub_moves (id : Z) (s' : Subscription) b : InMemory := set_heap b (<[id := s']> (b_subs b)).
