(* ===== verification/StreamProps.v ===== *)
(** * StreamProps: the stream bus delivers and resumes

    The trie is the set of prefix subscriptions, both indices list exactly the
    open subscriptions, the journals hold the last frames of each topic; hence
    what [Publish] delivers, what a resumed subscription receives and what
    [Close] leaves. *)

From stdpp Require Import sorting.
From S2P Require Import Prelude Bytes StreamTypes StreamQueue StreamSub StreamBus.
Open Scope Z_scope.

(** ** The trie as a relation between paths and subscriptions *)

Fixpoint trie_at (path : list Byte.byte) (n : prefixNode) : gset Z :=
  match path with
  | [] => pn_subs n
  | c :: path => match pn_children n !! c with None => ∅ | Some child => trie_at path child end
  end.

Lemma trie_at_new path : trie_at path newPrefixNode = ∅.
Proof. by destruct path. Qed.

Lemma trie_at_insert p q id n :
  trie_at q (trie_insert p id n) = if decide (q = p) then {[id]} ∪ trie_at q n else trie_at q n.
Proof.
  revert q n. induction p as [|c p IH]; intros q n; destruct q as [|d q]; simpl; try done.
  destruct (decide (c = d)) as [->|Hne].
  - rewrite lookup_insert_eq, IH.
    assert (trie_at q (default newPrefixNode (pn_children n !! d)) =
      match pn_children n !! d with Some child => trie_at q child | None => ∅ end) as ->
      by (destruct (pn_children n !! d); [done|apply trie_at_new]).
    destruct (decide (q = p)), (decide (d :: q = d :: p)); try congruence; done.
  - rewrite lookup_insert_ne by done. by rewrite decide_False by congruence.
Qed.

Lemma trie_at_remove p q id n :
  trie_at q (trie_remove p id n) = if decide (q = p) then trie_at q n ∖ {[id]} else trie_at q n.
Proof.
  revert q n. induction p as [|c p IH]; intros q n; destruct q as [|d q]; simpl; try done.
  - by destruct (pn_children n !! c).
  - destruct (pn_children n !! c) as [child|] eqn:Ec; simpl.
    + destruct (decide (c = d)) as [->|Hne].
      * rewrite lookup_insert_eq, Ec, IH.
        destruct (decide (q = p)), (decide (d :: q = d :: p)); try congruence; done.
      * rewrite lookup_insert_ne by done. by rewrite decide_False by congruence.
    + destruct (decide (c = d)) as [->|Hne].
      * rewrite Ec. case_decide; [|done]. set_solver.
      * by rewrite decide_False by congruence.
Qed.

(** [Publish] finds the subscriptions of every non-empty prefix of the topic. *)
Lemma trie_match_spec path n id :
  id ∈ trie_match path n <-> exists q, q <> [] /\ q `prefix_of` path /\ id ∈ trie_at q n.
Proof.
  revert n. induction path as [|c path IH]; intros n; simpl.
  { split; [set_solver|]. intros (q & Hq & ->%prefix_nil_inv & _). done. }
  destruct (pn_children n !! c) as [child|] eqn:Ec.
  - rewrite elem_of_union, IH. split.
    + intros [H|(q & Hq & Hp & H)].
      * exists [c]. split; [done|]. split; [by apply prefix_cons, prefix_nil|]. simpl. by rewrite Ec.
      * exists (c :: q). split; [done|]. split; [by apply prefix_cons|]. simpl. by rewrite Ec.
    + intros (q & Hq & Hp & H). destruct q as [|d q]; [done|].
      pose proof (prefix_cons_inv_1 _ _ _ _ Hp) as ->. apply prefix_cons_inv_2 in Hp.
      simpl in H. rewrite Ec in H. destruct q as [|e q]; [by left|right]. by exists (e :: q).
  - split; [set_solver|]. intros (q & Hq & Hp & H). destruct q as [|d q]; [done|].
    pose proof (prefix_cons_inv_1 _ _ _ _ Hp) as ->. simpl in H. rewrite Ec in H. set_solver.
Qed.

Fixpoint trie_size (n : prefixNode) : nat :=
  S (map_fold (fun _ child acc => (trie_size child + acc)%nat) 0%nat (pn_children n)).

Lemma trie_size_child n c child : pn_children n !! c = Some child -> (trie_size child < trie_size n)%nat.
Proof.
  intros H. destruct n as [s ch]. simpl in *.
  rewrite (map_fold_delete_L _ _ c child); [lia| |done]. intros. lia.
Qed.

Lemma elem_of_map_fold_union {K A} `{Countable K} (f : A -> gset Z) (init : gset Z) (m : gmap K A) id :
  id ∈ map_fold (fun _ a acc => f a ∪ acc) init m <-> id ∈ init \/ exists k a, m !! k = Some a /\ id ∈ f a.
Proof.
  induction m as [|k a m Hk Hf IH] using map_first_key_ind.
  { rewrite map_fold_empty. split; [by left|]. intros [?|(k & a & Hk & _)]; [done|]. by rewrite lookup_empty in Hk. }
  rewrite map_fold_insert_L; [|set_solver|done]. rewrite elem_of_union, IH. split.
  - intros [Hid|[Hid|(k' & a' & Hk' & Hid)]]; [right|by left|right].
    + exists k, a. by rewrite lookup_insert_eq.
    + exists k', a'. by rewrite lookup_insert_ne by congruence.
  - intros [Hid|(k' & a' & [[<- <-]|[Hne Hk']]%lookup_insert_Some & Hid)]; [by right; left|by left|].
    right. right. by eauto.
Qed.

Lemma collect_spec n id : id ∈ collectPrefixSubscriptions n <-> exists q, id ∈ trie_at q n.
Proof.
  remember (trie_size n) as k eqn:Hk. revert n Hk. induction k as [k IH] using lt_wf_ind. intros n ->.
  destruct n as [s ch]. simpl. rewrite elem_of_map_fold_union. split.
  - intros [H|(c & child & Hc & H)]; [by exists []|].
    apply (IH (trie_size child)) in H as [q Hq]; [|by apply (trie_size_child (Node s ch) c)|done].
    exists (c :: q). simpl. by rewrite Hc.
  - intros [[|c q] H]; simpl in H; [by left|]. destruct (ch !! c) as [child|] eqn:Hc; [|set_solver].
    right. exists c, child. split; [done|].
    apply (IH (trie_size child)); [by apply (trie_size_child (Node s ch) c)|done|by exists q].
Qed.

(** ** Invariant *)

(** The subscription is open and in the index at the given place. *)
Definition live (s : Subscription) (prefix : bool) (topic : string) : Prop :=
  s_closed s = false /\ so_Prefix (s_options s) = prefix /\ so_Topic (s_options s) = topic.

Record static_ok (id : Z) (s : Subscription) : Prop := {
  st_id : s_id s = id;
  st_inv : sub_inv s;
  st_topic : so_Topic (s_options s) <> "";
}.

(** The indices list exactly the open subscriptions. *)
Record index_inv (exact : gmap string (gset Z)) (prefix : prefixNode) (heap : gmap Z Subscription) : Prop := {
  iv_exact : forall t id, id ∈ default ∅ (exact !! t) <-> exists s, heap !! id = Some s /\ live s false t;
  iv_prefix : forall q id, id ∈ trie_at q prefix <->
    exists s t, heap !! id = Some s /\ live s true t /\ q = string_bytes t;
}.

(** The journals hold what the log of accepted frames says. *)
Definition journal_inv (cap : Z) (replay : gmap string replayBuffer) (log : list Frame) : Prop :=
  0 < cap -> forall t,
    match replay !! t with
    | Some r => rb_rel (Z.to_nat cap) r (filter (fun f => Topic f = t) log)
    | None => filter (fun f => Topic f = t) log = []
    end.

Record stream_inv (b : InMemory) (log : list Frame) : Prop := {
  sv_heap : forall id s, b_subs b !! id = Some s -> static_ok id s /\ id <= b_subSeq b;
  sv_index : index_inv (b_exact b) (b_prefix b) (b_subs b);
  sv_journal : journal_inv (ReplayCapacity (b_config b)) (b_replay b) log;
  sv_closed : b_closed b = true -> forall id s, b_subs b !! id = Some s -> s_closed s = true;
  sv_config : 1 <= DefaultBuffer (b_config b);
}.

Lemma string_bytes_inj s t : string_bytes s = string_bytes t -> s = t.
Proof. intros H. by rewrite <- (bytes_string_bytes s), H, bytes_string_bytes. Qed.

(** Replacing a subscription by one with the same place in the indices. *)
Lemma index_inv_update exact prefix heap id s s' :
  heap !! id = Some s -> s_options s' = s_options s -> s_closed s' = s_closed s ->
  index_inv exact prefix heap -> index_inv exact prefix (<[id := s']> heap).
Proof.
  intros Hs Ho Hc [H1 H2].
  assert (forall p t i, (exists s, <[id := s']> heap !! i = Some s /\ live s p t) <->
    (exists s, heap !! i = Some s /\ live s p t)) as Hlive.
  { intros p t i. unfold live. destruct (decide (id = i)) as [<-|Hne].
    - rewrite lookup_insert_eq, Hs. split; intros (x & [= <-] & Hx);
        [exists s|exists s']; (split; [done|]); rewrite ?Ho, ?Hc in *; done.
    - by rewrite lookup_insert_ne. }
  split.
  - intros t i. by rewrite H1, Hlive.
  - intros q i. rewrite H2. split; intros (x & t & Hx & Hl & ->).
    + destruct (proj2 (Hlive true t i)) as (y & Hy & Hly); [by eauto|]. by eauto.
    + destruct (proj1 (Hlive true t i)) as (y & Hy & Hly); [by eauto|]. by eauto.
Qed.

(** Registering a new subscription. *)
Lemma index_inv_register b id s :
  b_subs b !! id = None -> s_closed s = false -> index_inv (b_exact b) (b_prefix b) (b_subs b) ->
  let b' := register id (s_options s) (set_heap b (<[id := s]> (b_subs b))) in
  index_inv (b_exact b') (b_prefix b') (b_subs b').
Proof.
  intros Hid Hc [H1 H2].
  assert (forall p t i, (exists s0, <[id := s]> (b_subs b) !! i = Some s0 /\ live s0 p t) <->
    (i = id /\ live s p t) \/ exists s0, b_subs b !! i = Some s0 /\ live s0 p t) as Hlive.
  { intros p t i. destruct (decide (i = id)) as [->|Hne].
    - rewrite lookup_insert_eq, Hid. naive_solver.
    - rewrite lookup_insert_ne by done. naive_solver. }
  assert (forall q i, (exists s0 t, <[id := s]> (b_subs b) !! i = Some s0 /\ live s0 true t /\ q = string_bytes t) <->
    (i = id /\ live s true (bytes_string q)) \/ i ∈ trie_at q (b_prefix b)) as Hpre.
  { intros q i. rewrite H2. split.
    - intros (s0 & t & Hs0 & Hl & ->). destruct (proj1 (Hlive true t i)) as [[-> Hl']|(y & Hy & Hly)]; [by eauto| |].
      + left. by rewrite bytes_string_bytes.
      + right. by eauto.
    - intros [[-> Hl]|(s0 & t & Hs0 & Hl & ->)].
      + exists s, (bytes_string q). rewrite lookup_insert_eq, string_bytes_string. done.
      + destruct (proj2 (Hlive true t i)) as (y & Hy & Hly); [by eauto|]. by eauto. }
  unfold register. destruct (so_Prefix (s_options s)) eqn:Ep; simpl; split.
  - intros t i. rewrite H1, Hlive. unfold live at 2. rewrite Ep. naive_solver.
  - intros q i. rewrite Hpre, trie_at_insert. unfold live. rewrite Ep, Hc.
    destruct (decide (q = string_bytes (so_Topic (s_options s)))) as [->|Hne].
    + rewrite bytes_string_bytes. set_solver.
    + split; [by auto|]. intros [(_ & _ & _ & E)|?]; [|done]. by rewrite E, string_bytes_string in Hne.
  - intros t i. rewrite Hlive, <- H1. unfold live. rewrite Ep, Hc.
    destruct (decide (so_Topic (s_options s) = t)) as [->|Hne].
    + rewrite lookup_insert_eq. simpl. set_solver.
    + rewrite lookup_insert_ne by done. naive_solver.
  - intros q i. rewrite Hpre. unfold live. rewrite Ep. naive_solver.
Qed.

(** Closing a subscription takes it out of its index. *)
Lemma index_inv_close b id s :
  b_subs b !! id = Some s -> s_id s = id -> s_closed s = false -> index_inv (b_exact b) (b_prefix b) (b_subs b) ->
  let b' := remove s (set_heap b (<[id := Subscription_Close s]> (b_subs b))) in
  index_inv (b_exact b') (b_prefix b') (b_subs b').
Proof.
  intros Hs Hid Hc [H1 H2].
  assert (forall p t i, (exists s0, <[id := Subscription_Close s]> (b_subs b) !! i = Some s0 /\ live s0 p t) <->
    i <> id /\ exists s0, b_subs b !! i = Some s0 /\ live s0 p t) as Hlive.
  { intros p t i. destruct (decide (i = id)) as [->|Hne].
    - rewrite lookup_insert_eq. split; [|naive_solver]. intros (s0 & [= <-] & [Hl _]). done.
    - rewrite lookup_insert_ne by done. naive_solver. }
  assert (forall q i, (exists s0 t, <[id := Subscription_Close s]> (b_subs b) !! i = Some s0 /\ live s0 true t /\
      q = string_bytes t) <-> i <> id /\ i ∈ trie_at q (b_prefix b)) as Hpre.
  { intros q i. rewrite H2. split.
    - intros (s0 & t & Hs0 & Hl & ->). destruct (proj1 (Hlive true t i)) as [Hi (y & Hy & Hly)]; [by eauto|].
      split; [done|]. by eauto.
    - intros [Hi (s0 & t & Hs0 & Hl & ->)].
      destruct (proj2 (Hlive true t i)) as (y & Hy & Hly); [by eauto|]. by eauto. }
  assert (forall t i, so_Prefix (s_options s) = true \/ so_Topic (s_options s) <> t ->
    i ∈ default ∅ (b_exact b !! t) -> i <> id) as Hother.
  { intros t i Hd Hi ->. apply H1 in Hi as (s0 & Hs0 & _ & Hp & Ht). simplify_eq.
    destruct Hd as [Hd|Hd]; [congruence|done]. }
  unfold remove. destruct (so_Prefix (s_options s)) eqn:Ep; simpl.
  - split; simpl.
    + intros t i. rewrite Hlive, <- H1. naive_solver.
    + intros q i. rewrite Hpre, trie_at_remove, Hid. case_decide as Hq; [set_solver|].
      split; [|naive_solver]. intros Hi. split; [|done]. intros ->.
      apply H2 in Hi as (s0 & t & Hs0 & (_ & _ & Ht) & ->). simplify_eq.
  - assert (forall q i, i ∈ trie_at q (b_prefix b) -> i <> id) as Hnot.
    { intros q i Hi ->. apply H2 in Hi as (s0 & t & Hs0 & (_ & Hp & _) & _). simplify_eq. congruence. }
    assert (id ∈ default ∅ (b_exact b !! so_Topic (s_options s))) as Hin
      by (apply H1; exists s; by repeat split).
    destruct (b_exact b !! so_Topic (s_options s)) as [ids|] eqn:Ex; simpl in Hin; [|set_solver].
    assert (forall ex, (forall t, default ∅ (ex !! t) =
      if decide (so_Topic (s_options s) = t) then ids ∖ {[id]} else default ∅ (b_exact b !! t)) ->
      index_inv ex (b_prefix b) (<[id := Subscription_Close s]> (b_subs b))) as Hex.
    { intros ex He. split.
      - intros t i. rewrite He, Hlive, <- H1. case_decide as Ht; [subst t; rewrite Ex; set_solver|]. naive_solver.
      - intros q i. rewrite Hpre. naive_solver. }
    rewrite Hid. case_decide as He; simpl; apply Hex; intros t; case_decide as Ht; subst.
    + by rewrite lookup_delete_eq, He.
    + by rewrite lookup_delete_ne.
    + by rewrite lookup_insert_eq.
    + by rewrite lookup_insert_ne.
Qed.

(** ** The operations keep the invariant *)

(** The identity, the options and the flag of a subscription. *)
Definition same_place (s s' : Subscription) : Prop :=
  s_id s' = s_id s /\ s_options s' = s_options s /\ s_closed s' = s_closed s.

Lemma preload_place fs s : same_place s (preload fs s).
Proof.
  unfold preload. assert (same_place s (foldl preload_frame s fs)) as H; [|by case_match].
  revert s. induction fs as [|f fs IH]; intros s; [done|]. simpl.
  assert (same_place s (preload_frame s f)) as (E1 & E2 & E3).
  { unfold preload_frame. destruct (fq_push f (s_queue s)) as [q []]; [done|].
    destruct (fq_popOldest q) as [q1 g]. by destruct (fq_push f q1). }
  destruct (IH (preload_frame s f)) as (F1 & F2 & F3). repeat split; congruence.
Qed.

Lemma enqueue_try_place f s : same_place s (fst (enqueue_try f s)).
Proof.
  unfold enqueue_try. destruct (s_closed s) eqn:Ec; [by repeat split; rewrite ?Ec|].
  destruct (fq_push f (s_queue s)) as [q []]; [by repeat split; simpl; rewrite ?Ec|].
  repeat case_match; by repeat split; simpl; rewrite ?Ec.
Qed.

Lemma enqueue_eq cx f s : fst (enqueue cx f s) = fst (enqueue_try f s).
Proof. unfold enqueue. destruct (enqueue_try f s) as [s' [r|]]; [done|]. by destruct (cx 0%nat). Qed.

Lemma stream_inv_move b log id s s' :
  b_subs b !! id = Some s -> same_place s s' -> sub_inv s' -> stream_inv b log ->
  stream_inv (sub_moves id s' b) log.
Proof.
  intros Hs (E1 & E2 & E3) Hi [H1 H2 H5 H6 H7]. split; simpl; try done.
  - intros i x. destruct (decide (id = i)) as [<-|Hne].
    + rewrite lookup_insert_eq. intros [= <-]. destruct (H1 _ _ Hs) as [[F1 F2 F3] F4].
      split; [|done]. split; [congruence|done|by rewrite E2].
    + rewrite lookup_insert_ne by done. apply H1.
  - by eapply index_inv_update.
  - intros Hc i x. destruct (decide (id = i)) as [<-|Hne].
    + rewrite lookup_insert_eq. intros [= <-]. rewrite E3. by eapply H6.
    + rewrite lookup_insert_ne by done. by apply H6.
Qed.

Lemma fan_out_inv cx i f ids b log : stream_inv b log -> stream_inv (fst (fan_out cx i f ids b)) log.
Proof.
  revert i b. induction ids as [|id ids IH]; intros i b Hi; simpl; [done|].
  destruct (b_subs b !! id) as [s|] eqn:Es; [|by apply IH].
  destruct (enqueue (after i cx) f s) as [s' r] eqn:Ee.
  assert (s' = fst (enqueue_try f s)) as -> by (by rewrite <- (enqueue_eq (after i cx)), Ee).
  assert (stream_inv (set_heap b (<[id := (enqueue_try f s).1]> (b_subs b))) log) as Hn.
  { apply (stream_inv_move b log id s); [done|apply enqueue_try_place| |done].
    eapply sub_step_inv; [apply ss_enqueue|]. destruct (sv_heap _ _ Hi _ _ Es) as [Hst _]. apply (st_inv _ _ Hst). }
  destruct r as [[e|]|]; [case_decide| |]; simpl; try done; by apply IH.
Qed.

Lemma journal_add_inv b log f : stream_inv b log -> stream_inv (journal_add f b) (log ++ [f]).
Proof.
  intros [H1 H2 H5 H6 H7]. unfold journal_add. destruct (0 <? ReplayCapacity (b_config b)) eqn:Ecap; bool_to_prop.
  - split; simpl; try done. intros _ t. specialize (H5 Ecap). rewrite filter_app.
    assert (filter (fun g => Topic g = t) [f] = if decide (Topic f = t) then [f] else []) as -> by done.
    destruct (decide (Topic f = t)) as [<-|Hne].
    + rewrite lookup_insert_eq. apply replay_add_rel. specialize (H5 (Topic f)).
      destruct (b_replay b !! Topic f); [done|]. rewrite H5. apply newReplay_rel. lia.
    + rewrite lookup_insert_ne, app_nil_r by done. apply H5.
  - split; simpl; try done. intros Hc. lia.
Qed.

(** The frame a publication stamps, when its checks pass. *)
Definition numbered (cx : ctx) (now : time) (f : Frame) b : option Frame :=
  match publish_begin cx now f b with (_, Ok g) => Some g | (_, Err _) => None end.

(** The frame a publication gives out, when it is accepted. *)
Definition accepted (cx : ctx) (now : time) (f : Frame) b : option Frame :=
  if b_closed b then None else numbered cx now f b.

Lemma publish_begin_eq cx now f b :
  fst (publish_begin cx now f b) = b /\ numbered cx now f b = None \/
  publish_begin cx now f b = (set_seq b (u64 (b_seq b + 1)), Ok (stamp now (u64 (b_seq b + 1)) f)) /\
    numbered cx now f b = Some (stamp now (u64 (b_seq b + 1)) f).
Proof. unfold numbered, publish_begin. repeat case_match; simplify_eq; try (by left); by right. Qed.

Lemma stream_publish_begin_inv cx now f b log : stream_inv b log -> stream_inv (fst (publish_begin cx now f b)) log.
Proof.
  intros Hi. destruct (publish_begin_eq cx now f b) as [[-> _]|[-> _]]; [done|].
  destruct Hi as [H1 H2 H5 H6 H7]. by split.
Qed.

Lemma publish_locked_inv f b log :
  stream_inv b log -> stream_inv (fst (publish_locked f b)) (log ++ if b_closed b then [] else [f]).
Proof.
  intros Hi. unfold publish_locked. destruct (b_closed b); [by rewrite app_nil_r|]. by apply journal_add_inv.
Qed.

Lemma subscribe_options_ok o c o' :
  subscribe_options o c = Ok o' -> so_Topic o' <> "" /\ 1 <= so_Buffer o' /\ so_Topic o' = so_Topic o /\
    so_Prefix o' = so_Prefix o /\ (so_Prefix o = false -> so_Since o' = so_Since o).
Proof.
  unfold subscribe_options. case_decide; [done|]. case_match eqn:E; [done|]. intros [= <-]. simpl.
  bool_to_prop. split_and!; try done. by intros ->.
Qed.

Lemma stream_Subscribe_inv cx o b log :
  0 <= b_subSeq b -> b_subSeq b + 1 < 2 ^ 64 -> stream_inv b log ->
  stream_inv (fst (stream_Subscribe cx o b)) log.
Proof.
  intros Hs0 Hs1 Hi. unfold stream_Subscribe.
  destruct (subscribe_options o (b_config b)) as [o'|] eqn:Eo; [|done].
  destruct (subscribe_options_ok _ _ _ Eo) as (Ht & Hb & _).
  destruct (cx 0%nat); [done|]. cbn [b_closed set_subSeq].
  assert (u64 (b_subSeq b + 1) = b_subSeq b + 1) as -> by (apply u64_id; unfold is_u64; lia).
  assert (stream_inv (set_subSeq b (b_subSeq b + 1)) log) as Hi1.
  { destruct Hi as [H1 H2 H5 H6 H7]. split; simpl; try done.
    intros id s Hs. destruct (H1 _ _ Hs). split; [done|lia]. }
  destruct (b_closed b) eqn:Ec; [done|]. destruct (replay_for o' _) as [replay|]; [|done]. simpl.
  set (sub := match replay with [] => _ | _ => _ end).
  assert (same_place (newSubscription (b_subSeq b + 1) o') sub) as (E1 & E2 & E3)
    by (unfold sub; destruct replay; [done|apply preload_place]).
  assert (sub_inv sub) as Hsub.
  { assert (sub_inv (newSubscription (b_subSeq b + 1) o')) as Hn
      by (exists [], 0%nat, 0%nat, 0%nat; by apply newSubscription_ok).
    unfold sub. destruct replay; [done|]. by apply preload_inv. }
  simpl in E1, E2, E3. clearbody sub.
  assert (b_subs b !! (b_subSeq b + 1) = None) as Hfresh.
  { destruct (b_subs b !! (b_subSeq b + 1)) as [x|] eqn:Ex; [|done]. destruct (sv_heap _ _ Hi _ _ Ex). lia. }
  pose proof (index_inv_register (set_subSeq b (b_subSeq b + 1)) (b_subSeq b + 1) sub Hfresh E3 (sv_index _ _ Hi)) as Hx.
  rewrite E2 in Hx. destruct Hi1 as [H1 H2 H5 H6 H7].
  assert (forall bb, b_subs bb = <[b_subSeq b + 1 := sub]> (b_subs b) -> b_config bb = b_config b ->
    b_replay bb = b_replay b -> b_seq bb = b_seq b -> b_subSeq bb = b_subSeq b + 1 -> b_closed bb = b_closed b ->
    index_inv (b_exact bb) (b_prefix bb) (b_subs bb) -> stream_inv bb log) as Hb'.
  { intros bb F1 F2 F3 F4 F5 F6 F7. split; rewrite ?F2, ?F3, ?F4, ?F5; try done.
    - rewrite F1. intros id s [[<- <-]|[Hne Hs]]%lookup_insert_Some; [|by apply H1].
      split; [split; [done|done|by rewrite E2]|lia].
    - rewrite F6, Ec. done. }
  apply Hb'; [by (unfold register; destruct (so_Prefix o'))..|exact Hx].
Qed.

Lemma close_sub_inv id b log : stream_inv b log -> stream_inv (close_sub id b) log.
Proof.
  intros Hi. unfold close_sub. destruct (b_subs b !! id) as [s|] eqn:Es; [|done].
  destruct (s_closed s) eqn:Ec; [done|]. destruct (sv_heap _ _ Hi _ _ Es) as [[F1 F2 F3] F4].
  pose proof (index_inv_close b id s Es F1 Ec (sv_index _ _ Hi)) as Hx.
  destruct Hi as [H1 H2 H5 H6 H7]. set (b' := remove _ _) in *.
  assert (b_subs b' = <[id := Subscription_Close s]> (b_subs b) /\ b_config b' = b_config b /\
    b_replay b' = b_replay b /\ b_seq b' = b_seq b /\ b_subSeq b' = b_subSeq b /\ b_closed b' = b_closed b)
    as (G1 & G2 & G3 & G4 & G5 & G6) by (unfold b', remove; by repeat case_match).
  split; rewrite ?G2, ?G3, ?G4, ?G5, ?G6; try done.
  - rewrite G1. intros i x [[<- <-]|[Hne Hx']]%lookup_insert_Some; [|by apply H1].
    split; [|done]. split; [done| |done]. eapply sub_step_inv; [apply ss_close|done].
  - intros Hc. rewrite G1. intros i x [[<- <-]|[Hne Hx']]%lookup_insert_Some; [done|]. by eapply H6.
Qed.

(** An iteration order lists the elements of the set. *)
Definition enumerates_ids (order : gset Z -> list Z) : Prop := forall X, order X ≡ₚ elements X.

Lemma enumerates_elem order X id : enumerates_ids order -> id ∈ order X <-> id ∈ X.
Proof. intros Ho. by rewrite (Ho X), elem_of_elements. Qed.

Lemma Subscription_Close_id s : s_closed s = true -> Subscription_Close s = s.
Proof. destruct s. simpl. by intros ->. Qed.

Lemma Subscription_Close_idemp s : Subscription_Close (Subscription_Close s) = Subscription_Close s.
Proof. done. Qed.

Lemma trie_remove_new path id : trie_remove path id newPrefixNode = newPrefixNode.
Proof. destruct path; [|done]. unfold newPrefixNode. simpl. f_equal. set_solver. Qed.

(** Closing a subscription when the indices are already empty. *)
Lemma close_sub_emptied id b :
  b_exact b = ∅ -> b_prefix b = newPrefixNode ->
  close_sub id b = set_heap b (alter Subscription_Close id (b_subs b)).
Proof.
  intros Hx Hp. unfold close_sub. destruct (b_subs b !! id) as [s|] eqn:Es.
  - assert (alter Subscription_Close id (b_subs b) = <[id := Subscription_Close s]> (b_subs b)) as ->.
    { apply map_eq. intros i. destruct (decide (id = i)) as [<-|Hne].
      - by rewrite lookup_alter_eq, lookup_insert_eq, Es.
      - by rewrite lookup_alter_ne, lookup_insert_ne. }
    destruct (s_closed s) eqn:Ec.
    + rewrite (Subscription_Close_id s Ec), insert_id by done. by destruct b.
    + unfold remove. simpl. rewrite Hx, Hp, trie_remove_new, lookup_empty.
      destruct (so_Prefix _); [|done]. unfold set_index, set_heap. simpl. by rewrite Hx, Hp.
  - assert (alter Subscription_Close id (b_subs b) = b_subs b) as ->.
    { apply map_eq. intros i. destruct (decide (id = i)) as [<-|Hne].
      - by rewrite lookup_alter_eq, Es.
      - by rewrite lookup_alter_ne. }
    by destruct b.
Qed.

Lemma close_all_emptied ids b :
  b_exact b = ∅ -> b_prefix b = newPrefixNode ->
  exists heap, foldl (fun b id => close_sub id b) b ids = set_heap b heap /\
    forall i, heap !! i = if decide (i ∈ ids) then Subscription_Close <$> b_subs b !! i else b_subs b !! i.
Proof.
  revert b. induction ids as [|id ids IH]; intros b Hx Hp.
  { exists (b_subs b). split; [by destruct b|]. intros i. by rewrite decide_False by (apply not_elem_of_nil). }
  simpl. rewrite close_sub_emptied by done.
  destruct (IH (set_heap b (alter Subscription_Close id (b_subs b)))) as (heap & -> & Hh); [done|done|].
  exists heap. split; [done|]. intros i. rewrite Hh. simpl.
  destruct (decide (i = id)) as [->|Hne].
  - rewrite lookup_alter_eq, (decide_True (P := id ∈ id :: ids)) by (by left).
    destruct (b_subs b !! id); simpl; [|by case_decide]. by case_decide.
  - rewrite lookup_alter_ne by done. destruct (decide (i ∈ ids)).
    + by rewrite decide_True by (by right).
    + rewrite decide_False; [done|]. rewrite elem_of_cons. naive_solver.
Qed.

Lemma live_in_all_subs b log id s :
  stream_inv b log -> b_subs b !! id = Some s -> s_closed s = false -> id ∈ all_subs b.
Proof.
  intros Hi Hs Hc. unfold all_subs. rewrite elem_of_union, (elem_of_map_fold_union (fun ids : gset Z => ids)), collect_spec.
  destruct (sv_index _ _ Hi) as [H1 H2]. destruct (so_Prefix (s_options s)) eqn:Ep.
  - right. exists (string_bytes (so_Topic (s_options s))). apply H2. eexists s, _. by repeat split.
  - left. right. assert (id ∈ default ∅ (b_exact b !! so_Topic (s_options s))) as Hin
      by (apply H1; exists s; by repeat split).
    destruct (b_exact b !! so_Topic (s_options s)) as [ids|] eqn:Ex; simpl in Hin; [|set_solver]. by eauto.
Qed.

(** What [Close] leaves: the same bus, closed, with empty indices and every
    subscription closed. *)
Lemma Close_effect order b log :
  enumerates_ids order -> stream_inv b log -> b_closed b = false ->
  exists heap, stream_Close order b = set_heap (set_index (set_bclosed b) ∅ newPrefixNode) heap /\
    forall i, heap !! i = Subscription_Close <$> b_subs b !! i.
Proof.
  intros Ho Hi Hc. unfold stream_Close. rewrite Hc.
  destruct (close_all_emptied (order (all_subs b)) (set_index (set_bclosed b) ∅ newPrefixNode))
    as (heap & -> & Hh); [done|done|]. exists heap. split; [done|].
  intros i. rewrite Hh. simpl. case_decide as Hin; [done|].
  destruct (b_subs b !! i) as [s|] eqn:Es; [|done]. simpl. f_equal.
  destruct (s_closed s) eqn:Ec; [by rewrite Subscription_Close_id|].
  exfalso. apply Hin, (enumerates_elem order _ _ Ho). by eapply live_in_all_subs.
Qed.

Lemma Close_inv order b log : enumerates_ids order -> stream_inv b log -> stream_inv (stream_Close order b) log.
Proof.
  intros Ho Hi. destruct (b_closed b) eqn:Ec; [unfold stream_Close; by rewrite Ec|].
  destruct (Close_effect order b log Ho Hi Ec) as (heap & -> & Hh).
  destruct Hi as [H1 H2 H5 H6 H7].
  assert (forall i x, heap !! i = Some x -> exists s, b_subs b !! i = Some s /\ x = Subscription_Close s) as Hx.
  { intros i x. rewrite Hh. by intros (s & Hs & ->)%fmap_Some_1; eauto. }
  split; simpl; try done.
  - intros i x (s & Hs & ->)%Hx. destruct (H1 _ _ Hs) as [[F1 F2 F3] F4]. split; [|done].
    split; [done| |done]. eapply sub_step_inv; [apply ss_close|done].
  - split.
    + intros t i. rewrite lookup_empty. simpl. split; [set_solver|].
      intros (x & (s & Hs & ->)%Hx & [Hl _]). done.
    + intros q i. rewrite trie_at_new. split; [set_solver|].
      intros (x & t & (s & Hs & ->)%Hx & [Hl _] & _). done.
  - intros _ i x (s & Hs & ->)%Hx. done.
Qed.

(** ** Reachable buses

    A bus with the log of the frames it journalled, or would have, in the order
    of the critical sections of [Publish], and the frames that have their number
    and whose publisher has not yet had the lock. The goroutines' steps
    interleave: a publisher takes its number, has the lock, and offers the frame
    to one target after the other ([sp_move] with [ss_enqueue]); subscribers,
    runners and [Close] take their steps in between. The sequence and the
    subscription counter are below their 64-bit bound. *)
Definition stream_state : Type := InMemory * (list Frame * list Frame).

Inductive stream_step : stream_state -> stream_state -> Prop :=
| sp_begin cx now f b log pend : b_seq b + 1 < 2 ^ 64 ->
    stream_step (b, (log, pend))
      (fst (publish_begin cx now f b), (log, pend ++ option_list (numbered cx now f b)))
| sp_locked f b log pend pend' :
    stream_step (b, (log, pend ++ f :: pend'))
      (fst (publish_locked f b), (log ++ (if b_closed b then [] else [f]), pend ++ pend'))
| sp_subscribe cx o b lp : b_subSeq b + 1 < 2 ^ 64 ->
    stream_step (b, lp) (fst (stream_Subscribe cx o b), lp)
| sp_close_sub id b lp : stream_step (b, lp) (close_sub id b, lp)
| sp_close order b lp : enumerates_ids order -> stream_step (b, lp) (stream_Close order b, lp)
| sp_move id s s' b lp : b_subs b !! id = Some s -> sub_step s s' -> same_place s s' ->
    stream_step (b, lp) (sub_moves id s' b, lp).

(** The numbers given out are distinct and none exceeds the counter. *)
Definition numbers_ok (seq : Z) (fs : list Frame) : Prop :=
  NoDup (Sequence <$> fs) /\ Forall (fun f => 1 <= Sequence f <= seq) fs.

Record stream_ok (st : stream_state) : Prop := {
  so_inv : stream_inv (fst st) (fst (snd st));
  so_subSeq : 0 <= b_subSeq (fst st);
  so_seq : 0 <= b_seq (fst st);
  so_numbers : numbers_ok (b_seq (fst st)) (fst (snd st) ++ snd (snd st));
}.

Lemma fan_out_counters cx i f ids b :
  b_subSeq (fst (fan_out cx i f ids b)) = b_subSeq b /\ b_seq (fst (fan_out cx i f ids b)) = b_seq b.
Proof.
  revert i b. induction ids as [|id ids IH]; intros i b; simpl; [done|].
  destruct (b_subs b !! id); [|apply IH]. destruct (enqueue _ _ _) as [s' r].
  destruct r as [[e|]|]; [case_decide; [|done]| |done]; apply (IH _ (set_heap b _)).
Qed.

Lemma publish_locked_counters f b :
  b_subSeq (fst (publish_locked f b)) = b_subSeq b /\ b_seq (fst (publish_locked f b)) = b_seq b.
Proof. unfold publish_locked, journal_add. by repeat case_match. Qed.

Lemma close_sub_counters id b : b_subSeq (close_sub id b) = b_subSeq b /\ b_seq (close_sub id b) = b_seq b.
Proof. unfold close_sub, remove. by repeat case_match. Qed.

Lemma Close_counters order b : b_subSeq (stream_Close order b) = b_subSeq b /\ b_seq (stream_Close order b) = b_seq b.
Proof.
  unfold stream_Close. destruct (b_closed b); [done|]. generalize (order (all_subs b)). intros ids.
  assert (forall bb, b_subSeq (foldl (fun b id => close_sub id b) bb ids) = b_subSeq bb /\
    b_seq (foldl (fun b id => close_sub id b) bb ids) = b_seq bb) as H;
    [|exact (H (set_index (set_bclosed b) ∅ newPrefixNode))].
  induction ids as [|id ids IH]; intros bb; [done|]. simpl. destruct (IH (close_sub id bb)) as [-> ->].
  apply close_sub_counters.
Qed.

Lemma stream_Subscribe_counters cx o b :
  0 <= b_subSeq b -> 0 <= b_subSeq (fst (stream_Subscribe cx o b)) /\ b_seq (fst (stream_Subscribe cx o b)) = b_seq b.
Proof.
  intros H. pose proof (u64_range (b_subSeq b + 1)) as [Hu _].
  unfold stream_Subscribe. repeat case_match; try done; unfold register; by case_match.
Qed.

Lemma numbers_ok_sub seq fs gs : gs ⊆+ fs -> numbers_ok seq fs -> numbers_ok seq gs.
Proof.
  intros (k & Hk)%submseteq_Permutation [Hn Hf]. rewrite Hk in Hf. rewrite Hk, fmap_app in Hn.
  apply NoDup_app in Hn as (Hn & _). apply Forall_app in Hf as [Hf _]. done.
Qed.

Lemma numbers_ok_next seq f fs : Sequence f = seq + 1 -> 0 <= seq -> numbers_ok seq fs -> numbers_ok (seq + 1) (fs ++ [f]).
Proof.
  intros Ef H0 [Hn Hf]. split.
  - rewrite fmap_app. apply NoDup_app. split_and!; [done| |apply NoDup_singleton].
    intros x (g & -> & Hg)%list_elem_of_fmap Hx%list_elem_of_singleton.
    eapply Forall_forall in Hf; [|exact Hg]. simpl in Hf. lia.
  - apply Forall_app. split; [|by repeat constructor; lia].
    eapply Forall_impl; [exact Hf|]. simpl. lia.
Qed.

Lemma stream_step_ok st st' : stream_step st st' -> stream_ok st -> stream_ok st'.
Proof.
  destruct 1 as [cx now f b log pend Hlt|f b log pend pend'|cx o b [log pend] Hlt|id b [log pend]
    |order b [log pend] Ho|id s s' b [log pend] Hs Hst Hp]; intros [Hi H0 H1 Hn]; cbn [fst snd] in *.
  - split; cbn [fst snd]; [by apply stream_publish_begin_inv|..];
      destruct (publish_begin_eq cx now f b) as [[Eb En]|[Eb En]]; rewrite ?Eb, ?En; cbn [option_list fst];
      rewrite ?app_nil_r; simpl; try done; rewrite u64_id by (unfold is_u64; lia); [lia|].
    rewrite app_assoc. by apply numbers_ok_next.
  - destruct (publish_locked_counters f b) as [E1 E2].
    split; cbn [fst snd]; rewrite ?E1, ?E2; [by apply publish_locked_inv|done..|].
    eapply numbers_ok_sub; [|exact Hn]. rewrite <- app_assoc. apply submseteq_app; [done|].
    destruct (b_closed b); simpl; [by apply submseteq_app; [|apply submseteq_cons]|]. by rewrite Permutation_middle.
  - destruct (stream_Subscribe_counters cx o b H0) as [E1 E2].
    split; cbn [fst snd]; rewrite ?E2; [by apply stream_Subscribe_inv|done..].
  - destruct (close_sub_counters id b) as [E1 E2].
    split; cbn [fst snd]; rewrite ?E1, ?E2; [by apply close_sub_inv|done..].
  - destruct (Close_counters order b) as [E1 E2].
    split; cbn [fst snd]; rewrite ?E1, ?E2; [by apply Close_inv|done..].
  - split; cbn [fst snd]; [|done..]. apply (stream_inv_move b log id s); [done|done| |done].
    eapply sub_step_inv; [exact Hst|]. destruct (sv_heap _ _ Hi _ _ Hs) as [Hx _]. apply (st_inv _ _ Hx).
Qed.

Lemma stream_New_ok c : stream_ok (stream_New c, ([], [])).
Proof.
  split; simpl; [|done|done|by split; constructor].
  destruct (Config_normalized_ok c) as [[Hd _] _]. split; simpl; try done.
  split; [intros t id|intros q id]; rewrite ?lookup_empty, ?trie_at_new; simpl; (split; [set_solver|]).
  - intros (s & Hs & _). by simplify_map_eq.
  - intros (s & t & Hs & _). by simplify_map_eq.
Qed.

Lemma stream_steps_ok st st' : rtc stream_step st st' -> stream_ok st -> stream_ok st'.
Proof. induction 1; eauto using stream_step_ok. Qed.

Lemma stream_reachable_ok c st : rtc stream_step (stream_New c, ([], [])) st -> stream_ok st.
Proof. intros H. exact (stream_steps_ok _ _ H (stream_New_ok c)). Qed.

Lemma stream_reachable c b lp : rtc stream_step (stream_New c, ([], [])) (b, lp) -> stream_inv b (fst lp).
Proof. intros H. exact (so_inv _ (stream_reachable_ok _ _ H)). Qed.

(** Every offer of a frame to a subscription is a step of the bus. *)
Lemma fan_out_steps cx i f ids b lp :
  stream_inv b (fst lp) -> rtc stream_step (b, lp) (fst (fan_out cx i f ids b), lp).
Proof.
  revert i b. induction ids as [|id ids IH]; intros i b Hi; cbn [fan_out]; [done|].
  destruct (b_subs b !! id) as [s|] eqn:Es; [|by apply IH].
  pose proof (sp_move id s (fst (enqueue_try f s)) b lp Es (ss_enqueue f s) (enqueue_try_place f s)) as Hstep.
  destruct (enqueue (after i cx) f s) as [s' r] eqn:Ee.
  assert (s' = fst (enqueue_try f s)) as -> by (by rewrite <- (enqueue_eq (after i cx)), Ee).
  assert (stream_inv (sub_moves id (fst (enqueue_try f s)) b) (fst lp)) as Hi'.
  { apply (stream_inv_move b _ id s); [done|apply enqueue_try_place| |done].
    eapply sub_step_inv; [apply ss_enqueue|]. destruct (sv_heap _ _ Hi _ _ Es) as [Hx _]. apply (st_inv _ _ Hx). }
  destruct r as [[e|]|]; [case_decide| |]; try (eapply rtc_l; [exact Hstep|]; by apply IH); by apply rtc_once.
Qed.

(** An uninterrupted [Publish] is a sequence of such steps. *)
Lemma stream_Publish_steps cx now order f b log pend :
  b_seq b + 1 < 2 ^ 64 -> stream_inv b log ->
  rtc stream_step (b, (log, pend)) (fst (stream_Publish cx now order f b),
    (log ++ option_list (accepted cx now f b), pend)).
Proof.
  intros Hlt Hi. pose proof (sp_begin cx now f b log pend Hlt) as Hbegin.
  pose proof (stream_publish_begin_inv cx now f b log Hi) as Hi1. unfold stream_Publish, accepted.
  destruct (publish_begin_eq cx now f b) as [[Eb En]|[Eb En]].
  - unfold numbered in *. destruct (publish_begin cx now f b) as [b' [g|e]]; [done|]. simpl in *. subst b'.
    destruct (b_closed b); by rewrite app_nil_r.
  - rewrite Eb, En in *. cbn [fst snd] in *.
    set (g := stamp now (u64 (b_seq b + 1)) f) in *. set (b1 := set_seq b (u64 (b_seq b + 1))) in *.
    eapply rtc_l; [exact Hbegin|].
    pose proof (sp_locked g b1 log pend []) as Hlock. rewrite app_nil_r in Hlock.
    pose proof (publish_locked_inv g b1 log Hi1) as Hi2.
    eapply rtc_l; [exact Hlock|]. unfold publish_locked in *. change (b_closed b1) with (b_closed b) in *.
    destruct (b_closed b); [done|]. by apply fan_out_steps.
Qed.

(** No two frames the bus ever accepted have the same sequence number. *)
Theorem stream_frames_numbered (c : Config) (b : InMemory) (log pend : list Frame) :
  rtc stream_step (stream_New c, ([], [])) (b, (log, pend)) ->
  NoDup (Sequence <$> log ++ pend) /\ Forall (fun f => 1 <= Sequence f <= b_seq b) (log ++ pend).
Proof. intros H. exact (so_numbers _ (stream_reachable_ok _ _ H)). Qed.

(** ** Delivery *)

(** The subscription's options select the topic. *)
Definition topic_matches (o : SubscribeOptions) (topic : string) : Prop :=
  if so_Prefix o then string_bytes (so_Topic o) `prefix_of` string_bytes topic else so_Topic o = topic.

#[export] Instance topic_matches_dec o topic : Decision (topic_matches o topic).
Proof. unfold topic_matches. destruct (so_Prefix o); apply _. Defined.

(** The targets of a publication are the open subscriptions it matches. *)
Lemma targets_spec b log topic id :
  stream_inv b log ->
  id ∈ targets topic b <-> exists s, b_subs b !! id = Some s /\ s_closed s = false /\
    topic_matches (s_options s) topic.
Proof.
  intros Hi. destruct (sv_index _ _ Hi) as [H1 H2]. unfold targets, topic_matches.
  rewrite elem_of_union, H1, trie_match_spec. split.
  - intros [(s & Hs & Hc & Hp & Ht)|(q & _ & Hq & (s & t & Hs & (Hc & Hp & <-) & ->)%H2)];
      exists s; by rewrite Hp.
  - intros (s & Hs & Hc & Hm). destruct (so_Prefix (s_options s)) eqn:Ep.
    + right. exists (string_bytes (so_Topic (s_options s))). split.
      * intros E. destruct (sv_heap _ _ Hi _ _ Hs) as [Hst _]. apply (st_topic _ _ Hst), string_bytes_inj. done.
      * split; [done|]. apply H2. exists s, (so_Topic (s_options s)). done.
    + left. by exists s.
Qed.

Lemma fan_out_delivers i f ids b :
  NoDup ids ->
  (forall id, id ∈ ids -> exists s, b_subs b !! id = Some s /\ snd (enqueue_try f s) = Some None) ->
  exists heap, fan_out Background i f ids b = (set_heap b heap, PubDone (Sequence f) None) /\
    forall id, heap !! id =
      if decide (id ∈ ids) then (fun s => fst (enqueue_try f s)) <$> b_subs b !! id else b_subs b !! id.
Proof.
  intros Hnd. revert i b. induction Hnd as [|id ids Hid _ IH]; intros i b Hready; cbn [fan_out].
  { exists (b_subs b). split; [by destruct b|]. intros id. by rewrite decide_False by (apply not_elem_of_nil). }
  destruct (Hready id) as (s & Hs & Hr); [by left|]. rewrite Hs. unfold enqueue.
  destruct (enqueue_try f s) as [s' r] eqn:Ee. simpl in Hr. subst r.
  destruct (IH (S i) (set_heap b (<[id := s']> (b_subs b)))) as (heap & -> & Hh).
  { intros i' Hi'. simpl. rewrite lookup_insert_ne by (intros ->; done). apply Hready. by right. }
  exists heap. split; [done|]. intros i'. rewrite Hh. simpl. destruct (decide (i' = id)) as [->|Hne].
  - rewrite (decide_False (P := id ∈ ids)) by done.
    rewrite lookup_insert_eq, (decide_True (P := id ∈ id :: ids)) by (by left). by rewrite Hs; simpl; rewrite Ee.
  - rewrite lookup_insert_ne by done. destruct (decide (i' ∈ ids)).
    + by rewrite decide_True by (by right).
    + rewrite decide_False; [done|]. rewrite elem_of_cons. naive_solver.
Qed.

(** C4. A publication reaches exactly the subscriptions it matches: on any
    reachable bus, when no matching subscription makes the publisher wait,
    publishing an accepted frame succeeds with the next sequence number; every
    open subscription to that very topic, and every open prefix subscription
    to a prefix of it, takes the stamped frame by its overflow policy, and no
    other subscription changes. Nothing else runs between the parts of this
    publication; any other publications may be under way before it. *)
Theorem stream_Publish_delivers (c : Config) (b : InMemory) (log pend : list Frame)
    (order : gset Z -> list Z) (now : time) (f g : Frame) :
  rtc stream_step (stream_New c, ([], [])) (b, (log, pend)) -> enumerates_ids order ->
  accepted Background now f b = Some g ->
  (forall id s, b_subs b !! id = Some s -> s_closed s = false -> topic_matches (s_options s) (Topic f) ->
     snd (enqueue_try g s) = Some None) ->
  exists b', stream_Publish Background now order f b = (b', PubDone (u64 (b_seq b + 1)) None) /\
    g = stamp now (u64 (b_seq b + 1)) f /\
    forall id s, b_subs b !! id = Some s ->
      b_subs b' !! id = Some (if decide (s_closed s = false /\ topic_matches (s_options s) (Topic f))
                              then fst (enqueue_try g s) else s).
Proof.
  intros Hreach Ho Ha Hready. pose proof (stream_reachable c b _ Hreach) as Hi. simpl in Hi.
  unfold accepted in Ha. unfold stream_Publish, publish_locked.
  destruct (b_closed b) eqn:Ecl; [done|].
  destruct (publish_begin_eq Background now f b) as [[_ E]|[-> E]]; rewrite E in Ha; [done|].
  injection Ha as <-. set (g := stamp now (u64 (b_seq b + 1)) f) in *.
  cbn [b_closed set_seq]. rewrite Ecl.
  change (targets (Topic g) (set_seq b (u64 (b_seq b + 1)))) with (targets (Topic f) b).
  assert (forall id, id ∈ targets (Topic f) b <-> exists s, b_subs b !! id = Some s /\ s_closed s = false /\
    topic_matches (s_options s) (Topic f)) as Ht by (intros id; by eapply targets_spec).
  set (b1 := journal_add g (set_seq b (u64 (b_seq b + 1)))).
  assert (b_subs b1 = b_subs b) as Hb1 by (unfold b1, journal_add; by case_match).
  destruct (fan_out_delivers 1 g (order (targets (Topic f) b)) b1) as (heap & Hf & Hh).
  - rewrite (Ho (targets (Topic f) b)). apply NoDup_elements.
  - intros id (s & Hs & Hc & Hm)%(enumerates_elem order _ _ Ho)%Ht. exists s. rewrite Hb1.
    split; [done|]. by eapply Hready.
  - exists (set_heap b1 heap). split; [exact Hf|]. split; [done|]. intros id s Hs. simpl. rewrite Hh, Hb1, Hs.
    destruct (decide (s_closed s = false /\ topic_matches (s_options s) (Topic f))) as [[Hc Hm]|Hn].
    + rewrite decide_True; [done|]. apply (enumerates_elem order _ _ Ho), Ht. by exists s.
    + rewrite decide_False; [done|]. intros (s0 & Hs0 & Hc & Hm)%(enumerates_elem order _ _ Ho)%Ht.
      simplify_eq. by apply Hn.
Qed.

(** ** Resuming *)

Lemma preload_room fs s l :
  fq_rel (Z.to_nat (so_Buffer (s_options s))) (s_queue s) l ->
  (length l + length fs <= Z.to_nat (so_Buffer (s_options s)))%nat ->
  fq_rel (Z.to_nat (so_Buffer (s_options s))) (s_queue (preload fs s)) (l ++ fs).
Proof.
  intros Hq Hlen. unfold preload.
  assert (fq_rel (Z.to_nat (so_Buffer (s_options s))) (s_queue (foldl preload_frame s fs)) (l ++ fs)) as H;
    [|by case_match].
  revert s l Hq Hlen. induction fs as [|f fs IH]; intros s l Hq Hlen; simpl in *; [by rewrite app_nil_r|].
  unfold preload_frame at 2. destruct (fq_push_rel _ f _ _ Hq) as [Hp Hr]. unfold spec_push in Hp, Hr.
  destruct (Nat.eqb_spec (length l) (Z.to_nat (so_Buffer (s_options s)))); [lia|].
  destruct (fq_push f (s_queue s)) as [q ok]. simpl in Hp, Hr. subst ok.
  replace (l ++ f :: fs) with ((l ++ [f]) ++ fs) by (by rewrite <- app_assoc).
  apply (IH (add_counts (set_squeue s q) 1 0 0)); [exact Hr|]. simpl. rewrite length_app. simpl. lia.
Qed.

Lemma StronglySorted_filter {A} (R : A -> A -> Prop) (P : A -> Prop) `{forall x, Decision (P x)} l :
  StronglySorted R l -> StronglySorted R (filter P l).
Proof.
  induction 1 as [|x l Hs IH Hx]; [constructor|]. rewrite filter_cons. case_decide; [|done].
  constructor; [done|]. apply Forall_forall. intros y [_ Hy]%list_elem_of_filter.
  by eapply Forall_forall in Hx.
Qed.

(** The frames of a topic, in the order in which their publishers had the lock. *)
Definition published (topic : string) (log : list Frame) : list Frame :=
  filter (fun f => Topic f = topic) log.

(** What [after] finds in the journal of a topic. *)
Lemma replay_for_since b log o replay :
  stream_inv b log -> 0 < ReplayCapacity (b_config b) -> 0 < so_Since o -> replay_for o b = Ok replay ->
  let cap := Z.to_nat (ReplayCapacity (b_config b)) in
  replay = filter (fun f => so_Since o < Sequence f) (kept cap (published (so_Topic o) log)) /\
  has_gap cap (so_Since o) (published (so_Topic o) log) = false /\ Z.of_nat (length replay) <= Z.max 0 (so_Buffer o).
Proof.
  intros Hi Hcap Hsince Er cap. pose proof (sv_journal _ _ Hi Hcap (so_Topic o)) as Hj.
  fold (published (so_Topic o) log) in Hj. unfold replay_for in Er.
  destruct (b_replay b !! so_Topic o) as [r|].
  - destruct (Z.ltb_spec 0 (so_Since o)); [|lia]. rewrite (replay_after_kept cap r _ (so_Since o) Hj Hsince) in Er.
    destruct (has_gap cap _ _) eqn:Eg; [done|]. simpl in Er.
    destruct (Z.ltb_spec (so_Buffer o) (Z.of_nat (length
      (filter (fun f => so_Since o < Sequence f) (kept cap (published (so_Topic o) log)))))); [done|].
    injection Er as <-. split; [done|]. split; [done|lia].
  - destruct (Z.eqb_spec (ReplayCapacity (b_config b)) 0); [lia|].
    rewrite andb_false_r in Er. injection Er as <-. rewrite Hj. split; [done|]. split; [|simpl; lia].
    unfold has_gap. simpl. by rewrite andb_false_r.
Qed.

(** C35. What a resumed subscription receives: on any reachable bus that keeps
    journals, with any publications under way, when [Subscribe] with [Since]
    succeeds, the new subscription's queue holds exactly the frames with a larger
    sequence among the last ones published to its topic, as many as the journal
    keeps, in the order in which their publishers had the lock; when that order
    is the order of their sequence numbers for this topic, these are all the
    frames with a larger sequence ever published to it, so that none is skipped.
    The subscription is open and in the index, so that the frames of later
    critical sections follow. (Numbers are taken before the lock: publishers that
    overtake each other in between break the condition, and a frame can then be
    skipped silently, as [stream_resume_skips_overtaken] shows.) *)
Theorem stream_Subscribe_resumes (c : Config) (b b' : InMemory) (log pend : list Frame)
    (o : SubscribeOptions) (id : Z) :
  rtc stream_step (stream_New c, ([], [])) (b, (log, pend)) -> 0 < ReplayCapacity (b_config b) ->
  so_Prefix o = false -> 0 < so_Since o -> stream_Subscribe Background o b = (b', Ok id) ->
  exists s queue, b_subs b' !! id = Some s /\ s_closed s = false /\ id ∈ targets (so_Topic o) b' /\
    fq_rel (Z.to_nat (so_Buffer (s_options s))) (s_queue s) queue /\
    queue = filter (fun f => so_Since o < Sequence f)
      (kept (Z.to_nat (ReplayCapacity (b_config b))) (published (so_Topic o) log)) /\
    (StronglySorted by_sequence (published (so_Topic o) log) ->
     queue = filter (fun f => so_Since o < Sequence f) (published (so_Topic o) log)).
Proof.
  intros Hreach Hcap Hpre Hsince. pose proof (stream_reachable c b _ Hreach) as Hi. simpl in Hi.
  unfold stream_Subscribe. destruct (subscribe_options o (b_config b)) as [o'|] eqn:Eo; [|done].
  destruct (subscribe_options_ok _ _ _ Eo) as (_ & Hbuf & Et & Ep & Es). specialize (Es Hpre).
  rewrite Hpre in Ep. simpl. destruct (b_closed b); [done|].
  set (id0 := u64 (b_subSeq b + 1)). change (replay_for o' (set_subSeq b id0)) with (replay_for o' b).
  destruct (replay_for o' b) as [replay|] eqn:Er; [|done]. intros [= <- <-].
  destruct (replay_for_since b log o' replay Hi Hcap ltac:(lia) Er) as (Hrep & Hgap & Hlen).
  rewrite Et, Es in Hrep, Hgap.
  set (s := match replay with [] => newSubscription id0 o' | _ => preload replay (newSubscription id0 o') end).
  assert (same_place (newSubscription id0 o') s) as (E1 & E2 & E3)
    by (unfold s; destruct replay; [done|apply preload_place]).
  simpl in E1, E2, E3. exists s, replay. unfold register. rewrite Ep. simpl.
  split; [by rewrite lookup_insert_eq|]. split; [done|]. split; [|split; [|split; [exact Hrep|]]].
  - unfold targets. simpl. rewrite Et, lookup_insert_eq. set_solver.
  - rewrite E2. unfold s.
    assert (fq_rel (Z.to_nat (so_Buffer o')) (s_queue (newSubscription id0 o')) []) as Hnew
      by (apply newFrameQueue_rel; lia).
    destruct replay as [|f fs]; [done|].
    apply (preload_room (f :: fs) (newSubscription id0 o') []); [exact Hnew|]. simpl in *. lia.
  - intros Hs. rewrite Hrep. apply kept_in_order; [lia|done|done].
Qed.

(** The order of the numbers is kept by a publication that nothing overtakes. *)
Theorem stream_Publish_keeps_order (c : Config) (b : InMemory) (log pend : list Frame) (topic : string)
    (cx : ctx) (now : time) (f : Frame) :
  rtc stream_step (stream_New c, ([], [])) (b, (log, pend)) -> b_seq b + 1 < 2 ^ 64 ->
  StronglySorted by_sequence (published topic log) ->
  StronglySorted by_sequence (published topic (log ++ option_list (accepted cx now f b))).
Proof.
  intros Hreach Hlt Hs. destruct (stream_reachable_ok _ _ Hreach) as [_ _ H0 [_ Hn]]. simpl in H0, Hn.
  apply Forall_app in Hn as [Hn _]. unfold published, accepted in *. rewrite filter_app.
  assert (u64 (b_seq b + 1) = b_seq b + 1) as Eu by (apply u64_id; unfold is_u64; lia).
  apply StronglySorted_app_2; [|done|].
  - intros x y [_ Hx]%list_elem_of_filter [_ Hy]%list_elem_of_filter.
    eapply Forall_forall in Hn; [|exact Hx]. simpl in Hn.
    destruct (b_closed b); [by apply elem_of_nil in Hy|].
    destruct (publish_begin_eq cx now f b) as [[_ E]|[_ E]]; rewrite E in Hy; simpl in Hy;
      [by apply elem_of_nil in Hy|].
    apply list_elem_of_singleton in Hy as ->. unfold by_sequence. simpl. lia.
  - apply StronglySorted_filter. destruct (b_closed b); [constructor|].
    destruct (numbered cx now f b); repeat constructor.
Qed.

(** ** Witnesses *)

Definition demo_config : Config := mkConfig 0 0 4 0 false.
Definition demo_order : gset Z -> list Z := elements.

Lemma demo_order_ok : enumerates_ids demo_order.
Proof. by intros X. Qed.

(** A prefix subscription, a frame of a topic under it, and its journal. *)
Definition bus0 : InMemory := stream_New demo_config.
Definition bus1 : InMemory :=
  fst (stream_Subscribe Background (mkSubOpts "news/" true 8 DropOldest 0 0) bus0).
Definition frame1 : Frame := mkFrame 0 0 "news/a" [Byte.x01] Reliable PriorityNormal.
Definition bus2 : InMemory := fst (stream_Publish Background 5 demo_order frame1 bus1).
Definition bus3 : InMemory := fst (stream_Publish Background 6 demo_order frame1 bus2).

Lemma bus1_reachable : rtc stream_step (bus0, ([], [])) (bus1, ([], [])).
Proof. apply rtc_once. exact (sp_subscribe Background _ bus0 ([], []) ltac:(by vm_compute)). Qed.

Definition log2 : list Frame := [stamp 5 1 frame1].
Definition log3 : list Frame := [stamp 5 1 frame1; stamp 6 2 frame1].

Lemma bus3_reachable : rtc stream_step (bus0, ([], [])) (bus3, (log3, [])).
Proof.
  etrans; [exact bus1_reachable|].
  assert (accepted Background 5 frame1 bus1 = Some (stamp 5 1 frame1)) as E1 by (by vm_compute).
  assert (accepted Background 6 frame1 bus2 = Some (stamp 6 2 frame1)) as E2 by (by vm_compute).
  pose proof (stream_Publish_steps Background 5 demo_order frame1 bus1 [] [] ltac:(by vm_compute)
    (stream_reachable _ _ _ bus1_reachable)) as H1. rewrite E1 in H1.
  assert (rtc stream_step (bus0, ([], [])) (bus2, (log2, []))) as H2 by (etrans; [exact bus1_reachable|exact H1]).
  etrans; [exact H1|].
  pose proof (stream_Publish_steps Background 6 demo_order frame1 bus2 log2 [] ltac:(by vm_compute)
    (stream_reachable _ _ _ H2)) as H3. rewrite E2 in H3. exact H3.
Qed.

Lemma stream_Publish_delivers_witness :
  exists b', stream_Publish Background 5 demo_order frame1 bus1 = (b', PubDone 1 None) /\
    (fun s => fq_len (s_queue s)) <$> b_subs b' !! 1 = Some 1%nat.
Proof.
  destruct (stream_Publish_delivers demo_config bus1 [] [] demo_order 5 frame1 (stamp 5 1 frame1)
    bus1_reachable demo_order_ok ltac:(by vm_compute)) as (b' & H1 & _ & H3).
  - assert (b_subs bus1 = {[1 := newSubscription 1 (mkSubOpts "news/" true 8 DropOldest 0 0)]}) as ->
      by (by vm_compute).
    intros id s [<- <-]%lookup_singleton_Some _ _. by vm_compute.
  - exists b'. split; [exact H1|].
    rewrite (H3 1 (newSubscription 1 (mkSubOpts "news/" true 8 DropOldest 0 0))) by (by vm_compute).
    by vm_compute.
Defined.

Lemma stream_Subscribe_resumes_witness :
  exists s, b_subs (fst (stream_Subscribe Background (mkSubOpts "news/a" false 8 Block 0 1) bus3)) !! 2 = Some s /\
    s_closed s = false /\ fq_rel 8 (s_queue s) (filter (fun f => 1 < Sequence f) (published "news/a" log3)).
Proof.
  destruct (stream_Subscribe_resumes demo_config bus3
    (fst (stream_Subscribe Background (mkSubOpts "news/a" false 8 Block 0 1) bus3)) log3 []
    (mkSubOpts "news/a" false 8 Block 0 1) 2 bus3_reachable) as (s & queue & H1 & H2 & _ & H4 & _ & H6);
    [by vm_compute|done|by vm_compute|by vm_compute|].
  assert (StronglySorted by_sequence (published "news/a" log3)) as Hs
    by (change (published "news/a" log3) with log3; repeat constructor; unfold by_sequence; simpl; lia).
  rewrite (H6 Hs) in H4.
  exists s. split; [exact H1|]. split; [exact H2|].
  assert (s_options s = mkSubOpts "news/a" false 8 Block 0 1) as Ho.
  { assert (s_options <$> Some s = Some (mkSubOpts "news/a" false 8 Block 0 1)) as Hs'
      by (rewrite <- H1; by vm_compute). by injection Hs'. }
  rewrite Ho in H4. exact H4.
Defined.

(** ** Publishers that overtake each other

    Three publishers of one topic take the numbers 1, 2 and 3, and have the lock
    in the order 2, 1, 3. *)
Definition race_config : Config := mkConfig 0 0 2 0 false.
Definition race_begin (b : InMemory) : InMemory := fst (publish_begin Background 5 frame1 b).
Definition race_locked (seq : Z) (b : InMemory) : InMemory := fst (publish_locked (stamp 5 seq frame1) b).
Definition race_bus : InMemory :=
  race_locked 3 (race_locked 1 (race_locked 2 (race_begin (race_begin (race_begin (stream_New race_config)))))).
Definition race_log : list Frame := [stamp 5 2 frame1; stamp 5 1 frame1; stamp 5 3 frame1].

(** A resumed subscription can skip a frame without an error: a client that has
    seen frame 1 resumes with [Since] 1 on a bus whose journals keep two frames;
    [Subscribe] succeeds and its queue holds frame 3 only, although frame 2 was
    published and is no longer in the journal. *)
Theorem stream_resume_skips_overtaken :
  rtc stream_step (stream_New race_config, ([], [])) (race_bus, (race_log, [])) /\
  exists b' s, stream_Subscribe Background (mkSubOpts "news/a" false 8 Block 0 1) race_bus = (b', Ok 1) /\
    b_subs b' !! 1 = Some s /\
    snd (fq_pop (s_queue s)) = Some (stamp 5 3 frame1) /\ fq_len (s_queue s) = 1%nat /\
    stamp 5 2 frame1 ∈ published "news/a" race_log.
Proof.
  split.
  - set (b0 := stream_New race_config). set (g := fun n => stamp 5 n frame1).
    apply (rtc_l _ _ (race_begin b0, ([], [g 1]))); [exact (sp_begin Background 5 frame1 b0 [] [] ltac:(by vm_compute))|].
    apply (rtc_l _ _ (race_begin (race_begin b0), ([], [g 1; g 2])));
      [exact (sp_begin Background 5 frame1 (race_begin b0) [] [g 1] ltac:(by vm_compute))|].
    set (b3 := race_begin (race_begin (race_begin b0))).
    apply (rtc_l _ _ (b3, ([], [g 1; g 2; g 3])));
      [exact (sp_begin Background 5 frame1 (race_begin (race_begin b0)) [] [g 1; g 2] ltac:(by vm_compute))|].
    apply (rtc_l _ _ (race_locked 2 b3, ([g 2], [g 1; g 3]))); [exact (sp_locked (g 2) b3 [] [g 1] [g 3])|].
    apply (rtc_l _ _ (race_locked 1 (race_locked 2 b3), ([g 2; g 1], [g 3])));
      [exact (sp_locked (g 1) (race_locked 2 b3) [g 2] [] [g 3])|].
    apply rtc_once. exact (sp_locked (g 3) (race_locked 1 (race_locked 2 b3)) [g 2; g 1] [] []).
  - eexists _, _. split; [by vm_compute|]. split; [by vm_compute|]. split; [by vm_compute|].
    split; [by vm_compute|]. apply list_elem_of_filter. split; [done|]. by left.
Qed.
