(* ===== verification/WebSession.v ===== *)
(** * WebSession: a whole WebTransport session

    Models [ServeHTTP] past the upgrade and [ServeSession] of
    [src/streambus/webtransport/handler.go]: the checks, the two workers with
    their loops, the cancellation after the first of them has returned, the turns
    of the pumps they start, and the deferred calls. What the workers read, what
    the calls of the pumps meet and what other users of the bus do in the
    meantime come as one sequence of events, in any order. One message, one
    datagram and one turn of a pump are in [WebTransport]. [CloseWithError] and
    [control.Close] act on the library's session: that its calls fail afterwards
    is a hypothesis on the events ([closed_turn]).

    The theorem: a session leaves no subscription behind
    ([ServeSession_no_leak]), over any bus that keeps its subscriptions apart;
    the in-memory bus is one. *)

From S2P Require Import Prelude Bytes StreamTypes Wire WebTransport StreamQueue StreamSub StreamBus StreamProps.

(** ** Buses whose subscriptions can be counted

    [fb_live]: the subscriptions that are open. *)
Class LawfulFrameBus (B : Type) `{FrameBus B} := {
  fb_live : B -> gset Z;
  fb_Publish_live : forall cx f b, fb_live (fst (fb_Publish cx f b)) ⊆ fb_live b;
  fb_Subscribe_live : forall cx o b b' r, fb_Subscribe cx o b = (b', r) ->
    fb_live b' ⊆ fb_live b ∪ match r with Ok sub => {[sub]} | Err _ => ∅ end;
  fb_CloseSub_live : forall sub b, fb_live (fst (fb_CloseSub sub b)) ⊆ fb_live b ∖ {[sub]};
}.

Section Serve.
Context {B W : Type} `{!FrameBus B, !Writer W}.
(** [err.Error()] *)
Variable error_text : error -> string.

(** [sv_control], [sv_datagram]: the worker is running; [sv_first]: the first
    result in [errCh]; [sv_cancelled]: [cancel] and [CloseWithError] were called;
    [sv_reports]: what [OnError] was called with, if it is set. *)
Record serving := mkServing {
  sv_session : session B W;
  sv_control : bool;
  sv_datagram : bool;
  sv_first : option error;
  sv_cancelled : bool;
  sv_reports : list error;
}.
Implicit Types s : serving.

(** [report] *)
Definition report (onError : bool) (err : error) s : serving :=
  if onError then mkServing (sv_session s) (sv_control s) (sv_datagram s) (sv_first s) (sv_cancelled s)
    (sv_reports s ++ [err])
  else s.

Definition with_session s (ss : session B W) : serving :=
  mkServing ss (sv_control s) (sv_datagram s) (sv_first s) (sv_cancelled s) (sv_reports s).

(** A worker returns: its error goes to [errCh]. *)
Definition control_returns (err : error) s : serving :=
  mkServing (sv_session s) false (sv_datagram s) (Some (default err (sv_first s))) (sv_cancelled s) (sv_reports s).
Definition datagram_returns (err : error) s : serving :=
  mkServing (sv_session s) (sv_control s) false (Some (default err (sv_first s))) (sv_cancelled s) (sv_reports s).

(** [ServeSession] receives the first result, cancels the context of the
    session and closes it. *)
Definition serve_cancel s : serving :=
  match sv_first s with
  | Some _ => mkServing (sv_session s) (sv_control s) (sv_datagram s) (sv_first s) true (sv_reports s)
  | None => s
  end.

(** The context of the session, derived from [cx]. *)
Definition session_ctx s (cx : ctx) : ctx :=
  if sv_cancelled s then fun i => Some (default Canceled (cx i)) else cx.

(** What happens next: a read of the control stream, a read of a datagram, a
    turn of a pump, which has sent [p] so far, [ServeSession]'s own step, or
    somebody else's use of the bus. *)
Inductive serve_event :=
| EvControl (cx : ctx) (read : res Message)
| EvDatagram (cx : ctx) (send : option error) (read : res (list Byte.byte))
| EvPump (id sub : Z) (c : pump_choice W) (p : pump W)
| EvCancel
| EvOther (f : B -> B).

(** One iteration of [readControl]. *)
Definition readControl_iter (cx : ctx) (read : res Message) s : serving :=
  match read with
  | Err e => control_returns e s
  | Ok m =>
      let '(ss, err) := readControl_step error_text (session_ctx s cx) m (sv_session s) in
      let s := with_session s ss in
      match err with Some e => control_returns e s | None => s end
  end.

(** One iteration of [readDatagrams]. *)
Definition readDatagrams_iter (h : Handler) (onError : bool) (cx : ctx) (send : option error)
    (read : res (list Byte.byte)) s : serving :=
  match read with
  | Err e => datagram_returns e s
  | Ok data =>
      let '(ss, err) := readDatagrams_step (session_ctx s cx) h send data (sv_session s) in
      let s := with_session s ss in
      match err with Some e => report onError e s | None => s end
  end.

(** A goroutine of [subscribe]: the pump has returned. *)
Definition pump_returns (onError : bool) (id sub : Z) (result : option error) s : serving :=
  let s := with_session s (pump_exit id sub (sv_session s)) in
  match result with
  | Some e => if errors_Is e Canceled then s else report onError e s
  | None => s
  end.

(** An event whose goroutine is not running does not happen. *)
Definition serve_step (h : Handler) (onError : bool) s (ev : serve_event) : serving :=
  match ev with
  | EvControl cx read => if sv_control s then readControl_iter cx read s else s
  | EvDatagram cx send read => if sv_datagram s then readDatagrams_iter h onError cx send read s else s
  | EvPump id sub c p =>
      if decide ((id, sub) ∈ se_pumps (sv_session s)) then
        match pump_turn h id c p with
        | (_, Some result) => pump_returns onError id sub result s
        | (_, None) => s
        end
      else s
  | EvCancel => serve_cancel s
  | EvOther f => with_session s (set_sbus (sv_session s) (f (se_bus (sv_session s))))
  end.

Definition serve_start (bus : B) (control : W) (datagrams : bool) : serving :=
  mkServing (mkSession bus control [] ∅ ∅ []) true datagrams None false [].

Definition ErrNilBus : error := ErrNew "streambus webtransport: nil bus".

(** [ServeSession]: the control stream or the error of [AcceptStream], whether
    both sides support datagrams, the events until the workers have returned,
    and the order in which the table is visited at the end. [None]: it has not
    returned yet. The pumps are not waited for. *)
Definition ServeSession (h : Handler) (onError : bool) (bus : option B) (accept : res W)
    (datagrams : bool) (evs : list serve_event) (order : gmap Z Z -> list Z)
    : option (option serving * option error) :=
  match bus, accept with
  | None, _ => Some (None, Some ErrNilBus)
  | Some _, Err e => Some (None, Some (ErrWrap "accept control stream" e))
  | Some b, Ok control =>
      let s := foldl (serve_step h onError) (serve_start b control datagrams) evs in
      if sv_control s || sv_datagram s || negb (sv_cancelled s) then None
      else
        let s := with_session s (closeSubscriptions order (sv_session s)) in
        Some (Some s,
          match sv_first s with
          | Some e => if errors_Is e Canceled || errors_Is e DeadlineExceeded then None else Some e
          | None => None
          end)
  end.

(** [ServeHTTP]: the status of a refused request, or the result of the session
    with what is reported. *)
Inductive http_result := HttpStatus (code : Z) | HttpReported (err : option error).

Definition Handler_ServeHTTP (configured : bool) (auth upgrade session : option error) : http_result :=
  match ServeHTTP configured auth upgrade with
  | HttpError code => HttpStatus code
  | Reported e => HttpReported (Some e)
  | Serve =>
      match session with
      | Some e => HttpReported (if errors_Is e Canceled then None else Some e)
      | None => HttpReported None
      end
  end.

(** What goes on after [ServeSession] has returned: the turns of the pumps that
    are still running, whose calls meet a closed session, and other users of the
    bus. *)
Definition closed_turn (ev : serve_event) : Prop :=
  match ev with
  | EvPump _ _ c p => pump_closed c p
  | EvOther _ => True
  | _ => False
  end.

Definition pump_of (ev : serve_event) : option (Z * Z) :=
  match ev with EvPump id sub _ _ => Some (id, sub) | _ => None end.

End Serve.
Arguments serving B W : clear implicits.
Arguments serve_event B W : clear implicits.

(** ** No subscription is left behind *)

Section Leak.
Context {B W : Type} `{!FrameBus B, !LawfulFrameBus B, !Writer W}.
Variable error_text : error -> string.
Implicit Types (ss : session B W) (s : serving B W) (L : gset Z).

(** Every open subscription belongs to somebody else, or has its pump. *)
Definition accounted L ss : Prop :=
  fb_live (se_bus ss) ⊆ L ∪ list_to_set ((se_pumps ss).*2).

Lemma accounted_ext L ss ss' :
  fb_live (se_bus ss') ⊆ fb_live (se_bus ss) -> se_pumps ss' = se_pumps ss ->
  accounted L ss -> accounted L ss'.
Proof. unfold accounted. intros H ->. by etrans. Qed.

Lemma writeControl_frame m ss :
  se_bus (fst (writeControl m ss)) = se_bus ss /\ se_pumps (fst (writeControl m ss)) = se_pumps ss.
Proof. unfold writeControl. by destruct (WriteMessage _ _). Qed.

Lemma writeControl_accounted L m ss : accounted L ss -> accounted L (fst (writeControl m ss)).
Proof. destruct (writeControl_frame m ss) as [E1 E2]. apply accounted_ext; [by rewrite E1|done]. Qed.

Lemma subscribe_accounted L cx m ss : accounted L ss -> accounted L (fst (session_subscribe cx m ss)).
Proof.
  intros H. unfold session_subscribe. case_match; [done|]. case_match; [done|].
  set (o := if decide _ then _ else _). destruct (fb_Subscribe cx o (se_bus ss)) as [b r] eqn:Es.
  apply fb_Subscribe_live in Es. destruct r as [sub|e].
  - apply writeControl_accounted. unfold accounted in *. simpl. set_solver.
  - apply (accounted_ext L ss); [|done|exact H]. simpl. set_solver.
Qed.

Lemma CloseSub_subseteq sub (b : B) : fb_live (fst (fb_CloseSub sub b)) ⊆ fb_live b.
Proof. pose proof (fb_CloseSub_live sub b). set_solver. Qed.

Lemma unsubscribe_accounted L id ss : accounted L ss -> accounted L (fst (session_unsubscribe id ss)).
Proof.
  intros H. unfold session_unsubscribe. destruct (se_subscriptions ss !! id) as [sub|]; [|done].
  simpl. pose proof (CloseSub_subseteq sub (se_bus ss)) as Hc. destruct (fb_CloseSub sub (se_bus ss)).
  by apply (accounted_ext L ss).
Qed.

Lemma handleMessage_accounted L cx send m datagram ss :
  accounted L ss -> accounted L (fst (handleMessage cx send m datagram ss)).
Proof.
  intros H. unfold handleMessage. case_match; [destruct datagram; [done|by apply subscribe_accounted]|].
  case_match; [destruct datagram; [done|by apply unsubscribe_accounted]|].
  case_match.
  { set (f := if datagram then _ else _). pose proof (fb_Publish_live cx f (se_bus ss)) as Hp.
    destruct (fb_Publish cx f (se_bus ss)) as [b r].
    assert (accounted L (set_sbus ss b)) as Hb by (by apply (accounted_ext L ss)).
    destruct r; [|done]. destruct datagram; [done|by apply writeControl_accounted]. }
  case_match; [destruct datagram; [done|by case_match]|].
  case_match; [|done]. destruct datagram; [|by apply writeControl_accounted].
  case_match; [|done]. unfold sendDatagram. by case_match.
Qed.

Lemma pump_exit_accounted L id sub ss : accounted L ss -> accounted L (pump_exit id sub ss).
Proof.
  intros H. unfold pump_exit, accounted in *. simpl. pose proof (fb_CloseSub_live sub (se_bus ss)) as Hc.
  destruct (fb_CloseSub sub (se_bus ss)) as [b ?]. simpl in *. intros x Hx. apply Hc in Hx.
  apply elem_of_difference in Hx as [Hx Hne]. apply H in Hx. rewrite elem_of_union, elem_of_list_to_set in *.
  destruct Hx as [?|Hx]; [by left|right]. apply list_elem_of_fmap in Hx as ([i y] & -> & Hy). apply list_elem_of_fmap.
  exists (i, y). split; [done|]. apply list_elem_of_filter. split; [|done]. intros [= -> ->]. set_solver.
Qed.

Lemma closeSubscriptions_accounted L order ss : accounted L ss -> accounted L (closeSubscriptions order ss).
Proof.
  intros H. apply (accounted_ext L ss); [|done|exact H]. simpl. generalize (order (se_subscriptions ss)) (se_bus ss).
  intros subs. induction subs as [|sub subs IH]; intros b; [done|]. simpl.
  etrans; [apply IH|apply CloseSub_subseteq].
Qed.

Lemma accounted_mono L L' ss : L ⊆ L' -> accounted L ss -> accounted L' ss.
Proof. unfold accounted. set_solver. Qed.

Section Run.
Context (h : Handler) (onError : bool).
Abbreviation step := (serve_step error_text h onError).

(** What somebody else opens in a step, and in a run. *)
Definition opened_by_other s (ev : serve_event B W) : gset Z :=
  match ev with
  | EvOther f => fb_live (f (se_bus (sv_session s))) ∖ fb_live (se_bus (sv_session s))
  | _ => ∅
  end.

Fixpoint opened_by_others s (evs : list (serve_event B W)) : gset Z :=
  match evs with
  | [] => ∅
  | ev :: evs => opened_by_other s ev ∪ opened_by_others (step s ev) evs
  end.

Lemma serve_step_accounted L s ev :
  accounted L (sv_session s) -> accounted (L ∪ opened_by_other s ev) (sv_session (step s ev)).
Proof.
  intros H. destruct ev as [cx read|cx send read|id sub c p| |f]; simpl.
  1-4: (eapply accounted_mono; [apply union_subseteq_l|]).
  - case_match; [|done]. destruct read as [m|e]; [|done]. unfold readControl_iter, readControl_step.
    pose proof (handleMessage_accounted L (session_ctx s cx) None m false _ H) as Hm.
    destruct (handleMessage (session_ctx s cx) None m false (sv_session s)) as [ss [e|]]; [|done]. simpl in Hm.
    pose proof (writeControl_accounted L (message MessageError (msg_ID m) 0 0 zero_Frame (error_text e)) ss Hm) as Hw.
    by destruct (writeControl _ ss) as [ss' [e'|]].
  - case_match; [|done]. destruct read as [data|e]; [|done]. unfold readDatagrams_iter, readDatagrams_step, report.
    destruct (maximum h <? Z.of_nat (length data)); [done|]. destruct (DecodeMessage data) as [m|]; [|done].
    pose proof (handleMessage_accounted L (session_ctx s cx) send m true _ H) as Hm.
    destruct (handleMessage (session_ctx s cx) send m true (sv_session s)) as [ss [e|]]; [|done]. by destruct onError.
  - case_match; [|done]. pose proof (pump_exit_accounted L id sub _ H).
    destruct (pump_turn h id c p) as [? [r|]]; [|done]. unfold pump_returns, report. by repeat case_match.
  - unfold serve_cancel. by case_match.
  - unfold accounted in *. simpl. intros x Hx.
    destruct (decide (x ∈ fb_live (se_bus (sv_session s)))) as [Hin|Hin].
    + apply H, elem_of_union in Hin. rewrite !elem_of_union. tauto.
    + by apply elem_of_union_l, elem_of_union_r, elem_of_difference.
Qed.

Lemma serve_steps_accounted L evs s :
  accounted L (sv_session s) -> accounted (L ∪ opened_by_others s evs) (sv_session (foldl step s evs)).
Proof.
  revert L s. induction evs as [|ev evs IH]; intros L s Hs; simpl; [by rewrite union_empty_r_L|].
  rewrite union_assoc_L. by apply IH, serve_step_accounted.
Qed.

(** After [ServeSession] has returned nothing starts a pump, and a pump's turn
    is its last. *)
Lemma closed_turn_pumps s ev :
  closed_turn ev ->
  forall p, p ∈ se_pumps (sv_session (step s ev)) <-> p ∈ se_pumps (sv_session s) /\ pump_of ev <> Some p.
Proof.
  destruct ev as [| |id sub c pu| |f]; try done; simpl; [|naive_solver]. intros Hc p.
  case_decide as Hin; [|naive_solver]. destruct (pump_turn_closed h id c pu Hc) as (pu' & r & ->).
  assert (se_pumps (sv_session (pump_returns onError id sub r s)) =
    filter (fun p => p <> (id, sub)) (se_pumps (sv_session s))) as ->.
  { unfold pump_returns, report, with_session, pump_exit. destruct (fb_CloseSub _ _). by repeat case_match. }
  rewrite list_elem_of_filter. naive_solver.
Qed.

Lemma closed_turns_pumps s evs :
  Forall closed_turn evs ->
  forall p, p ∈ se_pumps (sv_session (foldl step s evs)) <->
    p ∈ se_pumps (sv_session s) /\ Some p ∉ (pump_of <$> evs).
Proof.
  intros H. revert s. induction H as [|ev evs Hev _ IH]; intros s p; simpl; [set_solver|].
  rewrite IH, closed_turn_pumps, elem_of_cons by done. naive_solver.
Qed.

End Run.

(** [closeSubscriptions] closes every subscription of the table. *)
Lemma CloseSubs_live (b : B) subs :
  fb_live (foldl (fun b sub => fst (fb_CloseSub sub b)) b subs) ⊆ fb_live b ∖ list_to_set subs.
Proof.
  revert b. induction subs as [|sub subs IH]; intros b; simpl; [set_solver|].
  pose proof (fb_CloseSub_live sub b). specialize (IH (fst (fb_CloseSub sub b))). set_solver.
Qed.

Definition enumerates_table (order : gmap Z Z -> list Z) : Prop := forall m, order m ≡ₚ (map_to_list m).*2.

Lemma closeSubscriptions_closes order ss id sub :
  enumerates_table order -> se_subscriptions ss !! id = Some sub ->
  sub ∉ fb_live (se_bus (closeSubscriptions order ss)).
Proof.
  intros Ho Hs Hin. simpl in Hin. apply CloseSubs_live, elem_of_difference in Hin as [_ Hin]. apply Hin.
  apply elem_of_list_to_set. rewrite (Ho (se_subscriptions ss)). apply list_elem_of_fmap.
  exists (id, sub). split; [done|]. by apply elem_of_map_to_list.
Qed.

(** C20. A WebTransport session leaves no subscription behind. Whatever its
    client sends, in whatever order the control stream, the datagrams, the turns
    of its pumps and other users of the bus interleave, and whatever calls fail:
    when [ServeSession] returns, both workers have returned and the context is
    cancelled, and the subscriptions that were in its table are closed and the
    table is empty; a subscription that is still open was open before, was
    opened by somebody else, or has a pump that is still running (its client used
    an identifier again before the old pump had ended, which took the new
    subscription out of the table); and once each of these pumps has taken one
    more turn, in any order, with whatever frames waiting, in a session that
    refuses every call since it is closed, no pump is left and none of the
    session's subscriptions is open. It never returns the cancellation of its
    own context as an error. *)
Theorem ServeSession_no_leak h onError (bus : B) (control : W) datagrams evs order s err :
  enumerates_table order ->
  ServeSession error_text h onError (Some bus) (Ok control) datagrams evs order = Some (Some s, err) ->
  let s0 := serve_start bus control datagrams in
  let s1 := foldl (serve_step error_text h onError) s0 evs in
  let L := fb_live bus ∪ opened_by_others h onError s0 evs in
  sv_control s1 = false /\ sv_datagram s1 = false /\ sv_cancelled s1 = true /\
  (forall id sub, se_subscriptions (sv_session s1) !! id = Some sub -> sub ∉ fb_live (se_bus (sv_session s))) /\
  se_subscriptions (sv_session s) = ∅ /\ se_acks (sv_session s) = ∅ /\
  (forall sub, sub ∈ fb_live (se_bus (sv_session s)) ->
     sub ∈ L \/ exists id, (id, sub) ∈ se_pumps (sv_session s)) /\
  (forall evs', Forall closed_turn evs' ->
     (forall p, p ∈ se_pumps (sv_session s) -> Some p ∈ (pump_of <$> evs')) ->
     let s2 := foldl (serve_step error_text h onError) s evs' in
     se_pumps (sv_session s2) = [] /\
     fb_live (se_bus (sv_session s2)) ⊆ L ∪ opened_by_others h onError s evs') /\
  (forall e, err = Some e -> errors_Is e Canceled = false).
Proof.
  intros Ho E s0 s1 L. unfold ServeSession in E. fold s0 s1 in E.
  assert (accounted (fb_live bus) (sv_session s0)) as H0 by (unfold accounted; simpl; set_solver).
  pose proof (serve_steps_accounted h onError _ evs s0 H0) as H1. fold L s1 in H1.
  destruct (sv_control s1) eqn:Ec1; [done|]. destruct (sv_datagram s1) eqn:Ec2; [done|].
  destruct (sv_cancelled s1) eqn:Ec3; [|done]. injection E as <- <-.
  set (s := with_session s1 (closeSubscriptions order (sv_session s1))).
  assert (accounted L (sv_session s)) as H2 by (by apply (closeSubscriptions_accounted L order)).
  split_and!; try done.
  - intros id sub. by apply closeSubscriptions_closes.
  - intros sub Hs%H2. rewrite elem_of_union, elem_of_list_to_set in Hs. destruct Hs as [?|Hs]; [by left|right].
    apply list_elem_of_fmap in Hs as ([i y] & -> & Hy). by exists i.
  - intros evs' Hc Hall s2. pose proof (closed_turns_pumps h onError s evs' Hc) as Hp. fold s2 in Hp.
    assert (se_pumps (sv_session s2) = []) as He.
    { destruct (se_pumps (sv_session s2)) as [|p ps] eqn:Ep; [done|].
      destruct (proj1 (Hp p)) as [Hin Hnot]; [by left|]. destruct Hnot. by apply Hall. }
    split; [done|]. pose proof (serve_steps_accounted h onError L evs' s H2) as H3. fold s2 in H3.
    unfold accounted in H3. rewrite He in H3. simpl in H3. set_solver.
  - intros e. simpl. destruct (sv_first s1) as [e1|]; [|done].
    destruct (errors_Is e1 Canceled) eqn:Ec; [done|]. simpl. case_match; [done|]. by intros [= <-].
Qed.

End Leak.

(** ** The in-memory bus

    The bus with the clock its publications read. A publication that waits for
    space ends with the context of the session. *)
Record memBus := mkMemBus { mb_now : time; mb_bus : InMemory }.

#[export] Instance memBus_FrameBus : FrameBus memBus := {
  fb_Publish cx f b :=
    let '(m, r) := stream_Publish cx (mb_now b) elements f (mb_bus b) in
    (mkMemBus (mb_now b) m,
     match r with
     | PubDone seq None => Ok seq
     | PubDone _ (Some e) => Err e
     | PubBlocked _ _ => Err Canceled
     end);
  fb_Subscribe cx o b :=
    let '(m, r) := stream_Subscribe cx o (mb_bus b) in (mkMemBus (mb_now b) m, r);
  fb_CloseSub sub b := (mkMemBus (mb_now b) (close_sub sub (mb_bus b)), None);
}.

Definition open_subs (heap : gmap Z Subscription) : gset Z :=
  dom (filter (fun p => s_closed p.2 = false) heap).

Lemma elem_of_open_subs id heap :
  id ∈ open_subs heap <-> exists s, heap !! id = Some s /\ s_closed s = false.
Proof.
  unfold open_subs. rewrite elem_of_dom. split.
  - intros [s [Hs Hc]%map_lookup_filter_Some]. eauto.
  - intros (s & Hs & Hc). exists s. by apply map_lookup_filter_Some.
Qed.

Lemma fan_out_open cx i f ids b : open_subs (b_subs (fst (fan_out cx i f ids b))) ⊆ open_subs (b_subs b).
Proof.
  revert i b. induction ids as [|id ids IH]; intros i b; simpl; [done|].
  destruct (b_subs b !! id) as [s|] eqn:Es; [|apply IH].
  destruct (enqueue (after i cx) f s) as [s' r] eqn:Ee.
  assert (s' = fst (enqueue_try f s)) as -> by (by rewrite <- (enqueue_eq (after i cx)), Ee).
  assert (open_subs (<[id := (enqueue_try f s).1]> (b_subs b)) ⊆ open_subs (b_subs b)) as Hn.
  { destruct (enqueue_try_place f s) as (_ & _ & Ec). intros x. rewrite !elem_of_open_subs.
    intros (y & [[<- <-]|[_ ?]]%lookup_insert_Some & Hc); [|by eauto]. exists s. split; [done|congruence]. }
  destruct r as [[e|]|]; [case_decide| |]; simpl; try done; (etrans; [apply IH|exact Hn]).
Qed.

#[export] Instance memBus_Lawful : LawfulFrameBus memBus.
Proof.
  refine {| fb_live := fun b => open_subs (b_subs (mb_bus b)) |}.
  - intros cx f b. simpl. unfold stream_Publish.
    destruct (publish_begin cx (mb_now b) f (mb_bus b)) as [m1 [g|e]] eqn:E1;
      (assert (b_subs m1 = b_subs (mb_bus b)) as Em1
        by (unfold publish_begin in E1; by repeat case_match; simplify_eq)); [|simpl; by rewrite Em1].
    unfold publish_locked. destruct (b_closed m1); [simpl; by rewrite Em1|].
    destruct (fan_out _ _ _ _ _) as [m r] eqn:E. simpl.
    apply (f_equal fst) in E. simpl in E. subst m. etrans; [apply fan_out_open|].
    unfold journal_add. case_match; simpl; by rewrite Em1.
  - intros cx o b b' r. simpl. unfold stream_Subscribe.
    destruct (subscribe_options o _) as [o'|e]; [|intros [= <- <-]; set_solver].
    destruct (cx 0%nat); [intros [= <- <-]; set_solver|].
    destruct (b_closed _); [intros [= <- <-]; simpl; set_solver|].
    destruct (replay_for o' _) as [replay|e]; [|intros [= <- <-]; simpl; set_solver].
    intros [= <- <-]. intros x. unfold register.
    assert (forall h, open_subs (b_subs (mb_bus (mkMemBus (mb_now b) (if so_Prefix o' then set_index h (b_exact h)
      (trie_insert (string_bytes (so_Topic o')) (u64 (b_subSeq (mb_bus b) + 1)) (b_prefix h)) else
      set_index h (<[so_Topic o' := {[u64 (b_subSeq (mb_bus b) + 1)]} ∪ default ∅ (b_exact h !! so_Topic o')]> (b_exact h))
       (b_prefix h))))) = open_subs (b_subs h)) as -> by (intros h; by destruct (so_Prefix o')).
    simpl. rewrite elem_of_union, !elem_of_open_subs, elem_of_singleton.
    intros (y & [[<- _]|[_ ?]]%lookup_insert_Some & Hc); [by right|left; by eauto].
  - intros sub b x. simpl. rewrite elem_of_difference, elem_of_singleton. unfold close_sub.
    destruct (b_subs (mb_bus b) !! sub) as [s|] eqn:Es.
    + destruct (s_closed s) eqn:Ec.
      * intros Hx. split; [done|]. intros ->. apply elem_of_open_subs in Hx as (y & Hy & ?). congruence.
      * assert (forall h, b_subs (remove s h) = b_subs h) as -> by (intros h; unfold remove; by repeat case_match).
        simpl. rewrite !elem_of_open_subs. intros (y & [[<- <-]|[Hne ?]]%lookup_insert_Some & Hc); [done|].
        split; [by eauto|congruence].
    + intros Hx. split; [done|]. intros ->. apply elem_of_open_subs in Hx as (y & Hy & ?). congruence.
Defined.

(** ** Witness: a client that subscribes again before its old pump has ended,
    while another user of the bus subscribes too *)

#[local] Instance wire_writer : Writer (list Byte.byte) := fun w data =>
  (w ++ data, (Z.of_nat (length data), None)).

Definition wt_subscribe : Message := message MessageSubscribe 1 7 0 (wt_frame 0) "".
Definition wt_unsubscribe : Message := message MessageUnsubscribe 2 7 0 zero_Frame "".
Definition wt_other (b : memBus) : memBus :=
  fst (fb_Subscribe Background (mkSubOpts "t" false 0 0 0 0) b).
Definition wt_bus : memBus := mkMemBus 5 (stream_New (mkConfig 0 0 4 0 false)).
Definition wt_events : list (serve_event memBus (list Byte.byte)) :=
  [EvControl Background (Ok wt_subscribe); EvControl Background (Ok wt_unsubscribe);
   EvControl Background (Ok wt_subscribe); EvOther wt_other; EvPump 7 1 PumpEnded (mkPump None []);
   EvControl Background (Ok (message MessageSubscribe 3 8 0 (wt_frame 0) ""));
   EvControl Background (Err ErrEOF); EvCancel].
Definition wt_order (m : gmap Z Z) : list Z := (map_to_list m).*2.
Definition wt_start : serving memBus (list Byte.byte) := serve_start wt_bus [] false.
Definition wt_result : option (option (serving memBus (list Byte.byte)) * option error) :=
  ServeSession (fun _ => "") (mkHandler 0 0) true (Some wt_bus) (Ok []) false wt_events wt_order.
Definition wt_served : serving memBus (list Byte.byte) :=
  match wt_result with Some (Some s, _) => s | _ => wt_start end.
(** The pumps that are left: one finds its context done, the other its channel
    closed. *)
Definition wt_after : list (serve_event memBus (list Byte.byte)) :=
  [EvPump 8 4 (PumpCancelled Canceled) (mkPump None []); EvPump 7 2 PumpEnded (mkPump None [])].

Lemma wt_run :
  ServeSession (fun _ => "") (mkHandler 0 0) true (Some wt_bus) (Ok []) false wt_events wt_order =
    Some (Some wt_served, Some ErrEOF).
Proof. vm_compute. reflexivity. Qed.

Lemma wt_foreign :
  (fb_live wt_bus ∪ opened_by_others (fun _ => "") (mkHandler 0 0) true wt_start wt_events) ∪
    opened_by_others (fun _ => "") (mkHandler 0 0) true wt_served wt_after = {[3]}.
Proof. vm_compute. reflexivity. Qed.

Lemma wt_pumps : se_pumps (sv_session wt_served) = [(8, 4); (7, 2)].
Proof. vm_compute. reflexivity. Qed.

Lemma wt_live : fb_live (se_bus (sv_session wt_served)) = {[2; 3]}.
Proof. vm_compute. reflexivity. Qed.

Lemma ServeSession_no_leak_witness :
  se_pumps (sv_session wt_served) = [(8, 4); (7, 2)] /\
  fb_live (se_bus (sv_session wt_served)) = {[2; 3]} /\
  let s2 := foldl (serve_step (fun _ => "") (mkHandler 0 0) true) wt_served wt_after in
  se_pumps (sv_session s2) = [] /\ fb_live (se_bus (sv_session s2)) ⊆ {[3]}.
Proof.
  split; [exact wt_pumps|]. split; [exact wt_live|]. rewrite <- wt_foreign.
  apply (ServeSession_no_leak (fun _ => "") (mkHandler 0 0) true wt_bus [] false wt_events wt_order
    wt_served (Some ErrEOF) ltac:(by intros m) wt_run).
  - by repeat constructor.
  - intros p Hp. rewrite wt_pumps in Hp. unfold wt_after. simpl.
    apply elem_of_cons in Hp as [->|Hp]; [by left|]. apply list_elem_of_singleton in Hp as ->. right. by left.
Defined.
